(* ===== verification/_CoqProject ===== *)
-Q . S2P
Prelude.v
StdLib.v
Timeouts.v
Resource.v
Popol.v
Channel.v
Waker.v
Reactor.v
ReactorToy.v
ReactorSpec.v
ReactorEvents.v
ReactorRun.v
ReactorOnce.v
ReactorConc.v
Net.v
Sockets.v
Connect.v
NetStd.v
Auth.v
Noise.v
XkAddr.v
Transcoders.v
NoiseSpec.v
NoisePair.v
NetResource.v
NetResourceSpec.v
NoiseTransport.v
Frame.v
Tunnel.v
Command.v
Server.v
NetStable.v
ServerSpec.v
Client.v
Nsh.v
NshSpec.v
Shell.v
Processor.v
ProcessorSpec.v
ServerRound.v
NshServe.v
NshRun.v
ActorReactor.v
ActorSpec.v
ActorPool.v
ActorSched.v
ActorOnce.v
ActorToy.v
ActorTcp.v
ActorTcpSpec.v
ActorTcpPool.v
ActorPeer.v
ActorPeerSpec.v
