(* ===== verification/Prelude.v ===== *)
(** * Verification of the netservices workspace

    The repository is a stack for network services on Unix. From the bottom:
    - [io-reactor/]: a reactor. One thread polls the descriptors of its
      listeners and transports, hands their I/O events to a service (the
      [Handler]), and carries out the actions the service asks for. Other
      threads reach it through a controller, over two channels and a pipe that
      wakes the poll.
    - [src/]: sockets, sessions and resources. A session is a socket with an
      identity: a plain socket, or a Noise XK session with authentication. A
      [NetResource] makes a session into a transport of the reactor, and a
      [NetAccept] a listening socket into a listener. There are also frames
      and a tunnel.
    - [nsh/]: a remote command server on top of these.
    - [re-actor/]: an earlier reactor, with thread pools of actors. A pool is
      a thread with a scheduler, which reports I/O events of its actors, and a
      channel on which controllers ask it to start and stop actors. There are
      two schedulers and two kinds of TCP actors; [src/actors/] has peers on
      top of them.

    ** How the code is modelled

    A method that takes [&mut self] and returns a [Result] is a [prog] over its
    state (this file): a function from the state to an [outcome], which is a
    returned result and state, a panic, or a call that never returns. [?] is
    the bind of this monad; an error keeps the mutations made before it. A
    loop of the source that its own state does not bound takes fuel, and
    running out of fuel is [Hang]; where a theorem says that such a loop
    returns, it says which fuel is enough.
    Traits are type classes; the promises one component makes to another are
    classes of laws next to them ([ResourceLaws], [StableResource], [PollLaws],
    [ChannelLaws], [ConnectionLaws], [SessionLaws], [ClientSession],
    [XkLaws], [SplitIoLaws], [FrameLaws], [ActorLaws], [SchedulerLaws]),
    which the implementations prove and the clients assume. Code that is not in
    the repository (popol, crossbeam, the cyphernet crate, system calls) is a
    class too, with concrete instances on which the witnesses run. Times are
    durations in nanoseconds, descriptors are integers, buffers are lists of
    bytes, and hash maps are finite maps. Log messages are left out.

    ** The files

    Shared: this file (results, programs, [wp] and [respects], tactics),
    StdLib.v (durations, sorting, [Vec], [debug_assert!]), Net.v
    (src/connection.rs, src/session.rs: the traits, plain sockets, and the
    socket that a script drives), and Sockets.v (how sockets are created).

    io-reactor:
    - Timeouts.v: timeouts.rs, and its copy re-actor/src/util/timeout.rs.
    - Resource.v: resource.rs and poller/mod.rs: [Resource], [WriteAtomic],
      [IoType], [Poll].
    - Popol.v: poller/popol.rs.
    - Channel.v, Waker.v: the channels, and the pipe with [reset_fd] and [wake].
    - Reactor.v: reactor.rs, every function, in the order of the source.
    - ReactorSpec.v: the abstract reactor (a table of live resources), the
      invariant [wf_runtime] and the refinement of the actions.
    - ReactorEvents.v: dispatching a batch of events.
    - ReactorRun.v: the rest of an iteration of [Runtime::run], and what goes
      wrong with timers and with descriptors that are used again.
    - ReactorOnce.v: a whole iteration and its invariant [healthy], for any
      registrations of fresh descriptors ([env_once]).
    - ReactorConc.v: controllers and the reactor's thread, interleaved.
    - ReactorToy.v: a concrete service for the witnesses.

    src:
    - Connect.v: how the sockets of connection.rs and listener.rs connect and
      bind; socks5.rs. NetStd.v: both kinds of sockets as connections, sessions
      and listeners (connection.rs, session.rs, listener.rs).
    - Auth.v: auth.rs. Noise.v, NoiseSpec.v, XkAddr.v: noise.rs. NoisePair.v: the
      two ends of a handshake, whose I/O events interleave in any way.
    - Transcoders.v: transcoders/.
    - NetResource.v, NetResourceSpec.v: resources.rs and listener.rs.
    - NoiseTransport.v: two transports that establish a Noise session, in the
      loops of their reactors.
    - NetStable.v: resources keep their id and descriptor, which is what the
      reactor's theorems ask of them.
    - Frame.v: frame.rs. Tunnel.v: tunnel.rs.

    nsh:
    - Command.v: command.rs and the log levels of shell.rs. Shell.v: the rest
      of shell.rs.
    - Server.v, ServerSpec.v: server.rs.
    - Processor.v, ProcessorSpec.v: processor.rs.
    - ServerRound.v: server, processor and transports in an iteration of the
      reactor.
    - Client.v: client.rs. Nsh.v, NshSpec.v: main.rs, the configuration and the
      modes that connect. NshServe.v: the mode that listens, and the first
      iteration of its reactor. NshRun.v: [run] and [main] as a whole.

    re-actor:
    - ActorReactor.v: the directory reactor/, and the traits of actors/mod.rs
      and schedulers/mod.rs. Controllers of all threads share their channels,
      so those are a store, and a sender is a handle.
    - ActorSpec.v: the controller and [Reactor::new]. ActorPool.v: the loop of
      a pool.
    - ActorSched.v: schedulers/popol.rs and schedulers/polling.rs; ActorOnce.v:
      what the latter reports over its life.
    - ActorTcp.v, ActorTcpSpec.v: actors/stdtcp.rs and actors/socket2.rs.
      ActorTcpPool.v: connections as the actors of a pool.
    - ActorPeer.v, ActorPeerSpec.v: src/actors/, whose sessions and peers wrap
      those TCP actors.
    - ActorToy.v: concrete actors, schedulers and pools for the witnesses.

    ** What is shown

    The reactor refines its specification: on a well-formed runtime actions do
    what the table of live resources says, a batch of events is dispatched
    whole and without panics, commands and control messages are taken in the
    order they were sent, a whole iteration returns and keeps the invariant,
    and no interleaving loses a wake-up. A transport follows its state machine,
    sends what it accepts in order, and delivers what its session reads. A Noise
    session carries no application data before it is established, and then has
    the identity that was verified. Two honest ends establish a session with
    each other in every interleaving of their events, and so do their transports
    under every fair schedule of the two reactors. Frames and commands survive
    their trips; the tunnel accounts for every byte; timers fire when due, and
    the two timer managers agree. The server keeps early messages for their
    peer, its rounds of actions end, and a forwarded command reaches its hop. A
    daemon registers its listener in the first iteration of its reactor; one
    more iteration takes a connection to a watched transport, and a command from
    the socket to its answer. A transport off the reactor is a session itself.
    The client sends exactly its command, and the program prints exactly what
    the session delivers, and says by its exit code whether it got there; the
    identity of a first run is that of every later one. A pool of the earlier
    reactor keeps its actors and its scheduler consistent, so that its loop
    never panics, with TCP connections as its actors too; the controller queues
    requests where they belong; a listener hands over what it accepts.

    Some theorems state behaviour the code has and does not mean to have: a due
    timer is never removed and makes every later poll return at once; a
    descriptor that is used again after its listener hung up makes the reactor
    panic; a wake on a full pipe never returns; buffered bytes of a transport
    wait for the next send, and so do credentials that were not sent in time; a
    handshake message that arrives in parts is lost; a peer that was refused for
    its identity stays established; an outbox outlives its peer; a connection to
    a host by name blocks; a socket2 listener never listens; the answer of a hop
    is taken for a command; a failed read ends the client's output as a success.
    The earlier reactor cannot be built with any pool, refuses to stop actors
    and to send to them, reports an actor at most once with polling, and its TCP
    actors never receive; the Noise sessions over them send in the clear.

    ** Fuel

    [handle_actions] and the loops on channels take the queue they find plus
    what their own handling adds; [server_actions_end] bounds this for the
    server. The loop over events takes one step per queued event and one to
    find the queue empty. [read_exact] and [write_all] take one step per byte
    and per interrupted call. [Runtime::run] is a list of pairs of clock
    readings, one per iteration, and a pool's [run] a list of readings; the
    fuel of its inner loops is a bound that [pool_run_safe] gives. The client's
    loop takes one step per byte that the session still has, and one.

    ** Not modelled

    examples-old (written against the earlier reactor and not built), starting
    threads (what they run is modelled, and how they end is an argument), the
    parsing of arguments in nsh (the library clap), messages and formatting for
    logs, and empty traits that only mark types. *)

From Stdlib Require Import ZArith Lia.
From stdpp Require Export base tactics list gmap strings numbers.

(** ** Results of Rust computations *)

(** What running a piece of Rust code can come to: a value, a panic (the
    thread unwinds and its state is gone), or a call that never returns. *)
Inductive outcome (A : Type) : Type :=
| Ret (a : A)
| Panic (msg : string)
| Hang.
Arguments Ret {A} a.
Arguments Panic {A} msg.
Arguments Hang {A}.

(** [std::result::Result], with the error type first so that it is a monad. *)
Inductive result (E A : Type) : Type :=
| Ok (a : A)
| Err (e : E).
Arguments Ok {E A} a.
Arguments Err {E A} e.

#[global] Instance outcome_ret : MRet outcome := λ A a, Ret a.
#[global] Instance outcome_bind : MBind outcome := λ A B k m,
  match m with
  | Ret a => k a
  | Panic msg => Panic msg
  | Hang => Hang
  end.

#[global] Instance result_ret {E} : MRet (result E) := λ A a, Ok a.
#[global] Instance result_bind {E} : MBind (result E) := λ A B k m,
  match m with
  | Ok a => k a
  | Err e => Err e
  end.

#[global] Instance result_eq_dec {E A} `{EqDecision E, EqDecision A} :
  EqDecision (result E A).
Proof. solve_decision. Defined.

#[global] Instance outcome_eq_dec {A} `{EqDecision A} : EqDecision (outcome A).
Proof. solve_decision. Defined.

(** [Result::map_err], [Result::is_ok]. *)
Definition map_err {E F A} (f : E → F) (r : result E A) : result F A :=
  match r with
  | Ok a => Ok a
  | Err e => Err (f e)
  end.

Definition is_ok {E A} (r : result E A) : bool :=
  match r with
  | Ok _ => true
  | Err _ => false
  end.

(** [Option::expect] and [Option::ok_or]. *)
Definition expect {A} (o : option A) (msg : string) : outcome A :=
  match o with
  | Some a => Ret a
  | None => Panic msg
  end.

Definition ok_or {E A} (o : option A) (e : E) : result E A :=
  match o with
  | Some a => Ok a
  | None => Err e
  end.

(** ** Methods taking [&mut self]

    A method that takes [&mut self] and returns a [Result] is a program over
    the state [S]: an [Err] keeps the state it was raised in, as in Rust,
    where the mutations made before a [?] stay. *)
Definition prog (S E A : Type) : Type := S → outcome (result E A * S).

#[global] Instance prog_ret {S E} : MRet (prog S E) := λ A a s, Ret (Ok a, s).
#[global] Instance prog_bind {S E} : MBind (prog S E) := λ A B k m s,
  match m s with
  | Ret (Ok a, s') => k a s'
  | Ret (Err e, s') => Ret (Err e, s')
  | Panic msg => Panic msg
  | Hang => Hang
  end.

Section prog_ops.
Context {S E : Type}.

Definition gets {A} (f : S → A) : prog S E A := λ s, Ret (Ok (f s), s).
Definition modify (f : S → S) : prog S E unit := λ s, Ret (Ok tt, f s).
Definition throw {A} (e : E) : prog S E A := λ s, Ret (Err e, s).
Definition panic {A} (msg : string) : prog S E A := λ _, Panic msg.

(** The [?] operator on a value that is already computed. *)
Definition of_result {A} (r : result E A) : prog S E A := λ s, Ret (r, s).

(** A computation that does not touch the state but may panic. *)
Definition of_outcome {A} (o : outcome A) : prog S E A := λ s,
  match o with
  | Ret a => Ret (Ok a, s)
  | Panic msg => Panic msg
  | Hang => Hang
  end.

(** [match m { Ok(..) => .., Err(..) => .. }]: the result becomes a value. *)
Definition attempt {F A} (m : prog S E A) : prog S F (result E A) := λ s,
  match m s with
  | Ret (r, s') => Ret (Ok r, s')
  | Panic msg => Panic msg
  | Hang => Hang
  end.

(** [m.map_err(f)]. *)
Definition with_err {F A} (f : E → F) (m : prog S E A) : prog S F A := λ s,
  match m s with
  | Ret (r, s') => Ret (map_err f r, s')
  | Panic msg => Panic msg
  | Hang => Hang
  end.

(** A method called on a field of [self]. *)
Definition zoom {T A} (get : T → S) (put : S → T → T) (m : prog S E A) :
    prog T E A := λ t,
  match m (get t) with
  | Ret (r, s') => Ret (r, put s' t)
  | Panic msg => Panic msg
  | Hang => Hang
  end.

(** [for x in l { f(x)?; }] *)
Fixpoint for_each {X} (l : list X) (f : X → prog S E unit) : prog S E unit :=
  match l with
  | [] => mret tt
  | x :: l' => f x ≫= λ _, for_each l' f
  end.

(** *** Total-correctness postconditions

    [wp m Q s]: run from [s], [m] returns (it neither panics nor hangs) and
    its result and final state satisfy [Q]. *)
Definition wp {A} (m : prog S E A) (Q : result E A → S → Prop) (s : S) : Prop :=
  match m s with
  | Ret (r, s') => Q r s'
  | Panic _ => False
  | Hang => False
  end.
End prog_ops.

(** The state after a run that returns. *)
Definition final {S E A} (s : S) (o : outcome (result E A * S)) : S :=
  match o with
  | Ret (_, s') => s'
  | _ => s
  end.

(** ** Tactics *)

(** Splits the matches of the goal and hypotheses and cleans up. *)
Ltac crunch :=
  repeat (simpl in *; simplify_eq; try case_match; simplify_eq; try done).

(** Exposes the state passing of programs. *)
Ltac unfold_prog :=
  unfold mbind, mret, prog_bind, prog_ret, outcome_bind, outcome_ret, gets, modify,
    throw, panic, of_result, of_outcome, attempt, with_err, zoom in *; cbn in *.

(** Turns boolean comparisons into propositions and calls [lia]. *)
Ltac blia :=
  repeat match goal with
  | H : _ && _ = true |- _ => apply andb_prop in H as [??]
  | H : Z.leb _ _ = true |- _ => apply Z.leb_le in H
  | H : Z.leb _ _ = false |- _ => apply Z.leb_gt in H
  | H : Z.ltb _ _ = true |- _ => apply Z.ltb_lt in H
  | H : Z.ltb _ _ = false |- _ => apply Z.ltb_ge in H
  | H : Nat.leb _ _ = true |- _ => apply Nat.leb_le in H
  | H : Nat.leb _ _ = false |- _ => apply Nat.leb_gt in H
  | H : Nat.ltb _ _ = true |- _ => apply Nat.ltb_lt in H
  | H : Nat.ltb _ _ = false |- _ => apply Nat.ltb_ge in H
  | H : Nat.eqb _ _ = true |- _ => apply Nat.eqb_eq in H
  | H : Nat.eqb _ _ = false |- _ => apply Nat.eqb_neq in H
  | H : Z.eqb _ _ = true |- _ => apply Z.eqb_eq in H
  | H : Z.eqb _ _ = false |- _ => apply Z.eqb_neq in H
  end; try lia.

(** Hints shared by the components. *)
Create HintDb net.
Create Rewrite HintDb net.

Section wp_rules.
Context {S E : Type}.
Implicit Types (s : S).

(** The monad's associativity, up to the state it runs from. *)
Lemma prog_bind_assoc {A B C} (m : prog S E A) (k : A → prog S E B) (j : B → prog S E C) s :
  ((m ≫= k) ≫= j) s = (m ≫= λ a, k a ≫= j) s.
Proof. unfold mbind, prog_bind. by destruct (m s) as [[[a|e] s']| |]. Qed.

Lemma wp_mono {A} (m : prog S E A) (Q Q' : result E A → S → Prop) s :
  wp m Q s → (∀ r s', Q r s' → Q' r s') → wp m Q' s.
Proof. unfold wp. destruct (m s) as [[r s']| |]; eauto. Qed.

Lemma wp_ret {A} (a : A) (Q : result E A → S → Prop) s :
  Q (Ok a) s → wp (mret a) Q s.
Proof. done. Qed.

Lemma wp_bind {A B} (m : prog S E A) (k : A → prog S E B) Q s :
  wp m (λ r s', match r with Ok a => wp (k a) Q s' | Err e => Q (Err e) s' end) s →
  wp (m ≫= k) Q s.
Proof. unfold wp, mbind, prog_bind. destruct (m s) as [[[a|e] s']| |]; done. Qed.

Lemma wp_gets {A} (f : S → A) (Q : result E A → S → Prop) s :
  Q (Ok (f s)) s → wp (gets f) Q s.
Proof. done. Qed.

Lemma wp_modify (f : S → S) (Q : result E unit → S → Prop) s :
  Q (Ok tt) (f s) → wp (modify f) Q s.
Proof. done. Qed.

Lemma wp_throw {A} (e : E) (Q : result E A → S → Prop) s :
  Q (Err e) s → wp (throw e) Q s.
Proof. done. Qed.

Lemma wp_of_result {A} (r : result E A) (Q : result E A → S → Prop) s :
  Q r s → wp (of_result r) Q s.
Proof. done. Qed.

Lemma wp_of_outcome {A} (a : A) (Q : result E A → S → Prop) s :
  Q (Ok a) s → wp (of_outcome (Ret a)) Q s.
Proof. done. Qed.

Lemma wp_bind_inv {A B} (m : prog S E A) (k : A → prog S E B) Q s :
  wp (m ≫= k) Q s →
  wp m (λ r s', match r with Ok a => wp (k a) Q s' | Err e => Q (Err e) s' end) s.
Proof. unfold wp, mbind, prog_bind. destruct (m s) as [[[a|e] s']| |]; done. Qed.

Lemma wp_attempt {F A} (m : prog S E A) (Q : result F (result E A) → S → Prop) s :
  wp m (λ r s', Q (Ok r) s') s → wp (attempt m) Q s.
Proof. unfold wp, attempt. destruct (m s) as [[r s']| |]; done. Qed.

Lemma wp_with_err {F A} (f : E → F) (m : prog S E A) Q s :
  wp m (λ r s', Q (map_err f r) s') s → wp (with_err f m) Q s.
Proof. unfold wp, with_err. destruct (m s) as [[r s']| |]; done. Qed.

Lemma wp_zoom {T A} (get : T → S) (put : S → T → T) (m : prog S E A) Q t :
  wp m (λ r s', Q r (put s' t)) (get t) → wp (zoom get put m) Q t.
Proof. unfold wp, zoom. destruct (m (get t)) as [[r s']| |]; done. Qed.

(** The invariant rule of a loop whose body returns [Ok] each time. *)
Lemma wp_for_each {X} (l : list X) (f : X → prog S E unit) (I : list X → S → Prop)
    (Q : result E unit → S → Prop) s :
  I l s →
  (∀ x l' s', I (x :: l') s' →
     wp (f x) (λ r s'', match r with Ok _ => I l' s'' | Err e => Q (Err e) s'' end) s') →
  (∀ s', I [] s' → Q (Ok tt) s') →
  wp (for_each l f) Q s.
Proof.
  intros HI Hstep Hend. revert s HI. induction l as [|x l IH]; intros s HI.
  - apply wp_ret. auto.
  - simpl. apply wp_bind. eapply wp_mono; [by apply Hstep|].
    intros [[]|e] s' H; auto.
Qed.
End wp_rules.

#[export] Hint Resolve wp_ret wp_gets wp_modify : net.

(** Runs the steps of a program whose effect is known. *)
Ltac wp_steps :=
  repeat (first [ match goal with |- wp (mbind _ _) _ _ => apply wp_bind end
                | apply wp_ret | apply wp_gets | apply wp_modify
                | apply wp_throw | apply wp_of_result | apply wp_of_outcome
                | apply wp_attempt | apply wp_with_err ]; simpl).

(** *** Fuel

    A run that returned does the same with more fuel. *)
Definition fuel_mono {S E A} (m : nat → prog S E A) : Prop :=
  ∀ f f' s x, f ≤ f' → m f s = Ret x → m f' s = Ret x.

Lemma fuel_mono_const {S E A} (m : prog S E A) : fuel_mono (λ _, m).
Proof. by intros f f' s x _. Qed.

Lemma fuel_mono_bind {S E A B} (m : nat → prog S E A) (k : nat → A → prog S E B) :
  fuel_mono m → (∀ a, fuel_mono (λ f, k f a)) → fuel_mono (λ f, m f ≫= k f).
Proof.
  intros Hm Hk f f' s x Hf. unfold mbind, prog_bind.
  destruct (m f s) as [[[a|e] s1]| |] eqn:E1; intros Hr; [..|done|done].
  - rewrite (Hm f f' s _ Hf E1). by eapply (Hk a).
  - by rewrite (Hm f f' s _ Hf E1).
Qed.

(** *** Two-state properties

    [respects R m]: whenever [m] returns, its final state is related to its
    initial state by [R]. With a preorder [R] the property follows the
    structure of the program. *)
Definition respects {S E A} (R : S → S → Prop) (m : prog S E A) : Prop :=
  ∀ s r s', m s = Ret (r, s') → R s s'.

Section respects_rules.
Context {S : Type} (R : S → S → Prop) `{!PreOrder R}.

Lemma respects_ret {E A} (a : A) : respects R (mret a : prog S E A).
Proof. intros s r s' [= <- <-]. reflexivity. Qed.

Lemma respects_bind {E A B} (m : prog S E A) (k : A → prog S E B) :
  respects R m → (∀ a, respects R (k a)) → respects R (m ≫= k).
Proof.
  intros Hm Hk s r s'. unfold mbind, prog_bind.
  destruct (m s) as [[[a|e] s1]| |] eqn:E1; [|intros [= <- <-]; eauto|done|done].
  intros. etransitivity; [by eapply Hm|by eapply Hk].
Qed.

Lemma respects_gets {E A} (f : S → A) : respects R (gets f : prog S E A).
Proof. intros s r s' [= <- <-]. reflexivity. Qed.

Lemma respects_throw {E A} (e : E) : respects R (throw e : prog S E A).
Proof. intros s r s' [= <- <-]. reflexivity. Qed.

Lemma respects_panic {E A} msg : respects R (panic msg : prog S E A).
Proof. intros s r s' [=]. Qed.

Lemma respects_of_result {E A} (r : result E A) : respects R (of_result r).
Proof. intros s r' s' [= <- <-]. reflexivity. Qed.

Lemma respects_of_outcome {E A} (o : outcome A) : respects R (of_outcome o : prog S E A).
Proof. intros s r s'. unfold of_outcome. destruct o; intros [=]; subst. reflexivity. Qed.

Lemma respects_modify {E} (f : S → S) : (∀ s, R s (f s)) → respects R (modify f : prog S E unit).
Proof. intros Hf s r s' [= <- <-]. apply Hf. Qed.

Lemma respects_attempt {E F A} (m : prog S E A) :
  respects R m → respects R (attempt m : prog S F (result E A)).
Proof.
  intros Hm s r s'. unfold attempt. destruct (m s) as [[r1 s1]| |] eqn:E1; intros [=]; subst.
  by eapply Hm.
Qed.

Lemma respects_with_err {E F A} (f : E → F) (m : prog S E A) :
  respects R m → respects R (with_err f m).
Proof.
  intros Hm s r s'. unfold with_err. destruct (m s) as [[r1 s1]| |] eqn:E1; intros [=]; subst.
  by eapply Hm.
Qed.

Lemma respects_for_each {E X} (l : list X) (f : X → prog S E unit) :
  (∀ x, respects R (f x)) → respects R (for_each l f).
Proof.
  intros Hf. induction l as [|x l IH]; simpl; [apply respects_ret|].
  apply respects_bind; auto.
Qed.
End respects_rules.

(** A function that returns early: [if decide P { return r }]. *)
Lemma respects_early {S E A} (R : S → S → Prop) `{!PreOrder R} (P : S → Prop)
    `{∀ s, Decision (P s)} (r : result E A) (m : prog S E A) :
  respects R m → respects R (λ s, if decide (P s) then Ret (r, s) else m s).
Proof. intros Hm s r' s' E1. destruct (decide (P s)); [by simplify_eq|by eapply Hm]. Qed.

(** A call on a field: related fields give related states. *)
Lemma respects_zoom {S T E A} (R : S → S → Prop) (Q : T → T → Prop) (get : T → S)
    (put : S → T → T) (m : prog S E A) :
  respects R m → (∀ t s', R (get t) s' → Q t (put s' t)) → respects Q (zoom get put m).
Proof.
  intros Hm HQ t r t'. unfold zoom. destruct (m (get t)) as [[r1 s1]| |] eqn:E1; intros [=]; subst.
  eapply HQ, Hm, E1.
Qed.

(** A postcondition that relates the two states. *)
Lemma respects_wp {S E A} (R : S → S → Prop) (m : prog S E A) :
  (∀ s, wp m (λ _ s', R s s') s) → respects R m.
Proof. intros Hm s r s' E1. specialize (Hm s). unfold wp in Hm. by rewrite E1 in Hm. Qed.

(** Follows the structure of a program; leaves the atomic steps. *)
Ltac respects_steps :=
  repeat first
    [ apply respects_bind; [..|intros ?]
    | apply respects_ret | apply respects_gets | apply respects_throw
    | apply respects_panic | apply respects_of_result | apply respects_of_outcome
    | apply respects_attempt | apply respects_with_err
    | apply respects_for_each; [..|intros ?]
    | match goal with |- PreOrder _ => typeclasses eauto end
    | progress case_match ].

(** ** Lists *)

(** [l.drain(..n)] leaves [drop n l] and yields [take n l]. *)
Lemma take_drop_app_middle {A} (n : nat) (l k : list A) :
  take n l ++ drop n l ++ k = l ++ k.
Proof. by rewrite app_assoc, take_drop. Qed.

Lemma take_ge_app {A} (n : nat) (l k : list A) :
  length l ≤ n → take n (l ++ k) = l ++ take (n - length l) k.
Proof. intros. rewrite take_app. by rewrite take_ge by lia. Qed.

Lemma existsb_false_Forall {A} (f : A → bool) (l : list A) :
  existsb f l = false ↔ Forall (λ x, f x = false) l.
Proof.
  induction l as [|x l IH]; simpl.
  - split; [constructor|done].
  - rewrite Forall_cons_iff, <-IH. destruct (f x); simpl; intuition done.
Qed.

(** ** Maps *)

Lemma alter_alter `{Countable K} {A} (f g : A → A) k (m : gmap K A) :
  alter f k (alter g k m) = alter (f ∘ g) k m.
Proof.
  apply map_eq. intros i. destruct (decide (k = i)) as [->|?].
  - rewrite !lookup_alter_eq. by destruct (m !! i).
  - by rewrite !lookup_alter_ne.
Qed.

#[export] Hint Rewrite @take_drop_app_middle @alter_alter : net.
