(* ===== verification/StdLib.v ===== *)
(** * The parts of Rust's standard library the sources use

    Durations with their overflow panics, [io::ErrorKind], [Vec] and
    [VecDeque] operations, and [slice::sort_unstable_by], whose order on equal
    elements is unspecified and which is therefore a class with laws. *)

From stdpp Require Import sorting.
From S2P Require Import Prelude.

#[local] Open Scope Z_scope.

(** ** Durations

    A [Duration] is a number of nanoseconds, from 0 to [Duration_MAX]; the
    operators [+] and [-] panic where [checked_add] and [checked_sub] return
    [None]. *)
Definition Duration_MAX : Z := (2 ^ 64 - 1) * 1000000000 + 999999999.

Definition from_secs (s : Z) : Z := s * 1000000000.
Definition from_millis (ms : Z) : Z := ms * 1000000.

Definition dur_add (a b : Z) : outcome Z :=
  if a + b <=? Duration_MAX then Ret (a + b)
  else Panic "overflow when adding durations".

Definition dur_sub (a b : Z) : outcome Z :=
  if b <=? a then Ret (a - b) else Panic "overflow when subtracting durations".

(** [Instant::duration_since] and [Instant - Instant] saturate at zero. *)
Definition instant_duration_since (a b : Z) : outcome Z := Ret (Z.max 0 (a - b)).

(** What the timer code asks of a time type: the difference of two points,
    which is the exact one when the first is not the earlier. *)
Class Clock := clock_sub : Z → Z → outcome Z.
Class ClockLaws `{Clock} : Prop :=
  clock_sub_ge a b : b ≤ a → clock_sub a b = Ret (a - b).

#[global] Instance duration_clock : Clock | 10 := dur_sub.
Definition instant_clock : Clock := instant_duration_since.

(** ** [slice::sort_unstable_by] *)

(** The comparison functions the documentation requires: total orders. *)
Record total_cmp {A} (cmp : A → A → comparison) : Prop := {
  cmp_antisym x y : cmp y x = CompOpp (cmp x y);
  cmp_trans x y z : cmp x y ≠ Gt → cmp y z ≠ Gt → cmp x z ≠ Gt;
}.

Class SortUnstable :=
  sort_unstable_by : ∀ A, (A → A → comparison) → list A → list A.
Class SortUnstableLaws `{SortUnstable} : Prop := {
  sort_unstable_perm A cmp l : sort_unstable_by A cmp l ≡ₚ l;
  sort_unstable_sorted A cmp l :
    total_cmp cmp → StronglySorted (λ x y, cmp x y ≠ Gt) (sort_unstable_by A cmp l);
}.
#[global] Arguments sort_unstable_by {_ A} cmp l.

(** One lawful sort, to run the model with. *)
Fixpoint insert_by {A} (cmp : A → A → comparison) (x : A) (l : list A) : list A :=
  match l with
  | [] => [x]
  | y :: l' => match cmp x y with
               | Gt => y :: insert_by cmp x l'
               | _ => x :: l
               end
  end.

Definition insertion_sort : SortUnstable := λ A cmp l, foldr (insert_by cmp) [] l.

(** ** [Vec] *)

(** [Vec::pop] takes the last element. *)
Definition vec_pop {A} (l : list A) : option (A * list A) :=
  match rev l with
  | [] => None
  | x :: r => Some (x, rev r)
  end.

(** [Iterator::any] with a closure that may panic; it stops at the first
    element the closure accepts. *)
Fixpoint iter_any {A} (l : list A) (f : A → outcome bool) : outcome bool :=
  match l with
  | [] => Ret false
  | x :: l' => b ← f x; if b : bool then Ret true else iter_any l' f
  end.

(** ** [debug_assert!]: it checks only when [debug_assertions] are on *)

Definition debug_assert {S E} (debug : bool) (cond : S → bool) (msg : string) : prog S E unit :=
  λ s, if debug && negb (cond s) then Panic msg else Ret (Ok tt, s).

(** ** Lemmas *)

#[global] Instance duration_clock_laws : ClockLaws.
Proof. intros a b ?. unfold clock_sub, duration_clock, dur_sub. by rewrite (proj2 (Z.leb_le b a)). Qed.

Lemma instant_clock_laws : @ClockLaws instant_clock.
Proof.
  intros a b ?. unfold clock_sub, instant_clock, instant_duration_since. f_equal. lia.
Qed.

Lemma insert_by_perm {A} cmp (x : A) l : insert_by cmp x l ≡ₚ x :: l.
Proof.
  induction l as [|y l IH]; simpl; [done|].
  destruct (cmp x y); [done|done|]. rewrite IH. constructor.
Qed.

Lemma insert_by_sorted {A} cmp (x : A) l :
  total_cmp cmp → StronglySorted (λ x y, cmp x y ≠ Gt) l →
  StronglySorted (λ x y, cmp x y ≠ Gt) (insert_by cmp x l).
Proof.
  intros Hc. induction 1 as [|y l Hl IH Hy]; simpl.
  - repeat constructor.
  - destruct (cmp x y) eqn:E.
    + constructor; [by constructor|]. constructor; [congruence|].
      eapply Forall_impl; [|exact Hy]. intros z Hz. eapply (cmp_trans _ Hc _ y); congruence.
    + constructor; [by constructor|]. constructor; [congruence|].
      eapply Forall_impl; [|exact Hy]. intros z Hz. eapply (cmp_trans _ Hc _ y); congruence.
    + constructor; [done|]. rewrite insert_by_perm. constructor; [|done].
      rewrite (cmp_antisym _ Hc), E. done.
Qed.

Lemma insertion_sort_laws : @SortUnstableLaws insertion_sort.
Proof.
  split; intros A cmp l; unfold sort_unstable_by, insertion_sort.
  - induction l as [|x l IH]; simpl; [done|]. by rewrite insert_by_perm, IH.
  - intros Hc. induction l as [|x l IH]; simpl; [constructor|]. by apply insert_by_sorted.
Qed.

Lemma vec_pop_snoc {A} (l : list A) x : vec_pop (l ++ [x]) = Some (x, l).
Proof. unfold vec_pop. rewrite rev_app_distr. simpl. by rewrite rev_involutive. Qed.

Lemma vec_pop_nil {A} : vec_pop (@nil A) = None.
Proof. done. Qed.

Lemma iter_any_ret {A} (l : list A) (f : A → outcome bool) (p : A → bool) :
  Forall (λ x, f x = Ret (p x)) l → iter_any l f = Ret (existsb p l).
Proof.
  induction 1 as [|x l Hx _ IH]; simpl; [done|].
  rewrite Hx. simpl. by destruct (p x).
Qed.

#[export] Hint Rewrite @vec_pop_snoc @vec_pop_nil : net.
