(* ===== verification/Timeouts.v ===== *)
(** * Timers: io-reactor/src/timeouts.rs and re-actor/src/util/timeout.rs

    The two files hold the same [TimeoutManager], over [Duration]s since the
    epoch in one and over [Instant]s in the other. The code is modelled once,
    for any [Clock]; module [ReActor] is its instance at [Instant]s. *)

From stdpp Require Import sorting.
From S2P Require Import Prelude StdLib.

#[local] Open Scope Z_scope.

Record TimeoutManager (K : Type) := {
  timeouts : list (K * Z);
  threshold : Z;
}.
Arguments Build_TimeoutManager {K} _ _.
Arguments timeouts {K} _.
Arguments threshold {K} _.

(** [|(_, a), (_, b)| b.cmp(a)] *)
Definition later_first {K} (x y : K * Z) : comparison := Z.compare y.2 x.2.

Section timeouts.
Context {K : Type} `{Clock} `{SortUnstable}.

Definition new (threshold : Z) : TimeoutManager K :=
  {| timeouts := []; threshold := threshold |}.

Definition len (tm : TimeoutManager K) : nat := length (timeouts tm).

Definition is_empty (tm : TimeoutManager K) : bool :=
  match timeouts tm with [] => true | _ => false end.

(** The closure [register] passes to [any]. *)
Definition too_close (thr time : Z) (x : K * Z) : outcome bool :=
  if x.2 <? time
  then d ← clock_sub time x.2; Ret (d <? thr)
  else d ← clock_sub x.2 time; Ret (d <? thr).

Definition register (tm : TimeoutManager K) (key : K) (time : Z) :
    outcome (bool * TimeoutManager K) :=
  close ← iter_any (timeouts tm) (too_close (threshold tm) time);
  if close : bool then Ret (false, tm)
  else Ret (true, {| timeouts := sort_unstable_by later_first (timeouts tm ++ [(key, time)]);
                     threshold := threshold tm |}).

Definition next (tm : TimeoutManager K) (now : Z) : outcome (option Z) :=
  match list.last (timeouts tm) with
  | None => Ret None
  | Some (_, t) =>
      if now <=? t then d ← clock_sub t now; Ret (Some d)
      else Ret (Some (from_secs 0))
  end.

(** The [while let Some((k, t)) = self.timeouts.pop()] loop; [None] when the
    fuel runs out. *)
Fixpoint check_loop (fuel : nat) (time : Z) (ts : list (K * Z)) (fired : list K) :
    option (list (K * Z) * list K) :=
  match fuel with
  | O => None
  | S fuel =>
      match vec_pop ts with
      | None => Some (ts, fired)
      | Some ((k, t), ts') =>
          if t <=? time then check_loop fuel time ts' (fired ++ [k])
          else Some (ts' ++ [(k, t)], fired)
      end
  end.

Definition check (tm : TimeoutManager K) (time : Z) (fired : list K) :
    outcome (nat * TimeoutManager K * list K) :=
  let before := length fired in
  match check_loop (S (len tm)) time (timeouts tm) fired with
  | None => Hang
  | Some (ts, fired') =>
      Ret ((length fired' - before)%nat,
           {| timeouts := ts; threshold := threshold tm |}, fired')
  end.

Definition check_now (tm : TimeoutManager K) (fired : list K) :
    outcome (nat * TimeoutManager K * list K) :=
  check tm (from_millis 0) fired.
End timeouts.

(** ** The same manager over [Instant]s *)
Module ReActor.
Section instants.
Context {K : Type} `{SortUnstable}.

Definition new : Z → TimeoutManager K := Timeouts.new.
Definition len : TimeoutManager K → nat := Timeouts.len.
Definition is_empty : TimeoutManager K → bool := Timeouts.is_empty.
Definition register : TimeoutManager K → K → Z → outcome (bool * TimeoutManager K) :=
  @Timeouts.register K instant_clock _.
Definition next : TimeoutManager K → Z → outcome (option Z) :=
  @Timeouts.next K instant_clock.
Definition check : TimeoutManager K → Z → list K → outcome (nat * TimeoutManager K * list K) :=
  Timeouts.check.
(** [Instant::now()] is an argument. *)
Definition check_now (now : Z) (tm : TimeoutManager K) (fired : list K) :
    outcome (nat * TimeoutManager K * list K) :=
  Timeouts.check tm now fired.
End instants.
End ReActor.

(** ** The unit test of both managers

    [test_wake], from the time [now] and over the clock of each; a failed
    assertion panics. *)
Section test.
Context `{Clock} `{SortUnstable}.

Definition assert (b : bool) : outcome unit := if b then Ret tt else Panic "assertion failed".

Definition test_wake_at (now : Z) : outcome unit :=
  let tm := new (from_secs 0) in
  '(_, tm) ← register tm 10 (now + from_millis 8);
  '(_, tm) ← register tm 11 (now + from_millis 16);
  '(_, tm) ← register tm 12 (now + from_millis 64);
  '(_, tm) ← register tm 13 (now + from_millis 72);
  '(n, tm, timeouts) ← check tm now [];
  _ ← assert (n =? 0)%nat;
  _ ← assert (bool_decide (timeouts = []));
  _ ← assert (len tm =? 4)%nat;
  '(n, tm, timeouts) ← check tm (now + from_millis 9) timeouts;
  _ ← assert (n =? 1)%nat;
  _ ← assert (bool_decide (timeouts = [10]));
  _ ← assert (len tm =? 3)%nat;
  '(n, tm, timeouts) ← check tm (now + from_millis 66) [];
  _ ← assert (n =? 2)%nat;
  _ ← assert (bool_decide (timeouts = [11; 12]));
  _ ← assert (len tm =? 1)%nat;
  '(n, tm, timeouts) ← check tm (now + from_millis 96) [];
  _ ← assert (n =? 1)%nat;
  _ ← assert (bool_decide (timeouts = [13]));
  assert (is_empty tm).
End test.

Definition test_wake `{SortUnstable} : outcome unit := test_wake_at (from_millis 0).
Definition instant_test_wake `{SortUnstable} : Z → outcome unit := @test_wake_at instant_clock _.

(** ** Well-formed managers

    The timers are kept latest first, consecutive ones at least the threshold
    apart. *)
Definition gap {K} (thr : Z) (x y : K * Z) : Prop := y.2 + thr ≤ x.2.

Definition wf {K} (tm : TimeoutManager K) : Prop :=
  0 ≤ threshold tm ∧ StronglySorted (gap (threshold tm)) (timeouts tm).

(** The timers that are due at [time], and those that are not. *)
Definition due {K} (time : Z) (x : K * Z) : bool := x.2 <=? time.

Definition far {K} (thr time : Z) (x : K * Z) : Prop := thr ≤ Z.abs (x.2 - time).

(** ** Lemmas *)

Lemma later_first_total {K} : total_cmp (@later_first K).
Proof.
  unfold later_first. split.
  - intros x y. apply Z.compare_antisym.
  - intros x y z. destruct (Z.compare_spec y.2 x.2), (Z.compare_spec z.2 y.2), (Z.compare_spec z.2 x.2);
      try done; intros; lia.
Qed.

Lemma far_pair_sorted {K} thr (l : list (K * Z)) :
  StronglySorted (λ x y, later_first x y ≠ Gt) l →
  ForallOrdPairs (λ x y, thr ≤ Z.abs (x.2 - y.2)) l →
  StronglySorted (gap thr) l.
Proof.
  induction 1 as [|x l Hl IH Hx]; intros Hp; [constructor|].
  inversion Hp as [|? ? Hfar Hp']; subst. constructor; [auto|].
  rewrite Forall_forall in Hx, Hfar |- *. intros y Hy.
  specialize (Hx y Hy). specialize (Hfar y Hy). unfold gap, later_first in *.
  destruct (Z.compare_spec y.2 x.2); [lia|lia|done].
Qed.

Lemma sorted_far_pair {K} thr (l : list (K * Z)) :
  0 ≤ thr → StronglySorted (gap thr) l →
  ForallOrdPairs (λ x y, thr ≤ Z.abs (x.2 - y.2)) l.
Proof.
  intros Ht. induction 1 as [|x l Hl IH Hx]; constructor; [|done].
  eapply Forall_impl; [|exact Hx]. unfold gap. intros y ?. lia.
Qed.

Lemma ForallOrdPairs_perm {A} (R : A → A → Prop) l l' :
  (∀ x y, R x y → R y x) → l ≡ₚ l' → ForallOrdPairs R l → ForallOrdPairs R l'.
Proof.
  intros Hsym. induction 1 as [|x l l' Hp IH|x y l|l l' l'' _ IH1 _ IH2]; intros HR.
  - done.
  - inversion HR; subst. constructor; [by rewrite <-Hp|auto].
  - inversion HR as [|? ? Hy HR']; subst. inversion HR' as [|? ? Hx HR'']; subst.
    apply Forall_cons_iff in Hy as [??]. repeat constructor; auto.
  - auto.
Qed.

Section lemmas.
Context {K : Type} `{CL : ClockLaws} `{SL : SortUnstableLaws}.
Implicit Types (tm : TimeoutManager K).

Lemma too_close_ret thr time (x : K * Z) :
  too_close thr time x = Ret (Z.abs (x.2 - time) <? thr).
Proof.
  unfold too_close. destruct (Z.ltb_spec x.2 time);
    rewrite clock_sub_ge by lia; simpl; do 2 f_equal; lia.
Qed.

Lemma register_cases tm key time :
  register tm key time =
    if existsb (λ x, Z.abs (x.2 - time) <? threshold tm) (timeouts tm)
    then Ret (false, tm)
    else Ret (true, {| timeouts := sort_unstable_by later_first (timeouts tm ++ [(key, time)]);
                       threshold := threshold tm |}).
Proof.
  unfold register. rewrite (iter_any_ret _ _ (λ x, Z.abs (x.2 - time) <? threshold tm)).
  - done.
  - apply Forall_true. intros x. apply too_close_ret.
Qed.

Lemma register_sorted tm key time :
  wf tm → Forall (far (threshold tm) time) (timeouts tm) →
  StronglySorted (gap (threshold tm))
    (sort_unstable_by later_first (timeouts tm ++ [(key, time)])).
Proof.
  intros [Ht Hs] Hfar. apply far_pair_sorted.
  - apply sort_unstable_sorted, later_first_total.
  - eapply (ForallOrdPairs_perm _ ((key, time) :: timeouts tm)).
    + intros; lia.
    + rewrite sort_unstable_perm. apply Permutation_cons_append.
    + constructor; [|by apply sorted_far_pair].
      eapply Forall_impl; [|exact Hfar]. unfold far. simpl. intros; lia.
Qed.

Lemma not_close_far thr time (l : list (K * Z)) :
  existsb (λ x, Z.abs (x.2 - time) <? thr) l = false ↔ Forall (far thr time) l.
Proof.
  rewrite existsb_false_Forall, !Forall_forall. unfold far.
  split; intros Hf x Hx; specialize (Hf x Hx); simpl in *; blia.
Qed.

(** A registration loses no timer. *)
Lemma register_keeps tm key time b tm' :
  wf tm → register tm key time = Ret (b, tm') →
  wf tm' ∧ ∀ x, x ∈ timeouts tm → x ∈ timeouts tm'.
Proof.
  intros Hwf. rewrite register_cases.
  destruct (existsb _ _) eqn:E; intros [= <- <-]; [done|].
  apply not_close_far in E. split.
  - split; simpl; [exact (proj1 Hwf)|by apply register_sorted].
  - intros x Hx. simpl. rewrite sort_unstable_perm, elem_of_app. by left.
Qed.

(** In a well-formed manager the last timer is the earliest. *)
Lemma wf_last_min tm k t :
  wf tm → list.last (timeouts tm) = Some (k, t) → Forall (λ x, t ≤ x.2) (timeouts tm).
Proof.
  intros [Ht Hs]. revert Hs. generalize (timeouts tm) as l.
  induction l as [|x l IH]; [done|]. intros Hs Hlast.
  apply StronglySorted_inv in Hs as [Hs Hx]. destruct l as [|y l].
  - simpl in Hlast. simplify_eq. repeat constructor. simpl. lia.
  - specialize (IH Hs Hlast). constructor; [|done].
    apply Forall_cons_iff in Hx as [Hxy _]. apply Forall_cons_iff in IH as [Hy _].
    unfold gap in *. lia.
Qed.

Lemma StronglySorted_snoc_inv {A} (R : A → A → Prop) l x :
  StronglySorted R (l ++ [x]) → StronglySorted R l ∧ Forall (λ y, R y x) l.
Proof.
  induction l as [|y l IH]; simpl; [repeat constructor|].
  intros [Hs Hy]%StronglySorted_inv. destruct (IH Hs) as [??].
  apply Forall_app in Hy as [? Hyx%Forall_cons_iff]. destruct Hyx.
  split; constructor; auto.
Qed.

Lemma filter_none {A} (f : A → bool) (l : list A) :
  Forall (λ x, f x = false) l → List.filter f l = [].
Proof. induction 1 as [|x l Hx _ IH]; simpl; [done|]. by rewrite Hx. Qed.

Lemma filter_all {A} (f : A → bool) (l : list A) :
  Forall (λ x, f x = true) l → List.filter f l = l.
Proof. induction 1 as [|x l Hx _ IH]; simpl; [done|]. by rewrite Hx, IH. Qed.

(** The loop of [check] ends within its fuel, leaves the timers that are not
    due and appends the keys of the others, earliest first. *)
Lemma check_loop_spec fuel thr time (ts : list (K * Z)) fired :
  0 ≤ thr → StronglySorted (gap thr) ts → (length ts < fuel)%nat →
  check_loop fuel time ts fired =
    Some (List.filter (λ x, negb (due time x)) ts,
          fired ++ (rev (List.filter (due time) ts)).*1).
Proof.
  intros Ht. revert ts fired. induction fuel as [|fuel IH]; intros ts fired Hs Hlen; [lia|].
  destruct ts as [|[k t] ts _] using rev_ind; simpl.
  - by rewrite app_nil_r.
  - apply StronglySorted_snoc_inv in Hs as [Hs Hgap]. rewrite vec_pop_snoc.
    rewrite length_app in Hlen. simpl in Hlen.
    rewrite !List.filter_app. simpl. unfold due at 2 4. simpl.
    destruct (Z.leb_spec t time) as [Hd|Hd]; simpl.
    + rewrite IH by (done || lia). rewrite app_nil_r, rev_app_distr, <-app_assoc. done.
    + assert (Forall (λ x : K * Z, due time x = false) ts) as Hlate.
      { eapply Forall_impl; [|exact Hgap]. unfold gap, due. simpl. intros; lia. }
      rewrite app_nil_r, (filter_none (due time)) by done.
      rewrite (filter_all (λ x, negb (due time x))), app_nil_r; [done|].
      eapply Forall_impl; [|exact Hlate]. by intros ? ->.
Qed.

Lemma check_eq tm time fired :
  wf tm →
  check tm time fired =
    Ret (length (List.filter (due time) (timeouts tm)),
         {| timeouts := List.filter (λ x, negb (due time x)) (timeouts tm);
            threshold := threshold tm |},
         fired ++ (rev (List.filter (due time) (timeouts tm))).*1).
Proof.
  intros [Ht Hs]. unfold check, len. rewrite (check_loop_spec _ (threshold tm)) by (done || lia).
  rewrite length_app, length_fmap, length_rev. do 3 f_equal. lia.
Qed.

Lemma filter_wf tm f :
  wf tm → wf {| timeouts := List.filter f (timeouts tm); threshold := threshold tm |}.
Proof.
  intros [Ht Hs]. split; [done|]. simpl. induction Hs as [|x l Hl IH Hx]; simpl; [constructor|].
  destruct (f x); [|done]. constructor; [done|].
  rewrite Forall_forall in Hx |- *. intros y [Hy _]%List.filter_In. auto.
Qed.

Lemma next_eq tm now :
  next tm now = Ret (match list.last (timeouts tm) with
                     | None => None
                     | Some (_, t) => Some (Z.max 0 (t - now))
                     end).
Proof.
  unfold next. destruct (list.last (timeouts tm)) as [[k t]|]; [|done].
  destruct (Z.leb_spec now t).
  - rewrite clock_sub_ge by lia. simpl. do 2 f_equal. lia.
  - unfold from_secs. do 2 f_equal. lia.
Qed.
End lemmas.

Lemma rev_filter_ascending {K} thr time (l : list (K * Z)) :
  0 ≤ thr → StronglySorted (gap thr) l →
  StronglySorted (λ x y, x.2 ≤ y.2) (rev (List.filter (due time) l)).
Proof.
  intros Ht. induction 1 as [|x l Hl IH Hx]; simpl; [constructor|].
  destruct (due time x); [|done]. simpl. apply StronglySorted_app_2; [|done|repeat constructor].
  intros y ? Hy%list_elem_of_In ->%list_elem_of_singleton.
  apply in_rev, List.filter_In in Hy as [Hy _].
  rewrite Forall_forall in Hx. specialize (Hx y Hy). unfold gap in Hx. lia.
Qed.

Lemma filter_all_late {K} time (l : list (K * Z)) :
  Forall (λ x, time < x.2) l →
  List.filter (due time) l = [] ∧ List.filter (λ x, negb (due time x)) l = l.
Proof.
  intros Hl. assert (Forall (λ x : K * Z, due time x = false) l) as Hd.
  { eapply Forall_impl; [|exact Hl]. unfold due. simpl. intros; lia. }
  split; [by apply filter_none|]. apply filter_all.
  eapply Forall_impl; [|exact Hd]. by intros ? ->.
Qed.

(** ** Properties *)

Section properties.
Context {K : Type} `{CL : ClockLaws} `{SL : SortUnstableLaws}.
Implicit Types (tm : TimeoutManager K).

(** C32. [register] never panics. It answers [true] exactly when every tracked
    timer is at least the threshold away from the new one; it then tracks the
    new timer and all the old ones, and otherwise changes nothing. In both
    cases the manager stays well formed. *)
Theorem register_spec tm key time :
  wf tm →
  ∃ b tm', register tm key time = Ret (b, tm') ∧ wf tm' ∧ threshold tm' = threshold tm ∧
    (b = true ↔ Forall (far (threshold tm) time) (timeouts tm)) ∧
    (b = true → timeouts tm' ≡ₚ (key, time) :: timeouts tm) ∧
    (b = false → tm' = tm).
Proof.
  intros Hwf. rewrite register_cases.
  destruct (existsb _ _) eqn:E; (eexists _, _; split; [done|]).
  - split_and!; try done. rewrite <-not_close_far. split; congruence.
  - apply not_close_far in E.
    split; [split; simpl; [apply Hwf|by apply register_sorted]|]. split_and!; simpl; try done.
    intros _. rewrite sort_unstable_perm. symmetry. apply Permutation_cons_append.
Qed.

(** [next] never panics: it is [None] exactly when no timer is tracked,
    and otherwise the time that remains until the earliest timer (zero when
    that timer is in the past). *)
Theorem next_spec tm now :
  wf tm →
  ∃ o, next tm now = Ret o ∧
    match o with
    | None => timeouts tm = []
    | Some d => (∃ k t, (k, t) ∈ timeouts tm ∧ d = Z.max 0 (t - now)) ∧
                Forall (λ x, d ≤ Z.max 0 (x.2 - now)) (timeouts tm)
    end.
Proof.
  intros Hwf. rewrite next_eq. eexists; split; [done|].
  destruct (list.last (timeouts tm)) as [[k t]|] eqn:E; [|by apply last_None].
  split.
  - exists k, t. split; [|done]. apply last_Some_elem_of in E. done.
  - eapply Forall_impl; [|by eapply wf_last_min]. simpl. intros; lia.
Qed.

(** [check] returns: it appends the keys of the due timers to [fired] in
    the order of their times, returns how many there are, and keeps exactly
    the timers that are not due, in a well-formed manager. *)
Theorem check_spec tm time fired :
  wf tm →
  ∃ xs tm', check tm time fired = Ret (length xs, tm', fired ++ xs.*1) ∧
    xs ≡ₚ List.filter (due time) (timeouts tm) ∧
    StronglySorted (λ x y, x.2 ≤ y.2) xs ∧
    timeouts tm' = List.filter (λ x, negb (due time x)) (timeouts tm) ∧
    threshold tm' = threshold tm ∧ wf tm'.
Proof.
  intros Hwf. rewrite check_eq by done.
  eexists (rev (List.filter (due time) (timeouts tm))), _.
  split; [by rewrite length_rev|]. split_and!; try done.
  - symmetry. apply Permutation_rev.
  - eapply rev_filter_ascending; apply Hwf.
  - by apply filter_wf.
Qed.

(** The wait [next] asks for is the right one: at the end of it [check]
    fires at least one timer, and before the end it fires none and changes
    nothing. *)
Theorem wait_then_check tm now d fired :
  wf tm → next tm now = Ret (Some d) →
  (∃ n tm' fired', check tm (now + d) fired = Ret (S n, tm', fired')) ∧
  ∀ t, now ≤ t < now + d → check tm t fired = Ret (O, tm, fired).
Proof.
  intros Hwf. rewrite next_eq. destruct (list.last (timeouts tm)) as [[k t0]|] eqn:E; [|done].
  intros [= <-]. pose proof (wf_last_min _ _ _ Hwf E) as Hmin.
  apply last_Some in E as [l E]. split.
  - rewrite check_eq, E, List.filter_app, length_app by done. simpl.
    unfold due at 2. simpl. rewrite (proj2 (Z.leb_le _ _)) by lia. simpl.
    rewrite Nat.add_1_r. eauto.
  - intros t Ht. rewrite check_eq by done.
    destruct (filter_all_late t (timeouts tm)) as [-> ->].
    + eapply Forall_impl; [|exact Hmin]. simpl. intros; lia.
    + simpl. rewrite app_nil_r. by destruct tm.
Qed.

(** [check_now] of io-reactor compares the timers with the time zero and
    not with the current time: as long as no timer is set at the epoch it
    fires nothing, however late it is called. *)
Theorem check_now_fires_nothing tm fired :
  wf tm → Forall (λ x, 0 < x.2) (timeouts tm) →
  check_now tm fired = Ret (O, tm, fired).
Proof.
  intros Hwf Hpos. unfold check_now. change (from_millis 0) with 0. rewrite check_eq by done.
  destruct (filter_all_late 0 (timeouts tm)) as [-> ->]; [done|].
  simpl. rewrite app_nil_r. by destruct tm.
Qed.
End properties.

(** ** Witnesses: the timers of the documentation's examples *)

Definition doc_timers : TimeoutManager Z :=
  {| timeouts := [(11, from_secs 9); (10, from_secs 8)]; threshold := from_secs 1 |}.

Lemma doc_timers_wf : wf doc_timers.
Proof. split; [done|]. repeat constructor; done. Qed.

#[local] Existing Instance insertion_sort.
#[local] Existing Instance insertion_sort_laws.

(** The doc test of [register]: 8 s and 9 s fit, 9.541 s and 9.999 s do not. *)
Example register_doctest :
  (let tm := new (from_secs 1) in
   '(r1, tm) ← register tm 10 (from_secs 8);
   '(r2, tm) ← register tm 11 (from_secs 9);
   '(r3, tm) ← register tm 12 (from_millis 9541);
   '(r4, tm) ← register tm 12 (from_millis 9999);
   Ret (r1, r2, r3, r4, len tm)) = Ret (true, true, false, false, 2%nat).
Proof. by vm_compute. Qed.

Example test_wake_passes : test_wake = Ret tt.
Proof. by vm_compute. Qed.
Example instant_test_wake_passes : instant_test_wake (from_secs 5) = Ret tt.
Proof. by vm_compute. Qed.

Lemma register_spec_witness :
  wf doc_timers ∧
  ∃ b tm', register doc_timers 12 (from_secs 30) = Ret (b, tm') ∧ wf tm' ∧
    threshold tm' = threshold doc_timers ∧
    (b = true ↔ Forall (far (threshold doc_timers) (from_secs 30)) (timeouts doc_timers)) ∧
    (b = true → timeouts tm' ≡ₚ (12, from_secs 30) :: timeouts doc_timers) ∧
    (b = false → tm' = doc_timers).
Proof. split; [exact doc_timers_wf|]. exact (register_spec _ _ _ doc_timers_wf). Defined.

Lemma next_spec_witness :
  wf doc_timers ∧
  ∃ o, next doc_timers 0 = Ret o ∧
    match o with
    | None => timeouts doc_timers = []
    | Some d => (∃ k t, (k, t) ∈ timeouts doc_timers ∧ d = Z.max 0 (t - 0)) ∧
                Forall (λ x, d ≤ Z.max 0 (x.2 - 0)) (timeouts doc_timers)
    end.
Proof. split; [exact doc_timers_wf|]. exact (next_spec _ _ doc_timers_wf). Defined.

Lemma check_spec_witness :
  wf doc_timers ∧
  ∃ xs tm', check doc_timers (from_secs 8) [1] = Ret (length xs, tm', [1] ++ xs.*1) ∧
    xs ≡ₚ List.filter (due (from_secs 8)) (timeouts doc_timers) ∧
    StronglySorted (λ x y, x.2 ≤ y.2) xs ∧
    timeouts tm' = List.filter (λ x, negb (due (from_secs 8) x)) (timeouts doc_timers) ∧
    threshold tm' = threshold doc_timers ∧ wf tm'.
Proof. split; [exact doc_timers_wf|]. exact (check_spec _ _ _ doc_timers_wf). Defined.

Lemma wait_then_check_witness :
  (∃ n tm' fired', check doc_timers (0 + from_secs 8) [] = Ret (S n, tm', fired')) ∧
  ∀ t, 0 ≤ t < 0 + from_secs 8 → check doc_timers t [] = Ret (O, doc_timers, []).
Proof. exact (wait_then_check _ 0 (from_secs 8) [] doc_timers_wf eq_refl). Defined.

Lemma check_now_fires_nothing_witness :
  check_now doc_timers [] = Ret (O, doc_timers, []).
Proof.
  apply check_now_fires_nothing; [exact doc_timers_wf|]. repeat constructor; done.
Defined.

(** ** The two managers agree *)

Section agree.
Context {K : Type} `{SortUnstable}.

(** The calls on a manager. *)
Inductive TimerOp :=
| OpRegister (key : K) (time : Z)
| OpNext (now : Z)
| OpCheck (time : Z).

(** What a call returns, and the keys that fired. *)
Inductive TimerRes :=
| Registered (b : bool)
| NextIn (d : option Z)
| Checked (n : nat) (fired : list K).

Definition timer_op `{Clock} (op : TimerOp) (tm : TimeoutManager K) :
    outcome (TimerRes * TimeoutManager K) :=
  match op with
  | OpRegister k t => '(b, tm) ← register tm k t; Ret (Registered b, tm)
  | OpNext now => d ← next tm now; Ret (NextIn d, tm)
  | OpCheck t => '(n, tm, fired) ← check tm t []; Ret (Checked n fired, tm)
  end.

Fixpoint timer_ops `{Clock} (ops : list TimerOp) (tm : TimeoutManager K) :
    outcome (list TimerRes * TimeoutManager K) :=
  match ops with
  | [] => Ret ([], tm)
  | op :: ops =>
      '(r, tm) ← timer_op op tm;
      '(rs, tm) ← timer_ops ops tm;
      Ret (r :: rs, tm)
  end.

Lemma iter_any_ext {A} (l : list A) (f g : A → outcome bool) :
  (∀ x, f x = g x) → iter_any l f = iter_any l g.
Proof. intros Hfg. induction l as [|x l IH]; simpl; [done|]. by rewrite Hfg, IH. Qed.

(** The code only subtracts the earlier time from the later one, where all
    lawful clocks agree. *)
Lemma too_close_clock (C1 C2 : Clock) `{!@ClockLaws C1, !@ClockLaws C2} thr t (x : K * Z) :
  @too_close K C1 thr t x = @too_close K C2 thr t x.
Proof. unfold too_close. case_match; blia; by rewrite !clock_sub_ge by lia. Qed.

Lemma timer_op_clock (C1 C2 : Clock) `{!@ClockLaws C1, !@ClockLaws C2} op tm :
  @timer_op C1 op tm = @timer_op C2 op tm.
Proof.
  destruct op as [k t|now|t]; simpl; [|..|done].
  - unfold register. by rewrite (iter_any_ext _ _ _ (too_close_clock C1 C2 _ t)).
  - unfold next. destruct (list.last (timeouts tm)) as [[k t]|]; [|done].
    case_match; [|done]. blia. by rewrite !clock_sub_ge by lia.
Qed.

End agree.
