(* ===== verification/Resource.v ===== *)
(** * I/O errors, I/O flags, and the resource and poller interfaces

    io-reactor/src/resource.rs and io-reactor/src/poller/mod.rs. The traits
    [Resource] (with its supertrait [WriteAtomic]) and [Poll] become classes of
    operations; each has a class of laws which states what the reactor relies
    on and which the implementations in this library discharge. *)

From Stdlib Require Import Strings.Byte.
From S2P Require Import Prelude StdLib.

#[local] Open Scope Z_scope.

(** ** Bytes and [std::io::Error] *)

Abbreviation byte := Byte.byte.
#[global] Instance byte_eq_dec : EqDecision byte := Byte.byte_eq_dec.

(** The [io::ErrorKind]s the sources name; [OtherKind] is any other. *)
Inductive ErrorKind :=
| NotFound | ConnectionReset | ConnectionAborted | NotConnected | BrokenPipe
| AlreadyExists | WouldBlock | InvalidInput | TimedOut | WriteZero
| Interrupted | UnexpectedEof | OtherKind (code : Z).
#[global] Instance ErrorKind_eq_dec : EqDecision ErrorKind.
Proof. solve_decision. Defined.

Record io_error := { kind : ErrorKind; raw_os_error : option Z }.
#[global] Instance io_error_eq_dec : EqDecision io_error.
Proof. solve_decision. Defined.

(** [io::Error::from(kind)] *)
Definition from_kind (k : ErrorKind) : io_error := {| kind := k; raw_os_error := None |}.

Abbreviation io_result := (result io_error).

(** ** [Io] and [IoType] *)

Inductive Io := Read | Write.
#[global] Instance Io_eq_dec : EqDecision Io.
Proof. solve_decision. Defined.

Module IoType.
Record t := { read : bool; write : bool }.

Definition none : t := {| read := false; write := false |}.
Definition read_only : t := {| read := true; write := false |}.
Definition write_only : t := {| read := false; write := true |}.
Definition read_write : t := {| read := true; write := true |}.

Definition is_none (self : t) : bool :=
  Bool.eqb (read self) false && Bool.eqb (write self) false.
Definition is_read_only (self : t) : bool :=
  Bool.eqb (read self) true && Bool.eqb (write self) false.
Definition is_write_only (self : t) : bool :=
  Bool.eqb (read self) false && Bool.eqb (write self) true.
Definition is_read_write (self : t) : bool :=
  Bool.eqb (read self) true && Bool.eqb (write self) true.

(** [impl ops::Not for IoType] *)
Definition not (self : t) : t :=
  {| read := negb (read self); write := negb (write self) |}.

(** [impl Iterator for IoType] *)
Definition next (self : t) : option Io * t :=
  if write self then (Some Write, {| read := read self; write := false |})
  else if read self then (Some Read, {| read := false; write := write self |})
  else (None, self).

(** [impl Display for IoType] *)
Definition fmt (self : t) : outcome string :=
  if is_none self then Ret "none"%string
  else if is_read_write self then Ret "read-write"%string
  else if read self then Ret "read"%string
  else if write self then Ret "write"%string
  else Panic "unreachable".

(** [for io in self]: the iterator run to its end. Two flags give at most two
    items, so three steps always reach it. *)
Fixpoint iterate (fuel : nat) (self : t) : list Io :=
  match fuel with
  | O => []
  | S fuel => match next self with
              | (Some io, self') => io :: iterate fuel self'
              | (None, _) => []
              end
  end.
Definition to_list (self : t) : list Io := iterate 3 self.
End IoType.
#[global] Instance IoType_eq_dec : EqDecision IoType.t.
Proof. solve_decision. Defined.

Inductive IoFail :=
| Connectivity (flags : Z)
| Os (flags : Z).
#[global] Instance IoFail_eq_dec : EqDecision IoFail.
Proof. solve_decision. Defined.

(** ** Resources *)

Inductive WriteError :=
| NotReady
| WIo (e : io_error).

(** [Resource] and its supertraits [AsRawFd] and [WriteAtomic], with the
    associated types [Id] and [Event] as parameters. *)
Class Resource (R Id Event : Type) := {
  res_id : R → Id;
  as_raw_fd : R → Z;
  interests : R → IoType.t;
  handle_io : Io → R → outcome (option Event * R);
  disconnect : R → outcome (io_result unit);
  is_ready_to_write : R → bool;
  write_or_buffer : list byte → prog R io_error unit;
}.
#[global] Hint Mode Resource ! - - : typeclass_instances.

(** The default method of [WriteAtomic]. *)
Definition write_atomic `{Resource R Id Event} (buf : list byte) : prog R WriteError unit :=
  ready ← gets is_ready_to_write;
  if negb (ready : bool) then throw NotReady
  else with_err WIo (write_or_buffer buf).

(** What [WriteAtomic]'s documentation promises, and what identifies a
    resource. [accepted r] is the bytes the resource took so far, in order,
    whether they already left or still wait in a buffer; [res_inv] is the
    resource's own invariant. *)
Class ResourceLaws (R Id Event : Type) `{Resource R Id Event} := {
  res_inv : R → Prop;
  accepted : R → list byte;
  write_or_buffer_law (r : R) buf :
    res_inv r → is_ready_to_write r = true →
    wp (write_or_buffer buf) (λ res r', res_inv r' ∧
      res_id r' = res_id r ∧ as_raw_fd r' = as_raw_fd r ∧
      match res with
      | Ok _ => accepted r' = accepted r ++ buf
      | Err _ => accepted r' = accepted r
      end) r;
}.
#[global] Hint Mode ResourceLaws ! - - - : typeclass_instances.

(** A resource keeps its id and its descriptor while it does I/O. *)
Class StableResource (R Id Event : Type) `{Resource R Id Event} : Prop := {
  handle_io_stable io (r : R) ev r' :
    handle_io io r = Ret (ev, r') → res_id r' = res_id r ∧ as_raw_fd r' = as_raw_fd r;
  write_or_buffer_stable buf (r : R) res r' :
    write_or_buffer buf r = Ret (res, r') →
    res_id r' = res_id r ∧ as_raw_fd r' = as_raw_fd r;
}.

(** ** Pollers *)

Definition event : Type := Z * result IoFail IoType.t.

Class Poll (P : Type) := {
  poll_register : Z → IoType.t → P → P;
  poll_unregister : Z → P → P;
  poll_set_interest : Z → IoType.t → P → bool * P;
  poll_poll : option Z → P → io_result nat * P;
  poll_next : P → option event * P;
}.

(** A poller is a set of watched descriptors and a queue of events. *)
Class PollLaws (P : Type) `{Poll P} := {
  watched : P → gset Z;
  pending : P → list event;
  poll_next_law (p : P) :
    match pending p with
    | [] => (poll_next p).1 = None ∧ pending (poll_next p).2 = []
    | e :: es => (poll_next p).1 = Some e ∧ pending (poll_next p).2 = es
    end;
  poll_next_watched (p : P) : watched (poll_next p).2 = watched p;
  poll_register_law fd io (p : P) :
    watched (poll_register fd io p) = {[fd]} ∪ watched p ∧
    pending (poll_register fd io p) = pending p;
  poll_unregister_law fd (p : P) :
    watched (poll_unregister fd p) = watched p ∖ {[fd]} ∧
    pending (poll_unregister fd p) = pending p;
  poll_set_interest_law fd io (p : P) :
    watched (poll_set_interest fd io p).2 = watched p ∧
    pending (poll_set_interest fd io p).2 = pending p;
  (** New events are queued behind the old ones, come from watched descriptors
      only, and their number is what [poll] returns. *)
  poll_poll_law t (p : P) :
    watched (poll_poll t p).2 = watched p ∧
    ∃ es, pending (poll_poll t p).2 = pending p ++ es ∧
      Forall (λ e, e.1 ∈ watched p) es ∧
      match (poll_poll t p).1 with Ok n => n = length es | Err _ => es = [] end;
}.

(** ** Lemmas *)

Lemma write_atomic_not_ready `{Resource R Id Event} (r : R) buf :
  is_ready_to_write r = false → write_atomic buf r = Ret (Err NotReady, r).
Proof. intros Hr. unfold write_atomic. unfold_prog. by rewrite Hr. Qed.

Lemma write_atomic_ready `{Resource R Id Event} (r : R) buf :
  is_ready_to_write r = true →
  write_atomic buf r = with_err WIo (write_or_buffer buf) r.
Proof. intros Hr. unfold write_atomic. unfold_prog. by rewrite Hr. Qed.

Lemma write_atomic_stable `{StableResource R Id Event} buf (r : R) res r' :
  write_atomic buf r = Ret (res, r') →
  res_id r' = res_id r ∧ as_raw_fd r' = as_raw_fd r.
Proof.
  destruct (is_ready_to_write r) eqn:E.
  - rewrite write_atomic_ready by done. unfold with_err.
    destruct (write_or_buffer buf r) as [[r0 s]| |] eqn:Ew; intros; simplify_eq.
    by eapply write_or_buffer_stable.
  - rewrite write_atomic_not_ready by done. intros; by simplify_eq.
Qed.

(** A write to a resource that is not ready is refused without touching
    the resource; to a ready one it is atomic: the data are accepted in full,
    behind everything accepted before, or the error leaves the accepted bytes
    as they were. *)
Lemma write_atomic_spec `{ResourceLaws R Id Event} (r : R) (buf : list byte) :
  res_inv r →
  if is_ready_to_write r
  then wp (write_atomic buf) (λ res r', res_inv r' ∧ res_id r' = res_id r ∧
         as_raw_fd r' = as_raw_fd r ∧
         match res with
         | Ok _ => accepted r' = accepted r ++ buf
         | Err e => accepted r' = accepted r ∧ e ≠ NotReady
         end) r
  else write_atomic buf r = Ret (Err NotReady, r).
Proof.
  intros Hinv. destruct (is_ready_to_write r) eqn:E; [|by apply write_atomic_not_ready].
  unfold wp. rewrite write_atomic_ready by done.
  apply (wp_with_err WIo (write_or_buffer buf)).
  eapply wp_mono; [by apply write_or_buffer_law|].
  intros [[]|e] r' (?&?&?&?); simpl; split_and!; done.
Qed.

(** ** Properties *)

(** Iterating an [IoType] ends and yields [Write] before [Read], each
    exactly when its flag is set; [!] complements the two flags. *)
Theorem IoType_iterate io :
  IoType.to_list io = (if IoType.write io then [Write] else []) ++
                      (if IoType.read io then [Read] else []) ∧
  (∀ n, (3 ≤ n)%nat → IoType.iterate n io = IoType.to_list io) ∧
  (∀ x, x ∈ IoType.to_list (IoType.not io) ↔ x ∉ IoType.to_list io).
Proof.
  destruct io as [[] []]; (split; [done|split]);
    try (intros n Hn; do 3 (destruct n as [|n]; [lia|]); done);
    intros []; cbn; rewrite ?elem_of_cons, ?elem_of_nil; intuition done.
Qed.
