(* ===== verification/Popol.v ===== *)
(** * The popol poller: io-reactor/src/poller/popol.rs

    [Poller] adapts the third-party [popol::Poll] to the trait [Poll]. The
    third-party library is the class [Popol], its documented behaviour the
    class [PopolLaws]; [PopolModel] is a concrete instance of both. *)

From S2P Require Import Prelude StdLib Resource.

#[local] Open Scope Z_scope.

(** ** The library popol *)

Class Popol := {
  popol_Poll : Type;
  popol_new : popol_Poll;
  popol_register : Z → Z → Z → popol_Poll → popol_Poll;
  popol_unregister : Z → popol_Poll → popol_Poll;
  popol_set : Z → Z → popol_Poll → bool * popol_Poll;
  popol_unset : Z → Z → popol_Poll → bool * popol_Poll;
  (** [Ok true]: the call timed out. *)
  popol_wait_timeout : option Z → popol_Poll → io_result bool * popol_Poll;
  (** [events()]: the keys whose source fired, with the POSIX flags. *)
  popol_events : popol_Poll → list (Z * Z);
  has_hangup : Z → bool;
  is_err : Z → bool;
  is_readable : Z → bool;
  is_writable : Z → bool;
  event_NONE : Z;
  event_READ : Z;
  event_WRITE : Z;
}.

(** What popol documents: the set of sources by key, the interest mask of
    each, [set] and [unset] adding and removing bits of that mask, and events
    for registered keys only. *)
Class PopolLaws `{Popol} := {
  sources : popol_Poll → gmap Z Z;
  sources_new : sources popol_new = ∅;
  sources_register k fd e p : sources (popol_register k fd e p) = <[k := e]> (sources p);
  sources_unregister k p : sources (popol_unregister k p) = delete k (sources p);
  sources_set k e p :
    popol_set k e p = (bool_decide (is_Some (sources p !! k)), (popol_set k e p).2) ∧
    sources (popol_set k e p).2 = alter (λ m, Z.lor m e) k (sources p);
  sources_unset k e p :
    sources (popol_unset k e p).2 = alter (λ m, Z.ldiff m e) k (sources p);
  sources_wait t p : sources (popol_wait_timeout t p).2 = sources p;
  events_keys p : Forall (λ e, is_Some (sources p !! e.1)) (popol_events p);
  flags_disjoint :
    event_NONE = 0 ∧ Z.land event_READ event_WRITE = 0;
}.

(** ** The poller *)

Section popol.
Context `{Popol}.

Record Poller := { poll : popol_Poll; events : list event }.

Definition new : Poller := {| poll := popol_new; events := [] |}.

(** [impl From<IoType> for popol::PollEvents] *)
Definition from (ev : IoType.t) : Z :=
  let e := event_NONE in
  let e := if IoType.read ev then Z.lor e event_READ else e in
  let e := if IoType.write ev then Z.lor e event_WRITE else e in
  e.

Definition register (fd : Z) (interest : IoType.t) (self : Poller) : Poller :=
  {| poll := popol_register fd fd (from interest) (poll self); events := events self |}.

Definition unregister (fd : Z) (self : Poller) : Poller :=
  {| poll := popol_unregister fd (poll self); events := events self |}.

Definition set_interest (fd : Z) (interest : IoType.t) (self : Poller) : bool * Poller :=
  let p := (popol_unset fd (from (IoType.not interest)) (poll self)).2 in
  let '(b, p) := popol_set fd (from interest) p in
  (b, {| poll := p; events := events self |}).

(** How one fired source is reported. *)
Definition fired_result (fired : Z) : result IoFail IoType.t :=
  if has_hangup fired then Err (Connectivity fired)
  else if is_err fired then Err (Os fired)
  else Ok {| IoType.read := is_readable fired; IoType.write := is_writable fired |}.

Definition poll_wait (timeout : option Z) (self : Poller) : io_result nat * Poller :=
  let len := length (events self) in
  let '(r, p) := popol_wait_timeout timeout (poll self) in
  match r with
  | Err e => (Err e, {| poll := p; events := events self |})
  | Ok true => (Ok O, {| poll := p; events := events self |})
  | Ok false =>
      let evs := foldl (λ q '(fd, fired), q ++ [(fd, fired_result fired)])
                   (events self) (popol_events p) in
      (Ok (length evs - len)%nat, {| poll := p; events := evs |})
  end.

(** [VecDeque::pop_front] *)
Definition next (self : Poller) : option event * Poller :=
  match events self with
  | [] => (None, self)
  | e :: es => (Some e, {| poll := poll self; events := es |})
  end.

#[global] Instance popol_poller : Poll Poller := {
  poll_register := register;
  poll_unregister := unregister;
  poll_set_interest := set_interest;
  poll_poll := poll_wait;
  poll_next := next;
}.
End popol.

(** ** Lemmas *)

Lemma queue_events `{Popol} (q : list event) (l : list (Z * Z)) :
  foldl (λ q '(fd, fired), q ++ [(fd, fired_result fired)]) q l =
  q ++ map (λ '(fd, fired), (fd, fired_result fired)) l.
Proof.
  revert q. induction l as [|[fd fired] l IH]; intros q; simpl; [by rewrite app_nil_r|].
  by rewrite IH, <-app_assoc.
Qed.

Lemma poll_wait_eq `{Popol} timeout (self : Poller) :
  poll_wait timeout self =
    let '(r, p) := popol_wait_timeout timeout (poll self) in
    let new := match r with
               | Ok false => map (λ '(fd, fired), (fd, fired_result fired)) (popol_events p)
               | _ => []
               end in
    (match r with Err e => Err e | Ok _ => Ok (length new) end,
     {| poll := p; events := events self ++ new |}).
Proof.
  unfold poll_wait. destruct (popol_wait_timeout _ _) as [[[]|e] p].
  - by rewrite app_nil_r.
  - cbn zeta iota. rewrite queue_events, length_app. do 2 f_equal. rewrite Nat.add_comm. apply Nat.add_sub.
  - by rewrite app_nil_r.
Qed.

Section lemmas.
Context `{PL : PopolLaws}.
Implicit Types (self : Poller).

(** The mask [set_interest] leaves a registered source with. *)
Definition interest_mask (io : IoType.t) (m : Z) : Z :=
  Z.lor (Z.ldiff m (from (IoType.not io))) (from io).

Lemma set_interest_eq fd io self :
  (set_interest fd io self).1 = bool_decide (is_Some (sources (poll self) !! fd)) ∧
  sources (poll (set_interest fd io self).2) = alter (interest_mask io) fd (sources (poll self)) ∧
  events (set_interest fd io self).2 = events self.
Proof.
  unfold set_interest.
  pose proof (sources_set fd (from io) (popol_unset fd (from (IoType.not io)) (poll self)).2)
    as [Hb Hs].
  destruct (popol_set _ _ _) as [b p]. simpl in *. simplify_eq.
  rewrite Hs. rewrite sources_unset in *. split_and!; [|by rewrite alter_alter|done].
  apply bool_decide_ext. rewrite lookup_alter_eq. by destruct (sources (poll self) !! fd).
Qed.

#[global] Instance popol_poller_laws : PollLaws Poller.
Proof.
  refine (@Build_PollLaws Poller _ (λ self, dom (sources (poll self))) events _ _ _ _ _ _).
  - intros p. simpl. unfold next. destruct (events p) eqn:E; simpl; auto.
  - intros p. simpl. unfold next. by destruct (events p).
  - intros fd io p. simpl. rewrite sources_register. by rewrite dom_insert_L.
  - intros fd p. simpl. rewrite sources_unregister. by rewrite dom_delete_L.
  - intros fd io p. simpl. destruct (set_interest_eq fd io p) as (_ & -> & ->).
    split; [|done]. apply dom_alter_L.
  - intros t p. simpl. rewrite poll_wait_eq. pose proof (sources_wait t (poll p)) as Hs.
    destruct (popol_wait_timeout t (poll p)) as [r p']. simpl in *. split; [by rewrite Hs|].
    eexists. split; [done|]. split.
    + destruct r as [[]|]; [constructor| |constructor].
      apply Forall_map. eapply Forall_impl; [|apply events_keys].
      intros [fd fired] Hf. rewrite <-Hs. by apply elem_of_dom.
    + by destruct r as [[]|].
Defined.

Lemma land_from_not io : Z.land (from io) (from (IoType.not io)) = 0.
Proof.
  destruct flags_disjoint as [Hz Hd]. destruct io as [[] []]; unfold from; cbn;
    rewrite Hz, ?Z.lor_0_l, ?Z.land_0_r; try done. by rewrite Z.land_comm.
Qed.
End lemmas.

(** ** Properties *)

(** [poll] queues one event per fired source, in the order popol gives
    them, behind the events still queued, and returns their number; a hang-up
    takes precedence over an error and an error over readiness. When popol
    times out or fails, the queue is unchanged. *)
Theorem poll_wait_spec `{Popol} timeout (self : Poller) :
  let '(res, self') := poll_wait timeout self in
  let '(r, p) := popol_wait_timeout timeout (poll self) in
  poll self' = p ∧
  match r with
  | Err e => res = Err e ∧ events self' = events self
  | Ok true => res = Ok O ∧ events self' = events self
  | Ok false => ∃ new, events self' = events self ++ new ∧ res = Ok (length new) ∧
      Forall2 (λ '(fd, fired) '(fd', ev), fd' = fd ∧
        (has_hangup fired → ev = Err (Connectivity fired)) ∧
        (¬ has_hangup fired → is_err fired → ev = Err (Os fired)) ∧
        (¬ has_hangup fired → ¬ is_err fired → ∃ io, ev = Ok io ∧
           IoType.read io = is_readable fired ∧ IoType.write io = is_writable fired))
        (popol_events p) new
  end.
Proof.
  rewrite poll_wait_eq. destruct (popol_wait_timeout _ _) as [[[]|e] p]; simpl.
  - by rewrite app_nil_r.
  - split; [done|]. eexists; split_and!; [done|done|].
    induction (popol_events p) as [|[fd fired] l IH]; simpl; constructor; [|done].
    split; [done|]. unfold fired_result.
    destruct (has_hangup fired), (is_err fired); simpl; split_and!; intros; try done.
    by eexists.
  - by rewrite app_nil_r.
Qed.

(** After [set_interest] a registered descriptor is watched for exactly
    the requested readiness: the bits of the requested flags are on, those of
    the other flags are off, the remaining bits and all other descriptors are
    as before; the answer tells whether the descriptor is registered. *)
Theorem set_interest_spec `{PopolLaws} fd io (self : Poller) :
  let '(b, self') := set_interest fd io self in
  b = bool_decide (fd ∈ watched self) ∧ watched self' = watched self ∧
  (∀ fd', fd' ≠ fd → sources (poll self') !! fd' = sources (poll self) !! fd') ∧
  ∀ m, sources (poll self) !! fd = Some m → ∃ m', sources (poll self') !! fd = Some m' ∧
    Z.land m' (from io) = from io ∧
    Z.land m' (from (IoType.not io)) = 0 ∧
    Z.ldiff m' (Z.lor event_READ event_WRITE) = Z.ldiff m (Z.lor event_READ event_WRITE).
Proof.
  destruct (set_interest_eq fd io self) as (Hb & Hs & He).
  destruct (set_interest fd io self) as [b self']. simpl in *. rewrite Hs.
  split_and!.
  - rewrite Hb. apply bool_decide_ext. by rewrite elem_of_dom.
  - apply dom_alter_L.
  - intros fd' ?. by rewrite lookup_alter_ne.
  - intros m Hm. rewrite lookup_alter_eq, Hm. simpl. eexists; split; [done|].
    pose proof (land_from_not io) as Hd. unfold interest_mask. split_and!.
    + rewrite Z.land_comm, Z.land_lor_distr_r, Z.land_diag.
      apply Z.bits_inj'. intros n Hn. rewrite Z.lor_spec, Z.land_spec.
      by destruct (Z.testbit (from io) n); rewrite ?orb_true_r.
    + apply Z.bits_inj'. intros n Hn. pose proof (f_equal (λ z, Z.testbit z n) Hd) as Hn'.
      cbn beta in Hn'. rewrite Z.land_spec, Z.bits_0 in *.
      rewrite Z.lor_spec, Z.ldiff_spec. destruct (Z.testbit (from (IoType.not io)) n);
        [|by rewrite andb_false_r]. rewrite andb_true_r in *. rewrite Hn'. by rewrite andb_false_r.
    + destruct flags_disjoint as [Hz _]. apply Z.bits_inj'. intros n Hn.
      rewrite !Z.ldiff_spec, !Z.lor_spec, Z.ldiff_spec. unfold from.
      destruct io as [[] []]; cbn; rewrite Hz, ?Z.lor_spec, ?Z.bits_0;
      destruct (Z.testbit event_READ n), (Z.testbit event_WRITE n), (Z.testbit m n); done.
Qed.

(** ** A concrete popol, and witnesses

    Sources are kept in a map; every wait consumes one batch of a script of
    fired sources, and times out when the script is over. *)
Module PopolModel.
Record t := { masks : gmap Z Z; current : list (Z * Z); script : list (list (Z * Z)) }.

Definition with_masks (f : gmap Z Z → gmap Z Z) (p : t) : t :=
  {| masks := f (masks p); current := current p; script := script p |}.

Definition wait (_ : option Z) (p : t) : io_result bool * t :=
  match script p with
  | [] => (Ok true, {| masks := masks p; current := []; script := [] |})
  | es :: ess => (Ok false, {| masks := masks p; current := es; script := ess |})
  end.

Definition lib : Popol := {|
  popol_Poll := t;
  popol_new := {| masks := ∅; current := []; script := [] |};
  popol_register k fd e := with_masks (insert k e);
  popol_unregister k := with_masks (delete k);
  popol_set k e p := (bool_decide (is_Some (masks p !! k)),
                      with_masks (alter (λ m, Z.lor m e) k) p);
  popol_unset k e p := (bool_decide (is_Some (masks p !! k)),
                        with_masks (alter (λ m, Z.ldiff m e) k) p);
  popol_wait_timeout := wait;
  popol_events p := base.filter (λ e, is_Some (masks p !! e.1)) (current p);
  has_hangup z := Z.testbit z 4;
  is_err z := Z.testbit z 3;
  is_readable z := Z.testbit z 0;
  is_writable z := Z.testbit z 2;
  event_NONE := 0;
  event_READ := 3;
  event_WRITE := 260;
|}.

Definition laws : @PopolLaws lib.
Proof.
  refine (@Build_PopolLaws lib masks _ _ _ _ _ _ _ _); try done.
  - intros t p. simpl. unfold wait. by destruct (script p).
  - intros p. simpl. apply list.Forall_forall. intros e [? _]%list_elem_of_filter. done.
Defined.

(** Descriptors 3 and 4 are watched for reading; 3 hangs up, 4 is readable. *)
Definition two_sources : @Poller lib :=
  @Build_Poller lib
    {| masks := {[3 := 3; 4 := 3]}; current := []; script := [[(3, 17); (4, 1)]] |} [].
End PopolModel.

Lemma set_interest_spec_witness :
  ∃ m', PopolModel.masks (poll (@set_interest PopolModel.lib 3 IoType.write_only PopolModel.two_sources).2)
          !! 3 = Some m' ∧ Z.land m' 260 = 260 ∧ Z.land m' 3 = 0.
Proof.
  destruct (@set_interest_spec PopolModel.lib PopolModel.laws 3 IoType.write_only
              PopolModel.two_sources) as (_ & _ & _ & Hm).
  destruct (Hm 3 eq_refl) as (m' & ? & ? & ? & _). exists m'. auto.
Defined.

(** A poll of the two sources: the hang-up and the readable descriptor. *)
Example poll_two_sources :
  events (@poll_wait PopolModel.lib None PopolModel.two_sources).2 =
    [(3, Err (Connectivity 17)); (4, Ok IoType.read_only)].
Proof. by vm_compute. Qed.
