(* ===== verification/Channel.v ===== *)
(** * Channels

    The crates use crossbeam's channels, which are third-party code: the class
    [Channel] has the operations the sources call, [ChannelLaws] what their
    documentation promises of an unbounded channel, and [ListChannel] is a
    concrete channel that satisfies it. *)

From S2P Require Import Prelude.

Inductive try_recv_result (A : Type) :=
| Received (a : A)
| Empty
| Disconnected.
Arguments Received {A} a.
Arguments Empty {A}.
Arguments Disconnected {A}.

Class Channel := {
  chan : Type → Type;
  unbounded {A} : chan A;
  (** [Err]: the receiver is gone, and the message comes back. *)
  chan_send {A} : A → chan A → result A unit * chan A;
  try_recv {A} : chan A → try_recv_result A * chan A;
}.

(** An unbounded channel is a FIFO queue; it refuses messages only when the
    receiver was dropped, and reports [Disconnected] only when it is empty and
    every sender was dropped. *)
Class ChannelLaws `{Channel} := {
  queue {A} : chan A → list A;
  has_receiver {A} : chan A → bool;
  has_sender {A} : chan A → bool;
  unbounded_law A :
    queue (@unbounded _ A) = [] ∧ has_receiver (@unbounded _ A) = true ∧
    has_sender (@unbounded _ A) = true;
  chan_send_law A (a : A) c :
    let '(r, c') := chan_send a c in
    has_receiver c' = has_receiver c ∧ has_sender c' = has_sender c ∧
    if has_receiver c then r = Ok tt ∧ queue c' = queue c ++ [a]
    else r = Err a ∧ queue c' = queue c;
  try_recv_law A (c : chan A) :
    let '(r, c') := try_recv c in
    has_receiver c' = has_receiver c ∧ has_sender c' = has_sender c ∧
    match queue c with
    | a :: q => r = Received a ∧ queue c' = q
    | [] => r = (if has_sender c then Empty else Disconnected) ∧ queue c' = []
    end;
}.

(** ** A concrete channel *)
Module ListChannel.
Record t (A : Type) := { items : list A; receiver : bool; sender : bool }.
Arguments items {A} _.
Arguments receiver {A} _.
Arguments sender {A} _.

Definition push {A} (a : A) (c : t A) : result A unit * t A :=
  if receiver c
  then (Ok tt, {| items := items c ++ [a]; receiver := true; sender := sender c |})
  else (Err a, c).

Definition pop {A} (c : t A) : try_recv_result A * t A :=
  match items c with
  | a :: q => (Received a, {| items := q; receiver := receiver c; sender := sender c |})
  | [] => (if sender c then Empty else Disconnected, c)
  end.

Definition lib : Channel := {|
  chan := t;
  unbounded A := {| items := []; receiver := true; sender := true |};
  chan_send A := push;
  try_recv A := pop;
|}.

Definition laws : @ChannelLaws lib.
Proof.
  refine (@Build_ChannelLaws lib (λ A, items) (λ A, receiver) (λ A, sender) _ _ _); simpl.
  - done.
  - intros A a c. unfold push. by destruct (receiver c) eqn:E; rewrite ?E.
  - intros A c. unfold pop. destruct (items c) eqn:E; simpl; auto.
Defined.
End ListChannel.
