(* ===== verification/Waker.v ===== *)
(** * The waker: a pair of connected non-blocking Unix streams

    io-reactor/src/reactor.rs, [reset_fd] and [Controller::wake]. The reactor
    watches one end of the pair; controllers wake it by writing a byte to the
    other end, behind a mutex that all clones of the controller share. *)

From S2P Require Import Prelude StdLib Resource.

(** The bytes on their way to the reactor's end, how many the kernel buffers,
    whether the mutex of the writing end is held, and the errors the next
    system calls on each end will report (the environment's choice). *)
Record Waker := {
  inbox : nat;
  capacity : nat;
  locked : bool;
  read_errors : list ErrorKind;
  write_errors : list ErrorKind;
}.

Definition with_inbox (n : nat) (w : Waker) : Waker :=
  {| inbox := n; capacity := capacity w; locked := locked w;
     read_errors := read_errors w; write_errors := write_errors w |}.
Definition with_locked (b : bool) (w : Waker) : Waker :=
  {| inbox := inbox w; capacity := capacity w; locked := b;
     read_errors := read_errors w; write_errors := write_errors w |}.
Definition with_read_errors (es : list ErrorKind) (w : Waker) : Waker :=
  {| inbox := inbox w; capacity := capacity w; locked := locked w;
     read_errors := es; write_errors := write_errors w |}.
Definition with_write_errors (es : list ErrorKind) (w : Waker) : Waker :=
  {| inbox := inbox w; capacity := capacity w; locked := locked w;
     read_errors := read_errors w; write_errors := es |}.

(** The two ends of the pair. Nothing is ever written to the reactor's end,
    so a read from the writing end finds no data. *)
Inductive End := ReaderEnd | WriterEnd.

(** [libc::read(fd, buf, 4096)] on a non-blocking end. *)
Definition libc_read (fd : End) (w : Waker) : io_result nat * Waker :=
  match read_errors w with
  | k :: es => (Err (from_kind k), with_read_errors es w)
  | [] =>
      match fd with
      | WriterEnd => (Err (from_kind WouldBlock), w)
      | ReaderEnd =>
          if (inbox w =? 0)%nat then (Err (from_kind WouldBlock), w)
          else (Ok (Nat.min 4096 (inbox w)), with_inbox (inbox w - 4096) w)
      end
  end.

(** The loop of [reset_fd]; every read either ends it or takes a byte. *)
Fixpoint reset_loop (fuel : nat) (fd : End) : prog Waker io_error unit := λ w,
  match fuel with
  | O => Hang
  | S fuel =>
      match libc_read fd w with
      | (Err e, w') =>
          if decide (kind e = WouldBlock) then Ret (Ok tt, w') else Ret (Err e, w')
      | (Ok O, w') => Ret (Ok tt, w')
      | (Ok (S _), w') => reset_loop fuel fd w'
      end
  end.

Definition reset_fd (fd : End) : prog Waker io_error unit := λ w,
  reset_loop (S (inbox w)) fd w.

(** [waker.write_all(&[0x1])]: [Write::write_all] retries an interrupted
    write. *)
Fixpoint write_byte_loop (es : list ErrorKind) (w : Waker) : io_result unit * Waker :=
  match es with
  | k :: es' =>
      if decide (k = Interrupted) then write_byte_loop es' w
      else (Err (from_kind k), with_write_errors es' w)
  | [] =>
      let w := with_write_errors [] w in
      if (inbox w <? capacity w)%nat then (Ok tt, with_inbox (S (inbox w)) w)
      else (Err (from_kind WouldBlock), w)
  end.

Definition write_all_byte : prog Waker io_error unit := λ w,
  Ret (write_byte_loop (write_errors w) w).

(** [self.waker.lock()]: a second lock by the same thread never returns. *)
Definition lock : prog Waker io_error unit := λ w,
  if locked w then Hang else Ret (Ok tt, with_locked true w).

Definition unlock : prog Waker io_error unit := modify (with_locked false).

(** [Controller::wake]. The guard of the mutex lives until the function
    returns, also during the recursive calls; the fuel counts the calls. *)
Fixpoint wake_loop (fuel : nat) : prog Waker io_error unit := λ w,
  match fuel with
  | O => Hang
  | S fuel =>
      (lock ≫= λ _,
       attempt write_all_byte ≫= λ res,
       attempt (match res with
                | Ok _ => mret tt
                | Err e =>
                    if decide (kind e = WouldBlock) then
                      reset_fd WriterEnd ≫= λ _, wake_loop fuel
                    else if decide (kind e = Interrupted) then wake_loop fuel
                    else throw e
                end) ≫= λ r,
       unlock ≫= λ _, of_result r) w
  end.

Definition wake : prog Waker io_error unit := wake_loop 2.

(** ** Lemmas *)

Lemma reset_loop_reader fuel w :
  read_errors w = [] → (inbox w < fuel)%nat →
  reset_loop fuel ReaderEnd w = Ret (Ok tt, with_inbox 0 w).
Proof.
  revert w. induction fuel as [|fuel IH]; intros w Hes Hlt; [lia|].
  simpl. unfold libc_read. rewrite Hes. destruct (Nat.eqb_spec (inbox w) 0) as [E|E].
  - simpl. destruct w; simpl in *. by subst.
  - destruct (Nat.min 4096 (inbox w)) eqn:Em; [lia|].
    rewrite IH; [done|done|simpl; lia].
Qed.

Lemma reset_fd_reader w :
  read_errors w = [] → reset_fd ReaderEnd w = Ret (Ok tt, with_inbox 0 w).
Proof. intros. apply reset_loop_reader; [done|lia]. Qed.

(** A read error other than [WouldBlock] is returned at once. *)
Lemma reset_fd_error fd k es w :
  read_errors w = k :: es → k ≠ WouldBlock →
  reset_fd fd w = Ret (Err (from_kind k), with_read_errors es w).
Proof.
  intros Hes Hk. unfold reset_fd. simpl. unfold libc_read. rewrite Hes. simpl.
  by rewrite decide_False.
Qed.

Lemma reset_fd_returns fd w : ∃ r w', reset_fd fd w = Ret (r, w') ∧
  locked w' = locked w ∧ capacity w' = capacity w ∧ (inbox w' ≤ inbox w)%nat.
Proof.
  unfold reset_fd. assert (inbox w < S (inbox w))%nat as Hlt by lia. revert Hlt.
  generalize (S (inbox w)) as fuel. intros fuel. revert w.
  induction fuel as [|fuel IH]; intros w Hlt; [lia|].
  simpl. unfold libc_read. destruct (read_errors w) as [|k es].
  - destruct fd; [|rewrite decide_True by done; eauto 6].
    destruct (Nat.eqb_spec (inbox w) 0); [rewrite decide_True by done; eauto 6|].
    destruct (Nat.min 4096 (inbox w)) eqn:Em; [lia|].
    destruct (IH (with_inbox (inbox w - 4096) w)) as (r & w' & -> & ? & ? & ?); [simpl; lia|].
    simpl in *. eexists _, _. split_and!; try done. lia.
  - simpl. case_decide; eauto 6.
Qed.

Lemma write_byte_clean w :
  write_errors w = [] → (inbox w < capacity w)%nat →
  write_all_byte w = Ret (Ok tt, with_inbox (S (inbox w)) w).
Proof.
  intros Hes Hlt. unfold write_all_byte. rewrite Hes. simpl.
  destruct (Nat.ltb_spec (inbox w) (capacity w)); [|lia].
  destruct w; simpl in *; by subst.
Qed.

(** ** Properties *)

(** With room in the pipe, [wake] leaves one more byte for the reactor to
    see and the mutex free, whatever interruptions the system reports; a
    reset of the reactor's end then takes every byte. *)
Theorem wake_then_reset w n :
  locked w = false → (inbox w < capacity w)%nat → read_errors w = [] →
  write_errors w = replicate n Interrupted →
  ∃ w', wake w = Ret (Ok tt, w') ∧ inbox w' = S (inbox w) ∧ locked w' = false ∧
    reset_fd ReaderEnd w' = Ret (Ok tt, with_inbox 0 w').
Proof.
  intros Hl Hlt Hr Hw.
  assert (∀ m, write_byte_loop (replicate m Interrupted) (with_locked true w) =
    (Ok tt, with_inbox (S (inbox w)) (with_write_errors [] (with_locked true w)))) as Hb.
  { induction m as [|m IH]; simpl; [|by rewrite IH].
    destruct (Nat.ltb_spec (inbox w) (capacity w)); [done|lia]. }
  eexists. split_and!.
  - unfold wake. simpl. unfold lock, write_all_byte, unlock. unfold_prog.
    rewrite Hl. cbn. by rewrite Hw, Hb.
  - done.
  - done.
  - by rewrite reset_fd_reader.
Qed.

(** When the pipe is full, [wake] never returns: it resets the writing
    end, from which there is nothing to read, and then locks again the mutex
    it holds. *)
Theorem wake_full_hangs w :
  locked w = false → (capacity w ≤ inbox w)%nat → read_errors w = [] → write_errors w = [] →
  wake w = Hang.
Proof.
  intros Hl Hfull Hr Hw. unfold wake. simpl. unfold lock, write_all_byte, unlock. unfold_prog.
  rewrite Hl. cbn. rewrite Hw. simpl.
  destruct (Nat.ltb_spec (inbox w) (capacity w)); [lia|]. simpl.
  unfold reset_fd. simpl. unfold libc_read. cbn. by rewrite Hr.
Qed.

(** ** Witnesses *)

Definition idle_pair : Waker :=
  {| inbox := 0; capacity := 2; locked := false; read_errors := [];
     write_errors := [Interrupted; Interrupted] |}.
Definition full_pair : Waker :=
  {| inbox := 2; capacity := 2; locked := false; read_errors := []; write_errors := [] |}.

Lemma wake_then_reset_witness :
  ∃ w', wake idle_pair = Ret (Ok tt, w') ∧ inbox w' = 1%nat ∧ locked w' = false ∧
    reset_fd ReaderEnd w' = Ret (Ok tt, with_inbox 0 w').
Proof. apply (wake_then_reset idle_pair 2); simpl; (reflexivity || lia). Defined.

Lemma wake_full_hangs_witness : wake full_pair = Hang.
Proof. apply (wake_full_hangs full_pair); simpl; (reflexivity || lia). Defined.
