(* ===== verification/Reactor.v ===== *)
(** * The poll reactor: io-reactor/src/reactor.rs

    The trait [Handler] is a class whose associated types are fields. A
    [Runtime] is the state of the reactor's thread; [Shared] is what it shares
    with the controllers: the two channels and the waker. *)

From S2P Require Import Prelude StdLib Timeouts Resource Channel Waker.

#[local] Open Scope Z_scope.

(** [const WAIT_TIMEOUT] *)
Definition WAIT_TIMEOUT : Z := from_secs (60 * 60).

Inductive Error (L LId T TId : Type) :=
| ListenerUnknown (id : LId)
| TransportUnknown (id : TId)
| WriteFailure (id : TId) (e : io_error)
| WriteLogicError (id : TId) (data : list byte)
| ListenerDisconnect (id : LId) (listener : L) (flags : Z)
| TransportDisconnect (id : TId) (transport : T) (flags : Z)
| ListenerPollError (id : LId) (flags : Z)
| TransportPollError (id : TId) (flags : Z)
| PollError (e : io_error).
Arguments ListenerUnknown {L LId T TId} id.
Arguments TransportUnknown {L LId T TId} id.
Arguments WriteFailure {L LId T TId} id e.
Arguments WriteLogicError {L LId T TId} id data.
Arguments ListenerDisconnect {L LId T TId} id listener flags.
Arguments TransportDisconnect {L LId T TId} id transport flags.
Arguments ListenerPollError {L LId T TId} id flags.
Arguments TransportPollError {L LId T TId} id flags.
Arguments PollError {L LId T TId} e.

Inductive Action (L LId T TId : Type) :=
| RegisterListener (listener : L)
| RegisterTransport (transport : T)
| UnregisterListener (id : LId)
| UnregisterTransport (id : TId)
| Send (id : TId) (data : list byte)
| SetTimer (duration : Z).
Arguments RegisterListener {L LId T TId} listener.
Arguments RegisterTransport {L LId T TId} transport.
Arguments UnregisterListener {L LId T TId} id.
Arguments UnregisterTransport {L LId T TId} id.
Arguments Send {L LId T TId} id data.
Arguments SetTimer {L LId T TId} duration.

(** [trait Handler: Iterator<Item = Action<..>>] *)
Class Handler (H : Type) := {
  Listener : Type;
  ListenerId : Type;
  ListenerEvent : Type;
  Transport : Type;
  TransportId : Type;
  TransportEvent : Type;
  Command : Type;
  listener_resource :: Resource Listener ListenerId ListenerEvent;
  transport_resource :: Resource Transport TransportId TransportEvent;
  listener_id_eq :: EqDecision ListenerId;
  listener_id_countable :: Countable ListenerId;
  transport_id_eq :: EqDecision TransportId;
  transport_id_countable :: Countable TransportId;
  tick : Z → H → outcome H;
  handle_wakeup : H → outcome H;
  handle_listener_event : ListenerId → ListenerEvent → Z → H → outcome H;
  handle_transport_event : TransportId → TransportEvent → Z → H → outcome H;
  handle_command : Command → H → outcome H;
  handle_error : Error Listener ListenerId Transport TransportId → H → outcome H;
  handover_listener : Listener → H → outcome H;
  handover_transport : Transport → H → outcome H;
  next_action : H → outcome (option (Action Listener ListenerId Transport TransportId) * H);
}.

(** [enum Ctl] *)
Inductive Ctl (L T : Type) :=
| CtlRegisterListener (listener : L)
| CtlRegisterTransport (transport : T)
| CtlShutdown.
Arguments CtlRegisterListener {L T} listener.
Arguments CtlRegisterTransport {L T} transport.
Arguments CtlShutdown {L T}.

(** ** The controller *)

Section controller.
Context {H : Type} `{HH : Handler H} `{CH : Channel}.

(** What all clones of a controller and the runtime share. *)
Record Shared := {
  cmd_chan : chan Command;
  ctl_chan : chan (Ctl Listener Transport);
  waker : Waker;
}.

Definition set_cmd_chan (c : chan Command) (s : Shared) : Shared :=
  {| cmd_chan := c; ctl_chan := ctl_chan s; waker := waker s |}.
Definition set_ctl_chan (c : chan (Ctl Listener Transport)) (s : Shared) : Shared :=
  {| cmd_chan := cmd_chan s; ctl_chan := c; waker := waker s |}.
Definition set_waker (w : Waker) (s : Shared) : Shared :=
  {| cmd_chan := cmd_chan s; ctl_chan := ctl_chan s; waker := w |}.

(** [sender.send(x).map_err(|_| io::ErrorKind::BrokenPipe)?] *)
Definition send_cmd (cmd : Command) : prog Shared io_error unit := λ s,
  let '(r, c) := chan_send cmd (cmd_chan s) in
  Ret (map_err (λ _, from_kind BrokenPipe) r, set_cmd_chan c s).

Definition send_ctl (ctl : Ctl Listener Transport) : prog Shared io_error unit := λ s,
  let '(r, c) := chan_send ctl (ctl_chan s) in
  Ret (map_err (λ _, from_kind BrokenPipe) r, set_ctl_chan c s).

Definition controller_wake : prog Shared io_error unit := zoom waker set_waker wake.

Definition register_listener (listener : Listener) : prog Shared io_error unit :=
  send_ctl (CtlRegisterListener listener) ≫= λ _, controller_wake.

Definition register_transport (transport : Transport) : prog Shared io_error unit :=
  send_ctl (CtlRegisterTransport transport) ≫= λ _, controller_wake.

(** [Controller::send] *)
Definition controller_send (command : Command) : prog Shared io_error unit :=
  send_cmd command ≫= λ _, controller_wake.

(** [res1.or(res2).map_err(|_| self)]: the error carries no information. *)
Definition shutdown : prog Shared unit unit :=
  attempt (send_ctl CtlShutdown) ≫= λ res1,
  attempt controller_wake ≫= λ res2,
  match res1, res2 with
  | Ok _, _ => mret tt
  | Err _, Ok _ => mret tt
  | Err _, Err _ => throw tt
  end.
End controller.

(** ** The runtime *)

Section runtime.
Context {H P : Type} `{HH : Handler H} `{PP : Poll P} `{CH : Channel} `{SO : SortUnstable}.

Record Runtime := {
  service : H;
  poller : P;
  shared : Shared (H := H);
  listener_map : gmap Z ListenerId;
  transport_map : gmap Z TransportId;
  listeners : gmap ListenerId Listener;
  transports : gmap TransportId Transport;
  waker_fd : Z;
  timers : TimeoutManager unit;
}.

Definition set_service (x : H) (rt : Runtime) : Runtime :=
  {| service := x; poller := poller rt; shared := shared rt;
     listener_map := listener_map rt; transport_map := transport_map rt;
     listeners := listeners rt; transports := transports rt;
     waker_fd := waker_fd rt; timers := timers rt |}.
Definition set_poller (x : P) (rt : Runtime) : Runtime :=
  {| service := service rt; poller := x; shared := shared rt;
     listener_map := listener_map rt; transport_map := transport_map rt;
     listeners := listeners rt; transports := transports rt;
     waker_fd := waker_fd rt; timers := timers rt |}.
Definition set_shared (x : Shared) (rt : Runtime) : Runtime :=
  {| service := service rt; poller := poller rt; shared := x;
     listener_map := listener_map rt; transport_map := transport_map rt;
     listeners := listeners rt; transports := transports rt;
     waker_fd := waker_fd rt; timers := timers rt |}.
Definition set_listener_map (x : gmap Z ListenerId) (rt : Runtime) : Runtime :=
  {| service := service rt; poller := poller rt; shared := shared rt;
     listener_map := x; transport_map := transport_map rt;
     listeners := listeners rt; transports := transports rt;
     waker_fd := waker_fd rt; timers := timers rt |}.
Definition set_transport_map (x : gmap Z TransportId) (rt : Runtime) : Runtime :=
  {| service := service rt; poller := poller rt; shared := shared rt;
     listener_map := listener_map rt; transport_map := x;
     listeners := listeners rt; transports := transports rt;
     waker_fd := waker_fd rt; timers := timers rt |}.
Definition set_listeners (x : gmap ListenerId Listener) (rt : Runtime) : Runtime :=
  {| service := service rt; poller := poller rt; shared := shared rt;
     listener_map := listener_map rt; transport_map := transport_map rt;
     listeners := x; transports := transports rt;
     waker_fd := waker_fd rt; timers := timers rt |}.
Definition set_transports (x : gmap TransportId Transport) (rt : Runtime) : Runtime :=
  {| service := service rt; poller := poller rt; shared := shared rt;
     listener_map := listener_map rt; transport_map := transport_map rt;
     listeners := listeners rt; transports := x;
     waker_fd := waker_fd rt; timers := timers rt |}.
Definition set_timers (x : TimeoutManager unit) (rt : Runtime) : Runtime :=
  {| service := service rt; poller := poller rt; shared := shared rt;
     listener_map := listener_map rt; transport_map := transport_map rt;
     listeners := listeners rt; transports := transports rt;
     waker_fd := waker_fd rt; timers := x |}.

(** A call on the service, and one on the poller. *)
Definition on_service {E} (f : H → outcome H) : prog Runtime E unit := λ rt,
  match f (service rt) with
  | Ret h => Ret (Ok tt, set_service h rt)
  | Panic msg => Panic msg
  | Hang => Hang
  end.
Definition on_poller {E} (f : P → P) : prog Runtime E unit :=
  modify (λ rt, set_poller (f (poller rt)) rt).

Definition Empty_err : Type := Empty_set.

(** The state [Runtime::with] and [Reactor::with] start from; the latter also
    registers the reading end of the waker with the poller. *)
Definition runtime_with (h : H) (p : P) (fd : Z) (w : Waker) : Runtime :=
  {| service := h; poller := p;
     shared := {| cmd_chan := unbounded; ctl_chan := unbounded; waker := w |};
     listener_map := ∅; transport_map := ∅; listeners := ∅; transports := ∅;
     waker_fd := fd; timers := Timeouts.new (from_secs 1) |}.
Definition reactor_with (h : H) (p : P) (fd : Z) (w : Waker) : Runtime :=
  runtime_with h (poll_register fd IoType.read_only p) fd w.

(** *** Actions *)

(** [write_atomic] on a registered transport. *)
Definition write_transport (id : TransportId) (t : Transport) (data : list byte) :
    prog Runtime WriteError unit := λ rt,
  match write_atomic data t with
  | Ret (r, t') => Ret (r, set_transports (<[id := t']> (transports rt)) rt)
  | Panic msg => Panic msg
  | Hang => Hang
  end.

Definition write_error (id : TransportId) (data : list byte) (e : WriteError) :
    Error Listener ListenerId Transport TransportId :=
  match e with
  | NotReady => WriteLogicError id data
  | WIo e => WriteFailure id e
  end.

Definition handle_action (action : Action Listener ListenerId Transport TransportId)
    (time : Z) : prog Runtime (Error Listener ListenerId Transport TransportId) unit :=
  match action with
  | RegisterListener listener =>
      let id := res_id listener in
      let fd := as_raw_fd listener in
      on_poller (poll_register fd IoType.read_only) ≫= λ _,
      modify (λ rt, set_listeners (<[id := listener]> (listeners rt)) rt) ≫= λ _,
      modify (λ rt, set_listener_map (<[fd := id]> (listener_map rt)) rt)
  | RegisterTransport transport =>
      let id := res_id transport in
      let fd := as_raw_fd transport in
      on_poller (poll_register fd IoType.read_only) ≫= λ _,
      modify (λ rt, set_transports (<[id := transport]> (transports rt)) rt) ≫= λ _,
      modify (λ rt, set_transport_map (<[fd := id]> (transport_map rt)) rt)
  | UnregisterListener id =>
      gets (λ rt, listeners rt !! id) ≫= λ found,
      of_result (ok_or found (ListenerUnknown id)) ≫= λ listener,
      modify (λ rt, set_listeners (delete id (listeners rt)) rt) ≫= λ _,
      let fd := as_raw_fd listener in
      gets (λ rt, listener_map rt !! fd) ≫= λ indexed,
      of_outcome (expect indexed
        "listener index content doesn't match registered listeners") ≫= λ _,
      modify (λ rt, set_listener_map (delete fd (listener_map rt)) rt) ≫= λ _,
      on_poller (poll_unregister fd) ≫= λ _,
      on_service (handover_listener listener)
  | UnregisterTransport id =>
      gets (λ rt, transports rt !! id) ≫= λ found,
      of_result (ok_or found (TransportUnknown id)) ≫= λ transport,
      modify (λ rt, set_transports (delete id (transports rt)) rt) ≫= λ _,
      let fd := as_raw_fd transport in
      gets (λ rt, transport_map rt !! fd) ≫= λ indexed,
      of_outcome (expect indexed
        "transport index content doesn't match registered transports") ≫= λ _,
      modify (λ rt, set_transport_map (delete fd (transport_map rt)) rt) ≫= λ _,
      on_poller (poll_unregister fd) ≫= λ _,
      on_service (handover_transport transport)
  | Send id data =>
      gets (λ rt, transports rt !! id) ≫= λ found,
      of_result (ok_or found (TransportUnknown id)) ≫= λ transport,
      with_err (write_error id data) (write_transport id transport data)
  | SetTimer duration =>
      of_outcome (dur_add time duration) ≫= λ at_,
      gets timers ≫= λ tm,
      of_outcome (Timeouts.register tm tt at_) ≫= λ '(_, tm'),
      modify (set_timers tm')
  end.

(** [while let Some(action) = self.service.next()]; the loop ends only when
    the service has no more actions, so it takes fuel. *)
Fixpoint handle_actions (fuel : nat) (time : Z) : prog Runtime Empty_err unit := λ rt,
  match fuel with
  | O => Hang
  | S fuel =>
      match next_action (service rt) with
      | Ret (None, h) => Ret (Ok tt, set_service h rt)
      | Ret (Some action, h) =>
          (attempt (handle_action action time) ≫= λ res,
           match res with
           | Ok _ => mret tt
           | Err err => on_service (handle_error err)
           end ≫= λ _, handle_actions fuel time) (set_service h rt)
      | Panic msg => Panic msg
      | Hang => Hang
      end
  end.

(** *** Events *)

(** [for io in io { if let Some(event) = listener.handle_io(io) { .. } }] *)
Fixpoint listener_io (id : ListenerId) (listener : Listener) (time : Z) (ios : list Io) :
    prog Runtime Empty_err unit :=
  match ios with
  | [] => mret tt
  | io :: ios =>
      of_outcome (handle_io io listener) ≫= λ '(ev, listener'),
      modify (λ rt, set_listeners (<[id := listener']> (listeners rt)) rt) ≫= λ _,
      match ev with
      | Some event => on_service (handle_listener_event id event time)
      | None => mret tt
      end ≫= λ _,
      listener_io id listener' time ios
  end.

Fixpoint transport_io (id : TransportId) (transport : Transport) (time : Z) (ios : list Io) :
    prog Runtime Empty_err unit :=
  match ios with
  | [] => mret tt
  | io :: ios =>
      of_outcome (handle_io io transport) ≫= λ '(ev, transport'),
      modify (λ rt, set_transports (<[id := transport']> (transports rt)) rt) ≫= λ _,
      match ev with
      | Some event => on_service (handle_transport_event id event time)
      | None => mret tt
      end ≫= λ _,
      transport_io id transport' time ios
  end.

(** [reset_fd(&self.waker).expect("waker failure")] *)
Definition reset_waker : prog Runtime Empty_err unit := λ rt,
  match reset_fd ReaderEnd (waker (shared rt)) with
  | Ret (Ok _, w) => Ret (Ok tt, set_shared (set_waker w (shared rt)) rt)
  | Ret (Err _, _) => Panic "waker failure"
  | Panic msg => Panic msg
  | Hang => Hang
  end.

(** The body of the event loop: whether the waker fired, and the descriptors
    to put on [unregister_queue]. *)
Definition handle_event (time : Z) (fd : Z) (res : result IoFail IoType.t) :
    prog Runtime Empty_err (bool * list Z) :=
  gets id ≫= λ rt,
  if decide (fd = waker_fd rt) then
    match res with
    | Err _ => panic "waker failure"
    | Ok _ => reset_waker ≫= λ _, mret (true, [])
    end
  else match listener_map rt !! fd with
  | Some id =>
      match res with
      | Ok io =>
          of_outcome (expect (listeners rt !! id) "resource disappeared") ≫= λ listener,
          listener_io id listener time (IoType.to_list io) ≫= λ _,
          mret (false, [])
      | Err (Connectivity flags) =>
          of_outcome (expect (listeners rt !! id) "resource disappeared") ≫= λ listener,
          modify (λ rt, set_listeners (delete id (listeners rt)) rt) ≫= λ _,
          on_service (handle_error (ListenerDisconnect id listener flags)) ≫= λ _,
          mret (false, [as_raw_fd listener])
      | Err (Os flags) =>
          on_service (handle_error (ListenerPollError id flags)) ≫= λ _,
          mret (false, [])
      end
  | None =>
  match transport_map rt !! fd with
  | Some id =>
      match res with
      | Ok io =>
          of_outcome (expect (transports rt !! id) "resource disappeared") ≫= λ transport,
          transport_io id transport time (IoType.to_list io) ≫= λ _,
          mret (false, [])
      | Err (Connectivity flags) =>
          of_outcome (expect (transports rt !! id) "resource disappeared") ≫= λ transport,
          modify (λ rt, set_transports (delete id (transports rt)) rt) ≫= λ _,
          on_service (handle_error (TransportDisconnect id transport flags)) ≫= λ _,
          mret (false, [as_raw_fd transport])
      | Err (Os flags) =>
          on_service (handle_error (TransportPollError id flags)) ≫= λ _,
          mret (false, [])
      end
  | None =>
      panic "file descriptor in reactor which is not a known waker, listener or transport"
  end
  end.

(** [for (fd, res) in &mut self.poller]: the iterator is run to its end. *)
Fixpoint events_loop (fuel : nat) (time : Z) (awoken : bool) (unregister_queue : list Z) :
    prog Runtime Empty_err (bool * list Z) := λ rt,
  match fuel with
  | O => Hang
  | S fuel =>
      match poll_next (poller rt) with
      | (None, p) => Ret (Ok (awoken, unregister_queue), set_poller p rt)
      | (Some (fd, res), p) =>
          (handle_event time fd res ≫= λ '(woke, unregister),
           events_loop fuel time (awoken || woke) (unregister_queue ++ unregister))
            (set_poller p rt)
      end
  end.

Definition handle_events (fuel : nat) (time : Z) : prog Runtime Empty_err bool :=
  events_loop fuel time false [] ≫= λ '(awoken, unregister_queue),
  for_each unregister_queue (λ fd, on_poller (poll_unregister fd)) ≫= λ _,
  mret awoken.

(** *** The event loop *)

(** [loop { match self.cmd_recv.try_recv() { .. } }] *)
Fixpoint commands_loop (fuel : nat) : prog Runtime Empty_err unit := λ rt,
  match fuel with
  | O => Hang
  | S fuel =>
      let '(r, c) := try_recv (cmd_chan (shared rt)) in
      let rt := set_shared (set_cmd_chan c (shared rt)) rt in
      match r with
      | Empty => Ret (Ok tt, rt)
      | Disconnected => Panic "control channel is broken"
      | Received cmd => (on_service (handle_command cmd) ≫= λ _, commands_loop fuel) rt
      end
  end.

(** What the body of [run]'s loop ends with: [continue] or [return]. *)
Inductive flow := Continue | Return.

(** [.expect("register actions do not error")] *)
Definition register_action (action : Action Listener ListenerId Transport TransportId)
    (now : Z) : prog Runtime Empty_err unit :=
  attempt (handle_action action now) ≫= λ r,
  match r with
  | Ok _ => mret tt
  | Err _ => panic "register actions do not error"
  end.

(** [loop { match self.ctl_recv.try_recv() { .. } }] *)
Fixpoint control_loop (fuel : nat) (now : Z) : prog Runtime Empty_err flow := λ rt,
  match fuel with
  | O => Hang
  | S fuel =>
      let '(r, c) := try_recv (ctl_chan (shared rt)) in
      let rt := set_shared (set_ctl_chan c (shared rt)) rt in
      match r with
      | Empty => Ret (Ok Continue, rt)
      | Disconnected => Panic "shutdown channel is broken"
      | Received CtlShutdown => Ret (Ok Return, rt)
      | Received (CtlRegisterListener listener) =>
          (register_action (RegisterListener listener) now ≫= λ _, control_loop fuel now) rt
      | Received (CtlRegisterTransport transport) =>
          (register_action (RegisterTransport transport) now ≫= λ _, control_loop fuel now) rt
      end
  end.

(** [for res in self.listeners.values() { .. }], and the same for transports;
    the order in which a [HashMap] is iterated does not matter here. *)
Definition set_interests : prog Runtime Empty_err unit :=
  gets listeners ≫= λ ls,
  for_each (map_to_list ls).*2 (λ res,
    on_poller (λ p, (poll_set_interest (as_raw_fd res) (interests res) p).2)) ≫= λ _,
  gets transports ≫= λ ts,
  for_each (map_to_list ts).*2 (λ res,
    on_poller (λ p, (poll_set_interest (as_raw_fd res) (interests res) p).2)).

(** The timeout of an iteration. *)
Definition poll_timeout (before_poll : Z) (tm : TimeoutManager unit) : outcome Z :=
  o ← Timeouts.next tm before_poll; Ret (default WAIT_TIMEOUT o).

(** One iteration of [run]; [before_poll] and [now] are what the clock says
    before and after the poll. *)
Definition run_once (fuel : nat) (before_poll now : Z) : prog Runtime Empty_err flow :=
  gets timers ≫= λ tm,
  of_outcome (poll_timeout before_poll tm) ≫= λ timeout,
  set_interests ≫= λ _,
  gets (λ rt, poll_poll (Some timeout) (poller rt)) ≫= λ '(res, p),
  modify (set_poller p) ≫= λ _,
  match res with
  | Ok O => mret Continue
  | Err err => on_service (handle_error (PollError err)) ≫= λ _, mret Continue
  | Ok (S _) =>
      on_service (tick now) ≫= λ _,
      handle_events fuel now ≫= λ awoken,
      (if awoken : bool
       then commands_loop fuel ≫= λ _, control_loop fuel now
       else mret Continue) ≫= λ fl,
      match fl with
      | Return => mret Return
      | Continue => handle_actions fuel now ≫= λ _, mret Continue
      end
  end.

(** [run] for as many iterations as there are clock readings. *)
Fixpoint run (fuel : nat) (clock : list (Z * Z)) : prog Runtime Empty_err unit :=
  match clock with
  | [] => mret tt
  | (before_poll, now) :: clock =>
      run_once fuel before_poll now ≫= λ fl,
      match fl with
      | Return => mret tt
      | Continue => run fuel clock
      end
  end.
End runtime.
