(* ===== verification/ReactorToy.v ===== *)
(** * A concrete service to run the reactor with

    A service that logs every call and issues a list of actions, resources
    that record what is written to them, on the concrete poller, channel and
    sort of the library: the theorems on the reactor are evaluated on it. *)

From S2P Require Import Prelude StdLib Timeouts Resource Popol Channel Waker Reactor.

#[local] Open Scope Z_scope.

Module Toy.
(** A resource with an id, a descriptor, and the bytes written to it. *)
Record Res := { rid : Z; rfd : Z; ready : bool; written : list byte }.

Definition accept (buf : list byte) (r : Res) : Res :=
  {| rid := rid r; rfd := rfd r; ready := ready r; written := written r ++ buf |}.

#[export] Instance res : Resource Res Z Io := {|
  res_id := rid;
  as_raw_fd := rfd;
  interests _ := IoType.read_write;
  handle_io io r := Ret (Some io, r);
  disconnect _ := Ret (Ok tt);
  is_ready_to_write := ready;
  write_or_buffer buf := modify (accept buf);
|}.

#[export] Instance res_stable : StableResource Res Z Io.
Proof. split; intros; simpl in *; unfold modify in *; by simplify_eq. Qed.

#[export] Instance res_laws : ResourceLaws Res Z Io.
Proof. refine {| res_inv _ := True; accepted := written |}. intros. by split_and!. Defined.

Inductive Call :=
| Tick (now : Z)
| ListenerEv (id : Z) (io : Io)
| TransportEv (id : Z) (io : Io)
| Cmd (n : Z)
| Failed (e : Error Res Z Res Z)
| Handover (fd : Z).

Record Service := { log : list Call; actions : list (Action Res Z Res Z) }.

Definition note (c : Call) (h : Service) : outcome Service :=
  Ret {| log := log h ++ [c]; actions := actions h |}.

#[export] Instance handler : Handler Service := {|
  Reactor.Listener := Res;
  Reactor.ListenerId := Z;
  Reactor.ListenerEvent := Io;
  Reactor.Transport := Res;
  Reactor.TransportId := Z;
  Reactor.TransportEvent := Io;
  Reactor.Command := Z;
  tick now := note (Tick now);
  handle_wakeup h := Ret h;
  handle_listener_event id io _ := note (ListenerEv id io);
  handle_transport_event id io _ := note (TransportEv id io);
  handle_command n := note (Cmd n);
  handle_error e := note (Failed e);
  handover_listener l := note (Handover (rfd l));
  handover_transport t := note (Handover (rfd t));
  next_action h := match actions h with
                   | [] => Ret (None, h)
                   | a :: l => Ret (Some a, {| log := log h; actions := l |})
                   end;
|}.

#[export] Existing Instance ListChannel.lib.
#[export] Existing Instance ListChannel.laws.
#[export] Existing Instance insertion_sort.
#[export] Existing Instance PopolModel.lib.
#[export] Existing Instance PopolModel.laws.

Definition pair : Waker :=
  {| inbox := 0; capacity := 8; locked := false; read_errors := []; write_errors := [] |}.

(** A reactor whose poller will report these events. *)
Definition start (acts : list (Action Res Z Res Z)) (script : list (list (Z * Z))) :
    Runtime (H := Service) (P := Poller) :=
  reactor_with {| log := []; actions := acts |}
    {| poll := {| PopolModel.masks := ∅; PopolModel.current := []; PopolModel.script := script |};
       events := [] |} 10 pair.

Definition server : Res := {| rid := 1; rfd := 3; ready := true; written := [] |}.
Definition client : Res := {| rid := 2; rfd := 4; ready := true; written := [] |}.

(** A reactor with one listener and one transport. *)
Definition running (script : list (list (Z * Z))) : Runtime (H := Service) (P := Poller) :=
  let rt := start [RegisterListener server; RegisterTransport client] script in
  final rt (handle_actions 3 0 rt).
End Toy.
