(* ===== verification/ReactorSpec.v ===== *)
(** * The reactor against its specification

    The abstract reactor is a table of live resources with the service and the
    timers; it has no descriptor indices and no poller. The runtime refines
    it, as long as the indices and the poller agree with the tables
    ([wf_runtime]). *)

From S2P Require Import Prelude StdLib Timeouts Resource Popol Channel Waker Reactor ReactorToy.

#[local] Open Scope Z_scope.

(** ** The abstract reactor *)

Section spec.
Context {H : Type} `{HH : Handler H} `{SO : SortUnstable}.

Record Table := {
  t_service : H;
  t_listeners : gmap ListenerId Listener;
  t_transports : gmap TransportId Transport;
  t_timers : TimeoutManager unit;
}.

Definition t_set_service (h : H) (t : Table) : Table :=
  {| t_service := h; t_listeners := t_listeners t; t_transports := t_transports t;
     t_timers := t_timers t |}.
Definition t_set_listeners (ls : gmap ListenerId Listener) (t : Table) : Table :=
  {| t_service := t_service t; t_listeners := ls; t_transports := t_transports t;
     t_timers := t_timers t |}.
Definition t_set_transports (ts : gmap TransportId Transport) (t : Table) : Table :=
  {| t_service := t_service t; t_listeners := t_listeners t; t_transports := ts;
     t_timers := t_timers t |}.
Definition t_set_timers (tm : TimeoutManager unit) (t : Table) : Table :=
  {| t_service := t_service t; t_listeners := t_listeners t; t_transports := t_transports t;
     t_timers := tm |}.

Definition t_call {E} (f : H → outcome H) : prog Table E unit := λ t,
  match f (t_service t) with
  | Ret h => Ret (Ok tt, t_set_service h t)
  | Panic msg => Panic msg
  | Hang => Hang
  end.

(** What each action means: a registration adds the resource, an unregister
    hands a live one over to the service, a send writes to a live transport,
    a timer is set relative to now; unknown ids are errors. *)
Definition spec_action (action : Action Listener ListenerId Transport TransportId)
    (time : Z) : prog Table (Error Listener ListenerId Transport TransportId) unit := λ t,
  match action with
  | RegisterListener l =>
      Ret (Ok tt, t_set_listeners (<[res_id l := l]> (t_listeners t)) t)
  | RegisterTransport r =>
      Ret (Ok tt, t_set_transports (<[res_id r := r]> (t_transports t)) t)
  | UnregisterListener id =>
      match t_listeners t !! id with
      | None => Ret (Err (ListenerUnknown id), t)
      | Some l => t_call (handover_listener l) (t_set_listeners (delete id (t_listeners t)) t)
      end
  | UnregisterTransport id =>
      match t_transports t !! id with
      | None => Ret (Err (TransportUnknown id), t)
      | Some r => t_call (handover_transport r) (t_set_transports (delete id (t_transports t)) t)
      end
  | Send id data =>
      match t_transports t !! id with
      | None => Ret (Err (TransportUnknown id), t)
      | Some r =>
          match write_atomic data r with
          | Ret (res, r') => Ret (map_err (write_error id data) res,
                                  t_set_transports (<[id := r']> (t_transports t)) t)
          | Panic msg => Panic msg
          | Hang => Hang
          end
      end
  | SetTimer duration =>
      match dur_add time duration ≫= λ at_, Timeouts.register (t_timers t) tt at_ with
      | Ret (_, tm) => Ret (Ok tt, t_set_timers tm t)
      | Panic msg => Panic msg
      | Hang => Hang
      end
  end.
End spec.

(** ** Well-formed runtimes *)

Section inv.
Context {H P : Type} `{HH : Handler H} `{PL : PollLaws P} `{CH : Channel}.
Context {SL : StableResource Listener ListenerId ListenerEvent}.
Context {ST : StableResource Transport TransportId TransportEvent}.
Implicit Types (rt : Runtime (H := H) (P := P)).

Definition abs (rt : Runtime (H := H) (P := P)) : Table (H := H) :=
  {| t_service := service rt; t_listeners := listeners rt;
     t_transports := transports rt; t_timers := timers rt |}.

(** The descriptors of live resources. *)
Definition live_fd (rt : Runtime (H := H) (P := P)) (fd : Z) : Prop :=
  (∃ id l, listeners rt !! id = Some l ∧ as_raw_fd l = fd) ∨
  (∃ id t, transports rt !! id = Some t ∧ as_raw_fd t = fd).

(** Every live resource is found from its descriptor, and the poller watches
    the waker, the live descriptors and those of [gone]. *)
Record wf_but (gone : list Z) (rt : Runtime (H := H) (P := P)) : Prop := {
  wf_listener id l : listeners rt !! id = Some l →
    res_id l = id ∧ listener_map rt !! as_raw_fd l = Some id ∧
    as_raw_fd l ∈ watched (poller rt) ∧ as_raw_fd l ≠ waker_fd rt ∧ as_raw_fd l ∉ gone;
  wf_transport id t : transports rt !! id = Some t →
    res_id t = id ∧ transport_map rt !! as_raw_fd t = Some id ∧
    listener_map rt !! as_raw_fd t = None ∧
    as_raw_fd t ∈ watched (poller rt) ∧ as_raw_fd t ≠ waker_fd rt ∧ as_raw_fd t ∉ gone;
  wf_waker : waker_fd rt ∈ watched (poller rt) ∧ waker_fd rt ∉ gone;
  wf_watched fd : fd ∈ watched (poller rt) →
    fd = waker_fd rt ∨ live_fd rt fd ∨ fd ∈ gone;
}.
Definition wf_runtime := wf_but [].

(** What the operating system guarantees of a resource that is registered:
    its descriptor is not that of another open one. A transport's descriptor
    must moreover have no entry left in the listener index; see
    [stale_listener_index_panics] for what happens otherwise. *)
Definition fresh_action (action : Action Listener ListenerId Transport TransportId)
    (rt : Runtime (H := H) (P := P)) : Prop :=
  match action with
  | RegisterListener l =>
      listeners rt !! res_id l = None ∧ as_raw_fd l ∉ watched (poller rt)
  | RegisterTransport t =>
      transports rt !! res_id t = None ∧ as_raw_fd t ∉ watched (poller rt) ∧
      listener_map rt !! as_raw_fd t = None
  | _ => True
  end.
End inv.

(** The result and the abstract state of a run. *)
Definition map_state {S S' A} (f : S → S') (o : outcome (A * S)) : outcome (A * S') :=
  match o with
  | Ret (r, s) => Ret (r, f s)
  | Panic msg => Panic msg
  | Hang => Hang
  end.

(** ** Lemmas: actions *)

Section actions.
Context {H P : Type} `{HH : Handler H} `{PL : PollLaws P} `{CH : Channel} `{SO : SortUnstable}.
Context {SL : StableResource Listener ListenerId ListenerEvent}.
Context {ST : StableResource Transport TransportId TransportEvent}.
Implicit Types (rt : Runtime (H := H) (P := P)).

Lemma wf_set_service h rt gone : wf_but gone rt → wf_but gone (set_service h rt).
Proof. intros []. by split. Qed.

Lemma wf_set_timers tm rt gone : wf_but gone rt → wf_but gone (set_timers tm rt).
Proof. intros []. by split. Qed.

Lemma wf_set_shared sh rt gone : wf_but gone rt → wf_but gone (set_shared sh rt).
Proof. intros []. by split. Qed.

(** The poller may change as long as it watches the same descriptors. *)
Lemma wf_set_poller p rt gone :
  watched p = watched (poller rt) → wf_but gone rt → wf_but gone (set_poller p rt).
Proof. intros Hp []. split; simpl; rewrite Hp; done. Qed.

Lemma wf_register_listener l rt :
  wf_runtime rt → fresh_action (RegisterListener l) rt →
  wf_runtime (set_listener_map (<[as_raw_fd l := res_id l]> (listener_map rt))
    (set_listeners (<[res_id l := l]> (listeners rt))
      (set_poller (poll_register (as_raw_fd l) IoType.read_only (poller rt)) rt))).
Proof.
  intros [Hl Ht [Hw _] Hwt] [Hid Hfd].
  destruct (poll_register_law (as_raw_fd l) IoType.read_only (poller rt)) as [Hwatch _].
  split; simpl; rewrite ?Hwatch.
  - intros id l' Hl'. destruct (decide (id = res_id l)) as [->|Hne].
    + rewrite lookup_insert_eq in Hl'. simplify_eq. rewrite lookup_insert_eq.
      split_and!; [done|done|set_solver|congruence|set_solver].
    + rewrite lookup_insert_ne in Hl' by done. destruct (Hl _ _ Hl') as (?&?&?&?&?).
      rewrite lookup_insert_ne by congruence. split_and!; [done|done|set_solver|done|done].
  - intros id t Ht'. destruct (Ht _ _ Ht') as (?&?&?&?&?&?).
    rewrite lookup_insert_ne by congruence. split_and!; try done. set_solver.
  - split; [set_solver|set_solver].
  - intros fd [->%elem_of_singleton|Hf]%elem_of_union.
    + right; left; left. exists (res_id l), l. simpl. by rewrite lookup_insert_eq.
    + destruct (Hwt _ Hf) as [?|[[(id&l'&Hl'&?)|(id&t&?&?)]|?]];
        [by left| | |by right; right].
      * right; left; left. exists id, l'. simpl. rewrite lookup_insert_ne by congruence. done.
      * right; left; right. eauto.
Qed.

Lemma wf_register_transport t rt :
  wf_runtime rt → fresh_action (RegisterTransport t) rt →
  wf_runtime (set_transport_map (<[as_raw_fd t := res_id t]> (transport_map rt))
    (set_transports (<[res_id t := t]> (transports rt))
      (set_poller (poll_register (as_raw_fd t) IoType.read_only (poller rt)) rt))).
Proof.
  intros [Hl Ht [Hw _] Hwt] (Hid & Hfd & Hlm).
  destruct (poll_register_law (as_raw_fd t) IoType.read_only (poller rt)) as [Hwatch _].
  split; simpl; rewrite ?Hwatch.
  - intros id l Hl'. destruct (Hl _ _ Hl') as (?&?&?&?&?). split_and!; try done. set_solver.
  - intros id t' Ht'. destruct (decide (id = res_id t)) as [->|Hne].
    + rewrite lookup_insert_eq in Ht'. simplify_eq. rewrite lookup_insert_eq.
      split_and!; [done|done|done|set_solver|congruence|set_solver].
    + rewrite lookup_insert_ne in Ht' by done. destruct (Ht _ _ Ht') as (?&?&?&?&?&?).
      rewrite lookup_insert_ne by congruence. split_and!; try done. set_solver.
  - split; [set_solver|set_solver].
  - intros fd [->%elem_of_singleton|Hf]%elem_of_union.
    + right; left; right. exists (res_id t), t. simpl. by rewrite lookup_insert_eq.
    + destruct (Hwt _ Hf) as [?|[[(id&l&?&?)|(id&t'&Ht'&?)]|?]];
        [by left| | |by right; right].
      * right; left; left. eauto.
      * right; left; right. exists id, t'. simpl. rewrite lookup_insert_ne by congruence. done.
Qed.

Lemma live_listeners_fd_inj rt gone id1 id2 l1 l2 :
  wf_but gone rt → listeners rt !! id1 = Some l1 → listeners rt !! id2 = Some l2 →
  as_raw_fd l1 = as_raw_fd l2 → id1 = id2.
Proof.
  intros Hwf H1 H2 E. destruct (wf_listener _ _ Hwf _ _ H1) as (_&?&_).
  destruct (wf_listener _ _ Hwf _ _ H2) as (_&?&_). congruence.
Qed.

Lemma live_transports_fd_inj rt gone id1 id2 t1 t2 :
  wf_but gone rt → transports rt !! id1 = Some t1 → transports rt !! id2 = Some t2 →
  as_raw_fd t1 = as_raw_fd t2 → id1 = id2.
Proof.
  intros Hwf H1 H2 E. destruct (wf_transport _ _ Hwf _ _ H1) as (_&?&_).
  destruct (wf_transport _ _ Hwf _ _ H2) as (_&?&_). congruence.
Qed.

Lemma live_disjoint rt gone id1 id2 l t :
  wf_but gone rt → listeners rt !! id1 = Some l → transports rt !! id2 = Some t →
  as_raw_fd l ≠ as_raw_fd t.
Proof.
  intros Hwf H1 H2 E. destruct (wf_listener _ _ Hwf _ _ H1) as (_&?&_).
  destruct (wf_transport _ _ Hwf _ _ H2) as (_&_&?&_). congruence.
Qed.
(** A live resource is replaced by one with the same id and descriptor. *)
Lemma wf_update_listener id l l' rt gone :
  wf_but gone rt → listeners rt !! id = Some l →
  res_id l' = res_id l → as_raw_fd l' = as_raw_fd l →
  wf_but gone (set_listeners (<[id := l']> (listeners rt)) rt).
Proof.
  intros [Hl Ht Hw Hwt] Hid Eid Efd. split; simpl; [|done|done|].
  - intros id0 l0 [[<- <-]|[? Hl0]]%lookup_insert_Some; [|by apply Hl].
    rewrite Eid, Efd. by apply Hl.
  - intros fd [?|[[(id0&l0&Hl0&Hf)|?]|?]]%Hwt; [by left| |by right; left; right|by right; right].
    right; left; left. destruct (decide (id = id0)) as [->|Hne].
    + exists id0, l'. simpl. rewrite lookup_insert_eq. split; [done|congruence].
    + exists id0, l0. simpl. by rewrite lookup_insert_ne.
Qed.

Lemma wf_update_transport id t t' rt gone :
  wf_but gone rt → transports rt !! id = Some t →
  res_id t' = res_id t → as_raw_fd t' = as_raw_fd t →
  wf_but gone (set_transports (<[id := t']> (transports rt)) rt).
Proof.
  intros [Hl Ht Hw Hwt] Hid Eid Efd. split; simpl; [done| |done|].
  - intros id0 t0 [[<- <-]|[? Ht0]]%lookup_insert_Some; [|by apply Ht].
    rewrite Eid, Efd. by apply Ht.
  - intros fd [?|[[?|(id0&t0&Ht0&Hf)]|?]]%Hwt; [by left|by right; left; left| |by right; right].
    right; left; right. destruct (decide (id = id0)) as [->|Hne].
    + exists id0, t'. simpl. rewrite lookup_insert_eq. split; [done|congruence].
    + exists id0, t0. simpl. by rewrite lookup_insert_ne.
Qed.

(** A resource leaves the table: its descriptor joins the gone ones. *)
Lemma wf_delete_listener id l rt gone :
  wf_but gone rt → listeners rt !! id = Some l →
  wf_but (as_raw_fd l :: gone) (set_listeners (delete id (listeners rt)) rt).
Proof.
  intros Hwf Hid. pose proof Hwf as [Hl Ht [Hw Hwg] Hwt].
  destruct (Hl _ _ Hid) as (_ & _ & _ & Hlw & Hlg). split; simpl.
  - intros id' l' [Hne Hl']%lookup_delete_Some.
    destruct (Hl _ _ Hl') as (?&?&?&?&?). split_and!; try done.
    apply not_elem_of_cons; split; [|done]. intros E. apply Hne. symmetry.
    by eapply (live_listeners_fd_inj rt gone).
  - intros id' t' Ht'. destruct (Ht _ _ Ht') as (?&?&?&?&?&?). split_and!; try done.
    apply not_elem_of_cons; split; [|done]. intros E. by eapply (live_disjoint rt gone).
  - split; [done|]. apply not_elem_of_cons. done.
  - intros fd [?|[[(id0&l0&Hl0&Hf)|?]|?]]%Hwt;
      [by left| |by right; left; right|right; right; by constructor].
    destruct (decide (id0 = id)) as [->|Hne].
    + right; right. simplify_eq. constructor.
    + right; left; left. exists id0, l0. simpl. by rewrite lookup_delete_ne.
Qed.

Lemma wf_delete_transport id t rt gone :
  wf_but gone rt → transports rt !! id = Some t →
  wf_but (as_raw_fd t :: gone) (set_transports (delete id (transports rt)) rt).
Proof.
  intros Hwf Hid. pose proof Hwf as [Hl Ht [Hw Hwg] Hwt].
  destruct (Ht _ _ Hid) as (_ & _ & _ & _ & Htw & Htg). split; simpl.
  - intros id' l' Hl'. destruct (Hl _ _ Hl') as (?&?&?&?&?). split_and!; try done.
    apply not_elem_of_cons; split; [|done]. intros E. by eapply (live_disjoint rt gone).
  - intros id' t' [Hne Ht']%lookup_delete_Some.
    destruct (Ht _ _ Ht') as (?&?&?&?&?&?). split_and!; try done.
    apply not_elem_of_cons; split; [|done]. intros E. apply Hne. symmetry.
    by eapply (live_transports_fd_inj rt gone).
  - split; [done|]. apply not_elem_of_cons. done.
  - intros fd [?|[[?|(id0&t0&Ht0&Hf)]|?]]%Hwt;
      [by left|by right; left; left| |right; right; by constructor].
    destruct (decide (id0 = id)) as [->|Hne].
    + right; right. simplify_eq. constructor.
    + right; left; right. exists id0, t0. simpl. by rewrite lookup_delete_ne.
Qed.

(** Unregistering gone descriptors settles them. *)
Lemma wf_unregister fd rt gone :
  wf_but (fd :: gone) rt → wf_but gone (set_poller (poll_unregister fd (poller rt)) rt).
Proof.
  intros [Hl Ht [Hw Hwg] Hwt].
  destruct (poll_unregister_law fd (poller rt)) as [Hwatch _].
  split; simpl; rewrite ?Hwatch.
  - intros id l Hl'. destruct (Hl _ _ Hl') as (?&?&?&?&[??]%not_elem_of_cons).
    split_and!; try done. apply elem_of_difference; split; [done|by rewrite elem_of_singleton].
  - intros id t Ht'. destruct (Ht _ _ Ht') as (?&?&?&?&?&[??]%not_elem_of_cons).
    split_and!; try done. apply elem_of_difference; split; [done|by rewrite elem_of_singleton].
  - apply not_elem_of_cons in Hwg as [??]. split; [|done].
    apply elem_of_difference; split; [done|by rewrite elem_of_singleton].
  - intros fd' [Hin Hne]%elem_of_difference. rewrite elem_of_singleton in Hne.
    destruct (Hwt _ Hin) as [?|[?|[?|?]%elem_of_cons]]; [by left|by right; left|done|by right; right].
Qed.

Lemma wf_gone_perm rt gone gone' : gone ≡ₚ gone' → wf_but gone rt → wf_but gone' rt.
Proof.
  intros Hp [Hl Ht Hw Hwt]. split.
  - intros id l. rewrite <-Hp. apply Hl.
  - intros id t. rewrite <-Hp. apply Ht.
  - by rewrite <-Hp.
  - intros fd. rewrite <-Hp. apply Hwt.
Qed.

(** Index entries of descriptors that no live resource has may go. *)
Lemma wf_drop_listener_index fd rt gone :
  wf_but gone rt → (∀ id l, listeners rt !! id = Some l → as_raw_fd l ≠ fd) →
  wf_but gone (set_listener_map (delete fd (listener_map rt)) rt).
Proof.
  intros [Hl Ht Hw Hwt] Hfd. split; simpl; [| |done|done].
  - intros id l Hl'. destruct (Hl _ _ Hl') as (?&?&?&?&?).
    rewrite lookup_delete_ne by (apply not_eq_sym; eauto). done.
  - intros id t Ht'. destruct (Ht _ _ Ht') as (?&?&?&?&?&?). split_and!; try done.
    apply lookup_delete_None. by right.
Qed.

Lemma wf_drop_transport_index fd rt gone :
  wf_but gone rt → (∀ id t, transports rt !! id = Some t → as_raw_fd t ≠ fd) →
  wf_but gone (set_transport_map (delete fd (transport_map rt)) rt).
Proof.
  intros [Hl Ht Hw Hwt] Hfd. split; simpl; [done| |done|done].
  intros id t Ht'. destruct (Ht _ _ Ht') as (?&?&?&?&?&?).
  rewrite lookup_delete_ne by (apply not_eq_sym; eauto). done.
Qed.
Lemma wf_unregister_listener id l rt :
  wf_runtime rt → listeners rt !! id = Some l →
  listener_map rt !! as_raw_fd l = Some id ∧
  wf_runtime (set_poller (poll_unregister (as_raw_fd l) (poller rt))
    (set_listener_map (delete (as_raw_fd l) (listener_map rt))
      (set_listeners (delete id (listeners rt)) rt))).
Proof.
  intros Hwf Hid. split; [by apply (wf_listener _ _ Hwf)|].
  pose proof (wf_delete_listener _ _ _ _ Hwf Hid) as H1.
  apply (wf_drop_listener_index (as_raw_fd l)) in H1.
  - apply wf_unregister in H1. exact H1.
  - intros id' l' H2 E. simpl in H2. apply lookup_delete_Some in H2 as [Hne H2]. apply Hne. symmetry.
    by eapply (live_listeners_fd_inj rt []).
Qed.

Lemma wf_unregister_transport id t rt :
  wf_runtime rt → transports rt !! id = Some t →
  transport_map rt !! as_raw_fd t = Some id ∧
  wf_runtime (set_poller (poll_unregister (as_raw_fd t) (poller rt))
    (set_transport_map (delete (as_raw_fd t) (transport_map rt))
      (set_transports (delete id (transports rt)) rt))).
Proof.
  intros Hwf Hid. split; [by apply (wf_transport _ _ Hwf)|].
  pose proof (wf_delete_transport _ _ _ _ Hwf Hid) as H1.
  apply (wf_drop_transport_index (as_raw_fd t)) in H1.
  - apply wf_unregister in H1. exact H1.
  - intros id' t' H2 E. simpl in H2. apply lookup_delete_Some in H2 as [Hne H2]. apply Hne. symmetry.
    by eapply (live_transports_fd_inj rt []).
Qed.

(** What the two halves of the refinement amount to for one action. *)
Definition refines_action (action : Action Listener ListenerId Transport TransportId)
    (time : Z) (rt : Runtime (H := H) (P := P)) : Prop :=
  map_state abs (handle_action action time rt) = spec_action action time (abs rt) ∧
  ∀ r rt', handle_action action time rt = Ret (r, rt') →
    wf_runtime rt' ∧ pending (poller rt') = pending (poller rt) ∧ shared rt' = shared rt.

Lemma refines_unregister_listener id time rt :
  wf_runtime rt → refines_action (UnregisterListener id) time rt.
Proof.
  intros Hwf. unfold refines_action, handle_action, spec_action, on_service, on_poller, t_call.
  unfold_prog.
  destruct (listeners rt !! id) as [l|] eqn:Hid; simpl; [|split; [done|intros; by simplify_eq]].
  destruct (wf_unregister_listener _ _ _ Hwf Hid) as [Hmap Hwf'].
  rewrite Hmap. simpl. destruct (handover_listener l (service rt)) as [h| |]; simpl; [|done..].
  split; [done|intros; simplify_eq; simpl]. split_and!; [by apply wf_set_service| |done].
  apply poll_unregister_law.
Qed.

Lemma refines_unregister_transport id time rt :
  wf_runtime rt → refines_action (UnregisterTransport id) time rt.
Proof.
  intros Hwf. unfold refines_action, handle_action, spec_action, on_service, on_poller, t_call.
  unfold_prog.
  destruct (transports rt !! id) as [t|] eqn:Hid; simpl; [|split; [done|intros; by simplify_eq]].
  destruct (wf_unregister_transport _ _ _ Hwf Hid) as [Hmap Hwf'].
  rewrite Hmap. simpl. destruct (handover_transport t (service rt)) as [h| |]; simpl; [|done..].
  split; [done|intros; simplify_eq; simpl]. split_and!; [by apply wf_set_service| |done].
  apply poll_unregister_law.
Qed.

Lemma refines_send id data time rt :
  wf_runtime rt → refines_action (Send id data) time rt.
Proof.
  intros Hwf. unfold refines_action, handle_action, spec_action, write_transport. unfold_prog.
  destruct (transports rt !! id) as [t|] eqn:Hid; simpl; [|split; [done|intros; by simplify_eq]].
  destruct (write_atomic data t) as [[res t']| |] eqn:Ew; simpl; [|done..].
  split; [done|intros; simplify_eq; simpl]. split_and!; [|done..].
  apply write_atomic_stable in Ew as [??]. by eapply wf_update_transport.
Qed.

Lemma refines_set_timer d time rt :
  wf_runtime rt → refines_action (SetTimer d) time rt.
Proof.
  intros Hwf. unfold refines_action, handle_action, spec_action. unfold_prog.
  destruct (dur_add time d) as [at_| |]; simpl; [|done..].
  destruct (Timeouts.register (timers rt) tt at_) as [[b tm]| |]; simpl; [|done..].
  split; [done|intros; simplify_eq; simpl]. split_and!; [by apply wf_set_timers|done..].
Qed.

Lemma refines_handle_action action time rt :
  wf_runtime rt → fresh_action action rt → refines_action action time rt.
Proof.
  intros Hwf Hfresh. destruct action as [l|t|id|id|id data|d].
  - split; [done|]. intros r rt' E. unfold handle_action, on_poller in E. unfold_prog. simplify_eq.
    split_and!; [by apply wf_register_listener|by apply poll_register_law|done].
  - split; [done|]. intros r rt' E. unfold handle_action, on_poller in E. unfold_prog. simplify_eq.
    split_and!; [by apply wf_register_transport|by apply poll_register_law|done].
  - by apply refines_unregister_listener.
  - by apply refines_unregister_transport.
  - by apply refines_send.
  - by apply refines_set_timer.
Qed.
End actions.

(** A fresh reactor is well-formed. *)
Lemma reactor_with_wf {H P : Type} `{HH : Handler H} `{PL : PollLaws P} `{CH : Channel}
    (h : H) (p : P) fd w :
  watched p = ∅ → wf_runtime (reactor_with h p fd w).
Proof.
  intros Hp. destruct (poll_register_law fd IoType.read_only p) as [Hw _]. rewrite Hp in Hw.
  split; simpl; rewrite ?Hw.
  - intros id l E. by rewrite lookup_empty in E.
  - intros id t E. by rewrite lookup_empty in E.
  - split; [set_solver|apply not_elem_of_nil].
  - intros fd'. left. set_solver.
Qed.

(** ** Properties *)


(** ** Witnesses *)

Import Toy.

Lemma running_wf script : wf_runtime (Toy.running script).
Proof.
  set (rt := Toy.start [RegisterListener server; RegisterTransport client] script).
  set (rt0 := set_service {| Toy.log := []; Toy.actions := [RegisterTransport Toy.client] |} rt).
  destruct (refines_handle_action (HH := Toy.handler) (RegisterListener Toy.server) 0 rt0) as [_ Hl].
  { apply wf_set_service, reactor_with_wf. done. }
  { split; [done|]. apply (bool_decide_unpack _). by vm_compute. }
  destruct (Hl _ _ eq_refl) as [Hwf1 _]. clear Hl.
  match type of Hwf1 with wf_runtime ?r => set (rt1 := r) in Hwf1 end.
  destruct (refines_handle_action (HH := Toy.handler) (RegisterTransport Toy.client) 0
    (set_service {| Toy.log := []; Toy.actions := [] |} rt1)) as [_ Ht].
  { by apply wf_set_service. }
  { split; [done|split; [|done]]. apply (bool_decide_unpack _). by vm_compute. }
  destruct (Ht _ _ eq_refl) as [Hwf2 _].
  apply (wf_set_service {| Toy.log := []; Toy.actions := [] |}) in Hwf2.
  match type of Hwf2 with wf_but _ ?r => replace (running script) with r; [done|] end.
  by vm_compute.
Qed.

(** A third resource is registered next to the listener and the transport. *)
Definition peer : Res := {| rid := 5; rfd := 7; ready := false; written := [] |}.

Lemma peer_fresh : fresh_action (HH := handler) (RegisterTransport peer) (running []).
Proof. split; [done|split; [|done]]. apply (bool_decide_unpack _). by vm_compute. Qed.


(** The bytes of a send reach the client's buffer. *)
Example send_to_client :
  (transports (final (running []) (handle_action (HH := handler)
    (Send 2 [Byte.x01; Byte.x02]) 7 (running []))) !! 2) =
    Some (accept [Byte.x01; Byte.x02] client).
Proof. by vm_compute. Qed.
