(* ===== verification/ReactorEvents.v ===== *)
(** * One round of the reactor: events, commands, actions

    Theorems on io-reactor/src/reactor.rs, [Runtime::run] and the methods it
    calls, for services whose own calls return. *)

From S2P Require Import Prelude StdLib Timeouts Resource Popol Channel Waker Reactor ReactorToy ReactorSpec.

#[local] Open Scope Z_scope.

(** Services and resources whose methods neither panic nor hang. *)
Class TotalHandler (H : Type) `{Handler H} : Prop := {
  tick_total now (h : H) : ∃ h', tick now h = Ret h';
  handle_listener_event_total id ev now (h : H) :
    ∃ h', handle_listener_event id ev now h = Ret h';
  handle_transport_event_total id ev now (h : H) :
    ∃ h', handle_transport_event id ev now h = Ret h';
  handle_command_total cmd (h : H) : ∃ h', handle_command cmd h = Ret h';
  handle_error_total err (h : H) : ∃ h', handle_error err h = Ret h';
  listener_io_total io (l : Listener) : ∃ ev l', handle_io io l = Ret (ev, l');
  transport_io_total io (t : Transport) : ∃ ev t', handle_io io t = Ret (ev, t');
}.

(** The descriptors an event takes out of the reactor: a hang-up does. *)
Definition hung (e : event) : list Z :=
  match e.2 with
  | Err (Connectivity _) => [e.1]
  | _ => []
  end.

Section events.
Context {H P : Type} `{HH : Handler H} `{PL : PollLaws P} `{CH : Channel} `{SO : SortUnstable}.
Context {TH : TotalHandler H}.
Context {SL : StableResource Listener ListenerId ListenerEvent}.
Context {ST : StableResource Transport TransportId TransportEvent}.
Implicit Types (rt : Runtime (H := H) (P := P)).

(** The channels, and the errors of the waker's pipe. *)
Definition same_channels rt rt' : Prop :=
  read_errors (waker (shared rt')) = read_errors (waker (shared rt)) ∧
  cmd_chan (shared rt') = cmd_chan (shared rt) ∧ ctl_chan (shared rt') = ctl_chan (shared rt).

#[global] Instance same_channels_preorder : PreOrder same_channels.
Proof.
  split; [done|]. intros rt1 rt2 rt3 (?&?&?) (?&?&?). split_and!; congruence.
Qed.

(** The parts of the runtime that resources and services cannot reach. *)
Definition same_frame rt rt' : Prop :=
  poller rt' = poller rt ∧ waker_fd rt' = waker_fd rt ∧ same_channels rt rt'.

#[global] Instance same_frame_preorder : PreOrder same_frame.
Proof.
  split; [done|]. intros rt1 rt2 rt3 (?&?&?) (?&?&?). split_and!; [congruence..|by etransitivity].
Qed.

Lemma wp_on_service {E} (f : H → outcome H) (Q : result E unit → Runtime (P := P) → Prop) rt :
  (∃ h, f (service rt) = Ret h) →
  (∀ h, Q (Ok tt) (set_service h rt)) → wp (on_service f) Q rt.
Proof. intros [h Hf] HQ. unfold wp, on_service. rewrite Hf. apply HQ. Qed.

(** An event that the service handles leaves the runtime well-formed. *)
Lemma wp_option_event {E Ev} (ev : option Ev) (f : Ev → H → outcome H) rt gone
    (Q : result E unit → Runtime (P := P) → Prop) :
  (∀ e h, ∃ h', f e h = Ret h') → wf_but gone rt →
  (∀ rt', wf_but gone rt' → same_frame rt rt' → listeners rt' = listeners rt →
     transports rt' = transports rt → Q (Ok tt) rt') →
  wp (match ev with Some e => on_service (f e) | None => mret tt end : prog _ E unit) Q rt.
Proof.
  intros Hf Hwf HQ. destruct ev as [e|]; [|by apply HQ].
  apply wp_on_service; [apply Hf|]. intros h. apply HQ; [by apply wf_set_service|done..].
Qed.

Lemma transport_io_wf id t time ios rt gone :
  wf_but gone rt → transports rt !! id = Some t →
  wp (transport_io id t time ios) (λ r rt', r = Ok tt ∧ wf_but gone rt' ∧ same_frame rt rt') rt.
Proof.
  revert t rt. induction ios as [|io ios IH]; intros t rt Hwf Hid; [done|].
  simpl. destruct (transport_io_total io t) as (ev & t' & Hio).
  pose proof (handle_io_stable _ _ _ _ Hio) as [Eid Efd]. rewrite Hio.
  wp_steps.
  apply wp_option_event with (gone := gone).
  - intros. apply handle_transport_event_total.
  - by eapply wf_update_transport.
  - intros rt' Hwf' Hf Hl Ht. eapply wp_mono; [apply IH; [done|]|].
    + rewrite Ht. simpl. by rewrite lookup_insert_eq.
    + intros r rt'' (-> & ? & ?). split_and!; [done..|]. by etransitivity; [|done].
Qed.

Lemma listener_io_wf id l time ios rt gone :
  wf_but gone rt → listeners rt !! id = Some l →
  wp (listener_io id l time ios) (λ r rt', r = Ok tt ∧ wf_but gone rt' ∧ same_frame rt rt') rt.
Proof.
  revert l rt. induction ios as [|io ios IH]; intros l rt Hwf Hid; [done|].
  simpl. destruct (listener_io_total io l) as (ev & l' & Hio).
  pose proof (handle_io_stable _ _ _ _ Hio) as [Eid Efd]. rewrite Hio.
  wp_steps.
  apply wp_option_event with (gone := gone).
  - intros. apply handle_listener_event_total.
  - by eapply wf_update_listener.
  - intros rt' Hwf' Hf Hl Ht. eapply wp_mono; [apply IH; [done|]|].
    + rewrite Hl. simpl. by rewrite lookup_insert_eq.
    + intros r rt'' (-> & ? & ?). split_and!; [done..|]. by etransitivity; [|done].
Qed.

(** What a handled event does: [true] when it is the waker's. *)
Definition event_post (e : event) gone rt
    (r : result Empty_err (bool * list Z)) (rt' : Runtime (H := H) (P := P)) : Prop :=
  r = Ok (bool_decide (e.1 = waker_fd rt), hung e) ∧
  wf_but (hung e ++ gone) rt' ∧ same_frame rt rt'.

Lemma handle_waker_event time fd res rt gone :
  wf_but gone rt → read_errors (waker (shared rt)) = [] →
  fd = waker_fd rt → is_ok res = true →
  wp (handle_event time fd res) (event_post (fd, res) gone rt) rt.
Proof.
  intros Hwf Hre -> Hok. unfold handle_event. wp_steps.
  rewrite decide_True by done. destruct res as [io|e]; [|done].
  wp_steps. unfold reset_waker, wp. rewrite reset_fd_reader by done. simpl.
  unfold event_post. simpl. rewrite bool_decide_true by done.
  split_and!; [done|by apply wf_set_shared|done..].
Qed.

Lemma handle_listener_io time fd res id l rt gone :
  wf_but gone rt → fd ≠ waker_fd rt → listeners rt !! id = Some l → as_raw_fd l = fd →
  wp (handle_event time fd res) (event_post (fd, res) gone rt) rt.
Proof.
  intros Hwf Hne Hid <-. destruct (wf_listener _ _ Hwf _ _ Hid) as (_ & Hmap & _).
  unfold handle_event, event_post. wp_steps. rewrite decide_False by done.
  rewrite Hmap, bool_decide_false by done. destruct res as [io|[flags|flags]]; simpl.
  - rewrite Hid. simpl. wp_steps.
    eapply wp_mono; [by eapply listener_io_wf|]. by intros r rt' (-> & ? & ?).
  - rewrite Hid. simpl. wp_steps.
    apply wp_on_service; [apply handle_error_total|]. intros h.
    split; [done|split; [|done]]. apply wf_set_service. by eapply wf_delete_listener.
  - wp_steps. apply wp_on_service; [apply handle_error_total|]. intros h.
    split; [done|split; [|done]]. by apply wf_set_service.
Qed.

Lemma handle_transport_io time fd res id t rt gone :
  wf_but gone rt → fd ≠ waker_fd rt → transports rt !! id = Some t → as_raw_fd t = fd →
  wp (handle_event time fd res) (event_post (fd, res) gone rt) rt.
Proof.
  intros Hwf Hne Hid <-. destruct (wf_transport _ _ Hwf _ _ Hid) as (_ & Hmap & Hlm & _).
  unfold handle_event, event_post. wp_steps. rewrite decide_False by done.
  rewrite Hlm, Hmap, bool_decide_false by done. destruct res as [io|[flags|flags]]; simpl.
  - rewrite Hid. simpl. wp_steps.
    eapply wp_mono; [by eapply transport_io_wf|]. by intros r rt' (-> & ? & ?).
  - rewrite Hid. simpl. wp_steps.
    apply wp_on_service; [apply handle_error_total|]. intros h.
    split; [done|split; [|done]]. apply wf_set_service. by eapply wf_delete_transport.
  - wp_steps. apply wp_on_service; [apply handle_error_total|]. intros h.
    split; [done|split; [|done]]. by apply wf_set_service.
Qed.

Lemma handle_event_ok time fd res rt gone :
  wf_but gone rt → read_errors (waker (shared rt)) = [] →
  fd ∈ watched (poller rt) → fd ∉ gone → (fd = waker_fd rt → is_ok res = true) →
  wp (handle_event time fd res) (event_post (fd, res) gone rt) rt.
Proof.
  intros Hwf Hre Hin Hg Hok.
  destruct (decide (fd = waker_fd rt)) as [E|Hne]; [by apply handle_waker_event; auto|].
  destruct (wf_watched _ _ Hwf _ Hin) as [?|[[(id&l&?&?)|(id&t&?&?)]|?]]; [done| | |done].
  - by eapply handle_listener_io.
  - by eapply handle_transport_io.
Qed.

(** Polls that report each watched descriptor at most once, and never an error
    of the waker. *)
Definition poll_ok (es : list event) rt : Prop :=
  NoDup es.*1 ∧ Forall (λ e, e.1 ∈ watched (poller rt)) es ∧
  Forall (λ e, e.1 = waker_fd rt → is_ok e.2 = true) es.

Lemma hung_incl es : list_bind _ _ hung es ⊆ es.*1.
Proof.
  induction es as [|[fd res] es IH]; simpl; [done|].
  intros x [Hx|Hx]%elem_of_app; [|by apply elem_of_cons; right; apply IH].
  unfold hung in Hx. simpl in Hx. destruct res as [?|[?|?]]; simpl in Hx.
  - by apply elem_of_nil in Hx.
  - apply list_elem_of_singleton in Hx as ->. by apply elem_of_cons; left.
  - by apply elem_of_nil in Hx.
Qed.

Lemma wp_events_loop_nil fuel time awoken queue p Q rt :
  poll_next (poller rt) = (None, p) → Q (Ok (awoken, queue)) (set_poller p rt) →
  wp (events_loop (S fuel) time awoken queue) Q rt.
Proof. intros Hn HQ. unfold wp. simpl. by rewrite Hn. Qed.

Lemma wp_events_loop_cons fuel time awoken queue fd res p Q rt :
  poll_next (poller rt) = (Some (fd, res), p) →
  wp (handle_event time fd res ≫= λ '(woke, unregister),
      events_loop fuel time (awoken || woke) (queue ++ unregister)) Q (set_poller p rt) →
  wp (events_loop (S fuel) time awoken queue) Q rt.
Proof. intros Hn. unfold wp at 2. simpl. by rewrite Hn. Qed.

(** The loop over the events, from any point of it. *)
Lemma events_loop_ok es fuel time awoken queue rt gone :
  wf_but gone rt → read_errors (waker (shared rt)) = [] →
  pending (poller rt) = es → poll_ok es rt → (∀ fd, fd ∈ es.*1 → fd ∉ gone) →
  (length es < fuel)%nat →
  wp (events_loop fuel time awoken queue) (λ r rt',
    r = Ok (awoken || bool_decide (waker_fd rt ∈ es.*1), queue ++ list_bind _ _ hung es) ∧
    wf_but (list_bind _ _ hung es ++ gone) rt' ∧ pending (poller rt') = [] ∧
    watched (poller rt') = watched (poller rt) ∧ waker_fd rt' = waker_fd rt ∧
    same_channels rt rt') rt.
Proof.
  revert fuel awoken queue rt gone.
  induction es as [|[fd res] es IH]; intros fuel awoken queue rt gone Hwf Hre Hp Hok Hg Hfuel;
    (destruct fuel as [|fuel]; [simpl in Hfuel; lia|]);
    pose proof (poll_next_law (poller rt)) as Hn; pose proof (poll_next_watched (poller rt)) as Hw;
    rewrite Hp in Hn; destruct Hn as [Hn Hp'];
    destruct (poll_next (poller rt)) as [o p] eqn:En; simpl in Hn, Hp', Hw; subst o.
  - eapply wp_events_loop_nil; [done|]. simpl. rewrite orb_false_r, app_nil_r. split_and!; [done|by apply wf_set_poller|done..].
  - destruct Hok as (Hnd & Hin & Hwk). simpl in Hnd. apply list.NoDup_cons in Hnd as [Hfd Hnd].
    apply Forall_cons_iff in Hin as [Hin1 Hin]. apply Forall_cons_iff in Hwk as [Hwk1 Hwk].
    eapply wp_events_loop_cons; [done|].
    apply wp_bind. eapply wp_mono; [apply (handle_event_ok _ _ _ _ gone)|].
    + by apply wf_set_poller.
    + done.
    + simpl. by rewrite Hw.
    + apply Hg. simpl. by left.
    + done.
    + intros r rt' (-> & Hwf' & (Hpo & Hwf2 & Hre')). simpl in *.
      eapply wp_mono; [apply IH with (gone := hung (fd, res) ++ gone)|].
      * done.
      * by rewrite (proj1 Hre').
      * by rewrite Hpo.
      * unfold poll_ok. rewrite Hpo, Hwf2, Hw. done.
      * intros fd' Hfd'. rewrite not_elem_of_app. split; [|by apply Hg; right].
        intros Hh. apply Hfd. replace fd with fd'; [done|].
        unfold hung in Hh. simpl in Hh. destruct res as [?|[?|?]];
          [by apply elem_of_nil in Hh|by apply list_elem_of_singleton in Hh|by apply elem_of_nil in Hh].
      * lia.
      * simpl. intros r' rt'' (-> & Hwf3 & Hp3 & Hw3 & Hf3 & Hc3). rewrite Hpo, Hw in Hw3.
        split; [|split; [eapply wf_gone_perm; [|done]|split_and!; [done..|congruence|by etransitivity]]].
        -- rewrite Hwf2, <-app_assoc, <-orb_assoc. do 3 f_equal.
           rewrite <-bool_decide_or. apply bool_decide_ext. rewrite elem_of_cons. intuition congruence.
        -- rewrite app_assoc. f_equiv. by rewrite (Permutation_app_comm (list_bind _ _ _ _)).
Qed.

Lemma unregister_all_ok queue rt gone :
  wf_but (queue ++ gone) rt →
  wp (for_each queue (λ fd, on_poller (poll_unregister fd) : prog _ Empty_err unit)) (λ r rt',
    r = Ok tt ∧ wf_but gone rt' ∧ pending (poller rt') = pending (poller rt) ∧
    watched (poller rt') = watched (poller rt) ∖ list_to_set queue ∧
    waker_fd rt' = waker_fd rt ∧ same_channels rt rt') rt.
Proof.
  revert rt. induction queue as [|fd queue IH]; intros rt Hwf; simpl.
  - apply wp_ret. split; [done|split; [done|split; [done|split; [set_solver|done]]]].
  - unfold on_poller at 1. wp_steps. apply (wf_unregister fd) in Hwf.
    eapply wp_mono; [by apply IH|]. simpl. intros r rt' (-> & ? & Hp & Hw & Hf & Hc).
    destruct (poll_unregister_law fd (poller rt)) as [Hu1 Hu2]. rewrite Hu1 in Hw. rewrite Hu2 in Hp.
    split; [done|split; [done|split; [done|split; [|by split]]]]. rewrite Hw. set_solver.
Qed.

(** The whole batch. *)
Lemma handle_events_ok fuel time rt :
  wf_runtime rt → read_errors (waker (shared rt)) = [] →
  poll_ok (pending (poller rt)) rt → (length (pending (poller rt)) < fuel)%nat →
  wp (handle_events fuel time) (λ r rt',
    r = Ok (bool_decide (waker_fd rt ∈ (pending (poller rt)).*1)) ∧
    wf_runtime rt' ∧ pending (poller rt') = [] ∧ waker_fd rt' = waker_fd rt ∧
    watched (poller rt') = watched (poller rt) ∖
      list_to_set (list_bind _ _ hung (pending (poller rt))) ∧ same_channels rt rt') rt.
Proof.
  intros Hwf Hre Hok Hfuel. unfold handle_events. wp_steps.
  eapply wp_mono; [eapply (events_loop_ok _ _ _ _ _ _ []); try done; intros; apply not_elem_of_nil|].
  simpl. intros r rt' (-> & Hwf' & Hp & Hw & Hf & Hc). wp_steps.
  eapply wp_mono; [by apply unregister_all_ok|].
  intros r rt'' (-> & ? & Hp' & Hw' & Hf' & Hc'). wp_steps. rewrite Hp in Hp'. rewrite Hw in Hw'.
  split_and!; [done..|congruence|done|by etransitivity].
Qed.
End events.

(** ** Properties *)

Section properties.
Context {H P : Type} `{HH : Handler H} `{PL : PollLaws P} `{CH : Channel} `{SO : SortUnstable}.
Context {TH : TotalHandler H}.
Context {SL : StableResource Listener ListenerId ListenerEvent}.
Context {ST : StableResource Transport TransportId TransportEvent}.
Implicit Types (rt : Runtime (H := H) (P := P)).

(** C2. Dispatching a batch of events never panics on a well-formed runtime:
    every event is consumed, the result says whether the waker was among them,
    exactly the descriptors that hung up are no longer watched, and the
    runtime is well-formed again. *)
Theorem handle_events_spec fuel time rt :
  wf_runtime rt → read_errors (waker (shared rt)) = [] →
  poll_ok (pending (poller rt)) rt → (length (pending (poller rt)) < fuel)%nat →
  wp (handle_events fuel time) (λ r rt',
    r = Ok (bool_decide (waker_fd rt ∈ (pending (poller rt)).*1)) ∧
    wf_runtime rt' ∧ pending (poller rt') = [] ∧ waker_fd rt' = waker_fd rt ∧
    watched (poller rt') = watched (poller rt) ∖
      list_to_set (list_bind _ _ hung (pending (poller rt)))) rt.
Proof.
  intros Hwf Hre Hok Hfuel. eapply wp_mono; [by apply handle_events_ok|].
  intros r rt' (? & ? & ? & ? & ? & _). by split_and!.
Qed.
End properties.

(** ** Witnesses *)

Import Toy.

#[export] Instance toy_total : TotalHandler Service.
Proof. split; simpl; unfold note; eauto. Qed.

(** The client has hung up, the listener is readable and the waker fired. *)
Definition three_events : Runtime (H := Service) (P := Poller) :=
  set_poller {| poll := poll (poller (running []));
                events := [(4, Err (Connectivity 17)); (3, Ok IoType.read_only);
                           (10, Ok IoType.read_only)] |} (running []).

Lemma three_events_wf : wf_runtime three_events.
Proof. apply (wf_set_poller _ _ []); [done|]. apply running_wf. Qed.

Lemma three_events_ok : poll_ok (pending (poller three_events)) three_events.
Proof.
  split_and!; [|apply (bool_decide_unpack _); by vm_compute|by repeat constructor].
  apply (bool_decide_unpack _). by vm_compute.
Qed.

Lemma handle_events_spec_witness :
  wp (handle_events (HH := handler) 4 9) (λ r rt',
    r = Ok (bool_decide (waker_fd three_events ∈ (pending (poller three_events)).*1)) ∧
    wf_runtime rt' ∧ pending (poller rt') = [] ∧ waker_fd rt' = waker_fd three_events ∧
    watched (poller rt') = watched (poller three_events) ∖
      list_to_set (list_bind _ _ hung (pending (poller three_events)))) three_events.
Proof.
  apply (handle_events_spec (HH := handler) 4 9 three_events three_events_wf eq_refl three_events_ok).
  simpl. lia.
Defined.
