(* ===== verification/ReactorRun.v ===== *)
(** * Commands, control messages, timers and descriptor reuse

    Theorems on the rest of io-reactor/src/reactor.rs: the two receive loops
    of [Runtime::run], what becomes of timers, and what a stale index entry
    leads to. *)

From S2P Require Import Prelude StdLib Timeouts Resource Popol Channel Waker Reactor ReactorToy ReactorSpec ReactorEvents.

#[local] Open Scope Z_scope.

Section specs.
Context {H : Type} `{HH : Handler H}.

(** The service fed with commands in order. *)
Fixpoint feed (cmds : list Command) (h : H) : outcome H :=
  match cmds with
  | [] => Ret h
  | cmd :: cmds => handle_command cmd h ≫= feed cmds
  end.

(** What a queue of control messages means: registrations in order up to the
    first shutdown, after which nothing is read. *)
Fixpoint spec_controls (ctls : list (Ctl Listener Transport)) (t : Table (H := H)) :
    flow * Table (H := H) * list (Ctl Listener Transport) :=
  match ctls with
  | [] => (Continue, t, [])
  | CtlShutdown :: ctls => (Return, t, ctls)
  | CtlRegisterListener l :: ctls =>
      spec_controls ctls (t_set_listeners (<[res_id l := l]> (t_listeners t)) t)
  | CtlRegisterTransport r :: ctls =>
      spec_controls ctls (t_set_transports (<[res_id r := r]> (t_transports t)) t)
  end.
End specs.

Section loops.
Context {H P : Type} `{HH : Handler H} `{PP : Poll P} `{CL : ChannelLaws} `{SO : SortUnstable}.
Implicit Types (rt : Runtime (H := H) (P := P)).

Lemma try_recv_cons {A} (c : chan A) a q :
  queue c = a :: q →
  ∃ c', try_recv c = (Received a, c') ∧ queue c' = q ∧ has_sender c' = has_sender c.
Proof.
  intros Hq. pose proof (try_recv_law A c) as Hl. rewrite Hq in Hl.
  destruct (try_recv c) as [r c']. destruct Hl as (_ & ? & -> & ?). eauto.
Qed.

Lemma try_recv_nil {A} (c : chan A) :
  queue c = [] → has_sender c = true →
  ∃ c', try_recv c = (Empty, c') ∧ queue c' = [] ∧ has_sender c' = true.
Proof.
  intros Hq Hs. pose proof (try_recv_law A c) as Hl. rewrite Hq, Hs in Hl.
  destruct (try_recv c) as [r c']. destruct Hl as (_ & ? & -> & ?). eauto.
Qed.

(** The service is fed the queue. *)
Lemma commands_loop_feed fuel rt :
  has_sender (cmd_chan (shared rt)) = true →
  (length (queue (cmd_chan (shared rt))) < fuel)%nat →
  match feed (queue (cmd_chan (shared rt))) (service rt) with
  | Ret h => ∃ c, queue c = [] ∧ commands_loop fuel rt =
      Ret (Ok tt, set_service h (set_shared (set_cmd_chan c (shared rt)) rt))
  | Panic msg => commands_loop fuel rt = Panic msg
  | Hang => commands_loop fuel rt = Hang
  end.
Proof.
  remember (queue (cmd_chan (shared rt))) as q eqn:Eq. symmetry in Eq. revert fuel rt Eq.
  induction q as [|cmd q IH]; intros fuel rt Eq Hs Hf;
    (destruct fuel as [|fuel]; [simpl in Hf; lia|]); simpl.
  - destruct (try_recv_nil _ Eq Hs) as (c & -> & ? & _). exists c. by destruct rt.
  - destruct (try_recv_cons _ _ _ Eq) as (c & -> & Hq & Hs'). unfold on_service. unfold_prog.
    destruct (handle_command cmd (service rt)) as [h| |]; simpl; [|done..].
    specialize (IH fuel (set_service h (set_shared (set_cmd_chan c (shared rt)) rt)) Hq).
    simpl in IH. rewrite Hs' in IH. specialize (IH Hs ltac:(simpl in Hf; lia)).
    by destruct (feed q h).
Qed.

(** A woken reactor hands every queued command to the service, in the
    order in which they were sent, and leaves the queue empty; if the service
    panics or hangs on one, so does the reactor. *)
Theorem commands_loop_fifo fuel rt :
  has_sender (cmd_chan (shared rt)) = true →
  (length (queue (cmd_chan (shared rt))) < fuel)%nat →
  match feed (queue (cmd_chan (shared rt))) (service rt) with
  | Ret h => ∃ c, queue c = [] ∧ commands_loop fuel rt =
      Ret (Ok tt, set_service h (set_shared (set_cmd_chan c (shared rt)) rt))
  | Panic msg => commands_loop fuel rt = Panic msg
  | Hang => commands_loop fuel rt = Hang
  end.
Proof. apply commands_loop_feed. Qed.

Lemma register_action_eq action now rt :
  match action with
  | RegisterListener l =>
      ∃ rt', register_action action now rt = Ret (Ok tt, rt') ∧ shared rt' = shared rt ∧
        abs rt' = t_set_listeners (<[res_id l := l]> (listeners rt)) (abs rt)
  | RegisterTransport t =>
      ∃ rt', register_action action now rt = Ret (Ok tt, rt') ∧ shared rt' = shared rt ∧
        abs rt' = t_set_transports (<[res_id t := t]> (transports rt)) (abs rt)
  | _ => True
  end.
Proof.
  destruct action; [| |done..];
    unfold register_action, handle_action, on_poller; unfold_prog; eexists; split_and!; done.
Qed.

(** C17. Control messages are registered in the order in which they were sent
    up to the first shutdown, which ends the run and leaves the rest unread;
    the service, its timers and the command queue are not touched. *)
Theorem control_loop_refines fuel now rt :
  has_sender (ctl_chan (shared rt)) = true →
  (length (queue (ctl_chan (shared rt))) < fuel)%nat →
  ∃ rt', let '(fl, t, rest) := spec_controls (queue (ctl_chan (shared rt))) (abs rt) in
    control_loop fuel now rt = Ret (Ok fl, rt') ∧ abs rt' = t ∧
    queue (ctl_chan (shared rt')) = rest ∧ cmd_chan (shared rt') = cmd_chan (shared rt) ∧
    t_service t = service rt ∧ t_timers t = timers rt.
Proof.
  remember (queue (ctl_chan (shared rt))) as q eqn:Eq. symmetry in Eq. revert fuel rt Eq.
  induction q as [|ctl q IH]; intros fuel rt Eq Hs Hf;
    (destruct fuel as [|fuel]; [simpl in Hf; lia|]); simpl in Hf |- *.
  - destruct (try_recv_nil _ Eq Hs) as (c & -> & ? & _). by eexists.
  - destruct (try_recv_cons _ _ _ Eq) as (c & -> & Hq & Hs').
    set (rt1 := set_shared (set_ctl_chan c (shared rt)) rt).
    destruct ctl as [l|t|]; [| |by eexists].
    + destruct (register_action_eq (RegisterListener l) now rt1) as (rt2 & Hr & Hsh & Habs).
      unfold mbind, prog_bind. rewrite Hr.
      destruct (IH fuel rt2) as [rt' IH'];
        [by rewrite Hsh|by rewrite Hsh; simpl; rewrite Hs'|lia|].
      exists rt'. injection Habs as E1 E2 E3 E4. rewrite Hsh, E1, E4 in IH'.
      unfold abs in IH'. rewrite E1, E2, E3, E4 in IH'. exact IH'.
    + destruct (register_action_eq (RegisterTransport t) now rt1) as (rt2 & Hr & Hsh & Habs).
      unfold mbind, prog_bind. rewrite Hr.
      destruct (IH fuel rt2) as [rt' IH'];
        [by rewrite Hsh|by rewrite Hsh; simpl; rewrite Hs'|lia|].
      exists rt'. injection Habs as E1 E2 E3 E4. rewrite Hsh, E1, E4 in IH'.
      unfold abs in IH'. rewrite E1, E2, E3, E4 in IH'. exact IH'.
Qed.
End loops.

(** ** Timers *)

Section timers.
Context {H P : Type} `{HH : Handler H} `{PP : Poll P} `{CH : Channel} `{SL : SortUnstableLaws}.
Implicit Types (rt : Runtime (H := H) (P := P)).

(** No timer is lost. *)
Definition keeps_timers rt rt' : Prop :=
  wf (timers rt) → wf (timers rt') ∧ ∀ x, x ∈ timeouts (timers rt) → x ∈ timeouts (timers rt').

#[local] Instance keeps_timers_preorder : PreOrder keeps_timers.
Proof.
  split; [by intros rt ?|]. intros rt1 rt2 rt3 H12 H23 Hwf.
  destruct (H12 Hwf) as [Hwf2 Hin12]. destruct (H23 Hwf2) as [Hwf3 Hin23]. auto.
Qed.

Lemma keeps_same {E A} (m : prog (Runtime (H := H) (P := P)) E A) :
  (∀ rt r rt', m rt = Ret (r, rt') → timers rt' = timers rt) → respects keeps_timers m.
Proof. intros Hm rt r rt' Hr. unfold keeps_timers. by rewrite (Hm _ _ _ Hr). Qed.

Lemma keeps_on_service {E} (f : H → outcome H) :
  respects keeps_timers (on_service f : prog (Runtime (P := P)) E unit).
Proof.
  apply keeps_same. intros rt r rt'. unfold on_service. by destruct (f (service rt)); intros [= <- <-].
Qed.

Lemma keeps_modify {E} (f : Runtime (H := H) (P := P) → Runtime) :
  (∀ rt, timers (f rt) = timers rt) → respects keeps_timers (modify f : prog _ E unit).
Proof. intros Hf. apply keeps_same. by intros rt r rt' [= <- <-]. Qed.

Lemma keeps_write_transport id t data :
  respects keeps_timers (write_transport (P := P) id t data).
Proof.
  apply keeps_same. intros rt r rt'. unfold write_transport.
  by destruct (write_atomic data t) as [[? ?]| |]; intros [= <- <-].
Qed.

Lemma keeps_reset_waker : respects keeps_timers (reset_waker (H := H) (P := P)).
Proof.
  apply keeps_same. intros rt r rt'. unfold reset_waker.
  by destruct (reset_fd _ _) as [[[] ?]| |]; intros [= <- <-].
Qed.

Lemma keeps_set_timer {E} time d :
  respects keeps_timers
    ((of_outcome (dur_add time d) ≫= λ at_, gets timers ≫= λ tm,
      of_outcome (Timeouts.register tm tt at_) ≫= λ '(_, tm'), modify (set_timers tm'))
     : prog (Runtime (H := H) (P := P)) E unit).
Proof.
  intros rt r rt'. unfold_prog. destruct (dur_add time d) as [at_| |]; simpl; [|done..].
  destruct (Timeouts.register (timers rt) tt at_) as [[b tm]| |] eqn:Er; simpl; [|done..].
  intros [= <- <-] Hwf. simpl. by eapply register_keeps.
Qed.

Ltac keeps :=
  respects_steps; auto using keeps_on_service, keeps_write_transport, keeps_reset_waker,
    keeps_set_timer; try (apply keeps_modify; done).

Lemma keeps_handle_action action time :
  respects keeps_timers (handle_action (H := H) (P := P) action time).
Proof.
  destruct action; unfold handle_action, on_poller; cbn zeta; [..|apply keeps_set_timer]; keeps.
Qed.

Lemma keeps_handle_actions fuel time :
  respects keeps_timers (handle_actions (H := H) (P := P) fuel time).
Proof.
  induction fuel as [|fuel IH]; intros rt r rt'; simpl; [done|].
  destruct (next_action (service rt)) as [[[a|] h]| |]; [|by intros [= <- <-]|done..].
  set (m := attempt (handle_action a time) ≫= _).
  assert (respects keeps_timers m) as Hm.
  { unfold m. keeps; auto using keeps_handle_action. }
  intros Hr. by apply Hm in Hr.
Qed.

Lemma keeps_listener_io id l time ios :
  respects keeps_timers (listener_io (H := H) (P := P) id l time ios).
Proof. revert l. induction ios as [|io ios IH]; intros l; simpl; keeps. Qed.

Lemma keeps_transport_io id t time ios :
  respects keeps_timers (transport_io (H := H) (P := P) id t time ios).
Proof. revert t. induction ios as [|io ios IH]; intros t; simpl; keeps. Qed.

Lemma keeps_handle_event time fd res :
  respects keeps_timers (handle_event (H := H) (P := P) time fd res).
Proof.
  unfold handle_event. keeps; auto using keeps_listener_io, keeps_transport_io.
Qed.

Lemma keeps_events_loop fuel time awoken queue :
  respects keeps_timers (events_loop (H := H) (P := P) fuel time awoken queue).
Proof.
  revert awoken queue. induction fuel as [|fuel IH]; intros awoken queue rt r rt'; simpl; [done|].
  destruct (poll_next (poller rt)) as [[[fd res]|] p]; [|by intros [= <- <-]].
  intros Hr.
  assert (respects keeps_timers (handle_event (H := H) (P := P) time fd res ≫= λ '(woke, unregister),
    events_loop fuel time (awoken || woke) (queue ++ unregister))) as Hm.
  { apply respects_bind; [typeclasses eauto|apply keeps_handle_event|by intros [??]]. }
  by apply Hm in Hr.
Qed.

Lemma keeps_commands_loop fuel : respects keeps_timers (commands_loop (H := H) (P := P) fuel).
Proof.
  induction fuel as [|fuel IH]; intros rt r rt'; simpl; [done|].
  destruct (try_recv (cmd_chan (shared rt))) as [[cmd| |] c]; [|by intros [= <- <-]|done].
  intros Hr.
  assert (respects keeps_timers (on_service (P := P) (handle_command cmd) ≫= λ _,
    commands_loop (H := H) fuel)) as Hm by keeps.
  by apply Hm in Hr.
Qed.

Lemma keeps_register_action action now :
  respects keeps_timers (register_action (H := H) (P := P) action now).
Proof. unfold register_action. keeps; auto using keeps_handle_action. Qed.

Lemma keeps_control_loop fuel now :
  respects keeps_timers (control_loop (H := H) (P := P) fuel now).
Proof.
  induction fuel as [|fuel IH]; intros rt r rt'; simpl; [done|].
  destruct (try_recv (ctl_chan (shared rt))) as [[[l|t|]| |] c];
    [| |by intros [= <- <-]|by intros [= <- <-]|done]; intros Hr.
  - assert (respects keeps_timers (register_action (H := H) (P := P) (RegisterListener l) now
      ≫= λ _, control_loop fuel now)) as Hm.
    { keeps; auto using keeps_register_action. }
    by apply Hm in Hr.
  - assert (respects keeps_timers (register_action (H := H) (P := P) (RegisterTransport t) now
      ≫= λ _, control_loop fuel now)) as Hm.
    { keeps; auto using keeps_register_action. }
    by apply Hm in Hr.
Qed.

Lemma keeps_run_once fuel before_poll now :
  respects keeps_timers (run_once (H := H) (P := P) fuel before_poll now).
Proof.
  unfold run_once, set_interests, handle_events, on_poller.
  keeps; auto using keeps_events_loop, keeps_commands_loop, keeps_control_loop, keeps_handle_actions.
Qed.

Lemma keeps_run fuel clock : respects keeps_timers (run (H := H) (P := P) fuel clock).
Proof.
  induction clock as [|[before_poll now] clock IH]; simpl; [apply respects_ret; typeclasses eauto|].
  apply respects_bind; [typeclasses eauto|apply keeps_run_once|].
  intros []; [done|apply respects_ret; typeclasses eauto].
Qed.

(** C38. The run never looks at a timer again once it is set: however long
    the reactor runs, a timer that is due stays in the manager, and every
    later poll is given a timeout of zero. *)
Theorem due_timer_zero_timeout fuel clock rt r rt' t now :
  wf (timers rt) → (tt, t) ∈ timeouts (timers rt) → t ≤ now →
  run fuel clock rt = Ret (r, rt') →
  (tt, t) ∈ timeouts (timers rt') ∧ poll_timeout now (timers rt') = Ret 0.
Proof.
  intros Hwf Hin Hdue Hr. destruct (keeps_run _ _ _ _ _ Hr Hwf) as [Hwf' Hin'].
  split; [auto|]. unfold poll_timeout. rewrite next_eq. apply Hin' in Hin.
  destruct (list.last (timeouts (timers rt'))) as [[k t']|] eqn:El.
  - pose proof (wf_last_min _ _ _ Hwf' El) as Hmin.
    rewrite list.Forall_forall in Hmin. specialize (Hmin _ Hin). simpl in Hmin |- *.
    f_equal. lia.
  - apply last_None in El. rewrite El in Hin. by apply elem_of_nil in Hin.
Qed.
End timers.

(** ** Descriptor reuse *)

Section reuse.
Context {H P : Type} `{HH : Handler H} `{PL : PollLaws P} `{CH : Channel} `{SO : SortUnstable}.
Context {TH : TotalHandler H}.
Implicit Types (rt : Runtime (H := H) (P := P)).

(** A hang-up takes the listener out of its table, not out of the index. *)
Lemma listener_hangup fuel time id l flags rt :
  wf_runtime rt → listeners rt !! id = Some l →
  pending (poller rt) = [(as_raw_fd l, Err (Connectivity flags))] → (1 < fuel)%nat →
  wp (handle_events fuel time) (λ r rt', r = Ok false ∧ waker_fd rt' = waker_fd rt ∧
    listener_map rt' = listener_map rt ∧ listeners rt' = delete id (listeners rt)) rt.
Proof.
  intros Hwf Hid Hp Hf. destruct (wf_listener _ _ Hwf _ _ Hid) as (_ & Hmap & _ & Hne & _).
  destruct fuel as [|[|fuel]]; [lia|lia|].
  pose proof (poll_next_law (poller rt)) as Hn. rewrite Hp in Hn.
  destruct (poll_next (poller rt)) as [o p] eqn:En. simpl in Hn. destruct Hn as [-> Hp'].
  pose proof (poll_next_law p) as Hn'. rewrite Hp' in Hn'.
  destruct (poll_next p) as [o' p'] eqn:En'. simpl in Hn'. destruct Hn' as [-> _].
  unfold handle_events. apply wp_bind. eapply wp_events_loop_cons; [done|].
  remember (S fuel) as n eqn:Hn.
  unfold handle_event. wp_steps. rewrite decide_False, Hmap by done. simpl. rewrite Hid. simpl.
  wp_steps. apply wp_on_service; [apply handle_error_total|]. intros h.
  subst n. eapply wp_events_loop_nil; [done|]. simpl. unfold on_poller. by wp_steps.
Qed.

(** C39. The index entry of a listener that hung up stays behind: when a
    transport is then registered on the descriptor number that was freed, the
    first event of that transport makes the reactor panic. *)
Theorem stale_listener_index_panics fuel time id l flags (t : Transport) rt :
  wf_runtime rt → listeners rt !! id = Some l →
  pending (poller rt) = [(as_raw_fd l, Err (Connectivity flags))] → (1 < fuel)%nat →
  as_raw_fd t = as_raw_fd l →
  ∃ rt1 rt2, handle_events fuel time rt = Ret (Ok false, rt1) ∧
    handle_action (RegisterTransport t) time rt1 = Ret (Ok tt, rt2) ∧
    ∀ p io es fuel', pending p = (as_raw_fd t, Ok io) :: es → (0 < fuel')%nat →
      handle_events fuel' time (set_poller p rt2) = Panic "resource disappeared".
Proof.
  intros Hwf Hid Hp Hf Hfd. pose proof (listener_hangup _ time _ _ _ _ Hwf Hid Hp Hf) as Hwp.
  destruct (wf_listener _ _ Hwf _ _ Hid) as (_ & Hmap & _ & Hne & _).
  unfold wp in Hwp. destruct (handle_events fuel time rt) as [[r rt1]| |]; [|done..].
  destruct Hwp as (-> & Hwk & Hlm & Hls). eexists _, _. split_and!; [done|done|].
  intros p io es fuel' Hp' Hf'. destruct fuel' as [|fuel']; [lia|].
  pose proof (poll_next_law p) as Hn. rewrite Hp' in Hn.
  destruct (poll_next p) as [o p'] eqn:En. simpl in Hn. destruct Hn as [-> _].
  unfold handle_events, mbind, prog_bind at 1. simpl. rewrite En.
  unfold handle_event, gets, mbind, prog_bind. simpl.
  rewrite Hwk, decide_False by congruence. by rewrite Hlm, Hfd, Hmap, Hls, lookup_delete_eq.
Qed.
End reuse.

(** ** Witnesses *)

Import Toy.

(** Two commands, and a registration before a shutdown, wait in the queues. *)
Definition queued : Runtime (H := Service) (P := Poller) :=
  set_shared {|
    cmd_chan := {| ListChannel.items := [11; 12]; ListChannel.receiver := true;
                   ListChannel.sender := true |} : @chan ListChannel.lib _;
    ctl_chan := {| ListChannel.items := [CtlRegisterTransport peer; CtlShutdown;
                                         CtlRegisterListener peer];
                   ListChannel.receiver := true; ListChannel.sender := true |}
                : @chan ListChannel.lib _;
    waker := pair |} (running []).

Lemma commands_loop_fifo_witness :
  ∃ c, queue c = [] ∧ commands_loop (HH := handler) 3 queued =
    Ret (Ok tt, set_service {| log := [Cmd 11; Cmd 12]; actions := [] |}
                  (set_shared (set_cmd_chan c (shared queued)) queued)).
Proof.
  exact (commands_loop_fifo (HH := handler) 3 queued eq_refl (Nat.lt_succ_diag_r 2)).
Defined.

Lemma control_loop_refines_witness :
  ∃ rt', control_loop (HH := handler) 4 0 queued = Ret (Ok Return, rt') ∧
    abs rt' = t_set_transports (<[5 := peer]> (transports queued)) (abs queued) ∧
    queue (ctl_chan (shared rt')) = [CtlRegisterListener peer] ∧
    cmd_chan (shared rt') = cmd_chan (shared queued) ∧
    service queued = service queued ∧ timers queued = timers queued.
Proof.
  exact (control_loop_refines (HH := handler) 4 0 queued eq_refl (Nat.lt_succ_diag_r 3)).
Defined.

(** A timer for second 9 is pending when the reactor runs at second 20: it is
    still there after two more iterations. *)
Definition with_timer : Runtime (H := Service) (P := Poller) :=
  set_timers {| timeouts := [(tt, from_secs 9)]; threshold := from_secs 1 |}
    (running [[(3, 1)]; [(4, 1)]]).

Lemma with_timer_wf : wf (timers with_timer).
Proof. split; [by vm_compute|repeat constructor]. Qed.

Definition two_rounds : outcome (result Empty_err unit * Runtime (H := Service) (P := Poller)) :=
  run (HH := handler) 9 [(from_secs 20, from_secs 21); (from_secs 22, from_secs 23)] with_timer.

Lemma two_rounds_return : two_rounds = Ret (Ok tt, final with_timer two_rounds).
Proof. vm_compute. reflexivity. Qed.

Lemma due_timer_zero_timeout_witness :
  (tt, from_secs 9) ∈ timeouts (timers (final with_timer two_rounds)) ∧
  poll_timeout (from_secs 24) (timers (final with_timer two_rounds)) = Ret 0.
Proof.
  apply (due_timer_zero_timeout (SL := insertion_sort_laws) (HH := handler) 9
    [(from_secs 20, from_secs 21); (from_secs 22, from_secs 23)] with_timer (Ok tt));
    [exact with_timer_wf|by constructor|unfold from_secs; lia|exact two_rounds_return].
Defined.

(** The listener on descriptor 3 hangs up; then a transport gets descriptor 3. *)
Definition hangup : Runtime (H := Service) (P := Poller) :=
  set_poller {| poll := poll (poller (running []));
                events := [(3, Err (Connectivity 17))] |} (running []).
Definition reused : Res := {| rid := 6; rfd := 3; ready := true; written := [] |}.

Lemma stale_listener_index_panics_witness :
  ∃ rt1 rt2, handle_events (HH := handler) 2 0 hangup = Ret (Ok false, rt1) ∧
    handle_action (HH := handler) (RegisterTransport reused) 0 rt1 = Ret (Ok tt, rt2) ∧
    ∀ p io es fuel', pending p = (3, Ok io) :: es → (0 < fuel')%nat →
      handle_events fuel' 0 (set_poller p rt2) = Panic "resource disappeared".
Proof.
  apply (stale_listener_index_panics (HH := handler) 2 0 1 server 17 reused hangup);
    [apply (wf_set_poller _ _ []); [reflexivity|apply running_wf]|by vm_compute|reflexivity|lia|reflexivity].
Defined.
