(* ===== verification/ReactorOnce.v ===== *)
(** * An iteration of the reactor

    What an iteration of [Runtime::run] starts with, and the invariant of the
    whole iteration: poll, events, commands, control messages and actions. *)

From S2P Require Import Prelude StdLib Timeouts Resource Popol Channel Waker Reactor ReactorToy ReactorSpec ReactorEvents ReactorRun.

#[local] Open Scope Z_scope.

(** ** The poll *)

Section polls.
Context {H P : Type} `{HH : Handler H} `{PL : PollLaws P} `{CH : Channel} `{SO : SortUnstable}.
Implicit Types (rt : Runtime (H := H) (P := P)).

(** Telling the poller what to wait for changes nothing else. *)
Lemma interests_loop {R Id Ev} `{Resource R Id Ev} (rs : list R) rt :
  ∃ p, for_each rs (λ res, on_poller (λ p, (poll_set_interest (as_raw_fd res) (interests res) p).2)
      : prog (Runtime (H := H) (P := P)) Empty_err unit) rt = Ret (Ok tt, set_poller p rt) ∧
    watched p = watched (poller rt) ∧ pending p = pending (poller rt).
Proof.
  set (f := λ res : R, _ : prog (Runtime (H := H) (P := P)) Empty_err unit).
  revert rt. induction rs as [|r rs IH]; intros rt; [exists (poller rt); by destruct rt|].
  destruct (poll_set_interest_law (as_raw_fd r) (interests r) (poller rt)) as [Hw Hp].
  set (p1 := (poll_set_interest (as_raw_fd r) (interests r) (poller rt)).2) in *.
  destruct (IH (set_poller p1 rt)) as (p & E & Hw' & Hp'). exists p. simpl in *.
  change (for_each rs f (set_poller p1 rt) = Ret (Ok tt, set_poller p rt) ∧
    watched p = watched (poller rt) ∧ pending p = pending (poller rt)).
  rewrite E. split_and!; [done|congruence..].
Qed.

Lemma set_interests_eq rt :
  ∃ p, set_interests rt = Ret (Ok tt, set_poller p rt) ∧
    watched p = watched (poller rt) ∧ pending p = pending (poller rt).
Proof.
  unfold set_interests. unfold_prog.
  destruct (interests_loop (map_to_list (listeners rt)).*2 rt) as (p1 & -> & Hw1 & Hp1).
  destruct (interests_loop (map_to_list (transports rt)).*2 (set_poller p1 rt)) as (p2 & E & Hw2 & Hp2).
  exists p2. split; [exact E|]. simpl in *. split; congruence.
Qed.

(** What the poll of an iteration reports. *)
Definition polls (before_poll : Z) rt (es : list event) (p : P) : Prop :=
  ∃ timeout rt1, poll_timeout before_poll (timers rt) = Ret timeout ∧
    set_interests rt = Ret (Ok tt, rt1) ∧
    poll_poll (Some timeout) (poller rt1) = (Ok (length es), p) ∧ pending p = es.

Lemma polls_watched before_poll rt es p : polls before_poll rt es p → watched p = watched (poller rt).
Proof.
  intros (timeout & rt1 & _ & Hs & Hp & _). destruct (set_interests_eq rt) as (p1 & E & Hw & _).
  rewrite Hs in E. injection E as ->. pose proof (poll_poll_law (Some timeout) p1) as [Hw' _].
  simpl in Hp. rewrite Hp in Hw'. simpl in Hw'. congruence.
Qed.

(** An iteration whose poll reports events. *)
Lemma run_once_polls fuel before_poll now rt e es p :
  polls before_poll rt (e :: es) p →
  run_once fuel before_poll now rt =
    (on_service (tick now) ≫= λ _,
     handle_events fuel now ≫= λ awoken,
     (if awoken : bool
      then commands_loop fuel ≫= λ _, control_loop fuel now
      else mret Continue) ≫= λ fl,
     match fl with
     | Return => mret Return
     | Continue => handle_actions fuel now ≫= λ _, mret Continue
     end) (set_poller p rt).
Proof.
  intros (timeout & rt1 & Ht & Hs & Hp & _). destruct (set_interests_eq rt) as (p1 & E & _).
  rewrite Hs in E. injection E as ->. unfold run_once. unfold mbind at 1, prog_bind at 1, gets at 1.
  unfold mbind at 1, prog_bind at 1, of_outcome at 1. rewrite Ht. simpl.
  unfold mbind at 1, prog_bind at 1. rewrite Hs. unfold mbind at 1, prog_bind at 1, gets at 1.
  simpl in Hp. simpl. by rewrite Hp.
Qed.
End polls.

(** ** The invariant of an iteration *)

(** The service's calls that [TotalHandler] leaves, and writing. *)
Class TotalActions (H : Type) `{Handler H} : Prop := {
  next_action_total (h : H) : ∃ a h', next_action h = Ret (a, h');
  handover_listener_total l (h : H) : ∃ h', handover_listener l h = Ret h';
  handover_transport_total t (h : H) : ∃ h', handover_transport t h = Ret h';
  write_total data (t : Transport) : ∃ r t', write_atomic data t = Ret (r, t');
}.

Section iteration.
Context {H P : Type} `{HH : Handler H} `{PL : PollLaws P} `{CL : ChannelLaws} `{SO : SortUnstable}.
Context {TH : TotalHandler H} {TA : TotalActions H}.
Context {SL : StableResource Listener ListenerId ListenerEvent}.
Context {ST : StableResource Transport TransportId TransportEvent}.
Implicit Types (rt : Runtime (H := H) (P := P)).

(** Between two iterations: no event is left, the waker's pipe works, and some
    controller is alive. *)
Record healthy rt : Prop := {
  healthy_wf : wf_runtime rt;
  healthy_pending : pending (poller rt) = [];
  healthy_pipe : read_errors (waker (shared rt)) = [];
  healthy_cmd : has_sender (cmd_chan (shared rt)) = true;
  healthy_ctl : has_sender (ctl_chan (shared rt)) = true;
}.

(** An action that the environment allows: what it registers has a descriptor
    of its own, and its time can be represented. *)
Definition good_action action time rt : Prop :=
  fresh_action action rt ∧
  match action with
  | SetTimer d => ∃ x, (at_ ← dur_add time d; Timeouts.register (timers rt) tt at_) = Ret x
  | _ => True
  end.

(** One turn of the loop over actions. *)
Definition act (action : Action Listener ListenerId Transport TransportId) (time : Z) :
    prog (Runtime (H := H) (P := P)) Empty_err unit :=
  attempt (handle_action action time) ≫= λ res,
  match res with
  | Ok _ => mret tt
  | Err err => on_service (handle_error err)
  end.

Lemma act_healthy action time rt :
  healthy rt → good_action action time rt →
  ∃ rt', act action time rt = Ret (Ok tt, rt') ∧ healthy rt'.
Proof.
  intros [Hwf Hp Hr Hc Hk] [Hf Hg].
  destruct (refines_handle_action action time rt Hwf Hf) as [E Hpost].
  assert (∃ r rt1, handle_action action time rt = Ret (r, rt1)) as (r & rt1 & E1).
  { assert (∃ r t, spec_action action time (abs rt) = Ret (r, t)) as (r & t & Es).
    { unfold spec_action, t_call. destruct action as [l|t|id|id|id data|d]; simpl.
      - by do 2 eexists.
      - by do 2 eexists.
      - destruct (listeners rt !! id) as [l|]; [|by do 2 eexists].
        destruct (handover_listener_total l (service rt)) as [h ->]. by do 2 eexists.
      - destruct (transports rt !! id) as [t|]; [|by do 2 eexists].
        destruct (handover_transport_total t (service rt)) as [h ->]. by do 2 eexists.
      - destruct (transports rt !! id) as [t|]; [|by do 2 eexists].
        destruct (write_total data t) as (res & t' & ->). by do 2 eexists.
      - destruct Hg as [[b tm] ->]. by do 2 eexists. }
    rewrite Es in E. destruct (handle_action action time rt) as [[r1 rt1]| |]; [|done..]. by do 2 eexists. }
  destruct (Hpost _ _ E1) as (Hwf1 & Hp1 & Hs1). unfold act. unfold_prog. rewrite E1.
  destruct r as [[]|e]; simpl.
  - exists rt1. split; [done|]. split; [done|congruence..].
  - destruct (handle_error_total e (service rt1)) as [h Eh]. unfold on_service. rewrite Eh.
    eexists. split; [done|]. split; simpl; [by apply wf_set_service|congruence..].
Qed.

(** What the environment owes the loop over actions: every action is allowed
    when its turn comes, and the service stops before the fuel ends. *)
Fixpoint env_actions (fuel : nat) (time : Z) rt : Prop :=
  match fuel with
  | O => False
  | S fuel =>
      match next_action (service rt) with
      | Ret (Some action, h) =>
          good_action action time (set_service h rt) ∧
          match act action time (set_service h rt) with
          | Ret (_, rt') => env_actions fuel time rt'
          | _ => True
          end
      | _ => True
      end
  end.

Lemma healthy_set_service h rt : healthy rt → healthy (set_service h rt).
Proof. intros []. split; [by apply wf_set_service|done..]. Qed.

Lemma actions_healthy fuel time rt :
  healthy rt → env_actions fuel time rt →
  ∃ rt', handle_actions fuel time rt = Ret (Ok tt, rt') ∧ healthy rt'.
Proof.
  revert rt. induction fuel as [|fuel IH]; intros rt Hh He; simpl in He |- *; [done|].
  destruct (next_action_total (service rt)) as (o & h & E). rewrite E in He |- *.
  destruct o as [a|]; [|eexists; by split; [|apply healthy_set_service]].
  destruct He as [Hg He].
  destruct (act_healthy _ _ _ (healthy_set_service h rt Hh) Hg) as (rt1 & E1 & Hh1).
  rewrite E1 in He. destruct (IH _ Hh1 He) as (rt' & E2 & Hh').
  exists rt'. split; [|done]. unfold act, mbind, prog_bind in E1 |- *.
  destruct (attempt (handle_action a time) (set_service h rt)) as [[[r|e] rt2]| |]; [|done..].
  cbn beta iota. cbn beta iota in E1. by rewrite E1.
Qed.

(** Replacing a channel by one that has a sender. *)
Lemma healthy_set_cmd c rt :
  has_sender c = true → healthy rt → healthy (set_shared (set_cmd_chan c (shared rt)) rt).
Proof. intros ? []. split; [by apply wf_set_shared|done..]. Qed.

Lemma healthy_set_ctl c rt :
  has_sender c = true → healthy rt → healthy (set_shared (set_ctl_chan c (shared rt)) rt).
Proof. intros ? []. split; [by apply wf_set_shared|done..]. Qed.

Lemma try_recv_sender {A} (c : chan A) :
  has_sender c = true → ∃ r c', try_recv c = (r, c') ∧ r ≠ Disconnected ∧ has_sender c' = true.
Proof.
  intros Hs. destruct (queue c) as [|a q] eqn:Eq.
  - destruct (try_recv_nil c Eq Hs) as (c' & -> & _ & ?). by exists Empty, c'.
  - destruct (try_recv_cons c a q Eq) as (c' & -> & _ & ?). exists (Received a), c'. by rewrite <-Hs.
Qed.

Lemma commands_healthy fuel rt :
  healthy rt → (length (queue (cmd_chan (shared rt))) < fuel)%nat →
  ∃ rt', commands_loop fuel rt = Ret (Ok tt, rt') ∧ healthy rt'.
Proof.
  remember (queue (cmd_chan (shared rt))) as q eqn:Eq. symmetry in Eq. revert fuel rt Eq.
  induction q as [|cmd q IH]; intros fuel rt Eq Hh Hf;
    (destruct fuel as [|fuel]; [simpl in Hf; lia|]); simpl in Hf |- *.
  - destruct (try_recv_nil _ Eq (healthy_cmd _ Hh)) as (c & -> & _ & ?).
    eexists. split; [done|]. by apply healthy_set_cmd.
  - destruct (try_recv_cons _ _ _ Eq) as (c & -> & Hq & Hs).
    destruct (handle_command_total cmd (service rt)) as [h Eh].
    destruct (IH fuel (set_service h (set_shared (set_cmd_chan c (shared rt)) rt)) Hq) as (rt' & E & Hh').
    { apply healthy_set_service, healthy_set_cmd; [|done]. by rewrite Hs, (healthy_cmd _ Hh). }
    { lia. }
    exists rt'. split; [|done]. unfold on_service. unfold_prog. by rewrite Eh.
Qed.

(** What the environment owes the control messages: a resource that a
    controller registers has a descriptor of its own when its turn comes. *)
Fixpoint env_controls (fuel : nat) (now : Z) rt : Prop :=
  match fuel with
  | O => False
  | S fuel =>
      let '(r, c) := try_recv (ctl_chan (shared rt)) in
      let rt := set_shared (set_ctl_chan c (shared rt)) rt in
      let register action :=
        fresh_action action rt ∧
        match register_action action now rt with
        | Ret (_, rt') => env_controls fuel now rt'
        | _ => True
        end in
      match r with
      | Received (CtlRegisterListener l) => register (RegisterListener l)
      | Received (CtlRegisterTransport t) => register (RegisterTransport t)
      | _ => True
      end
  end.

Lemma register_healthy action now rt :
  healthy rt → fresh_action action rt →
  match action with RegisterListener _ | RegisterTransport _ => True | _ => False end →
  ∃ rt', register_action action now rt = Ret (Ok tt, rt') ∧ healthy rt'.
Proof.
  intros [Hwf Hp Hr Hc Hk] Hf Ha.
  destruct (refines_handle_action action now rt Hwf Hf) as [E Hpost].
  assert (∃ rt1, handle_action action now rt = Ret (Ok tt, rt1)) as [rt1 E1].
  { destruct action; [| |done..]; unfold handle_action, on_poller; unfold_prog; by eexists. }
  destruct (Hpost _ _ E1) as (Hwf1 & Hp1 & Hs1).
  exists rt1. unfold register_action. unfold_prog. rewrite E1. split; [done|].
  split; [done|congruence..].
Qed.

Lemma controls_healthy fuel now rt :
  healthy rt → env_controls fuel now rt →
  ∃ fl rt', control_loop fuel now rt = Ret (Ok fl, rt') ∧ healthy rt'.
Proof.
  revert rt. induction fuel as [|fuel IH]; intros rt Hh He; cbn [env_controls control_loop] in He |- *; [done|].
  destruct (try_recv_sender _ (healthy_ctl _ Hh)) as (r & c & E & Hr & Hs). rewrite E in He |- *.
  pose proof (healthy_set_ctl c rt Hs Hh) as Hh1.
  destruct r as [[l|t|]| |]; [| |by do 2 eexists|by do 2 eexists|done];
    destruct He as [Hf He];
    match type of He with context [register_action ?a now ?x] =>
      destruct (register_healthy a now x Hh1 Hf I) as (rt1 & E1 & Hh2) end;
    rewrite E1 in He; destruct (IH _ Hh2 He) as (fl & rt' & E2 & Hh3);
    exists fl, rt'; (split; [|done]); unfold mbind, prog_bind; by rewrite E1.
Qed.

(** What the environment owes an iteration. The poll reports a descriptor once
    and no error of the waker; the queues are drained, and the loops over
    control messages and actions behave. *)
Definition env_once (fuel : nat) (before_poll now : Z) rt : Prop :=
  ∀ e es p, polls before_poll rt (e :: es) p →
    NoDup (e :: es).*1 ∧ Forall (λ e, e.1 = waker_fd rt → is_ok e.2 = true) (e :: es) ∧
    (length (e :: es) < fuel)%nat ∧
    match (on_service (tick now) ≫= λ _, handle_events fuel now) (set_poller p rt) with
    | Ret (Ok true, rt1) =>
        (length (queue (cmd_chan (shared rt1))) < fuel)%nat ∧
        match commands_loop fuel rt1 with
        | Ret (_, rt2) =>
            env_controls fuel now rt2 ∧
            match control_loop fuel now rt2 with
            | Ret (Ok Continue, rt3) => env_actions fuel now rt3
            | _ => True
            end
        | _ => True
        end
    | Ret (_, rt1) => env_actions fuel now rt1
    | _ => True
    end.

Lemma poll_timeout_total before_poll (tm : TimeoutManager unit) :
  ∃ timeout, poll_timeout before_poll tm = Ret timeout.
Proof. unfold poll_timeout. rewrite next_eq. by eexists. Qed.

(** After the events: the channels, when the waker fired, and the actions. *)
Lemma drain_healthy fuel now rt woken :
  healthy rt →
  (if woken : bool then
     (length (queue (cmd_chan (shared rt))) < fuel)%nat ∧
     match commands_loop fuel rt with
     | Ret (_, rt2) =>
         env_controls fuel now rt2 ∧
         match control_loop fuel now rt2 with
         | Ret (Ok Continue, rt3) => env_actions fuel now rt3
         | _ => True
         end
     | _ => True
     end
   else env_actions fuel now rt) →
  ∃ fl rt', ((if woken then commands_loop fuel ≫= λ _, control_loop fuel now else mret Continue) ≫= λ fl,
     match fl with
     | Return => mret Return
     | Continue => handle_actions fuel now ≫= λ _, mret Continue
     end) rt = Ret (Ok fl, rt') ∧ healthy rt'.
Proof.
  intros Hh He. destruct woken.
  - destruct He as [Hf He]. destruct (commands_healthy fuel rt Hh Hf) as (rt2 & E2 & Hh2).
    rewrite E2 in He. destruct He as [He1 He2].
    destruct (controls_healthy fuel now rt2 Hh2 He1) as (fl & rt3 & E3 & Hh3). rewrite E3 in He2.
    unfold mbind, prog_bind. rewrite E2, E3. destruct fl; [|by do 2 eexists].
    destruct (actions_healthy fuel now rt3 Hh3 He2) as (rt' & -> & ?). by do 2 eexists.
  - unfold mbind, prog_bind. simpl.
    destruct (actions_healthy fuel now rt Hh He) as (rt' & -> & ?). by do 2 eexists.
Qed.

(** C3. An iteration of the reactor keeps its invariant, and returns: whatever
    the poll reports of the descriptors it watches, and whatever waits in the
    channels, as long as the resources that are registered have descriptors of
    their own and the service's calls return, nothing panics and no loop spins.
    Afterwards every live resource is found from its descriptor, the poller
    watches exactly the waker and the live resources, and no event is left. *)
Theorem run_once_healthy fuel before_poll now rt :
  healthy rt → env_once fuel before_poll now rt →
  ∃ fl rt', run_once fuel before_poll now rt = Ret (Ok fl, rt') ∧ healthy rt'.
Proof.
  intros Hh He. destruct (poll_timeout_total before_poll (timers rt)) as [timeout Ht].
  destruct (set_interests_eq rt) as (p0 & Es & Hw0 & Hp0).
  destruct (poll_poll_law (Some timeout) p0) as (Hw & es & Hp & Hin & Hn).
  destruct (poll_poll (Some timeout) p0) as [r p] eqn:Epoll. simpl in Hw, Hp, Hn.
  rewrite Hp0, (healthy_pending _ Hh) in Hp. simpl in Hp.
  assert (watched p = watched (poller rt)) as Hwp by congruence.
  assert (pending p = [] → healthy (set_poller p rt)) as Hq.
  { intros E. destruct Hh. split; [|done..]. by apply wf_set_poller. }
  destruct es as [|e es].
  - unfold run_once. unfold_prog. rewrite Ht, Es. unfold_prog. rewrite Epoll. unfold_prog.
    destruct r as [n|err]; simpl.
    + subst n. do 2 eexists. split; [done|]. by apply Hq.
    + destruct (handle_error_total (PollError err) (service rt)) as [h Eh]. unfold on_service. unfold_prog.
      rewrite Eh. do 2 eexists. split; [done|]. by apply healthy_set_service, Hq.
  - assert (polls before_poll rt (e :: es) p) as Hpolls.
    { exists timeout, (set_poller p0 rt). split_and!; [done..| |done].
      simpl poller. rewrite Epoll. destruct r as [n|err]; [by subst n|done]. }
    destruct (He e es p Hpolls) as (Hnd & Hwk & Hf & He').
    rewrite (run_once_polls _ _ _ _ _ _ _ Hpolls).
    destruct (tick_total now (service rt)) as [h Eh].
    set (rt0 := set_service h (set_poller p rt)).
    assert (wp (handle_events fuel now) (λ r rt', ∃ woken, r = Ok woken ∧ healthy rt') rt0) as Hev.
    { destruct Hh as [Hwf _ Hpipe Hc Hk].
      eapply wp_mono; [apply handle_events_ok|].
      - by apply wf_set_service, wf_set_poller.
      - done.
      - simpl. rewrite Hp. split_and!; [done| |done]. simpl. by rewrite Hwp, <-Hw0.
      - simpl. by rewrite Hp.
      - intros r1 rt1 (-> & Hwf1 & Hp1 & _ & _ & (Hr1 & Hc1 & Hk1)). eexists. split; [done|].
        split; [done|done|..]; simpl in *; congruence. }
    unfold wp in Hev. unfold mbind, prog_bind in He' |- *. unfold on_service in He' |- *.
    simpl service in He' |- *. rewrite Eh in He' |- *. fold rt0 in He' |- *.
    destruct (handle_events fuel now rt0) as [[r1 rt1]| |]; [|done..].
    destruct Hev as (woken & -> & Hh1).
    destruct (drain_healthy fuel now rt1 woken Hh1) as (fl & rt' & E & Hh').
    { by destruct woken. }
    exists fl, rt'. split; [exact E|done].
Qed.
End iteration.

(** ** A run *)

Lemma polls_inj {H P : Type} `{HH : Handler H} `{PL : PollLaws P} `{CH : Channel} `{SO : SortUnstable}
    before_poll (rt : Runtime (H := H) (P := P)) es es' p p' :
  polls before_poll rt es p → polls before_poll rt es' p' → es = es' ∧ p = p'.
Proof.
  intros (t & rt1 & Ht & Hs & Hp & <-) (t' & rt1' & Ht' & Hs' & Hp' & <-).
  rewrite Ht in Ht'. injection Ht' as <-. rewrite Hs in Hs'. injection Hs' as <-.
  rewrite Hp in Hp'. by injection Hp' as _ <-.
Qed.

Import Toy.

#[export] Instance toy_actions_total : TotalActions Service.
Proof.
  split; simpl; unfold note; eauto.
  - intros h. destruct (actions h); eauto.
  - intros data t. unfold write_atomic. simpl. unfold_prog. destruct (ready t); simpl; eauto.
Qed.

Module ToyOnce.
(** The listener and the waker are ready; a command and a transport to register
    wait in the channels, and the service has data to send. *)
Definition extra : Res := {| rid := 5; rfd := 6; ready := true; written := [] |}.

Definition rt0 : Runtime (H := Service) (P := Poller) :=
  let rt := running [[(3, 1); (10, 1)]] in
  let sh := shared rt in
  set_service {| log := []; actions := [Send 2 [Byte.x01]] |}
    (set_shared (set_ctl_chan (chan_send (CtlRegisterTransport extra) (ctl_chan sh)).2
                  (set_cmd_chan (chan_send 7 (cmd_chan sh)).2 sh)) rt).

Definition events : list event := [(3, Ok IoType.read_only); (10, Ok IoType.read_only)].

(** The runtime after the poll, the events, the commands and the control
    messages. *)
Definition polled : Poller :=
  match set_interests rt0 with
  | Ret (_, rt) => (poll_poll (Some WAIT_TIMEOUT) (poller rt)).2
  | _ => poller rt0
  end.
Definition rt1 := final rt0 ((on_service (tick 9) ≫= λ _, handle_events 4 9) (set_poller polled rt0)).
Definition rt2 := final rt0 (commands_loop 4 rt1).
Definition rt3 := final rt0 (control_loop 4 9 rt2).

Lemma rt0_healthy : healthy rt0.
Proof. split; [|by vm_compute..]. apply wf_set_service, wf_set_shared, running_wf. Qed.

Lemma events_polled : polls 0 rt0 events polled.
Proof. exists WAIT_TIMEOUT, (final rt0 (set_interests rt0)). by split_and!. Qed.

Lemma events_env : env_once 4 0 9 rt0.
Proof.
  intros e es p Hp. destruct (polls_inj _ _ _ _ _ _ Hp events_polled) as [E ->]. rewrite E.
  split_and!; [apply (bool_decide_unpack _); by vm_compute|by repeat constructor|simpl; lia|].
  assert ((on_service (tick 9) ≫= λ _, handle_events 4 9) (set_poller polled rt0) = Ret (Ok true, rt1)) as ->
    by (by vm_compute).
  split; [apply (bool_decide_unpack _); by vm_compute|].
  assert (commands_loop 4 rt1 = Ret (Ok tt, rt2)) as -> by (by vm_compute).
  assert (control_loop 4 9 rt2 = Ret (Ok Continue, rt3)) as -> by (by vm_compute).
  split.
  - cbn [env_controls].
    assert (try_recv (ctl_chan (shared rt2)) =
      (Received (CtlRegisterTransport extra), {| ListChannel.items := []; ListChannel.receiver := true;
         ListChannel.sender := true |})) as -> by (by vm_compute).
    split; [split_and!; [by vm_compute|apply (bool_decide_unpack _); by vm_compute|by vm_compute]|].
    by vm_compute.
  - cbn [env_actions].
    assert (next_action (service rt3) = Ret (Some (Send 2 [Byte.x01]), {| log := log (service rt3); actions := [] |}))
      as -> by (by vm_compute).
    split; [by split|]. by vm_compute.
Qed.
End ToyOnce.

Lemma run_once_healthy_witness :
  ∃ fl rt', run_once (HH := handler) 4 0 9 ToyOnce.rt0 = Ret (Ok fl, rt') ∧ healthy rt'.
Proof. apply (run_once_healthy 4 0 9 ToyOnce.rt0 ToyOnce.rt0_healthy ToyOnce.events_env). Defined.

(** What the iteration did: the service saw the event and the command, the
    transport was registered, and the data were written. *)
Example one_iteration :
  let rt' := final ToyOnce.rt0 (run_once (HH := handler) 4 0 9 ToyOnce.rt0) in
  log (service rt') = [Tick 9; ListenerEv 1 Read; Cmd 7] ∧
  transports rt' !! 5 = Some ToyOnce.extra ∧
  transports rt' !! 2 = Some (accept [Byte.x01] client).
Proof. by vm_compute. Qed.
