(* ===== verification/ReactorConc.v ===== *)
(** * Controllers and the reactor thread, interleaved

    io-reactor/src/reactor.rs: a controller puts a message in a channel and
    then wakes the reactor; the reactor's thread polls, resets the waker, and
    only then empties the channels. Here the two run concurrently: each step
    is one call on the state they share, in any order, with any number of
    controllers between their two calls. *)

From stdpp Require Import relations.
From S2P Require Import Prelude StdLib Timeouts Resource Popol Channel Waker Reactor ReactorToy.

(** Where the reactor's thread is in [Runtime::run]. *)
Inductive Phase := Polling | Commands | Controls | Stopped.
#[global] Instance Phase_eq_dec : EqDecision Phase.
Proof. solve_decision. Defined.

Section system.
Context {H : Type} `{HH : Handler H} `{CL : ChannelLaws}.

(** The shared state, the reactor's phase, how many controllers are between
    their send and their wake, and what was sent and taken so far. *)
Record Sys := {
  sys_shared : Shared (H := H);
  phase : Phase;
  waking : nat;
  sent_cmds : list Command;
  taken_cmds : list Command;
  sent_ctls : list (Ctl Listener Transport);
  taken_ctls : list (Ctl Listener Transport);
}.

(** The initial state of [Runtime::with]. *)
Definition sys_init (w : Waker) : Sys :=
  {| sys_shared := {| cmd_chan := unbounded; ctl_chan := unbounded; waker := w |};
     phase := Polling; waking := 0; sent_cmds := []; taken_cmds := [];
     sent_ctls := []; taken_ctls := [] |}.

Definition at_phase (p : Phase) (sh : Shared) (s : Sys) : Sys :=
  {| sys_shared := sh; phase := p; waking := waking s; sent_cmds := sent_cmds s;
     taken_cmds := taken_cmds s; sent_ctls := sent_ctls s; taken_ctls := taken_ctls s |}.

(** The steps of controllers. *)
Inductive controller_step : Sys → Sys → Prop :=
| step_send_cmd cmd s sh :
    send_cmd cmd (sys_shared s) = Ret (Ok tt, sh) →
    controller_step s {| sys_shared := sh; phase := phase s; waking := S (waking s);
              sent_cmds := sent_cmds s ++ [cmd]; taken_cmds := taken_cmds s;
              sent_ctls := sent_ctls s; taken_ctls := taken_ctls s |}
| step_send_ctl ctl s sh :
    send_ctl ctl (sys_shared s) = Ret (Ok tt, sh) →
    controller_step s {| sys_shared := sh; phase := phase s; waking := S (waking s);
              sent_cmds := sent_cmds s; taken_cmds := taken_cmds s;
              sent_ctls := sent_ctls s ++ [ctl]; taken_ctls := taken_ctls s |}
| step_wake s n sh :
    waking s = S n → controller_wake (sys_shared s) = Ret (Ok tt, sh) →
    controller_step s {| sys_shared := sh; phase := phase s; waking := n;
              sent_cmds := sent_cmds s; taken_cmds := taken_cmds s;
              sent_ctls := sent_ctls s; taken_ctls := taken_ctls s |}.

(** The steps of the reactor's thread. The poll reports the waker only when
    there is something to read from it. *)
Inductive reactor_step : Sys → Sys → Prop :=
| step_awoken s w :
    phase s = Polling → 0 < inbox (waker (sys_shared s)) →
    reset_fd ReaderEnd (waker (sys_shared s)) = Ret (Ok tt, w) →
    reactor_step s (at_phase Commands (set_waker w (sys_shared s)) s)
| step_command s cmd c :
    phase s = Commands → try_recv (cmd_chan (sys_shared s)) = (Received cmd, c) →
    reactor_step s {| sys_shared := set_cmd_chan c (sys_shared s); phase := Commands;
              waking := waking s; sent_cmds := sent_cmds s;
              taken_cmds := taken_cmds s ++ [cmd];
              sent_ctls := sent_ctls s; taken_ctls := taken_ctls s |}
| step_commands_done s c :
    phase s = Commands → try_recv (cmd_chan (sys_shared s)) = (Empty, c) →
    reactor_step s (at_phase Controls (set_cmd_chan c (sys_shared s)) s)
| step_control s ctl c :
    phase s = Controls → try_recv (ctl_chan (sys_shared s)) = (Received ctl, c) →
    reactor_step s {| sys_shared := set_ctl_chan c (sys_shared s);
              phase := match ctl with CtlShutdown => Stopped | _ => Controls end;
              waking := waking s; sent_cmds := sent_cmds s; taken_cmds := taken_cmds s;
              sent_ctls := sent_ctls s; taken_ctls := taken_ctls s ++ [ctl] |}
| step_controls_done s c :
    phase s = Controls → try_recv (ctl_chan (sys_shared s)) = (Empty, c) →
    reactor_step s (at_phase Polling (set_ctl_chan c (sys_shared s)) s).

Definition step (s s' : Sys) : Prop := controller_step s s' ∨ reactor_step s s'.

Definition cmd_queue (s : Sys) : list Command := queue (cmd_chan (sys_shared s)).
Definition ctl_queue (s : Sys) : list (Ctl Listener Transport) := queue (ctl_chan (sys_shared s)).

(** A wake-up is on its way to the reactor. *)
Definition signalled (s : Sys) : Prop :=
  0 < inbox (waker (sys_shared s)) ∨ 0 < waking s.

(** The pipe is in order: nothing holds the mutex, reads do not fail. *)
Definition pipe_ok (w : Waker) : Prop :=
  locked w = false ∧ read_errors w = [] ∧ write_errors w = [].

Record inv (s : Sys) : Prop := {
  inv_pipe : pipe_ok (waker (sys_shared s));
  inv_cmd_sender : has_sender (cmd_chan (sys_shared s)) = true;
  inv_ctl_sender : has_sender (ctl_chan (sys_shared s)) = true;
  inv_cmds : taken_cmds s ++ cmd_queue s = sent_cmds s;
  inv_ctls : taken_ctls s ++ ctl_queue s = sent_ctls s;
  inv_cmd_signal : phase s = Polling ∨ phase s = Controls → cmd_queue s = [] ∨ signalled s;
  inv_ctl_signal : phase s = Polling → ctl_queue s = [] ∨ signalled s;
}.

(** ** The invariant holds in every reachable state *)

Lemma inv_init w : pipe_ok w → inv (sys_init w).
Proof.
  intros Hw. destruct (unbounded_law Command) as (Hq1&_&?).
  destruct (unbounded_law (Ctl Listener Transport)) as (Hq2&_&?).
  split; unfold cmd_queue, ctl_queue; simpl; rewrite ?Hq1, ?Hq2; auto.
Qed.

Lemma send_cmd_ok cmd sh sh' :
  send_cmd cmd sh = Ret (Ok tt, sh') →
  queue (cmd_chan sh') = queue (cmd_chan sh) ++ [cmd] ∧
  has_sender (cmd_chan sh') = has_sender (cmd_chan sh) ∧
  ctl_chan sh' = ctl_chan sh ∧ waker sh' = waker sh.
Proof.
  unfold send_cmd. pose proof (chan_send_law _ cmd (cmd_chan sh)) as Hl.
  destruct (chan_send cmd (cmd_chan sh)) as [r c]. destruct Hl as (_ & Hs & Hl).
  destruct (has_receiver (cmd_chan sh)); destruct Hl as [-> Hq]; simpl; [|done].
  intros [= <-]. auto.
Qed.

Lemma send_ctl_ok ctl sh sh' :
  send_ctl ctl sh = Ret (Ok tt, sh') →
  queue (ctl_chan sh') = queue (ctl_chan sh) ++ [ctl] ∧
  has_sender (ctl_chan sh') = has_sender (ctl_chan sh) ∧
  cmd_chan sh' = cmd_chan sh ∧ waker sh' = waker sh.
Proof.
  unfold send_ctl. pose proof (chan_send_law _ ctl (ctl_chan sh)) as Hl.
  destruct (chan_send ctl (ctl_chan sh)) as [r c]. destruct Hl as (_ & Hs & Hl).
  destruct (has_receiver (ctl_chan sh)); destruct Hl as [-> Hq]; simpl; [|done].
  intros [= <-]. auto.
Qed.

(** A wake that returns leaves a byte in the pipe. *)
Lemma controller_wake_ok sh sh' :
  pipe_ok (waker sh) → controller_wake sh = Ret (Ok tt, sh') →
  cmd_chan sh' = cmd_chan sh ∧ ctl_chan sh' = ctl_chan sh ∧ pipe_ok (waker sh') ∧
  0 < inbox (waker sh').
Proof.
  intros (Hl & Hr & Hw). unfold controller_wake, zoom, wake. simpl.
  unfold lock, write_all_byte, unlock. unfold_prog. rewrite Hl. cbn. rewrite Hw. simpl.
  destruct (Nat.ltb_spec (inbox (waker sh)) (capacity (waker sh))) as [Hlt|Hge]; simpl.
  - intros [= <-]. simpl. split_and!; [done..|split_and!; done|lia].
  - unfold reset_fd. simpl. unfold libc_read. cbn. by rewrite Hr.
Qed.

Lemma recv_cases {A} (c c' : chan A) (r : try_recv_result A) :
  try_recv c = (r, c') → has_sender c = true →
  has_sender c' = true ∧
  match r with
  | Received a => queue c = a :: queue c'
  | Empty => queue c = [] ∧ queue c' = []
  | Disconnected => False
  end.
Proof.
  intros E Hs. pose proof (try_recv_law A c) as Hl. rewrite E in Hl.
  destruct Hl as (_ & -> & Hl). rewrite Hs in Hl |- *. split; [done|].
  destruct (queue c); destruct Hl as [-> Hq]; [done|congruence].
Qed.

Lemma inv_controller s s' : inv s → controller_step s s' → inv s'.
Proof.
  intros [Hp Hs1 Hs2 Hc1 Hc2 Hg1 Hg2]. unfold cmd_queue, ctl_queue, signalled in *.
  destruct 1 as [cmd s sh Hsend|ctl s sh Hsend|s n sh Hn Hwake].
  - apply send_cmd_ok in Hsend as (Hq & Hs & Hct & Hw).
    split; unfold cmd_queue, ctl_queue, signalled; simpl; rewrite ?Hq, ?Hs, ?Hct, ?Hw; auto with lia.
    by rewrite app_assoc, Hc1.
  - apply send_ctl_ok in Hsend as (Hq & Hs & Hct & Hw).
    split; unfold cmd_queue, ctl_queue, signalled; simpl; rewrite ?Hq, ?Hs, ?Hct, ?Hw; auto with lia.
    by rewrite app_assoc, Hc2.
  - apply controller_wake_ok in Hwake as (Hcm & Hct & Hw & Hi); [|done].
    split; unfold cmd_queue, ctl_queue, signalled; simpl; rewrite ?Hcm, ?Hct; auto.
Qed.

Lemma inv_reactor s s' : inv s → reactor_step s s' → inv s'.
Proof.
  intros [Hp Hs1 Hs2 Hc1 Hc2 Hg1 Hg2]. unfold cmd_queue, ctl_queue, signalled in *.
  destruct 1 as [s w Hph Hi Hr|s cmd c Hph Hr|s c Hph Hr|s ctl c Hph Hr|s c Hph Hr].
  - rewrite reset_fd_reader in Hr by apply Hp. simplify_eq.
    split; unfold cmd_queue, ctl_queue, signalled; simpl; auto; intros; destruct_or?; done.
  - apply recv_cases in Hr as [Hs Hq]; [|done]. rewrite Hq in Hc1.
    split; unfold cmd_queue, ctl_queue, signalled; simpl; auto; try (intros; destruct_or?; done).
    by rewrite <-app_assoc.
  - apply recv_cases in Hr as [Hs [Hq Hq']]; [|done]. rewrite Hq in Hc1.
    split; unfold cmd_queue, ctl_queue, signalled; simpl; rewrite ?Hq'; auto. done.
  - apply recv_cases in Hr as [Hs Hq]; [|done]. rewrite Hq in Hc2. rewrite Hph in *.
    split; unfold cmd_queue, ctl_queue, signalled; simpl; auto.
    + by rewrite <-app_assoc.
    + by destruct ctl.
  - apply recv_cases in Hr as [Hs [Hq Hq']]; [|done]. rewrite Hq in Hc2. rewrite Hph in *.
    split; unfold cmd_queue, ctl_queue, signalled; simpl; rewrite ?Hq'; auto.
Qed.

Lemma inv_reachable w s : pipe_ok w → rtc step (sys_init w) s → inv s.
Proof.
  intros Hw. remember (sys_init w) as s0 eqn:E. intros Hr.
  assert (inv s0) as Hinv by (subst; by apply inv_init). clear E.
  induction Hr as [|s1 s2 s3 [Hs|Hs] _ IH]; [done|..]; apply IH.
  - by eapply inv_controller.
  - by eapply inv_reactor.
Qed.

(** *** The reactor alone empties the queues *)

Lemma drain_commands s :
  inv s → phase s = Commands →
  ∃ s', rtc reactor_step s s' ∧ phase s' = Controls ∧ taken_cmds s' = sent_cmds s ∧
    sent_cmds s' = sent_cmds s ∧ sent_ctls s' = sent_ctls s ∧ ctl_queue s' = ctl_queue s.
Proof.
  remember (cmd_queue s) as q eqn:Eq. revert s Eq.
  induction q as [|cmd q IH]; intros s Eq Hinv Hph;
    destruct (try_recv (cmd_chan (sys_shared s))) as [r c] eqn:Er;
    pose proof (recv_cases _ _ _ Er (inv_cmd_sender _ Hinv)) as [Hs Hr];
    unfold cmd_queue in Eq; rewrite <-Eq in Hr.
  - destruct r as [a| |]; [done| |done]. destruct Hr as [_ Hq].
    eexists. split; [apply rtc_once; by eapply step_commands_done|].
    simpl. split_and!; try done. pose proof (inv_cmds _ Hinv) as Hc.
    unfold cmd_queue in Hc. by rewrite <-Eq, app_nil_r in Hc.
  - destruct r as [a| |]; [|by destruct Hr|done]. injection Hr as -> ->.
    pose proof (step_command s a c Hph Er) as Hstep.
    pose proof (inv_reactor _ _ Hinv Hstep) as Hinv'.
    match type of Hinv' with inv ?s1 =>
      destruct (IH s1 eq_refl Hinv' eq_refl) as (s' & Hrtc & ?) end.
    exists s'. split; [by eapply rtc_l|done].
Qed.

Lemma drain_controls s :
  inv s → phase s = Controls → CtlShutdown ∉ ctl_queue s →
  ∃ s', rtc reactor_step s s' ∧ phase s' = Polling ∧ taken_ctls s' = sent_ctls s ∧
    taken_cmds s' = taken_cmds s ∧ cmd_queue s' = cmd_queue s ∧ ctl_queue s' = [].
Proof.
  remember (ctl_queue s) as q eqn:Eq. revert s Eq.
  induction q as [|ctl q IH]; intros s Eq Hinv Hph Hsd;
    destruct (try_recv (ctl_chan (sys_shared s))) as [r c] eqn:Er;
    pose proof (recv_cases _ _ _ Er (inv_ctl_sender _ Hinv)) as [Hs Hr];
    unfold ctl_queue in Eq; rewrite <-Eq in Hr.
  - destruct r as [a| |]; [done| |done]. destruct Hr as [_ Hq].
    eexists. split; [apply rtc_once; by eapply step_controls_done|].
    simpl. split_and!; try done. pose proof (inv_ctls _ Hinv) as Hc.
    unfold ctl_queue in Hc. by rewrite <-Eq, app_nil_r in Hc.
  - destruct r as [a| |]; [|by destruct Hr|done]. injection Hr as -> ->.
    apply not_elem_of_cons in Hsd as [Ha Hsd].
    pose proof (step_control s a c Hph Er) as Hstep.
    pose proof (inv_reactor _ _ Hinv Hstep) as Hinv'.
    match type of Hinv' with inv ?s1 =>
      destruct (IH s1 eq_refl Hinv') as (s' & Hrtc & ?); [by destruct a|done|] end.
    exists s'. split; [by eapply rtc_l|done].
Qed.

Lemma inv_rtc s s' : inv s → rtc reactor_step s s' → inv s'.
Proof. intros Hinv. induction 1; eauto using inv_reactor. Qed.

(** From any polling state with a signal in the pipe, the reactor's own steps
    take everything that was sent. *)
Lemma round_takes_all s :
  inv s → phase s = Polling → 0 < inbox (waker (sys_shared s)) → CtlShutdown ∉ ctl_queue s →
  ∃ s', rtc reactor_step s s' ∧ phase s' = Polling ∧
    taken_cmds s' = sent_cmds s ∧ taken_ctls s' = sent_ctls s.
Proof.
  intros Hinv Hph Hi Hsd.
  pose proof (step_awoken s _ Hph Hi (reset_fd_reader _ (proj1 (proj2 (inv_pipe _ Hinv))))) as Hstep.
  pose proof (inv_reactor _ _ Hinv Hstep) as Hinv1.
  destruct (drain_commands _ Hinv1 eq_refl) as (s2 & Hr2 & Hph2 & Ht2 & _ & Hsl2 & Hq2).
  pose proof (inv_rtc _ _ Hinv1 Hr2) as Hinv2. simpl in Ht2, Hsl2, Hq2.
  destruct (drain_controls s2 Hinv2 Hph2) as (s3 & Hr3 & Hph3 & Hl3 & Hc3 & _); [by rewrite Hq2|].
  exists s3. split; [by eapply rtc_l; [|etransitivity]|]. split_and!; [done|congruence..].
Qed.

(** C4. No wake-up is lost. However the controllers and the reactor
    interleave, the commands taken so far followed by those still queued are
    the commands sent, in order; and whenever the reactor polls while a
    message waits, the waker's pipe is readable or a controller is about to
    make it so. *)
Theorem no_lost_wakeup w s :
  pipe_ok w → rtc step (sys_init w) s →
  taken_cmds s ++ cmd_queue s = sent_cmds s ∧ taken_ctls s ++ ctl_queue s = sent_ctls s ∧
  (phase s = Polling → cmd_queue s ≠ [] ∨ ctl_queue s ≠ [] →
   0 < inbox (waker (sys_shared s)) ∨ 0 < waking s).
Proof.
  intros Hw Hr. pose proof (inv_reachable _ _ Hw Hr) as []. split_and!; [done..|].
  intros Hph [Hq|Hq]; [destruct (inv_cmd_signal0 (or_introl Hph))|destruct (inv_ctl_signal0 Hph)]; done.
Qed.

End system.

(** ** Witnesses *)

Import Toy.

(** A controller sends command 7; the reactor is not yet woken. *)
Definition one_sent : Sys (H := Service) :=
  {| sys_shared := set_cmd_chan ({| ListChannel.items := [7%Z]; ListChannel.receiver := true;
                                    ListChannel.sender := true |} : @chan ListChannel.lib _)
                     (sys_shared (sys_init pair));
     phase := Polling; waking := 1; sent_cmds := [7%Z]; taken_cmds := [];
     sent_ctls := []; taken_ctls := [] |}.

(** The controller has now written its byte. *)
Definition one_woken : Sys (H := Service) :=
  {| sys_shared := set_waker (with_inbox 1 pair) (sys_shared one_sent);
     phase := Polling; waking := 0; sent_cmds := [7%Z]; taken_cmds := [];
     sent_ctls := []; taken_ctls := [] |}.

Lemma one_sent_reachable : rtc step (sys_init (HH := handler) pair) one_sent.
Proof. apply rtc_once. left. by apply (step_send_cmd (HH := handler) 7%Z (sys_init pair)). Qed.

Lemma one_woken_reachable : rtc step (sys_init (HH := handler) pair) one_woken.
Proof.
  eapply rtc_r; [exact one_sent_reachable|]. left.
  by apply (step_wake (HH := handler) one_sent 0 (sys_shared one_woken)).
Qed.

Lemma no_lost_wakeup_witness :
  [] ++ [7%Z] = [7%Z] ∧ @nil (Ctl Res Res) ++ [] = [] ∧
  (Polling = Polling → [7%Z] ≠ [] ∨ @nil (Ctl Res Res) ≠ [] → 0 < 0 ∨ 0 < 1).
Proof.
  exact (no_lost_wakeup (HH := handler) pair one_sent
    (conj eq_refl (conj eq_refl eq_refl)) one_sent_reachable).
Defined.

