(* ===== verification/Net.v ===== *)
(** * Connections and sessions: src/connection.rs, src/session.rs, src/listener.rs

    The traits [NetConnection], [NetSession] and [NetListener] as classes, with
    the laws a stream socket obeys; the default methods [Read::read_exact] and
    [Write::write_all] of Rust's standard library; the session that a plain
    socket is; and a socket driven by a script, on which everything runs. *)

From S2P Require Import Prelude StdLib Resource.

(** ** Connections *)

(** [Shutdown] and the addresses are the standard library's. *)
Inductive Shutdown := ShutRead | ShutWrite | ShutBoth.

(** The methods of [NetConnection] and of its supertraits that the sources call.
    [conn_read n] reads into a buffer of [n] bytes and returns what it read. *)
Class NetConnection (C : Type) := {
  Addr : Type;
  Addr_eq :: EqDecision Addr;
  conn_fd : C → Z;
  conn_read : nat → prog C io_error (list byte);
  conn_write : list byte → prog C io_error nat;
  conn_flush : prog C io_error unit;
  conn_shutdown : Shutdown → prog C io_error unit;
  conn_remote_addr : C → outcome Addr;
  conn_local_addr : C → outcome Addr;
  conn_set_read_timeout : option Z → prog C io_error unit;
  conn_set_write_timeout : option Z → prog C io_error unit;
  conn_set_nonblocking : bool → prog C io_error unit;
  conn_try_clone : C → io_result C;
}.
#[global] Hint Mode NetConnection ! : typeclass_instances.

(** The settings of a socket that the sources change. *)
Inductive Setting :=
| ReadTimeout (d : option Z)
| WriteTimeout (d : option Z)
| NonBlocking (b : bool).

Definition conn_set `{NetConnection C} (x : Setting) : prog C io_error unit :=
  match x with
  | ReadTimeout d => conn_set_read_timeout d
  | WriteTimeout d => conn_set_write_timeout d
  | NonBlocking b => conn_set_nonblocking b
  end.

(** A stream socket: [conn_in] is what will be read, [conn_out] what was
    written, and only finitely many calls are interrupted. *)
Class ConnectionLaws (C : Type) `{NetConnection C} := {
  conn_in : C → list byte;
  conn_out : C → list byte;
  patience : C → nat;
  conn_read_law n (c : C) :
    wp (conn_read n) (λ r c', conn_out c' = conn_out c ∧ conn_fd c' = conn_fd c ∧
      patience c' ≤ patience c ∧
      match r with
      | Ok bs => length bs ≤ n ∧ conn_in c = bs ++ conn_in c'
      | Err e => conn_in c' = conn_in c ∧ (kind e = Interrupted → patience c' < patience c)
      end) c;
  conn_write_law buf (c : C) :
    wp (conn_write buf) (λ r c', conn_in c' = conn_in c ∧ conn_fd c' = conn_fd c ∧
      patience c' ≤ patience c ∧
      match r with
      | Ok n => n ≤ length buf ∧ conn_out c' = conn_out c ++ take n buf
      | Err e => conn_out c' = conn_out c ∧ (kind e = Interrupted → patience c' < patience c)
      end) c;
  conn_flush_law (c : C) :
    wp conn_flush (λ _ c', conn_in c' = conn_in c ∧ conn_out c' = conn_out c ∧
      conn_fd c' = conn_fd c ∧ patience c' ≤ patience c) c;
  conn_set_law x (c : C) :
    wp (conn_set x) (λ _ c', conn_in c' = conn_in c ∧ conn_out c' = conn_out c ∧
      conn_fd c' = conn_fd c ∧ patience c' ≤ patience c) c;
}.
#[global] Hint Mode ConnectionLaws ! - : typeclass_instances.

(** [SplitIo] of src/resources.rs: an [Err] gives the original back. Either
    method may panic. *)
Class SplitIo (T : Type) := {
  SplitRead : Type;
  SplitWrite : Type;
  split_io : T → outcome (result (T * io_error) (SplitRead * SplitWrite));
  from_split_io : SplitRead → SplitWrite → outcome T;
  split_read : nat → prog SplitRead io_error (list byte);
  split_write : list byte → prog SplitWrite io_error nat;
  split_flush : prog SplitWrite io_error unit;
}.
#[global] Hint Mode SplitIo ! : typeclass_instances.

(** Joining the two halves gives back what was split. *)
Class SplitIoLaws (T : Type) `{SplitIo T} : Prop :=
  split_join (t : T) r w : split_io t = Ret (Ok (r, w)) → from_split_io r w = Ret t.
#[global] Hint Mode SplitIoLaws ! - : typeclass_instances.

(** ** [Read::read_exact] and [Write::write_all] *)

Section std_io.
Context {C : Type} `{NetConnection C}.

(** The loops retry what was interrupted; the fuel bounds their iterations. *)
Fixpoint read_exact (fuel n : nat) : prog C io_error (list byte) := λ c,
  if decide (n = 0) then Ret (Ok [], c) else
  match fuel with
  | O => Hang
  | S fuel =>
      (attempt (conn_read n) ≫= λ r,
       match r with
       | Ok [] => throw (from_kind UnexpectedEof)
       | Ok bs => read_exact fuel (n - length bs) ≫= λ rest, mret (bs ++ rest)
       | Err e => if decide (kind e = Interrupted) then read_exact fuel n else throw e
       end) c
  end.

End std_io.

Section write_all.
Context {T : Type} (wr : list byte → prog T io_error nat).

Fixpoint write_all_with (fuel : nat) (buf : list byte) : prog T io_error unit := λ c,
  if decide (buf = []) then Ret (Ok tt, c) else
  match fuel with
  | O => Hang
  | S fuel =>
      (attempt (wr buf) ≫= λ r,
       match r with
       | Ok O => throw (from_kind WriteZero)
       | Ok n => write_all_with fuel (drop n buf)
       | Err e => if decide (kind e = Interrupted) then write_all_with fuel buf else throw e
       end) c
  end.
End write_all.

(** On a connection. *)
Abbreviation write_all := (write_all_with conn_write).

(** ** Sessions *)

(** [NetSession] with the methods the resource and the tunnel call. *)
Class NetSession (S : Type) := {
  SessionId : Type;
  sess_fd : S → Z;
  sess_read : nat → prog S io_error (list byte);
  sess_write : list byte → prog S io_error nat;
  sess_flush : prog S io_error unit;
  session_id : S → option SessionId;
  is_session_established : S → bool;
  sess_set_read_timeout : option Z → prog S io_error unit;
  sess_set_write_timeout : option Z → prog S io_error unit;
  sess_set_nonblocking : bool → prog S io_error unit;
  sess_disconnect : prog S io_error unit;
}.
#[global] Hint Mode NetSession ! : typeclass_instances.

(** [NetSession::expect_id] *)
Definition expect_id {T} `{NetSession T} (s : T) : outcome (SessionId (S := T)) :=
  expect (session_id s) "net session id is not present when expected".

Definition sess_set {T} `{NetSession T} (x : Setting) : prog T io_error unit :=
  match x with
  | ReadTimeout d => sess_set_read_timeout d
  | WriteTimeout d => sess_set_write_timeout d
  | NonBlocking b => sess_set_nonblocking b
  end.

(** What a resource relies on. [sess_ready] are the sessions that can carry
    application data; [sess_in] and [sess_out] are those data. *)
Class SessionLaws (S : Type) `{NetSession S} := {
  sess_ready : S → Prop;
  sess_in : S → list byte;
  sess_out : S → list byte;
  sess_read_law n (s : S) : sess_ready s →
    wp (sess_read n) (λ r s', sess_ready s' ∧ sess_out s' = sess_out s ∧ sess_fd s' = sess_fd s ∧
      match r with
      | Ok bs => length bs ≤ n ∧ sess_in s = bs ++ sess_in s'
      | Err e => sess_in s' = sess_in s
      end) s;
  sess_write_law buf (s : S) : sess_ready s →
    wp (sess_write buf) (λ r s', sess_ready s' ∧ sess_in s' = sess_in s ∧ sess_fd s' = sess_fd s ∧
      match r with
      | Ok n => n ≤ length buf ∧ sess_out s' = sess_out s ++ take n buf
      | Err e => sess_out s' = sess_out s
      end) s;
  sess_flush_law (s : S) : sess_ready s →
    wp sess_flush (λ _ s', sess_ready s' ∧ sess_in s' = sess_in s ∧ sess_out s' = sess_out s ∧
      sess_fd s' = sess_fd s) s;
  sess_set_law x (s : S) : sess_ready s →
    wp (sess_set x) (λ _ s', sess_ready s' ∧ sess_in s' = sess_in s ∧ sess_out s' = sess_out s ∧
      sess_fd s' = sess_fd s) s;
  sess_ready_established (s : S) : sess_ready s → is_session_established s = true;
}.
#[global] Hint Mode SessionLaws ! - : typeclass_instances.

(** [impl NetSession for net::TcpStream] and [for socket2::Socket]: the socket
    is the session. *)
Module PlainSession.
Section plain.
Context {C : Type} `{NetConnection C}.

Definition disconnect : prog C io_error unit := conn_shutdown ShutBoth.

#[export] Instance session : NetSession C | 10 := {|
  SessionId := Z;
  sess_fd := conn_fd;
  sess_read := conn_read;
  sess_write := conn_write;
  sess_flush := conn_flush;
  session_id c := Some (conn_fd c);
  is_session_established _ := true;
  sess_set_read_timeout := conn_set_read_timeout;
  sess_set_write_timeout := conn_set_write_timeout;
  sess_set_nonblocking := conn_set_nonblocking;
  sess_disconnect := disconnect;
|}.

#[export] Instance laws `{!ConnectionLaws C} : SessionLaws C.
Proof.
  refine (@Build_SessionLaws C session (λ _, True) conn_in conn_out _ _ _ _ _); simpl; [..|done].
  - intros n c _. eapply wp_mono; [apply conn_read_law|]. intros [bs|e] c' (?&?&?&?); naive_solver.
  - intros buf c _. eapply wp_mono; [apply conn_write_law|]. intros [k|e] c' (?&?&?&?); naive_solver.
  - intros c _. eapply wp_mono; [apply conn_flush_law|]. intros _ c' (?&?&?&?); done.
  - intros x c _. pose proof (conn_set_law x c) as Hx.
    destruct x; (eapply wp_mono; [exact Hx|]); intros _ c' (?&?&?&?); done.
Defined.
End plain.
End PlainSession.

(** [impl SplitIo for TcpStream] and [for socket2::Socket]: the reader is a
    clone, and the writer is the socket itself. *)
Module SplitClone.
Section split.
Context {C : Type} `{NetConnection C}.

Definition split (c : C) : outcome (result (C * io_error) (C * C)) :=
  match conn_try_clone c with
  | Ok clone => Ret (Ok (clone, c))
  | Err error => Ret (Err (c, error))
  end.

#[export] Instance split_io : SplitIo C | 10 := {|
  SplitRead := C;
  SplitWrite := C;
  split_io := split;
  from_split_io _ write := Ret write;
  split_read := conn_read;
  split_write := conn_write;
  split_flush := conn_flush;
|}.

#[export] Instance laws : SplitIoLaws C.
Proof. intros c r w. simpl. unfold split. destruct (conn_try_clone c); intros; by simplify_eq. Qed.
End split.
End SplitClone.

(** ** A scripted socket *)

Module Script.
(** What the next reads and writes meet: bytes that arrive, or room for so many
    bytes, or an error. An empty read script would block; an empty write script
    has room for everything. *)
Inductive incoming := Arrive (bs : list byte) | Eof | ReadFails (k : ErrorKind).
Inductive outgoing := Room (n : nat) | WriteFails (k : ErrorKind).

Record t := { fd : Z; peer : Z; reads : list incoming; writes : list outgoing; out : list byte }.

Definition set_reads (rs : list incoming) (c : t) : t :=
  {| fd := fd c; peer := peer c; reads := rs; writes := writes c; out := out c |}.
Definition set_writes (ws : list outgoing) (bs : list byte) (c : t) : t :=
  {| fd := fd c; peer := peer c; reads := reads c; writes := ws; out := out c ++ bs |}.

Definition read (n : nat) : prog t io_error (list byte) := λ c,
  match reads c with
  | [] => Ret (Err (from_kind WouldBlock), c)
  | Arrive bs :: rs =>
      let rs := if decide (length bs ≤ n) then rs else Arrive (drop n bs) :: rs in
      Ret (Ok (take n bs), set_reads rs c)
  | Eof :: rs => Ret (Ok [], c)
  | ReadFails k :: rs => Ret (Err (from_kind k), set_reads rs c)
  end.

Definition write (buf : list byte) : prog t io_error nat := λ c,
  match writes c with
  | [] => Ret (Ok (length buf), set_writes [] buf c)
  | Room n :: ws => Ret (Ok (Nat.min n (length buf)), set_writes ws (take n buf) c)
  | WriteFails k :: ws => Ret (Err (from_kind k), set_writes ws [] c)
  end.

#[global] Instance connection : NetConnection t := {|
  Addr := Z;
  conn_fd := fd;
  conn_read := read;
  conn_write := write;
  conn_flush := mret tt;
  conn_shutdown _ := mret tt;
  conn_remote_addr c := Ret (peer c);
  conn_local_addr c := Ret (fd c);
  conn_set_read_timeout _ := mret tt;
  conn_set_write_timeout _ := mret tt;
  conn_set_nonblocking _ := mret tt;
  conn_try_clone c := Ok c;
|}.

(** The bytes a read script holds, up to the end of the stream. *)
Fixpoint bytes (rs : list incoming) : list byte :=
  match rs with
  | [] => []
  | Arrive bs :: rs => bs ++ bytes rs
  | Eof :: _ => []
  | ReadFails _ :: rs => bytes rs
  end.

#[global] Instance laws : ConnectionLaws t.
Proof.
  refine (@Build_ConnectionLaws t connection (λ c, bytes (reads c)) out
    (λ c, length (reads c) + length (writes c)) _ _ _ _); simpl.
  - intros n c. unfold wp, read. destruct (reads c) as [|[bs| |k] rs] eqn:E; simpl; rewrite ?E; simpl.
    + by split_and!.
    + split_and!; [done|done|case_decide; simpl; lia|rewrite length_take; lia|].
      case_decide; simpl; [by rewrite take_ge|by rewrite app_assoc, take_drop].
    + split_and!; [done..|lia|done].
    + split_and!; [done|done|lia|done|lia].
  - intros buf c. unfold wp, write. destruct (writes c) as [|[n|k] ws] eqn:E; simpl; rewrite ?E; simpl.
    + split_and!; [done|done|lia|lia|]. by rewrite firstn_all.
    + split_and!; [done|done|lia|lia|]. f_equal.
      destruct (decide (n ≤ length buf)); [by rewrite Nat.min_l|].
      by rewrite Nat.min_r, !take_ge by lia.
    + rewrite app_nil_r. split_and!; [done|done|lia|done|lia].
  - intros c. by split_and!.
  - intros x c. by destruct x; split_and!.
Defined.
End Script.

(** ** Lemmas *)

(** [write_all] of something that writes to one of its fields is [write_all] of
    the field. *)
Lemma write_all_zoom {T S} (get : T → S) (put : S → T → T) wr fuel buf t :
  (∀ s t, get (put s t) = s) → (∀ s s' t, put s' (put s t) = put s' t) →
  (∀ t, put (get t) t = t) →
  write_all_with (λ b, zoom get put (wr b)) fuel buf t = zoom get put (write_all_with wr fuel buf) t.
Proof.
  intros Hgp Hpp Hpg. set (wz := λ b, zoom get put (wr b)).
  assert (∀ b t, wz b t = zoom get put (wr b) t) as Hwz by done. clearbody wz.
  revert buf t. induction fuel as [|fuel IH]; intros buf t; unfold_prog;
    (case_decide; [by rewrite Hpg|]); [done|]. unfold_prog. rewrite Hwz.
  destruct (wr buf (get t)) as [[[[|n]|e] s]| |]; try done.
  - rewrite IH, Hgp. destruct (write_all_with wr fuel _ s) as [[? ?]| |]; [|done..]. by rewrite Hpp.
  - case_decide; [|done]. rewrite IH, Hgp.
    destruct (write_all_with wr fuel _ s) as [[? ?]| |]; [|done..]. by rewrite Hpp.
Qed.

(** One iteration of the loop. *)
Lemma wp_write_all {T} wr fuel buf (Q : io_result unit → T → Prop) c :
  buf ≠ [] →
  wp (wr buf) (λ r c', match r with
    | Ok O => Q (Err (from_kind WriteZero)) c'
    | Ok n => wp (write_all_with wr fuel (drop n buf)) Q c'
    | Err e => if decide (kind e = Interrupted) then wp (write_all_with wr fuel buf) Q c'
               else Q (Err e) c'
    end) c →
  wp (write_all_with wr (S fuel) buf) Q c.
Proof.
  intros Hb. unfold wp. simpl. rewrite decide_False by done. unfold_prog.
  destruct (wr buf c) as [[[[|n]|e] c']| |]; try done. by case_decide.
Qed.

(** With fuel for every byte and every interruption, [write_all] returns: the
    whole buffer is written, or a proper prefix of it. [ok] is an invariant of
    the writer, and [R] what a write keeps. *)
Lemma write_all_with_ok {T} wr (out : T → list byte) (pat : T → nat) (ok : T → Prop)
    (R : T → T → Prop) (HR : ∀ c1 c2 c3, R c1 c2 → R c2 c3 → R c1 c3)
    (law : ∀ buf c, ok c → wp (wr buf) (λ r c', ok c' ∧ R c c' ∧ pat c' ≤ pat c ∧
      match r with
      | Ok n => n ≤ length buf ∧ out c' = out c ++ take n buf
      | Err e => out c' = out c ∧ (kind e = Interrupted → pat c' < pat c)
      end) c) fuel buf c :
  ok c → R c c → length buf + pat c ≤ fuel →
  wp (write_all_with wr fuel buf) (λ r c', ok c' ∧ R c c' ∧ pat c' ≤ pat c ∧
    match r with
    | Ok _ => out c' = out c ++ buf
    | Err e => ∃ n, n < length buf ∧ out c' = out c ++ take n buf
    end) c.
Proof.
  intros Hok HRc Hf.
  cut (∀ c0, R c0 c → wp (write_all_with wr fuel buf) (λ r c', ok c' ∧ R c0 c' ∧ pat c' ≤ pat c ∧
    match r with
    | Ok _ => out c' = out c ++ buf
    | Err e => ∃ n, n < length buf ∧ out c' = out c ++ take n buf
    end) c); [by eauto|]. clear HRc.
  revert buf c Hok Hf. induction fuel as [|fuel IH]; intros buf c Hok Hf c0 Hc0;
    (destruct (decide (buf = [])) as [->|Hn];
     [unfold wp; simpl; rewrite ?decide_True, app_nil_r by done; by split_and!|]).
  { destruct buf; [done|simpl in Hf; lia]. }
  assert (0 < length buf) as Hpos by (destruct buf; [done|simpl; lia]).
  apply wp_write_all; [done|]. eapply wp_mono; [by apply law|].
  intros [[|n]|e] c1 (Hok1 & HR1 & Hp & Hr); simpl.
  - destruct Hr as [_ Hr]. split_and!; [done|by eapply HR|done|]. by exists 0.
  - destruct Hr as [Hlen Hout].
    eapply wp_mono; [apply (IH (drop (S n) buf) c1 Hok1 ltac:(rewrite length_drop; lia) c0 (HR _ _ _ Hc0 HR1))|]. simpl.
    intros [[]|e] c2 (Hok2 & HR2 & Hp2 & Hr2); (split_and!; [done|done|lia|]).
    + by rewrite Hr2, Hout, <-app_assoc, take_drop.
    + destruct Hr2 as (k & Hk & Hout2). rewrite length_drop in Hk. exists (S n + k).
      split; [lia|]. by rewrite Hout2, Hout, <-app_assoc, take_take_drop.
  - destruct Hr as [Hout Hi']. case_decide as Hk.
    + specialize (Hi' Hk).
      eapply wp_mono; [apply (IH buf c1 Hok1 ltac:(lia) c0 (HR _ _ _ Hc0 HR1))|].
      intros r c2 (Hok2 & HR2 & Hp2 & Hr2). rewrite Hout in Hr2. split_and!; [done|done|lia|done].
    + split_and!; [done|by eapply HR|done|]. exists 0. by rewrite app_nil_r.
Qed.

Section std_io_lemmas.
Context {C : Type} `{CL : ConnectionLaws C}.

(** With fuel for every byte and every interruption, [read_exact] returns: the
    next [n] bytes, or an error after a prefix of them was consumed. *)
Lemma read_exact_ok fuel n (c : C) :
  n + patience c ≤ fuel →
  wp (read_exact fuel n) (λ r c', conn_out c' = conn_out c ∧ conn_fd c' = conn_fd c ∧
    patience c' ≤ patience c ∧
    match r with
    | Ok bs => length bs = n ∧ conn_in c = bs ++ conn_in c'
    | Err e => ∃ lost, length lost < n ∧ conn_in c = lost ++ conn_in c'
    end) c.
Proof.
  revert n c. induction fuel as [|fuel IH]; intros n c Hf; unfold wp; simpl;
    (destruct (decide (n = 0)) as [->|Hn]; [by split_and!|]); [lia|].
  change (wp (attempt (conn_read n) ≫= λ r, match r with
    | Ok [] => throw (from_kind UnexpectedEof)
    | Ok bs => read_exact fuel (n - length bs) ≫= λ rest, mret (bs ++ rest)
    | Err e => if decide (kind e = Interrupted) then read_exact fuel n else throw e
    end) (λ r c', conn_out c' = conn_out c ∧ conn_fd c' = conn_fd c ∧ patience c' ≤ patience c ∧
      match r with
      | Ok bs => length bs = n ∧ conn_in c = bs ++ conn_in c'
      | Err e => ∃ lost, length lost < n ∧ conn_in c = lost ++ conn_in c'
      end) c).
  wp_steps. eapply wp_mono; [apply conn_read_law|].
  intros [[|b bs]|e] c1 (Ho & Hfd & Hp & Hr); simpl.
  - destruct Hr as [_ Hr]. wp_steps. split_and!; try done. exists []. split; [simpl; lia|done].
  - destruct Hr as [Hlen Hin]. simpl in Hlen. wp_steps.
    eapply wp_mono; [apply IH; simpl; lia|]. simpl.
    intros [rest|e] c2 (Ho2 & Hfd2 & Hp2 & Hr2); wp_steps; simpl.
    + destruct Hr2 as [Hl2 Hin2]. split_and!; [congruence|congruence|lia|rewrite length_app; lia|].
      by rewrite Hin, Hin2, app_assoc.
    + destruct Hr2 as (lost & Hl2 & Hin2). split_and!; [congruence|congruence|lia|].
      exists ((b :: bs) ++ lost). split; [simpl; rewrite length_app; lia|].
      by rewrite Hin, Hin2, app_assoc.
  - destruct Hr as [Hin Hi]. case_decide as Hk.
    + eapply wp_mono; [apply IH; specialize (Hi Hk); lia|].
      intros r c2 (Ho2 & Hfd2 & Hp2 & Hr2). rewrite Hin in Hr2.
      split_and!; [congruence|congruence|lia|done].
    + wp_steps. split_and!; try done. exists []. split; [simpl; lia|done].
Qed.

(** The same for [write_all]: the whole buffer is written, or a proper prefix. *)
Lemma write_all_ok fuel buf (c : C) :
  length buf + patience c ≤ fuel →
  wp (write_all fuel buf) (λ r c', conn_in c' = conn_in c ∧ conn_fd c' = conn_fd c ∧
    patience c' ≤ patience c ∧
    match r with
    | Ok _ => conn_out c' = conn_out c ++ buf
    | Err e => ∃ n, n < length buf ∧ conn_out c' = conn_out c ++ take n buf
    end) c.
Proof.
  intros Hf. eapply wp_mono.
  - apply (write_all_with_ok conn_write conn_out patience (λ _, True)
      (λ c c', conn_in c' = conn_in c ∧ conn_fd c' = conn_fd c)); [..|done|by split|done].
    + intros c1 c2 c3 [] []. split; congruence.
    + intros buf' c' _. eapply wp_mono; [apply conn_write_law|]. intros r c2 (?&?&?&?). by split_and!.
  - intros r c' (_ & [] & ? & ?). by split_and!.
Qed.
End std_io_lemmas.
