(* ===== verification/Sockets.v ===== *)
(** * Creating sockets: the standard library and socket2

    What the sources call to make streams and listeners: classes, without
    laws. *)

From S2P Require Import Prelude StdLib Resource.

(** [TcpStream::connect] and [TcpListener] of the standard library. *)
Class StdTcp (C : Type) := {
  SocketAddr : Type;
  stream_connect : SocketAddr → io_result C;
  TcpListener : Type;
  listener_bind : SocketAddr → io_result TcpListener;
  listener_set_nonblocking : bool → prog TcpListener io_error unit;
  listener_accept : prog TcpListener io_error (C * SocketAddr);
}.

(** [ToSocketAddrs]: what an address resolves to. *)
Class ToSocketAddrs (C : Type) `{StdTcp C} (A : Type) :=
  resolve : A → io_result (list SocketAddr).
#[export] Instance socket_addr_resolves `{StdTcp C} : ToSocketAddrs C SocketAddr :=
  λ addr, Ok [addr].

(** [TcpStream::connect] tries the addresses in turn and reports the last
    error. *)
Fixpoint each_addr `{StdTcp C} (last_err : option io_error) (addrs : list SocketAddr) :
    io_result C :=
  match addrs with
  | [] => Err (default (from_kind InvalidInput) last_err)
  | addr :: addrs =>
      match stream_connect addr with
      | Ok stream => Ok stream
      | Err e => each_addr (Some e) addrs
      end
  end.
Definition connect_to `{StdTcp C} `{!ToSocketAddrs C A} (addr : A) : io_result C :=
  addrs ← resolve addr; each_addr None addrs.

(** [socket2::Socket], for streams of type [C]. *)
Class Socket2 (C : Type) `{StdTcp C} (Sk : Type) := {
  addr_is_ipv4 : SocketAddr → bool;
  (** [Socket::new(domain, Type::STREAM, None)], for [Domain::IPV4] or not *)
  socket_new : bool → io_result Sk;
  socket_connect : SocketAddr → prog Sk io_error unit;
  socket_bind : SocketAddr → prog Sk io_error unit;
  (** [From<TcpStream>] and [Into<TcpStream>] *)
  socket_from : C → Sk;
  socket_into : Sk → C;
}.

(** [libc::EINPROGRESS] and [libc::EALREADY] on Linux *)
Definition EINPROGRESS : Z := 115.
Definition EALREADY : Z := 114.
