(* ===== verification/Connect.v ===== *)
(** * Connecting and binding: src/connection.rs, src/listener.rs, src/socks5.rs

    How [TcpStream] and [socket2::Socket] connect, with and without a proxy,
    how a socket2 listener is bound, and the SOCKS5 proxy, whose methods are
    not written yet. *)

From S2P Require Import Prelude StdLib Resource Net Sockets.

(** Hosts and addresses of the cyphernet crate: [host_ip] is the address of
    [HostName::Ip], [socket_addr] is [net::SocketAddr::new]. *)
Class Hosts (C : Type) `{StdTcp C} := {
  HostName : Type;
  IpAddr : Type;
  host_ip : HostName → option IpAddr;
  socket_addr : IpAddr → Z → SocketAddr;
}.

Section connect.
Context {C Sk : Type} `{NC : !NetConnection Sk} `{ST : !StdTcp C} `{SK : !Socket2 C Sk} `{HO : !Hosts C}.

Record NetAddr := { host : HostName; port : Z }.

(** [trait Proxy] *)
Class Proxy (P : Type) := {
  PError : Type;
  from_io : io_error → PError;
  proxy_connect_blocking : NetAddr → P → outcome (result PError C);
  proxy_connect_nonblocking : NetAddr → P → outcome (result PError C);
}.

Section proxied.
Context {P : Type} `{PX : !Proxy P}.

(** *** [TcpStream] *)
Definition tcp_connect_blocking (addr : NetAddr) (proxy : P) : outcome (result PError C) :=
  match host_ip (host addr) with
  | Some ip => Ret (map_err from_io (stream_connect (socket_addr ip (port addr))))
  | None => proxy_connect_blocking addr proxy
  end.

(** *** [socket2::Socket] *)
Definition socket_connect_blocking (addr : NetAddr) (proxy : P) : outcome (result PError Sk) :=
  stream ← match host_ip (host addr) with
           | Some ip => Ret (map_err from_io (stream_connect (socket_addr ip (port addr))))
           | None => proxy_connect_blocking addr proxy
           end;
  Ret (stream ← stream; Ok (socket_from stream)).

(** The [match] on the result of [connect]. *)
Definition connect_result (r : io_result unit) : result PError unit :=
  match r with
  | Ok _ => Ok tt
  | Err e =>
      if decide (raw_os_error e = Some EINPROGRESS) then Ok tt
      else if decide (raw_os_error e = Some EALREADY) then Err (from_io (from_kind AlreadyExists))
      else if decide (kind e = WouldBlock) then Ok tt
      else Err (from_io e)
  end.

Definition socket_connect_nonblocking (addr : NetAddr) (proxy : P) : outcome (result PError Sk) :=
  match host_ip (host addr) with
  | Some ip =>
      let addr := socket_addr ip (port addr) in
      match socket_new (addr_is_ipv4 addr) with
      | Err e => Ret (Err (from_io e))
      | Ok socket =>
          '(r, socket) ← (with_err from_io (conn_set_nonblocking true) ≫= λ _,
                          attempt (socket_connect addr) ≫= λ r,
                          of_result (connect_result r)) socket;
          Ret (_ ← r; Ok socket)
      end
  | None =>
      stream ← proxy_connect_blocking addr proxy;
      Ret (stream ← stream; Ok (socket_from stream))
  end.

Definition tcp_connect_nonblocking (addr : NetAddr) (proxy : P) : outcome (result PError C) :=
  socket ← socket_connect_nonblocking addr proxy;
  Ret (socket ← socket; Ok (socket_into socket)).
End proxied.

(** *** Listeners *)

(** [NetListener::bind] for a socket; [addrs] is what resolving the address
    gives. *)
Definition socket_listener_bind (addrs : io_result (list SocketAddr)) : outcome (io_result Sk) :=
  match (addrs ← addrs; ok_or (head addrs) (from_kind InvalidInput)) with
  | Err e => Ret (Err e)
  | Ok addr =>
      match socket_new (addr_is_ipv4 addr) with
      | Err e => Ret (Err e)
      | Ok socket =>
          '(r, socket) ← socket_bind addr socket;
          Ret (_ ← r; Ok socket)
      end
  end.

(** *** SOCKS5 *)

Record Socks5 := { socks5_proxy : SocketAddr }.

Definition socks5_new (addrs : io_result (list SocketAddr)) : io_result Socks5 :=
  addrs ← addrs;
  addr ← ok_or (head addrs) (from_kind InvalidInput);
  Ok {| socks5_proxy := addr |}.

(** [ToSocketAddrs for Socks5] *)
Definition to_socket_addrs (s : Socks5) : io_result (list SocketAddr) := Ok [socks5_proxy s].

(** [todo!()] *)
Definition socks5_connect (addr : NetAddr) (s : Socks5) : outcome (io_result C) :=
  Panic "not yet implemented".

#[export] Instance socks5 : Proxy Socks5 := {|
  PError := io_error;
  from_io e := e;
  proxy_connect_blocking := socks5_connect;
  proxy_connect_nonblocking := socks5_connect;
|}.

(** ** What connecting comes to *)

(** Connecting without blocking. To an IP address it does not depend on the
    proxy: the socket is made non-blocking before it connects, a connection in
    progress counts as connected, [EALREADY] as an address in use, and any
    other failure is the error. To a host by name it is the blocking call of
    the proxy, on both kinds of sockets, so it is no different from connecting
    with blocking; and the SOCKS5 proxy panics. *)
Theorem connect_nonblocking_cases {P} `{PX : !Proxy P} (addr : NetAddr) (p : P) :
  match host_ip (host addr) with
  | Some ip =>
      let to := socket_addr ip (port addr) in
      (∀ p', socket_connect_nonblocking addr p' = socket_connect_nonblocking addr p) ∧
      ∀ sk sk' r sk'', socket_new (addr_is_ipv4 to) = Ok sk →
        conn_set_nonblocking true sk = Ret (Ok tt, sk') →
        socket_connect to sk' = Ret (r, sk'') →
        socket_connect_nonblocking addr p = Ret
          (match r with
           | Ok _ => Ok sk''
           | Err e =>
               if decide (raw_os_error e = Some EALREADY) then Err (from_io (from_kind AlreadyExists))
               else if decide (raw_os_error e = Some EINPROGRESS ∨ kind e = WouldBlock) then Ok sk''
               else Err (from_io e)
           end)
  | None =>
      socket_connect_nonblocking addr p = socket_connect_blocking addr p ∧
      tcp_connect_nonblocking addr p =
        (s ← tcp_connect_blocking addr p; Ret (s ← s; Ok (socket_into (socket_from s)))) ∧
      ∀ s : Socks5, socket_connect_nonblocking addr s = Panic "not yet implemented"
  end.
Proof.
  unfold tcp_connect_nonblocking, socket_connect_nonblocking, socket_connect_blocking,
    tcp_connect_blocking. destruct (host_ip (host addr)) as [ip|].
  - split; [done|]. intros sk sk' r sk'' -> Hn Hc. unfold_prog. rewrite Hn, Hc. simpl.
    destruct r as [[]|e]; simpl; [done|]. unfold EINPROGRESS, EALREADY in *.
    repeat case_decide; simpl; try done; try (exfalso; naive_solver congruence); naive_solver.
  - split_and!; [done| |done]. unfold_prog.
    destruct (proxy_connect_blocking addr p) as [[s|e]| |]; done.
Qed.
End connect.
