(* ===== verification/NetStd.v ===== *)
(** * The sockets of the program: src/connection.rs, src/session.rs, src/listener.rs

    [TcpStream] and [socket2::Socket] as connections, sessions and listeners.
    Their own methods, which the implementations of the traits forward to, are
    classes. *)

From S2P Require Import Prelude StdLib Resource Net Sockets Connect.

#[local] Open Scope nat_scope.

(** The methods that [TcpStream] and [socket2::Socket] have in common; [Ad] is
    their type of addresses. A peek into a buffer of [n] bytes returns the bytes
    it found. *)
Class SocketApi (T Ad : Type) := {
  api_fd : T → Z;
  api_read : nat → prog T io_error (list byte);
  api_write : list byte → prog T io_error nat;
  api_flush : prog T io_error unit;
  api_shutdown : Shutdown → prog T io_error unit;
  api_peer_addr : T → io_result Ad;
  api_local_addr : T → io_result Ad;
  api_set_read_timeout : option Z → prog T io_error unit;
  api_set_write_timeout : option Z → prog T io_error unit;
  api_read_timeout : T → io_result (option Z);
  api_write_timeout : T → io_result (option Z);
  api_peek : nat → T → io_result (list byte);
  api_set_nodelay : bool → prog T io_error unit;
  api_nodelay : T → io_result bool;
  api_set_ttl : Z → prog T io_error unit;
  api_ttl : T → io_result Z;
  api_set_nonblocking : bool → prog T io_error unit;
  api_try_clone : T → io_result T;
  api_take_error : prog T io_error (option io_error);
}.
#[global] Hint Mode SocketApi ! - : typeclass_instances.

(** The methods of [NetConnection] that nothing in the program calls; a peek
    changes the buffer it is given. *)
Class NetOptions (T : Type) := {
  read_timeout : T → io_result (option Z);
  write_timeout : T → io_result (option Z);
  peek : list byte → T → outcome (io_result nat * list byte);
  set_nodelay : bool → prog T io_error unit;
  nodelay : T → io_result bool;
  set_ttl : Z → prog T io_error unit;
  ttl : T → io_result Z;
  take_error : prog T io_error (option io_error);
}.
#[global] Hint Mode NetOptions ! : typeclass_instances.

(** [Result::expect] *)
Definition expect_ok {A} (r : io_result A) (msg : string) : outcome A :=
  match r with Ok a => Ret a | Err _ => Panic msg end.

Section sockets.
Context {C Sk SockAddr : Type} `{ST : !StdTcp C} `{HO : !Hosts C} `{!EqDecision (HostName (C := C))}.
Context `{TA : !SocketApi C SocketAddr} `{SA : !SocketApi Sk SockAddr}.
(** [SockAddr::as_socket] and [From<SocketAddr> for NetAddr] *)
Context (as_socket : SockAddr → option SocketAddr) (net_addr : SocketAddr → NetAddr (C := C)).

#[export] Instance NetAddr_eq : EqDecision (NetAddr (C := C)).
Proof. solve_decision. Defined.

(** ** [NetConnection for TcpStream] *)

Definition tcp_remote_addr (s : C) : outcome NetAddr :=
  a ← expect_ok (api_peer_addr s) "TCP stream doesn't know remote peer address"; Ret (net_addr a).
Definition tcp_local_addr (s : C) : outcome NetAddr :=
  a ← expect_ok (api_local_addr s) "TCP stream doesn't has local address"; Ret (net_addr a).

Definition tcp_connection : NetConnection C := {|
  Addr := NetAddr;
  conn_fd := api_fd;
  conn_read := api_read;
  conn_write := api_write;
  conn_flush := api_flush;
  conn_shutdown := api_shutdown;
  conn_remote_addr := tcp_remote_addr;
  conn_local_addr := tcp_local_addr;
  conn_set_read_timeout := api_set_read_timeout;
  conn_set_write_timeout := api_set_write_timeout;
  conn_set_nonblocking := api_set_nonblocking;
  conn_try_clone := api_try_clone;
|}.

(** [TcpStream::peek] fills the buffer from its start. *)
Definition tcp_peek (buf : list byte) (s : C) : outcome (io_result nat * list byte) :=
  match api_peek (length buf) s with
  | Ok bs => Ret (Ok (length bs), bs ++ drop (length bs) buf)
  | Err e => Ret (Err e, buf)
  end.

Definition tcp_options : NetOptions C := {|
  read_timeout := api_read_timeout;
  write_timeout := api_write_timeout;
  peek := tcp_peek;
  set_nodelay := api_set_nodelay;
  nodelay := api_nodelay;
  set_ttl := api_set_ttl;
  ttl := api_ttl;
  take_error := api_take_error;
|}.

(** ** [NetConnection for socket2::Socket] *)

Definition socket_remote_addr (s : Sk) : outcome NetAddr :=
  a ← expect_ok (api_peer_addr s) "net stream must use only connections";
  a ← expect (as_socket a) "net stream must use only connections"; Ret (net_addr a).
Definition socket_local_addr (s : Sk) : outcome NetAddr :=
  a ← expect_ok (api_local_addr s) "net stream doesn't has local socket";
  a ← expect (as_socket a) "net stream doesn't has local socket"; Ret (net_addr a).

Definition socket_connection : NetConnection Sk := {|
  Addr := NetAddr;
  conn_fd := api_fd;
  conn_read := api_read;
  conn_write := api_write;
  conn_flush := api_flush;
  conn_shutdown := api_shutdown;
  conn_remote_addr := socket_remote_addr;
  conn_local_addr := socket_local_addr;
  conn_set_read_timeout := api_set_read_timeout;
  conn_set_write_timeout := api_set_write_timeout;
  conn_set_nonblocking := api_set_nonblocking;
  conn_try_clone := api_try_clone;
|}.

(** [for i in 0..len { buf[i] = buf2[i] }]; [bs] are the bytes of [buf2] from
    [i] to [len]. *)
Fixpoint copy_from (i : nat) (bs buf : list byte) : outcome (list byte) :=
  match bs with
  | [] => Ret buf
  | b :: bs =>
      if decide (i < length buf) then copy_from (S i) bs (<[i := b]> buf)
      else Panic "index out of bounds"
  end.

Definition socket_peek (buf : list byte) (s : Sk) : outcome (io_result nat * list byte) :=
  match api_peek (length buf) s with
  | Ok buf2 => buf ← copy_from 0 buf2 buf; Ret (Ok (length buf2), buf)
  | Err e => Ret (Err e, buf)
  end.

Definition socket_options : NetOptions Sk := {|
  read_timeout := api_read_timeout;
  write_timeout := api_write_timeout;
  peek := socket_peek;
  set_nodelay := api_set_nodelay;
  nodelay := api_nodelay;
  set_ttl := api_set_ttl;
  ttl := api_ttl;
  take_error := api_take_error;
|}.

(** ** [NetSession for socket2::Socket] *)

Definition socket_session : NetSession Sk := @PlainSession.session Sk socket_connection.

(** The methods of sessions that the resource and the tunnel do not call are
    the same for both kinds of sockets: [accept], [transient_addr], [peer_addr]
    and [local_addr]. *)
Definition session_accept {T} (connection : T) : io_result T := Ok connection.
Definition session_transient_addr {T} `{NetConnection T} (s : T) : outcome (Addr (C := T)) :=
  conn_remote_addr s.
Definition session_peer_addr {T} `{NetConnection T} (s : T) : outcome (option (Addr (C := T))) :=
  a ← conn_remote_addr s; Ret (Some a).
Definition session_local_addr {T} `{NetConnection T} (s : T) : outcome (Addr (C := T)) :=
  conn_local_addr s.
End sockets.

(** ** Peeking *)

Lemma copy_from_eq pre bs rest buf :
  length rest = length bs → buf = pre ++ rest →
  ∀ tail, copy_from (length pre) bs (buf ++ tail) = Ret (pre ++ bs ++ tail).
Proof.
  revert pre rest buf. induction bs as [|b bs IH]; intros pre rest buf Hl -> tail.
  { destruct rest; [|done]. simpl. by rewrite app_nil_r. }
  destruct rest as [|r rest]; [done|]. simpl. rewrite <-app_assoc. simpl.
  rewrite decide_True by (rewrite length_app; simpl; lia).
  rewrite insert_app_r_alt by lia. rewrite Nat.sub_diag. simpl.
  specialize (IH (pre ++ [b]) rest ((pre ++ [b]) ++ rest) ltac:(simpl in Hl; lia) eq_refl tail).
  rewrite length_app in IH. simpl in IH. rewrite Nat.add_1_r in IH.
  rewrite <-!app_assoc in IH. simpl in IH. exact IH.
Qed.

(** The loop of [socket2::Socket] copies what [TcpStream] has the system write:
    both kinds of sockets fill a buffer alike. *)
Lemma socket_peek_fills {Sk Ad} `{!SocketApi Sk Ad} (buf : list byte) (s : Sk) :
  (∀ bs, api_peek (length buf) s = Ok bs → length bs ≤ length buf) →
  socket_peek buf s =
    match api_peek (length buf) s with
    | Ok bs => Ret (Ok (length bs), bs ++ drop (length bs) buf)
    | Err e => Ret (Err e, buf)
    end.
Proof.
  intros Hl. unfold socket_peek. destruct (api_peek (length buf) s) as [bs|e]; [|done].
  specialize (Hl bs eq_refl).
  pose proof (copy_from_eq [] bs (take (length bs) buf) (take (length bs) buf)
    ltac:(rewrite length_take; lia) eq_refl (drop (length bs) buf)) as E.
  rewrite take_drop in E. simpl in E. by rewrite E.
Qed.

(** ** Listeners *)

(** The methods that [TcpListener] and [socket2::Socket] have in common besides
    binding. *)
Class ListenerApi (T Ad Stream : Type) := {
  li_accept : prog T io_error (Stream * Ad);
  li_local_addr : T → io_result Ad;
  li_ttl : T → io_result Z;
  li_set_ttl : Z → prog T io_error unit;
  li_set_nonblocking : bool → prog T io_error unit;
  li_try_clone : T → io_result T;
  li_take_error : prog T io_error (option io_error);
}.
#[global] Hint Mode ListenerApi ! - - : typeclass_instances.

(** [NetListener], whole. [Ad] is [SocketAddr]. *)
Class Listens (T Stream Ad : Type) := {
  accept : prog T io_error Stream;
  local_addr : T → outcome Ad;
  listener_ttl : T → io_result Z;
  listener_set_ttl : Z → prog T io_error unit;
  listener_set_nonblocking : bool → prog T io_error unit;
  listener_try_clone : T → io_result T;
  listener_take_error : prog T io_error (option io_error);
}.
#[global] Hint Mode Listens ! - - : typeclass_instances.

Section listeners.
Context {C Sk SockAddr : Type} `{ST : !StdTcp C}.
Context `{LA : !ListenerApi TcpListener SocketAddr C} `{LS : !ListenerApi Sk SockAddr Sk}.
Context (as_socket : SockAddr → option SocketAddr).

(** [TcpListener::bind] tries the addresses in turn, like [connect]. *)
Fixpoint bind_each (last_err : option io_error) (addrs : list SocketAddr) : io_result TcpListener :=
  match addrs with
  | [] => Err (default (from_kind InvalidInput) last_err)
  | addr :: addrs =>
      match listener_bind addr with
      | Ok l => Ok l
      | Err e => bind_each (Some e) addrs
      end
  end.

(** [addrs] is what the address resolves to. *)
Definition tcp_listener_bind (addrs : io_result (list SocketAddr)) : io_result TcpListener :=
  addrs ← addrs; bind_each None addrs.

Definition tcp_listener : Listens TcpListener C SocketAddr := {|
  accept := li_accept ≫= λ '(stream, _), mret stream;
  local_addr l := expect_ok (li_local_addr l) "TCP listener doesn't have local address";
  listener_ttl := li_ttl;
  listener_set_ttl := li_set_ttl;
  listener_set_nonblocking := li_set_nonblocking;
  listener_try_clone := li_try_clone;
  listener_take_error := li_take_error;
|}.

Definition socket_listener_local_addr (l : Sk) : outcome SocketAddr :=
  a ← expect_ok (li_local_addr l) "TCP listener doesn't have local address";
  expect (as_socket a) "TCP listener doesn't has local socket".

Definition socket_listener : Listens Sk Sk SocketAddr := {|
  accept := li_accept ≫= λ '(stream, _), mret stream;
  local_addr := socket_listener_local_addr;
  listener_ttl := li_ttl;
  listener_set_ttl := li_set_ttl;
  listener_set_nonblocking := li_set_nonblocking;
  listener_try_clone := li_try_clone;
  listener_take_error := li_take_error;
|}.
End listeners.

(** ** A socket2 listener never accepts *)

(** [listen(2)] and [accept(2)]: a new socket is not listening, binding it and
    setting its options does not change that, and accepting on a socket that
    is not listening fails. *)
Class ListenLaws (C Sk SockAddr : Type) `{ST : StdTcp C} `{SK : !Socket2 C Sk}
    `{LS : !ListenerApi Sk SockAddr Sk} := {
  listening : Sk → Prop;
  socket_new_deaf v4 s : socket_new (C := C) v4 = Ok s → ¬ listening s;
  socket_bind_deaf addr (s : Sk) :
    ¬ listening s → wp (socket_bind (C := C) addr) (λ _ s', ¬ listening s') s;
  li_accept_deaf (s : Sk) :
    ¬ listening s → wp li_accept (λ r s', is_ok r = false ∧ ¬ listening s') s;
  li_set_ttl_deaf n (s : Sk) : ¬ listening s → wp (li_set_ttl n) (λ _ s', ¬ listening s') s;
  li_set_nonblocking_deaf b (s : Sk) :
    ¬ listening s → wp (li_set_nonblocking b) (λ _ s', ¬ listening s') s;
  li_take_error_deaf (s : Sk) : ¬ listening s → wp li_take_error (λ _ s', ¬ listening s') s;
}.

Section never_accepts.
Context {C Sk SockAddr : Type} `{ST : !StdTcp C} `{SK : !Socket2 C Sk}.
Context `{LS : !ListenerApi Sk SockAddr Sk} `{LL : !ListenLaws C Sk SockAddr}.
Context (as_socket : SockAddr → option SocketAddr).
#[local] Instance SLi : Listens Sk Sk SocketAddr := socket_listener as_socket.

(** The calls of [NetListener] that change the socket. *)
Inductive ListenOp := OpAccept | OpSetTtl (n : Z) | OpSetNonblocking (b : bool) | OpTakeError.

(** The connection that a call yields. *)
Definition listen_op (op : ListenOp) : prog Sk io_error (option Sk) :=
  match op with
  | OpAccept => accept ≫= λ s, mret (Some s)
  | OpSetTtl n => listener_set_ttl n ≫= λ _, mret None
  | OpSetNonblocking b => listener_set_nonblocking b ≫= λ _, mret None
  | OpTakeError => listener_take_error ≫= λ _, mret None
  end.

Fixpoint listen_ops (ops : list ListenOp) : prog Sk io_error (list (io_result (option Sk))) :=
  match ops with
  | [] => mret []
  | op :: ops => attempt (listen_op op) ≫= λ r, listen_ops ops ≫= λ rs, mret (r :: rs)
  end.

Lemma listen_op_deaf op (s : Sk) :
  ¬ listening s →
  wp (listen_op op) (λ r s', ¬ listening s' ∧ (∀ x, r = Ok x → x = None) ∧
    (op = OpAccept → is_ok r = false)) s.
Proof.
  intros Hs. destruct op; simpl; wp_steps.
  - eapply wp_mono; [by apply li_accept_deaf|]. by intros [[]|e] s' [? ?].
  - eapply wp_mono; [by apply li_set_ttl_deaf|]. intros [[]|e] s' ?; wp_steps; naive_solver.
  - eapply wp_mono; [by apply li_set_nonblocking_deaf|]. intros [[]|e] s' ?; wp_steps; naive_solver.
  - eapply wp_mono; [by apply li_take_error_deaf|]. intros [?|e] s' ?; wp_steps; naive_solver.
Qed.

(** C25. A listener made of a socket2 socket never accepts a connection: it is
    bound but nothing calls [listen], so whatever is done with it, in any order
    and however often, every [accept] is an error. *)
Theorem socket_listener_never_accepts addrs s ops :
  socket_listener_bind addrs = Ret (Ok s) →
  ∃ rs s', listen_ops ops s = Ret (Ok rs, s') ∧ length rs = length ops ∧
    (∀ x, Ok (Some x) ∉ rs) ∧
    ∀ i, ops !! i = Some OpAccept → ∃ e, rs !! i = Some (Err e).
Proof.
  intros Hb. assert (¬ listening s) as Hs.
  { revert Hb. unfold socket_listener_bind.
    destruct (addrs ← addrs; _) as [addr|e]; [|done].
    destruct (socket_new (addr_is_ipv4 addr)) as [s0|e] eqn:En; [|done].
    pose proof (socket_bind_deaf addr s0 (socket_new_deaf _ _ En)) as Hw. unfold wp in Hw.
    destruct (socket_bind addr s0) as [[[[]|e] s1]| |]; simpl; intros; simplify_eq. done. }
  clear Hb. revert s Hs. induction ops as [|op ops IH]; intros s Hs; simpl.
  { exists [], s. split_and!; [done|done|by intros x ?%elem_of_nil|]. by intros i. }
  pose proof (listen_op_deaf op s Hs) as Hw. unfold wp in Hw. unfold_prog.
  destruct (listen_op op s) as [[r s1]| |]; [|done..]. destruct Hw as (Hs1 & Hr & Ha). simpl.
  destruct (IH s1 Hs1) as (rs & s2 & E & Hl & Hn & Hacc). rewrite E. exists (r :: rs), s2.
  split_and!; [done|simpl; lia|..].
  - intros x [<-|Hin]%elem_of_cons; [by specialize (Hr _ eq_refl)|by apply (Hn x)].
  - intros [|i] Hi; simpl in *; [|by apply Hacc]. simplify_eq. specialize (Ha eq_refl).
    destruct r as [?|e]; [done|by exists e].
Qed.
End never_accepts.

(** ** A run *)

Module ToySocket.
(** A socket that may listen, and has connections waiting then. *)
Record t := { listens : bool; bound : option Z; backlog : nat }.

#[export] Instance std : StdTcp unit := {
  SocketAddr := Z;
  stream_connect _ := Ok tt;
  TcpListener := unit;
  listener_bind _ := Ok tt;
  Sockets.listener_set_nonblocking _ := mret tt;
  listener_accept := throw (from_kind WouldBlock);
}.

(** Converting a stream gives a socket that listens, for contrast. *)
#[export] Instance socket2 : Socket2 unit t := {
  addr_is_ipv4 _ := true;
  socket_new _ := Ok {| listens := false; bound := None; backlog := 2 |};
  socket_connect _ := mret tt;
  socket_bind addr := modify (λ s, {| listens := listens s; bound := Some addr; backlog := backlog s |});
  socket_from _ := {| listens := true; bound := None; backlog := 2 |};
  socket_into _ := tt;
}.

Definition accept_one : prog t io_error (t * Z) := λ s,
  if listens s then
    match backlog s with
    | O => Ret (Err (from_kind WouldBlock), s)
    | S n => Ret (Ok ({| listens := false; bound := None; backlog := 0 |}, 9%Z),
                  {| listens := true; bound := bound s; backlog := n |})
    end
  else Ret (Err (from_kind InvalidInput), s).

#[export] Instance api : ListenerApi t Z t := {
  li_accept := accept_one;
  li_local_addr s := ok_or (bound s) (from_kind InvalidInput);
  li_ttl _ := Ok 64%Z;
  li_set_ttl _ := mret tt;
  li_set_nonblocking _ := mret tt;
  li_try_clone s := Ok s;
  li_take_error := mret None;
}.

#[export] Instance laws : ListenLaws unit t Z.
Proof.
  refine {| listening := λ s, listens s = true |}; simpl; try (intros; by apply wp_ret).
  - by intros _ s [= <-].
  - intros s Hs. unfold wp, accept_one. by destruct (listens s) eqn:E; [|rewrite E].
Defined.
End ToySocket.

Section witness.
Import ToySocket.

Definition port80 : io_result (list (SocketAddr (C := unit))) := Ok [80%Z].

Lemma socket_listener_never_accepts_witness :
  ∃ s rs s', socket_listener_bind (C := unit) (Sk := t) port80 = Ret (Ok s) ∧
    listen_ops Some [OpAccept; OpSetNonblocking true; OpAccept] s = Ret (Ok rs, s') ∧
    (∀ x, Ok (Some x) ∉ rs).
Proof.
  eexists.
  edestruct (socket_listener_never_accepts (C := unit) (Sk := t) Some port80)
    with (ops := [OpAccept; OpSetNonblocking true; OpAccept]) as (rs & s' & E & _ & Hn & _); [reflexivity|].
  exists rs, s'. split; [reflexivity|]. split; [exact E|exact Hn].
Defined.

(** The same calls on a socket that listens. *)
Example listening_accepts :
  match accept_one (socket_from tt) with Ret (r, _) => is_ok r | _ => false end = true.
Proof. done. Qed.
End witness.
