(* ===== verification/Auth.v ===== *)
(** * Authentication: src/auth.rs

    The keys and signatures are those of the cyphernet crate: the class
    [Ed25519] has the operations the code calls. *)

From S2P Require Import Prelude StdLib Resource Net.

(** [try_from] accepts a 32-byte slice that encodes a key; a signature is any
    64 bytes. *)
Class Ed25519 := {
  PublicKey : Type;
  PublicKey_eq :: EqDecision PublicKey;
  pk_as_slice : PublicKey → list byte;
  pk_try_from : list byte → option PublicKey;
  (** [pubkey.verify(message, sig)] *)
  pk_verify : PublicKey → list byte → list byte → bool;
}.

(** Keys are 32 bytes long and read back. *)
Class Ed25519Laws `{Ed25519} : Prop := {
  pk_length pk : length (pk_as_slice pk) = 32;
  pk_try_from_slice pk : pk_try_from (pk_as_slice pk) = Some pk;
}.

Section auth.
Context `{Ed25519} {C : Type} `{NetConnection C}.

Record Authenticator := {
  sent : bool;
  pubkey : PublicKey;
  signature : list byte;
  remote_id : option PublicKey;
}.

Definition new (pk : PublicKey) (sig : list byte) : Authenticator :=
  {| sent := false; pubkey := pk; signature := sig; remote_id := None |}.

Definition set_sent (b : bool) (a : Authenticator) : Authenticator :=
  {| sent := b; pubkey := pubkey a; signature := signature a; remote_id := remote_id a |}.
Definition set_remote_id (id : option PublicKey) (a : Authenticator) : Authenticator :=
  {| sent := sent a; pubkey := pubkey a; signature := signature a; remote_id := id |}.

Definition is_auth_sent (a : Authenticator) : bool := sent a.
Definition is_auth_complete (a : Authenticator) : bool := bool_decide (is_Some (remote_id a)).

(** Calls on the stream, next to the authenticator's own fields. *)
Definition on_stream {A} (m : prog C io_error A) : prog (Authenticator * C) io_error A :=
  zoom snd (λ c s, (s.1, c)) m.
Definition on_auth (f : Authenticator → Authenticator) :
    prog (Authenticator * C) io_error unit := modify (λ s, (f s.1, s.2)).

Definition certify (fuel : nat) : prog (Authenticator * C) io_error unit :=
  gets fst ≫= λ a,
  on_stream (write_all fuel (pk_as_slice (pubkey a))) ≫= λ _,
  on_stream (write_all fuel (signature a)) ≫= λ _,
  on_auth (set_sent true).

Definition verify (debug : bool) (fuel : nat) :
    prog (Authenticator * C) io_error (option PublicKey) :=
  on_stream (read_exact fuel 32) ≫= λ key,
  debug_assert debug (λ s, negb (is_auth_complete s.1)) "remote id is known" ≫= λ _,
  of_outcome (expect (pk_try_from key) "fixed-length key") ≫= λ pk,
  on_stream (read_exact fuel 64) ≫= λ sig,
  if negb (pk_verify pk (pk_as_slice pk) sig) then mret None
  else on_auth (set_remote_id (Some pk)) ≫= λ _,
       gets (λ s, remote_id s.1).
End auth.

(** ** Properties *)

Section properties.
Context `{E : Ed25519} {C : Type} `{CL : ConnectionLaws C}.

(** What a correct peer puts on the wire. *)
Definition credentials (pk : PublicKey) (sig : list byte) : list byte := pk_as_slice pk ++ sig.

Lemma certify_ok fuel (a : Authenticator) (c : C) :
  length (pk_as_slice (pubkey a)) + length (signature a) + patience c ≤ fuel →
  wp (certify fuel) (λ r s, conn_in s.2 = conn_in c ∧ conn_fd s.2 = conn_fd c ∧
    match r with
    | Ok _ => s.1 = set_sent true a ∧
              conn_out s.2 = conn_out c ++ credentials (pubkey a) (signature a)
    | Err _ => s.1 = a
    end) (a, c).
Proof.
  intros Hf. unfold certify, on_stream, on_auth. wp_steps. apply wp_zoom. simpl.
  eapply wp_mono; [apply write_all_ok; lia|]. intros [[]|e] c1 (Hi & Hfd & Hp & Ho); simpl; [|done].
  wp_steps. apply wp_zoom. simpl.
  eapply wp_mono; [apply write_all_ok; lia|]. intros [[]|e] c2 (Hi2 & Hfd2 & Hp2 & Ho2); simpl.
  - wp_steps. split_and!; [congruence..|done|]. by rewrite Ho2, Ho, <-app_assoc.
  - split_and!; congruence.
Qed.

(** C31. A peer that certifies itself with a valid signature is recognised:
    when its credentials are what the other side reads next, [verify] either
    meets an I/O error, and records nobody, or takes exactly the credentials
    off the stream and records the peer's key. With an invalid signature it
    records nobody. *)
Theorem verify_credentials `{!Ed25519Laws} debug fuel pk sig rest (a : Authenticator) (c : C) :
  length sig = 64 → conn_in c = credentials pk sig ++ rest → remote_id a = None →
  96 + patience c ≤ fuel →
  wp (verify debug fuel) (λ r s,
    match r with
    | Ok o => conn_in s.2 = rest ∧ remote_id s.1 = o ∧
              o = if pk_verify pk (pk_as_slice pk) sig then Some pk else None
    | Err _ => remote_id s.1 = None
    end) (a, c).
Proof.
  intros Hsig Hin Hnone Hf. unfold verify, on_stream, on_auth. wp_steps. apply wp_zoom. simpl.
  eapply wp_mono; [apply read_exact_ok; lia|]. intros [key|e] c1 (_ & _ & Hp & Hr); simpl; [|done].
  destruct Hr as [Hlen Hr]. rewrite Hin in Hr. unfold credentials in Hr. rewrite <-app_assoc in Hr.
  apply app_inj_1 in Hr as [<- Hin1]; [|by rewrite pk_length].
  wp_steps. unfold debug_assert, wp at 1. simpl. unfold is_auth_complete. rewrite Hnone.
  rewrite bool_decide_false by (by intros [? ?]). rewrite andb_false_r. simpl. wp_steps.
  rewrite pk_try_from_slice. simpl. wp_steps. apply wp_zoom. simpl.
  eapply wp_mono; [apply read_exact_ok; lia|]. intros [sg|e] c2 (_ & _ & Hp2 & Hr2); simpl; [|done].
  destruct Hr2 as [Hlen2 Hr2]. rewrite <-Hin1 in Hr2.
  apply app_inj_1 in Hr2 as [<- Hin2]; [|congruence].
  destruct (pk_verify pk (pk_as_slice pk) sig); simpl; wp_steps; auto.
Qed.
End properties.

(** ** A concrete instance *)

Module ToyKeys.
(** Keys are numbers, encoded in unary over 32 bytes; a signature is valid when
    it starts with the key's encoding. *)
Definition encode (n : nat) : list byte :=
  take 32 (replicate n Byte.x01) ++ replicate (32 - n) Byte.x00.

Definition keys : Ed25519 := {|
  PublicKey := bool;
  pk_as_slice b := encode (if b then 32 else 0);
  pk_try_from bs := if decide (bs = encode 32) then Some true
                    else if decide (bs = encode 0) then Some false else None;
  pk_verify b msg sig := bool_decide (take 32 sig = msg);
|}.

#[global] Instance keys_laws : @Ed25519Laws keys.
Proof. split; by intros []. Qed.

Definition signed (b : bool) : list byte := encode (if b then 32 else 0) ++ encode 0.
End ToyKeys.

Lemma verify_credentials_witness :
  let c := {| Script.fd := 3; Script.peer := 9;
              Script.reads := [Script.ReadFails Interrupted;
                               Script.Arrive (ToyKeys.encode 32 ++ ToyKeys.signed true);
                               Script.Arrive [Byte.xff]];
              Script.writes := []; Script.out := [] |} in
  wp (@verify ToyKeys.keys _ _ true 200) (λ r s,
    match r with
    | Ok o => conn_in s.2 = [Byte.xff] ∧ remote_id s.1 = o ∧
              o = if @pk_verify ToyKeys.keys true (ToyKeys.encode 32) (ToyKeys.signed true)
                  then Some true else None
    | Err _ => remote_id s.1 = None
    end) (@new ToyKeys.keys false [], c).
Proof.
  apply (@verify_credentials ToyKeys.keys _ _ _ _ true 200 true (ToyKeys.signed true) [Byte.xff]);
    [reflexivity|reflexivity|reflexivity|simpl; lia].
Defined.
