(* ===== verification/Noise.v ===== *)
(** * Noise XK sessions: src/noise.rs

    The Noise transcoder and the x25519 keys are those of the cyphernet crate:
    the class [NoiseLib] has the operations the code calls. *)

From stdpp Require Import relations.
From S2P Require Import Prelude StdLib Resource Net Auth.

(** [advance_handshake] may fail, and may give an act to send. *)
Class NoiseLib `{Ed25519} := {
  SecretKey : Type;
  EcdhKey : Type;
  EcdhPublic : Type;
  (** [x25519::SecretKey::from_ed25519], [x25519::PublicKey::from_ed25519] *)
  ecdh_from_ed25519 : SecretKey → option EcdhKey;
  ecdh_public_from_ed25519 : PublicKey → option EcdhPublic;
  Transcoder : Type;
  Encryptor : Type;
  Decryptor : Type;
  with_xk_responder : EcdhKey → Transcoder;
  with_xk_initiator : EcdhKey → EcdhPublic → Transcoder;
  is_handshake_complete : Transcoder → bool;
  next_handshake_len : Transcoder → nat;
  advance_handshake : list byte → Transcoder → result unit (option (list byte)) * Transcoder;
  try_into_split : Transcoder → result Transcoder (Encryptor * Decryptor);
  with_split : Encryptor → Decryptor → Transcoder;
}.

(** ** Addresses *)

Section addr.
Context {Id A : Type}.

(** [PeerAddr] of cyphernet: an identity and a network address. *)
Record PeerAddr := { peer_addr_id : Id; peer_addr_addr : A }.

Inductive XkAddr :=
| Partial (addr : A)
| Full (addr : PeerAddr).

Definition upgrade (id : Id) (self : XkAddr) : bool * XkAddr :=
  match self with
  | Partial addr => (true, Full {| peer_addr_id := id; peer_addr_addr := addr |})
  | Full _ => (false, self)
  end.

Definition as_addr (self : XkAddr) : A :=
  match self with
  | Partial a => a
  | Full a => peer_addr_addr a
  end.

Definition peer_id (self : XkAddr) : option Id :=
  match self with
  | Partial _ => None
  | Full addr => Some (peer_addr_id addr)
  end.

Definition expect_peer_id (self : XkAddr) : outcome Id :=
  match self with
  | Partial _ => Panic "handshake is not complete"
  | Full addr => Ret (peer_addr_id addr)
  end.

Definition expect_peer_addr (self : XkAddr) : outcome PeerAddr :=
  match self with
  | Partial _ => Panic "handshake is not complete"
  | Full addr => Ret addr
  end.
End addr.
Arguments PeerAddr : clear implicits.
Arguments XkAddr : clear implicits.

#[global] Instance PeerAddr_eq_dec {Id A} `{EqDecision Id, EqDecision A} : EqDecision (PeerAddr Id A).
Proof. solve_decision. Defined.

(** ** Sessions *)

Section noise.
Context `{NL : NoiseLib} {C : Type} `{NC : NetConnection C}.
(** Whether [debug_assertions] are on, and the fuel of the loops on the socket. *)
Context (debug : bool) (fuel : nat).

Record NoiseXk := {
  remote_addr : XkAddr PublicKey (Addr (C := C));
  connection : C;
  transcoder : Transcoder;
  authenticator : Authenticator;
}.

Definition set_remote_addr (x : XkAddr PublicKey (Addr (C := C))) (s : NoiseXk) : NoiseXk :=
  {| remote_addr := x; connection := connection s; transcoder := transcoder s;
     authenticator := authenticator s |}.
Definition set_connection (x : C) (s : NoiseXk) : NoiseXk :=
  {| remote_addr := remote_addr s; connection := x; transcoder := transcoder s;
     authenticator := authenticator s |}.
Definition set_transcoder (x : Transcoder) (s : NoiseXk) : NoiseXk :=
  {| remote_addr := remote_addr s; connection := connection s; transcoder := x;
     authenticator := authenticator s |}.
Definition set_auth (x : Authenticator * C) (s : NoiseXk) : NoiseXk :=
  {| remote_addr := remote_addr s; connection := x.2; transcoder := transcoder s;
     authenticator := x.1 |}.

(** Calls on [self.connection], and on [self.authenticator] with it. *)
Definition on_connection {A} (m : prog C io_error A) : prog NoiseXk io_error A :=
  zoom connection set_connection m.
Definition on_authenticator {A} (m : prog (Authenticator * C) io_error A) :
    prog NoiseXk io_error A :=
  zoom (λ s, (authenticator s, connection s)) set_auth m.

(** [self.transcoder.advance_handshake(input).map_err(..)] *)
Definition advance (input : list byte) : prog NoiseXk io_error (option (list byte)) := λ s,
  let '(r, t) := advance_handshake input (transcoder s) in
  Ret (map_err (λ _, from_kind ConnectionAborted) r, set_transcoder t s).

(** [if let Some(act) = act { self.connection.write_all(&act)?; }] *)
Definition send_act (act : option (list byte)) : prog NoiseXk io_error unit :=
  match act with
  | Some act => on_connection (write_all fuel act)
  | None => mret tt
  end.

(** [impl Read for NoiseXk]. While the session is being established a read
    returns no bytes. *)
Definition read (n : nat) : prog NoiseXk io_error (list byte) :=
  gets id ≫= λ self,
  if negb (is_handshake_complete (transcoder self)) then
    on_connection (read_exact fuel (next_handshake_len (transcoder self))) ≫= λ input,
    advance input ≫= λ act,
    send_act act ≫= λ _, mret []
  else if negb (is_auth_complete (authenticator self)) then
    on_authenticator (verify debug fuel) ≫= λ verified,
    gets (λ s, peer_id (remote_addr s)) ≫= λ peer,
    match verified, peer with
    | None, _ => throw (from_kind InvalidInput)
    | Some remote, Some peer =>
        if decide (remote ≠ peer) then throw (from_kind ConnectionReset)
        else modify (λ s, set_remote_addr (upgrade remote (remote_addr s)).2 s) ≫= λ _, mret []
    | Some remote, None =>
        modify (λ s, set_remote_addr (upgrade remote (remote_addr s)).2 s) ≫= λ _, mret []
    end
  else on_connection (conn_read n).

(** [impl Write for NoiseXk] *)
Definition write (buf : list byte) : prog NoiseXk io_error nat :=
  gets id ≫= λ self,
  if negb (is_handshake_complete (transcoder self)) then
    advance [] ≫= λ act,
    send_act act ≫= λ _, throw (from_kind Interrupted)
  else if negb (is_auth_sent (authenticator self)) then
    on_authenticator (certify fuel) ≫= λ _, throw (from_kind Interrupted)
  else on_connection (conn_write buf).

Definition flush : prog NoiseXk io_error unit := on_connection conn_flush.

Definition noise_session_id (self : NoiseXk) : option PublicKey :=
  match remote_addr self with
  | Partial _ => None
  | Full a => Some (peer_addr_id a)
  end.

Definition noise_established (self : NoiseXk) : bool :=
  is_handshake_complete (transcoder self) && is_auth_complete (authenticator self).

Definition noise_peer_addr (self : NoiseXk) : option (PeerAddr PublicKey (Addr (C := C))) :=
  match remote_addr self with
  | Partial _ => None
  | Full a => Some a
  end.

#[export] Instance noise_session : NetSession NoiseXk := {|
  SessionId := PublicKey;
  sess_fd s := conn_fd (connection s);
  sess_read := read;
  sess_write := write;
  sess_flush := flush;
  session_id := noise_session_id;
  is_session_established := noise_established;
  sess_set_read_timeout dur := on_connection (conn_set_read_timeout dur);
  sess_set_write_timeout dur := on_connection (conn_set_write_timeout dur);
  sess_set_nonblocking b := on_connection (conn_set_nonblocking b);
  sess_disconnect := on_connection (conn_shutdown ShutBoth);
|}.

(** *** Creation *)

Definition accept (conn : C) (key : SecretKey) (auth : Authenticator) : outcome NoiseXk :=
  ecdh ← expect (ecdh_from_ed25519 key) "invalid local node key";
  addr ← conn_remote_addr conn;
  Ret {| authenticator := auth; remote_addr := Partial addr; connection := conn;
         transcoder := with_xk_responder ecdh |}.

(** [connect] is [S::connect_nonblocking(peer_addr.addr().clone(), proxy)]. *)
Definition connect_nonblocking (addr : PeerAddr PublicKey (Addr (C := C))) (key : SecretKey)
    (auth : Authenticator) (connect : Addr (C := C) → io_result C) : outcome (io_result NoiseXk) :=
  ecdh ← expect (ecdh_from_ed25519 key) "invalid local node key";
  match ecdh_public_from_ed25519 (peer_addr_id addr) with
  | None => Ret (Err (from_kind InvalidInput))
  | Some remote_key =>
      match connect (peer_addr_addr addr) with
      | Err e => Ret (Err e)
      | Ok socket => Ret (Ok {| authenticator := auth; remote_addr := Full addr;
                                connection := socket;
                                transcoder := with_xk_initiator ecdh remote_key |})
      end
  end.

(** The handshake loop of [connect_blocking]. *)
Fixpoint handshake_loop (rounds : nat) (input : list byte) : prog NoiseXk io_error unit := λ s,
  if is_handshake_complete (transcoder s) then Ret (Ok tt, s) else
  match rounds with
  | O => Hang
  | S rounds =>
      (advance input ≫= λ act,
       send_act act ≫= λ _,
       gets transcoder ≫= λ t,
       (if is_handshake_complete t then mret input
        else on_connection (read_exact fuel (next_handshake_len t))) ≫= λ input,
       handshake_loop rounds input) s
  end.

(** The authentication loop of [connect_blocking]. *)
Fixpoint auth_loop (rounds : nat) (peer : PublicKey) : prog NoiseXk io_error unit := λ s,
  if is_auth_complete (authenticator s) then Ret (Ok tt, s) else
  match rounds with
  | O => Hang
  | S rounds =>
      (on_authenticator (certify fuel) ≫= λ _,
       on_authenticator (verify debug fuel) ≫= λ verified,
       match verified with
       | None => panic "explicit panic"
       | Some id => if decide (id ≠ peer) then panic "explicit panic" else auth_loop rounds peer
       end) s
  end.

Definition connect_blocking (rounds : nat) (addr : PeerAddr PublicKey (Addr (C := C))) (key : SecretKey)
    (auth : Authenticator) (connect : Addr (C := C) → io_result C) : outcome (io_result NoiseXk) :=
  ecdh ← expect (ecdh_from_ed25519 key) "invalid local node key";
  match ecdh_public_from_ed25519 (peer_addr_id addr) with
  | None => Ret (Err (from_kind InvalidInput))
  | Some remote_key =>
      match connect (peer_addr_addr addr) with
      | Err e => Ret (Err e)
      | Ok conn =>
          let self := {| authenticator := auth; remote_addr := Full addr; connection := conn;
                         transcoder := with_xk_initiator ecdh remote_key |} in
          '(r, self) ← (handshake_loop rounds [] ≫= λ _, auth_loop rounds (peer_addr_id addr)) self;
          Ret (match r with Ok _ => Ok self | Err e => Err e end)
      end
  end.

(** *** Splitting *)

Context `{SC : !SplitIo C}.

Record NoiseXkReader := {
  reader_addr : PeerAddr PublicKey (Addr (C := C));
  reader : SplitRead (T := C);
  decryptor : Decryptor;
}.

Record NoiseXkWriter := {
  writer_addr : PeerAddr PublicKey (Addr (C := C));
  writer : SplitWrite (T := C);
  encryptor : Encryptor;
  writer_auth : Authenticator;
}.

Definition noise_split (self : NoiseXk) :
    outcome (result (NoiseXk * io_error) (NoiseXkReader * NoiseXkWriter)) :=
  if negb (is_handshake_complete (transcoder self)) then
    Ret (Err (self, from_kind NotConnected))
  else
    addr ← expect_peer_addr (remote_addr self);
    halves ← split_io (connection self);
    match halves with
    | Err (original, error) => Ret (Err (set_connection original self, error))
    | Ok (rd, wr) =>
        match try_into_split (transcoder self) with
        | Err t =>
            conn ← from_split_io rd wr;
            Ret (Err (set_connection conn (set_transcoder t self), from_kind NotConnected))
        | Ok (enc, dec) =>
            Ret (Ok ({| reader_addr := addr; reader := rd; decryptor := dec |},
                     {| writer_addr := addr; writer := wr; encryptor := enc;
                        writer_auth := authenticator self |}))
        end
    end.

Definition noise_from_split (rd : NoiseXkReader) (wr : NoiseXkWriter) : outcome NoiseXk :=
  if decide (reader_addr rd ≠ writer_addr wr) then Panic "merging unrelated objects"
  else conn ← from_split_io (reader rd) (writer wr);
       Ret {| remote_addr := Full (writer_addr wr);
              transcoder := with_split (encryptor wr) (decryptor rd);
              connection := conn; authenticator := writer_auth wr |}.

(** [impl Read for NoiseXkReader], [impl Write for NoiseXkWriter] *)
Definition set_reader (x : SplitRead (T := C)) (s : NoiseXkReader) : NoiseXkReader :=
  {| reader_addr := reader_addr s; reader := x; decryptor := decryptor s |}.
Definition set_writer (x : SplitWrite (T := C)) (s : NoiseXkWriter) : NoiseXkWriter :=
  {| writer_addr := writer_addr s; writer := x; encryptor := encryptor s;
     writer_auth := writer_auth s |}.
Definition reader_read (n : nat) : prog NoiseXkReader io_error (list byte) :=
  zoom reader set_reader (split_read n).
Definition writer_write (buf : list byte) : prog NoiseXkWriter io_error nat :=
  zoom writer set_writer (split_write buf).
Definition writer_flush : prog NoiseXkWriter io_error unit :=
  zoom writer set_writer split_flush.

#[export] Instance noise_split_io : SplitIo NoiseXk := {|
  SplitRead := NoiseXkReader;
  SplitWrite := NoiseXkWriter;
  split_io := noise_split;
  from_split_io := noise_from_split;
  split_read := reader_read;
  split_write := writer_write;
  split_flush := writer_flush;
|}.
End noise.
Arguments NoiseXk {_ _} C {_}.
