(* ===== verification/XkAddr.v ===== *)
(** * The addresses of Noise sessions: src/noise.rs, [XkAddr]

    What an address resolves to and how it is printed, before and after the
    handshake adds the identity to it. The type is in Noise.v. *)

From S2P Require Import Prelude StdLib Resource Net Sockets Connect Auth Noise.

(** Addresses of the cyphernet crate: [Addr], [ToSocketAddr] and [Display], for
    network addresses and for addresses with an identity. *)
Class Addresses (C : Type) `{StdTcp C} (Id A : Type) := {
  addr_port : A → Z;
  peer_port : PeerAddr Id A → Z;
  addr_to_socket_addr : A → SocketAddr;
  peer_to_socket_addr : PeerAddr Id A → SocketAddr;
  addr_display : A → string;
  peer_display : PeerAddr Id A → string;
}.
(** An address with an identity leads where its network address does. *)
Class AddressesLaws (C : Type) `{Addresses C Id A} : Prop := {
  peer_port_law p : peer_port p = addr_port (peer_addr_addr p);
  peer_to_socket_addr_law p : peer_to_socket_addr p = addr_to_socket_addr (peer_addr_addr p);
}.

Section xk_addr.
Context {C Id A : Type} `{ST : !StdTcp C} `{AL : !Addresses C Id A} `{TA : !ToSocketAddrs C A}.
Implicit Types (x : XkAddr Id A).

Definition xk_display x : string :=
  match x with
  | Partial addr => addr_display addr
  | Full addr => peer_display addr
  end.

Definition xk_port x : Z :=
  match x with
  | Partial a => addr_port a
  | Full a => peer_port a
  end.

Definition xk_to_socket_addr x : SocketAddr :=
  match x with
  | Partial a => addr_to_socket_addr a
  | Full a => peer_to_socket_addr a
  end.

#[export] Instance xk_to_socket_addrs : ToSocketAddrs C (XkAddr Id A) := λ x,
  match x with
  | Partial a => resolve a
  | Full a => resolve (peer_addr_addr a)
  end.

(** [From<XkAddr> for net::SocketAddr] *)
Definition xk_into_socket_addr x : SocketAddr := xk_to_socket_addr x.

(** ** The handshake does not move an address *)

(** Every question about where to connect has the same answer. *)
Definition same_place x y : Prop :=
  as_addr x = as_addr y ∧ xk_port x = xk_port y ∧ xk_to_socket_addr x = xk_to_socket_addr y ∧
  resolve x = resolve y ∧ connect_to x = connect_to y.

#[export] Instance same_place_equivalence : Equivalence same_place.
Proof.
  split.
  - by intros x.
  - intros x y (?&?&?&?&?). by split_and!.
  - intros x y z (?&?&?&?&?) (?&?&?&?&?). split_and!; congruence.
Qed.

Context `{LL : !AddressesLaws C}.

Lemma same_place_addr x y : as_addr x = as_addr y ↔ same_place x y.
Proof.
  split; [|by intros []]. destruct x as [a|[i a]], y as [b|[j b]]; simpl; intros ->;
    unfold same_place, connect_to, resolve, xk_to_socket_addrs; simpl;
    rewrite ?peer_port_law, ?peer_to_socket_addr_law; by split_and!.
Qed.

(** The handshake adds the identity to an address and leaves it where it was;
    an identity that is there already stays, whoever asks. *)
Lemma upgrade_spec id x :
  same_place (upgrade id x).2 x ∧
  expect_peer_id (upgrade id x).2 = Ret (default id (peer_id x)) ∧
  (upgrade id x).1 = bool_decide (peer_id x = None) ∧
  ∀ id', upgrade id' (upgrade id x).2 = (false, (upgrade id x).2).
Proof. split; [apply same_place_addr|]; by destruct x as [a|[i a]]. Qed.

(** Whether the identity is there is what the accessors that panic ask. *)
Lemma expect_peer_id_spec x :
  match peer_id x with
  | Some id => expect_peer_id x = Ret id ∧
      expect_peer_addr x = Ret {| peer_addr_id := id; peer_addr_addr := as_addr x |}
  | None => expect_peer_id x = Panic "handshake is not complete" ∧
      expect_peer_addr x = Panic "handshake is not complete"
  end.
Proof. by destruct x as [a|[i a]]. Qed.
End xk_addr.
