(* ===== verification/Transcoders.v ===== *)
(** * Encrypting and decrypting: src/transcoders

    The traits and their implementations for the Noise framing of the cyphernet
    crate. The sessions do not use them. *)

From S2P Require Import Prelude StdLib Resource.

(** [Encrypt] and [Decrypt] *)
Class Encrypt (T : Type) := encrypt : list byte → T → outcome (list byte * T).
Class Decrypt (T : Type) := {
  DecryptError : Type;
  decrypt : list byte → T → outcome (result DecryptError (list byte) * T);
}.
#[global] Hint Mode Encrypt ! : typeclass_instances.
#[global] Hint Mode Decrypt ! : typeclass_instances.

(** The framing of the cyphernet crate. A transcoder gives access to its
    encryptor and decryptor, or panics while the handshake goes on. *)
Class Framing (En De Tr : Type) := {
  EncryptionError : Type;
  HandshakeError : Type;
  (** [HandshakeError::Encryption] *)
  Encryption : EncryptionError → HandshakeError;
  encrypt_buf : list byte → En → result EncryptionError (list byte) * En;
  decrypt_single_message : option (list byte) → De → result EncryptionError (option (list byte)) * De;
  expect_encryptor : Tr → outcome En;
  set_encryptor : En → Tr → Tr;
  expect_decryptor : Tr → outcome De;
  set_decryptor : De → Tr → Tr;
}.

Section transcoders.
Context {En De Tr : Type} `{FR : !Framing En De Tr}.

#[export] Instance noise_encryptor : Encrypt En := λ data self,
  Ret (match encrypt_buf data self with
       | (Ok values, self) => (values, self)
       | (Err _, self) => ([], self)
       end).

#[export] Instance noise_decryptor : Decrypt De := {
  DecryptError := HandshakeError;
  decrypt data self :=
    Ret (match decrypt_single_message (Some data) self with
         | (Ok (Some data), self) => (Ok data, self)
         | (Ok None, self) => (Ok [], self)
         | (Err e, self) => (Err (Encryption e), self)
         end);
}.

#[export] Instance transcoder_encrypt : Encrypt Tr := λ data self,
  en ← expect_encryptor self;
  '(r, en) ← encrypt data en;
  Ret (r, set_encryptor en self).

#[export] Instance transcoder_decrypt : Decrypt Tr := {
  DecryptError := HandshakeError;
  decrypt data self :=
    (de ← expect_decryptor self;
     '(r, de) ← decrypt (T := De) data de;
     Ret (r, set_decryptor de self)) : outcome (result HandshakeError (list byte) * Tr);
}.

(** ** Streams of messages *)

Fixpoint encrypt_all (msgs : list (list byte)) (en : En) : outcome (list (list byte) * En) :=
  match msgs with
  | [] => Ret ([], en)
  | m :: msgs =>
      '(c, en) ← encrypt m en;
      '(cs, en) ← encrypt_all msgs en;
      Ret (c :: cs, en)
  end.

Fixpoint decrypt_all (cs : list (list byte)) (de : De) :
    outcome (list (result (DecryptError (T := De)) (list byte)) * De) :=
  match cs with
  | [] => Ret ([], de)
  | c :: cs =>
      '(m, de) ← decrypt c de;
      '(ms, de) ← decrypt_all cs de;
      Ret (m :: ms, de)
  end.

(** [paired en de]: the decryptor is at the nonce of the encryptor. *)
Class FramingLaws := {
  paired : En → De → Prop;
  framing_law data c en en' de : paired en de → encrypt_buf data en = (Ok c, en') →
    ∃ de', decrypt_single_message (Some c) de = (Ok (Some data), de') ∧ paired en' de';
}.
Context `{FL : !FramingLaws}.

(** An encryptor that fails on none of the messages. *)
Fixpoint encrypts (msgs : list (list byte)) (en : En) : Prop :=
  match msgs with
  | [] => True
  | m :: msgs => ∃ c en', encrypt_buf m en = (Ok c, en') ∧ encrypts msgs en'
  end.

(** Messages that were encrypted are decrypted in order, whatever they are. *)
Lemma transcode_roundtrip msgs en de :
  paired en de → encrypts msgs en →
  ∃ cs en' de', encrypt_all msgs en = Ret (cs, en') ∧
    decrypt_all cs de = Ret (map Ok msgs, de') ∧ paired en' de'.
Proof.
  revert en de. induction msgs as [|m msgs IH]; intros en de Hp He; simpl.
  { by exists [], en, de. }
  destruct He as (c & en1 & E & He). destruct (framing_law _ _ _ _ _ Hp E) as (de1 & Ed & Hp1).
  destruct (IH en1 de1 Hp1 He) as (cs & en' & de' & E1 & E2 & Hp').
  exists (c :: cs), en', de'. unfold encrypt, noise_encryptor. rewrite E. simpl.
  rewrite E1. simpl. rewrite Ed. simpl. by rewrite E2.
Qed.

(** An encryptor that fails gives no bytes and no error, as does a decryptor
    that waits for the rest of a message. *)
Lemma encrypt_error data en en' e :
  encrypt_buf data en = (Err e, en') → encrypt data en = Ret ([], en').
Proof. unfold encrypt, noise_encryptor. by intros ->. Qed.

Lemma decrypt_incomplete data de de' :
  decrypt_single_message (Some data) de = (Ok None, de') → decrypt data de = Ret (Ok [], de').
Proof. simpl. by intros ->. Qed.
End transcoders.
