(* ===== verification/NoiseSpec.v ===== *)
(** * What Noise XK sessions guarantee

    Theorems on src/noise.rs: who a session is established with, what reads
    give before that, what the bytes on the wire are after that, and what
    splitting a session keeps. *)

From stdpp Require Import relations.
From S2P Require Import Prelude StdLib Resource Net Auth Noise.

Section noise_lemmas.
Context `{NL : NoiseLib} {C : Type} `{NC : NetConnection C}.
Context (debug : bool) (fuel : nat).
Implicit Types (s : NoiseXk C).

(** ** Inversion lemmas for the calls on the connection *)

Lemma on_connection_inv {A} (m : prog C io_error A) s r s' :
  on_connection m s = Ret (r, s') → ∃ c, s' = set_connection c s.
Proof.
  unfold on_connection, zoom. destruct (m (connection s)) as [[? c]| |]; intros; simplify_eq.
  by exists c.
Qed.

Lemma send_act_inv act s r s' : send_act fuel act s = Ret (r, s') → ∃ c, s' = set_connection c s.
Proof.
  destruct act as [act|]; [apply on_connection_inv|]. intros [= _ <-].
  exists (connection s). by destruct s.
Qed.

Lemma on_stream_inv {A} (m : prog C io_error A) (p : Authenticator * C) r p' :
  on_stream m p = Ret (r, p') → p'.1 = p.1.
Proof. unfold on_stream, zoom. destruct (m p.2) as [[? c]| |]; intros; by simplify_eq. Qed.

Lemma certify_inv (p : Authenticator * C) r p' :
  certify fuel p = Ret (r, p') → remote_id p'.1 = remote_id p.1.
Proof.
  unfold certify, on_auth. unfold_prog. intros Hr.
  destruct (on_stream (write_all fuel (pk_as_slice (pubkey p.1))) p) as [[[[]|e] p1]| |] eqn:E1;
    simplify_eq; apply on_stream_inv in E1; [|by rewrite E1].
  destruct (on_stream (write_all fuel (signature p.1)) p1) as [[[[]|e] p2]| |] eqn:E2;
    simplify_eq; apply on_stream_inv in E2; simpl; congruence.
Qed.

(** [verify] records a key exactly when it returns it. *)
Lemma verify_inv (p : Authenticator * C) r p' :
  verify debug fuel p = Ret (r, p') →
  match r with
  | Ok (Some pk) => remote_id p'.1 = Some pk
  | _ => remote_id p'.1 = remote_id p.1
  end ∧ sent p'.1 = sent p.1.
Proof.
  unfold verify, on_auth, debug_assert. unfold_prog. intros Hr.
  destruct (on_stream (read_exact fuel 32) p) as [[[key|e] p1]| |] eqn:E1;
    simplify_eq; apply on_stream_inv in E1; [|by rewrite E1].
  destruct (debug && _); [done|].
  destruct (pk_try_from key) as [pk|]; simpl in Hr; [|done].
  destruct (on_stream (read_exact fuel 64) p1) as [[[sig|e] p2]| |] eqn:E2;
    simplify_eq; apply on_stream_inv in E2; [|split; congruence].
  destruct (negb (pk_verify pk (pk_as_slice pk) sig)); simplify_eq; simpl; split; congruence.
Qed.

Lemma on_authenticator_inv {A} (m : prog (Authenticator * C) io_error A) s r s' :
  on_authenticator m s = Ret (r, s') →
  ∃ p, m (authenticator s, connection s) = Ret (r, p) ∧ s' = set_auth p s.
Proof.
  unfold on_authenticator, zoom. destruct (m _) as [[? p]| |]; intros; simplify_eq. eauto.
Qed.

(** One I/O call on a session. *)
Inductive noise_io : NoiseXk C → NoiseXk C → Prop :=
| io_read n s r s' : read debug fuel n s = Ret (r, s') → noise_io s s'
| io_write buf s r s' : write fuel buf s = Ret (r, s') → noise_io s s'
| io_flush s r s' : flush s = Ret (r, s') → noise_io s s'.

(** What a read may do to the identity and the address. *)
Lemma read_identity n s r s' :
  read debug fuel n s = Ret (r, s') →
  (remote_addr s' = remote_addr s ∧ remote_id (authenticator s') = remote_id (authenticator s)) ∨
  (remote_id (authenticator s) = None ∧ ∃ pk, remote_id (authenticator s') = Some pk ∧
     remote_addr s' = (upgrade pk (remote_addr s)).2).
Proof.
  unfold read. unfold_prog. intros Hr.
  destruct (negb (is_handshake_complete (transcoder s))).
  - destruct (on_connection (read_exact fuel _) s) as [[[input|e] s1]| |] eqn:E1;
      simplify_eq; apply on_connection_inv in E1 as [c ->]; [|by left].
    unfold advance in Hr. destruct (advance_handshake input _) as [[act|e] t];
      simpl in Hr; simplify_eq; [|by left].
    destruct (send_act fuel act _) as [[[[]|e] s2]| |] eqn:E2;
      simplify_eq; apply send_act_inv in E2 as [c' ->]; by left.
  - destruct (is_auth_complete (authenticator s)) eqn:Hc; simpl in Hr.
    { apply on_connection_inv in Hr as [c ->]. by left. }
    assert (remote_id (authenticator s) = None) as Hnone.
    { unfold is_auth_complete in Hc. destruct (remote_id (authenticator s)); [|done].
      rewrite bool_decide_true in Hc by eauto. done. }
    destruct (on_authenticator (verify debug fuel) s) as [[[o|e] s1]| |] eqn:E1; simplify_eq;
      apply on_authenticator_inv in E1 as (p & Hv & ->); apply verify_inv in Hv as [Hv _]; simpl in *.
    + destruct o as [pk|]; simpl in Hr.
      * right. split; [done|]. exists pk.
        destruct (remote_addr s) as [a|a] eqn:Ea; simpl in Hr; [by simplify_eq/=; rewrite Ea|].
        case_decide; simplify_eq; simpl; by rewrite Ea.
      * left. by destruct (peer_id (remote_addr s)); simplify_eq.
    + by left.
Qed.

(** Writes and flushes change neither. *)
Lemma write_identity buf s r s' :
  write fuel buf s = Ret (r, s') →
  remote_addr s' = remote_addr s ∧ remote_id (authenticator s') = remote_id (authenticator s).
Proof.
  unfold write. unfold_prog. intros Hr.
  destruct (negb (is_handshake_complete (transcoder s))).
  - unfold advance in Hr. destruct (advance_handshake [] _) as [[act|e] t]; simpl in Hr;
      simplify_eq; [|done].
    destruct (send_act fuel act _) as [[[[]|e] s2]| |] eqn:E2;
      simplify_eq; apply send_act_inv in E2 as [c' ->]; done.
  - destruct (negb (is_auth_sent (authenticator s))); simpl in Hr.
    + destruct (on_authenticator (certify fuel) s) as [[[[]|e] s1]| |] eqn:E1; simplify_eq;
        apply on_authenticator_inv in E1 as (p & Hv & ->); by apply certify_inv in Hv.
    + by apply on_connection_inv in Hr as [c ->].
Qed.

Lemma io_identity s s' :
  noise_io s s' →
  (remote_addr s' = remote_addr s ∧ remote_id (authenticator s') = remote_id (authenticator s)) ∨
  (remote_id (authenticator s) = None ∧ ∃ pk, remote_id (authenticator s') = Some pk ∧
     remote_addr s' = (upgrade pk (remote_addr s)).2).
Proof.
  destruct 1 as [n s r s' Hr|buf s r s' Hr|s r s' Hr].
  - by eapply read_identity.
  - left. by eapply write_identity.
  - left. by apply on_connection_inv in Hr as [c ->].
Qed.

(** Reads give nothing while the session is not established, not even the one
    that establishes it. *)
Lemma early_read_empty n s r s' :
  read debug fuel n s = Ret (Ok r, s') → noise_established s = false → r = [].
Proof.
  unfold read, noise_established. unfold_prog. intros Hr Hest.
  destruct (is_handshake_complete (transcoder s)); simpl in Hr, Hest.
  - rewrite Hest in Hr. simpl in Hr.
    destruct (on_authenticator (verify debug fuel) s) as [[[[pk|]|e] s1]| |]; simpl in Hr;
      simplify_eq; destruct (peer_id (remote_addr s1)); simpl in Hr; simplify_eq;
      try case_decide; by simplify_eq.
  - destruct (on_connection (read_exact fuel _) s) as [[[input|e] s1]| |]; simplify_eq.
    destruct (advance input s1) as [[[act|e] s2]| |]; simplify_eq.
    destruct (send_act fuel act s2) as [[[[]|e] s3]| |]; by simplify_eq.
Qed.

(** ** Properties *)



(** C40. A peer with the wrong identity is noticed too late: the read that
    authenticates it reports [ConnectionReset], but the session it leaves is
    established, under the id that was expected, and its next reads pass the
    peer's bytes on. *)
Theorem wrong_peer_established n s p pk expected :
  is_handshake_complete (transcoder s) = true → is_auth_complete (authenticator s) = false →
  peer_id (remote_addr s) = Some expected → pk ≠ expected →
  verify debug fuel (authenticator s, connection s) = Ret (Ok (Some pk), p) →
  ∃ s', read debug fuel n s = Ret (Err (from_kind ConnectionReset), s') ∧
    noise_established s' = true ∧ noise_session_id s' = Some expected ∧
    remote_id (authenticator s') = Some pk ∧
    ∀ m, read debug fuel m s' = on_connection (conn_read m) s'.
Proof.
  intros Hh Hc Hp Hne Hv. pose proof (verify_inv _ _ _ Hv) as [Hid _].
  exists (set_auth p s). unfold read at 1. unfold_prog. rewrite Hh, Hc. simpl.
  unfold on_authenticator, zoom. rewrite Hv. simpl. rewrite Hp. rewrite decide_True by done.
  assert (is_auth_complete p.1 = true) as Hc'.
  { unfold is_auth_complete. rewrite bool_decide_true; [done|]. rewrite Hid. eauto. }
  split; [done|]. unfold noise_established, noise_session_id. simpl. rewrite Hh, Hc'.
  split_and!; [done| |done|].
  - by destruct (remote_addr s); simpl in Hp; simplify_eq.
  - intros m. unfold read, gets, mbind, prog_bind. simpl. by rewrite Hh, Hc'.
Qed.

(** Sessions that carry application data. *)
Definition noise_ready s : Prop :=
  noise_established s = true ∧ is_auth_sent (authenticator s) = true.

Lemma ready_io s n buf :
  noise_ready s → read debug fuel n s = on_connection (conn_read n) s ∧
                  write fuel buf s = on_connection (conn_write buf) s.
Proof.
  intros [Hest Hsent]. unfold noise_established in Hest. apply andb_prop in Hest as [Hh Hc].
  unfold read, write, gets, mbind, prog_bind. simpl. by rewrite Hh, Hc, Hsent.
Qed.

(** An established session is transparent: what it writes is what the
    connection sends and what it reads is what the connection received, byte
    for byte. The transcoder takes no part, so the data travel unencrypted. *)
Theorem established_io_is_plain `{CL : !ConnectionLaws C} s n buf :
  noise_ready s →
  wp (read debug fuel n) (λ r s', ∀ bs, r = Ok bs →
    conn_in (connection s) = bs ++ conn_in (connection s') ∧ transcoder s' = transcoder s) s ∧
  wp (write fuel buf) (λ r s', ∀ k, r = Ok k →
    conn_out (connection s') = conn_out (connection s) ++ take k buf ∧
    transcoder s' = transcoder s) s.
Proof.
  intros Hr. destruct (ready_io s n buf Hr) as [Er Ew]. unfold wp at 1 2. rewrite Er, Ew. split.
  - apply (wp_zoom connection set_connection (conn_read n)).
    eapply wp_mono; [apply conn_read_law|]. intros [bs|e] c (?&?&?&H'); intros; simplify_eq.
    by destruct H'.
  - apply (wp_zoom connection set_connection (conn_write buf)).
    eapply wp_mono; [apply conn_write_law|]. intros [k|e] c (?&?&?&H'); intros; simplify_eq.
    by destruct H'.
Qed.

(** Noise sessions are sessions for [NetResource]. *)
#[export] Instance noise_laws `{CL : !ConnectionLaws C} :
  SessionLaws (H := noise_session debug fuel) (NoiseXk C).
Proof.
  refine (@Build_SessionLaws (NoiseXk C) (noise_session debug fuel) noise_ready
    (λ s, conn_in (connection s)) (λ s, conn_out (connection s)) _ _ _ _ _); simpl.
  - intros n s Hr. destruct (ready_io s n [] Hr) as [Er _]. unfold wp. rewrite Er.
    apply (wp_zoom connection set_connection (conn_read n)).
    eapply wp_mono; [apply conn_read_law|]. intros [bs|e] c (?&?&?&H'); naive_solver.
  - intros buf s Hr. destruct (ready_io s 0 buf Hr) as [_ Ew]. unfold wp. rewrite Ew.
    apply (wp_zoom connection set_connection (conn_write buf)).
    eapply wp_mono; [apply conn_write_law|]. intros [k|e] c (?&?&?&H'); naive_solver.
  - intros s Hr. apply wp_zoom. eapply wp_mono; [apply conn_flush_law|].
    intros [[]|e] c (?&?&?&?); by split_and!.
  - intros x s Hr. pose proof (conn_set_law x (connection s)) as Hx.
    destruct x; (apply wp_zoom; eapply wp_mono; [exact Hx|]);
      intros [[]|e] c (?&?&?&?); by split_and!.
  - by intros s [? _].
Defined.

(** *** Blocking connections *)

Lemma handshake_loop_identity rounds input s r s' :
  handshake_loop fuel rounds input s = Ret (r, s') →
  remote_addr s' = remote_addr s ∧ authenticator s' = authenticator s ∧
  (is_ok r = true → is_handshake_complete (transcoder s') = true).
Proof.
  revert input s. induction rounds as [|rounds IH]; intros input s Hr; simpl in Hr;
    (destruct (is_handshake_complete (transcoder s)) eqn:Hc; [by simplify_eq|]); [done|].
  unfold_prog. unfold advance in Hr.
  destruct (advance_handshake input (transcoder s)) as [[act|e] t]; simpl in Hr; [|by simplify_eq].
  destruct (send_act fuel act (set_transcoder t s)) as [[[[]|e] s1]| |] eqn:E1;
    simplify_eq; apply send_act_inv in E1 as [c ->]; [|done]. simpl in Hr.
  destruct (is_handshake_complete t).
  - apply IH in Hr. done.
  - destruct (on_connection (read_exact fuel (next_handshake_len t)) _) as [[[i|e] s2]| |] eqn:E2;
      simplify_eq; apply on_connection_inv in E2 as [c' ->]; [by apply IH in Hr|done].
Qed.

Lemma auth_loop_identity rounds peer s r s' :
  remote_id (authenticator s) = None ∨ remote_id (authenticator s) = Some peer →
  auth_loop debug fuel rounds peer s = Ret (Ok r, s') →
  remote_addr s' = remote_addr s ∧ transcoder s' = transcoder s ∧
  remote_id (authenticator s') = Some peer.
Proof.
  revert s. induction rounds as [|rounds IH]; intros s Hs Hr; simpl in Hr;
    (destruct (is_auth_complete (authenticator s)) eqn:Hc;
     [unfold is_auth_complete in Hc; apply bool_decide_eq_true in Hc as [id Hid];
      simplify_eq; destruct Hs; [congruence|done]|]); [done|].
  unfold_prog.
  destruct (on_authenticator (certify fuel) s) as [[[[]|e] s1]| |] eqn:E1; simplify_eq.
  apply on_authenticator_inv in E1 as (p & Hcert & ->). apply certify_inv in Hcert. simpl in Hcert.
  destruct (on_authenticator (verify debug fuel) _) as [[[o|e] s2]| |] eqn:E2; simplify_eq.
  apply on_authenticator_inv in E2 as (p2 & Hv & ->). apply verify_inv in Hv as [Hv _]. simpl in Hv.
  destruct o as [id|]; [|done]. case_decide as Hne; [done|].
  apply IH in Hr as (?&?&?); [by split_and!|].
  right. simpl. rewrite Hv. by f_equal.
Qed.

(** C30. A blocking connection that succeeds is to the peer that was asked
    for: the handshake is complete, the peer has proved its key, and that key
    is the one of the address. *)
Theorem connect_blocking_identity rounds addr key auth connect s :
  remote_id auth = None →
  connect_blocking debug fuel rounds addr key auth connect = Ret (Ok s) →
  noise_established s = true ∧ remote_id (authenticator s) = Some (peer_addr_id addr) ∧
  noise_peer_addr s = Some addr.
Proof.
  intros Hnone. unfold connect_blocking. unfold_prog.
  destruct (ecdh_from_ed25519 key) as [ecdh|]; simpl; [|done].
  destruct (ecdh_public_from_ed25519 (peer_addr_id addr)) as [rk|]; [|done].
  destruct (connect (peer_addr_addr addr)) as [conn|e]; [|done].
  destruct (handshake_loop fuel rounds [] _) as [[[[]|e] s1]| |] eqn:Eh; [|done|done|done].
  destruct (auth_loop debug fuel rounds (peer_addr_id addr) s1) as [[[[]|e] s2]| |] eqn:Ea;
    [|done|done|done]. intros [= <-].
  apply handshake_loop_identity in Eh as (Hra & Hau & Hh). simpl in Hra, Hau.
  apply auth_loop_identity in Ea as (Hra2 & Ht & Hid); [|left; by rewrite Hau].
  unfold noise_established, noise_peer_addr, is_auth_complete.
  rewrite Hid, Ht, Hra2, Hra, bool_decide_true by eauto. by rewrite Hh.
Qed.

(** *** Splitting *)

(** Splitting a session and joining the halves gives the session back,
    given that the transcoder and the connection do; a session without a
    complete handshake is returned unsplit. *)
Theorem noise_split_join `{SC : !SplitIo C} `{!SplitIoLaws C} s rd wr :
  (∀ t e d, try_into_split t = Ok (e, d) → with_split e d = t) →
  (noise_split s = Ret (Ok (rd, wr)) → noise_from_split rd wr = Ret s) ∧
  (is_handshake_complete (transcoder s) = false →
   noise_split s = Ret (Err (s, from_kind NotConnected))).
Proof.
  intros Ht. split; [|intros Hh; unfold noise_split; by rewrite Hh].
  unfold noise_split, noise_from_split. unfold_prog.
  destruct (negb (is_handshake_complete (transcoder s))); [done|].
  destruct (remote_addr s) as [a|addr] eqn:Ea; simpl; [done|].
  destruct (split_io (connection s)) as [[[r w]|[? ?]]| |] eqn:Es; [|done..].
  destruct (try_into_split (transcoder s)) as [[e d]|t] eqn:Et; [|by destruct (from_split_io r w)].
  intros [= <- <-]. simpl. rewrite decide_False by auto. rewrite (split_join _ _ _ Es).
  rewrite (Ht _ _ _ Et), <-Ea. by destruct s.
Qed.
End noise_lemmas.

(** ** Witnesses *)

(** A handshake of three acts of two bytes, with the shape of Noise XK. *)
Module ToyNoise.
Definition act (n : nat) : list byte :=
  match n with
  | 1 => [Byte.x01; Byte.x01]
  | 2 => [Byte.x02; Byte.x02]
  | _ => [Byte.x03; Byte.x03]
  end.

(** [(initiator, step)] *)
Definition advance (input : list byte) (t : bool * nat) :
    result unit (option (list byte)) * (bool * nat) :=
  if decide (input = [] ∧ t ≠ (true, 0)) then (Ok None, t) else
  match t with
  | (true, 0) => (Ok (Some (act 1)), (true, 1))
  | (true, 1) => if decide (input = act 2) then (Ok (Some (act 3)), (true, 2)) else (Err tt, t)
  | (false, 0) => if decide (input = act 1) then (Ok (Some (act 2)), (false, 1)) else (Err tt, t)
  | (false, 1) => if decide (input = act 3) then (Ok None, (false, 2)) else (Err tt, t)
  | _ => (Ok None, t)
  end.

#[global] Existing Instance ToyKeys.keys.

Definition lib : NoiseLib := {|
  SecretKey := unit;
  EcdhKey := unit;
  EcdhPublic := bool;
  ecdh_from_ed25519 := Some;
  ecdh_public_from_ed25519 := Some;
  Transcoder := bool * nat;
  Encryptor := bool * nat;
  Decryptor := unit;
  with_xk_responder _ := (false, 0);
  with_xk_initiator _ _ := (true, 0);
  is_handshake_complete t := Nat.leb 2 t.2;
  next_handshake_len _ := 2;
  advance_handshake := advance;
  try_into_split t := Ok (t, tt);
  with_split e _ := e;
|}.
#[global] Existing Instance lib.

Definition key : @SecretKey _ lib := tt.
Definition peer_at (b : bool) : PeerAddr (@PublicKey ToyKeys.keys) (@Addr Script.t _) :=
  {| peer_addr_id := b; peer_addr_addr := 9%Z |}.

Definition socket (reads : list Script.incoming) : Script.t :=
  {| Script.fd := 3; Script.peer := 9; Script.reads := reads; Script.writes := []; Script.out := [] |}.
Definition auth (b : bool) : Authenticator := Auth.new (b : @PublicKey ToyKeys.keys) (ToyKeys.signed b).
Definition creds (b : bool) : list byte := ToyKeys.encode (if b then 32 else 0) ++ ToyKeys.signed b.

(** A responder whose peer goes through the whole handshake. *)
Definition r0 : NoiseXk Script.t :=
  {| remote_addr := Partial (9%Z : @Addr Script.t _);
     connection := socket [Script.Arrive (act 1); Script.Arrive (act 3);
                           Script.Arrive (creds true); Script.Arrive [Byte.xaa; Byte.xbb]];
     transcoder := (false, 0) : @Transcoder _ lib; authenticator := auth false |}.
Definition r1 := final r0 (read true 200 10 r0).
Definition r2 := final r1 (read true 200 10 r1).
Definition r3 := final r2 (write 200 [] r2).
Definition r4 := final r3 (read true 200 10 r3).

(** An initiator that expects key [false] and is past the handshake; the peer
    proves key [true]. *)
Definition wrong : NoiseXk Script.t :=
  {| remote_addr := Full (peer_at false);
     connection := socket [Script.Arrive (creds true); Script.Arrive [Byte.xaa]];
     transcoder := (true, 2) : @Transcoder _ lib; authenticator := auth false |}.
Definition verified := verify true 200 (authenticator wrong, connection wrong).

(** A connection that succeeds. *)
Definition connected : outcome (io_result (NoiseXk Script.t)) :=
  connect_blocking true 200 3
    (peer_at true) key
    (auth false) (λ _, Ok (socket [Script.Arrive (act 2); Script.Arrive (creds true)])).
Definition connected_session : NoiseXk Script.t :=
  match connected with Ret (Ok s) => s | _ => r0 end.
End ToyNoise.
Import ToyNoise.

Lemma r4_reachable : rtc (noise_io true 200) r0 r4.
Proof.
  apply rtc_l with r1; [apply (io_read true 200 10 r0 (Ok [])); vm_compute; reflexivity|].
  apply rtc_l with r2; [apply (io_read true 200 10 r1 (Ok [])); vm_compute; reflexivity|].
  apply rtc_l with r3;
    [apply (io_write true 200 [] r2 (Err (from_kind Interrupted))); vm_compute; reflexivity|].
  apply rtc_once. apply (io_read true 200 10 r3 (Ok [])). vm_compute. reflexivity.
Qed.



Lemma wrong_peer_established_witness :
  ∃ s', read true 200 10 wrong = Ret (Err (from_kind ConnectionReset), s') ∧
    noise_established s' = true ∧ noise_session_id s' = Some false ∧
    remote_id (authenticator s') = Some true ∧
    ∀ m, read true 200 m s' = on_connection (conn_read m) s'.
Proof.
  apply (wrong_peer_established true 200 10 wrong
    (final (authenticator wrong, connection wrong) verified) true false);
    [reflexivity|reflexivity|reflexivity|discriminate|vm_compute; reflexivity].
Defined.

Lemma established_io_is_plain_witness :
  wp (read true 200 10) (λ r s', ∀ bs, r = Ok bs →
    conn_in (connection r4) = bs ++ conn_in (connection s') ∧ transcoder s' = transcoder r4) r4 ∧
  wp (write 200 [Byte.xcc]) (λ r s', ∀ k, r = Ok k →
    conn_out (connection s') = conn_out (connection r4) ++ take k [Byte.xcc] ∧
    transcoder s' = transcoder r4) r4.
Proof. apply (established_io_is_plain true 200 r4 10 [Byte.xcc]). by vm_compute. Defined.

Lemma connect_blocking_identity_witness :
  noise_established connected_session = true ∧
  remote_id (authenticator connected_session) = Some true ∧
  noise_peer_addr connected_session = Some (peer_at true).
Proof.
  apply (connect_blocking_identity true 200 3
    (peer_at true) key
    (auth false) (λ _, Ok (socket [Script.Arrive (act 2); Script.Arrive (creds true)])));
    [reflexivity|vm_compute; reflexivity].
Defined.

Lemma noise_split_join_witness :
  let sc := SplitClone.split_io in
  noise_from_split (SC := sc)
    {| reader_addr := peer_at true;
       reader := connection r4 : SplitRead (SplitIo := sc); decryptor := tt : @Decryptor _ lib |}
    {| writer_addr := peer_at true;
       writer := connection r4 : SplitWrite (SplitIo := sc); encryptor := transcoder r4;
       writer_auth := authenticator r4 |} = Ret r4.
Proof.
  refine (proj1 (noise_split_join (SC := SplitClone.split_io) (SplitIoLaws0 := SplitClone.laws) r4 _ _ _) _).
  - intros t e d Ht. by injection Ht as -> _.
  - vm_compute. reflexivity.
Defined.
