(* ===== verification/NoisePair.v ===== *)
(** * Two ends of a Noise XK handshake: src/noise.rs, src/auth.rs

    An initiator and a responder over one connection, driven by whatever I/O
    events their reactors report: who they are established with, and that the
    handshake can always be finished. *)

From stdpp Require Import relations.
From S2P Require Import Prelude StdLib Resource Net Auth Noise NoiseSpec.

(** ** One end of a connection that loses nothing *)

Module Pipe.
Record t := { fd : Z; peer : Z; inb : list byte; outb : list byte }.

Definition read (n : nat) : prog t io_error (list byte) := λ c,
  match inb c with
  | [] => Ret (Err (from_kind WouldBlock), c)
  | _ => Ret (Ok (take n (inb c)),
              {| fd := fd c; peer := peer c; inb := drop n (inb c); outb := outb c |})
  end.
Definition write (buf : list byte) : prog t io_error nat := λ c,
  Ret (Ok (length buf), {| fd := fd c; peer := peer c; inb := inb c; outb := outb c ++ buf |}).

#[global] Instance connection : NetConnection t := {|
  Addr := Z;
  conn_fd := fd;
  conn_read := read;
  conn_write := write;
  conn_flush := mret tt;
  conn_shutdown _ := mret tt;
  conn_remote_addr c := Ret (peer c);
  conn_local_addr c := Ret (fd c);
  conn_set_read_timeout _ := mret tt;
  conn_set_write_timeout _ := mret tt;
  conn_set_nonblocking _ := mret tt;
  conn_try_clone c := Ok c;
|}.

(** Taking what was written, and bytes that arrive. *)
Definition sent (c : t) : t := {| fd := fd c; peer := peer c; inb := inb c; outb := [] |}.
Definition arrive (bs : list byte) (c : t) : t :=
  {| fd := fd c; peer := peer c; inb := inb c ++ bs; outb := outb c |}.
End Pipe.

Lemma pipe_read_exact fuel (a rest o : list byte) f p :
  fuel ≠ 0 → a ≠ [] →
  read_exact fuel (length a) {| Pipe.fd := f; Pipe.peer := p; Pipe.inb := a ++ rest; Pipe.outb := o |} =
    Ret (Ok a, {| Pipe.fd := f; Pipe.peer := p; Pipe.inb := rest; Pipe.outb := o |}).
Proof.
  intros Hf Ha. destruct fuel as [|fuel]; [done|]. cbn [read_exact]. rewrite decide_False by (by destruct a). unfold_prog.
  unfold Pipe.read. simpl. destruct a as [|b a]; [done|]. simpl.
  rewrite take_app_length, drop_app_length, Nat.sub_diag.
  destruct fuel; simpl; by rewrite app_nil_r.
Qed.

Lemma pipe_write_all fuel bs f p (i o : list byte) :
  fuel ≠ 0 → write_all fuel bs {| Pipe.fd := f; Pipe.peer := p; Pipe.inb := i; Pipe.outb := o |} =
    Ret (Ok tt, {| Pipe.fd := f; Pipe.peer := p; Pipe.inb := i; Pipe.outb := o ++ bs |}).
Proof.
  intros Hf. destruct fuel as [|fuel]; [done|]. cbn [write_all_with]. case_decide as Hb; [by rewrite Hb, app_nil_r|]. unfold_prog.
  unfold Pipe.write. destruct (length bs) as [|n] eqn:E; [by destruct bs|].
  rewrite <-E, drop_all. by destruct fuel.
Qed.

(** ** The two ends *)

Section pair.
Context `{NL : NoiseLib} (debug : bool).
Abbreviation Session := (NoiseXk Pipe.t).

(** What a transport does with a session on an event before it is established:
    it reads into its buffer, of [n] bytes, or it writes nothing. *)
Definition on_event (fuel n : nat) (io : Io) : prog Session io_error unit :=
  match io with
  | Read => read debug fuel n ≫= λ _, mret tt
  | Write => write fuel [] ≫= λ _, mret tt
  end.

(** A socket is readable when bytes wait, and always writable. *)
Definition reports (io : Io) (s : Session) : Prop :=
  match io with Read => Pipe.inb (connection s) ≠ [] | Write => True end.

Record Ends := { initiator : Session; responder : Session }.

Definition deliver (from to : Session) : Session * Session :=
  (set_connection (Pipe.sent (connection from)) from,
   set_connection (Pipe.arrive (Pipe.outb (connection from)) (connection to)) to).

(** One of the ends (the initiator, if [out]), and both with new values for that
    one and the other. *)
Definition end_of (out : bool) (e : Ends) : Session := if out then initiator e else responder e.
Definition ends (out : bool) (d : Session * Session) : Ends :=
  if out then {| initiator := d.1; responder := d.2 |} else {| initiator := d.2; responder := d.1 |}.

(** One event at one of the ends, in any order. *)
Inductive ends_step (fuel : nat) : Ends → Ends → Prop :=
| end_event out n io r s e :
    reports io (end_of out e) → on_event fuel n io (end_of out e) = Ret (r, s) →
    ends_step fuel e (ends out (deliver s (end_of (negb out) e))).

(** A run of Noise XK, for the transcoders that the two ends start with: three
    acts, each made from the one before; an end whose turn it is to read has
    nothing to say. *)
Record XkRun (i0 r0 : Transcoder) := {
  act1 : list byte; act2 : list byte; act3 : list byte;
  i1 : Transcoder; i2 : Transcoder; r1 : Transcoder; r2 : Transcoder;
  xk_i0 : advance_handshake [] i0 = (Ok (Some act1), i1);
  xk_r0 : advance_handshake act1 r0 = (Ok (Some act2), r1);
  xk_i1 : advance_handshake act2 i1 = (Ok (Some act3), i2);
  xk_r1 : advance_handshake act3 r1 = (Ok None, r2);
  xk_idle t : t ∈ [i1; r0; r1] → advance_handshake [] t = (Ok None, t);
  xk_pending t : t ∈ [i0; i1; r0; r1] → is_handshake_complete t = false;
  xk_complete t : t ∈ [i2; r2] → is_handshake_complete t = true;
  xk_lengths : next_handshake_len r0 = length act1 ∧ next_handshake_len i1 = length act2 ∧
    next_handshake_len r1 = length act3;
  xk_acts a : a ∈ [act1; act2; act3] → a ≠ [];
}.

(** ** What an event does to an end *)

Implicit Types (s : Session) (a : Authenticator) (t : Transcoder).

(** A session with its parts in view. *)
Definition end_ ra f p (i o : list byte) t a : Session :=
  {| remote_addr := ra;
     connection := {| Pipe.fd := f; Pipe.peer := p; Pipe.inb := i; Pipe.outb := o |};
     transcoder := t; authenticator := a |}.

Lemma event_write_handshake fuel n ra f p i t a act t' :
  fuel ≠ 0 → is_handshake_complete t = false → advance_handshake [] t = (Ok act, t') →
  on_event fuel n Write (end_ ra f p i [] t a) =
    Ret (Err (from_kind Interrupted), end_ ra f p i (default [] act) t' a).
Proof.
  intros Hf Hc Ha. unfold on_event, write, advance, end_. unfold_prog. rewrite Hc. simpl. rewrite Ha. simpl.
  destruct act as [act|]; [|done]. unfold send_act, on_connection, zoom, set_transcoder. simpl connection.
  by rewrite pipe_write_all by done.
Qed.

Lemma event_write_auth fuel n ra f p i t a :
  fuel ≠ 0 → is_handshake_complete t = true → sent a = false →
  on_event fuel n Write (end_ ra f p i [] t a) =
    Ret (Err (from_kind Interrupted),
         end_ ra f p i (credentials (pubkey a) (signature a)) t (set_sent true a)).
Proof.
  intros Hf Hc Hs. unfold on_event, write, end_, is_auth_sent. unfold_prog. rewrite Hc, Hs. simpl.
  unfold on_authenticator, certify, on_stream, on_auth, zoom. unfold_prog. simpl.
  rewrite pipe_write_all by done. simpl. by rewrite pipe_write_all by done.
Qed.

Lemma event_write_ready fuel n ra f p i t a :
  fuel ≠ 0 → is_handshake_complete t = true → sent a = true →
  on_event fuel n Write (end_ ra f p i [] t a) = Ret (Ok tt, end_ ra f p i [] t a).
Proof.
  intros Hf Hc Hs. unfold on_event, write, end_, is_auth_sent. unfold_prog. rewrite Hc, Hs. simpl.
  unfold on_connection, zoom. simpl. done.
Qed.

Lemma event_read_handshake fuel n ra f p m rest t a act t' :
  fuel ≠ 0 → is_handshake_complete t = false → next_handshake_len t = length m → m ≠ [] →
  advance_handshake m t = (Ok act, t') →
  on_event fuel n Read (end_ ra f p (m ++ rest) [] t a) =
    Ret (Ok tt, end_ ra f p rest (default [] act) t' a).
Proof.
  intros Hf Hc Hl Hm Ha. unfold on_event, read, end_. unfold_prog. rewrite Hc. simpl.
  unfold on_connection at 1, zoom. simpl connection. rewrite Hl, pipe_read_exact by done.
  unfold advance. simpl transcoder. rewrite Ha. simpl.
  destruct act as [act|]; [|done]. unfold send_act, on_connection, zoom, set_transcoder. simpl connection.
  by rewrite pipe_write_all by done.
Qed.

Lemma event_read_auth `{!Ed25519Laws} fuel n ra f p pk sig rest t a :
  fuel ≠ 0 → is_handshake_complete t = true → remote_id a = None → length sig = 64 →
  pk_verify pk (pk_as_slice pk) sig = true → (peer_id ra = None ∨ peer_id ra = Some pk) →
  on_event fuel n Read (end_ ra f p (credentials pk sig ++ rest) [] t a) =
    Ret (Ok tt, end_ (upgrade pk ra).2 f p rest [] t (set_remote_id (Some pk) a)).
Proof.
  intros Hf Hc Hr Hl Hv Hp. unfold on_event, read, end_, is_auth_complete. unfold_prog. rewrite Hc, Hr. simpl.
  assert (verify debug fuel (a, {| Pipe.fd := f; Pipe.peer := p; Pipe.inb := credentials pk sig ++ rest; Pipe.outb := [] |}) =
    Ret (Ok (Some pk), (set_remote_id (Some pk) a, {| Pipe.fd := f; Pipe.peer := p; Pipe.inb := rest; Pipe.outb := [] |}))) as E.
  { unfold verify, on_stream, on_auth, zoom, credentials, debug_assert, is_auth_complete. unfold_prog. simpl.
    rewrite <-app_assoc, <-Hl, <-(pk_length pk).
    rewrite pipe_read_exact; [|done|intros E; pose proof (pk_length pk) as Hk; by rewrite E in Hk]. simpl.
    rewrite Hr, bool_decide_false by (by intros [? ?]). rewrite andb_false_r, pk_try_from_slice. simpl.
    rewrite pipe_read_exact; [|done|intros E; by rewrite E in Hl]. simpl. rewrite Hv. done. }
  unfold on_authenticator, zoom. simpl. rewrite E. simpl.
  destruct Hp as [Hp|Hp]; rewrite Hp; [done|]. by rewrite decide_False by (intros Hx; by apply Hx).
Qed.
End pair.

(** Transcoders made from a key and its public half understand each other. *)
Class XkLaws `{NoiseLib} := {
  public_of : EcdhKey → EcdhPublic;
  xk_run (ki kr : EcdhKey) : XkRun (with_xk_initiator ki (public_of kr)) (with_xk_responder kr);
}.

(** ** The handshake, in every interleaving *)

Section agreement.
Context `{NL : NoiseLib} `{EL : !Ed25519Laws} (debug : bool) (fuel : nat) (Hfuel : fuel ≠ 0).
Context (i0 r0 : Transcoder) (X : XkRun i0 r0).
Context (addr : PeerAddr PublicKey (Addr (C := Pipe.t))) (from : Addr (C := Pipe.t)).
Context (fi pi fr pr : Z) (ai ar : Authenticator).

(** Credentials that the other end accepts. *)
Definition certified (a : Authenticator) : Prop :=
  length (signature a) = 64 ∧ pk_verify (pubkey a) (pk_as_slice (pubkey a)) (signature a) = true.
Context (Hci : certified ai) (Hcr : certified ar) (Hid : peer_addr_id addr = pubkey ar).

(** The authenticator of [a] once it has sent its credentials, and verified
    those of [b]. *)
Definition progress (a b : Authenticator) (sent verified : bool) : Authenticator :=
  {| sent := sent; pubkey := pubkey a; signature := signature a;
     remote_id := if verified then Some (pubkey b) else None |}.
Definition creds (a : Authenticator) (waiting : bool) : list byte :=
  if waiting then credentials (pubkey a) (signature a) else [].

Definition end_i t (s v : bool) (i : list byte) : NoiseXk Pipe.t :=
  end_ (Full addr) fi pi i [] t (progress ai ar s v).
Definition end_r t (s v : bool) (i : list byte) : NoiseXk Pipe.t :=
  end_ (if v then Full {| peer_addr_id := pubkey ai; peer_addr_addr := from |} else Partial from)
    fr pr i [] t (progress ar ai s v).

(** The events that are needed when what is done was done. *)
Definition todo (si vi sr vr : bool) : nat :=
  Nat.b2n (negb si) + Nat.b2n (negb vi) + Nat.b2n (negb sr) + Nat.b2n (negb vr).

(** The stages of the handshake, with the number of events that are still
    needed: credentials wait at an end from when they are sent until they are
    verified. *)
Inductive stage : nat → Ends → Prop :=
| stage_start : stage 8 {| initiator := end_i i0 false false []; responder := end_r r0 false false [] |}
| stage_act1 : stage 7 {| initiator := end_i (i1 _ _ X) false false [];
                          responder := end_r r0 false false (act1 _ _ X) |}
| stage_act2 : stage 6 {| initiator := end_i (i1 _ _ X) false false (act2 _ _ X);
                          responder := end_r (r1 _ _ X) false false [] |}
| stage_act3 si : stage (4 + Nat.b2n (negb si))
    {| initiator := end_i (i2 _ _ X) si false [];
       responder := end_r (r1 _ _ X) false false (act3 _ _ X ++ creds ai si) |}
| stage_auth si vi sr vr : implb vi sr = true → implb vr si = true →
    stage (todo si vi sr vr)
      {| initiator := end_i (i2 _ _ X) si vi (creds ar (sr && negb vi));
         responder := end_r (r2 _ _ X) sr vr (creds ai (si && negb vr)) |}.

(** What an event does to the end itself: a read may make it established only
    when the handshake was over, a write leaves it with its credentials sent
    when the handshake is. *)
Definition effect (io : Io) (s s' : NoiseXk Pipe.t) : Prop :=
  match io with
  | Read => Auth.sent (authenticator s') = Auth.sent (authenticator s) ∧
      (noise_established s' = true → is_handshake_complete (transcoder s) = true)
  | Write => Pipe.inb (connection s') = Pipe.inb (connection s) ∧
      noise_established s' = noise_established s ∧
      (is_handshake_complete (transcoder s') = true → Auth.sent (authenticator s') = true)
  end.
Definition interrupted_or_ok (r : result io_error unit) : Prop :=
  r = Ok tt ∨ r = Err (from_kind Interrupted).

(** An event at an end changes nothing, or leads to a later stage. *)
Definition event_ok out k e n io : Prop :=
  reports io (end_of out e) → ∃ r s', on_event debug fuel n io (end_of out e) = Ret (r, s') ∧
    interrupted_or_ok r ∧ (io = Read → r = Ok tt) ∧ effect io (end_of out e) s' ∧
    (ends out (deliver s' (end_of (negb out) e)) = e ∨
     ∃ k', k' < k ∧ stage k' (ends out (deliver s' (end_of (negb out) e)))).

Lemma progress_complete a b s v : is_auth_complete (progress a b s v) = v.
Proof. by destruct v. Qed.

Lemma set_sent_progress a b s v : set_sent true (progress a b s v) = progress a b true v.
Proof. done. Qed.

Ltac in_list := repeat (first [apply list_elem_of_here|apply list_elem_of_further]).
Ltac xk := first [done | apply (xk_i0 _ _ X) | apply (xk_r0 _ _ X) | apply (xk_i1 _ _ X)
  | apply (xk_r1 _ _ X) | apply (xk_lengths _ _ X) | apply (xk_idle _ _ X); in_list
  | apply (xk_pending _ _ X); in_list | apply (xk_complete _ _ X); in_list
  | apply (xk_acts _ _ X); in_list].

(** Events that change nothing but an end's own progress are delivered as no
    bytes. *)
Lemma deliver_eq ra f p i o t a ra' f' p' i' t' a' :
  deliver (end_ ra f p i o t a) (end_ ra' f' p' i' [] t' a') =
    (end_ ra f p i [] t a, end_ ra' f' p' (i' ++ o) [] t' a').
Proof. done. Qed.

Ltac facts :=
  unfold effect, noise_established, end_; simpl; rewrite ?set_sent_progress, ?progress_complete;
  rewrite ?(xk_pending _ _ X i0), ?(xk_pending _ _ X (i1 _ _ X)), ?(xk_pending _ _ X r0),
    ?(xk_pending _ _ X (r1 _ _ X)), ?(xk_complete _ _ X (i2 _ _ X)), ?(xk_complete _ _ X (r2 _ _ X))
    by in_list; split_and?; done.
Ltac effects := split; [by (left + right)|]; split; [done|]; split; [facts|];
  rewrite deliver_eq; cbn [fst snd default]; rewrite ?app_nil_r, ?app_nil_l.
Ltac event lem := eexists _, _; split; [eapply lem; xk|]; effects.
Ltac message m lem := eexists _, _; split; [rewrite <-(app_nil_r m); eapply lem; xk|]; effects.
Ltac same := by left.
Ltac at_stage k st := right; exists k; split; [unfold todo; cbn [negb Nat.b2n]; lia|apply st; try done].
Ltac at_auth si vi sr vr := at_stage (todo si vi sr vr) (stage_auth si vi sr vr).

Lemma initiator_event k e n io : stage k e → event_ok true k e n io.
Proof.
  intros Hst Hio. destruct Hst as [| | |si|si vi sr vr Hvi Hvr]; destruct io;
    cbn [initiator responder end_of ends negb] in Hio |- *; try done; unfold end_i, end_r.
  - event event_write_handshake. at_stage 7 stage_act1.
  - event event_write_handshake. same.
  - message (act2 _ _ X) event_read_handshake.
    rewrite <-(app_nil_r (act3 _ _ X)). at_stage 5 (stage_act3 false).
  - event event_write_handshake. same.
  - destruct si; cbn [creds].
    + event event_write_ready. same.
    + event event_write_auth. at_stage 4 (stage_act3 true).
  - destruct sr, vi; try done; cbn [creds andb negb].
    eexists _, _. split; [rewrite <-(app_nil_r (credentials _ _)); eapply event_read_auth; try xk; try apply Hcr|].
    { right. by rewrite <-Hid. }
    effects. at_auth si true true vr.
  - destruct si; [event event_write_ready; same|].
    assert (vr = false) as -> by (by destruct vr).
    event event_write_auth. at_auth true vi sr false.
Qed.

Lemma responder_event k e n io : stage k e → event_ok false k e n io.
Proof.
  intros Hst Hio. destruct Hst as [| | |si|si vi sr vr Hvi Hvr]; destruct io;
    cbn [initiator responder end_of ends negb] in Hio |- *; try done; unfold end_i, end_r.
  - event event_write_handshake. same.
  - message (act1 _ _ X) event_read_handshake. at_stage 6 stage_act2.
  - event event_write_handshake. same.
  - event event_write_handshake. same.
  - event event_read_handshake.
    destruct si; [at_auth true false false false|at_auth false false false false].
  - event event_write_handshake. same.
  - destruct si, vr; try done; cbn [creds andb negb].
    eexists _, _. split; [rewrite <-(app_nil_r (credentials _ _)); eapply event_read_auth; try xk; try apply Hci; by left|].
    effects. at_auth true vi sr true.
  - destruct sr; [event event_write_ready; same|].
    assert (vi = false) as -> by (by destruct vi).
    event event_write_auth. at_auth si false true vr.
Qed.

Lemma stage_event out k e n io : stage k e → event_ok out k e n io.
Proof. destruct out; [apply initiator_event|apply responder_event]. Qed.

(** *** The next event that is needed *)

(** Events that the reactor of an end reports and its transport carries out:
    bytes wait to be read, or the end has yet to speak. *)
Definition needed (out : bool) (io : Io) (s : NoiseXk Pipe.t) : Prop :=
  match io with
  | Read => Pipe.inb (connection s) ≠ []
  | Write => Auth.sent (authenticator s) = false ∧
      (out = true ∨ is_handshake_complete (transcoder s) = true)
  end.
Definition decreases (out : bool) (io : Io) (k : nat) e : Prop :=
  needed out io (end_of out e) ∧ ∀ n r s',
    on_event debug fuel n io (end_of out e) = Ret (r, s') →
    ∃ k', k' < k ∧ stage k' (ends out (deliver s' (end_of (negb out) e))).

Lemma act_waits (act rest : list byte) : act ≠ [] → act ++ rest ≠ [].
Proof. by destruct act. Qed.

Lemma creds_wait a : certified a → credentials (pubkey a) (signature a) ≠ [].
Proof.
  intros [Hl _] E. apply (f_equal length) in E. unfold credentials in E. rewrite length_app in E.
  simpl in E. lia.
Qed.

Ltac occurs lem := let E := fresh in intros ??? E; cbn [initiator responder end_of ends negb] in E |- *;
  erewrite lem in E by xk; injection E as <- <-;
  rewrite deliver_eq; cbn [fst snd default]; rewrite ?app_nil_r, ?app_nil_l.
Ltac reach k st := exists k; split; [unfold todo; cbn [negb Nat.b2n]; lia|apply st; try done].

Lemma stage_progress k e : stage k e → k ≠ 0 → ∃ out io, decreases out io k e.
Proof.
  intros Hst Hk. destruct Hst as [| | |si|si vi sr vr Hvi Hvr]; unfold end_i, end_r, decreases.
  - exists true, Write. split; [by split; [|left]|]. occurs event_write_handshake. reach 7 stage_act1.
  - exists false, Read. split; [apply (xk_acts _ _ X); in_list|]. rewrite <-(app_nil_r (act1 _ _ X)).
    occurs event_read_handshake. reach 6 stage_act2.
  - exists true, Read. split; [apply (xk_acts _ _ X); in_list|]. rewrite <-(app_nil_r (act2 _ _ X)).
    occurs event_read_handshake. rewrite <-(app_nil_r (act3 _ _ X)). reach 5 (stage_act3 false).
  - exists false, Read. split; [apply act_waits, (xk_acts _ _ X); in_list|]. occurs event_read_handshake.
    destruct si; [reach (todo true false false false) (stage_auth true false false false)|
      reach (todo false false false false) (stage_auth false false false false)].
  - destruct si.
    2:{ assert (vr = false) as -> by (by destruct vr). exists true, Write. split; [by split; [|left]|].
        occurs event_write_auth. reach (todo true vi sr false) (stage_auth true vi sr false). }
    destruct sr.
    2:{ assert (vi = false) as -> by (by destruct vi). exists false, Write.
        split; [split; [done|right; apply (xk_complete _ _ X); in_list]|].
        occurs event_write_auth. reach (todo true false true vr) (stage_auth true false true vr). }
    destruct vi.
    2:{ exists true, Read. split; [apply creds_wait, Hcr|]. cbn [creds andb negb].
        rewrite <-(app_nil_r (credentials (pubkey ar) _)).
        intros ??? E. cbn [initiator responder end_of ends negb] in E |- *.
        erewrite event_read_auth in E; try xk; try apply Hcr; [|right; by rewrite <-Hid].
        injection E as <- <-. rewrite deliver_eq; cbn [fst snd]. rewrite app_nil_r.
        reach (todo true true true vr) (stage_auth true true true vr). }
    destruct vr; [done|]. exists false, Read. split; [apply creds_wait, Hci|]. cbn [creds andb negb].
    rewrite <-(app_nil_r (credentials (pubkey ai) _)).
    intros ??? E. cbn [initiator responder end_of ends negb] in E |- *.
    erewrite event_read_auth in E; try xk; try apply Hci; [|by left].
    injection E as <- <-. rewrite deliver_eq; cbn [fst snd]. rewrite app_nil_r.
    reach (todo true true true true) (stage_auth true true true true).
Qed.

(** *** What the stages say *)

Lemma stage_bound k e : stage k e → k ≤ 8.
Proof.
  intros [| | |si|si vi sr vr _ _]; [lia..|destruct si; simpl; lia|].
  destruct si, vi, sr, vr; unfold todo; simpl; lia.
Qed.

Lemma end_i_identity t s v b : noise_established (end_i t s v b) = true →
  noise_session_id (end_i t s v b) = Some (pubkey ar) ∧
  remote_id (authenticator (end_i t s v b)) = Some (pubkey ar).
Proof.
  unfold noise_established. intros [_ Hv]%andb_prop. simpl in Hv. rewrite progress_complete in Hv. subst v.
  split; [|done]. simpl. by rewrite <-Hid.
Qed.

Lemma end_r_identity t s v b : noise_established (end_r t s v b) = true →
  noise_session_id (end_r t s v b) = Some (pubkey ai) ∧
  remote_id (authenticator (end_r t s v b)) = Some (pubkey ai).
Proof. unfold noise_established. intros [_ Hv]%andb_prop. simpl in Hv. rewrite progress_complete in Hv. by subst v. Qed.

(** The key that an end expects of the other. *)
Definition other_key (out : bool) : PublicKey := if out then pubkey ar else pubkey ai.

Lemma stage_identity out k e : stage k e → noise_established (end_of out e) = true →
  noise_session_id (end_of out e) = Some (other_key out) ∧
  remote_id (authenticator (end_of out e)) = Some (other_key out).
Proof. destruct out; intros []; first [apply end_i_identity|apply end_r_identity]. Qed.

Lemma stage_done e : stage 0 e → ∀ out, noise_ready (end_of out e).
Proof.
  intros Hst out. inversion Hst as [| | | |si vi sr vr Hvi Hvr Hk]; subst.
  unfold noise_ready, noise_established, is_auth_sent, is_auth_complete.
  destruct si, vi, sr, vr; try done. destruct out; simpl;
    by rewrite ?(xk_complete _ _ X (i2 _ _ X)), ?(xk_complete _ _ X (r2 _ _ X)) by in_list.
Qed.

(** An end that is established has nothing left to read. *)
Lemma stage_drained out k e : stage k e → noise_established (end_of out e) = true →
  Pipe.inb (connection (end_of out e)) = [].
Proof.
  destruct out; intros [| | |si|si vi sr vr _ _]; unfold noise_established; simpl; rewrite ?progress_complete;
    try done; intros [_ E]%andb_prop; subst; by rewrite ?andb_false_r.
Qed.

(** What an end wrote is always under way. *)
Lemma stage_sent out k e : stage k e → Pipe.outb (connection (end_of out e)) = [].
Proof. by destruct out; intros []. Qed.
End agreement.

(** ** A handshake that is under way

    What the stages say, without the run of the protocol that they are of: two
    ends with certified keys, [k] events before both are ready. *)
Section underway.
Context `{NL : NoiseLib} `{EL : !Ed25519Laws} (debug : bool) (fuel : nat) (Hfuel : fuel ≠ 0).
Context (pk_i pk_r : PublicKey).

Definition underway (k : nat) (e : Ends) : Prop :=
  ∃ i0 r0 (X : XkRun i0 r0) addr from fi pi fr pr ai ar,
    certified ai ∧ certified ar ∧ peer_addr_id addr = pubkey ar ∧ pubkey ai = pk_i ∧ pubkey ar = pk_r ∧
    stage i0 r0 X addr from fi pi fr pr ai ar k e.

Lemma underway_start `{XL : !XkLaws} key_i key_r kr addr connect sig_i sig_r (cr : Pipe.t) si sr :
  let ai := Auth.new pk_i sig_i in let ar := Auth.new pk_r sig_r in
  certified ai → certified ar → peer_addr_id addr = pk_r →
  ecdh_from_ed25519 key_r = Some kr → ecdh_public_from_ed25519 pk_r = Some (public_of kr) →
  connect_nonblocking addr key_i ai connect = Ret (Ok si) → accept cr key_r ar = Ret sr →
  (∀ c, c = connection si ∨ c = cr → Pipe.inb c = [] ∧ Pipe.outb c = []) →
  underway 8 {| initiator := si; responder := sr |}.
Proof.
  intros ai ar Hci Hcr Hid Hkr Hpk Hi Hr Hfresh.
  unfold connect_nonblocking in Hi. rewrite Hid, Hpk in Hi.
  destruct (ecdh_from_ed25519 key_i) as [ki|]; [|done]. simpl in Hi. destruct (connect _) as [[fi pi ib ob]|]; [|done].
  injection Hi as <-. unfold accept in Hr. rewrite Hkr in Hr. simpl in Hr. injection Hr as <-.
  destruct (Hfresh _ (or_introl eq_refl)) as [Hib Hob]. simpl in Hib, Hob. subst ib ob.
  destruct (Hfresh _ (or_intror eq_refl)) as [Hib Hob]. destruct cr as [fr pr ib ob]. simpl in Hib, Hob. subst ib ob.
  exists _, _, (xk_run ki kr), addr, pr, fi, pi, fr, pr, ai, ar. split_and!; [done..|]. apply stage_start.
Qed.

Lemma underway_event out k e n io : underway k e → reports io (end_of out e) →
  ∃ r s', on_event debug fuel n io (end_of out e) = Ret (r, s') ∧ interrupted_or_ok r ∧
    (io = Read → r = Ok tt) ∧ effect io (end_of out e) s' ∧
    (ends out (deliver s' (end_of (negb out) e)) = e ∨
     ∃ k', k' < k ∧ underway k' (ends out (deliver s' (end_of (negb out) e)))).
Proof.
  intros (i0 & r0 & X & addr & from & fi & pi & fr & pr & ai & ar & Hci & Hcr & Hid & Hi & Hr & Hst) Hio.
  destruct (stage_event debug fuel Hfuel _ _ _ _ _ _ _ _ _ ai ar Hci Hcr Hid out _ _ n io Hst Hio)
    as (r & s' & ? & ? & ? & ? & Hk).
  exists r, s'. split_and!; [done..|]. destruct Hk as [?|(k' & ? & ?)]; [by left|right].
  exists k'. split; [done|]. unfold underway. eauto 20.
Qed.

Lemma underway_progress k e : underway k e → k ≠ 0 →
  ∃ out io, needed out io (end_of out e) ∧ ∀ n r s', on_event debug fuel n io (end_of out e) = Ret (r, s') →
    ∃ k', k' < k ∧ underway k' (ends out (deliver s' (end_of (negb out) e))).
Proof.
  intros (i0 & r0 & X & addr & from & fi & pi & fr & pr & ai & ar & Hci & Hcr & Hid & Hi & Hr & Hst) Hk.
  destruct (stage_progress debug fuel Hfuel _ _ _ _ _ _ _ _ _ ai ar Hci Hcr Hid _ _ Hst Hk)
    as (out & io & Hn & Hdec).
  exists out, io. split; [done|]. intros n r s' E. destruct (Hdec n r s' E) as (k' & ? & ?).
  exists k'. split; [done|]. unfold underway. eauto 20.
Qed.

Lemma underway_identity out k e : underway k e → noise_established (end_of out e) = true →
  let other := if out then pk_r else pk_i in
  noise_session_id (end_of out e) = Some other ∧ remote_id (authenticator (end_of out e)) = Some other.
Proof.
  intros (i0 & r0 & X & addr & from & fi & pi & fr & pr & ai & ar & _ & _ & Hid & Hi & Hr & Hst) He.
  subst pk_i pk_r. by eapply stage_identity.
Qed.

Lemma underway_drained out k e : underway k e → noise_established (end_of out e) = true →
  Pipe.inb (connection (end_of out e)) = [].
Proof.
  intros (i0 & r0 & X & addr & from & fi & pi & fr & pr & ai & ar & _ & _ & _ & _ & _ & Hst).
  by eapply stage_drained.
Qed.

Lemma underway_sent out k e : underway k e → Pipe.outb (connection (end_of out e)) = [].
Proof.
  intros (i0 & r0 & X & addr & from & fi & pi & fr & pr & ai & ar & _ & _ & _ & _ & _ & Hst).
  by eapply stage_sent.
Qed.

Lemma underway_done e : underway 0 e → ∀ out, noise_ready (end_of out e).
Proof.
  intros (i0 & r0 & X & addr & from & fi & pi & fr & pr & ai & ar & _ & _ & _ & _ & _ & Hst).
  by eapply stage_done.
Qed.

Lemma underway_bound k e : underway k e → k ≤ 8.
Proof.
  intros (i0 & r0 & X & addr & from & fi & pi & fr & pr & ai & ar & _ & _ & _ & _ & _ & Hst).
  by eapply stage_bound.
Qed.

Lemma underway_rtc k e e' : underway k e → rtc (ends_step debug fuel) e e' → ∃ k', underway k' e'.
Proof.
  intros Hst Hr. revert k Hst. induction Hr as [|e1 e2 e3 Hs _ IH]; intros k Hst; [eauto|].
  destruct Hs as [out n io r s e Hio E]. destruct (underway_event out k e n io Hst Hio) as (r' & s' & E' & _ & _ & _ & Hk).
  rewrite E in E'. injection E' as <- <-. destruct Hk as [Hk|(k' & _ & Hk)]; [rewrite Hk in IH|]; eauto.
Qed.

Lemma needed_reports out io s : needed out io s → reports io s.
Proof. by destruct io. Qed.

Lemma underway_finish k e : underway k e →
  ∃ n e', n ≤ k ∧ nsteps (ends_step debug fuel) n e e' ∧ ∀ out, noise_ready (end_of out e').
Proof.
  revert e. induction (lt_wf k) as [k _ IH]. intros e Hst. destruct (decide (k = 0)) as [->|Hk].
  { exists 0, e. split_and!; [lia|constructor|by apply underway_done]. }
  destruct (underway_progress k e Hst Hk) as (out & io & Hn & Hdec). apply needed_reports in Hn.
  destruct (underway_event out k e 0 io Hst Hn) as (r & s & E & _).
  destruct (Hdec _ _ _ E) as (k1 & Hlt & Hst1). destruct (IH k1 Hlt _ Hst1) as (n & e' & Hle & Hns & Hr).
  exists (S n), e'. split_and!; [lia| |done]. eapply nsteps_l; [by econstructor|done].
Qed.
End underway.

(** ** Properties *)


(** A part of a handshake message that is read on its own is lost: the socket
    would block before the rest arrives, [read_exact] drops what it has, and
    the session waits for the whole message again. *)
Lemma partial_act_lost `{NL : NoiseLib} debug fuel n ra f p (part : list byte) o t a :
  2 ≤ fuel → is_handshake_complete t = false → part ≠ [] → length part < next_handshake_len t →
  read debug fuel n (end_ ra f p part o t a) =
    Ret (Err (from_kind WouldBlock), end_ ra f p [] o t a).
Proof.
  intros Hf Hc Hp Hl.
  assert (read_exact (C := Pipe.t) fuel (next_handshake_len t)
      {| Pipe.fd := f; Pipe.peer := p; Pipe.inb := part; Pipe.outb := o |} =
    Ret (Err (from_kind WouldBlock), {| Pipe.fd := f; Pipe.peer := p; Pipe.inb := []; Pipe.outb := o |})) as E.
  { destruct fuel as [|[|fuel]]; [lia..|]. cbn [read_exact]. rewrite decide_False by lia. unfold_prog.
    unfold Pipe.read. destruct part as [|b part]; [done|].
    cbn [Pipe.inb]. rewrite take_ge, drop_ge by lia. rewrite decide_False by (simpl in *; lia). done. }
  unfold read, end_, on_connection, zoom. unfold_prog. rewrite Hc. cbn [negb].
  simpl connection. simpl transcoder. by rewrite E.
Qed.

(** ** A run *)

Module ToyPair.
#[export] Instance laws : XkLaws (H0 := ToyNoise.lib).
Proof.
  refine {| public_of := (λ _ : unit, true) : @EcdhKey _ ToyNoise.lib → @EcdhPublic _ ToyNoise.lib |}.
  intros [] []. refine {| act1 := ToyNoise.act 1; act2 := ToyNoise.act 2; act3 := ToyNoise.act 3;
    i1 := (true, 1); i2 := (true, 2); r1 := (false, 1); r2 := (false, 2) |}; try done.
  - by intros t [-> | [-> | [-> | []%elem_of_nil]%elem_of_cons]%elem_of_cons]%elem_of_cons.
  - by intros t [-> | [-> | [-> | [-> | []%elem_of_nil]%elem_of_cons]%elem_of_cons]%elem_of_cons]%elem_of_cons.
  - by intros t [-> | [-> | []%elem_of_nil]%elem_of_cons]%elem_of_cons.
  - by intros a [-> | [-> | [-> | []%elem_of_nil]%elem_of_cons]%elem_of_cons]%elem_of_cons.
Defined.

Definition socket (fd peer : Z) : Pipe.t :=
  {| Pipe.fd := fd; Pipe.peer := peer; Pipe.inb := []; Pipe.outb := [] |}.
Definition caller : NoiseXk Pipe.t :=
  {| remote_addr := Full {| peer_addr_id := true : @PublicKey ToyKeys.keys; peer_addr_addr := (9%Z : Addr (C := Pipe.t)) |};
     connection := socket 3 9; transcoder := (true, 0) : @Transcoder _ ToyNoise.lib;
     authenticator := ToyNoise.auth false |}.
Definition callee : NoiseXk Pipe.t :=
  {| remote_addr := Partial (3%Z : Addr (C := Pipe.t)); connection := socket 4 3;
     transcoder := (false, 0) : @Transcoder _ ToyNoise.lib; authenticator := ToyNoise.auth true |}.
End ToyPair.

