(* ===== verification/NetResource.v ===== *)
(** * Network resources: src/resources.rs

    [NetAccept] and [NetResource] make a listener and a session into resources
    of the reactor. Sessions, connections and listeners are the classes of
    Net.v. *)

From S2P Require Import Prelude StdLib Resource Net.

(** [u16::MAX as usize], and the timeouts, in nanoseconds. *)
Definition READ_BUFFER_SIZE : nat := N.to_nat 65535.
Lemma READ_BUFFER_SIZE_eq : READ_BUFFER_SIZE = N.to_nat 65535.
Proof. done. Qed.
#[global] Opaque READ_BUFFER_SIZE.
Definition READ_TIMEOUT : Z := from_secs 6.
Definition WRITE_TIMEOUT : Z := from_secs 3.

(** ** [NetAccept] *)

(** [NetListener], with the methods the resource calls. *)
Class NetListener (L C : Type) := {
  SocketAddr : Type;
  listener_fd : L → Z;
  listener_accept : prog L io_error C;
  listener_set_nonblocking : bool → L → io_result unit;
  listener_local_addr : L → SocketAddr;
}.
#[global] Hint Mode NetListener ! - : typeclass_instances.

Inductive ListenerEvent (S : Type) :=
| Accepted (session : S)
| Failure (e : io_error).
Arguments Accepted {S} session.
Arguments Failure {S} e.

Section net_accept.
Context {L C S Context_ : Type} `{NL : NetListener L C} `{NC : NetConnection C}.
(** [S::accept(stream, &self.session_context)] *)
Context (session_accept : C → Context_ → outcome (io_result S)).

Record NetAccept := { session_context : Context_; listener : L }.

Definition accept_set_listener (l : L) (self : NetAccept) : NetAccept :=
  {| session_context := session_context self; listener := l |}.

(** [NetAccept::bind]; [bound] is what [L::bind(addr)] returns. *)
Definition accept_bind (bound : io_result L) (ctx : Context_) : io_result NetAccept :=
  listener ← bound;
  _ ← listener_set_nonblocking true listener;
  Ok {| session_context := ctx; listener := listener |}.

(** [impl io::Write for NetAccept] *)
Definition accept_write (_ : list byte) : prog NetAccept io_error nat :=
  throw (from_kind InvalidInput).
Definition accept_flush : prog NetAccept io_error unit := throw (from_kind InvalidInput).

(** The settings [handle_accept] makes on the new stream. *)
Definition configure (nonblocking : bool) : prog C io_error unit :=
  conn_set_read_timeout (Some READ_TIMEOUT) ≫= λ _,
  conn_set_write_timeout (Some WRITE_TIMEOUT) ≫= λ _,
  if nonblocking then conn_set_nonblocking true else mret tt.

Definition handle_accept : prog NetAccept io_error S :=
  zoom listener accept_set_listener listener_accept ≫= λ stream,
  gets session_context ≫= λ ctx,
  of_outcome (configure true stream) ≫= λ '(r, stream),
  of_result r ≫= λ _,
  of_outcome (session_accept stream ctx) ≫= λ accepted,
  of_result accepted.

Definition accept_handle_io (io : Io) (self : NetAccept) :
    outcome (option (ListenerEvent S) * NetAccept) :=
  match io with
  | Read =>
      '(r, self) ← handle_accept self;
      Ret (Some (match r with Err err => Failure err | Ok session => Accepted session end), self)
  | Write => Ret (None, self)
  end.

#[export] Instance net_accept : Resource NetAccept (SocketAddr (L := L)) (ListenerEvent S) := {|
  res_id self := listener_local_addr (listener self);
  as_raw_fd self := listener_fd (listener self);
  interests _ := IoType.read_only;
  handle_io := accept_handle_io;
  disconnect _ := Ret (Ok tt);
  is_ready_to_write _ := false;
  write_or_buffer _ := throw (from_kind InvalidInput);
|}.
End net_accept.

(** ** [NetResource] *)

Inductive SessionEvent (Id : Type) :=
| Established (id : Id)
| Data (data : list byte)
| Terminated (e : io_error).
Arguments Established {Id} id.
Arguments Data {Id} data.
Arguments Terminated {Id} e.

Module TransportState.
Inductive t := Init | Handshake | Active | Terminated.
#[global] Instance eq_dec : EqDecision t.
Proof. solve_decision. Defined.

(** [derive(Ord)]: the order of the constructors. *)
Definition rank (s : t) : nat :=
  match s with Init => 0 | Handshake => 1 | Active => 2 | Terminated => 3 end.
End TransportState.

Section net_resource.
Context {S : Type} `{NS : NetSession S} (debug : bool).

Record NetResource := {
  state : TransportState.t;
  session : S;
  inbound : bool;
  write_intent : bool;
  read_buffer : list byte;
  read_buffer_len : nat;
  write_buffer : list byte;
}.

Definition set_state (x : TransportState.t) (r : NetResource) : NetResource :=
  {| state := x; session := session r; inbound := inbound r; write_intent := write_intent r;
     read_buffer := read_buffer r; read_buffer_len := read_buffer_len r;
     write_buffer := write_buffer r |}.
Definition set_session (x : S) (r : NetResource) : NetResource :=
  {| state := state r; session := x; inbound := inbound r; write_intent := write_intent r;
     read_buffer := read_buffer r; read_buffer_len := read_buffer_len r;
     write_buffer := write_buffer r |}.
Definition set_write_intent (x : bool) (r : NetResource) : NetResource :=
  {| state := state r; session := session r; inbound := inbound r; write_intent := x;
     read_buffer := read_buffer r; read_buffer_len := read_buffer_len r;
     write_buffer := write_buffer r |}.
Definition set_read (buf : list byte) (len : nat) (r : NetResource) : NetResource :=
  {| state := state r; session := session r; inbound := inbound r;
     write_intent := write_intent r; read_buffer := buf; read_buffer_len := len;
     write_buffer := write_buffer r |}.
Definition set_write_buffer (x : list byte) (r : NetResource) : NetResource :=
  {| state := state r; session := session r; inbound := inbound r;
     write_intent := write_intent r; read_buffer := read_buffer r;
     read_buffer_len := read_buffer_len r; write_buffer := x |}.

Definition on_session {A} (m : prog S io_error A) : prog NetResource io_error A :=
  zoom session set_session m.

(** [with_state]; the buffer holds zeroes. *)
Definition with_state (s : S) (inbound_ : bool) (st : TransportState.t) :
    outcome (io_result NetResource) :=
  '(r, s) ← (sess_set_read_timeout (Some READ_TIMEOUT) ≫= λ _,
             sess_set_write_timeout (Some WRITE_TIMEOUT)) s;
  Ret (match r with
       | Err e => Err e
       | Ok _ => Ok {| state := st; session := s; inbound := inbound_; write_intent := false;
                       read_buffer := replicate READ_BUFFER_SIZE Byte.x00;
                       read_buffer_len := 0; write_buffer := [] |}
       end).

Definition new (s : S) : outcome (io_result NetResource) :=
  with_state s true TransportState.Handshake.

Definition with_session (s : S) (inbound_ : bool) : NetResource :=
  {| state := TransportState.Active; session := s; inbound := inbound_; write_intent := false;
     read_buffer := []; read_buffer_len := 0; write_buffer := [] |}.

Definition into_session (r : NetResource) : outcome S :=
  if debug && negb (read_buffer_len r =? 0)%nat then Panic "read buffer not empty"
  else if debug && negb (bool_decide (write_buffer r = [])) then Panic "write buffer not empty"
  else Ret (session r).

(** The constructors of [impl NetSession for NetResource], given the session
    the inner constructor returns. *)
Definition resource_accept (accepted : io_result S) : outcome (io_result NetResource) :=
  match accepted with Err e => Ret (Err e) | Ok s => new s end.
Definition resource_connect_blocking (connected : io_result S) : outcome (io_result NetResource) :=
  match connected with
  | Err e => Ret (Err e)
  | Ok s => with_state s false TransportState.Handshake
  end.
Definition resource_connect_nonblocking (connected : io_result S) :
    outcome (io_result NetResource) :=
  match connected with
  | Err e => Ret (Err e)
  | Ok s => with_state s false TransportState.Init
  end.

Definition is_inbound (r : NetResource) : bool := inbound r.
Definition is_outbound (r : NetResource) : bool := negb (is_inbound r).

Definition drain_read_buffer {E} : prog NetResource E (list byte) := λ r,
  if decide (length (read_buffer r) < read_buffer_len r)
  then Panic "range end index out of range for slice"
  else Ret (Ok (take (read_buffer_len r) (read_buffer r)), set_read (read_buffer r) 0 r).

Definition terminate {E} (reason : io_error) : prog NetResource E (SessionEvent (SessionId (S := S))) :=
  modify (set_state TransportState.Terminated) ≫= λ _, mret (Terminated reason).

(** [self.flush()] is [impl Write for NetResource]: it flushes the session. *)
Definition flush : prog NetResource io_error unit := on_session sess_flush.

Definition Never : Type := Empty_set.

Definition handle_writable : prog NetResource Never (option (SessionEvent (SessionId (S := S)))) :=
  gets (λ r, is_session_established (session r)) ≫= λ established,
  if negb established then
    attempt (on_session (sess_write [])) ≫= λ _,
    modify (set_write_intent true) ≫= λ _, mret None
  else
    attempt flush ≫= λ res,
    match res with
    | Ok _ => modify (set_write_intent false) ≫= λ _, mret None
    | Err err =>
        if decide (kind err ∈ [WouldBlock; WriteZero]) then
          modify (set_write_intent true) ≫= λ _, mret None
        else terminate err ≫= λ e, mret (Some e)
    end.

(** [self.session.read(&mut self.read_buffer[self.read_buffer_len..])]: the
    bytes read overwrite the buffer from [read_buffer_len] on. *)
Definition read_into_buffer : prog NetResource io_error nat :=
  gets id ≫= λ r,
  if decide (length (read_buffer r) < read_buffer_len r)
  then panic "range start index out of range for slice"
  else
    on_session (sess_read (length (read_buffer r) - read_buffer_len r)) ≫= λ bs,
    modify (set_read (take (read_buffer_len r) (read_buffer r) ++ bs ++
                      drop (read_buffer_len r + length bs) (read_buffer r)) (read_buffer_len r))
      ≫= λ _, mret (length bs).

Definition handle_readable : prog NetResource Never (option (SessionEvent (SessionId (S := S)))) :=
  attempt read_into_buffer ≫= λ res,
  gets (λ r, is_session_established (session r)) ≫= λ established,
  match res with
  | Ok O =>
      if negb established then mret None
      else mret (Some (Terminated (from_kind ConnectionReset)))
  | Ok len =>
      modify (λ r, set_read (read_buffer r) (read_buffer_len r + len) r) ≫= λ _,
      drain_read_buffer ≫= λ data, mret (Some (Data data))
  | Err err =>
      if decide (kind err = WouldBlock) then mret None
      else terminate err ≫= λ e, mret (Some e)
  end.

Definition net_interests (r : NetResource) : IoType.t :=
  match state r with
  | TransportState.Init => IoType.write_only
  | TransportState.Terminated => IoType.none
  | TransportState.Active | TransportState.Handshake =>
      if write_intent r then IoType.read_write else IoType.read_only
  end.

(** The checks and the transition before the I/O; whether to force a write. *)
Definition prepare_io : prog NetResource Never bool :=
  debug_assert debug (λ r, negb (bool_decide (state r = TransportState.Terminated)))
    "I/O on terminated transport" ≫= λ _,
  gets state ≫= λ st,
  match st with
  | TransportState.Init => modify (set_state TransportState.Handshake) ≫= λ _, mret true
  | TransportState.Handshake =>
      debug_assert debug (λ r, (read_buffer_len r =? 0)%nat) "read buffer not empty" ≫= λ _,
      debug_assert debug (λ r, negb (is_session_established (session r)))
        "session is established during handshake" ≫= λ _, mret false
  | _ => mret false
  end.

(** The transition after the I/O. *)
Definition finish_io (resp : option (SessionEvent (SessionId (S := S)))) :
    prog NetResource Never (option (SessionEvent (SessionId (S := S)))) :=
  gets id ≫= λ r,
  let reset := match resp with
               | Some (Terminated e) => bool_decide (kind e = ConnectionReset)
               | _ => false
               end in
  if reset && negb (bool_decide (state r = TransportState.Handshake)) then
    modify (set_state TransportState.Terminated) ≫= λ _, mret resp
  else if is_session_established (session r) &&
          bool_decide (state r = TransportState.Handshake) then
    modify (set_write_intent true) ≫= λ _,
    modify (set_state TransportState.Active) ≫= λ _,
    of_outcome (expect_id (session r)) ≫= λ id, mret (Some (Established id))
  else mret resp.

Definition net_handle_io_prog (io : Io) : prog NetResource Never (option (SessionEvent (SessionId (S := S)))) :=
  prepare_io ≫= λ force_write_intent,
  match io with Read => handle_readable | Write => handle_writable end ≫= λ resp,
  modify (λ r,
    if (bool_decide (io = Read) && bool_decide (state r = TransportState.Handshake))
       || force_write_intent
    then set_write_intent true r else r) ≫= λ _,
  finish_io resp.

Definition net_handle_io (io : Io) (r : NetResource) :
    outcome (option (SessionEvent (SessionId (S := S))) * NetResource) :=
  net_handle_io_prog io r ≫= λ '(res, r),
  match res with
  | Ok ev => Ret (ev, r)
  | Err e => match (e : Empty_set) with end
  end.

Definition net_is_ready (r : NetResource) : bool :=
  bool_decide (state r = TransportState.Active).

Definition net_write_or_buffer (buf : list byte) : prog NetResource io_error unit :=
  gets write_buffer ≫= λ buffered,
  on_session (sess_write buffered) ≫= λ len,
  if decide (len < length buffered) then
    modify (set_write_buffer (drop len buffered ++ buf))
  else
    modify (set_write_buffer []) ≫= λ _,
    on_session (sess_write buf) ≫= λ len,
    if decide (len < length buf) then modify (set_write_buffer (drop len buf))
    else mret tt.

Definition net_disconnect (r : NetResource) : outcome (io_result unit) :=
  '(res, _) ← sess_disconnect (session r); Ret res.

#[export] Instance net_resource : Resource NetResource Z (SessionEvent (SessionId (S := S))) := {|
  res_id r := sess_fd (session r);
  as_raw_fd r := sess_fd (session r);
  interests := net_interests;
  handle_io := net_handle_io;
  disconnect := net_disconnect;
  is_ready_to_write := net_is_ready;
  write_or_buffer := net_write_or_buffer;
|}.

(** [impl Read for NetResource], [impl Write for NetResource] *)
Definition net_read (n : nat) : prog NetResource io_error (list byte) :=
  gets state ≫= λ st,
  match st with
  | TransportState.Init | TransportState.Handshake => throw (from_kind NotConnected)
  | TransportState.Active => on_session (sess_read n)
  | TransportState.Terminated => throw (from_kind ConnectionAborted)
  end.

Definition net_write (buf : list byte) : prog NetResource io_error nat :=
  attempt (write_atomic buf) ≫= λ r,
  match r with
  | Ok _ => mret (length buf)
  | Err NotReady => throw (from_kind NotConnected)
  | Err (WIo err) => throw err
  end.

(** [impl NetSession for NetResource]: the rest of it is the session's. It is
    not an instance, because the resource has other operations of its own. *)
Definition net_session : NetSession NetResource := {|
  SessionId := SessionId (S := S);
  sess_fd r := sess_fd (session r);
  sess_read := net_read;
  sess_write := net_write;
  sess_flush := flush;
  session_id r := session_id (session r);
  is_session_established r := is_session_established (session r);
  sess_set_read_timeout dur := on_session (sess_set_read_timeout dur);
  sess_set_write_timeout dur := on_session (sess_set_write_timeout dur);
  sess_set_nonblocking b := on_session (sess_set_nonblocking b);
  sess_disconnect := on_session sess_disconnect;
|}.

Definition net_peer_id (r : NetResource) : option (SessionId (S := S)) := session_id (session r).
Definition net_expect_peer_id (r : NetResource) : outcome (SessionId (S := S)) :=
  expect_id (session r).

(** *** Splitting *)

Context `{SS : !SplitIo S}.

Record NetReader := {
  nr_state : TransportState.t;
  nr_session : SplitRead (T := S);
  nr_inbound : bool;
}.
Record NetWriter := {
  nw_state : TransportState.t;
  nw_session : SplitWrite (T := S);
  nw_inbound : bool;
  needs_flush : bool;
}.

Definition net_split (self : NetResource) :
    outcome (result (NetResource * io_error) (NetReader * NetWriter)) :=
  if debug && negb (read_buffer_len self =? 0)%nat then Panic "read buffer not empty"
  else if debug && negb (bool_decide (write_buffer self = [])) then Panic "write buffer not empty"
  else
    '(flushed, self) ← flush self;
    match flushed with
    | Err err => Ret (Err (self, err))
    | Ok _ =>
        halves ← split_io (session self);
        match halves with
        | Err (original, error) => Ret (Err (set_session original self, error))
        | Ok (r, w) =>
            Ret (Ok ({| nr_state := state self; nr_session := r; nr_inbound := inbound self |},
                     {| nw_state := state self; nw_session := w; nw_inbound := inbound self;
                        needs_flush := false |}))
        end
    end.

Definition net_from_split (read : NetReader) (write : NetWriter) : outcome NetResource :=
  if debug && negb (bool_decide (nr_state read = nw_state write)) then Panic "states differ"
  else if debug && negb (bool_decide (nr_inbound read = nw_inbound write))
  then Panic "directions differ"
  else
    s ← from_split_io (nr_session read) (nw_session write);
    Ret {| state := nr_state read; inbound := nr_inbound read; session := s;
           write_intent := needs_flush write;
           read_buffer := replicate READ_BUFFER_SIZE Byte.x00;
           read_buffer_len := 0; write_buffer := [] |}.

(** [impl Read for NetReader], [impl Write for NetWriter] *)
Definition nr_set_session (x : SplitRead (T := S)) (s : NetReader) : NetReader :=
  {| nr_state := nr_state s; nr_session := x; nr_inbound := nr_inbound s |}.
Definition nw_set_session (x : SplitWrite (T := S)) (s : NetWriter) : NetWriter :=
  {| nw_state := nw_state s; nw_session := x; nw_inbound := nw_inbound s;
     needs_flush := needs_flush s |}.
Definition set_needs_flush (x : bool) (s : NetWriter) : NetWriter :=
  {| nw_state := nw_state s; nw_session := nw_session s; nw_inbound := nw_inbound s;
     needs_flush := x |}.
Definition net_reader_read (n : nat) : prog NetReader io_error (list byte) :=
  zoom nr_session nr_set_session (split_read n).
Definition net_writer_write (buf : list byte) : prog NetWriter io_error nat :=
  modify (set_needs_flush true) ≫= λ _, zoom nw_session nw_set_session (split_write buf).
Definition net_writer_flush : prog NetWriter io_error unit :=
  modify (set_needs_flush false) ≫= λ _, zoom nw_session nw_set_session split_flush.

#[export] Instance net_split_io : SplitIo NetResource := {|
  SplitRead := NetReader;
  SplitWrite := NetWriter;
  split_io := net_split;
  from_split_io := net_from_split;
  split_read := net_reader_read;
  split_write := net_writer_write;
  split_flush := net_writer_flush;
|}.
End net_resource.
Arguments NetResource S : clear implicits.
