(* ===== verification/NetResourceSpec.v ===== *)
(** * What network resources guarantee

    Theorems on src/resources.rs: writes are atomic and in order, the state
    machine of a transport, what its reads deliver, and where buffered or
    early data are left behind. *)

From stdpp Require Import relations.
From S2P Require Import Prelude StdLib Resource Net NetResource.

(** ** Writing *)

Section writes.
Context {S : Type} `{SL : SessionLaws S} (debug : bool).
Implicit Types (r : NetResource S).

(** The bytes a resource took: those the session sent and those that wait. *)
Definition taken r : list byte := sess_out (session r) ++ write_buffer r.

Lemma net_write_or_buffer_ok buf r :
  sess_ready (session r) →
  wp (net_write_or_buffer buf) (λ res r', sess_ready (session r') ∧
    sess_fd (session r') = sess_fd (session r) ∧ sess_in (session r') = sess_in (session r) ∧
    state r' = state r ∧
    match res with
    | Ok _ => taken r' = taken r ++ buf
    | Err _ => taken r' = taken r
    end) r.
Proof.
  intros Hr. unfold net_write_or_buffer, on_session, taken. wp_steps. apply wp_zoom.
  eapply wp_mono; [by apply sess_write_law|].
  intros [n|e] s (Hr1 & Hi & Hfd & Hout); simpl; [|by rewrite Hout].
  destruct Hout as [Hn Hout]. case_decide as Hlt; wp_steps; simpl.
  - split_and!; [done..|]. by rewrite Hout, <-!app_assoc, take_drop_app_middle.
  - apply wp_zoom. simpl. rewrite take_ge in Hout by lia.
    eapply wp_mono; [by apply sess_write_law|].
    intros [k|e] s2 (Hr2 & Hi2 & Hfd2 & Hout2); simpl; [|split_and!; [done|congruence..|done|]].
    + destruct Hout2 as [Hk Hout2]. case_decide as Hlt2; wp_steps; simpl;
        (split_and!; [done|congruence..|done|]).
      * by rewrite Hout2, Hout, <-!app_assoc, take_drop.
      * by rewrite Hout2, Hout, take_ge, !app_nil_r by lia.
    + by rewrite Hout2, Hout, app_nil_r.
Qed.

#[export] Instance net_resource_laws : ResourceLaws (H := net_resource debug) (NetResource S) Z _.
Proof.
  refine (@Build_ResourceLaws (NetResource S) Z _ (net_resource debug)
    (λ r, sess_ready (session r)) taken _).
  intros r buf Hr _. eapply wp_mono; [by apply net_write_or_buffer_ok|].
  intros res r' (?&?&_&?&?). by split_and!.
Defined.

(** A series of sends; [true] for those that are accepted. *)
Fixpoint send_all (bufs : list (list byte)) : prog (NetResource S) Never (list bool) :=
  match bufs with
  | [] => mret []
  | buf :: bufs =>
      (attempt (write_atomic (H := net_resource debug) buf)
         : prog (NetResource S) Never (result WriteError unit)) ≫= λ res,
      send_all bufs ≫= λ oks, mret (is_ok res :: oks)
  end.

Fixpoint accepted_bytes (oks : list bool) (bufs : list (list byte)) : list byte :=
  match oks, bufs with
  | ok :: oks, buf :: bufs => (if ok then buf else []) ++ accepted_bytes oks bufs
  | _, _ => []
  end.


(** ** A transport is a session *)

Lemma net_write_law buf r :
  state r = TransportState.Active → sess_ready (session r) →
  wp (net_write debug buf) (λ res r', (state r' = TransportState.Active ∧ sess_ready (session r')) ∧
    sess_in (session r') = sess_in (session r) ∧ sess_fd (session r') = sess_fd (session r) ∧
    match res with
    | Ok n => n ≤ length buf ∧ taken r' = taken r ++ take n buf
    | Err _ => taken r' = taken r
    end) r.
Proof.
  intros Hst Hr. unfold net_write. wp_steps. unfold wp.
  rewrite write_atomic_ready by (simpl; unfold net_is_ready; by rewrite Hst).
  apply (wp_with_err WIo (net_write_or_buffer buf)).
  eapply wp_mono; [by apply net_write_or_buffer_ok|].
  intros [[]|e] r1 (? & ? & ? & ? & Ht); simpl;
    (split_and!; [congruence|done..|]); [by rewrite firstn_all|done].
Qed.

Lemma net_read_law n r :
  state r = TransportState.Active → sess_ready (session r) →
  wp (net_read n) (λ res r', (state r' = TransportState.Active ∧ sess_ready (session r')) ∧
    taken r' = taken r ∧ sess_fd (session r') = sess_fd (session r) ∧
    match res with
    | Ok bs => length bs ≤ n ∧ sess_in (session r) = bs ++ sess_in (session r')
    | Err _ => sess_in (session r') = sess_in (session r)
    end) r.
Proof.
  intros Hst Hr. unfold net_read. wp_steps. rewrite Hst. apply wp_zoom.
  eapply wp_mono; [by apply sess_read_law|]. intros res s (? & Ho & ? & ?). unfold taken. simpl.
  by rewrite Ho.
Qed.

Definition net_session_laws : @SessionLaws (NetResource S) (net_session debug).
Proof.
  refine (@Build_SessionLaws (NetResource S) (net_session debug)
    (λ r, state r = TransportState.Active ∧ sess_ready (session r))
    (λ r, sess_in (session r)) taken _ _ _ _ _); simpl.
  - intros n r [??]. by apply net_read_law.
  - intros buf r [??]. by apply net_write_law.
  - intros r [??]. apply wp_zoom. eapply wp_mono; [by apply sess_flush_law|].
    intros res s (?&?&Ho&?). unfold taken. simpl. by rewrite Ho.
  - intros x r [??]. pose proof (sess_set_law x (session r)) as Hx.
    assert (wp (on_session (sess_set x)) (λ _ r', (state r' = TransportState.Active ∧
      sess_ready (session r')) ∧ sess_in (session r') = sess_in (session r) ∧
      taken r' = taken r ∧ sess_fd (session r') = sess_fd (session r)) r) as Hw.
    { apply wp_zoom. eapply wp_mono; [by apply Hx|]. intros res s (?&?&Ho&?).
      unfold taken. simpl. by rewrite Ho. }
    by destruct x.
  - intros r [_ Hr]. by apply sess_ready_established.
Defined.

(** C12. A transport that is taken off the reactor is a session again: when it
    is active around a session that carries data, it keeps the contract of
    sessions, with the input of its session, and for output what the session
    has sent followed by the bytes that wait in the buffer. A write takes all
    of its data or fails and takes none. *)
Theorem transport_is_session :
  ∃ SLr : @SessionLaws (NetResource S) (net_session debug),
    (∀ r, @sess_ready _ _ SLr r ↔ state r = TransportState.Active ∧ sess_ready (session r)) ∧
    (∀ r, @sess_in _ _ SLr r = sess_in (session r) ∧
          @sess_out _ _ SLr r = sess_out (session r) ++ write_buffer r) ∧
    ∀ buf r res r', @sess_ready _ _ SLr r → net_write debug buf r = Ret (res, r') →
      if is_ok res then res = Ok (length buf) ∧ taken r' = taken r ++ buf
      else taken r' = taken r.
Proof.
  exists net_session_laws. split_and!; [done|done|]. intros buf r res r' [Hst Hr] E.
  pose proof (net_write_law buf r Hst Hr) as Hw. unfold wp in Hw. rewrite E in Hw.
  destruct Hw as (_ & _ & _ & Hres). destruct res as [n|e]; simpl; [|done].
  assert (n = length buf) as ->.
  { unfold net_write in E. unfold_prog. destruct (write_atomic buf r) as [[[[]|[]] ?]| |]; by simplify_eq. }
  split; [done|]. destruct Hres as [_ Hres]. by rewrite firstn_all in Hres.
Qed.
End writes.

(** ** Handling I/O *)

Section io.
Context {S : Type} `{NS : NetSession S} (debug : bool).
Implicit Types (r : NetResource S).

(** Any I/O takes a new transport to the handshake. *)
Definition wake_state (st : TransportState.t) : TransportState.t :=
  match st with TransportState.Init => TransportState.Handshake | _ => st end.

(** The state machine of a transport: what an I/O reports, and the state after. *)
Inductive io_step (st : TransportState.t) :
    option (SessionEvent (SessionId (S := S))) → TransportState.t → Prop :=
| io_quiet : io_step st None (wake_state st)
| io_data bs : io_step st (Some (Data bs)) (wake_state st)
| io_established id :
    wake_state st = TransportState.Handshake →
    io_step st (Some (Established id)) TransportState.Active
| io_terminated e : io_step st (Some (Terminated e)) TransportState.Terminated.

(** What the two handlers may do. The end of an established stream is reported
    without a change of state. *)
Definition io_outcome r (res : result Never (option (SessionEvent (SessionId (S := S))))) r' : Prop :=
  ∃ ev, res = Ok ev ∧ write_buffer r' = write_buffer r ∧
    ((state r' = state r ∧
      (ev = None ∨ (∃ bs, ev = Some (Data bs)) ∨
       (ev = Some (Terminated (from_kind ConnectionReset)) ∧
        is_session_established (session r') = true))) ∨
     (state r' = TransportState.Terminated ∧ ∃ e, ev = Some (Terminated e))).

Lemma on_session_inv {A} (m : prog S io_error A) r res r' :
  on_session m r = Ret (res, r') → ∃ s, r' = set_session s r ∧ m (session r) = Ret (res, s).
Proof.
  unfold on_session, zoom. destruct (m (session r)) as [[? s]| |]; intros; simplify_eq. eauto.
Qed.

Lemma handle_writable_outcome r res r' :
  handle_writable r = Ret (res, r') → io_outcome r res r'.
Proof.
  unfold handle_writable, flush, terminate, io_outcome. unfold_prog. intros Hr.
  destruct (is_session_established (session r)); simpl in Hr.
  - destruct (on_session sess_flush r) as [[[[]|e] r1]| |] eqn:E1; simplify_eq;
      apply on_session_inv in E1 as (s & -> & _); [eexists; split_and!; auto|].
    case_decide; simplify_eq; eexists; split_and!; eauto.
  - destruct (on_session (sess_write []) r) as [[res1 r1]| |] eqn:E1; simplify_eq;
      apply on_session_inv in E1 as (s & -> & _). eexists; split_and!; auto.
Qed.

Lemma read_into_buffer_inv r res r' :
  read_into_buffer r = Ret (res, r') →
  state r' = state r ∧ write_buffer r' = write_buffer r.
Proof.
  unfold read_into_buffer. unfold_prog. case_decide; [done|].
  destruct (on_session _ r) as [[[bs|e] r1]| |] eqn:E1; intros; simplify_eq;
    by apply on_session_inv in E1 as (s & -> & _).
Qed.

Lemma handle_readable_outcome r res r' :
  handle_readable r = Ret (res, r') → io_outcome r res r'.
Proof.
  unfold handle_readable, terminate, drain_read_buffer, io_outcome. unfold_prog. intros Hr.
  destruct (read_into_buffer r) as [[[[|len]|e] r1]| |] eqn:E1; simplify_eq;
    apply read_into_buffer_inv in E1 as [Hst Hwb].
  - destruct (is_session_established (session r1)) eqn:He; simpl in Hr; simplify_eq;
      eexists; (split_and!; [done..|]); left; auto.
  - simpl in Hr. case_decide; [done|]. simplify_eq. eexists. split_and!; [done|done|].
    left. eauto.
  - case_decide; simplify_eq; eexists; (split_and!; [done|done|]); [by left; auto|eauto].
Qed.

Lemma prepare_io_inv r res r' :
  prepare_io debug r = Ret (res, r') → is_ok res = true ∧ r' = set_state (wake_state (state r)) r.
Proof.
  unfold prepare_io, debug_assert. unfold_prog. destruct (debug && _); [done|].
  destruct r as [[] ? ? ? ? ? ?]; simpl; try (destruct (debug && _); [done|]);
    try (destruct (debug && _); [done|]); intros; by simplify_eq.
Qed.

Lemma finish_io_inv ev r res r' :
  finish_io ev r = Ret (res, r') →
  write_buffer r' = write_buffer r ∧ session r' = session r ∧
  ((res = Ok ev ∧ state r' = TransportState.Terminated ∧ state r ≠ TransportState.Handshake ∧
      ∃ e, ev = Some (Terminated e)) ∨
   (∃ id, res = Ok (Some (Established id)) ∧ state r' = TransportState.Active ∧
      state r = TransportState.Handshake ∧ is_session_established (session r) = true ∧
      session_id (session r) = Some id) ∨
   (res = Ok ev ∧ r' = r ∧
      (ev = Some (Terminated (from_kind ConnectionReset)) →
       state r = TransportState.Handshake ∧ is_session_established (session r) = false))).
Proof.
  unfold finish_io, expect_id. unfold_prog. intros Hr.
  destruct (match ev with Some (Terminated e) => _ | _ => false end
            && negb (bool_decide (state r = TransportState.Handshake))) eqn:Ereset.
  - apply andb_prop in Ereset as [He Hst]. simplify_eq. split_and!; [done..|]. left.
    apply negb_true_iff, bool_decide_eq_false in Hst. split_and!; [done..|].
    destruct ev as [[| |e]|]; try done. eauto.
  - destruct (is_session_established (session r) && _) eqn:Eest.
    + apply andb_prop in Eest as [He Hst]. apply bool_decide_eq_true in Hst. simpl in Hr.
      destruct (session_id (session r)) as [id|] eqn:Hid; simpl in Hr; simplify_eq.
      split_and!; [done..|]. right; left. exists id. by split_and!.
    + simplify_eq. split_and!; [done..|]. right; right. split_and!; [done..|]. intros ->.
      rewrite bool_decide_true in Ereset by done. simpl in Ereset.
      apply negb_false_iff in Ereset. apply bool_decide_eq_true in Ereset.
      split; [done|]. by rewrite Ereset, bool_decide_true, andb_true_r in Eest.
Qed.

Definition io_handler (io : Io) :
    prog (NetResource S) Never (option (SessionEvent (SessionId (S := S)))) :=
  match io with Read => handle_readable | Write => handle_writable end.

Lemma io_handler_outcome io r res r' : io_handler io r = Ret (res, r') → io_outcome r res r'.
Proof. destruct io; [apply handle_readable_outcome|apply handle_writable_outcome]. Qed.

Lemma handle_io_inv io r ev r' :
  net_handle_io debug io r = Ret (ev, r') →
  ∃ r1 ev1 r2, io_handler io (set_state (wake_state (state r)) r) = Ret (Ok ev1, r1) ∧
    state r2 = state r1 ∧ session r2 = session r1 ∧ write_buffer r2 = write_buffer r1 ∧
    finish_io ev1 r2 = Ret (Ok ev, r').
Proof.
  unfold net_handle_io, net_handle_io_prog. unfold_prog. intros Hr.
  destruct (prepare_io debug r) as [[[force|[]] r0]| |] eqn:Ep; [|done..].
  apply prepare_io_inv in Ep as [_ ->]. fold (io_handler io) in Hr.
  destruct (io_handler io _) as [[[ev1|[]] r1]| |] eqn:Eh; [|done..].
  match type of Hr with context [finish_io ev1 ?x] => set (r2 := x) in Hr end.
  exists r1, ev1, r2. split; [done|].
  split_and!; [by subst r2; destruct (_ || force)..|].
  destruct (finish_io ev1 r2) as [[[ev2|[]] r3]| |]; by simplify_eq.
Qed.

(** The one call on the session that an event makes. *)
Inductive session_call : S → S → Prop :=
| call_read n s res s' : sess_read n s = Ret (res, s') → session_call s s'
| call_flush s res s' : sess_flush s = Ret (res, s') → session_call s s'
| call_write s res s' :
    is_session_established s = false → sess_write [] s = Ret (res, s') → session_call s s'.

Lemma io_handler_session io r res r' :
  io_handler io r = Ret (res, r') → session_call (session r) (session r').
Proof.
  destruct io; simpl.
  - unfold handle_readable, read_into_buffer, drain_read_buffer, terminate. unfold_prog.
    case_decide; [done|].
    destruct (on_session _ r) as [[[bs|e] r1]| |] eqn:E1; [| |done..];
      apply on_session_inv in E1 as (s & -> & Hs); apply call_read in Hs; intros Hr.
    + destruct (length bs); [destruct (negb _); by simplify_eq|].
      simpl in Hr. case_decide; [done|]. by simplify_eq.
    + case_decide; by simplify_eq.
  - unfold handle_writable, flush, terminate. unfold_prog. intros Hr.
    destruct (is_session_established (session r)) eqn:He; simpl in Hr.
    + destruct (on_session sess_flush r) as [[[[]|e] r1]| |] eqn:E1; simplify_eq;
        apply on_session_inv in E1 as (s & -> & Hs); apply call_flush in Hs; [done|].
      case_decide; by simplify_eq.
    + destruct (on_session (sess_write []) r) as [[res1 r1]| |] eqn:E1; simplify_eq;
        apply on_session_inv in E1 as (s & -> & Hs). by eapply call_write.
Qed.

Lemma handle_io_session io r ev r' :
  net_handle_io debug io r = Ret (ev, r') →
  write_buffer r' = write_buffer r ∧ session_call (session r) (session r').
Proof.
  intros Hr. apply handle_io_inv in Hr as (r1 & ev1 & r2 & Ho & _ & Hs & Hw & Hf).
  apply finish_io_inv in Hf as (Hw3 & Hs3 & _). pose proof (io_handler_session _ _ _ _ Ho) as Hc.
  apply io_handler_outcome in Ho as (? & _ & Hw1 & _). simpl in Hw1, Hc.
  rewrite Hs3, Hs. split; [congruence|done].
Qed.

(** C9. The state machine of a transport. Every I/O event that returns follows
    it: a new transport starts the handshake; [Established] is reported exactly
    when the handshake ends, with the id of a session that is established;
    [Terminated] is reported exactly when the transport ends; states never go
    back. *)
Theorem handle_io_state_machine io r ev r' :
  net_handle_io debug io r = Ret (ev, r') →
  io_step (state r) ev (state r') ∧
  TransportState.rank (state r) ≤ TransportState.rank (state r') ∧
  (∀ id, ev = Some (Established id) →
     is_session_established (session r') = true ∧ session_id (session r') = Some id).
Proof.
  intros Hr. apply handle_io_inv in Hr as (r1 & ev1 & r2 & Ho & Hst2 & Hs2 & _ & Hf).
  apply io_handler_outcome in Ho. apply finish_io_inv in Hf as (_ & Hs' & Hf).
  destruct Ho as (ev0 & [= <-] & _ & Ho). simpl in Ho. rewrite <-Hst2, <-Hs2 in Ho.
  assert (TransportState.rank (state r) ≤ TransportState.rank (wake_state (state r)) ≤ 3) as Hrank
    by (destruct (state r); simpl; lia).
  destruct Hf as [([= ->] & Hst' & Hne & e & ->)|[(id & [= ->] & Hst' & Hhs & Hest & Hid)|([= ->] & -> & Hc)]].
  - rewrite Hst'. split_and!; [constructor|simpl; lia|done].
  - rewrite Hst', Hs'. assert (wake_state (state r) = TransportState.Handshake) as Hw.
    { destruct Ho as [[Ho _]|[Ho _]]; congruence. }
    split_and!; [by constructor|rewrite Hw in Hrank; simpl in *; lia|]. by intros ? [= <-].
  - destruct Ho as [[Ho He]|[Ho [e ->]]]; rewrite Ho.
    + split; [|split; [lia|]].
      * destruct He as [->|[[bs ->]|[-> Hest]]]; [constructor|constructor|].
        destruct (Hc eq_refl) as [_ Hn]. congruence.
      * intros id. destruct He as [->|[[bs ->]|[-> _]]]; done.
    + split_and!; [constructor|simpl; lia|done].
Qed.

End io.

(** ** Reading, and what stays behind *)

Section reads.
Context {S : Type} `{SL : SessionLaws S} (debug : bool).
Implicit Types (r : NetResource S).

(** A transport between two I/O events: its read buffer is empty. *)
Definition idle r : Prop := sess_ready (session r) ∧ read_buffer_len r = 0.

Lemma wp_read_into_buffer r :
  idle r →
  wp read_into_buffer (λ res r', sess_ready (session r') ∧
    sess_out (session r') = sess_out (session r) ∧ state r' = state r ∧
    read_buffer_len r' = 0 ∧ length (read_buffer r') = length (read_buffer r) ∧
    match res with
    | Ok n => ∃ bs, length bs = n ∧ n ≤ length (read_buffer r) ∧ take n (read_buffer r') = bs ∧
                    sess_in (session r) = bs ++ sess_in (session r')
    | Err _ => sess_in (session r') = sess_in (session r)
    end) r.
Proof.
  intros [Hr Hl]. unfold read_into_buffer, on_session. wp_steps. rewrite decide_False by lia.
  wp_steps. apply wp_zoom. rewrite Hl, Nat.sub_0_r.
  eapply wp_mono; [by apply sess_read_law|]. intros [bs|e] s (Hr' & Ho & _ & Hin); simpl.
  - destruct Hin as [Hlen Hin]. wp_steps. simpl.
    split_and!; [done..|rewrite length_app, length_drop; lia|]. exists bs.
    split_and!; [done|done|by rewrite take_app_length|done].
  - by split_and!.
Qed.

(** [handle_readable] on a ready session. *)
Lemma wp_handle_readable r :
  idle r →
  wp handle_readable (λ res r', ∃ ev, res = Ok ev ∧ idle r' ∧
    sess_out (session r') = sess_out (session r) ∧
    length (read_buffer r') = length (read_buffer r) ∧
    match ev with
    | Some (Data bs) => bs ≠ [] ∧ length bs ≤ length (read_buffer r) ∧ state r' = state r ∧
                        sess_in (session r) = bs ++ sess_in (session r')
    | Some (Established _) => False
    | Some (Terminated _) => sess_in (session r') = sess_in (session r) ∧
                             (state r' = state r ∨ state r' = TransportState.Terminated)
    | None => sess_in (session r') = sess_in (session r) ∧ state r' = state r
    end) r.
Proof.
  intros Hi. unfold handle_readable, terminate. wp_steps.
  eapply wp_mono; [by apply wp_read_into_buffer|].
  intros [[|n]|e] r1 (Hr & Ho & Hst & Hl & Hlen & Hin); wp_steps.
  - destruct Hin as (bs & Hb & _ & _ & Hin). destruct bs; [|done]. simpl in Hin.
    rewrite sess_ready_established by done. simpl. wp_steps.
    eexists. split; [done|]. split; [by split|]. simpl. split_and!; auto.
  - destruct Hin as (bs & Hb & Hle & Htk & Hin). unfold drain_read_buffer, wp at 1. simpl.
    rewrite Hl. simpl. rewrite decide_False by lia. eexists. split; [done|]. simpl.
    split_and!; [by split|done|done| |rewrite length_take; lia|done|by rewrite Htk].
    rewrite Htk. by destruct bs.
  - case_decide; wp_steps; eexists; (split; [done|]); (split; [by split|]); simpl; split_and!; auto.
Qed.

(** [finish_io] leaves an active transport's event alone, unless it ends it. *)
Lemma wp_active_finish ev r Q :
  state r ≠ TransportState.Handshake →
  (∀ st, Q (Ok ev) (set_state st r)) →
  wp (finish_io ev) Q r.
Proof.
  intros Hst HQ. unfold finish_io. wp_steps.
  rewrite (bool_decide_false (state r = TransportState.Handshake)) by done.
  rewrite andb_true_r, andb_false_r. destruct ev as [[?|?|e]|]; simpl; try case_bool_decide;
    wp_steps; try apply HQ; by pose proof (HQ (state r)); destruct r.
Qed.

(** C11. An active transport delivers what its session reads: a read event
    that yields data yields the next bytes of the stream, all that were read
    and at least one, and no other outcome consumes any; the transport neither
    panics nor keeps bytes back. *)
Theorem active_read_delivers r :
  idle r → state r = TransportState.Active →
  ∃ ev r', net_handle_io debug Read r = Ret (ev, r') ∧ idle r' ∧
    length (read_buffer r') = length (read_buffer r) ∧
    sess_out (session r') = sess_out (session r) ∧
    match ev with
    | Some (Data bs) => bs ≠ [] ∧ sess_in (session r) = bs ++ sess_in (session r')
    | Some (Established _) => False
    | _ => sess_in (session r') = sess_in (session r)
    end.
Proof.
  intros Hi Hst.
  assert (wp (net_handle_io_prog debug Read) (λ res r', ∃ ev, res = Ok ev ∧ idle r' ∧
    length (read_buffer r') = length (read_buffer r) ∧
    sess_out (session r') = sess_out (session r) ∧
    match ev with
    | Some (Data bs) => bs ≠ [] ∧ sess_in (session r) = bs ++ sess_in (session r')
    | Some (Established _) => False
    | _ => sess_in (session r') = sess_in (session r)
    end) r) as Hwp.
  { unfold net_handle_io_prog, prepare_io, debug_assert. wp_steps. unfold wp at 1. rewrite Hst.
    rewrite bool_decide_false, andb_false_r by done. wp_steps. rewrite Hst. wp_steps.
    eapply wp_mono; [by apply wp_handle_readable|].
    intros res r1 (ev & -> & [Hr Hl] & Ho & Hlen & Hin). wp_steps.
    assert (state r1 ≠ TransportState.Handshake) as Ehs.
    { destruct ev as [[?|?|?]|]; [done|..]; destruct_and?; destruct_or?; congruence. }
    rewrite bool_decide_false by done. simpl. apply wp_active_finish; [done|].
    intros st. exists ev. simpl. split_and!; try done. destruct ev as [[?|?|?]|]; naive_solver. }
  unfold wp in Hwp. unfold net_handle_io, mbind, outcome_bind.
  destruct (net_handle_io_prog debug Read r) as [[res r']| |]; [|done..].
  destruct Hwp as (ev & -> & Hrest). by exists ev, r'.
Qed.

(** One I/O event. *)
Definition io_event r r' : Prop := ∃ io ev, net_handle_io debug io r = Ret (ev, r').

(** Buffered data stay where they are: no sequence of I/O events, however
    often the socket is reported writable, sends a byte of the write buffer.
    Only the next send does. *)
Theorem buffered_data_stays r r' :
  sess_ready (session r) → rtc io_event r r' →
  write_buffer r' = write_buffer r ∧ sess_out (session r') = sess_out (session r).
Proof.
  intros Hr Hio. revert Hr. induction Hio as [|r1 r2 r3 (io & ev & Hs) _ IH]; [done|]. intros Hr.
  apply handle_io_session in Hs as [Hw Hs].
  assert (sess_ready (session r2) ∧ sess_out (session r2) = sess_out (session r1)) as [Hr2 Ho].
  { inversion Hs as [n s res s' Hc|s res s' Hc|s res s' He _]; subst.
    - pose proof (sess_read_law n _ Hr) as Hl. unfold wp in Hl. rewrite Hc in Hl. naive_solver.
    - pose proof (sess_flush_law _ Hr) as Hl. unfold wp in Hl. rewrite Hc in Hl. naive_solver.
    - by rewrite sess_ready_established in He. }
  destruct (IH Hr2) as [??]. split; congruence.
Qed.
End reads.

(** ** Transports that start from an established session *)

Section established.
Context {S : Type} `{NS : NetSession S}.

(** A transport made by [connect_blocking], whose session is already
    established, is put in the handshake state. With debug assertions its first
    I/O event panics; without them the event reports the session established,
    and the bytes its read took off the socket are lost. *)
Theorem blocking_connection_first_read (s s' : S) r b bs id :
  resource_connect_blocking (Ok s) = Ret (Ok r) → is_session_established (session r) = true →
  (∀ io, net_handle_io true io r = Panic "session is established during handshake") ∧
  (sess_read READ_BUFFER_SIZE (session r) = Ret (Ok (b :: bs), s') →
   length (b :: bs) ≤ READ_BUFFER_SIZE →
   is_session_established s' = true → session_id s' = Some id →
   ∃ r', net_handle_io false Read r = Ret (Some (Established id), r') ∧ session r' = s' ∧
     read_buffer_len r' = 0).
Proof.
  unfold resource_connect_blocking, with_state. unfold_prog.
  destruct (sess_set_read_timeout _ s) as [[[[]|e] s1]| |]; [|done..].
  destruct (sess_set_write_timeout _ s1) as [[[[]|e] s2]| |]; [|done..].
  intros [= <-] Hest. simpl in Hest. unfold net_handle_io, net_handle_io_prog, prepare_io. split.
  - intros io. unfold_prog. unfold debug_assert. simpl. by rewrite Hest.
  - intros Hread Hlen Hest' Hid. unfold_prog. unfold handle_readable, read_into_buffer. unfold_prog.
    rewrite decide_False by lia. unfold on_session, zoom. simpl in Hread |- *.
    rewrite length_replicate, Nat.sub_0_r, Hread. simpl.
    unfold drain_read_buffer. simpl. rewrite decide_False.
    + simpl. unfold finish_io, expect_id. unfold_prog. rewrite Hest'. simpl. rewrite Hid. simpl. eauto.
    + simpl in Hlen. rewrite length_app, length_drop, length_replicate. lia.
Qed.

(** A transport made by [with_session] has a read buffer of no bytes: the
    read of its first readable event returns none, which is taken for the end
    of the stream, and the transport is terminated. *)
Theorem with_session_first_read debug (s s' : S) inbound :
  sess_read 0 s = Ret (Ok [], s') → is_session_established s' = true →
  ∃ r', net_handle_io debug Read (with_session s inbound) =
    Ret (Some (Terminated (from_kind ConnectionReset)), r') ∧
    state r' = TransportState.Terminated.
Proof.
  intros Hread Hest. unfold net_handle_io, net_handle_io_prog, prepare_io, debug_assert. unfold_prog.
  rewrite andb_false_r. unfold handle_readable, read_into_buffer, on_session. unfold_prog.
  rewrite decide_False by (simpl; lia). simpl. rewrite Hread. simpl. rewrite Hest. simpl. eauto.
Qed.
End established.

(** Splitting a transport and joining the halves keeps its state, its direction
    and its session, flushed; buffered input and output are given up, which
    debug builds refuse. *)
Lemma net_split_join {S : Type} `{NS : NetSession S} `{SI : !SplitIo S} `{!SplitIoLaws S}
    debug (r : NetResource S) rd wr :
  net_split debug r = Ret (Ok (rd, wr)) →
  ∃ r', net_from_split debug rd wr = Ret r' ∧ state r' = state r ∧ inbound r' = inbound r ∧
    write_intent r' = false ∧ write_buffer r' = [] ∧
    sess_flush (session r) = Ret (Ok tt, session r').
Proof.
  unfold net_split, flush, on_session, zoom. intros Hs.
  destruct (debug && _); [done|]. destruct (debug && _); [done|].
  destruct (sess_flush (session r)) as [[[[]|e] s]| |] eqn:Ef; simpl in Hs; try done.
  destruct (split_io s) as [[[a b]|[o e]]| |] eqn:Es; simpl in Hs; try done. simplify_eq.
  unfold net_from_split. simpl. rewrite !bool_decide_true, andb_false_r by done.
  rewrite (split_join _ _ _ Es). simpl. eauto 10.
Qed.

(** ** Witnesses: transports over scripted sockets *)

#[local] Existing Instance PlainSession.session.
#[local] Existing Instance PlainSession.laws.

Module ToyTransport.
Definition socket (reads : list Script.incoming) (writes : list Script.outgoing) : Script.t :=
  {| Script.fd := 5; Script.peer := 9; Script.reads := reads; Script.writes := writes;
     Script.out := [] |}.

Definition transport (st : TransportState.t) (s : Script.t) (pending : list byte) :
    NetResource Script.t :=
  {| state := st; session := s; inbound := false; write_intent := false;
     read_buffer := replicate 4 Byte.x00; read_buffer_len := 0; write_buffer := pending |}.

(** One byte of the first send goes out, the second send fails, the third is
    queued behind the rest of the first. *)
Definition slow : NetResource Script.t :=
  transport TransportState.Active
    (socket [] [Script.Room 0; Script.Room 1; Script.WriteFails BrokenPipe; Script.Room 0]) [].
Definition sends : list (list byte) := [[Byte.x01; Byte.x02]; [Byte.x03]; [Byte.x04]].

Definition fresh : NetResource Script.t := transport TransportState.Init (socket [] []) [].
Definition after_connect : option (SessionEvent Z) * NetResource Script.t :=
  match net_handle_io true Write fresh with Ret p => p | _ => (None, fresh) end.

Definition established : option (SessionEvent (SessionId (S := Script.t))) :=
  Some (Established 5%Z).

Definition receiving : NetResource Script.t :=
  transport TransportState.Active (socket [Script.Arrive (replicate 6 Byte.xaa)] []) [].

(** Two bytes wait in the buffer although the socket has room. *)
Definition stuck : NetResource Script.t :=
  transport TransportState.Active (socket [] []) [Byte.x01; Byte.x02].
Definition stuck_after : NetResource Script.t :=
  match net_handle_io true Write stuck with Ret (_, r) => r | _ => stuck end.

Definition greeting : Script.t := socket [Script.Arrive [Byte.x0a; Byte.x0b]] [].
Definition blocking : NetResource Script.t :=
  match resource_connect_blocking (Ok greeting) with Ret (Ok r) => r | _ => stuck end.
End ToyTransport.
Import ToyTransport.


(** The run of the witness: the second send is refused. *)
Example slow_run :
  match send_all true sends slow with
  | Ret (Ok oks, r) => (oks, sess_out (session r), write_buffer r)
  | _ => ([], [], [])
  end = ([true; false; true], [Byte.x01], [Byte.x02; Byte.x04]).
Proof. by vm_compute. Qed.

Lemma handle_io_state_machine_witness :
  io_step TransportState.Init established TransportState.Active ∧
  0 ≤ 2 ∧
  (∀ id, established = Some (Established id) →
     is_session_established (session after_connect.2) = true ∧
     session_id (session after_connect.2) = Some id).
Proof.
  apply (handle_io_state_machine true Write fresh established after_connect.2).
  vm_compute. reflexivity.
Defined.

Lemma active_read_delivers_witness :
  ∃ ev r', net_handle_io true Read receiving = Ret (ev, r') ∧ idle r' ∧
    length (read_buffer r') = length (read_buffer receiving) ∧
    sess_out (session r') = sess_out (session receiving) ∧
    match ev with
    | Some (Data bs) => bs ≠ [] ∧ sess_in (session receiving) = bs ++ sess_in (session r')
    | Some (Established _) => False
    | _ => sess_in (session r') = sess_in (session receiving)
    end.
Proof. apply (active_read_delivers true receiving); [split; [exact I|reflexivity]|reflexivity]. Defined.

Lemma buffered_data_stays_witness :
  write_buffer stuck_after = write_buffer stuck ∧
  sess_out (session stuck_after) = sess_out (session stuck).
Proof.
  apply (buffered_data_stays (SL := PlainSession.laws) true stuck stuck_after); [exact I|].
  apply rtc_once. exists Write, None. vm_compute. reflexivity.
Defined.

Lemma greeting_read :
  sess_read READ_BUFFER_SIZE (session blocking) =
    Ret (Ok [Byte.x0a; Byte.x0b], socket [] []).
Proof.
  simpl. unfold Script.read. simpl. rewrite READ_BUFFER_SIZE_eq, take_ge by (simpl length; lia).
  rewrite decide_True by (simpl length; lia). done.
Qed.

Lemma blocking_connection_first_read_witness :
  (∀ io, net_handle_io true io blocking = Panic "session is established during handshake") ∧
  ∃ r', net_handle_io false Read blocking = Ret (Some (Established 5%Z), r') ∧
    session r' = socket [] [] ∧ read_buffer_len r' = 0.
Proof.
  destruct (blocking_connection_first_read (NS := PlainSession.session) greeting (socket [] [])
    blocking Byte.x0a [Byte.x0b] 5%Z) as [Hp Hr]; [reflexivity|reflexivity|].
  split; [exact Hp|]. apply Hr; [exact greeting_read|rewrite READ_BUFFER_SIZE_eq; simpl length; lia|..];
    reflexivity.
Defined.

Lemma with_session_first_read_witness :
  ∃ r', net_handle_io true Read (with_session greeting true) =
    Ret (Some (Terminated (from_kind ConnectionReset)), r') ∧ state r' = TransportState.Terminated.
Proof. apply (with_session_first_read true greeting greeting true); reflexivity. Defined.
