(* ===== verification/NoiseTransport.v ===== *)
(** * Two transports that establish a Noise session: src/resources.rs, src/noise.rs

    Each end of a connection is a [NetResource] in the loop of its reactor,
    which polls it for its interests and hands it the I/O events in turn. The
    polls and events of the two ends interleave in any way. *)

From S2P Require Import Prelude StdLib Resource Net Auth Noise NoiseSpec NoisePair NetResource.

(** ** Transports while their session is established *)

Section transport_io.
Context {S : Type} `{NS : NetSession S} (debug : bool).
Implicit Types t : NetResource S.

Definition at_state (st : TransportState.t) (wi : bool) (s : S) t : NetResource S :=
  set_state st (set_write_intent wi (set_session s t)).

Lemma prepare_io_early t :
  state t = TransportState.Init ∨ state t = TransportState.Handshake → read_buffer_len t = 0 →
  is_session_established (session t) = false →
  prepare_io debug t = Ret (Ok (bool_decide (state t = TransportState.Init)), set_state TransportState.Handshake t).
Proof.
  destruct t as [st s inb wi rb rbl wb]. simpl. intros [-> | ->] -> Hs; unfold prepare_io, debug_assert; unfold_prog.
  - by rewrite andb_false_r.
  - rewrite !andb_false_r. simpl. rewrite andb_false_r. simpl. by rewrite Hs, andb_false_r.
Qed.

Lemma handle_read_early t s' :
  state t = TransportState.Handshake → read_buffer_len t = 0 →
  is_session_established (session t) = false →
  sess_read (length (read_buffer t)) (session t) = Ret (Ok [], s') →
  net_handle_io debug Read t =
    if is_session_established s'
    then id ← expect_id s'; Ret (Some (Established id), at_state TransportState.Active true s' t)
    else Ret (None, at_state TransportState.Handshake true s' t).
Proof.
  intros Hst Hl Hs Hr. unfold net_handle_io, net_handle_io_prog. unfold_prog.
  rewrite prepare_io_early by auto. destruct t as [st s inb wi rb rbl wb]. simpl in *. subst st rbl.
  unfold handle_readable, read_into_buffer, on_session. unfold_prog.
  rewrite decide_False by lia. rewrite Nat.sub_0_r. simpl. rewrite Hr. simpl. rewrite drop_0. unfold finish_io. unfold_prog.
  destruct (is_session_established s') eqn:Hs'; simpl; rewrite ?Hs'; simpl; [|done].
  by destruct (expect_id s').
Qed.

Lemma handle_write_early t r s' :
  state t = TransportState.Init ∨ state t = TransportState.Handshake → read_buffer_len t = 0 →
  is_session_established (session t) = false → is_session_established s' = false →
  sess_write [] (session t) = Ret (r, s') →
  net_handle_io debug Write t = Ret (None, at_state TransportState.Handshake true s' t).
Proof.
  intros Hst Hl Hs Hs' Hr. unfold net_handle_io, net_handle_io_prog. unfold_prog.
  rewrite prepare_io_early by done. destruct t as [st s inb wi rb rbl wb]. simpl in *.
  unfold handle_writable, on_session. unfold_prog. rewrite Hs. simpl. rewrite Hr. simpl.
  destruct Hst as [-> | ->]; unfold finish_io; unfold_prog; simpl; by rewrite Hs'.
Qed.

Lemma handle_write_active t s' :
  state t = TransportState.Active → is_session_established (session t) = true →
  is_session_established s' = true → sess_flush (session t) = Ret (Ok tt, s') →
  net_handle_io debug Write t = Ret (None, at_state TransportState.Active false s' t).
Proof.
  intros Hst Hs Hs' Hr. unfold net_handle_io, net_handle_io_prog, prepare_io, debug_assert. unfold_prog.
  rewrite Hst. simpl. rewrite andb_false_r. destruct t as [st s inb wi rb rbl wb]. simpl in *. subst st.
  unfold handle_writable, flush, on_session. unfold_prog. rewrite Hs. simpl. rewrite Hr. simpl.
  unfold finish_io. unfold_prog. by rewrite Hs'.
Qed.
End transport_io.

(** ** The two ends in the loops of their reactors *)

Section peers.
Context `{NL : NoiseLib} (debug : bool) (fuel : nat).
Abbreviation Session := (NoiseXk Pipe.t).
#[local] Instance session_ops : NetSession Session := noise_session debug fuel.

(** A transport, the events that its reactor has yet to hand it, and those it
    reported to the service. *)
Record Peer := {
  transport : NetResource Session;
  queue : list Io;
  reported : list (SessionEvent PublicKey);
}.

(** What a poll reports: a socket is readable when bytes wait, and always
    writable. *)
Definition fired (t : NetResource Session) : IoType.t :=
  {| IoType.read := IoType.read (net_interests t) &&
       negb (bool_decide (Pipe.inb (Noise.connection (session t)) = []));
     IoType.write := IoType.write (net_interests t) |}.

(** A step of the reactor: it polls when it has handled all events of the last
    poll, and otherwise handles the next. *)
Definition turn (p : Peer) : outcome Peer :=
  match queue p with
  | [] => Ret {| transport := transport p; queue := IoType.to_list (fired (transport p)); reported := reported p |}
  | io :: q =>
      net_handle_io (NS := session_ops) debug io (transport p) ≫= λ '(ev, t),
      Ret {| transport := t; queue := q;
             reported := reported p ++ match ev with Some ev => [ev] | None => [] end |}
  end.

Record Peers := { caller : Peer; callee : Peer }.
Definition peer_of (out : bool) (b : Peers) : Peer := if out then caller b else callee b.
Definition peers (out : bool) (p q : Peer) : Peers :=
  if out then {| caller := p; callee := q |} else {| caller := q; callee := p |}.
Definition sessions (b : Peers) : Ends :=
  {| initiator := session (transport (caller b)); responder := session (transport (callee b)) |}.

Definition put_session (s : Session) (p : Peer) : Peer :=
  {| transport := set_session s (transport p); queue := queue p; reported := reported p |}.

(** A step of one of the reactors, and the arrival of what it sent. *)
Definition turn_of (out : bool) (b : Peers) : outcome Peers :=
  p ← turn (peer_of out b);
  let q := peer_of (negb out) b in
  let d := deliver (session (transport p)) (session (transport q)) in
  Ret (peers out (put_session d.1 p) (put_session d.2 q)).

(** A schedule says whose reactor goes next. *)
Fixpoint turns (schedule : list bool) (b : Peers) : outcome Peers :=
  match schedule with
  | [] => Ret b
  | out :: schedule => b ← turn_of out b; turns schedule b
  end.

(** In [n] rounds of a schedule each of the reactors gets at least five steps. *)
Definition fair (n : nat) (schedule : list bool) : Prop :=
  ∃ rounds, schedule = concat rounds ∧ length rounds = n ∧
    Forall (λ round, ∀ out, 5 ≤ count_occ Bool.bool_dec round out) rounds.

Definition fresh (t : NetResource Session) : Peer := {| transport := t; queue := []; reported := [] |}.

(** *** The invariant of an end *)

Record peer_ok (out : bool) (other : PublicKey) (p : Peer) : Prop := {
  ok_buffer : read_buffer_len (transport p) = 0;
  ok_queue : queue p ∈ [[]; [Write]; [Read]; [Write; Read]];
  ok_waits : Read ∈ queue p → Pipe.inb (Noise.connection (session (transport p))) ≠ [];
  ok_active : noise_established (session (transport p)) = true →
    state (transport p) = TransportState.Active ∧ Auth.sent (authenticator (session (transport p))) = true;
  ok_early : noise_established (session (transport p)) = false →
    state (transport p) = TransportState.Handshake ∨
    state (transport p) = TransportState.Init ∧ queue p ∈ [[]; [Write]];
  ok_intent : state (transport p) = TransportState.Handshake → write_intent (transport p) = false →
    out = false ∧ is_handshake_complete (transcoder (session (transport p))) = false;
  ok_wrote : queue p = [Read] → is_handshake_complete (transcoder (session (transport p))) = true →
    Auth.sent (authenticator (session (transport p))) = true;
  ok_reported : reported p = if noise_established (session (transport p)) then [Established other] else [];
}.

(** Bytes that leave and bytes that arrive do not matter to it. *)
Lemma put_session_ok out other s p :
  peer_ok out other p → transcoder s = transcoder (session (transport p)) →
  authenticator s = authenticator (session (transport p)) →
  (Pipe.inb (Noise.connection (session (transport p))) ≠ [] → Pipe.inb (Noise.connection s) ≠ []) →
  peer_ok out other (put_session s p).
Proof.
  intros [] Ht Ha Hi. unfold noise_established in *.
  split; simpl; rewrite ?Ht, ?Ha; try done; unfold noise_established; rewrite ?Ht, ?Ha; auto.
Qed.

Lemma poll_ok out other p : peer_ok out other p → queue p = [] → ∃ q, turn p = Ret q ∧ transport q = transport p ∧
  queue q = IoType.to_list (fired (transport p)) ∧ peer_ok out other q.
Proof.
  intros [] Hq. unfold turn. rewrite Hq. eexists. split; [done|]. split; [done|]. split; [done|].
  unfold fired. split; cbn [transport queue reported]; try done.
  - destruct (IoType.read _ && _), (IoType.write _); simpl; set_solver.
  - intros Hin Hb. rewrite bool_decide_true, andb_false_r in Hin by done. destruct (IoType.write _); simpl in Hin; set_solver.
  - intros He. destruct (ok_early0 He) as [?|[Hs _]]; [by left|right]. split; [done|].
    unfold net_interests. rewrite Hs. simpl. set_solver.
  - intros Hr Hc. destruct (noise_established (session (transport p))) eqn:He; [by apply ok_active0|].
    destruct (ok_early0 eq_refl) as [Hs|[Hs _]]; revert Hr; unfold net_interests; rewrite Hs; simpl; [|done].
    destruct (write_intent (transport p)) eqn:Hw; simpl; [by destruct (negb _)|].
    destruct (ok_intent0 Hs eq_refl) as [_ Hf]. congruence.
Qed.

(** *** One event *)

Lemma queue_cases (io : Io) q : io :: q ∈ [[]; [Write]; [Read]; [Write; Read]] →
  io = Write ∧ (q = [] ∨ q = [Read]) ∨ io = Read ∧ q = [].
Proof. rewrite !elem_of_cons, elem_of_nil. intros Hq. destruct_or?; simplify_eq; auto. Qed.

Lemma event_write s r s' n : on_event debug fuel n Write s = Ret (r, s') → ∃ r', Noise.write fuel [] s = Ret (r', s').
Proof.
  unfold on_event. unfold_prog. destruct (Noise.write fuel [] s) as [[[]]| |]; intros; simplify_eq; eauto.
Qed.

Lemma event_read s s' n : noise_established s = false → on_event debug fuel n Read s = Ret (Ok tt, s') →
  Noise.read debug fuel n s = Ret (Ok [], s').
Proof.
  intros He. unfold on_event. unfold_prog. destruct (Noise.read debug fuel n s) as [[[]]| |] eqn:E; intros; simplify_eq.
  by rewrite (early_read_empty debug fuel _ _ _ _ E He).
Qed.

Lemma handle_active out other p io q :
  peer_ok out other p → queue p = io :: q → noise_established (session (transport p)) = true →
  Pipe.inb (Noise.connection (session (transport p))) = [] →
  ∃ p', turn p = Ret p' ∧ queue p' = q ∧ session (transport p') = session (transport p) ∧
    write_intent (transport p') = false ∧ peer_ok out other p'.
Proof.
  intros [] Hq He Hb. destruct (ok_active0 He) as [Hst Hsent].
  assert (io = Write ∧ q = []) as [-> ->].
  { rewrite Hq in ok_queue0, ok_waits0. apply queue_cases in ok_queue0 as [[-> [-> | ->]]|[-> ->]];
      [done|exfalso; apply ok_waits0; [set_solver|done]..]. }
  unfold turn. rewrite Hq.
  rewrite (handle_write_active _ _ (session (transport p))); [|done..|].
  2:{ simpl. unfold Noise.flush, on_connection, zoom. simpl. by destruct (session (transport p)). }
  eexists. split; [done|]. split_and!; [done..|].
  split; simpl; try done; [set_solver|set_solver|by rewrite He|by rewrite app_nil_r].
Qed.

(** An event while the session is not established. *)
Lemma handle_early out other p io q s' r :
  peer_ok out other p → queue p = io :: q → noise_established (session (transport p)) = false →
  on_event debug fuel (length (read_buffer (transport p))) io (session (transport p)) = Ret (r, s') →
  (io = Read → r = Ok tt) → effect io (session (transport p)) s' →
  (noise_established s' = true → noise_session_id s' = Some other) →
  ∃ p', turn p = Ret p' ∧ queue p' = q ∧ session (transport p') = s' ∧
    state (transport p') ≠ TransportState.Init ∧ peer_ok out other p'.
Proof.
  intros [] Hq He Hev Hr Heff Hid. pose proof ok_reported0 as Hrep. rewrite He in Hrep.
  unfold turn. rewrite Hq. rewrite Hq in ok_queue0. apply queue_cases in ok_queue0 as [[-> Hq']|[-> ->]].
  - destruct Heff as (Hb & He' & Hw). rewrite He in He'. apply event_write in Hev as [r' Hev].
    rewrite (handle_write_early _ _ r' s'); [|destruct (ok_early0 He) as [|[]]; auto|done..].
    eexists. split; [done|]. split_and!; [done..|].
    split; simpl; rewrite ?He', ?Hb, ?Hrep; try done; [destruct Hq' as [-> | ->]; set_solver|..|by left].
    intros Hin. apply ok_waits0. rewrite Hq. by right.
  - destruct Heff as [Hs Hc]. rewrite (Hr eq_refl) in Hev. apply event_read in Hev; [|done].
    assert (state (transport p) = TransportState.Handshake) as Hst.
    { destruct (ok_early0 He) as [?|[_ Hin]]; [done|]. rewrite Hq in Hin. set_solver. }
    rewrite (handle_read_early _ _ s'); [|done..]. simpl is_session_established.
    destruct (noise_established s') eqn:He'.
    + unfold expect_id. simpl. rewrite (Hid eq_refl). simpl. eexists. split; [done|]. split_and!; [done..|].
      split; simpl; rewrite ?He', ?Hrep; try done; [set_solver|set_solver|].
      intros _. split; [done|]. rewrite Hs. apply ok_wrote0; [done|]. by apply Hc.
    + eexists. split; [done|]. split_and!; [done..|].
      split; simpl; rewrite ?He', ?Hrep; try done; [set_solver|set_solver|by left].
Qed.

(** *** The invariant of both *)

Context `{EL : !Ed25519Laws} (Hfuel : fuel ≠ 0) (pk_i pk_r : PublicKey).
Definition key_of (out : bool) : PublicKey := if out then pk_r else pk_i.

Definition peers_ok (k : nat) (b : Peers) : Prop :=
  underway pk_i pk_r k (sessions b) ∧ ∀ out, peer_ok out (key_of out) (peer_of out b).

Lemma session_of out b : end_of out (sessions b) = session (transport (peer_of out b)).
Proof. by destruct out. Qed.

Lemma put_same p : put_session (session (transport p)) p = p.
Proof. by destruct p as [[] ? ?]. Qed.

Lemma deliver_nothing s to : Pipe.outb (Noise.connection s) = [] → deliver s to = (s, to).
Proof.
  destruct s as [? [] ? ?], to as [? [] ? ?]. simpl. intros ->.
  unfold deliver, set_connection, Pipe.sent, Pipe.arrive. simpl. by rewrite app_nil_r.
Qed.

Lemma end_of_ends out d : end_of out (ends out d) = d.1 ∧ end_of (negb out) (ends out d) = d.2.
Proof. by destruct out. Qed.

Lemma after_event out k e d :
  underway pk_i pk_r k e → ends out d = e ∨ (∃ k', k' < k ∧ underway pk_i pk_r k' (ends out d)) →
  ∃ k', k' ≤ k ∧ underway pk_i pk_r k' (ends out d).
Proof. intros Hu [-> |(k' & ? & ?)]; [by exists k|exists k'; split; [lia|done]]. Qed.

(** The step of one end: a poll, a flush when it is established, or an event of
    its session. *)
Definition stepped out (k : nat) (b : Peers) (p : Peer) : Prop :=
  let old := peer_of out b in let s := session (transport old) in
  (queue old = [] ∧ transport p = transport old ∧ queue p = IoType.to_list (fired (transport old))) ∨
  (noise_established s = true ∧ session (transport p) = s ∧ write_intent (transport p) = false ∧ ∃ io, queue old = io :: queue p) ∨
  ∃ n io r, noise_established s = false ∧ queue old = io :: queue p ∧ state (transport p) ≠ TransportState.Init ∧
    reports io s ∧ on_event debug fuel n io s = Ret (r, session (transport p)).

Lemma turn_stepped out k b : peers_ok k b →
  ∃ p, turn (peer_of out b) = Ret p ∧ peer_ok out (key_of out) p ∧ stepped out k b p.
Proof.
  intros [Hu Hok]. pose proof (Hok out) as Ho. destruct (queue (peer_of out b)) as [|io q] eqn:Hq.
  { destruct (poll_ok _ _ _ Ho Hq) as (p & Ht & Hp & Hqp & Hp'). exists p. split_and!; [done..|]. by left. }
  destruct (noise_established (session (transport (peer_of out b)))) eqn:He.
  - rewrite <-session_of in He. pose proof (underway_drained _ _ _ _ _ Hu He) as Hd.
    rewrite session_of in He, Hd. destruct (handle_active _ _ _ _ _ Ho Hq He Hd) as (p & Ht & Hqp & Hs & Hw & Hp).
    exists p. split_and!; [done..|]. right. left. rewrite Hqp. eauto.
  - assert (reports io (end_of out (sessions b))) as Hio.
    { rewrite session_of. destruct io; [|done]. apply (ok_waits _ _ _ Ho). rewrite Hq. left. }
    destruct (underway_event debug fuel Hfuel _ _ out _ _ (length (read_buffer (transport (peer_of out b)))) io Hu Hio)
      as (r & s' & Hev & _ & Hr & Heff & Hk).
    assert (noise_established s' = true → noise_session_id s' = Some (key_of out)) as Hid.
    { intros He'. destruct (after_event _ _ _ _ Hu Hk) as (k' & _ & Hu').
      pose proof (underway_identity _ _ out _ _ Hu') as Hid. rewrite (proj1 (end_of_ends _ _)) in Hid.
      by apply Hid. }
    rewrite session_of in Hev, Heff, Hio.
    destruct (handle_early _ _ _ _ _ s' r Ho Hq He Hev Hr Heff Hid) as (p & Ht & Hqp & Hs & Hi & Hp).
    exists p. split_and!; [done..|]. right. right. rewrite Hqp, Hs. eauto 10.
Qed.

Lemma turn_of_shape out k b : peers_ok k b →
  ∃ p b', turn_of out b = Ret b' ∧ stepped out k b p ∧ (∀ out', peer_ok out' (key_of out') (peer_of out' b')) ∧
    let d := deliver (session (transport p)) (end_of (negb out) (sessions b)) in
    sessions b' = ends out d ∧ peer_of out b' = put_session d.1 p ∧
    peer_of (negb out) b' = put_session d.2 (peer_of (negb out) b).
Proof.
  intros [Hu Hok]. destruct (turn_stepped out k b (conj Hu Hok)) as (p & Ht & Hp & Hs).
  exists p. unfold turn_of. rewrite Ht. simpl. rewrite session_of. eexists. split; [done|]. split; [done|].
  assert (peer_ok out (key_of out) (put_session (deliver (session (transport p))
    (session (transport (peer_of (negb out) b)))).1 p)) as H1 by (by apply put_session_ok).
  assert (peer_ok (negb out) (key_of (negb out)) (put_session (deliver (session (transport p))
    (session (transport (peer_of (negb out) b)))).2 (peer_of (negb out) b))) as H2.
  { apply put_session_ok; [apply Hok|done|done|]. simpl. by destruct (Pipe.inb _). }
  destruct out; (split; [by intros []|done]).
Qed.

(** A step at an end leaves the sessions as they are, or is a step ahead. *)
Lemma stepped_underway out k b p : peers_ok k b → stepped out k b p →
  let d := deliver (session (transport p)) (end_of (negb out) (sessions b)) in
  ends out d = sessions b ∨ ∃ k', k' < k ∧ underway pk_i pk_r k' (ends out d).
Proof.
  intros [Hu _] Hs. pose proof (underway_sent _ _ out _ _ Hu) as Hsent. rewrite session_of in Hsent.
  destruct Hs as [(_ & -> & _)|[(_ & -> & _)|(n & io & r & _ & _ & _ & Hio & Hev)]].
  - left. rewrite deliver_nothing by done. rewrite session_of. by destruct out, b.
  - left. rewrite deliver_nothing by done. rewrite session_of. by destruct out, b.
  - rewrite <-session_of in Hio, Hev.
    destruct (underway_event debug fuel Hfuel _ _ out _ _ n io Hu Hio) as (r' & s' & Hev' & _ & _ & _ & Hk).
    rewrite Hev in Hev'. by injection Hev' as <- <-.
Qed.

Lemma turn_of_ok out k b : peers_ok k b →
  ∃ b', turn_of out b = Ret b' ∧ ∃ k', k' ≤ k ∧ peers_ok k' b' ∧
    (k' = k → sessions b' = sessions b ∧ peer_of (negb out) b' = peer_of (negb out) b).
Proof.
  intros Hb. destruct (turn_of_shape out k b Hb) as (p & b' & Ht & Hs & Hok & He & _ & Hq).
  exists b'. split; [done|]. destruct (stepped_underway out k b p Hb Hs) as [Hd|(k' & Hk & Hd)].
  - exists k. split_and!; [done|by split; [rewrite He, Hd; apply Hb|]|].
    intros _. rewrite He. split; [done|]. rewrite Hq. destruct (end_of_ends out (deliver (session (transport p)) (end_of (negb out) (sessions b)))) as [_ <-].
    rewrite Hd, session_of. apply put_same.
  - exists k'. split_and!; [lia|by split; [rewrite He|]|lia].
Qed.

(** *** Every fair schedule gets there *)

(** How many steps an end needs before it handles an event that is due: those
    that are queued come first, and a transport that was only just connected
    does not read. *)
Definition wait (io : Io) (p : Peer) : nat :=
  match io, queue p with
  | Write, [] => 1
  | Write, [Read] => 2
  | Write, _ => 0
  | Read, [Read] => 0
  | Read, [Write; Read] => 1
  | Read, [] => if decide (state (transport p) = TransportState.Init) then 4 else 2
  | Read, _ => 3
  end.

Lemma wait_bound io p : wait io p < 5.
Proof. unfold wait. repeat case_match; lia. Qed.

(** An event that is needed is one that the end polls for. *)
Lemma needed_early out b k io : peers_ok k b → needed out io (session (transport (peer_of out b))) →
  noise_established (session (transport (peer_of out b))) = false.
Proof.
  intros [Hu Hok] Hn. destruct (noise_established _) eqn:He; [exfalso|done]. destruct io.
  - apply Hn. rewrite <-session_of in He |- *. by eapply underway_drained.
  - destruct Hn as [Hn _]. destruct (ok_active _ _ _ (Hok out) He). congruence.
Qed.

Lemma needed_polled out other p io :
  peer_ok out other p → noise_established (session (transport p)) = false →
  needed out io (session (transport p)) → queue p = [] →
  wait io {| transport := transport p; queue := IoType.to_list (fired (transport p)); reported := reported p |} < wait io p.
Proof.
  intros [] He Hn Hq. unfold wait at 2. rewrite Hq. unfold wait, fired, net_interests. simpl.
  destruct (ok_early0 He) as [Hs|[Hs _]]; rewrite Hs; simpl.
  - destruct (write_intent (transport p)) eqn:Hw; simpl; destruct io; simpl in Hn.
    + rewrite bool_decide_false by done. simpl. lia.
    + lia.
    + rewrite bool_decide_false by done. simpl. lia.
    + destruct (ok_intent0 Hs eq_refl) as [-> Hf]. destruct Hn as [_ [?|?]]; congruence.
  - destruct io; simpl; lia.
Qed.

(** The end that is to move moves, or comes closer to it. *)
Lemma turn_of_needed out k b io : peers_ok k b → needed out io (end_of out (sessions b)) →
  (∀ n r s', on_event debug fuel n io (end_of out (sessions b)) = Ret (r, s') →
    ∃ k', k' < k ∧ underway pk_i pk_r k' (ends out (deliver s' (end_of (negb out) (sessions b))))) →
  ∃ b', turn_of out b = Ret b' ∧ ((∃ k', k' < k ∧ peers_ok k' b') ∨
    peers_ok k b' ∧ sessions b' = sessions b ∧ wait io (peer_of out b') < wait io (peer_of out b)).
Proof.
  intros Hb Hn Hdec. destruct (turn_of_shape out k b Hb) as (p & b' & Ht & Hs & Hok & He & Hp & _).
  exists b'. split; [done|]. destruct (stepped_underway out k b p Hb Hs) as [Hd|(k' & Hk & Hd)].
  2:{ left. exists k'. split; [done|]. by split; [rewrite He|]. }
  rewrite session_of in Hn. pose proof (needed_early out b k io Hb Hn) as Hearly. destruct Hb as [Hu Hb].
  assert (peers_ok k b' ∧ sessions b' = sessions b) as [Hb' Hse] by (unfold peers_ok; by rewrite He, Hd).
  destruct Hs as [(Hq & Htr & Hqp)|[(He' & _)|(n & io' & r & _ & Hq & Hi & Hio & Hev)]].
  - right. split_and!; [done..|]. eapply Nat.le_lt_trans, needed_polled; [|apply Hb|done..].
    rewrite Hp. unfold wait. simpl. by rewrite Hqp, Htr.
  - congruence.
  - destruct (decide (io' = io)) as [->|Hne].
    { left. rewrite <-session_of in Hev. destruct (Hdec _ _ _ Hev) as (k' & ? & ?). exists k'. split; [done|].
      by split; [rewrite He|]. }
    right. split_and!; [done..|]. pose proof (ok_queue _ _ _ (Hb out)) as Hc. rewrite Hq in Hc.
    apply queue_cases in Hc. rewrite Hp. unfold wait at 1. simpl. unfold wait. rewrite Hq.
    destruct Hc as [[-> [Hc|Hc]]|[-> Hc]]; rewrite Hc; destruct io; try done; [|lia..].
    rewrite decide_False by done. lia.
Qed.

Lemma turns_ok schedule k b : peers_ok k b →
  ∃ b', turns schedule b = Ret b' ∧ ∃ k', k' ≤ k ∧ peers_ok k' b'.
Proof.
  revert k b. induction schedule as [|out schedule IH]; intros k b Hb; simpl; [eauto|].
  destruct (turn_of_ok out k b Hb) as (b1 & -> & k1 & Hk1 & Hb1 & _). simpl.
  destruct (IH k1 b1 Hb1) as (b' & -> & k' & ? & ?). exists b'. split; [done|]. exists k'. split; [lia|done].
Qed.

Lemma turns_advance schedule k b out io : peers_ok k b → needed out io (end_of out (sessions b)) →
  (∀ n r s', on_event debug fuel n io (end_of out (sessions b)) = Ret (r, s') →
    ∃ k', k' < k ∧ underway pk_i pk_r k' (ends out (deliver s' (end_of (negb out) (sessions b))))) →
  wait io (peer_of out b) < count_occ Bool.bool_dec schedule out →
  ∃ b', turns schedule b = Ret b' ∧ ∃ k', k' < k ∧ peers_ok k' b'.
Proof.
  revert b. induction schedule as [|who schedule IH]; intros b Hb Hn Hdec Hw; simpl in Hw; [lia|].
  simpl. destruct (Bool.bool_dec who out) as [->|Hne].
  - destruct (turn_of_needed out k b io Hb Hn Hdec) as (b1 & -> & [(k1 & Hk1 & Hb1)|(Hb1 & Hs1 & Hw1)]); simpl.
    + destruct (turns_ok schedule k1 b1 Hb1) as (b' & -> & k' & ? & ?). exists b'. split; [done|]. exists k'. split; [lia|done].
    + apply IH; rewrite ?Hs1; try done. lia.
  - destruct (turn_of_ok who k b Hb) as (b1 & -> & k1 & Hk1 & Hb1 & Hsame). simpl.
    destruct (decide (k1 = k)) as [->|].
    + destruct (Hsame eq_refl) as [Hs1 Hp1]. assert (negb who = out) as Hout by (by destruct who, out).
      rewrite Hout in Hp1. apply IH; rewrite ?Hs1, ?Hp1; done.
    + destruct (turns_ok schedule k1 b1 Hb1) as (b' & -> & k' & ? & ?). exists b'. split; [done|]. exists k'. split; [lia|done].
Qed.

Lemma turns_app l1 l2 b : turns (l1 ++ l2) b = turns l1 b ≫= turns l2.
Proof.
  revert b. induction l1 as [|out l1 IH]; intros b; simpl; [done|].
  destruct (turn_of out b); simpl; [apply IH|done..].
Qed.

Lemma rounds_advance rounds k b : peers_ok k b →
  Forall (λ round, ∀ out, 5 ≤ count_occ Bool.bool_dec round out) rounds →
  ∃ b', turns (concat rounds) b = Ret b' ∧ ∃ k', k' ≤ k - length rounds ∧ peers_ok k' b'.
Proof.
  revert k b. induction rounds as [|round rounds IH]; intros k b Hb Hf; simpl.
  { exists b. split; [done|]. exists k. split; [lia|done]. }
  inversion Hf as [|?? Hr Hf']; subst. rewrite turns_app.
  assert (∃ b1, turns round b = Ret b1 ∧ ∃ k1, k1 ≤ k - 1 ∧ peers_ok k1 b1) as (b1 & -> & k1 & Hk1 & Hb1).
  { destruct (decide (k = 0)) as [->|Hk]; [apply (turns_ok round 0 b Hb)|].
    destruct (underway_progress debug fuel Hfuel _ _ _ _ (proj1 Hb) Hk) as (out & io & Hn & Hdec).
    destruct (turns_advance round k b out io Hb Hn Hdec) as (b1 & ? & k1 & ? & ?).
    { eapply Nat.lt_le_trans; [apply wait_bound|apply Hr]. }
    exists b1. split; [done|]. exists k1. split; [lia|done]. }
  simpl. destruct (IH k1 b1 Hb1 Hf') as (b' & -> & k' & ? & ?). exists b'. split; [done|]. exists k'. split; [lia|done].
Qed.

(** *** When both are established *)

(** The steps until a reactor has nothing to do for its transport: one that
    handles the write event of its last poll, after one that polls for it. *)
Definition unrest (p : Peer) : nat :=
  match queue p with
  | [] => if write_intent (transport p) then 2 else 0
  | _ => 1
  end.

Lemma ready_established b out : peers_ok 0 b → noise_established (session (transport (peer_of out b))) = true.
Proof. intros [Hu _]. rewrite <-session_of. by destruct (underway_done _ _ _ Hu out). Qed.

Lemma active_fired out p : peer_ok out (key_of out) p → noise_established (session (transport p)) = true →
  Pipe.inb (Noise.connection (session (transport p))) = [] →
  fired (transport p) = {| IoType.read := false; IoType.write := write_intent (transport p) |}.
Proof.
  intros [] He Hb. destruct (ok_active0 He) as [Hs _]. unfold fired, net_interests. rewrite Hs, Hb.
  by destruct (write_intent (transport p)).
Qed.

Lemma turn_settles out b : peers_ok 0 b →
  ∃ b', turn_of out b = Ret b' ∧ peers_ok 0 b' ∧ peer_of (negb out) b' = peer_of (negb out) b ∧
    unrest (peer_of out b') ≤ unrest (peer_of out b) - 1.
Proof.
  intros Hb. pose proof (ready_established b out Hb) as He.
  assert (Pipe.inb (Noise.connection (session (transport (peer_of out b)))) = []) as Hin.
  { rewrite <-session_of in He |- *. eapply underway_drained; [apply Hb|done]. }
  destruct (turn_of_ok out 0 b Hb) as (b' & Ht & k' & Hk & Hb' & Hsame).
  assert (k' = 0) as -> by lia. destruct (Hsame eq_refl) as [_ Ho].
  exists b'. split_and!; [done..|].
  destruct (turn_of_shape out 0 b Hb) as (p & b2 & Ht2 & Hs & _ & _ & Hp & _).
  rewrite Ht in Ht2. injection Ht2 as <-.
  destruct Hs as [(Hq & Htr & Hqp)|[(_ & Hse & Hw & io & Hq)|(n & io & r & Hf & _)]]; [| |congruence].
  - rewrite (active_fired out) in Hqp by (done || apply Hb). rewrite Hp. unfold unrest. simpl. rewrite Hq, Hqp, Htr.
    destruct (write_intent _); simpl; lia.
  - rewrite Hp. unfold unrest. simpl. rewrite Hw, Hq. destruct (queue p) as [|io' q] eqn:Hqp; [lia|exfalso].
    pose proof (proj2 Hb out) as [_ Hc Hr _ _ _ _ _]. rewrite Hq in Hc, Hr.
    apply queue_cases in Hc as [[-> [?|Hc]]|[-> ?]]; [done| |done].
    apply Hr; [rewrite Hc; set_solver|done].
Qed.

Lemma turns_settle schedule b : peers_ok 0 b →
  ∃ b', turns schedule b = Ret b' ∧ peers_ok 0 b' ∧
    ∀ out, unrest (peer_of out b') ≤ unrest (peer_of out b) - count_occ Bool.bool_dec schedule out.
Proof.
  revert b. induction schedule as [|who schedule IH]; intros b Hb; simpl.
  { exists b. split_and!; [done..|]. intros; lia. }
  destruct (turn_settles who b Hb) as (b1 & -> & Hb1 & Ho & Hw). simpl.
  destruct (IH b1 Hb1) as (b' & -> & Hb' & Hr). exists b'. split_and!; [done..|]. intros out. specialize (Hr out).
  destruct (Bool.bool_dec who out) as [->|Hne]; [lia|].
  assert (negb who = out) as <- by (by destruct who, out). by rewrite Ho in Hr.
Qed.

Lemma fair_settles n schedule b : 9 ≤ n → fair n schedule → peers_ok 8 b →
  ∃ b', turns schedule b = Ret b' ∧ peers_ok 0 b' ∧ ∀ out, unrest (peer_of out b') = 0.
Proof.
  intros Hn (rounds & -> & Hl & Hf) Hb. rewrite <-(take_drop 8 rounds), concat_app, turns_app.
  destruct (rounds_advance (take 8 rounds) 8 b Hb) as (b1 & -> & k & Hk & Hb1); [by apply Forall_take|].
  rewrite length_take in Hk. assert (k = 0) as -> by lia. simpl.
  destruct (turns_settle (concat (drop 8 rounds)) b1 Hb1) as (b' & -> & Hb' & Hr).
  exists b'. split_and!; [done..|]. intros out. specialize (Hr out).
  assert (unrest (peer_of out b1) ≤ 2) by (unfold unrest; repeat case_match; lia).
  destruct (drop 8 rounds) as [|round rest] eqn:Hd.
  { apply (f_equal length) in Hd. rewrite length_drop in Hd. simpl in Hd. lia. }
  assert (5 ≤ count_occ Bool.bool_dec round out).
  { apply (Forall_drop _ 8) in Hf. rewrite Hd in Hf. inversion Hf; subst. auto. }
  simpl in Hr. rewrite count_occ_app in Hr. lia.
Qed.
End peers.

(** ** Two transports as they are made *)

Section made.
Context `{NL : NoiseLib} `{EL : !Ed25519Laws} `{XL : !XkLaws} (debug : bool) (fuel : nat).
Existing Instance session_ops.

Lemma with_state_eq (s : NoiseXk Pipe.t) inb st :
  with_state (NS := session_ops debug fuel) s inb st =
    Ret (Ok {| state := st; session := s; inbound := inb; write_intent := false;
               read_buffer := replicate READ_BUFFER_SIZE Byte.x00; read_buffer_len := 0; write_buffer := [] |}).
Proof. unfold with_state. unfold_prog. unfold on_connection, zoom. unfold_prog. by destruct s. Qed.

Lemma new_auth_early (s : NoiseXk Pipe.t) pk sig :
  authenticator s = Auth.new pk sig → noise_established s = false.
Proof. intros Ha. unfold noise_established. rewrite Ha. apply andb_false_r. Qed.

Lemma made_ok key_i key_r kr addr connect pk_i sig_i pk_r sig_r (cr : Pipe.t) si sr ti tr :
  let ai := Auth.new pk_i sig_i in let ar := Auth.new pk_r sig_r in
  certified ai → certified ar → peer_addr_id addr = pk_r →
  ecdh_from_ed25519 key_r = Some kr → ecdh_public_from_ed25519 pk_r = Some (public_of kr) →
  connect_nonblocking addr key_i ai connect = Ret (Ok si) → Noise.accept cr key_r ar = Ret sr →
  (∀ c, c = Noise.connection si ∨ c = cr → Pipe.inb c = [] ∧ Pipe.outb c = []) →
  resource_connect_nonblocking (NS := session_ops debug fuel) (Ok si) = Ret (Ok ti) →
  resource_accept (NS := session_ops debug fuel) (Ok sr) = Ret (Ok tr) →
  peers_ok pk_i pk_r 8 {| caller := fresh ti; callee := fresh tr |}.
Proof.
  intros ai ar Hci Hcr Hid Hkr Hpk Hi Hr Hfresh Hti Htr.
  pose proof (underway_start pk_i pk_r _ _ _ _ _ _ _ _ _ _ Hci Hcr Hid Hkr Hpk Hi Hr Hfresh) as Hu.
  simpl in Hti. rewrite with_state_eq in Hti. unfold resource_accept, new in Htr. rewrite with_state_eq in Htr.
  simplify_eq.
  assert (authenticator si = ai) as Hai.
  { unfold connect_nonblocking in Hi. destruct (ecdh_from_ed25519 key_i); [|done]. simpl in Hi.
    destruct (ecdh_public_from_ed25519 _); [|done]. destruct (connect _); [|done]. by injection Hi as <-. }
  assert (authenticator sr = ar ∧ transcoder sr = with_xk_responder kr) as [Har Htc].
  { unfold Noise.accept in Hr. rewrite Hkr in Hr. simpl in Hr. by injection Hr as <-. }
  pose proof (new_auth_early _ _ _ Hai) as Hei. pose proof (new_auth_early _ _ _ Har) as Her.
  split; [exact Hu|]. intros []; split; simpl; rewrite ?Hei, ?Her; try done; [set_solver|set_solver| |set_solver|set_solver| |].
  - intros _. right. split; [done|set_solver].
  - intros _. by left.
  - intros _ _. split; [done|]. rewrite Htc. apply (xk_pending _ _ (xk_run kr kr)). set_solver.
Qed.
End made.

(** ** Properties *)


(** An established transport does not send its credentials by itself: should
    its session be established before they are out (the socket could not be
    written to until then), a write event only flushes. The first data that the
    service sends puts the credentials on the way instead, and is refused. *)
Lemma unsent_credentials_wait `{NL : NoiseLib} debug fuel (t : NetResource (NoiseXk Pipe.t)) buf :
  fuel ≠ 0 → let s := session t in
  state t = TransportState.Active → noise_established s = true → Auth.sent (authenticator s) = false →
  write_buffer t = [] →
  (∃ t', net_handle_io (NS := session_ops debug fuel) debug Write t = Ret (None, t') ∧ session t' = s) ∧
  (∃ t', net_write_or_buffer (NS := session_ops debug fuel) buf t = Ret (Err (from_kind Interrupted), t') ∧
    Pipe.outb (Noise.connection (session t')) =
      Pipe.outb (Noise.connection s) ++ credentials (pubkey (authenticator s)) (signature (authenticator s))).
Proof.
  intros Hf s Hst He Hs Hw. split.
  - rewrite (handle_write_active (NS := session_ops debug fuel) debug t s); [|done..|]; [by eexists|].
    simpl. unfold Noise.flush, on_connection, zoom. simpl. subst s. by destruct (session t).
  - unfold net_write_or_buffer, on_session, zoom. unfold_prog. fold s. rewrite Hw. simpl.
    unfold Noise.write. unfold_prog. apply andb_prop in He as [-> _]. unfold is_auth_sent. rewrite Hs. simpl.
    unfold on_authenticator, certify, on_stream, on_auth, zoom. unfold_prog.
    destruct s as [ra [f p i o] tc a]. simpl. rewrite pipe_write_all by done. simpl.
    rewrite pipe_write_all by done. simpl. eexists. split; [done|]. simpl. by rewrite <-app_assoc.
Qed.

(** ** A run *)

Module ToyTransports.
Definition made (st : TransportState.t) (inb : bool) (s : NoiseXk (H := ToyKeys.keys) (NL := ToyNoise.lib) Pipe.t) :
    NetResource (NoiseXk Pipe.t) :=
  {| state := st; session := s; inbound := inb; write_intent := false;
     read_buffer := replicate READ_BUFFER_SIZE Byte.x00; read_buffer_len := 0; write_buffer := [] |}.
Definition round : list bool := replicate 5 true ++ replicate 5 false.
Definition schedule : list bool := concat (replicate 9 round).
End ToyTransports.

