(* ===== verification/Frame.v ===== *)
(** * Frames and the marshaller: src/frame.rs

    A [Marshaller] turns frames into bytes and bytes into frames. The codec is
    the class [Frame]. *)

From stdpp Require Import relations.
From S2P Require Import Prelude StdLib Resource.

(** [trait Frame]: [marshall] gives the bytes it writes, [unmarshall] its
    result and how far it read. *)
Class Frame (F : Type) := {
  FrameError : Type;
  unmarshall : list byte → result FrameError (option F) * nat;
  marshall : F → result FrameError (list byte);
}.
#[global] Hint Mode Frame ! : typeclass_instances.

(** What the trait documents: a frame is read back from its bytes, whatever
    follows them, and a stream that does not hold the whole message yet gives
    [Ok(None)]. A read never goes past the end. *)
Class FrameLaws (F : Type) `{Frame F} : Prop := {
  unmarshall_whole (f : F) bs rest :
    marshall f = Ok bs → unmarshall (bs ++ rest) = (Ok (Some f), length bs);
  unmarshall_part (f : F) bs k :
    marshall f = Ok bs → k < length bs → (unmarshall (F := F) (take k bs)).1 = Ok None;
  unmarshall_empty : (unmarshall (F := F) []).1 = Ok None;
}.
#[global] Hint Mode FrameLaws ! - : typeclass_instances.

(** [VecDeque]s store their bytes in two slices; [Read for VecDeque] gives from
    the first one only. How long that is, is up to the library. *)
Class VecDequeLayout := front_len : list byte → nat.
Class VecDequeLaws `{VecDequeLayout} : Prop :=
  front_len_law q : q ≠ [] → 0 < front_len q.

Section marshaller.
Context {F : Type} `{FR : Frame F} `{VD : VecDequeLayout}.

Record Marshaller := { read_queue : list byte; write_queue : list byte }.

Definition new : Marshaller := {| read_queue := []; write_queue := [] |}.
Definition with_capacity (capacity : nat) : Marshaller := new.

Definition push (frame : F) (m : Marshaller) : outcome Marshaller :=
  match marshall frame with
  | Err _ => Panic "in-memory write operation"
  | Ok bs => Ret {| read_queue := read_queue m; write_queue := write_queue m ++ bs |}
  end.

Definition pop : prog Marshaller (FrameError (F := F)) (option F) := λ m,
  let '(r, pos) := unmarshall (F := F) (read_queue m) in
  match r with
  | Err e => Ret (Err e, m)
  | Ok None => Ret (Ok None, m)
  | Ok (Some frame) =>
      if decide (length (read_queue m) < pos) then Panic "range end out of bounds"
      else Ret (Ok (Some frame),
                {| read_queue := drop pos (read_queue m); write_queue := write_queue m |})
  end.

Definition queue_len (m : Marshaller) : nat := length (write_queue m).

Definition drain (m : Marshaller) : result Marshaller (list byte) :=
  match write_queue m with
  | [] => Ok (read_queue m)
  | _ => Err m
  end.

(** [impl Read for Marshaller], into a buffer of [n] bytes. *)
Definition read (n : nat) (m : Marshaller) : list byte * Marshaller :=
  let k := Nat.min n (front_len (write_queue m)) in
  (take k (write_queue m),
   {| read_queue := read_queue m; write_queue := drop k (write_queue m) |}).

(** [impl Write for Marshaller]: it takes the whole buffer. *)
Definition write (buf : list byte) (m : Marshaller) : nat * Marshaller :=
  (length buf, {| read_queue := read_queue m ++ buf; write_queue := write_queue m |}).

Definition flush (m : Marshaller) : io_result unit * Marshaller := (Ok tt, m).

(** ** Two marshallers joined by a stream

    The sender pushes frames; the stream reads any number of bytes from it at
    a time and writes them to the receiver; the receiver pops. *)
Record Link := {
  sender : Marshaller;
  receiver : Marshaller;
  pushed : list F;
  popped : list F;
}.

Inductive link_step : Link → Link → Prop :=
| link_push f a b ps qs a' :
    push f a = Ret a' →
    link_step {| sender := a; receiver := b; pushed := ps; popped := qs |}
              {| sender := a'; receiver := b; pushed := ps ++ [f]; popped := qs |}
| link_carry n a b ps qs :
    link_step {| sender := a; receiver := b; pushed := ps; popped := qs |}
              {| sender := (read n a).2; receiver := (write (read n a).1 b).2;
                 pushed := ps; popped := qs |}
| link_pop f a b ps qs b' :
    pop b = Ret (Ok (Some f), b') →
    link_step {| sender := a; receiver := b; pushed := ps; popped := qs |}
              {| sender := a; receiver := b'; pushed := ps; popped := qs ++ [f] |}.

Definition link_init : Link :=
  {| sender := new; receiver := new; pushed := []; popped := [] |}.

(** [bs] is the encoding of [fs]. *)
Inductive encoded : list F → list byte → Prop :=
| encoded_nil : encoded [] []
| encoded_cons f fs b bs :
    marshall f = Ok b → encoded fs bs → encoded (f :: fs) (b ++ bs).

(** The frames on their way are encoded in the two queues. *)
Definition link_inv (l : Link) : Prop :=
  ∃ fs, pushed l = popped l ++ fs ∧
    encoded fs (read_queue (receiver l) ++ write_queue (sender l)).

Lemma encoded_snoc fs f bs b :
  encoded fs bs → marshall f = Ok b → encoded (fs ++ [f]) (bs ++ b).
Proof.
  induction 1 as [|f' fs b' bs Hf' _ IH]; intros Hf; simpl.
  - rewrite <-(app_nil_r b). by repeat constructor.
  - rewrite <-app_assoc. constructor; auto.
Qed.

Lemma pop_none m :
  (unmarshall (F := F) (read_queue m)).1 = Ok None → pop m = Ret (Ok None, m).
Proof. unfold pop. destruct (unmarshall (read_queue m)) as [r pos]. simpl. by intros ->. Qed.

(** What a pop finds when the queue is a prefix of an encoding: the next frame,
    or that it is not there yet. *)
Lemma pop_encoded `{!FrameLaws F} fs m rest :
  encoded fs (read_queue m ++ rest) →
  (∃ f fs' m', fs = f :: fs' ∧ pop m = Ret (Ok (Some f), m') ∧
     write_queue m' = write_queue m ∧ encoded fs' (read_queue m' ++ rest)) ∨
  (pop m = Ret (Ok None, m) ∧ (fs = [] ∨ rest ≠ [])).
Proof.
  intros He. inversion He as [Hnil Heq|f fs' b bs Hf Hfs Hfe Heq]; subst.
  { right. symmetry in Heq. apply app_eq_nil in Heq as [E _]. split; [|by left].
    apply pop_none. rewrite E. apply unmarshall_empty. }
  destruct (decide (length b ≤ length (read_queue m))) as [Hle|Hlt]; [left|right].
  - assert (∃ k, read_queue m = b ++ k ∧ bs = k ++ rest) as (k & E & ->).
    { apply app_eq_app in Heq as (k & [[-> ->]|[E ->]]); [|eauto].
      rewrite length_app in Hle. exists []. destruct k; [|simpl in Hle; lia].
      by rewrite !app_nil_r. }
    exists f, fs'. eexists. split; [done|]. unfold pop. rewrite E.
    rewrite (unmarshall_whole f b k Hf). rewrite decide_False by (rewrite length_app; lia).
    split; [done|]. simpl. by rewrite drop_app_length.
  - split.
    + assert (read_queue m = take (length (read_queue m)) b) as Ht.
      { assert (take (length (read_queue m)) (read_queue m ++ rest) =
                take (length (read_queue m)) (b ++ bs)) as Ht by (by rewrite Heq).
        rewrite take_app_length in Ht. by rewrite take_app_le in Ht by lia. }
      apply pop_none. rewrite Ht. apply (unmarshall_part f); [done|lia].
    + right. intros ->. rewrite app_nil_r in Heq. rewrite <-Heq, length_app in Hlt. lia.
Qed.

Lemma link_inv_step `{!FrameLaws F} l l' : link_inv l → link_step l l' → link_inv l'.
Proof.
  intros Hinv Hs. destruct Hs as [f a b ps qs a' Hpush|n a b ps qs|f a b ps qs b' Hpop];
    destruct Hinv as (fs & Hp & He); simpl in *.
  - unfold push in Hpush. destruct (marshall f) as [bs|] eqn:Ef; simplify_eq.
    exists (fs ++ [f]). simpl. split; [by rewrite app_assoc|].
    rewrite app_assoc. by apply encoded_snoc.
  - exists fs. simpl. split; [done|]. by rewrite <-app_assoc, take_drop.
  - destruct (pop_encoded _ _ _ He) as [(f' & fs' & m' & -> & Hp' & _ & He')|[Hp' _]];
      [|congruence].
    rewrite Hpop in Hp'. simplify_eq. exists fs'. simpl. by rewrite <-app_assoc.
Qed.

Lemma link_inv_reachable `{!FrameLaws F} l : rtc link_step link_init l → link_inv l.
Proof.
  intros Hr. assert (link_inv link_init) as Hi by (exists []; split; [done|constructor]).
  revert Hi. induction Hr; eauto using link_inv_step.
Qed.

(** The stream can carry everything that waits, however short its reads are. *)
Lemma carry_all `{!VecDequeLaws} l :
  ∃ l', rtc link_step l l' ∧ write_queue (sender l') = [] ∧ pushed l' = pushed l ∧
    popped l' = popped l.
Proof.
  destruct l as [a b ps qs]. remember (length (write_queue a)) as n eqn:En.
  revert a b En. induction n as [n IH] using lt_wf_ind; intros a b ->.
  destruct (decide (write_queue a = [])) as [E|E]; [by eexists|].
  pose proof (front_len_law _ E) as Hfl.
  assert (0 < length (write_queue a)) as Hpos by (destruct (write_queue a); [done|simpl; lia]).
  destruct (IH (length (drop (Nat.min 1 (front_len (write_queue a))) (write_queue a)))
    ltac:(rewrite length_drop; lia) (read 1 a).2 (write (read 1 a).1 b).2 eq_refl) as (l' & Hr & ?).
  exists l'. split; [|done]. eapply rtc_l; [apply link_carry|done].
Qed.

(** Once everything is carried, pops return all the frames. *)
Lemma pop_all `{!FrameLaws F} l :
  link_inv l → write_queue (sender l) = [] →
  ∃ l', rtc link_step l l' ∧ pushed l' = pushed l ∧ popped l' = pushed l.
Proof.
  destruct l as [a b ps qs]. intros (fs & Hp & He) Hw. simpl in *. rewrite Hw in He.
  revert b qs Hp He. induction fs as [|f fs IH]; intros b qs Hp He.
  - rewrite app_nil_r in Hp. subst. by eexists.
  - destruct (pop_encoded _ _ _ He) as [(f' & fs' & m' & [= <- <-] & Hpop & _ & He')|[_ [?|?]]];
      [|done..].
    destruct (IH m' (qs ++ [f])) as (l' & Hr & ?); [by rewrite <-app_assoc|done|].
    exists l'. split; [|done]. eapply rtc_l; [by apply link_pop|done].
Qed.
End marshaller.

(** ** Properties *)

Section properties.
Context {F : Type} `{FL : FrameLaws F} `{VL : VecDequeLaws}.

(** C18. Frames arrive whole, in order, and once: whatever the sender pushes and
    however the bytes are cut up on the way, the frames popped are a prefix of
    the frames pushed, a pop in between never fails, and every frame can still
    be delivered. *)
Theorem frames_in_order (l : Link (F := F)) :
  rtc link_step link_init l →
  (∃ fs, pushed l = popped l ++ fs) ∧
  (∃ o m', pop (F := F) (receiver l) = Ret (Ok o, m')) ∧
  ∃ l', rtc link_step l l' ∧ pushed l' = pushed l ∧ popped l' = pushed l.
Proof.
  intros Hr. pose proof (link_inv_reachable _ Hr) as Hinv. split_and!.
  - destruct Hinv as (fs & ? & _). eauto.
  - destruct Hinv as (fs & _ & He).
    destruct (pop_encoded _ _ _ He) as [(f & fs' & m' & _ & Hp & _)|[Hp _]]; eauto.
  - destruct (carry_all l) as (l1 & Hr1 & Hw & Hp1 & Hq1).
    destruct (pop_all l1) as (l2 & Hr2 & Hp2 & Hq2); [|done|].
    + apply link_inv_reachable. by etransitivity.
    + exists l2. split; [by etransitivity|]. split; congruence.
Qed.
End properties.

(** ** A concrete codec *)

Module ToyFrame.
(** A frame of three bytes: a tag and two bytes of data. *)
Definition frame : Type := byte * byte.

#[global] Instance codec : Frame frame := {|
  FrameError := unit;
  unmarshall bs := match bs with
                   | _ :: x :: y :: _ => (Ok (Some (x, y)), 3)
                   | _ => (Ok None, length bs)
                   end;
  marshall f := Ok [Byte.x7e; f.1; f.2];
|}.

#[global] Instance codec_laws : FrameLaws frame.
Proof.
  split; simpl.
  - intros [x y] bs rest [= <-]. done.
  - intros [x y] bs k [= <-]. simpl. intros Hk. do 3 (destruct k as [|k]; [done|]). lia.
  - done.
Qed.

(** A layout that gives one byte at a time. *)
Definition bytewise : VecDequeLayout := λ _, 1.
#[global] Existing Instance bytewise.
#[global] Instance bytewise_laws : VecDequeLaws.
Proof. intros q _. unfold front_len, bytewise. lia. Qed.
End ToyFrame.

Lemma frames_in_order_witness :
  let f := (Byte.x01, Byte.x02) : ToyFrame.frame in
  let l := {| sender := {| read_queue := []; write_queue := [Byte.x01; Byte.x02] |};
              receiver := {| read_queue := [Byte.x7e]; write_queue := [] |};
              pushed := [f]; popped := [] |} in
  (∃ fs, pushed l = popped l ++ fs) ∧
  (∃ o m', pop (F := ToyFrame.frame) (receiver l) = Ret (Ok o, m')) ∧
  ∃ l', rtc link_step l l' ∧ pushed l' = pushed l ∧ popped l' = pushed l.
Proof.
  intros f l. apply frames_in_order.
  eapply rtc_l; [apply (link_push f); reflexivity|].
  apply rtc_once. exact (link_carry 5 {| read_queue := []; write_queue := [Byte.x7e; Byte.x01; Byte.x02] |}
    new [f] []).
Defined.
