(* ===== verification/Tunnel.v ===== *)
(** * The tunnel: src/tunnel.rs

    [Tunnel::tunnel_once] carries bytes between one accepted connection and a
    session, with a buffer for each direction. *)

From S2P Require Import Prelude StdLib Resource Net NetResource.

#[local] Open Scope nat_scope.

(** How [tunnel_once] returns: [Ok((in_count, out_count))] or [Err(err)]. *)
Inductive Exit :=
| Finished (in_count out_count : nat)
| Failed (err : io_error).

Section tunnel.
Context {C Se P : Type} `{NC : NetConnection C} `{NS : NetSession Se} `{PP : Poll P}.

(** The local variables of [tunnel_once]. *)
Record Tunnel := {
  stream : C;
  tsession : Se;
  tpoller : P;
  in_buf : list byte;
  out_buf : list byte;
  in_count : nat;
  out_count : nat;
}.

Definition set_stream (x : C) (t : Tunnel) : Tunnel :=
  {| stream := x; tsession := tsession t; tpoller := tpoller t; in_buf := in_buf t;
     out_buf := out_buf t; in_count := in_count t; out_count := out_count t |}.
Definition set_tsession (x : Se) (t : Tunnel) : Tunnel :=
  {| stream := stream t; tsession := x; tpoller := tpoller t; in_buf := in_buf t;
     out_buf := out_buf t; in_count := in_count t; out_count := out_count t |}.
Definition set_tpoller (x : P) (t : Tunnel) : Tunnel :=
  {| stream := stream t; tsession := tsession t; tpoller := x; in_buf := in_buf t;
     out_buf := out_buf t; in_count := in_count t; out_count := out_count t |}.
Definition set_in (buf : list byte) (n : nat) (t : Tunnel) : Tunnel :=
  {| stream := stream t; tsession := tsession t; tpoller := tpoller t; in_buf := buf;
     out_buf := out_buf t; in_count := n; out_count := out_count t |}.
Definition set_out (buf : list byte) (n : nat) (t : Tunnel) : Tunnel :=
  {| stream := stream t; tsession := tsession t; tpoller := tpoller t; in_buf := in_buf t;
     out_buf := buf; in_count := in_count t; out_count := n |}.

Definition on_stream {A} (m : prog C io_error A) : prog Tunnel io_error A :=
  zoom stream set_stream m.
Definition on_tsession {A} (m : prog Se io_error A) : prog Tunnel io_error A :=
  zoom tsession set_tsession m.

(** [poller.set_interest(&fd, interest)], its result dropped. *)
Definition set_tunnel_interest (fd : Z) (io : IoType.t) : prog Tunnel Exit unit :=
  modify (λ t, set_tpoller (poll_set_interest fd io (tpoller t)).2 t).

(** [?] in [tunnel_once]. *)
Definition or_fail {A} (m : prog Tunnel io_error A) : prog Tunnel Exit A := with_err Failed m.

(** The macro [handle!]: [size] is the number the call returned. *)
Definition handle {A} (call : prog Tunnel io_error A) (size : A → nat)
    (expr : A → prog Tunnel Exit unit) : prog Tunnel Exit unit :=
  attempt call ≫= λ r,
  match r with
  | Ok x =>
      if decide (size x = 0) then
        gets (λ t, (in_count t, out_count t)) ≫= λ '(i, o), throw (Finished i o)
      else expr x
  | Err err => throw (Failed err)
  end.

Definition stream_write (int_fd : Z) : prog Tunnel Exit unit :=
  gets in_buf ≫= λ buf,
  handle (on_stream (conn_write buf)) id (λ written,
    or_fail (on_stream conn_flush) ≫= λ _,
    modify (λ t, set_in (drop written (in_buf t)) (in_count t + written) t) ≫= λ _,
    gets in_buf ≫= λ left,
    if decide (left = []) then set_tunnel_interest int_fd IoType.read_only else mret tt).

Definition stream_read (ext_fd : Z) : prog Tunnel Exit unit :=
  handle (on_stream (conn_read READ_BUFFER_SIZE)) length (λ bs,
    modify (λ t, set_out (out_buf t ++ bs) (out_count t) t) ≫= λ _,
    set_tunnel_interest ext_fd IoType.read_write).

Definition session_write (ext_fd : Z) : prog Tunnel Exit unit :=
  gets out_buf ≫= λ buf,
  handle (on_tsession (sess_write buf)) id (λ written,
    or_fail (on_tsession sess_flush) ≫= λ _,
    modify (λ t, set_out (drop written (out_buf t)) (out_count t + written) t) ≫= λ _,
    gets out_buf ≫= λ left,
    if decide (left = []) then set_tunnel_interest ext_fd IoType.read_only else mret tt).

Definition session_read (int_fd : Z) : prog Tunnel Exit unit :=
  handle (on_tsession (sess_read READ_BUFFER_SIZE)) length (λ bs,
    modify (λ t, set_in (in_buf t ++ bs) (in_count t) t) ≫= λ _,
    set_tunnel_interest int_fd IoType.read_write).

(** The body of the inner loop. *)
Definition tunnel_event (int_fd ext_fd fd : Z) (res : result IoFail IoType.t) :
    prog Tunnel Exit unit :=
  match res with
  | Err (Connectivity _) =>
      gets (λ t, (in_count t, out_count t)) ≫= λ '(i, o), throw (Finished i o)
  | Err (Os _) => throw (Failed (from_kind BrokenPipe))
  | Ok ev =>
      if decide (fd = int_fd) then
        (if IoType.write ev then stream_write int_fd else mret tt) ≫= λ _,
        (if IoType.read ev then stream_read ext_fd else mret tt)
      else if decide (fd = ext_fd) then
        (if IoType.write ev then session_write ext_fd else mret tt) ≫= λ _,
        (if IoType.read ev then session_read int_fd else mret tt)
      else mret tt
  end.

(** [while let Some((fd, res)) = poller.next()] *)
Fixpoint tunnel_events (fuel : nat) (int_fd ext_fd : Z) : prog Tunnel Exit unit := λ t,
  match fuel with
  | O => Hang
  | S fuel =>
      match poll_next (tpoller t) with
      | (None, p) => Ret (Ok tt, set_tpoller p t)
      | (Some (fd, res), p) =>
          (tunnel_event int_fd ext_fd fd res ≫= λ _, tunnel_events fuel int_fd ext_fd)
            (set_tpoller p t)
      end
  end.

(** The outer loop; it ends only by returning from [tunnel_once]. *)
Fixpoint tunnel_loop (fuel : nat) (timeout : Z) (int_fd ext_fd : Z) : prog Tunnel Exit unit := λ t,
  match fuel with
  | O => Hang
  | S fuel =>
      let '(polled, p) := poll_poll (Some timeout) (tpoller t) in
      let t := set_tpoller p t in
      match polled with
      | Err e => Ret (Err (Failed e), t)
      | Ok O => Ret (Err (Failed (from_kind TimedOut)), t)
      | Ok (S _) =>
          (tunnel_events (S fuel) int_fd ext_fd ≫= λ _, tunnel_loop fuel timeout int_fd ext_fd) t
      end
  end.

(** What [tunnel_once] does once a connection is accepted. *)
Definition tunnel_run (fuel : nat) (timeout : Z) : prog Tunnel Exit unit :=
  or_fail (on_stream (conn_set_nonblocking true)) ≫= λ _,
  or_fail (on_stream (conn_set_read_timeout (Some timeout))) ≫= λ _,
  or_fail (on_stream (conn_set_write_timeout (Some timeout))) ≫= λ _,
  or_fail (on_tsession (sess_set_nonblocking true)) ≫= λ _,
  or_fail (on_tsession (sess_set_read_timeout (Some timeout))) ≫= λ _,
  or_fail (on_tsession (sess_set_write_timeout (Some timeout))) ≫= λ _,
  gets (λ t, (conn_fd (stream t), sess_fd (tsession t))) ≫= λ '(int_fd, ext_fd),
  modify (λ t, set_tpoller (poll_register ext_fd IoType.read_only
                 (poll_register int_fd IoType.read_only (tpoller t))) t) ≫= λ _,
  tunnel_loop fuel timeout int_fd ext_fd.

(** [tunnel_once], from [self.listener.accept()] on. *)
Definition tunnel_once (fuel : nat) (accepted : io_result C) (session : Se) (poller : P)
    (timeout : Z) : outcome (io_result (nat * nat) * option Tunnel) :=
  match accepted with
  | Err e => Ret (Err e, None)
  | Ok conn =>
      let t := {| stream := conn; tsession := session; tpoller := poller; in_buf := [];
                  out_buf := []; in_count := 0; out_count := 0 |} in
      '(r, t) ← tunnel_run fuel timeout t;
      match r with
      | Err (Finished i o) => Ret (Ok (i, o), Some t)
      | Err (Failed e) => Ret (Err e, Some t)
      | Ok _ => Panic "the loop has no other exit"
      end
  end.

(** ** The listener

    [Tunnel] of the source: a listener of type [Ln], and the session. *)
Record Tunneling {Ln : Type} := { tunnel_listener : Ln; tun_session : Se }.

Section listener.
Context {Ln Ad : Type} (listener_local_addr : Ln → io_result Ad).
Implicit Types (self : Tunneling (Ln := Ln)).

(** [Tunnel::with]; [bound] is what [TcpListener::bind(addr)] returns. *)
Definition tunnel_with (session : Se) (bound : io_result Ln) :
    result (Se * io_error) (Tunneling (Ln := Ln)) :=
  match bound with
  | Err err => Err (session, err)
  | Ok listener => Ok {| tunnel_listener := listener; tun_session := session |}
  end.

Definition tunnel_local_addr self : io_result Ad := listener_local_addr (tunnel_listener self).

(** [tunnel_once] from its start; [accepted] is what the listener accepts. *)
Definition tunnel_once_self (fuel : nat) (accepted : io_result C) self (poller : P) (timeout : Z) :
    outcome (io_result (nat * nat) * option Tunnel) :=
  match listener_local_addr (tunnel_listener self) with
  | Err _ => Panic "listener always has local addr"
  | Ok _ => tunnel_once fuel accepted (tun_session self) poller timeout
  end.

Definition tunnel_into_session self : Se := tun_session self.
End listener.
End tunnel.
Arguments Tunnel : clear implicits.

(** ** Every byte is accounted for *)

Section conservation.
Context {C Se P : Type} `{CL : ConnectionLaws C} `{SL : SessionLaws Se} `{PP : Poll P}.
Context (c0 : C) (s0 : Se).
Implicit Types (t : Tunnel C Se P).

(** What came in through the session went out to the stream, in order, up to
    what waits in [in_buf]; the same the other way; the counters count. *)
Definition conserved t : Prop :=
  sess_ready (tsession t) ∧
  (∃ w, conn_out (stream t) = conn_out c0 ++ w ∧ in_count t = length w ∧
        sess_in s0 = w ++ in_buf t ++ sess_in (tsession t)) ∧
  (∃ w, sess_out (tsession t) = sess_out s0 ++ w ∧ out_count t = length w ∧
        conn_in c0 = w ++ out_buf t ++ conn_in (stream t)).

(** After an event the bytes are accounted for, unless the tunnel fails; when
    it finishes it reports the counters. *)
Definition event_post (r : result Exit unit) t : Prop :=
  match r with
  | Ok _ => conserved t
  | Err (Finished i o) => conserved t ∧ i = in_count t ∧ o = out_count t
  | Err (Failed _) => True
  end.

Lemma wp_handle {A} (call : prog (Tunnel C Se P) io_error A) size expr t Q :
  wp call (λ r t', match r with
    | Ok x => (size x = 0 → Q (Err (Finished (in_count t') (out_count t'))) t') ∧
              (size x ≠ 0 → wp (expr x) Q t')
    | Err e => Q (Err (Failed e)) t'
    end) t →
  wp (handle call size expr) Q t.
Proof.
  intros Hc. unfold handle. wp_steps. eapply wp_mono; [exact Hc|].
  intros [x|e] t' Hr; wp_steps; [|done]. case_decide; wp_steps; by apply Hr.
Qed.

Lemma stream_write_ok fd t : conserved t → wp (stream_write fd) event_post t.
Proof.
  intros (Hr & (w & Ho & Hn & Hi) & Hout). unfold stream_write, or_fail. wp_steps.
  apply wp_handle. apply wp_zoom. eapply wp_mono; [apply conn_write_law|].
  intros [n|e] c (Hci & _ & _ & Hw); simpl; [|done]. destruct Hw as [Hle Hw]. split.
  - intros ->. split; [|done]. simpl in Hw. rewrite app_nil_r in Hw.
    split; [done|]. split; simpl; [|by rewrite Hci]. exists w. by rewrite Hw.
  - intros _. wp_steps. apply wp_zoom. simpl.
    eapply wp_mono; [apply conn_flush_law|]. intros [[]|e] c2 (Hi2 & Ho2 & _ & _); simpl; [|done].
    wp_steps.
    assert (conserved (set_in (drop n (in_buf t)) (in_count t + n) (set_stream c2 t))) as Hc2.
    { split; [done|]. split; simpl; [|by rewrite Hi2, Hci]. exists (w ++ take n (in_buf t)).
      rewrite Ho2, Hw, Ho, <-!app_assoc, take_drop_app_middle, length_app, length_take.
      split_and!; [done|lia|done]. }
    case_decide; [unfold set_tunnel_interest; by wp_steps|by wp_steps].
Qed.

Lemma session_write_ok fd t : conserved t → wp (session_write fd) event_post t.
Proof.
  intros (Hr & Hin & (w & Ho & Hn & Hi)). unfold session_write, or_fail. wp_steps.
  apply wp_handle. apply wp_zoom. eapply wp_mono; [by apply sess_write_law|].
  intros [n|e] s (Hr1 & Hci & _ & Hw); simpl; [|done]. destruct Hw as [Hle Hw]. split.
  - intros ->. split; [|done]. simpl in Hw. rewrite app_nil_r in Hw.
    split; [done|]. split; simpl; [by rewrite Hci|]. exists w. by rewrite Hw.
  - intros _. wp_steps. apply wp_zoom. simpl.
    eapply wp_mono; [by apply sess_flush_law|].
    intros [[]|e] s2 (Hr2 & Hi2 & Ho2 & _); simpl; [|done]. wp_steps.
    assert (conserved (set_out (drop n (out_buf t)) (out_count t + n) (set_tsession s2 t))) as Hc2.
    { split; [done|]. split; simpl; [by rewrite Hi2, Hci|]. exists (w ++ take n (out_buf t)).
      rewrite Ho2, Hw, Ho, <-!app_assoc, take_drop_app_middle, length_app, length_take.
      split_and!; [done|lia|done]. }
    case_decide; [unfold set_tunnel_interest; by wp_steps|by wp_steps].
Qed.

Lemma stream_read_ok fd t : conserved t → wp (stream_read fd) event_post t.
Proof.
  intros (Hr & Hin & (w & Ho & Hn & Hi)). unfold stream_read.
  apply wp_handle. apply wp_zoom. eapply wp_mono; [apply conn_read_law|].
  intros [bs|e] c (Hco & _ & _ & Hrd); simpl; [|done]. destruct Hrd as [Hle Hrd].
  assert (conserved (set_out (out_buf t ++ bs) (out_count t) (set_stream c t))) as Hc.
  { split; [done|]. split; simpl; [by rewrite Hco|]. exists w.
    rewrite Hi, Hrd, <-!app_assoc. by split_and!. }
  split.
  - intros Hz. apply nil_length_inv in Hz as ->. split; [|done].
    unfold conserved in *. simpl in *. by rewrite app_nil_r in Hc.
  - intros _. wp_steps. unfold set_tunnel_interest; by wp_steps.
Qed.

Lemma session_read_ok fd t : conserved t → wp (session_read fd) event_post t.
Proof.
  intros (Hr & (w & Ho & Hn & Hi) & Hout). unfold session_read.
  apply wp_handle. apply wp_zoom. eapply wp_mono; [by apply sess_read_law|].
  intros [bs|e] s (Hr1 & Hso & _ & Hrd); simpl; [|done]. destruct Hrd as [Hle Hrd].
  assert (conserved (set_in (in_buf t ++ bs) (in_count t) (set_tsession s t))) as Hc.
  { split; [done|]. split; simpl; [|by rewrite Hso]. exists w.
    rewrite Hi, Hrd, <-!app_assoc. by split_and!. }
  split.
  - intros Hz. apply nil_length_inv in Hz as ->. split; [|done].
    unfold conserved in *. simpl in *. by rewrite app_nil_r in Hc.
  - intros _. wp_steps. unfold set_tunnel_interest; by wp_steps.
Qed.

(** Two optional steps in a row. *)
Lemma two_steps_ok (b1 b2 : bool) (m1 m2 : prog (Tunnel C Se P) Exit unit) t :
  (∀ t, conserved t → wp m1 event_post t) → (∀ t, conserved t → wp m2 event_post t) →
  conserved t →
  wp ((if b1 then m1 else mret tt) ≫= λ _, (if b2 then m2 else mret tt)) event_post t.
Proof.
  intros H1 H2 Ht. wp_steps. eapply (wp_mono _ event_post).
  - destruct b1; [by apply H1|by wp_steps].
  - intros [[]|e] t' Hp; [|done]. destruct b2; [by apply H2|by wp_steps].
Qed.

Lemma tunnel_event_ok int_fd ext_fd fd res t :
  conserved t → wp (tunnel_event int_fd ext_fd fd res) event_post t.
Proof.
  intros Ht. destruct res as [ev|[flags|flags]]; simpl; [|by wp_steps..].
  case_decide; [|case_decide; [|by wp_steps]]; apply two_steps_ok;
    auto using stream_write_ok, stream_read_ok, session_write_ok, session_read_ok.
Qed.

Lemma tunnel_events_ok fuel int_fd ext_fd t r t' :
  conserved t → tunnel_events fuel int_fd ext_fd t = Ret (r, t') → event_post r t'.
Proof.
  revert t. induction fuel as [|fuel IH]; intros t Ht; simpl; [done|].
  destruct (poll_next (tpoller t)) as [[[fd res]|] p]; [|by intros [= <- <-]].
  intros Hr. pose proof (tunnel_event_ok int_fd ext_fd fd res (set_tpoller p t) Ht) as Hwp.
  unfold wp in Hwp. unfold mbind, prog_bind in Hr.
  destruct (tunnel_event int_fd ext_fd fd res (set_tpoller p t)) as [[[[]|e] t1]| |]; [|by simplify_eq|done..].
  by apply IH in Hr.
Qed.

Lemma tunnel_loop_ok fuel timeout int_fd ext_fd t r t' :
  conserved t → tunnel_loop fuel timeout int_fd ext_fd t = Ret (r, t') → event_post r t'.
Proof.
  revert t. induction fuel as [|fuel IH]; intros t Ht; cbn [tunnel_loop]; [done|].
  destruct (poll_poll (Some timeout) (tpoller t)) as [[[|n]|e] p];
    [by intros [= <- <-]| |by intros [= <- <-]].
  intros Hr. unfold mbind, prog_bind in Hr.
  destruct (tunnel_events (S fuel) int_fd ext_fd (set_tpoller p t)) as [[[[]|e] t1]| |] eqn:Ee;
    [| |done|done]; apply tunnel_events_ok in Ee; [by apply IH in Hr|done|by simplify_eq|done].
Qed.
End conservation.

(** ** Properties *)

Section properties.
Context {C Se P : Type} `{CL : ConnectionLaws C} `{SL : SessionLaws Se} `{PP : Poll P}.

(** A setting of the stream or of the session, before anything is carried. *)
Lemma wp_stream_setting x (t : Tunnel C Se P) c0 s0 :
  conserved c0 s0 t → wp (on_stream (conn_set x)) (λ _ t', conserved c0 s0 t') t.
Proof.
  intros (Hr & Hin & Hout). apply wp_zoom. eapply wp_mono; [apply conn_set_law|].
  intros _ c (Hi & Ho & _). unfold conserved. simpl. by rewrite Hi, Ho.
Qed.

Lemma wp_session_setting x (t : Tunnel C Se P) c0 s0 :
  conserved c0 s0 t → wp (on_tsession (sess_set x)) (λ _ t', conserved c0 s0 t') t.
Proof.
  intros (Hr & Hin & Hout). apply wp_zoom. eapply wp_mono; [by apply sess_set_law|].
  intros _ s (Hr' & Hi & Ho & _). unfold conserved. simpl. by rewrite Hi, Ho.
Qed.

Lemma after_setting (m : prog (Tunnel C Se P) io_error unit) k t r t' c0 s0 :
  wp m (λ _ t', conserved c0 s0 t') t →
  (∀ t1, conserved c0 s0 t1 → k tt t1 = Ret (r, t') → event_post c0 s0 r t') →
  (or_fail m ≫= k) t = Ret (r, t') → event_post c0 s0 r t'.
Proof.
  intros Hm Hk. unfold wp in Hm. unfold or_fail, mbind, prog_bind, with_err.
  destruct (m t) as [[[[]|e] t1]| |]; simpl; [by apply Hk|by intros [= <- <-]|done|done].
Qed.

Lemma tunnel_run_ok fuel timeout (t : Tunnel C Se P) r t' c0 s0 :
  conserved c0 s0 t → tunnel_run fuel timeout t = Ret (r, t') → event_post c0 s0 r t'.
Proof.
  intros Ht. unfold tunnel_run.
  apply after_setting; [by apply (wp_stream_setting (NonBlocking true))|]. clear t Ht. intros t Ht.
  apply after_setting; [by apply (wp_stream_setting (ReadTimeout (Some timeout)))|].
  clear t Ht. intros t Ht.
  apply after_setting; [by apply (wp_stream_setting (WriteTimeout (Some timeout)))|].
  clear t Ht. intros t Ht.
  apply after_setting; [by apply (wp_session_setting (NonBlocking true))|]. clear t Ht. intros t Ht.
  apply after_setting; [by apply (wp_session_setting (ReadTimeout (Some timeout)))|].
  clear t Ht. intros t Ht.
  apply after_setting; [by apply (wp_session_setting (WriteTimeout (Some timeout)))|].
  clear t Ht. intros t Ht. unfold_prog. by apply tunnel_loop_ok.
Qed.

(** C19. The tunnel's account is true: when [tunnel_once] returns
    [Ok((in_count, out_count))], the first [in_count] bytes the session received
    are exactly what was written to the local stream, the first [out_count]
    bytes the local stream received are exactly what was sent through the
    session, in order, and what was read beyond them is still in the buffers. *)
Theorem tunnel_once_accounts fuel (conn : C) (session : Se) (poller : P) timeout i o t :
  sess_ready session →
  tunnel_once fuel (Ok conn) session poller timeout = Ret (Ok (i, o), Some t) →
  conn_out (stream t) = conn_out conn ++ take i (sess_in session) ∧
  sess_out (tsession t) = sess_out session ++ take o (conn_in conn) ∧
  drop i (sess_in session) = in_buf t ++ sess_in (tsession t) ∧
  drop o (conn_in conn) = out_buf t ++ conn_in (stream t).
Proof.
  intros Hready Hr.
  unfold tunnel_once, mbind, outcome_bind in Hr.
  match type of Hr with context [tunnel_run fuel timeout ?t0] =>
    assert (conserved conn session t0) as Hc0 by
      (split; [done|split; exists []; simpl; by rewrite app_nil_r]);
    destruct (tunnel_run fuel timeout t0) as [[r t1]| |] eqn:Er; [|done..];
    apply (tunnel_run_ok _ _ _ _ _ _ _ Hc0) in Er
  end.
  destruct r as [[]|[i' o'|e]]; simplify_eq.
  destruct Er as ((_ & (w & Ho & Hn & Hi) & (w' & Ho' & Hn' & Hi')) & -> & ->).
  rewrite Ho, Ho', Hn, Hn', Hi, Hi', !take_app_length, !drop_app_length. by split_and!.
Qed.
End properties.

(** ** Witness *)

#[local] Existing Instance PlainSession.session.
#[local] Existing Instance PlainSession.laws.

Module ToyTunnel.
(** A poller that reports its script, one batch of events per poll. *)
Record t := { queue : list event; script : list (list event) }.

Definition next (p : t) : option event * t :=
  match queue p with
  | [] => (None, p)
  | e :: q => (Some e, {| queue := q; script := script p |})
  end.
Definition wait (_ : option Z) (p : t) : io_result nat * t :=
  match script p with
  | [] => (Ok 0, p)
  | es :: ess => (Ok (length es), {| queue := queue p ++ es; script := ess |})
  end.

#[export] Instance poller : Poll t := {|
  poll_register _ _ p := p;
  poll_unregister _ p := p;
  poll_set_interest _ _ p := (true, p);
  poll_poll := wait;
  poll_next := next;
|}.

(** The client sends two bytes and the remote three; the client hangs up when
    one byte of the answer has been passed on. *)
Definition client : Script.t :=
  {| Script.fd := 3; Script.peer := 9; Script.reads := [Script.Arrive [Byte.x01; Byte.x02]];
     Script.writes := [Script.Room 1]; Script.out := [] |}.
Definition remote : Script.t :=
  {| Script.fd := 4; Script.peer := 9;
     Script.reads := [Script.Arrive [Byte.x0a; Byte.x0b; Byte.x0c]];
     Script.writes := []; Script.out := [] |}.
Definition events : t :=
  {| queue := [];
     script := [[(3%Z, Ok IoType.read_only)]; [(4%Z, Ok IoType.read_write)];
                [(3%Z, Ok IoType.write_only)]; [(3%Z, Err (Connectivity 16))]] |}.

Definition run : outcome (io_result (nat * nat) * option (Tunnel Script.t Script.t t)) :=
  tunnel_once 20 (Ok client) remote events 1000.
Definition end_state : Tunnel Script.t Script.t t :=
  match run with
  | Ret (_, Some s) => s
  | _ => {| stream := client; tsession := remote; tpoller := events; in_buf := []; out_buf := [];
            in_count := 0; out_count := 0 |}
  end.
End ToyTunnel.
Import ToyTunnel.

(** The run returns while two bytes for the client are still in the buffer. *)
Example end_state_buffer : in_buf end_state = [Byte.x0b; Byte.x0c].
Proof. by vm_compute. Qed.

Lemma tunnel_once_accounts_witness :
  conn_out (stream end_state) = conn_out client ++ take 1 (sess_in remote) ∧
  sess_out (tsession end_state) = sess_out remote ++ take 2 (conn_in client) ∧
  drop 1 (sess_in remote) = in_buf end_state ++ sess_in (tsession end_state) ∧
  drop 2 (conn_in client) = out_buf end_state ++ conn_in (stream end_state).
Proof.
  apply (tunnel_once_accounts 20 client remote events 1000 1 2 end_state); [exact I|].
  vm_compute. reflexivity.
Defined.
