(* ===== verification/Command.v ===== *)
(** * Commands and log levels of nsh: nsh/src/command.rs, nsh/src/shell.rs

    Strings are byte strings. The addresses are those of the cyphernet crate:
    the class [PeerAddrLib] has their parser and printer. *)

From Stdlib Require Import Strings.Ascii.
From S2P Require Import Prelude StdLib Resource.

#[local] Open Scope string_scope.

(** ** [str::split_once] *)

(** At the first occurrence of a character; the character goes. *)
Fixpoint split_once (c : ascii) (s : string) : option (string * string) :=
  match s with
  | EmptyString => None
  | String x s' =>
      if decide (x = c) then Some (EmptyString, s')
      else match split_once c s' with
           | None => None
           | Some (a, b) => Some (String x a, b)
           end
  end.

(** ** Commands *)

Class PeerAddrLib := {
  RemoteAddr : Type;
  PeerAddrParseError : Type;
  addr_parse : string → result PeerAddrParseError RemoteAddr;
  addr_display : RemoteAddr → string;
}.
Class PeerAddrLaws `{PeerAddrLib} : Prop :=
  addr_parse_display a : addr_parse (addr_display a) = Ok a.

Inductive LocalCommand := Echo.

Section command.
Context `{PL : PeerAddrLib}.

Inductive InvalidCommand :=
| Unrecognized (s : string)
| InvalidRemoteAddr (e : PeerAddrParseError).

Inductive Command :=
| Execute (command : LocalCommand)
| Forward (hop : RemoteAddr) (command : LocalCommand).

Definition ECHO : Command := Execute Echo.

(** [#[display(lowercase)]] and [#[display("{command}@{hop}")]] *)
Definition local_display (c : LocalCommand) : string :=
  match c with Echo => "echo" end.
Definition command_display (c : Command) : string :=
  match c with
  | Execute command => local_display command
  | Forward hop command => local_display command +:+ "@" +:+ addr_display hop
  end.

Definition local_from_str (s : string) : result InvalidCommand LocalCommand :=
  if decide (s = "echo") then Ok Echo else Err (Unrecognized s).

(** The address is parsed before the command. *)
Definition command_from_str (s : string) : result InvalidCommand Command :=
  match split_once "@" s with
  | None => command ← local_from_str s; Ok (Execute command)
  | Some (command, hop) =>
      hop ← map_err InvalidRemoteAddr (addr_parse hop);
      command ← local_from_str command;
      Ok (Forward hop command)
  end.
End command.

(** ** Log levels *)

Module LogLevel.
Inductive t := Error | Warn | Info | Debug | Trace.
#[global] Instance eq_dec : EqDecision t.
Proof. solve_decision. Defined.

Definition display (l : t) : string :=
  match l with
  | Error => "error" | Warn => "warn" | Info => "info" | Debug => "debug" | Trace => "trace"
  end.

(** [str::to_lowercase], on ASCII strings. *)
Definition lower (c : ascii) : ascii :=
  let n := N_of_ascii c in
  if (N.leb 65 n && N.leb n 90)%bool then ascii_of_N (n + 32) else c.
Fixpoint to_lowercase (s : string) : string :=
  match s with
  | EmptyString => EmptyString
  | String c s => String (lower c) (to_lowercase s)
  end.

(** [impl FromStr for LogLevel]; the error keeps the lowercase string. *)
Definition from_str (s : string) : result string t :=
  let s := to_lowercase s in
  if decide (s = "error" ∨ s = "errors") then Ok Error
  else if decide (s = "warn" ∨ s = "warning" ∨ s = "warnings") then Ok Warn
  else if decide (s = "info") then Ok Info
  else if decide (s = "debug") then Ok Debug
  else if decide (s = "trace" ∨ s = "tracing") then Ok Trace
  else Err s.

Definition verbosity_flag_count (l : t) : Z :=
  match l with Error => 0 | Warn => 1 | Info => 2 | Debug => 3 | Trace => 4 end.

Definition from_verbosity_flag_count (level : Z) : t :=
  if decide (level = 0%Z) then Error
  else if decide (level = 1%Z) then Warn
  else if decide (level = 2%Z) then Info
  else if decide (level = 3%Z) then Debug
  else Trace.

Definition from_u8 (val : Z) : t := from_verbosity_flag_count val.
Definition into_u8 (l : t) : Z := verbosity_flag_count l.

Lemma from_into l : from_u8 (into_u8 l) = l ∧ from_str (display l) = Ok l.
Proof. by destruct l. Qed.

(** A count above the last level means the last level. *)
Lemma into_from n : (0 ≤ n)%Z → into_u8 (from_u8 n) = Z.min n 4.
Proof.
  intros Hn. unfold into_u8, from_u8, from_verbosity_flag_count.
  repeat case_decide; simpl; lia.
Qed.
End LogLevel.

(** ** Lemmas *)

Lemma split_once_app c a b :
  (∀ a1 a2, a ≠ a1 +:+ String c a2) → split_once c (a +:+ String c b) = Some (a, b).
Proof.
  induction a as [|x a IH]; intros Ha; simpl.
  - by rewrite decide_True.
  - rewrite decide_False by (intros ->; by apply (Ha "" a)).
    rewrite IH; [done|]. intros a1 a2 ->. by apply (Ha (String x a1) a2).
Qed.

Lemma split_once_spec c s :
  match split_once c s with
  | Some (a, b) => s = a +:+ String c b ∧ ∀ a1 a2, a ≠ a1 +:+ String c a2
  | None => ∀ a1 a2, s ≠ a1 +:+ String c a2
  end.
Proof.
  induction s as [|x s IH]; simpl; [by intros [] ?|].
  case_decide as Hx.
  - subst. split; [done|by intros [] ?].
  - destruct (split_once c s) as [[a b]|].
    + destruct IH as [-> Ha]. split; [done|]. intros [|y a1] a2 E; injection E as E1 E2; [done|].
      by apply (Ha a1 a2).
    + intros [|y a1] a2 E; injection E as E1 E2; [done|]. by apply (IH a1 a2).
Qed.

(** What parses to a command. *)
Lemma command_from_str_inv `{PL : PeerAddrLib} (c : Command) (s : string) :
  command_from_str s = Ok c →
  match c with
  | Execute l => s = local_display l
  | Forward hop l => ∃ a, s = local_display l +:+ "@" +:+ a ∧ addr_parse a = Ok hop
  end.
Proof.
  unfold command_from_str, local_from_str. intros Hs. pose proof (split_once_spec "@" s) as Hsp.
  destruct (split_once "@" s) as [[a b]|].
  - destruct Hsp as [-> _]. destruct (addr_parse b) as [hop|e] eqn:Ea; simpl in Hs; [|done].
    case_decide; simplify_eq/=. eauto.
  - case_decide; by simplify_eq/=.
Qed.

Lemma command_from_str_display `{PL : PeerAddrLaws} (c : Command) :
  command_from_str (command_display c) = Ok c.
Proof.
  destruct c as [[]|hop []]; [done|]. unfold command_from_str.
  change (command_display (Forward hop Echo)) with ("echo" +:+ String "@" (addr_display hop)).
  rewrite (split_once_app "@" "echo") by exact (split_once_spec "@" "echo").
  by rewrite addr_parse_display.
Qed.

(** ** Properties *)

(** C34. Commands survive the trip: what [Display] writes, [FromStr] reads
    back, also when the address contains the separator; and whatever
    [FromStr] accepts is a local command, or a local command, the separator
    and an address the library accepts. *)
Theorem command_roundtrip `{PL : PeerAddrLaws} (c : Command) (s : string) :
  command_from_str (command_display c) = Ok c ∧
  (command_from_str s = Ok c →
   match c with
   | Execute l => s = local_display l
   | Forward hop l => ∃ a, s = local_display l +:+ "@" +:+ a ∧ addr_parse a = Ok hop
   end).
Proof. split; [apply command_from_str_display|apply command_from_str_inv]. Qed.

(** ** Witness *)

Module ToyAddr.
#[export] Instance lib : PeerAddrLib := {|
  RemoteAddr := string;
  PeerAddrParseError := unit;
  addr_parse := Ok;
  addr_display a := a;
|}.
#[export] Instance laws : PeerAddrLaws.
Proof. done. Qed.

Definition far : @RemoteAddr lib := "key@host:3232".
End ToyAddr.
Import ToyAddr.

Lemma command_roundtrip_witness :
  command_from_str (command_display (Forward far Echo)) =
    Ok (Forward far Echo) ∧
  ∃ a, "echo@key@host:3232" = "echo" +:+ "@" +:+ a ∧ addr_parse a = Ok far.
Proof.
  destruct (command_roundtrip (Forward far Echo) "echo@key@host:3232")
    as [H1 H2]. split; [exact H1|]. apply H2. reflexivity.
Defined.
