(* ===== verification/Server.v ===== *)
(** * The nsh server: nsh/src/server.rs

    [Server] is a [Handler] of the reactor whose listeners are [NetAccept]s and
    whose transports are [NetResource]s. Its session type is a parameter; nsh
    uses Noise XK sessions. *)

From S2P Require Import Prelude StdLib Timeouts Resource Channel Waker Reactor ReactorSpec Net NetResource.

(** [trait Delegate]: [A] is the type of actions, [K] that of peer keys. *)
Class Delegate (D A K Sk : Type) := {
  new_client : Z → K → D → outcome (list A * D);
  input : Z → list byte → Sk → D → outcome (list A * D);
}.
#[global] Hint Mode Delegate ! - - - : typeclass_instances.

Section server.
Context {S : Type} `{NS : NetSession S} {L C Ctx : Type} `{NL : NetListener L C} `{NC : NetConnection C}.
Context (session_accept : C → Ctx → outcome (io_result S)) (debug : bool).
Context `{!EqDecision (SocketAddr (L := L)), !Countable (SocketAddr (L := L))}.

Abbreviation Accept := (NetAccept (L := L) (Context_ := Ctx)).
Abbreviation Transport_ := (NetResource S).
Abbreviation Act := (Action Accept (SocketAddr (L := L)) Transport_ Z).
Abbreviation Err_ := (Error Accept (SocketAddr (L := L)) Transport_ Z).

Context {D Sk : Type} `{DG : !Delegate D Act (SessionId (S := S)) Sk}.

Record Server := {
  outbox : gmap Z (list (list byte));
  action_queue : list Act;
  delegate : D;
  ecdh : Sk;
}.

Definition set_outbox (x : gmap Z (list (list byte))) (h : Server) : Server :=
  {| outbox := x; action_queue := action_queue h; delegate := delegate h; ecdh := ecdh h |}.
Definition set_actions (x : list Act) (h : Server) : Server :=
  {| outbox := outbox h; action_queue := x; delegate := delegate h; ecdh := ecdh h |}.
Definition set_delegate (x : D) (h : Server) : Server :=
  {| outbox := outbox h; action_queue := action_queue h; delegate := x; ecdh := ecdh h |}.

(** [self.action_queue.push_back(..)], [self.action_queue.extend(..)] *)
Definition extend (l : list Act) (h : Server) : Server := set_actions (action_queue h ++ l) h.
Definition push_back (a : Act) (h : Server) : Server := extend [a] h.

(** [Server::with]; [bound] is what binding the listening socket returns, and
    [ctx] the key and the authenticator. *)
Definition with_ (sk : Sk) (ctx : Ctx) (bound : io_result L) (d : D) : io_result Server :=
  listener ← accept_bind bound ctx;
  Ok {| outbox := ∅; action_queue := [RegisterListener listener]; delegate := d; ecdh := sk |}.

Definition listener_event (ev : ListenerEvent S) (h : Server) : outcome Server :=
  match ev with
  | Accepted session =>
      created ← NetResource.new session;
      match created with
      | Ok transport => Ret (push_back (RegisterTransport transport) h)
      | Err _ => Ret h
      end
  | Failure _ => Ret h
  end.

Definition transport_event (id : Z) (ev : SessionEvent (SessionId (S := S))) (h : Server) :
    outcome Server :=
  match ev with
  | Established key =>
      let queue := default [] (outbox h !! id) in
      let h := set_outbox (delete id (outbox h)) h in
      '(actions, d) ← new_client id key (delegate h);
      let h := extend actions (set_delegate d h) in
      Ret (extend (map (Send id) queue) h)
  | Data data =>
      '(actions, d) ← input id data (ecdh h) (delegate h);
      Ret (extend actions (set_delegate d h))
  | Terminated _ => Ret (push_back (UnregisterTransport id) h)
  end.

Definition server_error (err : Err_) (h : Server) : outcome Server :=
  match err with
  | TransportDisconnect _ _ _ => Ret h
  | WriteLogicError id msg =>
      Ret (set_outbox (<[id := default [] (outbox h !! id) ++ [msg]]> (outbox h)) h)
  | ListenerUnknown _ | TransportUnknown _ | PollError _ => Ret h
  | ListenerDisconnect id _ _ | ListenerPollError id _ =>
      Ret (push_back (UnregisterListener id) h)
  | WriteFailure id _ | TransportPollError id _ =>
      Ret (push_back (UnregisterTransport id) h)
  end.

(** [Iterator::next]: [pop_front] *)
Definition next (h : Server) : outcome (option Act * Server) :=
  match action_queue h with
  | [] => Ret (None, h)
  | a :: q => Ret (Some a, set_actions q h)
  end.

#[export] Instance server_handler : Handler Server := {|
  Listener := Accept;
  ListenerId := SocketAddr (L := L);
  Reactor.ListenerEvent := NetResource.ListenerEvent S;
  Transport := Transport_;
  TransportId := Z;
  TransportEvent := SessionEvent (SessionId (S := S));
  Reactor.Command := unit;
  listener_resource := net_accept session_accept;
  transport_resource := net_resource debug;
  tick _ h := Ret h;
  handle_wakeup h := Ret h;
  handle_listener_event _ ev _ := listener_event ev;
  handle_transport_event id ev _ := transport_event id ev;
  handle_command _ h := Ret h;
  handle_error := server_error;
  handover_listener _ _ := Panic "Disconnected listener socket";
  handover_transport _ h := Ret h;
  next_action := next;
|}.
End server.
