(* ===== verification/NetStable.v ===== *)
(** * Network resources keep their identity

    The reactor indexes its resources by id and by descriptor, and its theorems
    ask that I/O changes neither ([StableResource]). Here the resources of
    src/resources.rs are shown to keep that promise whenever their sessions and
    listeners do, and the sessions of src/session.rs and src/noise.rs are shown
    to do so whenever their sockets do. *)

From S2P Require Import Prelude StdLib Resource Net Auth Noise NetResource.

(** Two states that agree on what [f] observes. *)
Definition same {A B} (f : A → B) (x y : A) : Prop := f y = f x.
#[global] Instance same_preorder {A B} (f : A → B) : PreOrder (same f).
Proof. split; [done|]. intros x y z Hy Hz. unfold same in *. congruence. Qed.

Section same.
Context {A B E X : Type} (f : A → B).

Lemma same_modify (g : A → A) : (∀ x, f (g x) = f x) → respects (same f) (modify g : prog A E unit).
Proof. intros Hg. by apply respects_modify. Qed.

Lemma same_debug_assert debug cond msg :
  respects (same f) (debug_assert debug cond msg : prog A E unit).
Proof. intros s r s'. unfold debug_assert. case_match; intros [=]; by subst. Qed.
End same.

(** ** The promises *)

Class StableConnection (C : Type) `{NetConnection C} : Prop := {
  conn_read_fd n : respects (same (conn_fd (C := C))) (conn_read n);
  conn_write_fd buf : respects (same (conn_fd (C := C))) (conn_write buf);
  conn_flush_fd : respects (same (conn_fd (C := C))) conn_flush;
}.
#[global] Hint Mode StableConnection ! - : typeclass_instances.

Class StableSession (S : Type) `{NetSession S} : Prop := {
  sess_read_fd n : respects (same (sess_fd (S := S))) (sess_read n);
  sess_write_fd buf : respects (same (sess_fd (S := S))) (sess_write buf);
  sess_flush_fd : respects (same (sess_fd (S := S))) sess_flush;
}.
#[global] Hint Mode StableSession ! - : typeclass_instances.

Class StableListener (L C : Type) `{NetListener L C} : Prop :=
  listener_accept_same :
    respects (same (λ l : L, (listener_fd l, listener_local_addr l))) listener_accept.
#[global] Hint Mode StableListener ! - - : typeclass_instances.

(** ** Sockets and plain sessions *)

#[global] Instance connection_laws_stable `{ConnectionLaws C} : StableConnection C.
Proof.
  split; [intros n|intros buf|]; apply respects_wp; intros c;
    (eapply wp_mono; [first [apply conn_read_law | apply conn_write_law | apply conn_flush_law]|]);
    intros ? c' Hc; first [by destruct Hc as (_ & ? & _)|by destruct Hc as (_ & _ & ? & _)].
Qed.

#[global] Instance plain_session_stable `{SC : StableConnection C} :
  @StableSession C PlainSession.session.
Proof. split; simpl; [apply conn_read_fd|apply conn_write_fd|apply conn_flush_fd]. Qed.

Section std_io.
Context {C : Type} `{SC : StableConnection C}.
Abbreviation same_fd := (same (conn_fd (C := C))).

Lemma read_exact_fd fuel n : respects same_fd (read_exact fuel n).
Proof.
  revert n. induction fuel as [|fuel IH]; intros n; apply respects_early; try typeclasses eauto;
    [by intros c r c'|].
  respects_steps; auto using conn_read_fd with typeclass_instances.
Qed.

Lemma write_all_fd fuel buf : respects same_fd (write_all fuel buf).
Proof.
  revert buf. induction fuel as [|fuel IH]; intros buf; apply respects_early;
    try typeclasses eauto; [by intros c r c'|].
  respects_steps; auto using conn_write_fd with typeclass_instances.
Qed.
End std_io.

(** ** Noise sessions *)

Section noise.
Context `{NL : NoiseLib} {C : Type} `{SC : StableConnection C} (debug : bool) (fuel : nat).
Abbreviation same_fd := (same (λ s : NoiseXk C, conn_fd (connection s))).

Lemma on_connection_fd {A} (m : prog C io_error A) :
  respects (same (conn_fd (C := C))) m → respects same_fd (on_connection m).
Proof. intros Hm. eapply respects_zoom; [exact Hm|done]. Qed.

Lemma on_authenticator_fd {A} (m : prog (Authenticator * C) io_error A) :
  respects (same (λ p : Authenticator * C, conn_fd p.2)) m → respects same_fd (on_authenticator m).
Proof. intros Hm. eapply respects_zoom; [exact Hm|done]. Qed.

Lemma on_stream_fd {A} (m : prog C io_error A) :
  respects (same (conn_fd (C := C))) m →
  respects (same (λ p : Authenticator * C, conn_fd p.2)) (on_stream m).
Proof. intros Hm. eapply respects_zoom; [exact Hm|done]. Qed.

Lemma advance_fd input : respects same_fd (advance (C := C) input).
Proof. intros s r s'. unfold advance. destruct (advance_handshake _ _); intros [=]; by subst. Qed.

#[local] Hint Resolve conn_read_fd conn_write_fd conn_flush_fd read_exact_fd write_all_fd
  on_connection_fd on_authenticator_fd on_stream_fd advance_fd same_modify same_debug_assert : net.

Lemma certify_fd : respects (same (λ p : Authenticator * C, conn_fd p.2)) (certify fuel).
Proof. unfold certify, on_auth. respects_steps; auto with net. Qed.

Lemma verify_fd : respects (same (λ p : Authenticator * C, conn_fd p.2)) (verify debug fuel).
Proof. unfold verify, on_auth. respects_steps; auto with net. Qed.
#[local] Hint Resolve certify_fd verify_fd : net.

#[global] Instance noise_session_stable :
  @StableSession (NoiseXk C) (noise_session debug fuel).
Proof.
  split; simpl; [intros n|intros buf|]; unfold Noise.read, Noise.write, Noise.flush, send_act; respects_steps;
    auto with net.
Qed.
End noise.

(** ** Resources *)

Section resource.
Context {S : Type} `{SS : StableSession S} (debug : bool).
Abbreviation same_fd := (same (λ r : NetResource S, sess_fd (session r))).

Lemma on_session_fd {A} (m : prog S io_error A) :
  respects (same (sess_fd (S := S))) m → respects same_fd (on_session m).
Proof. intros Hm. eapply respects_zoom; [exact Hm|done]. Qed.

#[local] Hint Resolve sess_read_fd sess_write_fd sess_flush_fd on_session_fd same_modify
  same_debug_assert : net.

Lemma drain_fd {E} : respects same_fd (drain_read_buffer : prog (NetResource S) E (list byte)).
Proof. intros r x r'. unfold drain_read_buffer. case_decide; intros [=]; by subst. Qed.

Lemma read_into_buffer_fd : respects same_fd (read_into_buffer (S := S)).
Proof. unfold read_into_buffer. respects_steps; auto with net. Qed.

Lemma flush_fd : respects same_fd (flush (S := S)).
Proof. unfold flush. auto with net. Qed.
#[local] Hint Resolve drain_fd read_into_buffer_fd flush_fd : net.

Lemma handle_io_fd io : respects same_fd (net_handle_io_prog (S := S) debug io).
Proof.
  unfold net_handle_io_prog, prepare_io, finish_io, handle_readable, handle_writable, terminate.
  respects_steps; auto with net. apply respects_modify. intros r. by case_match.
Qed.

Lemma write_or_buffer_fd buf : respects same_fd (net_write_or_buffer (S := S) buf).
Proof. unfold net_write_or_buffer. respects_steps; auto with net. Qed.

(** [NetResource] is stable. *)
#[global] Instance net_resource_stable :
  @StableResource (NetResource S) Z _ (net_resource debug).
Proof.
  split.
  - intros io r ev r'. simpl. unfold net_handle_io. unfold_prog.
    destruct (net_handle_io_prog debug io r) as [[[?|[]] r1]| |] eqn:E; intros [=]; subst.
    apply handle_io_fd in E. done.
  - intros buf r res r' E. apply write_or_buffer_fd in E. done.
Qed.
End resource.

Section accept.
Context {L C Se Ctx : Type} `{SL : StableListener L C} `{NC : NetConnection C}.
Context (session_accept : C → Ctx → outcome (io_result Se)).

Lemma handle_accept_same :
  respects (same (λ a : NetAccept (L := L) (Context_ := Ctx),
      (listener_fd (listener a), listener_local_addr (listener a))))
    (handle_accept session_accept).
Proof.
  unfold handle_accept. respects_steps; try done.
  eapply respects_zoom; [apply listener_accept_same|done].
Qed.

(** [NetAccept] is stable. *)
#[global] Instance net_accept_stable :
  @StableResource (NetAccept (L := L) (Context_ := Ctx)) (SocketAddr (L := L)) _ (net_accept session_accept).
Proof.
  split.
  - intros [|] a ev a'; simpl; unfold_prog; [|intros [=]; by subst].
    destruct (handle_accept session_accept a) as [[r a1]| |] eqn:E; intros [=]; subst.
    apply handle_accept_same in E. by injection E.
  - intros buf a res a' [=]; by subst.
Qed.
End accept.
