(* ===== verification/ServerSpec.v ===== *)
(** * What the nsh server guarantees

    Theorems on nsh/src/server.rs together with the reactor that runs it: what
    becomes of messages sent too early, of the outbox of a peer that leaves, of
    an error on the listener, and that the actions of a round come to an end. *)

From S2P Require Import Prelude StdLib Timeouts Resource Popol Channel Waker Reactor ReactorToy ReactorSpec Net NetResource NetResourceSpec NetStable Server.

Section server_spec.
Context {S : Type} `{NS : NetSession S} {L C Ctx : Type} `{NL : NetListener L C} `{NC : NetConnection C}.
Context (session_accept : C → Ctx → outcome (io_result S)) (debug : bool).
Context `{!EqDecision (SocketAddr (L := L)), !Countable (SocketAddr (L := L))}.
Abbreviation Accept := (NetAccept (L := L) (Context_ := Ctx)).
Abbreviation Act := (Action Accept (SocketAddr (L := L)) (NetResource S) Z).
Context {D Sk : Type} `{DG : !Delegate D Act (SessionId (S := S)) Sk}.
Context {P : Type} `{PP : Poll P} `{CH : Channel} `{SO : SortUnstable}.

#[local] Instance HH : Handler (Server (S := S) (L := L) (Ctx := Ctx) (D := D) (Sk := Sk)) :=
  server_handler session_accept debug.
Abbreviation Srv := (Server (S := S) (L := L) (Ctx := Ctx) (D := D) (Sk := Sk)).
Implicit Types (rt : Runtime (H := Srv) (P := P)) (h : Srv).

(** The messages that wait for a peer. *)
Definition waiting id h : list (list byte) := default [] (outbox h !! id).

Lemma set_service_same rt : set_service (service rt) rt = rt.
Proof. by destruct rt. Qed.

(** A send to a transport that is not ready ends in the outbox. *)
Lemma early_send fuel time rt id t msg q :
  transports rt !! id = Some t → state t ≠ TransportState.Active →
  action_queue (service rt) = Send id msg :: q →
  handle_actions (Datatypes.S fuel) time rt =
    handle_actions fuel time
      (set_service (set_outbox (<[id := waiting id (service rt) ++ [msg]]> (outbox (service rt)))
                     (set_actions q (service rt))) rt).
Proof.
  intros Ht Hst Hq. simpl. unfold next. rewrite Hq. unfold_prog.
  unfold write_transport. unfold_prog. rewrite Ht. simpl.
  rewrite (write_atomic_not_ready t msg) by (by apply bool_decide_false).
  simpl. rewrite (insert_id (transports rt) id t Ht). unfold waiting. by destruct rt.
Qed.

(** A round that only has messages for a peer that is not ready moves them to
    the peer's outbox. *)
Lemma early_sends_kept fuel time rt id t msgs :
  transports rt !! id = Some t → state t ≠ TransportState.Active →
  action_queue (service rt) = map (Send id) msgs → (length msgs < fuel)%nat →
  ∃ rt', handle_actions fuel time rt = Ret (Ok tt, rt') ∧
    transports rt' = transports rt ∧ action_queue (service rt') = [] ∧
    delegate (service rt') = delegate (service rt) ∧
    waiting id (service rt') = waiting id (service rt) ++ msgs.
Proof.
  revert fuel rt. induction msgs as [|msg msgs IH]; intros fuel rt Ht Hst Hq Hf;
    (destruct fuel as [|fuel]; [simpl in Hf; lia|]).
  - exists rt. simpl in Hq. simpl. unfold next. rewrite Hq. simpl. rewrite set_service_same.
    split_and!; [done..|]. by rewrite app_nil_r.
  - rewrite (early_send _ _ _ _ _ _ _ Ht Hst Hq).
    match goal with |- context [handle_actions fuel time ?rt1] => set (rt1' := rt1) end.
    destruct (IH fuel rt1') as (rt' & -> & Htr & Hq' & Hd & Hw); [done..|simpl in Hf; lia|].
    exists rt'. split_and!; [done..|]. rewrite Hw. unfold waiting at 1. simpl.
    rewrite lookup_insert_eq. simpl. by rewrite <-app_assoc.
Qed.

(** A peer that is established gets what waited for it, behind what the
    delegate says. *)
Lemma established_flushes id key h acts d :
  new_client id key (delegate h) = Ret (acts, d) →
  ∃ h', transport_event id (Established key) h = Ret h' ∧
    action_queue h' = action_queue h ++ acts ++ map (Send id) (waiting id h) ∧
    outbox h' !! id = None.
Proof.
  intros Hn. simpl. rewrite Hn. simpl. eexists. split; [done|]. simpl.
  split; [by rewrite <-app_assoc|apply lookup_delete_eq].
Qed.

(** C20. Messages sent before a peer is established are kept and sent later:
    the round of actions that tries to send them puts them in the peer's
    outbox, in order, and touches no transport; when the peer is established
    they become sends again, in the same order, after the delegate's actions,
    and the outbox is empty. *)
Theorem early_sends_replayed fuel time rt id t msgs :
  transports rt !! id = Some t → state t ≠ TransportState.Active →
  action_queue (service rt) = map (Send id) msgs → (length msgs < fuel)%nat →
  ∃ rt', handle_actions fuel time rt = Ret (Ok tt, rt') ∧
    transports rt' = transports rt ∧ action_queue (service rt') = [] ∧
    ∀ key acts d, new_client id key (delegate (service rt')) = Ret (acts, d) →
      ∃ h, transport_event id (Established key) (service rt') = Ret h ∧
        action_queue h = acts ++ map (Send id) (waiting id (service rt) ++ msgs) ∧
        outbox h !! id = None.
Proof.
  intros Ht Hst Hq Hf.
  destruct (early_sends_kept fuel time rt id t msgs) as (rt' & -> & Htr & Hq' & _ & Hw); [done..|].
  exists rt'. split_and!; [done..|]. intros key acts d Hn.
  destruct (established_flushes id key (service rt') acts d Hn) as (h & ? & Ha & ?).
  exists h. by rewrite Ha, Hq', Hw.
Qed.

(** The outbox outlives the peer: a disconnection does not clear it, so
    whoever is established next under the same descriptor number is sent the
    messages that were meant for the previous peer. *)
Theorem outbox_goes_to_next_peer h id t flags msgs :
  outbox h !! id = Some msgs →
  ∃ h1, server_error (TransportDisconnect id t flags) h = Ret h1 ∧
    ∀ key acts d, new_client id key (delegate h1) = Ret (acts, d) →
      ∃ h2, transport_event id (Established key) h1 = Ret h2 ∧
        action_queue h2 = action_queue h ++ acts ++ map (Send id) msgs.
Proof.
  intros Hm. exists h. split; [done|]. intros key acts d Hn.
  destruct (established_flushes id key h acts d Hn) as (h2 & ? & Ha & _).
  exists h2. rewrite Ha. unfold waiting. by rewrite Hm.
Qed.

(** An error on the listening socket brings the reactor down: the server
    asks for the listener to be unregistered, and panics when it is handed
    over. *)
Theorem listener_error_panics `{PL : !PollLaws P} fuel time rt id l flags :
  wf_runtime (HH := HH) rt → listeners rt !! id = Some l → action_queue (service rt) = [] →
  ∃ rt1, handle_event time (as_raw_fd l) (Err (Os flags)) rt = Ret (Ok (false, []), rt1) ∧
    handle_actions (Datatypes.S fuel) time rt1 = Panic "Disconnected listener socket".
Proof.
  intros Hwf Hid Hq. destruct (wf_listener _ _ Hwf _ _ Hid) as (_ & Hmap & _ & Hne & _).
  eexists. split.
  - unfold handle_event. unfold_prog. rewrite decide_False by done. rewrite Hmap. simpl. done.
  - simpl. unfold next. simpl. rewrite Hq. simpl. unfold_prog. rewrite Hid. simpl. by rewrite Hmap.
Qed.

(** ** The actions of a round come to an end *)

(** How many more iterations an action can lead to. *)
Definition weight (a : Act) : nat :=
  match a with Send _ _ => 2 | _ => 1 end.
Definition weights (q : list Act) : nat := sum_list (map weight q).

Lemma weights_app q1 q2 : weights (q1 ++ q2) = (weights q1 + weights q2)%nat.
Proof. unfold weights. rewrite map_app. induction (map weight q1); simpl; lia. Qed.

Lemma register_returns (tm : TimeoutManager unit) at_ :
  ∃ r, Timeouts.register tm tt at_ = Ret r.
Proof. rewrite register_cases. destruct (existsb _ _); eauto. Qed.

Lemma dur_add_no_hang a b : dur_add a b ≠ Hang.
Proof. unfold dur_add. by case_match. Qed.

Context (no_hang : ∀ buf (s : S), sess_write buf s ≠ Hang).

Lemma write_atomic_no_hang buf (t : NetResource S) :
  write_atomic (H := net_resource debug) buf t ≠ Hang.
Proof.
  destruct (is_ready_to_write (Resource := net_resource debug) t) eqn:E;
    [|by rewrite write_atomic_not_ready].
  rewrite write_atomic_ready by done. simpl. unfold with_err, net_write_or_buffer, on_session.
  unfold_prog.
  destruct (sess_write (write_buffer t) (session t)) as [[[n|e] s]| |] eqn:E1; try done;
    [|by apply no_hang in E1].
  case_decide; [done|].
  destruct (sess_write buf _) as [[[k|e] s2]| |] eqn:E2; try done; [|by apply no_hang in E2].
  by case_decide.
Qed.

(** Handling one action, with the error it may end in. *)
Definition handle_one (a : Act) time : prog (Runtime (H := Srv) (P := P)) Empty_err unit :=
  attempt (handle_action a time) ≫= λ res,
  match res with
  | Ok _ => mret tt
  | Err err => on_service (handle_error err)
  end.

Lemma handle_one_weight a time rt :
  handle_one a time rt ≠ Hang ∧
  ∀ r rt', handle_one a time rt = Ret (r, rt') → r = Ok tt ∧
    (weights (action_queue (service rt')) < weights (action_queue (service rt)) + weight a)%nat.
Proof.
  unfold handle_one, handle_action, on_poller, on_service, write_transport.
  destruct a as [l|t|id|id|id data|d]; cbn zeta; unfold_prog.
  - split; [done|]. intros r rt' [= <- <-]. simpl. split; [done|lia].
  - split; [done|]. intros r rt' [= <- <-]. simpl. split; [done|lia].
  - match goal with |- context [ok_or ?o _] => destruct o as [l|] end; simpl.
    + by match goal with |- context [expect ?o _] => destruct o end.
    + split; [done|]. intros r rt' [= <- <-]. simpl. split; [done|lia].
  - match goal with |- context [ok_or ?o _] => destruct o as [t|] end; simpl.
    + match goal with |- context [expect ?o _] => destruct o end; simpl; [|done].
      split; [done|]. intros r rt' [= <- <-]. simpl. split; [done|lia].
    + split; [done|]. intros r rt' [= <- <-]. simpl. split; [done|lia].
  - match goal with |- context [ok_or ?o _] => destruct o as [t|] end; simpl.
    + match goal with |- context [match write_atomic ?b ?r with _ => _ end] =>
        assert (write_atomic b r ≠ Hang) as Hn by exact (write_atomic_no_hang data t);
        destruct (write_atomic b r) as [[[[]|[|e]] t']| |] end; simpl; try done;
        (split; [done|]); intros r rt' [= <- <-]; simpl; (split; [done|]);
        rewrite ?weights_app; unfold weights; simpl; lia.
    + split; [done|]. intros r rt' [= <- <-]. simpl. split; [done|lia].
  - pose proof (dur_add_no_hang time d) as Hn. destruct (dur_add time d) as [at_| |]; simpl; try done.
    destruct (register_returns (timers rt) at_) as [[b tm] ->]. simpl.
    split; [done|]. intros r rt' [= <- <-]. simpl. split; [done|lia].
Qed.

Lemma handle_actions_step fuel time rt a q :
  action_queue (service rt) = a :: q →
  handle_actions (Datatypes.S fuel) time rt =
    (handle_one a time ≫= λ _, handle_actions fuel time)
      (set_service (set_actions q (service rt)) rt).
Proof.
  intros Hq. simpl. unfold next. rewrite Hq. symmetry. exact (prog_bind_assoc _ _ _ _).
Qed.

(** C29. A round of actions ends: the error of an action may add another, but
    never so that the service would be asked for actions for ever, as long as
    writes on sessions return. *)
Theorem server_actions_end fuel time rt :
  (weights (action_queue (service rt)) < fuel)%nat → handle_actions fuel time rt ≠ Hang.
Proof.
  revert rt. induction fuel as [|fuel IH]; intros rt Hf; [lia|].
  destruct (action_queue (service rt)) as [|a q] eqn:Hq.
  { simpl. unfold next. by rewrite Hq. }
  rewrite (handle_actions_step _ _ _ _ _ Hq). unfold_prog.
  destruct (handle_one_weight a time (set_service (set_actions q (service rt)) rt)) as [Hn Hw].
  destruct (handle_one a time _) as [[res rt3]| |]; [|done..].
  destruct (Hw _ _ eq_refl) as [-> Hlt]. eapply IH, Nat.lt_le_trans; [exact Hlt|].
  change (weights q + weight a ≤ fuel)%nat.
  change (weight a + weights q < Datatypes.S fuel)%nat in Hf. lia.
Qed.
End server_spec.

(** ** Witnesses: an echo service over scripted sockets *)

#[local] Existing Instance PlainSession.session.
#[local] Existing Instance PlainSession.laws.
#[local] Existing Instance ListChannel.lib.
#[local] Existing Instance insertion_sort.
#[local] Existing Instance PopolModel.lib.
#[local] Existing Instance PopolModel.laws.

Module ToyServer.
(** A listener with the connections that wait on it. *)
Record Backlog := { lfd : Z; waiting_ : list Script.t }.

Definition accept_next : prog Backlog io_error Script.t := λ l,
  match waiting_ l with
  | [] => Ret (Err (from_kind WouldBlock), l)
  | c :: cs => Ret (Ok c, {| lfd := lfd l; waiting_ := cs |})
  end.

#[global] Instance backlog : NetListener Backlog Script.t := {|
  SocketAddr := Z;
  listener_fd := lfd;
  listener_accept := accept_next;
  listener_set_nonblocking _ _ := Ok tt;
  listener_local_addr := lfd;
|}.

#[global] Instance backlog_stable : StableListener Backlog Script.t.
Proof. intros l r l'. simpl. unfold accept_next. by destruct (waiting_ l); intros [=]; subst. Qed.

(** The session of a plain socket is the socket. *)
Definition session_accept (c : Script.t) (_ : unit) : outcome (io_result Script.t) := Ret (Ok c).

Abbreviation Act := (Action (NetAccept (L := Backlog) (Context_ := unit))
  (SocketAddr (L := Backlog) (C := Script.t)) (NetResource Script.t) Z).

(** Greets a new peer and echoes what it sends. *)
#[global] Instance echo : Delegate unit Act Z unit := {|
  new_client id _ d := Ret ([Send id [Byte.xff]], d);
  input id data _ d := Ret ([Send id data], d);
|}.

Abbreviation Srv := (Server (S := Script.t) (L := Backlog) (Ctx := unit) (D := unit) (Sk := unit)).
#[global] Instance handler : Handler Srv := server_handler session_accept true.

Definition no_events : Poller :=
  {| poll := {| PopolModel.masks := ∅; PopolModel.current := []; PopolModel.script := [] |};
     events := [] |}.
Definition serving (acts : list Act) : Srv :=
  {| outbox := ∅; action_queue := acts; delegate := tt; ecdh := tt |}.
Definition start (acts : list Act) : Runtime (H := Srv) (P := Poller) :=
  reactor_with (serving acts) no_events 10 Toy.pair.

Definition listener : NetAccept (L := Backlog) (Context_ := unit) :=
  {| session_context := tt; listener := {| lfd := 3; waiting_ := [] |} |}.
Definition handshaking : NetResource Script.t :=
  ToyTransport.transport TransportState.Handshake (ToyTransport.socket [] []) [].

(** A peer on descriptor 5 that is not established, and two messages for it. *)
Definition messages : list (list byte) := [[Byte.x01]; [Byte.x02]].
Definition early : Runtime (H := Srv) (P := Poller) :=
  set_service (serving (map (Send 5%Z) messages))
    (final (start []) (handle_actions 5 0 (start [RegisterTransport handshaking]))).

Definition listening : Runtime (H := Srv) (P := Poller) :=
  final (start []) (handle_action (RegisterListener listener) 0 (start [])).
End ToyServer.
Import ToyServer.

Lemma early_sends_replayed_witness :
  ∃ rt', handle_actions 5 0 early = Ret (Ok tt, rt') ∧
    transports rt' = transports early ∧ action_queue (service rt') = [] ∧
    ∀ key acts d, new_client 5%Z key (delegate (service rt')) = Ret (acts, d) →
      ∃ h, transport_event 5 (Established key) (service rt') = Ret h ∧
        action_queue h = acts ++ map (Send 5%Z) (waiting 5 (service early) ++ messages) ∧
        outbox h !! 5%Z = None.
Proof.
  apply (early_sends_replayed session_accept true 5 0 early 5 handshaking messages);
    [by vm_compute|done|by vm_compute|simpl; lia].
Defined.

(** The peer on descriptor 5 leaves with two messages in its outbox. *)
Definition leaving : Srv := set_outbox {[5%Z := messages]} (serving []).

Lemma outbox_goes_to_next_peer_witness :
  ∃ h1, server_error (TransportDisconnect 5%Z handshaking 16) leaving = Ret h1 ∧
    ∀ key acts d, new_client 5%Z key (delegate h1) = Ret (acts, d) →
      ∃ h2, transport_event 5 (Established key) h1 = Ret h2 ∧
        action_queue h2 = action_queue leaving ++ acts ++ map (Send 5%Z) messages.
Proof. apply (outbox_goes_to_next_peer leaving 5 handshaking 16 messages). by vm_compute. Defined.

Lemma listening_wf : wf_runtime (HH := handler) listening.
Proof.
  destruct (refines_handle_action (HH := handler) (RegisterListener listener) 0 (start [])) as [_ Hl].
  - apply reactor_with_wf. done.
  - split; [done|]. apply (bool_decide_unpack _). by vm_compute.
  - destruct (Hl _ _ eq_refl) as [Hwf _]. exact Hwf.
Qed.

Lemma listener_error_panics_witness :
  ∃ rt1, handle_event 0 3 (Err (Os 8)) listening =
      Ret (Ok (false, []), rt1) ∧
    handle_actions 4 0 rt1 = Panic "Disconnected listener socket".
Proof.
  apply (listener_error_panics session_accept true 3 0 listening 3%Z listener 8);
    [apply listening_wf|reflexivity|reflexivity].
Defined.

Lemma server_actions_end_witness : handle_actions 5 0 early ≠ Hang.
Proof.
  apply (server_actions_end session_accept true).
  - intros buf s. simpl. unfold Script.write. destruct (Script.writes s) as [|[] ?]; discriminate.
  - apply (bool_decide_unpack _). by vm_compute.
Defined.
