(* ===== verification/Client.v ===== *)
(** * The nsh client: nsh/src/client.rs

    [Client] sends one command on a session and reads the output of the remote
    in batches, until the session ends or fails. *)

From Stdlib Require Strings.String.
From S2P Require Import Prelude StdLib Resource Net NetResource Command.

#[local] Open Scope nat_scope.

(** [str::as_bytes] *)
Abbreviation as_bytes := String.list_byte_of_string.

Section client.
Context {Se : Type} `{NS : NetSession Se} `{PL : PeerAddrLib}.
(** Whether [log] evaluates the arguments of [warn!]. *)
Context (warn : bool).

Record Client := { buf : list byte; csession : Se }.
Record Response := { client : Client }.

Definition complete (r : Response) : Client := client r.

(** [connected] is what [Session::connect_blocking] returns. *)
Definition client_connect {PE} (connected : outcome (result PE Se)) : outcome (result PE Client) :=
  session ← connected;
  Ret (session ← session;
       Ok {| buf := replicate READ_BUFFER_SIZE Byte.x00; csession := session |}).

Definition on_csession {A} (m : prog Se io_error A) : prog Client io_error A :=
  zoom csession (λ s c, {| buf := buf c; csession := s |}) m.

(** The calls of [exec]; [exec] gives up the client when one fails. *)
Definition send_command (fuel : nat) (command : Command) : prog Client io_error unit :=
  on_csession (write_all_with sess_write fuel (as_bytes (command_display command))) ≫= λ _,
  on_csession sess_flush.

Definition exec (fuel : nat) (command : Command) (self : Client) : outcome (io_result Response) :=
  '(r, self) ← send_command fuel command self;
  Ret (_ ← r; Ok {| client := self |}).

(** [log::warn!(.., self.session.expect_id())] *)
Definition warn_reset (s : Se) : outcome unit :=
  if warn then _ ← expect_id s; Ret tt else Ret tt.

Definition recv (self : Client) : outcome (option (list byte) * Client) :=
  '(r, s) ← sess_read (length (buf self)) (csession self);
  match r with
  | Ok bs =>
      let self := {| buf := bs ++ drop (length bs) (buf self); csession := s |} in
      if decide (length bs = 0) then _ ← warn_reset s; Ret (None, self)
      else Ret (Some (take (length bs) (buf self)), self)
  | Err err =>
      let self := {| buf := buf self; csession := s |} in
      if decide (kind err = ConnectionReset) then _ ← warn_reset s; Ret (None, self)
      else Ret (None, self)
  end.

(** [Iterator for &mut Response] *)
Definition response_next (r : Response) : outcome (option (list byte) * Response) :=
  '(o, c) ← recv (client r);
  Ret (o, {| client := c |}).

Definition client_disconnect (self : Client) : outcome (io_result unit * Se) :=
  sess_disconnect (csession self).

(** A [for] loop over the response. *)
Fixpoint batches (n : nat) (r : Response) : outcome (list (list byte) * Response) :=
  match n with
  | O => Hang
  | S n =>
      '(o, r) ← response_next r;
      match o with
      | None => Ret ([], r)
      | Some batch => '(rest, r) ← batches n r; Ret (batch :: rest, r)
      end
  end.
End client.
Arguments Client : clear implicits.
Arguments Response : clear implicits.

(** ** What the client relies on *)

(** A session that carries data knows its peer, and interrupts finitely many
    writes. *)
Class ClientSession (Se : Type) `{SessionLaws Se} := {
  sess_patience : Se → nat;
  sess_write_patient buf (s : Se) : sess_ready s →
    wp (sess_write buf) (λ r s', sess_patience s' ≤ sess_patience s ∧
      ∀ e, r = Err e → kind e = Interrupted → sess_patience s' < sess_patience s) s;
  sess_ready_id (s : Se) : sess_ready s → is_Some (session_id s);
}.
#[global] Hint Mode ClientSession ! - - : typeclass_instances.

Section lemmas.
Context {Se : Type} `{CS : ClientSession Se} `{PL : PeerAddrLib}.
Implicit Types (c : Client Se).

(** [write_all] on a session. *)
Lemma sess_write_all_ok fuel data (s : Se) :
  sess_ready s → length data + sess_patience s ≤ fuel →
  wp (write_all_with sess_write fuel data) (λ r s', sess_ready s' ∧ sess_in s' = sess_in s ∧
    match r with
    | Ok _ => sess_out s' = sess_out s ++ data
    | Err e => ∃ n, n < length data ∧ sess_out s' = sess_out s ++ take n data
    end) s.
Proof.
  intros Hr Hf. eapply wp_mono.
  - apply (write_all_with_ok sess_write sess_out sess_patience sess_ready
      (λ s s', sess_in s' = sess_in s)); [congruence| |done..].
    intros data' s' Hr'. pose proof (sess_write_law data' s' Hr') as H1.
    pose proof (sess_write_patient data' s' Hr') as H2. unfold wp in *.
    destruct (sess_write data' s') as [[r s2]| |]; [|done..]. destruct H1 as (? & ? & _ & Hr2), H2.
    split_and!; [done..|]. destruct r; [done|]. split; [done|]. naive_solver.
  - intros r s' (? & ? & _ & ?). by split_and!.
Qed.

(** A client whose buffer has room. *)
Definition client_ok c : Prop := sess_ready (csession c) ∧ length (buf c) = READ_BUFFER_SIZE.

(** The command is sent whole, or a part of it when the session fails. *)
Lemma send_command_spec fuel cmd c :
  client_ok c → length (as_bytes (command_display cmd)) + sess_patience (csession c) ≤ fuel →
  wp (send_command fuel cmd) (λ r c', client_ok c' ∧
    sess_in (csession c') = sess_in (csession c) ∧
    ∃ n, sess_out (csession c') = sess_out (csession c) ++ take n (as_bytes (command_display cmd)) ∧
      (is_ok r → n = length (as_bytes (command_display cmd)))) c.
Proof.
  intros [Hr Hb] Hf. unfold send_command, on_csession. wp_steps. apply wp_zoom.
  eapply wp_mono; [by apply sess_write_all_ok|]. intros [[]|e] s1 (Hr1 & Hi1 & Ho1).
  - apply wp_zoom. simpl. eapply wp_mono; [by apply sess_flush_law|].
    intros r s2 (? & Hi2 & Ho2 & _). simpl. split_and!; [done|congruence|].
    eexists. split; [by rewrite Ho2, Ho1, firstn_all|done].
  - destruct Ho1 as (n & _ & Ho1). split_and!; [done|done|]. exists n. by split.
Qed.

(** A batch is what the session read; the output ends with a read that gave
    nothing or failed. *)
Lemma recv_spec warn c :
  client_ok c →
  ∃ o c', recv warn c = Ret (o, c') ∧ client_ok c' ∧
    sess_out (csession c') = sess_out (csession c) ∧
    match o with
    | Some bs => 0 < length bs ≤ READ_BUFFER_SIZE ∧
        sess_in (csession c) = bs ++ sess_in (csession c')
    | None => sess_in (csession c') = sess_in (csession c) ∧
        ∃ r, sess_read READ_BUFFER_SIZE (csession c) = Ret (r, csession c') ∧
          (∀ b bs, r ≠ Ok (b :: bs))
    end.
Proof.
  intros [Hr Hb]. unfold recv. rewrite Hb.
  pose proof (sess_read_law READ_BUFFER_SIZE _ Hr) as Hl. unfold wp in Hl.
  destruct (sess_read READ_BUFFER_SIZE (csession c)) as [[r s]| |] eqn:E; [|done..].
  destruct Hl as (Hrs & Ho & _ & Hres).
  assert (warn_reset warn s = Ret tt) as Hw.
  { unfold warn_reset, expect_id. destruct warn; [|done].
    by destruct (sess_ready_id s Hrs) as [i ->]. }
  unfold_prog. destruct r as [[|b bs]|err].
  - simpl. rewrite Hw. destruct Hres as [_ Hi]. do 2 eexists. split; [done|].
    split_and!; [by split|done|by rewrite Hi|]. by exists (Ok []).
  - destruct Hres as [Hlen Hi].
    exists (Some (b :: bs)), {| buf := (b :: bs) ++ drop (length (b :: bs)) (buf c); csession := s |}.
    split; [by rewrite decide_False, take_app_length|]. simpl in Hlen.
    split_and!; [split; [done|]|done|simpl; lia|simpl; lia|done]. simpl. rewrite length_app, length_drop. lia.
  - rewrite Hw. exists None, {| buf := buf c; csession := s |}. split; [by case_decide|].
    split_and!; [by split|done..|]. by exists (Err err).
Qed.

Lemma batches_spec warn n (r : Response Se) :
  client_ok (client r) → length (sess_in (csession (client r))) < n →
  ∃ bs r', batches warn n r = Ret (bs, r') ∧ client_ok (client r') ∧
    sess_out (csession (client r')) = sess_out (csession (client r)) ∧
    Forall (λ b, 0 < length b ≤ READ_BUFFER_SIZE) bs ∧
    sess_in (csession (client r)) = concat bs ++ sess_in (csession (client r')) ∧
    ∃ s res, sess_read READ_BUFFER_SIZE s = Ret (res, csession (client r')) ∧
      (∀ b bs, res ≠ Ok (b :: bs)).
Proof.
  revert r. induction n as [|n IH]; intros r Hc Hn; [lia|].
  destruct (recv_spec warn _ Hc) as (o & c' & E & Hc' & Ho & Hres). simpl. unfold response_next.
  rewrite E. unfold_prog. destruct o as [b|].
  - destruct Hres as [Hlen Hi]. destruct (IH {| client := c' |}) as (bs & r' & -> & ? & ? & ? & Hi' & ?);
      [done|rewrite Hi, length_app in Hn; simpl; lia|]. simpl in *.
    exists (b :: bs), r'. split_and!; [done|done|congruence|by constructor| |done].
    by rewrite Hi, Hi', app_assoc.
  - destruct Hres as [Hi (res & Er & Hres)]. exists [], {| client := c' |}. simpl.
    split_and!; [done..|by constructor|done|]. by exists (csession (client r)), res.
Qed.

(** C26. A command and its output: the client sends exactly the text of the
    command; the batches it then hands out are, in order, what it reads from
    the session, none of them empty or larger than the buffer; the output ends,
    after the first read that gives nothing or fails, and no batch is lost. If
    sending fails, a part of the command was sent. *)
Theorem client_runs_command warn fuel n cmd (s : Se) :
  let text := as_bytes (command_display cmd) in
  sess_ready s → length text + sess_patience s ≤ fuel → length (sess_in s) < n →
  ∃ c, client_connect (PE := io_error) (Ret (Ok s)) = Ret (Ok c) ∧
  ∃ r c1, send_command fuel cmd c = Ret (r, c1) ∧
    sess_in (csession c1) = sess_in s ∧
    match r with
    | Err e => exec fuel cmd c = Ret (Err e) ∧
        ∃ k, sess_out (csession c1) = sess_out s ++ take k text
    | Ok _ => exec fuel cmd c = Ret (Ok {| client := c1 |}) ∧
        sess_out (csession c1) = sess_out s ++ text ∧
        ∃ bs r', batches warn n {| client := c1 |} = Ret (bs, r') ∧
          Forall (λ b, 0 < length b ≤ READ_BUFFER_SIZE) bs ∧
          sess_in s = concat bs ++ sess_in (csession (complete r')) ∧
          sess_out (csession (complete r')) = sess_out s ++ text ∧
          ∃ s' res, sess_read READ_BUFFER_SIZE s' = Ret (res, csession (complete r')) ∧
            (∀ b bs, res ≠ Ok (b :: bs))
    end.
Proof.
  intros text Hr Hf Hn. eexists. split; [done|].
  set (c := {| buf := replicate READ_BUFFER_SIZE Byte.x00; csession := s |}).
  assert (client_ok c) as Hc by (split; [done|apply length_replicate]).
  pose proof (send_command_spec fuel cmd c Hc Hf) as Hs. unfold wp in Hs. unfold exec.
  destruct (send_command fuel cmd c) as [[r c1]| |] eqn:E; [|done..].
  destruct Hs as (Hc1 & Hi & k & Ho & Hk). simpl in Hi, Ho. exists r, c1.
  split_and!; [done..|]. destruct r as [[]|e]; unfold_prog; (split; [done|]); [|by exists k].
  rewrite Hk, firstn_all in Ho by done. split; [done|].
  destruct (batches_spec warn n {| client := c1 |}) as (bs & r' & ? & ? & Ho' & ? & Hi' & ?);
    [done|simpl; congruence|]. simpl in *.
  exists bs, r'. split_and!; [done|done|by rewrite <-Hi|by unfold text; rewrite <-Ho|done].
Qed.
End lemmas.

(** A plain socket as the session. *)
#[export] Instance plain_client_session {C} `{CL : ConnectionLaws C} :
  @ClientSession C PlainSession.session PlainSession.laws.
Proof.
  refine {| sess_patience := patience : C → nat |}; simpl.
  - intros buf c _. eapply wp_mono; [apply conn_write_law|]. intros r c' (_ & _ & Hp & Hr).
    split; [done|]. intros e -> ?. by apply Hr.
  - intros c _. by exists (conn_fd c).
Defined.

Section witness.
#[local] Existing Instance PlainSession.session.
#[local] Existing Instance PlainSession.laws.
#[local] Existing Instance ToyAddr.lib.

Definition hi : Script.t :=
  {| Script.fd := 3; Script.peer := 9;
     Script.reads := [Script.Arrive [Byte.x68; Byte.x69]; Script.Arrive [Byte.x21]; Script.Eof];
     Script.writes := [Script.Room 2]; Script.out := [] |}.

Lemma client_runs_command_witness :
  ∃ c c1 bs r', client_connect (PE := io_error) (Ret (Ok hi)) = Ret (Ok c) ∧
    send_command 10 ECHO c = Ret (Ok tt, c1) ∧
    batches true 10 {| client := c1 |} = Ret (bs, r') ∧
    [Byte.x68; Byte.x69; Byte.x21] = concat bs ++ sess_in (csession (complete r')).
Proof.
  destruct (client_runs_command true 10 10 ECHO hi) as (c & Hc & r & c1 & E & _ & Hr);
    [done|simpl; lia..|].
  destruct r as [[]|e].
  - destruct Hr as (_ & _ & bs & r' & Hbs & _ & Hi & _). exists c, c1, bs, r'. by split_and!.
  - exfalso. injection Hc as <-. cbv -[READ_BUFFER_SIZE replicate] in E. done.
Defined.
End witness.
