(* ===== verification/Nsh.v ===== *)
(** * The nsh program: nsh/src/main.rs

    From the parsed arguments to the configuration, with the identity file,
    and what the program does in each mode. Parsing the command line is the
    library clap, the file system and the keys are classes. *)

From S2P Require Import Prelude StdLib Resource Net NetResource Auth Tunnel Command Client.

#[local] Open Scope Z_scope.

(** ** What the program uses *)

(** Addresses of the cyphernet crate. [PartialAddr p] is an address whose port
    defaults to [p]; [PeerArg] is a peer's address on the command line. *)
Class ArgAddrs `{PeerAddrLib} := {
  NetAddrI : Type;
  PartialAddr : Z → Type;
  partial_localhost : ∀ p, PartialAddr p;
  into_net : ∀ p, PartialAddr p → NetAddrI;
  PeerArg : Type;
  peer_into : PeerArg → RemoteAddr;
  (** The loopback address with a port. *)
  loopback : Z → NetAddrI;
}.
(** An address without a port has the default one. *)
Class ArgAddrsLaws `{ArgAddrs} : Prop :=
  into_net_localhost p : into_net p (partial_localhost p) = loopback p.

(** Keys of the cyphernet crate, and of ed25519_compact in a PEM file. *)
Class PrivateKeys `{Ed25519} := {
  PrivateKey : Type;
  to_pk : PrivateKey → PublicKey;
  sign : PrivateKey → list byte → list byte;
  PemError : Type;
  from_pem : string → result PemError PrivateKey;
}.
(** A signature is 64 bytes long and valid. *)
Class PrivateKeysLaws `{PrivateKeys} : Prop := {
  sign_length k m : length (sign k m) = 64%nat;
  sign_valid k m : pk_verify (to_pk k) m (sign k m) = true;
}.

(** Files, and the random generator. *)
Class Host := {
  Os : Type;
  fs_read : string → Os → io_result string;
  create_dir_all : string → prog Os io_error unit;
  fs_write : string → string → prog Os io_error unit;
  (** [KeyPair::generate().sk.to_pem()] *)
  generate_pem : Os → string * Os;
  (** [shellexpand::tilde], and [PathBuf::pop] *)
  tilde : string → string;
  path_pop : string → string;
}.
(** A file that was written is read back; the other calls keep files. *)
Class HostLaws `{Host, PrivateKeys} : Prop := {
  fs_write_law path text os :
    wp (fs_write path text) (λ r os', is_ok r → fs_read path os' = Ok text) os;
  create_dir_law dir os : wp (create_dir_all dir) (λ _ _, True) os;
  generate_law os : ∃ k, from_pem (generate_pem os).1 = Ok k;
}.

(** [Stdout] *)
Class Stdout (Out : Type) := {
  out_write_all : list byte → prog Out io_error unit;
  out_flush : prog Out io_error unit;
}.
#[global] Hint Mode Stdout ! : typeclass_instances.
(** What was printed: the whole text, or a part of it on an error. *)
Class StdoutLaws (Out : Type) `{Stdout Out} := {
  printed : Out → list byte;
  out_write_all_law bs o :
    wp (out_write_all bs) (λ r o', ∃ n, printed o' = printed o ++ take n bs ∧
      (is_ok r → n = length bs)) o;
  out_flush_law o : wp out_flush (λ _ o', printed o' = printed o) o;
}.

(** What a thread of the reactor ends with: [reactor::Error], and a panic. *)
Class Threads := { ReactorError : Type; ThreadPanic : Type }.

Section nsh.
Context `{PL : PeerAddrLib} `{AD : !ArgAddrs} `{ED : Ed25519} `{PK : !PrivateKeys} `{HS : Host}.
Context `{TH : Threads}.

Definition DEFAULT_PORT : Z := 3232.
Definition DEFAULT_SOCKS5_PORT : Z := 9050.
Definition DEFAULT_DIR : string := "~/.nsh".
Definition DEFAULT_ID_FILE : string := "ssi_ed25519".

Record Args := {
  verbose : Z;
  listen : option (option (PartialAddr DEFAULT_PORT));
  id : option string;
  proxy : option (PartialAddr DEFAULT_SOCKS5_PORT);
  tunnel : option (option (PartialAddr DEFAULT_SOCKS5_PORT));
  remote_host : option PeerArg;
  command : option Command;
}.

Inductive Mode :=
| Listen (local : NetAddrI)
| TunnelTo (local : NetAddrI) (remote : RemoteAddr)
| Connect (remote_host : RemoteAddr) (remote_command : Command).

(** [NodeKeys] of src/noise.rs *)
Record NodeKeys := { pk : PublicKey; ecdh : PrivateKey }.
Definition node_keys_from (k : PrivateKey) : NodeKeys := {| pk := to_pk k; ecdh := k |}.

Record Config := { node_keys : NodeKeys; mode : Mode; proxy_addr : NetAddrI }.

Inductive AppError :=
| AppIo (e : io_error)
| Curve25519 (e : PemError)
| AppReactor (e : ReactorError)
(** [Socks5Error::Io] *)
| AppSocks5 (e : io_error)
| AppThread (e : ThreadPanic)
| AppTunnel (remote : RemoteAddr) (e : io_error).

(** ** The configuration *)

Definition mode_from (args : Args) : outcome Mode :=
  match listen args with
  | Some listen =>
      Ret (Listen (into_net DEFAULT_PORT (default (partial_localhost DEFAULT_PORT) listen)))
  | None =>
      match tunnel args with
      | Some tunnel =>
          let local := into_net DEFAULT_SOCKS5_PORT
                         (default (partial_localhost DEFAULT_SOCKS5_PORT) tunnel) in
          remote ← expect (remote_host args) "clap library broken";
          Ret (TunnelTo local (peer_into remote))
      | None =>
          remote ← expect (remote_host args) "clap library broken";
          Ret (Connect (peer_into remote) (default ECHO (command args)))
      end
  end.

(** The file of the identity. *)
Definition id_path (args : Args) : string :=
  tilde (default (DEFAULT_DIR +:+ "/" +:+ DEFAULT_ID_FILE)%string (id args)).

(** The text of the identity file; a new identity when there is no file. *)
Definition read_identity (path : string) : prog Os io_error string := λ os,
  match fs_read path os with
  | Ok pem => Ret (Ok pem, os)
  | Err err =>
      if decide (kind err = NotFound) then
        (let '(pem, os) := generate_pem os in
         (create_dir_all (path_pop path) ≫= λ _,
          fs_write path pem ≫= λ _, mret pem) os)
      else Ret (Err err, os)
  end.

Definition try_from (args : Args) : prog Os AppError Config :=
  of_outcome (mode_from args) ≫= λ command,
  with_err AppIo (read_identity (id_path args)) ≫= λ id_pem,
  of_result (map_err Curve25519 (from_pem id_pem)) ≫= λ id,
  mret {| node_keys := node_keys_from id; mode := command;
          proxy_addr := into_net DEFAULT_SOCKS5_PORT
            (default (partial_localhost DEFAULT_SOCKS5_PORT) (proxy args)) |}.

(** The authenticator that [run] makes. *)
Definition run_auth (config : Config) : Authenticator :=
  let sig := sign (ecdh (node_keys config)) (pk_as_slice (pk (node_keys config))) in
  Auth.new (pk (node_keys config)) sig.

(** ** The modes of [run] *)

Context {Se Out : Type} `{NS : NetSession Se} `{SO : Stdout Out} (warn : bool).

(** [for batch in &mut printout] *)
Fixpoint print_batches (n : nat) (r : Response Se) : prog Out io_error (Response Se) := λ o,
  match n with
  | O => Hang
  | S n =>
      match response_next warn r with
      | Panic msg => Panic msg
      | Hang => Hang
      | Ret (None, r) => Ret (Ok r, o)
      | Ret (Some batch, r) => (out_write_all batch ≫= λ _, print_batches n r) o
      end
  end.

(** [Mode::Connect]; [connected] is what connecting the session returns, whose
    error is converted. *)
Definition run_connect (fuel n : nat) (remote_command : Command)
    (connected : outcome (result AppError Se)) : prog Out AppError unit :=
  of_outcome (client_connect connected) ≫= λ client,
  of_result client ≫= λ client,
  of_outcome (exec fuel remote_command client) ≫= λ printout,
  of_result (map_err AppIo printout) ≫= λ printout,
  with_err AppIo (print_batches n printout) ≫= λ printout,
  with_err AppIo out_flush ≫= λ _,
  of_outcome (client_disconnect (complete printout)) ≫= λ '(r, _),
  of_result (map_err AppIo r).

(** [Mode::Tunnel]: [connected] is what the session of the transport returns,
    [bound] the listener of [Tunnel::with], and [accepted] the connection that
    the tunnel accepts. *)
Context {C P : Type} `{NC : !NetConnection C} `{PP : !Poll P} (debug : bool).

Definition tunnel_session (fuel : nat) (remote : RemoteAddr) (bound : io_result unit)
    (accepted : io_result C) (poller : P) (session : Se) : outcome (result AppError unit) :=
  match bound with
  | Err err =>
      '(r, _) ← sess_disconnect session;
      Ret (_ ← map_err AppIo r; Err (AppTunnel remote err))
  | Ok _ =>
      '(r, t) ← tunnel_once fuel accepted session poller (from_secs 10);
      match r with
      | Err e => Ret (Err (AppIo e))
      | Ok _ =>
          '(r, _) ← sess_disconnect (match t with Some t => tsession t | None => session end);
          Ret (map_err AppIo r)
      end
  end.

Definition run_tunnel (fuel : nat) (remote : RemoteAddr) (connected : outcome (result AppError Se))
    (bound : io_result unit) (accepted : io_result C) (poller : P) : outcome (result AppError unit) :=
  connected ← connected;
  match connected with
  | Err e => Ret (Err e)
  | Ok session =>
      transport ← resource_connect_blocking (Ok session);
      match transport with
      | Err e => Ret (Err (AppSocks5 e))
      | Ok transport =>
          session ← into_session debug transport;
          tunnel_session fuel remote bound accepted poller session
      end
  end.
End nsh.
Arguments Args {_ _}.
Arguments Config {_ _ _ _}.
