(* ===== verification/NshSpec.v ===== *)
(** * What the nsh program does

    Theorems on nsh/src/main.rs: the mode that the arguments select, the
    identity, and what a command prints. *)

From S2P Require Import Prelude StdLib Resource Net NetResource Auth Tunnel Command Client Nsh.

#[local] Open Scope Z_scope.

(** ** Arguments *)

Section args.
Context `{PL : PeerAddrLib} `{AD : !ArgAddrs} `{AL : !ArgAddrsLaws}.

(** The constraints that the attributes of [Args] state, and clap checks. *)
Definition clap_valid (args : Args) : Prop :=
  (is_Some (listen args) →
     proxy args = None ∧ tunnel args = None ∧ remote_host args = None ∧ command args = None) ∧
  (listen args = None → is_Some (remote_host args)) ∧
  (is_Some (tunnel args) → command args = None) ∧
  (listen args = None → tunnel args = None → is_Some (command args)).

(** The arguments select the mode their documentation says, and clap's
    constraints are enough for the code not to panic: [--listen] listens,
    [--tunnel] tunnels to the remote host, and otherwise the command that was
    given runs on the remote host. An address that is left out is the loopback
    address, with port 3232 to listen on; a tunnel gets port 9050, which is not
    the documented 3232. *)
Theorem mode_of_args args :
  clap_valid args →
  ∃ m, mode_from args = Ret m ∧
  match m with
  | Listen local => ∃ a, listen args = Some a ∧
      local = match a with Some a => into_net DEFAULT_PORT a | None => loopback 3232 end
  | TunnelTo local remote => ∃ a p, listen args = None ∧ tunnel args = Some a ∧
      remote_host args = Some p ∧ remote = peer_into p ∧
      local = match a with Some a => into_net DEFAULT_SOCKS5_PORT a | None => loopback 9050 end
  | Connect remote cmd => ∃ p, listen args = None ∧ tunnel args = None ∧
      remote_host args = Some p ∧ remote = peer_into p ∧ command args = Some cmd
  end.
Proof.
  intros (_ & Hr & _ & Hc). unfold mode_from.
  destruct (listen args) as [a|] eqn:El.
  - eexists. split; [done|]. exists a. split; [done|]. destruct a; [done|]. apply into_net_localhost.
  - destruct (Hr eq_refl) as [p Hp]. rewrite Hp. destruct (tunnel args) as [a|] eqn:Et.
    + eexists. split; [done|]. exists a, p. split_and!; [done..|]. destruct a; [done|].
      apply into_net_localhost.
    + destruct (Hc eq_refl eq_refl) as [cmd Hcmd]. eexists. split; [done|]. exists p.
      rewrite Hcmd. by split_and!.
Qed.
End args.

(** ** The identity *)

Section identity.
Context `{PL : PeerAddrLib} `{AD : !ArgAddrs} `{ED : Ed25519} `{PK : !PrivateKeys} `{HS : Host}.
Context `{TH : Threads} `{KL : !PrivateKeysLaws} `{HL : !HostLaws}.

(** The text is that of the file, afterwards at the latest. *)
Lemma read_identity_spec path os :
  wp (read_identity path) (λ r os', ∀ pem, r = Ok pem → fs_read path os' = Ok pem ∧
    (fs_read path os = Ok pem ∧ os' = os ∨ ∃ k, from_pem pem = Ok k)) os.
Proof.
  unfold wp, read_identity. destruct (fs_read path os) as [pem|err] eqn:E.
  { intros ? [= <-]. split; [done|]. by left. }
  case_decide; [|done]. destruct (generate_pem os) as [pem os1] eqn:Eg.
  match goal with |- match ?m os1 with _ => _ end => change (wp m (λ r os', ∀ p, r = Ok p →
    fs_read path os' = Ok p ∧ (Err err = Ok p ∧ os' = os ∨ ∃ k, from_pem p = Ok k)) os1) end.
  wp_steps. eapply wp_mono; [apply create_dir_law|]. intros [[]|e] os2 _; [|done]. wp_steps.
  eapply wp_mono; [apply fs_write_law|]. intros [[]|e] os3 Hw; [|done]. wp_steps.
  intros ? [= <-]. split; [by apply Hw|]. right. pose proof (generate_law os) as Hg. by rewrite Eg in Hg.
Qed.

(** C28. The identity stays: a run that gets a configuration, whether it found
    the identity file or created it, leaves a file from which every later run
    takes the same keys; only the first run changes files. The credentials made
    from the keys are valid, so that a peer's check accepts them. *)
Theorem identity_persists args args' os config os1 m' :
  try_from args os = Ret (Ok config, os1) →
  id args' = id args → mode_from args' = Ret m' →
  (∃ config', try_from args' os1 = Ret (Ok config', os1) ∧
     node_keys config' = node_keys config ∧ mode config' = m') ∧
  let a := run_auth config in
  length (signature a) = 64%nat ∧
  pk_verify (pubkey a) (pk_as_slice (pubkey a)) (signature a) = true.
Proof.
  intros E Hid Hm. unfold try_from in E. unfold_prog.
  destruct (mode_from args) as [m| |]; [|done..].
  pose proof (read_identity_spec (id_path args) os) as Hr. unfold wp in Hr.
  destruct (read_identity (id_path args) os) as [[[pem|err] os2]| |]; simplify_eq/=.
  destruct (Hr pem eq_refl) as [Hf _]. destruct (from_pem pem) as [k|] eqn:Ek; simplify_eq/=.
  split.
  - unfold try_from. unfold_prog. rewrite Hm.
    assert (id_path args' = id_path args) as -> by (unfold id_path; by rewrite Hid).
    unfold read_identity. rewrite Hf. simpl. rewrite Ek. simpl. eexists. by split_and!.
  - split; [apply sign_length|apply sign_valid].
Qed.
End identity.

(** ** Running a command *)

Section connect.
Context `{PL : PeerAddrLib} `{AD : !ArgAddrs} `{ED : Ed25519} `{PK : !PrivateKeys}.
Context `{TH : Threads} {Se Out : Type} `{CS : ClientSession Se} `{SL : StdoutLaws Out} (warn : bool).

(** A read that ends the output. *)
Definition ends_output (s s' : Se) : Prop :=
  ∃ r, sess_read READ_BUFFER_SIZE s = Ret (r, s') ∧ ∀ b bs, r ≠ Ok (b :: bs).

Lemma print_batches_spec n (r : Response Se) (o : Out) :
  client_ok (client r) → (length (sess_in (csession (client r))) < n)%nat →
  wp (print_batches warn n r) (λ res o', ∃ got rest,
    sess_in (csession (client r)) = got ++ rest ∧ printed o' = printed o ++ got ∧
    match res with
    | Ok r' => client_ok (client r') ∧ rest = sess_in (csession (client r')) ∧
        ∃ s, ends_output s (csession (client r'))
    | Err _ => True
    end) o.
Proof.
  revert r o. induction n as [|n IH]; intros r o Hc Hn; [lia|]. unfold wp. simpl.
  destruct (recv_spec warn _ Hc) as (b & c' & E & Hc' & _ & Hres).
  unfold response_next. rewrite E. unfold_prog. destruct b as [b|].
  - destruct Hres as [Hlen Hi]. rewrite Hi in Hn |- *. rewrite length_app in Hn.
    match goal with |- match match ?m o with _ => _ end with _ => _ end =>
      pose proof (out_write_all_law b o) as Hw; unfold wp in Hw end.
    destruct (out_write_all b o) as [[[[]|e] o1]| |]; [..|done|done]; destruct Hw as (k & Hp & Hk).
    + rewrite Hk, firstn_all in Hp by done.
      specialize (IH {| client := c' |} o1 Hc' ltac:(simpl; lia)). unfold wp in IH. simpl in IH.
      destruct (print_batches warn n _ o1) as [[res o2]| |]; [|done..].
      destruct IH as (got & rest & Hg & Ho & Hres). exists (b ++ got), rest.
      rewrite Hg, Ho, Hp, !app_assoc. by split_and!.
    + exists (take k b), (drop k b ++ sess_in (csession c')). by rewrite app_assoc, take_drop.
  - destruct Hres as [Hi (r' & Er & Hr')]. exists [], (sess_in (csession c')).
    rewrite app_nil_r. split_and!; [by rewrite Hi|done|done|done|].
    exists (csession (client r)), r'. by split.
Qed.

(** Running a command on a remote: what is printed is what the session
    delivers, in order and without gaps. The run is a success only after a read
    that gave nothing or failed, and then everything the session had delivered
    has been printed; a failed read is not reported. *)
Theorem run_connect_prints fuel n cmd (s : Se) (o : Out) :
  sess_ready s →
  (length (as_bytes (command_display cmd)) + sess_patience s ≤ fuel)%nat →
  (length (sess_in s) < n)%nat →
  (∀ s : Se, sess_ready s → wp sess_disconnect (λ _ _, True) s) →
  ∃ r o', run_connect (Out := Out) warn fuel n cmd (Ret (Ok s)) o = Ret (r, o') ∧
  ∃ got rest, sess_in s = got ++ rest ∧ printed o' = printed o ++ got ∧
    (is_ok r → ∃ s1 s2, ends_output s1 s2 ∧ rest = sess_in s2).
Proof.
  intros Hr Hf Hn Hdis.
  set (c := {| buf := replicate READ_BUFFER_SIZE Byte.x00; csession := s |}).
  assert (client_ok c) as Hc by (split; [done|apply length_replicate]).
  pose proof (send_command_spec fuel cmd c Hc Hf) as Hs. unfold wp in Hs.
  unfold run_connect, client_connect, exec. unfold_prog. fold c.
  destruct (send_command fuel cmd c) as [[[[]|e] c1]| |]; [..|done|done];
    destruct Hs as (Hc1 & Hi & _); simpl in Hi |- *.
  2:{ do 2 eexists. split; [done|]. exists [], (sess_in s). by rewrite app_nil_r. }
  pose proof (print_batches_spec n {| client := c1 |} o Hc1) as Hp. simpl in Hp. rewrite Hi in Hp.
  specialize (Hp Hn). unfold wp in Hp.
  destruct (print_batches warn n _ o) as [[[r'|e] o1]| |]; [..|done|done];
    destruct Hp as (got & rest & Hg & Ho & Hend); simpl.
  2:{ do 2 eexists. split; [done|]. exists got, rest. by split_and!. }
  destruct Hend as (Hc2 & -> & s1 & Hends).
  pose proof (out_flush_law o1) as Hfl. unfold wp in Hfl.
  destruct (out_flush o1) as [[[[]|e] o2]| |]; [..|done|done]; simpl.
  2:{ do 2 eexists. split; [done|]. eexists got, _. split; [done|]. by rewrite Hfl. }
  pose proof (Hdis _ (proj1 Hc2)) as Hd. unfold wp in Hd. unfold client_disconnect, complete.
  destruct (sess_disconnect (csession (client r'))) as [[r s3]| |]; [|done..]. simpl.
  do 2 eexists. split; [done|]. eexists got, _. split; [done|]. rewrite Hfl. split; [done|].
  intros _. by exists s1, (csession (client r')).
Qed.
End connect.

(** ** A concrete host *)

Module ToyNsh.
#[export] Existing Instance ToyAddr.lib.

(** Addresses are ports; a missing port is the default one. *)
#[export] Instance addrs : ArgAddrs := {
  NetAddrI := Z;
  PartialAddr _ := option Z;
  partial_localhost _ := None;
  into_net p a := default p a;
  PeerArg := string;
  peer_into a := a;
  loopback p := p;
}.
#[export] Instance addrs_laws : ArgAddrsLaws.
Proof. done. Qed.

(** Signatures are valid when they have their length. *)
#[export] Instance ed25519 : Ed25519 := {
  PublicKey := bool;
  pk_as_slice b := ToyKeys.encode (if (b : bool) then 32 else 0);
  pk_try_from _ := None;
  pk_verify _ _ sig := bool_decide (length sig = 64%nat);
}.

#[export] Instance keys : PrivateKeys := {
  PrivateKey := bool;
  to_pk k := k;
  sign _ _ := replicate 64 Byte.x00;
  PemError := unit;
  from_pem text := if decide (text = "pem") then Ok true else Err tt;
}.
#[export] Instance keys_laws : PrivateKeysLaws.
Proof. by split. Qed.

#[export] Instance threads : Threads := { ReactorError := unit; ThreadPanic := unit }.

(** Files by their path. *)
#[export] Instance host : Host := {
  Os := gmap string string;
  fs_read p os := ok_or (os !! p) (from_kind NotFound);
  create_dir_all _ := mret tt;
  fs_write p text := modify (<[p := text]>);
  generate_pem os := ("pem", os);
  tilde p := p;
  path_pop p := p;
}.
#[export] Instance host_laws : HostLaws.
Proof.
  split; simpl.
  - intros p text os. apply wp_modify. intros _. by rewrite lookup_insert_eq.
  - intros. by apply wp_ret.
  - intros os. by exists true.
Qed.

#[export] Instance stdout : Stdout (list byte) := {
  out_write_all bs := modify (λ o, o ++ bs);
  out_flush := mret tt;
}.
#[export] Instance stdout_laws : StdoutLaws (list byte).
Proof.
  refine {| printed o := o : list byte |}; simpl.
  - intros bs o. apply wp_modify. exists (length bs). by rewrite firstn_all.
  - intros o. by apply wp_ret.
Defined.

Definition tunnel_args : Args :=
  {| verbose := 0; listen := None; Nsh.id := None; proxy := None; tunnel := Some None;
     remote_host := Some "peer"; command := None |}.
Definition echo_args : Args :=
  {| verbose := 0; listen := None; Nsh.id := None; proxy := None; tunnel := None;
     remote_host := Some "peer"; command := Some ECHO |}.
End ToyNsh.

Section witness.
Import ToyNsh.
#[local] Existing Instance PlainSession.session.
#[local] Existing Instance PlainSession.laws.

Lemma mode_of_args_witness :
  clap_valid tunnel_args ∧ mode_from tunnel_args = Ret (TunnelTo 9050 "peer").
Proof.
  assert (clap_valid tunnel_args) as Hv.
  { split_and!; simpl; [by intros [? ?]|by eexists|done|done]. }
  split; [done|]. destruct (mode_of_args tunnel_args Hv) as (m & E & Hm).
  rewrite E. destruct m as [l|l r|r c]; [by destruct Hm as (? & ? & _)| |by destruct Hm as (? & _ & ? & _)].
  destruct Hm as (a & p & _ & [= <-] & [= <-] & -> & ->). reflexivity.
Defined.

(** The first run makes the identity; the second, with other arguments, has the
    same one. *)
Lemma identity_persists_witness :
  ∃ config os1 config', try_from echo_args ∅ = Ret (Ok config, os1) ∧
    try_from tunnel_args os1 = Ret (Ok config', os1) ∧ node_keys config' = node_keys config.
Proof.
  destruct (try_from echo_args ∅) as [[[config|e] os1]| |] eqn:E; [|vm_compute in E; done..].
  destruct (identity_persists echo_args tunnel_args ∅ config os1 _ E eq_refl eq_refl)
    as [(config' & E' & Hk & _) _].
  by exists config, os1, config'.
Defined.

Lemma run_connect_prints_witness :
  ∃ r (o : list byte), run_connect true 10 10 ECHO (Ret (Ok hi)) [] = Ret (r, o) ∧
    ∃ rest, [Byte.x68; Byte.x69; Byte.x21] = o ++ rest.
Proof.
  destruct (run_connect_prints true 10 10 ECHO hi ([] : list byte)) as (r & o & E & got & rest & Hi & Ho & _);
    [done|simpl; lia..|by intros s _; apply wp_ret|].
  exists r, o. split; [exact E|]. exists rest. simpl in Ho. by rewrite Ho.
Defined.
End witness.
