(* ===== verification/Shell.v ===== *)
(** * The shell environment of nsh: nsh/src/shell.rs

    Applying a log level to the process, and the data directory with its
    patterns. Parsing and printing levels is in Command.v. *)

From Stdlib Require Import Strings.String Ascii.
From S2P Require Import Prelude StdLib Resource Command Nsh.

#[local] Open Scope string_scope.

(** ** [str::replace] *)

(** The start of a character in UTF-8. *)
Definition char_start (c : ascii) : bool :=
  negb (N.leb 128 (N_of_ascii c) && N.leb (N_of_ascii c) 191).

(** Matches are found from the left and do not overlap; [skip] bytes of a match
    are still to be dropped. An empty pattern matches before every character
    and at the end. *)
Fixpoint replace_from (from to : string) (skip : nat) (s : string) : string :=
  match s with
  | EmptyString => if decide (from = "") then to else ""
  | String c rest =>
      match skip with
      | S skip => replace_from from to skip rest
      | O =>
          if decide (from = "") then
            (if char_start c then to else "") +:+ String c (replace_from from to 0 rest)
          else if String.prefix from s then
            to +:+ replace_from from to (String.length from - 1) rest
          else String c (replace_from from to 0 rest)
      end
  end.

Definition replace (s from to : string) : string := replace_from from to 0 s.

(** [for (from, to) in pat { s = s.replace(from, to) }] *)
Definition replace_all (pat : list (string * string)) (s : string) : string :=
  fold_left (λ s '(from, to), replace s from to) pat s.

(** ** The process *)

(** [env::var("RUST_LOG")] *)
Inductive Var := NotPresent | NotUnicode | Value (s : string).
Definition var_is_err (v : Var) : bool := match v with Value _ => false | _ => true end.

(** The logger's maximal level, its variable, and whether it was initialised. *)
Record Process := { max_level : option LogLevel.t; rust_log : Var; initialised : bool }.

Definition set_max_level (l : LogLevel.t) (p : Process) : Process :=
  {| max_level := Some l; rust_log := rust_log p; initialised := initialised p |}.
Definition set_var (s : string) (p : Process) : Process :=
  {| max_level := max_level p; rust_log := Value s; initialised := initialised p |}.

(** [env_logger::init] panics when a logger was set before. *)
Definition logger_init (p : Process) : outcome Process :=
  if initialised p
  then Panic "env_logger::init should not be called after logger initialized"
  else Ret {| max_level := max_level p; rust_log := rust_log p; initialised := true |}.

(** [LogLevel::apply] *)
Definition apply (self : LogLevel.t) (p : Process) : outcome Process :=
  let p := set_max_level LogLevel.Trace p in
  let p := if var_is_err (rust_log p) then set_var (LogLevel.display self) p else p in
  logger_init p.

(** ** The data directory *)

Section shell.
Context `{HS : Host}.

(** The new path of the data directory, the process and the file system. *)
Definition shell_setup (verbosity : Z) (data_dir : string) (pat : list (string * string))
    (p : Process) (os : Os) : outcome (string * Process * Os) :=
  p ← apply (LogLevel.from_verbosity_flag_count verbosity) p;
  let data_dir := tilde (replace_all pat data_dir) in
  '(r, os) ← create_dir_all data_dir os;
  match r with
  | Ok _ => Ret (data_dir, p, os)
  | Err _ => Panic ("Unable to access data directory '" +:+ data_dir +:+ "'")
  end.

Definition shell_expand_dir (path data_dir : string) (pat : list (string * string)) : string :=
  replace_all pat (tilde (replace path "{data_dir}" data_dir)).
End shell.

(** ** Lemmas *)

Lemma prefix_app (a b : string) : String.prefix a (a +:+ b) = true.
Proof. induction a as [|c a IH]; simpl; [by destruct b|]. by destruct (ascii_dec c c). Qed.

Lemma prefix_inv a s : String.prefix a s = true → ∃ b, s = a +:+ b.
Proof.
  revert s. induction a as [|c a IH]; intros s Hp; [by exists s|].
  destruct s as [|d s]; [done|]. simpl in Hp. destruct (ascii_dec c d) as [->|]; [|done].
  destruct (IH s Hp) as [b ->]. by exists b.
Qed.

Lemma replace_skip from to a b :
  replace_from from to (String.length a) (a +:+ b) = replace_from from to 0 b.
Proof. by induction a. Qed.

(** A match at the front is replaced, and the search goes on behind it. *)
Lemma replace_match from to rest :
  from ≠ "" → replace (from +:+ rest) from to = to +:+ replace rest from to.
Proof.
  intros Hf. unfold replace. destruct from as [|c from]; [done|].
  change (String c from +:+ rest) with (String c (from +:+ rest)).
  cbn [replace_from]. rewrite decide_False by done.
  change (String c (from +:+ rest)) with (String c from +:+ rest). rewrite prefix_app.
  cbn [String.length]. rewrite Nat.sub_succ, Nat.sub_0_r. by rewrite replace_skip.
Qed.

(** Text in which the pattern does not occur stays. *)
Lemma replace_none from to s :
  from ≠ "" → (∀ a b, s ≠ a +:+ from +:+ b) → replace s from to = s.
Proof.
  intros Hf. unfold replace. induction s as [|c s IH]; intros Hn; cbn [replace_from].
  { by rewrite decide_False. }
  rewrite decide_False by done. destruct (String.prefix from (String c s)) eqn:E.
  - apply prefix_inv in E as [b E]. by apply (Hn "" b) in E.
  - f_equal. apply IH. intros a b ->. by apply (Hn (String c a) b).
Qed.

(** Applying a level: the logger reads the level from its variable, unless one
    was set. *)
Lemma apply_spec l p :
  initialised p = false →
  ∃ p', apply l p = Ret p' ∧ initialised p' = true ∧ max_level p' = Some LogLevel.Trace ∧
    rust_log p' = match rust_log p with Value s => Value s | _ => Value (LogLevel.display l) end.
Proof.
  intros Hi. unfold apply, logger_init.
  destruct p as [m v i]. simpl in *. subst i. destruct v; simpl; eauto 10.
Qed.

Example expand_dir :
  replace_all [("{id}", "alice")] (replace "{data_dir}/{id}/keys" "{data_dir}" "/var/nsh") =
    "/var/nsh/alice/keys".
Proof. by vm_compute. Qed.

Example replace_overlapping : replace "aaaa" "aaa" "b" = "ba".
Proof. by vm_compute. Qed.

Example replace_empty : replace "ab" "" "-" = "-a-b-".
Proof. by vm_compute. Qed.
