(* ===== verification/Processor.v ===== *)
(** * The command processor of nsh: nsh/src/processor.rs

    [Processor] is the delegate of the nsh server: it runs the commands peers
    send, or forwards them to another host. The [sh] process, the proxy and
    the text of errors are parameters. *)

From Stdlib Require Import Strings.String.
From S2P Require Import Prelude StdLib Resource Reactor Net NetResource Command Server.

(** ** [String::from_utf8]

    The well-formed sequences of the Unicode standard, table 3-7: no overlong
    forms, no surrogates, nothing above U+10FFFF. *)

Definition in_range (lo hi : N) (b : byte) : bool :=
  (N.leb lo (Byte.to_N b) && N.leb (Byte.to_N b) hi)%bool.
Definition continuation : byte → bool := in_range 128 191.

Fixpoint utf8_valid (bs : list byte) : bool :=
  match bs with
  | [] => true
  | a :: r1 =>
      if in_range 0 127 a then utf8_valid r1
      else match r1 with
      | [] => false
      | b :: r2 =>
          if in_range 194 223 a then continuation b && utf8_valid r2
          else match r2 with
          | [] => false
          | c :: r3 =>
              if in_range 224 239 a then
                in_range (if in_range 224 224 a then 160 else 128)
                         (if in_range 237 237 a then 159 else 191) b &&
                continuation c && utf8_valid r3
              else match r3 with
              | [] => false
              | d :: r4 =>
                  in_range 240 244 a &&
                  in_range (if in_range 240 240 a then 144 else 128)
                           (if in_range 244 244 a then 143 else 191) b &&
                  continuation c && continuation d && utf8_valid r4
              end
          end
      end
  end%bool.

Definition from_utf8 (data : list byte) : option string :=
  if utf8_valid data then Some (string_of_list_byte data) else None.

(** [.as_bytes().to_vec()] *)
Abbreviation as_bytes := list_byte_of_string.

(** ** The processor *)

(** [Proxy]: its error type, which is made from I/O errors and is printed. *)
Class Proxy (Pr : Type) := {
  ProxyError : Type;
  proxy_error_from : io_error → ProxyError;
  proxy_error_display : ProxyError → string;
}.
#[global] Hint Mode Proxy ! : typeclass_instances.

Section processor.
Context {S : Type} `{NS : NetSession S} {L C Ctx : Type} `{NL : NetListener L C}.
Context {Sk Auth Pr : Type} `{PA : PeerAddrLib} `{PX : Proxy Pr}.
(** [S::connect_nonblocking(hop, &(ecdh, auth), &proxy)] *)
Context (session_connect : RemoteAddr → Sk * Auth → Pr → outcome (result (ProxyError (Pr := Pr)) S)).
(** What running [sh -c echo] gives, and the text of an I/O error. *)
Context (sh_echo : io_result (list byte)) (io_error_display : io_error → string).

Abbreviation Act := (Action (NetAccept (L := L) (Context_ := Ctx)) (SocketAddr (L := L) (C := C))
  (NetResource S) Z).

Record Processor := { proxy : Pr; auth : Auth }.

Definition new (auth : Auth) (proxy : Pr) : Processor := {| proxy := proxy; auth := auth |}.

(** [Transport::connect_nonblocking]; errors of the resource are converted. *)
Definition transport_connect (hop : RemoteAddr) (ecdh : Sk) (self : Processor) :
    outcome (result (ProxyError (Pr := Pr)) (NetResource S)) :=
  connected ← session_connect hop (ecdh, auth self) (proxy self);
  match connected with
  | Err e => Ret (Err e)
  | Ok s => r ← with_state s false TransportState.Init; Ret (map_err proxy_error_from r)
  end.

Definition processor_input (fd : Z) (data : list byte) (ecdh : Sk) (self : Processor) :
    outcome (list Act * Processor) :=
  match from_utf8 data with
  | None => Ret ([Send fd (as_bytes "NON_UTF8_COMMAND"); UnregisterTransport fd], self)
  | Some cmd =>
      match command_from_str cmd with
      | Err _ => Ret ([Send fd (as_bytes "INVALID_COMMAND"); UnregisterTransport fd], self)
      | Ok (Execute Echo) =>
          match sh_echo with
          | Ok stdout => Ret ([Send fd stdout], self)
          | Err err => Ret ([Send fd (as_bytes (io_error_display err)); UnregisterTransport fd], self)
          end
      | Ok (Forward hop command) =>
          connected ← transport_connect hop ecdh self;
          match connected with
          | Ok transport =>
              let id := sess_fd (session transport) in
              Ret ([RegisterTransport transport; Send id (as_bytes (local_display command))], self)
          | Err err =>
              Ret ([Send fd (as_bytes ("Failure: " +:+ proxy_error_display err));
                    UnregisterTransport fd], self)
          end
      end
  end.

#[export] Instance processor_delegate :
    Delegate Processor Act (SessionId (S := S)) Sk := {|
  new_client _ _ self := Ret ([], self);
  input := processor_input;
|}.
End processor.
Arguments Processor : clear implicits.
