(* ===== verification/ProcessorSpec.v ===== *)
(** * What the nsh server does with commands

    Theorems on nsh/src/processor.rs, alone and as the delegate of the server
    that runs in the reactor. *)

From Stdlib Require Import Strings.String.
From S2P Require Import Prelude StdLib Timeouts Resource Popol Channel Waker Reactor ReactorToy ReactorSpec Net NetResource NetResourceSpec Command Server ServerSpec Processor.

(** Bytes of the text of a command are UTF-8 when those of the address are. *)
Lemma command_text_utf8 `{PA : PeerAddrLib} hop :
  utf8_valid (as_bytes (addr_display hop)) = true →
  from_utf8 (as_bytes (command_display (Forward hop Echo))) =
    Some (command_display (Forward hop Echo)).
Proof.
  intros Hu. unfold from_utf8.
  change (utf8_valid (as_bytes (command_display (Forward hop Echo))))
    with (utf8_valid (as_bytes (addr_display hop))).
  by rewrite Hu, string_of_list_byte_of_string.
Qed.

Lemma from_utf8_inv data s : from_utf8 data = Some s → data = as_bytes s.
Proof. unfold from_utf8. case_match; intros [= <-]. by rewrite list_byte_of_string_of_list_byte. Qed.

Section processor_spec.
Context {S : Type} `{NS : NetSession S} {L C Ctx : Type} `{NL : NetListener L C}.
Context {Sk Auth Pr : Type} `{PA : PeerAddrLib} `{PX : Proxy Pr}.
Context (session_connect : RemoteAddr → Sk * Auth → Pr → outcome (result (ProxyError (Pr := Pr)) S)).
Context (sh_echo : io_result (list byte)) (io_error_display : io_error → string).
Implicit Types (self : Processor Auth Pr).

Abbreviation the_input := (processor_input (L := L) (Ctx := Ctx) session_connect sh_echo io_error_display).

(** A transport the processor makes is on its way to the hop. *)
Lemma transport_connect_inv hop ecdh self t :
  transport_connect session_connect hop ecdh self = Ret (Ok t) →
  state t = TransportState.Init ∧ inbound t = false ∧ write_buffer t = [] ∧
  ∃ s, session_connect hop (ecdh, auth self) (proxy self) = Ret (Ok s).
Proof.
  unfold transport_connect, with_state. intros Ht.
  destruct (session_connect _ _ _) as [[s|e]| |]; simpl in Ht; try done.
  destruct ((sess_set_read_timeout _ ≫= _) s) as [[[[]|e] s1]| |]; simpl in Ht; try done.
  simplify_eq/=. eauto.
Qed.


(** A forwarded command. *)
Lemma forward_input `{!PeerAddrLaws} fd ecdh self hop t :
  utf8_valid (as_bytes (addr_display hop)) = true →
  transport_connect session_connect hop ecdh self = Ret (Ok t) →
  the_input fd (as_bytes (command_display (Forward hop Echo))) ecdh self =
    Ret ([RegisterTransport t; Send (sess_fd (session t)) (as_bytes "echo")], self).
Proof.
  intros Hu Ht. unfold processor_input.
  by rewrite command_text_utf8, command_from_str_display, Ht.
Qed.

(** ** In the server *)

Context `{NC : NetConnection C} (session_accept : C → Ctx → outcome (io_result S)) (debug : bool).
Context `{!EqDecision (SocketAddr (L := L)), !Countable (SocketAddr (L := L))}.
Context {P : Type} `{PP : Poll P} `{CH : Channel} `{SO : SortUnstable}.

#[local] Instance DG : Delegate (Processor Auth Pr) _ (SessionId (S := S)) Sk :=
  processor_delegate (L := L) (Ctx := Ctx) session_connect sh_echo io_error_display.
Abbreviation Act := (Action (NetAccept (L := L) (Context_ := Ctx)) (SocketAddr (L := L) (C := C))
  (NetResource S) Z).
Abbreviation Srv := (Server (S := S) (L := L) (Ctx := Ctx) (D := Processor Auth Pr) (Sk := Sk)).
#[local] Instance SH : Handler Srv := server_handler session_accept debug.
Implicit Types (rt : Runtime (H := Srv) (P := P)) (h : Srv).

(** C21. A forwarded command reaches its hop: when a peer sends the text of
    one and the connection can be started, the server registers the new
    transport, keeps the command until the hop is established, and then sends
    it, behind whatever else waited for that descriptor. *)
Theorem forward_reaches_hop `{!PeerAddrLaws} fuel time rt fd hop t :
  utf8_valid (as_bytes (addr_display hop)) = true →
  action_queue (service rt) = [] → (3 ≤ fuel)%nat →
  transport_connect session_connect hop (ecdh (service rt)) (delegate (service rt)) = Ret (Ok t) →
  let id := sess_fd (session t) in
  ∃ h rt', transport_event fd (Data (as_bytes (command_display (Forward hop Echo)))) (service rt)
      = Ret h ∧
    handle_actions fuel time (set_service h rt) = Ret (Ok tt, rt') ∧
    transports rt' = <[id := t]> (transports rt) ∧
    ∀ key, ∃ h', transport_event id (Established key) (service rt') = Ret h' ∧
      action_queue h' = map (Send id) (waiting id (service rt) ++ [as_bytes "echo"]).
Proof.
  intros Hu Hq Hf Ht id. destruct fuel as [|fuel]; [lia|].
  pose proof (transport_connect_inv _ _ _ _ Ht) as (Hst & _).
  set (acts := [RegisterTransport t; Send id (as_bytes "echo")] : list Act).
  set (h := set_actions acts (service rt)).
  exists h.
  set (rt1 := final rt (handle_one session_accept debug (RegisterTransport t : Act) time
    (set_service (set_actions [Send id (as_bytes "echo")] h) (set_service h rt)))).
  destruct (early_sends_kept session_accept debug fuel time rt1 id t [as_bytes "echo"])
    as (rt' & Hr & Htr & Hq' & Hd & Hw).
  { apply lookup_insert_eq. }
  { by rewrite Hst. }
  { done. }
  { simpl. lia. }
  exists rt'. split_and!.
  - unfold transport_event.
    match goal with |- context [input ?f ?d ?k ?s] =>
      replace (input f d k s) with (Ret (acts, s)) by (symmetry; exact (forward_input fd _ _ hop t Hu Ht)) end.
    simpl. unfold h, extend, set_actions, set_delegate. simpl. by rewrite Hq.
  - exact Hr.
  - exact Htr.
  - intros key. destruct (established_flushes id key (service rt') [] (delegate (service rt')))
      as (h' & ? & Ha & _); [done|]. exists h'. split; [done|]. by rewrite Ha, Hq', Hw.
Qed.
End processor_spec.

(** ** Witnesses *)

#[local] Existing Instance PlainSession.session.
#[local] Existing Instance ListChannel.lib.
#[local] Existing Instance insertion_sort.
#[local] Existing Instance PopolModel.lib.

Module ToyProcessor.
#[export] Existing Instance ToyAddr.lib.
#[export] Existing Instance ToyAddr.laws.

#[export] Instance direct : Proxy unit := {|
  ProxyError := io_error;
  proxy_error_from e := e;
  proxy_error_display _ := "error";
|}.

(** Every hop answers on descriptor 6. *)
Definition socket : Script.t :=
  {| Script.fd := 6; Script.peer := 9; Script.reads := []; Script.writes := []; Script.out := [] |}.
Definition connect (hop : RemoteAddr) (ctx : unit * unit) (proxy : unit) :
    outcome (result (ProxyError (Pr := unit)) Script.t) := Ret (Ok socket).
Definition output : io_result (list byte) := Ok [Byte.x0a].
Definition show (e : io_error) : string := "error".

Definition self : Processor unit unit := {| proxy := tt; auth := tt |}.
Definition hop : RemoteAddr := ToyAddr.far.

Abbreviation run := (processor_input (L := ToyServer.Backlog) (Ctx := unit) connect output show).

Definition transport : NetResource Script.t :=
  match transport_connect connect hop tt self with
  | Ret (Ok t) => t
  | _ => ToyServer.handshaking
  end.

Abbreviation Srv := (Server (S := Script.t) (L := ToyServer.Backlog) (Ctx := unit)
  (D := Processor unit unit) (Sk := unit)).
#[export] Instance delegate : Delegate (Processor unit unit) _ (SessionId (S := Script.t)) unit :=
  processor_delegate (L := ToyServer.Backlog) (Ctx := unit) connect output show.
#[export] Instance handler : Handler Srv := server_handler ToyServer.session_accept true.

Definition serving : Srv :=
  {| outbox := ∅; action_queue := []; Server.delegate := self; ecdh := tt |}.
Definition idle : Runtime (H := Srv) (P := Poller) :=
  reactor_with serving ToyServer.no_events 10 Toy.pair.
End ToyProcessor.
Import ToyProcessor.


Lemma forward_reaches_hop_witness :
  ∃ h rt', transport_event 5 (Data (as_bytes (command_display (Forward hop Echo)))) serving = Ret h ∧
    handle_actions 4 0 (set_service h idle) = Ret (Ok tt, rt') ∧
    transports rt' = <[sess_fd (session transport) := transport]> (transports idle) ∧
    ∀ key, ∃ h', transport_event (sess_fd (session transport)) (Established key) (service rt') = Ret h' ∧
      action_queue h' = map (Send (sess_fd (session transport)))
        (waiting (sess_fd (session transport)) serving ++ [as_bytes "echo"]).
Proof.
  apply (forward_reaches_hop connect output show ToyServer.session_accept true 4 0 idle 5 hop transport);
    [reflexivity|reflexivity|lia|reflexivity].
Defined.
