(* ===== verification/ServerRound.v ===== *)
(** * A command, from the socket and back

    One iteration of the reactor's loop that runs the nsh server: the poll
    reports a peer's descriptor, the transport reads a command, the processor
    answers it, and the answer is written to the peer. The theorems on the
    reactor, on transports, on the server and on the processor meet here. *)

From S2P Require Import Prelude StdLib Timeouts Resource Popol Channel Waker Reactor ReactorToy ReactorSpec ReactorEvents ReactorRun ReactorOnce Net NetResource NetResourceSpec NetStable Command Server ServerSpec Processor ProcessorSpec.

(** ** One event of one transport *)

Section reactor.
Context {H P : Type} `{HH : Handler H} `{PL : PollLaws P} `{CH : Channel} `{SO : SortUnstable}.
Implicit Types (rt : Runtime (H := H) (P := P)).

(** Taking the only event of a poller, and then finding no other. *)
Lemma poll_next_two (p : P) e :
  pending p = [e] →
  ∃ p1 p2, poll_next p = (Some e, p1) ∧ poll_next p1 = (None, p2) ∧
    watched p2 = watched p ∧ pending p2 = [].
Proof.
  intros Hp. pose proof (poll_next_law p) as Hn. pose proof (poll_next_watched p) as Hw.
  rewrite Hp in Hn. destruct (poll_next p) as [o p1]. destruct Hn as [Hn Hp1]. simpl in *. subst o.
  pose proof (poll_next_law p1) as Hn2. pose proof (poll_next_watched p1) as Hw2.
  rewrite Hp1 in Hn2. destruct (poll_next p1) as [o p2] eqn:E2. destruct Hn2 as [Hn2 Hp2].
  simpl in *. subst o. exists p1, p2. split_and!; [done..|congruence|done].
Qed.

(** The only event is that a transport can be read. *)
Lemma one_read_event fuel time rt id t ev t' h :
  wf_runtime rt → transports rt !! id = Some t →
  pending (poller rt) = [(as_raw_fd t, Ok IoType.read_only)] →
  handle_io Read t = Ret (ev, t') →
  match ev with
  | Some e => handle_transport_event id e time (service rt) = Ret h
  | None => h = service rt
  end →
  ∃ p, handle_events (S (S fuel)) time rt =
      Ret (Ok false, set_service h (set_transports (<[id := t']> (transports rt)) (set_poller p rt))) ∧
    watched p = watched (poller rt) ∧ pending p = [].
Proof.
  intros Hwf Hid Hp Hio Hev.
  destruct (wf_transport _ _ Hwf _ _ Hid) as (_ & Hmap & Hlm & _ & Hne & _).
  destruct (poll_next_two _ _ Hp) as (p1 & p2 & E1 & E2 & Hw2 & Hp2).
  exists p2. split; [|done].
  unfold handle_events. unfold_prog. rewrite E1. unfold_prog. unfold handle_event. unfold_prog.
  rewrite decide_False by done. rewrite Hlm, Hmap. unfold_prog. rewrite Hid. simpl. rewrite Hio.
  unfold_prog. destruct ev as [e|]; unfold on_service; simpl.
  - rewrite Hev. simpl. by rewrite E2.
  - subst h. simpl. by rewrite E2.
Qed.

(** The only event is that a listener can be read. *)
Lemma one_accept_event fuel time rt id l ev l' h :
  wf_runtime rt → listeners rt !! id = Some l →
  pending (poller rt) = [(as_raw_fd l, Ok IoType.read_only)] →
  handle_io Read l = Ret (ev, l') →
  match ev with
  | Some e => handle_listener_event id e time (service rt) = Ret h
  | None => h = service rt
  end →
  ∃ p, handle_events (S (S fuel)) time rt =
      Ret (Ok false, set_service h (set_listeners (<[id := l']> (listeners rt)) (set_poller p rt))) ∧
    watched p = watched (poller rt) ∧ pending p = [].
Proof.
  intros Hwf Hid Hp Hio Hev.
  destruct (wf_listener _ _ Hwf _ _ Hid) as (_ & Hmap & _ & Hne & _).
  destruct (poll_next_two _ _ Hp) as (p1 & p2 & E1 & E2 & Hw2 & Hp2).
  exists p2. split; [|done].
  unfold handle_events. unfold_prog. rewrite E1. unfold_prog. unfold handle_event. unfold_prog.
  rewrite decide_False by done. rewrite Hmap. unfold_prog. rewrite Hid. simpl. rewrite Hio.
  unfold_prog. destruct ev as [e|]; unfold on_service; simpl.
  - rewrite Hev. simpl. by rewrite E2.
  - subst h. simpl. by rewrite E2.
Qed.

(** The rest of an iteration that is not woken. *)
Lemma one_round fuel now rt0 rt1 rt2 rt3 :
  on_service (tick now) rt0 = Ret (Ok tt : result Empty_err unit, rt1) →
  handle_events fuel now rt1 = Ret (Ok false, rt2) →
  handle_actions fuel now rt2 = Ret (Ok tt, rt3) →
  (on_service (tick now) ≫= λ _,
   handle_events fuel now ≫= λ awoken,
   (if awoken : bool
    then commands_loop fuel ≫= λ _, control_loop fuel now
    else mret Continue) ≫= λ fl,
   match fl with
   | Return => mret Return
   | Continue => handle_actions fuel now ≫= λ _, mret Continue
   end) rt0 = Ret (Ok Continue, rt3).
Proof. intros E1 E2 E3. unfold mbind, prog_bind. rewrite E1, E2. simpl. by rewrite E3. Qed.

(** Unregistering, for a service that keeps nothing of what is handed over. *)
Lemma unregister_cases `{!StableResource Listener ListenerId Reactor.ListenerEvent}
    `{!StableResource Transport TransportId TransportEvent} id time rt :
  wf_runtime rt → (∀ t h, handover_transport t h = Ret h) →
  ∃ r rt', handle_action (UnregisterTransport id) time rt = Ret (r, rt') ∧ wf_runtime rt' ∧
    service rt' = service rt ∧ listeners rt' = listeners rt ∧
    transports rt' = delete id (transports rt) ∧ (r = Ok tt ∨ r = Err (TransportUnknown id)).
Proof.
  intros Hwf Hh. destruct (refines_unregister_transport id time rt Hwf) as [Hs Hr].
  unfold spec_action, t_call in Hs.
  destruct (handle_action (UnregisterTransport id) time rt) as [[r rt']| |].
  2,3: exfalso; revert Hs; case_match; rewrite ?Hh; done.
  destruct (Hr _ _ eq_refl) as (Hwf' & _). exists r, rt'. simpl in Hs.
  destruct (transports rt !! id) as [t|] eqn:Hid; rewrite ?Hh in Hs; injection Hs as -> Hsv Hls Htr _;
    split_and!; auto. rewrite Htr. symmetry. by apply delete_id.
Qed.
End reactor.

(** ** The actions of the server on a transport *)

Section server.
Context {S : Type} `{SL : SessionLaws S} `{!StableSession S}.
Context {L C Ctx : Type} `{NL : NetListener L C} `{NC : NetConnection C} `{!StableListener L C}.
Context (session_accept : C → Ctx → outcome (io_result S)) (debug : bool).
Context `{!EqDecision (SocketAddr (L := L)), !Countable (SocketAddr (L := L))}.
Abbreviation Act := (Action (NetAccept (L := L) (Context_ := Ctx)) (SocketAddr (L := L) (C := C))
  (NetResource S) Z).
Context {D Sk : Type} `{DG : !Delegate D Act (SessionId (S := S)) Sk}.
Context {P : Type} `{PL : PollLaws P} `{CH : Channel} `{SO : SortUnstable}.

#[local] Instance HS : Handler (Server (S := S) (L := L) (Ctx := Ctx) (D := D) (Sk := Sk)) :=
  server_handler session_accept debug.
#[local] Instance SLi : StableResource Listener ListenerId Reactor.ListenerEvent := net_accept_stable session_accept.
#[local] Instance STr : StableResource Transport TransportId TransportEvent := net_resource_stable debug.
Abbreviation Srv := (Server (S := S) (L := L) (Ctx := Ctx) (D := D) (Sk := Sk)).
Implicit Types (rt : Runtime (H := Srv) (P := P)) (h : Srv) (t : NetResource S).

Abbreviation one := (handle_one session_accept debug).

(** A send to an active transport; when it fails the server wants the
    transport to go. *)
Lemma one_send time rt id data t r t' :
  transports rt !! id = Some t → state t = TransportState.Active →
  net_write_or_buffer data t = Ret (r, t') →
  one (Send id data) time rt = Ret (Ok tt, set_service
    (match r with Ok _ => service rt | Err _ => push_back (UnregisterTransport id) (service rt) end)
    (set_transports (<[id := t']> (transports rt)) rt)).
Proof.
  intros Hid Hst Hw. unfold handle_one, handle_action, write_transport. unfold_prog.
  match goal with |- context [ok_or ?o _] => replace o with (Some t) by (symmetry; exact Hid) end.
  simpl. rewrite (write_atomic_ready t data) by (by apply bool_decide_true). unfold with_err. simpl.
  rewrite Hw. destruct r as [[]|e]; simpl; by destruct rt.
Qed.

(** Unregistering a transport, and one that is gone already. *)
Lemma one_unregister time rt id :
  wf_runtime rt →
  ∃ rt', one (UnregisterTransport id) time rt = Ret (Ok tt, rt') ∧ wf_runtime rt' ∧
    service rt' = service rt ∧ listeners rt' = listeners rt ∧
    transports rt' = delete id (transports rt).
Proof.
  intros Hwf.
  destruct (unregister_cases (HH := HS) id time rt Hwf) as (r & rt' & E & Hwf' & Hsv & Hls & Htr & Hr);
    [done|].
  unfold handle_one, attempt, mbind, prog_bind.
  match goal with |- context [?x] => lazymatch x with handle_action _ _ _ =>
    replace x with (Ret (r, rt')) by (symmetry; exact E) end end.
  destruct Hr as [->| ->]; [by exists rt'|].
  eexists. split; [reflexivity|]. simpl. split_and!; [by apply wf_set_service|done..].
Qed.

(** A service with nothing to do. *)
Lemma no_actions fuel time rt :
  action_queue (service rt) = [] → handle_actions (Datatypes.S fuel) time rt = Ret (Ok tt, rt).
Proof. intros Hq. simpl. unfold next. rewrite Hq. by destruct rt. Qed.

(** A queue that hangs up on a peer, as often as it likes. *)
Lemma hang_up fuel time rt id n :
  wf_runtime rt → action_queue (service rt) = replicate n (UnregisterTransport id) →
  (n < fuel)%nat →
  ∃ rt', handle_actions fuel time rt = Ret (Ok tt, rt') ∧ wf_runtime rt' ∧
    service rt' = set_actions [] (service rt) ∧ listeners rt' = listeners rt ∧
    transports rt' = if decide (n = 0) then transports rt else delete id (transports rt).
Proof.
  revert fuel rt. induction n as [|n IH]; intros [|fuel] rt Hwf Hq Hf; try lia; simpl in Hq.
  - exists rt. rewrite no_actions by done. split_and!; [done|done| |done..].
    by destruct (service rt); simpl in *; subst.
  - rewrite (handle_actions_step _ _ _ _ _ _ _ Hq). unfold_prog.
    match goal with |- context [handle_one _ _ _ _ ?r] => set (rt1 := r) end.
    destruct (one_unregister time rt1 id) as (rt2 & E & Hwf2 & Hs2 & Hl2 & Ht2);
      [by apply wf_set_service|].
    rewrite E. lazy beta iota. destruct (IH fuel rt2) as (rt3 & E3 & Hwf3 & Hs3 & Hl3 & Ht3);
      [done|by rewrite Hs2|lia|].
    exists rt3. split_and!; [exact E3|done|by rewrite Hs3, Hs2|by rewrite Hl3, Hl2|].
    rewrite Ht3, Ht2. case_decide; [done|]. apply delete_delete_eq.
Qed.
(** What an active transport makes of a read. *)
Lemma active_read t data s' :
  idle t → state t = TransportState.Active → data ≠ [] →
  sess_read (length (read_buffer t)) (session t) = Ret (Ok data, s') →
  ∃ t1, net_handle_io debug Read t = Ret (Some (Data data), t1) ∧ session t1 = s' ∧
    state t1 = TransportState.Active ∧ taken t1 = taken t ∧ idle t1.
Proof.
  intros [Hr Hl] Hst Hd Hread.
  pose proof (sess_read_law (length (read_buffer t)) _ Hr) as Hlaw. unfold wp in Hlaw.
  rewrite Hread in Hlaw. destruct Hlaw as (Hr' & Ho & _ & Hlen & _).
  unfold net_handle_io, net_handle_io_prog, prepare_io, debug_assert. unfold_prog.
  rewrite Hst. rewrite (bool_decide_false (_ = TransportState.Terminated)) by done.
  rewrite andb_false_r. simpl. rewrite Hst. unfold handle_readable, read_into_buffer, on_session.
  unfold_prog. rewrite Hl, decide_False by lia. simpl. rewrite Nat.sub_0_r, Hread. simpl.
  destruct (length data) as [|k] eqn:E; [by destruct data|]. unfold drain_read_buffer. simpl.
  rewrite <-E. rewrite decide_False by (rewrite length_app; lia).
  rewrite take_app_length, bool_decide_false by (simpl; by rewrite Hst). simpl.
  unfold finish_io. unfold_prog. rewrite Hst. simpl. rewrite andb_false_r. simpl.
  eexists. split; [reflexivity|]. unfold taken, idle. simpl. by rewrite Ho.
Qed.
(** ** A connection *)

(** What becomes of an accepted connection: a transport for its session, when
    both can be made. *)
Definition admitted (l : NetAccept (L := L) (Context_ := Ctx)) :
    outcome (option (NetResource S) * NetAccept (L := L) (Context_ := Ctx)) :=
  '(r, l) ← handle_accept session_accept l;
  match r with
  | Err _ => Ret (None, l)
  | Ok session =>
      created ← NetResource.new session;
      Ret (match created with Ok t => Some t | Err _ => None end, l)
  end.

Lemma new_state session t :
  NetResource.new session = Ret (Ok t) →
  state t = TransportState.Handshake ∧ inbound t = true ∧ write_buffer t = [] ∧ read_buffer_len t = 0.
Proof.
  unfold NetResource.new, with_state. unfold_prog.
  destruct (sess_set_read_timeout _ session) as [[[[]|e] s1]| |]; [|done..].
  destruct (sess_set_write_timeout _ s1) as [[[[]|e] s2]| |]; [|done..]. by intros [= <-].
Qed.

(** The event that reports it, and what the server makes of the event. *)
Lemma admitted_event id l made l' now h :
  admitted l = Ret (made, l') →
  (∀ t, made = Some t → state t = TransportState.Handshake ∧ inbound t = true ∧
    write_buffer t = [] ∧ read_buffer_len t = 0) ∧
  ∃ ev, handle_io (Resource := net_accept session_accept) Read l = Ret (Some ev, l') ∧
    handle_listener_event (H := Srv) id ev now h =
      Ret (extend (match made with Some t => [RegisterTransport t] | None => [] end) h).
Proof.
  unfold admitted. simpl. intros Ha.
  assert (extend [] h = h) as Hn.
  { unfold extend. rewrite app_nil_r. by destruct h. }
  destruct (handle_accept session_accept l) as [[[s|e] l1]| |]; simpl in Ha; [|simplify_eq|done..].
  - destruct (NetResource.new s) as [[t|e]| |] eqn:En; simpl in Ha; simplify_eq;
      (split; [|eexists; split; [reflexivity|simpl; by rewrite En, ?Hn]]); [|done].
    intros t' [= <-]. by eapply new_state.
  - split; [done|]. eexists. split; [reflexivity|]. simpl. by rewrite Hn.
Qed.

(** The actions that follow. *)
Lemma admit_actions fuel time rt made :
  wf_runtime rt → (∀ t, made = Some t → fresh_action (RegisterTransport t) rt) →
  action_queue (service rt) = match made with Some t => [RegisterTransport t] | None => [] end →
  ∃ rt', handle_actions (Datatypes.S (Datatypes.S fuel)) time rt = Ret (Ok tt, rt') ∧ wf_runtime rt' ∧
    service rt' = set_actions [] (service rt) ∧ listeners rt' = listeners rt ∧
    match made with
    | Some t => transports rt' = <[sess_fd (session t) := t]> (transports rt) ∧
        sess_fd (session t) ∈ watched (poller rt')
    | None => transports rt' = transports rt
    end.
Proof.
  intros Hwf Hnew Hq. destruct made as [t|].
  - set (rt0 := set_service (set_actions [] (service rt)) rt).
    pose proof (handle_actions_step session_accept debug (Datatypes.S fuel) time rt _ _ Hq) as E0.
    pose proof (wf_register_transport (HH := HS) t rt0 (wf_set_service _ _ _ Hwf) (Hnew t eq_refl)) as Hwf1.
    match type of Hwf1 with wf_runtime ?x => set (rt1 := x) in Hwf1; exists rt1 end.
    split_and!; [|exact Hwf1|done..|].
    + refine (eq_trans E0 _). exact (no_actions fuel time rt1 eq_refl).
    + destruct (wf_transport _ _ Hwf1 (sess_fd (session t)) t) as (_ & _ & _ & ? & _); [|done].
      apply lookup_insert_eq.
  - exists rt. rewrite no_actions by done. split_and!; [done..| |done|done].
    by destruct (service rt); simpl in *; subst.
Qed.

(** C7. A connection, from the listening socket to the reactor, in one
    iteration of its loop: when the poll reports that the listener can be read,
    the connection that is accepted becomes a transport of the reactor in the
    handshake state, watched for reading, with nothing read or written; when
    it cannot be accepted, or set up, it is dropped without a trace. No other
    transport and nothing of the service changes, and the loop goes on with a
    well-formed runtime. *)
Theorem accept_round fuel before_poll now rt id l p made l' :
  wf_runtime rt → action_queue (service rt) = [] → (2 ≤ fuel)%nat →
  listeners rt !! id = Some l →
  polls before_poll rt [(listener_fd (listener l), Ok IoType.read_only)] p →
  admitted l = Ret (made, l') → (∀ t, made = Some t → fresh_action (RegisterTransport t) rt) →
  ∃ rt', run_once fuel before_poll now rt = Ret (Ok Continue, rt') ∧ wf_runtime rt' ∧
    service rt' = service rt ∧ listeners rt' = <[id := l']> (listeners rt) ∧
    match made with
    | Some t => state t = TransportState.Handshake ∧ inbound t = true ∧ write_buffer t = [] ∧
        read_buffer_len t = 0 ∧ transports rt' = <[sess_fd (session t) := t]> (transports rt) ∧
        sess_fd (session t) ∈ watched (poller rt')
    | None => transports rt' = transports rt
    end.
Proof.
  intros Hwf Hq Hf Hid Hpoll Hadm Hnew. pose proof Hpoll as (_ & _ & _ & _ & _ & Hp).
  set (rt0 := set_poller p rt).
  assert (wf_runtime rt0) as Hwf0 by (apply wf_set_poller; [by eapply polls_watched|done]).
  destruct fuel as [|[|fuel]]; [lia..|].
  destruct (admitted_event id l made l' now (service rt) Hadm) as (Hmade & ev & Hio & Hev).
  destruct (one_accept_event fuel now rt0 id l (Some ev) l' _ Hwf0 Hid Hp Hio Hev)
    as (p1 & E1 & Hw1 & _).
  match type of E1 with _ = Ret (_, ?x) => set (rt1 := x) in E1 end.
  assert (wf_runtime rt1) as Hwf1.
  { apply (handle_io_stable (H := net_accept session_accept)) in Hio as [Hi1 Hi2].
    apply wf_set_service. pose proof (wf_set_poller p1 rt0 [] Hw1 Hwf0) as Hwf1.
    exact (wf_update_listener id l l' (set_poller p1 rt0) [] Hwf1 Hid Hi1 Hi2). }
  destruct (admit_actions fuel now rt1 made Hwf1) as (rt' & E2 & Hwf' & Hs & Hl & Ht).
  { intros t Ht. destruct (Hnew t Ht) as (? & ? & ?). split_and!; [done| |done].
    change (sess_fd (session t) ∉ watched p1). rewrite Hw1. simpl.
    by rewrite (polls_watched _ _ _ _ Hpoll). }
  { simpl. by rewrite Hq. }
  exists rt'. split_and!; [|done| |exact Hl|].
  - refine (eq_trans (run_once_polls _ _ _ _ _ _ _ Hpoll) _).
    exact (one_round (Datatypes.S (Datatypes.S fuel)) now rt0 rt0 rt1 rt' eq_refl E1 E2).
  - refine (eq_trans Hs _). simpl. by destruct (service rt); simpl in *; subst.
  - destruct made as [t|]; [|exact Ht]. destruct (Hmade t eq_refl) as (? & ? & ? & ?).
    destruct Ht. by split_and!.
Qed.
End server.

(** ** A command *)

Section command.
Context {S : Type} `{SL : SessionLaws S} `{!StableSession S}.
Context {L C Ctx : Type} `{NL : NetListener L C} `{NC : NetConnection C} `{!StableListener L C}.
Context (session_accept : C → Ctx → outcome (io_result S)) (debug : bool).
Context `{!EqDecision (SocketAddr (L := L)), !Countable (SocketAddr (L := L))}.
Context {Sk Auth Pr : Type} `{PA : PeerAddrLib} `{PX : Proxy Pr}.
Context (session_connect : RemoteAddr → Sk * Auth → Pr → outcome (result (ProxyError (Pr := Pr)) S)).
Context (sh_echo : io_result (list byte)) (io_error_display : io_error → string).
Context {P : Type} `{PL : PollLaws P} `{CH : Channel} `{SO : SortUnstable}.

#[local] Instance DP : Delegate (Processor Auth Pr) _ (SessionId (S := S)) Sk :=
  processor_delegate (L := L) (Ctx := Ctx) session_connect sh_echo io_error_display.
Abbreviation Act := (Action (NetAccept (L := L) (Context_ := Ctx)) (SocketAddr (L := L) (C := C))
  (NetResource S) Z).
Abbreviation Srv := (Server (S := S) (L := L) (Ctx := Ctx) (D := Processor Auth Pr) (Sk := Sk)).
#[local] Instance HP : Handler Srv := server_handler session_accept debug.
#[local] Instance SLp : StableResource Listener ListenerId Reactor.ListenerEvent := net_accept_stable session_accept.
#[local] Instance STp : StableResource Transport TransportId TransportEvent := net_resource_stable debug.
Implicit Types (rt : Runtime (H := Srv) (P := P)) (h : Srv) (t : NetResource S).

(** What a peer is told, and whether it is hung up on; a command to forward has
    no answer of the server's own. *)
Definition reply (data : list byte) : option (list byte * bool) :=
  match from_utf8 data with
  | None => Some (as_bytes "NON_UTF8_COMMAND", true)
  | Some cmd =>
      match command_from_str cmd with
      | Err _ => Some (as_bytes "INVALID_COMMAND", true)
      | Ok (Execute Echo) =>
          Some match sh_echo with
               | Ok stdout => (stdout, false)
               | Err err => (as_bytes (io_error_display err), true)
               end
      | Ok (Forward _ _) => None
      end
  end.

Lemma reply_input id data h text hangup :
  action_queue h = [] → reply data = Some (text, hangup) →
  transport_event id (Data data) h =
    Ret (set_actions (Send id text :: replicate (Nat.b2n hangup) (UnregisterTransport id)) h).
Proof.
  intros Hq Hr. unfold transport_event. simpl. unfold processor_input. unfold reply in Hr.
  destruct (from_utf8 data) as [cmd|]; [|simplify_eq; unfold extend, set_delegate; simpl; by rewrite Hq].
  destruct (command_from_str cmd) as [[[]|hop []]|e]; [|done|].
  - destruct sh_echo; simplify_eq; unfold extend, set_delegate; simpl; by rewrite Hq.
  - simplify_eq; unfold extend, set_delegate; simpl; by rewrite Hq.
Qed.
(** The actions of a reply. *)
Lemma reply_actions fuel time rt fd t text hangup :
  wf_runtime rt → transports rt !! fd = Some t → idle t → state t = TransportState.Active →
  action_queue (service rt) = Send fd text :: replicate (Nat.b2n hangup) (UnregisterTransport fd) →
  (4 ≤ fuel)%nat →
  ∃ r t' rt', handle_actions fuel time rt = Ret (Ok tt, rt') ∧ wf_runtime rt' ∧
    service rt' = set_actions [] (service rt) ∧ listeners rt' = listeners rt ∧
    net_write_or_buffer text t = Ret (r, t') ∧
    taken t' = taken t ++ (if is_ok r then text else []) ∧
    transports rt' = if is_ok r && negb hangup then <[fd := t']> (transports rt)
                     else delete fd (transports rt).
Proof.
  intros Hwf Hid [Hr _] Hst Hq Hf. destruct fuel as [|fuel]; [lia|].
  pose proof (net_write_or_buffer_ok text t Hr) as Hw. unfold wp in Hw.
  destruct (net_write_or_buffer text t) as [[r t']| |] eqn:Ew; [|done..].
  destruct Hw as (_ & Hfd & _ & _ & Htk).
  set (rt1 := set_service (set_actions (replicate (Nat.b2n hangup) (UnregisterTransport fd)) (service rt)) rt).
  set (n := (Nat.b2n hangup + Nat.b2n (negb (is_ok r)))%nat).
  pose proof (one_send session_accept debug time rt1 fd text t r t' Hid Hst Ew) as E1.
  match type of E1 with _ = Ret (_, ?x) => set (rt2 := x) in E1 end.
  assert (wf_runtime rt2) as Hwf2.
  { apply wf_set_service. eapply wf_update_transport; [by apply wf_set_service|exact Hid|..].
    - exact Hfd.
    - exact Hfd. }
  destruct (hang_up session_accept debug fuel time rt2 fd n) as (rt' & E2 & Hwf' & Hs & Hl & Ht).
  { done. }
  { unfold rt2, n. destruct r; simpl; [by rewrite Nat.add_0_r|].
    rewrite Nat.add_comm. by destruct hangup. }
  { unfold n. destruct hangup, r; simpl; lia. }
  exists r, t', rt'. split_and!; [|done| | |done| |].
  - rewrite (handle_actions_step _ _ _ _ _ _ _ Hq). unfold mbind, prog_bind.
    match goal with |- context [?x] => lazymatch x with handle_one _ _ _ _ _ =>
      replace x with (Ret (Ok () : result Empty_err unit, rt2)) by (symmetry; exact E1) end end.
    exact E2.
  - etransitivity; [exact Hs|]. unfold rt2. by destruct r.
  - etransitivity; [exact Hl|]. by destruct r.
  - destruct r; simpl; [done|]. by rewrite app_nil_r.
  - etransitivity; [exact Ht|]. unfold n, rt2. destruct r as [[]|e], hangup; simpl; try done;
      by rewrite delete_insert_eq.
Qed.
(** C6. A command, from the socket and back, in one iteration of the reactor's
    loop: when the poll reports that an established peer can be read, and the
    read yields a command other than one to forward, or anything else, the
    answer is handed to the peer's transport, behind what it took before: the
    output of [echo] for exactly ["echo"], and otherwise a message, after which
    the peer is hung up on, as it is when the answer cannot be written. No
    other transport, no listener and nothing of the service changes, and the
    loop goes on with a well-formed runtime. *)
Theorem command_round fuel before_poll now rt fd t p data s' text hangup :
  wf_runtime rt → action_queue (service rt) = [] → (4 ≤ fuel)%nat →
  transports rt !! fd = Some t → idle t → state t = TransportState.Active →
  polls before_poll rt [(fd, Ok IoType.read_only)] p →
  data ≠ [] → sess_read (length (read_buffer t)) (session t) = Ret (Ok data, s') →
  reply data = Some (text, hangup) →
  ∃ t1 r t2 rt', run_once fuel before_poll now rt = Ret (Ok Continue, rt') ∧
    wf_runtime rt' ∧ service rt' = service rt ∧ listeners rt' = listeners rt ∧
    session t1 = s' ∧ taken t1 = taken t ∧
    net_write_or_buffer text t1 = Ret (r, t2) ∧
    taken t2 = taken t ++ (if is_ok r then text else []) ∧
    transports rt' = if is_ok r && negb hangup then <[fd := t2]> (transports rt)
                     else delete fd (transports rt).
Proof.
  intros Hwf Hq Hf Hid Hi Hst Hpoll Hd Hread Hrep. pose proof Hpoll as (_ & _ & _ & _ & _ & Hp).
  destruct (active_read debug t data s' Hi Hst Hd Hread) as (t1 & Hio & Hs1 & Hst1 & Htk1 & Hi1).
  destruct (wf_transport _ _ Hwf _ _ Hid) as (Efd & _).
  pose proof (reply_input fd data (service rt) text hangup Hq Hrep) as Hev.
  match type of Hev with _ = Ret ?x => set (h := x) in Hev end.
  set (rt0 := set_poller p rt).
  assert (wf_runtime rt0) as Hwf0 by (apply wf_set_poller; [by eapply polls_watched|done]).
  destruct fuel as [|[|fuel]]; [lia..|].
  assert (pending (poller rt0) = [(sess_fd (session t), Ok IoType.read_only)]) as Hp0.
  { transitivity [(fd, Ok IoType.read_only : result IoFail IoType.t)]; [exact Hp|]. by rewrite <-Efd. }
  destruct (one_read_event fuel now rt0 fd t (Some (Data data)) t1 h Hwf0 Hid Hp0 Hio Hev)
    as (p1 & E1 & Hw1 & Hp1).
  match type of E1 with _ = Ret (_, ?x) => set (rt1 := x) in E1 end.
  assert (wf_runtime rt1) as Hwf1.
  { apply (handle_io_stable (H := net_resource debug)) in Hio as [Hi1' Hi2].
    apply wf_set_service. pose proof (wf_set_poller p1 rt0 [] Hw1 Hwf0) as Hwf1.
    exact (wf_update_transport fd t t1 (set_poller p1 rt0) [] Hwf1 Hid Hi1' Hi2). }
  destruct (reply_actions (Datatypes.S (Datatypes.S fuel)) now rt1 fd t1 text hangup Hwf1
    (lookup_insert_eq _ _ _) Hi1 Hst1 eq_refl Hf)
    as (r & t2 & rt' & E2 & Hwf' & Hs2 & Hl2 & Hw2 & Htk2 & Ht2).
  exists t1, r, t2, rt'. split_and!; [|done| |done..|by rewrite Htk2, Htk1|].
  - refine (eq_trans (run_once_polls _ _ _ _ _ _ _ Hpoll) _).
    exact (one_round (Datatypes.S (Datatypes.S fuel)) now rt0 rt0 rt1 rt' eq_refl E1 E2).
  - rewrite Hs2. unfold h. simpl. by destruct (service rt); simpl in *; subst.
  - rewrite Ht2. simpl. by rewrite insert_insert_eq, delete_insert_eq.
Qed.
End command.

(** ** A run *)

#[local] Existing Instance PlainSession.session.
#[local] Existing Instance PlainSession.laws.
#[local] Existing Instance ListChannel.lib.
#[local] Existing Instance insertion_sort.
#[local] Existing Instance PopolModel.lib.
#[local] Existing Instance PopolModel.laws.

Module ToyRound.
Import ToyServer ToyProcessor.

(** A peer on descriptor 5 has sent ["echo"], and the poll finds it. *)
Definition asking : NetResource Script.t :=
  ToyTransport.transport TransportState.Active
    (ToyTransport.socket [Script.Arrive (as_bytes "echo")] []) [Byte.x01].
Definition poller0 : Poller :=
  {| poll := {| PopolModel.masks := ∅; PopolModel.current := []; PopolModel.script := [[(5, 1)%Z]] |};
     events := [] |}.
Definition rt0 : Runtime (H := ToyProcessor.Srv) (P := Poller) :=
  reactor_with ToyProcessor.serving poller0 10 Toy.pair.
Definition asked : Runtime (H := ToyProcessor.Srv) (P := Poller) :=
  final rt0 (handle_action (RegisterTransport asking) 0 rt0).

Lemma asked_wf : wf_runtime (HH := ToyProcessor.handler) asked.
Proof.
  destruct (refines_handle_action (HH := ToyProcessor.handler) (RegisterTransport asking) 0 rt0) as [_ Hl].
  - apply reactor_with_wf. done.
  - split; [done|split; [|done]]. apply (bool_decide_unpack _). by vm_compute.
  - destruct (Hl _ _ eq_refl) as [Hwf _]. exact Hwf.
Qed.

(** A connection waits on a listener on descriptor 3. *)
Definition knocking : NetAccept (L := Backlog) (Context_ := unit) :=
  {| session_context := tt; NetResource.listener := {| lfd := 3; waiting_ := [ToyTransport.socket [] []] |} |}.
Definition poller1 : Poller :=
  {| poll := {| PopolModel.masks := ∅; PopolModel.current := []; PopolModel.script := [[(3, 1)%Z]] |};
     events := [] |}.
Definition rt1 : Runtime (H := ToyProcessor.Srv) (P := Poller) :=
  reactor_with ToyProcessor.serving poller1 10 Toy.pair.
Definition knocked : Runtime (H := ToyProcessor.Srv) (P := Poller) :=
  final rt1 (handle_action (RegisterListener knocking) 0 rt1).

Lemma knocked_wf : wf_runtime (HH := ToyProcessor.handler) knocked.
Proof.
  destruct (refines_handle_action (HH := ToyProcessor.handler) (RegisterListener knocking) 0 rt1) as [_ Hl].
  - apply reactor_with_wf. done.
  - split; [done|]. apply (bool_decide_unpack _). by vm_compute.
  - destruct (Hl _ _ eq_refl) as [Hwf _]. exact Hwf.
Qed.

Definition heard : Poller :=
  match set_interests knocked with
  | Ret (_, rt) => (poll_poll (Some 0%Z) (poller rt)).2
  | _ => poller1
  end.

Lemma knocked_polls : polls (H := ToyProcessor.Srv) 0 knocked [(3%Z, Ok IoType.read_only)] heard.
Proof. exists WAIT_TIMEOUT, (final knocked (set_interests knocked)). by split_and!. Qed.

Definition guest : NetResource Script.t :=
  {| state := TransportState.Handshake; session := ToyTransport.socket [] []; inbound := true;
     write_intent := false; read_buffer := replicate READ_BUFFER_SIZE Byte.x00;
     read_buffer_len := 0; write_buffer := [] |}.

Definition polled : Poller :=
  match set_interests asked with
  | Ret (_, rt) => (poll_poll (Some 0%Z) (poller rt)).2
  | _ => poller0
  end.

Lemma asked_polls : polls (H := ToyProcessor.Srv) 0 asked [(5%Z, Ok IoType.read_only)] polled.
Proof.
  exists WAIT_TIMEOUT, (final asked (set_interests asked)). by split_and!.
Qed.
End ToyRound.

(** The byte that waited and the output of [echo] are on the socket. *)
Lemma command_round_witness :
  ∃ rt' t2, run_once (H := ToyProcessor.Srv) 4 0 1 ToyRound.asked = Ret (Ok Continue, rt') ∧
    wf_runtime (HH := ToyProcessor.handler) rt' ∧
    transports rt' = <[5%Z := t2]> (transports ToyRound.asked) ∧
    taken t2 = [Byte.x01; Byte.x0a].
Proof.
  destruct (command_round (S := Script.t) (L := ToyServer.Backlog) (Ctx := unit)
    ToyServer.session_accept true ToyProcessor.connect ToyProcessor.output ToyProcessor.show
    4 0 1 ToyRound.asked 5 ToyRound.asking ToyRound.polled (as_bytes "echo")
    (ToyTransport.socket [] []) [Byte.x0a] false)
    as (t1 & r & t2 & rt' & E & Hwf & Hs & Hl & Hs1 & Ht1 & Hw & Htk & Htr).
  - exact ToyRound.asked_wf.
  - reflexivity.
  - lia.
  - by vm_compute.
  - split; [exact I|reflexivity].
  - reflexivity.
  - exact ToyRound.asked_polls.
  - discriminate.
  - by vm_compute.
  - by vm_compute.
  - exists rt', t2. split; [exact E|]. split; [exact Hwf|].
    assert (r = Ok tt) as ->.
    { revert Hw. unfold net_write_or_buffer, on_session. unfold_prog. rewrite Hs1. simpl.
      rewrite decide_False by lia. by intros [= <- _]. }
    split; [exact Htr|exact Htk].
Defined.

Lemma accept_round_witness :
  ∃ rt', run_once (H := ToyProcessor.Srv) 2 0 1 ToyRound.knocked = Ret (Ok Continue, rt') ∧
    wf_runtime (HH := ToyProcessor.handler) rt' ∧
    transports rt' = <[5%Z := ToyRound.guest]> (transports ToyRound.knocked) ∧
    5%Z ∈ watched (poller rt').
Proof.
  destruct (accept_round (S := Script.t) (L := ToyServer.Backlog) (Ctx := unit)
    (DG := ToyProcessor.delegate) ToyServer.session_accept true 2 0 1 ToyRound.knocked 3%Z
    ToyRound.knocking ToyRound.heard (Some ToyRound.guest) ToyServer.listener)
    as (rt' & E & Hwf & _ & _ & _ & _ & _ & _ & Ht & Hw).
  - exact ToyRound.knocked_wf.
  - reflexivity.
  - lia.
  - reflexivity.
  - exact ToyRound.knocked_polls.
  - reflexivity.
  - intros t [= <-]. split; [done|split; [|done]]. apply (bool_decide_unpack _). by vm_compute.
  - exists rt'. split; [exact E|]. split; [exact Hwf|]. split; [exact Ht|exact Hw].
Defined.
