(* ===== verification/NshServe.v ===== *)
(** * nsh as a daemon: nsh/src/main.rs, [Mode::Listen]

    The server is made around a processor, and a reactor is started with it;
    its first iteration registers the listening socket. *)

From S2P Require Import Prelude StdLib Timeouts Resource Popol Channel Waker Reactor ReactorToy ReactorSpec ReactorEvents ReactorRun ReactorOnce Net NetResource NetResourceSpec NetStable Auth Tunnel Command Server ServerSpec Processor ProcessorSpec ServerRound Client Nsh NshSpec.

(** ** The first iteration of a reactor *)

Section reactor.
Context {H P : Type} `{HH : Handler H} `{PL : PollLaws P} `{CL : ChannelLaws} `{SO : SortUnstable}.
Implicit Types (rt : Runtime (H := H) (P := P)).

(** Nothing waits in the channels, and their senders are alive. *)
Definition no_messages rt : Prop :=
  queue (cmd_chan (shared rt)) = [] ∧ has_sender (cmd_chan (shared rt)) = true ∧
  queue (ctl_chan (shared rt)) = [] ∧ has_sender (ctl_chan (shared rt)) = true.

Lemma no_commands fuel rt :
  queue (cmd_chan (shared rt)) = [] → has_sender (cmd_chan (shared rt)) = true →
  ∃ c, commands_loop (S fuel) rt = Ret (Ok tt, set_shared (set_cmd_chan c (shared rt)) rt).
Proof. intros Hq Hs. simpl. destruct (try_recv_nil _ Hq Hs) as (c & -> & _). by exists c. Qed.

Lemma no_controls fuel now rt :
  queue (ctl_chan (shared rt)) = [] → has_sender (ctl_chan (shared rt)) = true →
  ∃ c, control_loop (S fuel) now rt = Ret (Ok Continue, set_shared (set_ctl_chan c (shared rt)) rt).
Proof. intros Hq Hs. simpl. destruct (try_recv_nil _ Hq Hs) as (c & -> & _). by exists c. Qed.

(** The only event is the waker's. *)
Lemma one_wake_event fuel time rt io :
  pending (poller rt) = [(waker_fd rt, Ok io)] → read_errors (waker (shared rt)) = [] →
  ∃ p, handle_events (S (S fuel)) time rt =
      Ret (Ok true, set_shared (set_waker (with_inbox 0 (waker (shared rt))) (shared rt)) (set_poller p rt)) ∧
    watched p = watched (poller rt) ∧ pending p = [].
Proof.
  intros Hp Hre. destruct (poll_next_two _ _ Hp) as (p1 & p2 & E1 & E2 & Hw2 & Hp2).
  exists p2. split; [|done].
  unfold handle_events. unfold_prog. rewrite E1. unfold_prog. unfold handle_event. unfold_prog.
  rewrite decide_True by done. unfold reset_waker. rewrite reset_fd_reader by done. simpl.
  by rewrite E2.
Qed.

(** An iteration that is woken, with nothing in the channels: only the actions
    of the service are left. *)
Lemma woken_round fuel before_poll now rt io p :
  wf_runtime rt → polls before_poll rt [(waker_fd rt, Ok io)] p →
  read_errors (waker (shared rt)) = [] → no_messages rt →
  (∃ h, tick now (service rt) = Ret h ∧ h = service rt) →
  ∃ rt1, wf_runtime rt1 ∧ abs rt1 = abs rt ∧ listener_map rt1 = listener_map rt ∧
    transport_map rt1 = transport_map rt ∧ watched (poller rt1) = watched (poller rt) ∧
    run_once (S (S fuel)) before_poll now rt =
      (handle_actions (S (S fuel)) now ≫= λ _, mret Continue) rt1.
Proof.
  intros Hwf Hpoll Hre (Hq1 & Hs1 & Hq2 & Hs2) (h & Ht & ->).
  pose proof (polls_watched _ _ _ _ Hpoll) as Hw. pose proof Hpoll as (_ & _ & _ & _ & _ & Hp).
  set (rt0 := set_poller p rt).
  destruct (one_wake_event fuel now rt0 io Hp Hre) as (p1 & E1 & Hw1 & _).
  match type of E1 with _ = Ret (_, ?x) => set (rt1 := x) in E1 end.
  destruct (no_commands (S fuel) rt1 Hq1 Hs1) as (c1 & E2).
  match type of E2 with _ = Ret (_, ?x) => set (rt2 := x) in E2 end.
  destruct (no_controls (S fuel) now rt2 Hq2 Hs2) as (c2 & E3).
  match type of E3 with _ = Ret (_, ?x) => set (rt3 := x) in E3 end.
  exists rt3. split_and!; [|done..|exact (eq_trans Hw1 Hw)|].
  - do 3 apply wf_set_shared. apply wf_set_poller; [exact Hw1|]. by apply wf_set_poller.
  - rewrite (run_once_polls _ _ _ _ _ _ _ Hpoll). unfold mbind at 1, prog_bind at 1.
    unfold on_service. simpl service. rewrite Ht. unfold mbind at 1, prog_bind at 1.
    replace (set_service (service rt) (set_poller p rt)) with rt0 by (by destruct rt).
    rewrite E1. unfold mbind at 1, prog_bind at 1. unfold mbind at 1, prog_bind at 1.
    rewrite E2, E3. done.
Qed.
End reactor.

(** ** [Mode::Listen] *)

Section serve.
Context {S : Type} `{NS : NetSession S} `{!StableSession S}.
Context {L C : Type} `{NL : NetListener L C} `{NC : NetConnection C} `{!StableListener L C}.
Context `{!EqDecision (SocketAddr (L := L)), !Countable (SocketAddr (L := L))}.
Context `{PA : PeerAddrLib} `{AD : !ArgAddrs} `{ED : Ed25519} `{PK : !PrivateKeys} `{TH : Threads}.
Context {Pr : Type} `{PX : Proxy Pr} (debug : bool).
Abbreviation Ctx := (PrivateKey * Authenticator)%type.
Context (session_accept : C → Ctx → outcome (io_result S)).
Context (session_connect : RemoteAddr → Ctx → Pr → outcome (result (ProxyError (Pr := Pr)) S)).
Context (sh_echo : io_result (list byte)) (io_error_display : io_error → string).
Context {P : Type} `{PL : PollLaws P} `{CL : ChannelLaws} `{SO : SortUnstable}.

#[local] Instance DL : Delegate (Processor Authenticator Pr) _ (SessionId (S := S)) PrivateKey :=
  processor_delegate (L := L) (Ctx := Ctx) session_connect sh_echo io_error_display.
Abbreviation Srv := (Server (S := S) (L := L) (Ctx := Ctx) (D := Processor Authenticator Pr)
  (Sk := PrivateKey)).
#[local] Instance HL : Handler Srv := server_handler session_accept debug.
#[local] Instance SLl : StableResource Listener ListenerId Reactor.ListenerEvent := net_accept_stable session_accept.
#[local] Instance STl : StableResource Transport TransportId TransportEvent := net_resource_stable debug.
Implicit Types (rt : Runtime (H := Srv) (P := P)).

(** [bound] is what binding the socket returns, [pair] the waker's socket pair
    that [Reactor::with] makes, with the descriptor of its reading end. The
    runtime is what the thread of the reactor runs, which [join] waits for. *)
Definition run_listen (config : Config) (bound : io_result L) (proxy : Pr) (poller0 : P)
    (pair : io_result (Z * Waker)) :
    outcome (result AppError (Runtime (H := Srv) (P := P))) :=
  let auth := run_auth config in
  let processor := Processor.new auth proxy in
  match with_ (ecdh (node_keys config)) (ecdh (node_keys config), auth) bound processor with
  | Err e => Ret (Err (AppIo e))
  | Ok service =>
      match pair with
      | Err e => Ret (Err (AppIo e))
      | Ok (fd, w) =>
          '(r, w) ← wake w;
          Ret (match r with
               | Err e => Err (AppIo e)
               | Ok _ => Ok (reactor_with service poller0 fd w)
               end)
      end
  end.

(** A listener that the service registers when it starts. *)
Lemma register_first fuel time rt l :
  wf_runtime rt → action_queue (service rt) = [RegisterListener l] →
  listeners rt = ∅ → listener_fd (NetResource.listener l) ∉ watched (poller rt) →
  ∃ rt', handle_actions (Datatypes.S (Datatypes.S fuel)) time rt = Ret (Ok tt, rt') ∧ wf_runtime rt' ∧
    listeners rt' = {[ listener_local_addr (NetResource.listener l) := l ]} ∧
    transports rt' = transports rt ∧ service rt' = set_actions [] (service rt) ∧
    listener_fd (NetResource.listener l) ∈ watched (poller rt').
Proof.
  intros Hwf Hq Hl Hfd. set (rt0 := set_service (set_actions [] (service rt)) rt).
  pose proof (handle_actions_step session_accept debug (Datatypes.S fuel) time rt _ _ Hq) as E0.
  assert (fresh_action (HH := HL) (RegisterListener l) rt0) as Hfresh.
  { split; [|exact Hfd]. change (listeners rt !! listener_local_addr (NetResource.listener l) = None).
    by rewrite Hl. }
  pose proof (wf_register_listener (HH := HL) l rt0 (wf_set_service _ _ _ Hwf) Hfresh) as Hwf1.
  match type of Hwf1 with wf_runtime ?x => set (rt1 := x) in Hwf1; exists rt1 end.
  split_and!; [|exact Hwf1| |done|done|].
  - refine (eq_trans E0 _). exact (no_actions session_accept debug fuel time rt1 eq_refl).
  - simpl. by rewrite Hl, insert_empty.
  - destruct (wf_listener _ _ Hwf1 (listener_local_addr (NetResource.listener l)) l) as (_ & _ & ? & _); [|done].
    apply lookup_insert_eq.
Qed.

End serve.

(** ** A run *)

#[local] Existing Instance PlainSession.session.
#[local] Existing Instance PlainSession.laws.
#[local] Existing Instance ListChannel.lib.
#[local] Existing Instance ListChannel.laws.
#[local] Existing Instance insertion_sort.
#[local] Existing Instance PopolModel.lib.
#[local] Existing Instance PopolModel.laws.

Module ToyServe.
Import ToyNsh ToyServer.
#[export] Existing Instance ToyProcessor.direct.

Definition config : Config :=
  {| node_keys := {| pk := true; Nsh.ecdh := true |}; mode := Listen 3232%Z; proxy_addr := 9050%Z |}.
Definition accept_plain (c : Script.t) (_ : bool * Authenticator) : outcome (io_result Script.t) :=
  Ret (Ok c).
Definition connect_plain (hop : RemoteAddr) (_ : bool * Authenticator) (_ : unit) :
    outcome (result (ProxyError (Pr := unit)) Script.t) := Ret (Ok ToyProcessor.socket).

(** The socket is on descriptor 3, and the waker on 10. *)
Definition socket : Backlog := {| lfd := 3; waiting_ := [] |}.
Definition poller0 : Poller :=
  {| poll := {| PopolModel.masks := ∅; PopolModel.current := []; PopolModel.script := [[(10, 1)%Z]] |};
     events := [] |}.

Abbreviation Srv := (Server (S := Script.t) (L := Backlog) (Ctx := bool * Authenticator)
  (D := Processor Authenticator unit) (Sk := bool)).
#[export] Instance delegate : Delegate (Processor Authenticator unit) _ (SessionId (S := Script.t)) bool :=
  processor_delegate (L := Backlog) (Ctx := bool * Authenticator) connect_plain
    ToyProcessor.output ToyProcessor.show.
#[export] Instance handler : Handler Srv := server_handler accept_plain true.

Abbreviation started := (run_listen (S := Script.t) true accept_plain connect_plain
  ToyProcessor.output ToyProcessor.show config (Ok socket) tt poller0 (Ok (10%Z, Toy.pair))).

Definition rt0 : Runtime (H := Srv) (P := Poller) :=
  reactor_with {| outbox := ∅;
      action_queue := [RegisterListener {| session_context := (true, run_auth config);
                                           NetResource.listener := socket |}];
      Server.delegate := Processor.new (run_auth config) tt; Server.ecdh := true |}
    poller0 10 (with_inbox 1 Toy.pair).

Definition polled : Poller :=
  match set_interests rt0 with
  | Ret (_, rt) => (poll_poll (Some 0%Z) (poller rt)).2
  | _ => poller0
  end.

Lemma rt0_polls : polls (H := Srv) 0 rt0 [(10%Z, Ok IoType.read_only)] polled.
Proof. exists WAIT_TIMEOUT, (final rt0 (set_interests rt0)). by split_and!. Qed.
End ToyServe.

Section witness.
Import ToyNsh ToyServe.

End witness.
