(* ===== verification/NshRun.v ===== *)
(** * The nsh program, from its arguments to its exit code: nsh/src/main.rs

    [run] composes what the other files model: the log level, the
    configuration, the proxy, and then the daemon, the tunnel or a command. *)

From S2P Require Import Prelude StdLib Timeouts Resource Popol Channel Waker Reactor ReactorToy Net Sockets Connect NetResource NetResourceSpec NetStable Auth Tunnel Command Server ServerSpec Processor Client Nsh NshSpec Shell NshServe.

#[local] Open Scope Z_scope.

(** The process with its environment, the file system, and what is printed.
    Messages for the user are left out. *)
Record World {Os Out : Type} := { process : Process; files : Os; output : Out }.
Arguments World : clear implicits.

Definition set_process {Os Out} (p : Process) (w : World Os Out) : World Os Out :=
  {| process := p; files := files w; output := output w |}.
Definition set_files {Os Out} (f : Os) (w : World Os Out) : World Os Out :=
  {| process := process w; files := f; output := output w |}.
Definition set_output {Os Out} (o : Out) (w : World Os Out) : World Os Out :=
  {| process := process w; files := files w; output := o |}.

Inductive ExitCode := SUCCESS | FAILURE.

Section run.
Context {S : Type} `{NS : NetSession S}.
Context {L C : Type} `{NL : NetListener L C} `{NC : NetConnection C}.
Context `{!EqDecision (NetResource.SocketAddr (L := L)), !Countable (NetResource.SocketAddr (L := L))}.
Context `{PA : PeerAddrLib} `{AD : !ArgAddrs} `{ED : Ed25519} `{PK : !PrivateKeys} `{TH : Threads}.
Context `{HS : Host} {Out : Type} `{SO : Stdout Out}.
Context `{ST : !StdTcp C} `{TA : !ToSocketAddrs C NetAddrI} (debug warn : bool).
Abbreviation Ctx := (PrivateKey * Authenticator)%type.
Context (session_accept : C → Ctx → outcome (io_result S)).
Context (sh_echo : io_result (list byte)) (io_error_display : io_error → string).
Context {P : Type} `{PO : Poll P} `{CH : Channel}.

(** [Socks5Error] is an I/O error, and printed as one. *)
#[local] Instance PX : Processor.Proxy Socks5 := {|
  ProxyError := io_error;
  proxy_error_from e := e;
  proxy_error_display := io_error_display;
|}.

(** How a session connects, for a hop and for the program. *)
Context (session_connect session_connect_blocking :
  RemoteAddr → Ctx → Socks5 → outcome (result (ProxyError (Pr := Socks5)) S)).

#[local] Instance DL : Delegate (Processor Authenticator Socks5) _ (SessionId (S := S)) PrivateKey :=
  processor_delegate (L := L) (Ctx := Ctx) session_connect sh_echo io_error_display.
Abbreviation Srv := (Server (S := S) (L := L) (Ctx := Ctx) (D := Processor Authenticator Socks5)
  (Sk := PrivateKey)).
#[local] Instance HL : Handler Srv := server_handler session_accept debug.

(** What the operating system answers: binding the daemon's socket and the
    tunnel's, the connection that the tunnel accepts, the waker's socket pair
    with its descriptor, and how the thread of the reactor ends. *)
Context (bind : NetAddrI → io_result L) (tunnel_bind : NetAddrI → io_result unit).
Context (accepted : io_result C) (poller0 : P) (pair : io_result (Z * Waker)).
Context (joined : Runtime (H := Srv) (P := P) → outcome (result ThreadPanic unit)).

Abbreviation W := (World Os Out).

(** [LogLevel::from_verbosity_flag_count(args.verbose).apply()] *)
Definition apply_level (args : Args) : prog W AppError unit := λ w,
  p ← Shell.apply (LogLevel.from_verbosity_flag_count (verbose args)) (process w);
  Ret (Ok tt, set_process p w).

Definition run (fuel n : nat) (args : Args) : prog W AppError unit :=
  apply_level args ≫= λ _,
  zoom files set_files (try_from args) ≫= λ config,
  of_result (map_err AppIo (socks5_new (resolve (C := C) (proxy_addr config)))) ≫= λ proxy,
  let ctx := (ecdh (node_keys config), run_auth config) in
  let connected remote :=
    r ← session_connect_blocking remote ctx proxy; Ret (map_err AppSocks5 r) in
  match mode config with
  | Listen socket_addr =>
      of_outcome (run_listen debug session_accept session_connect sh_echo io_error_display config
        (bind socket_addr) proxy poller0 pair) ≫= λ reactor,
      of_result reactor ≫= λ reactor,
      of_outcome (joined reactor) ≫= λ r, of_result (map_err AppThread r)
  | TunnelTo local remote =>
      of_outcome (run_tunnel debug fuel remote (connected remote) (tunnel_bind local) accepted
        poller0) ≫= λ r, of_result r
  | Connect remote_host remote_command =>
      zoom output set_output (run_connect warn fuel n remote_command (connected remote_host))
  end.

Definition main (fuel n : nat) (args : Args) (w : W) : outcome (ExitCode * W) :=
  '(r, w) ← run fuel n args w;
  Ret (match r with Ok _ => SUCCESS | Err _ => FAILURE end, w).
End run.

(** ** Running a command *)

Section command.
Context {S : Type} `{CS : ClientSession S}.
Context {L C : Type} `{NL : NetListener L C} `{NC : NetConnection C}.
Context `{!EqDecision (NetResource.SocketAddr (L := L)), !Countable (NetResource.SocketAddr (L := L))}.
Context `{PA : PeerAddrLib} `{AD : !ArgAddrs} `{ED : Ed25519} `{PK : !PrivateKeys} `{TH : Threads}.
Context `{HS : Host} `{HW : !HostLaws} {Out : Type} `{SL : StdoutLaws Out}.
Context `{ST : !StdTcp C} `{TA : !ToSocketAddrs C NetAddrI} (debug warn : bool).
Context (session_accept : C → PrivateKey * Authenticator → outcome (io_result S)).
Context (sh_echo : io_result (list byte)) (io_error_display : io_error → string).
Context {P : Type} `{PO : Poll P} `{CH : Channel}.
Context (session_connect session_connect_blocking :
  RemoteAddr → PrivateKey * Authenticator → Socks5 → outcome (io_result S)).
Context (bind : NetAddrI → io_result L) (tunnel_bind : NetAddrI → io_result unit).
Context (accepted : io_result C) (poller0 : P) (pair : io_result (Z * Waker)).
Context (joined : Runtime (H := Server (S := S) (L := L) (Ctx := PrivateKey * Authenticator)
    (D := Processor Authenticator Socks5) (Sk := PrivateKey))
  (HH := HL debug session_accept sh_echo io_error_display session_connect) (P := P) →
  outcome (result ThreadPanic unit)).

Abbreviation program := (main debug warn session_accept sh_echo io_error_display session_connect
  session_connect_blocking bind tunnel_bind accepted poller0 pair joined).

(** The configuration is read, or is an error; nothing else happens. *)
Lemma try_from_total args os m :
  mode_from args = Ret m → wp (try_from args) (λ r _, ∀ config, r = Ok config → mode config = m) os.
Proof.
  intros Hm. unfold wp, try_from. unfold_prog. rewrite Hm. pose proof (read_identity_spec (id_path args) os) as Hr.
  unfold wp in Hr. destruct (read_identity (id_path args) os) as [[[pem|e] os']| |]; [|done..].
  simpl. destruct (from_pem pem); simpl; [|done]. by intros ? [= <-].
Qed.

(** Why a run ends before a session is connected. *)
Definition no_session args (os : Os) (remote : RemoteAddr) : Prop :=
  (∃ e os', try_from args os = Ret (Err e, os')) ∨
  ∃ config os', try_from args os = Ret (Ok config, os') ∧
    ((∃ e, socks5_new (resolve (C := C) (proxy_addr config)) = Err e) ∨
     ∃ proxy e, session_connect_blocking remote (ecdh (node_keys config), run_auth config) proxy =
       Ret (Err e)).

End command.

(** ** A run *)

Module ToyRun.
Import ToyNsh ToyServer.

#[export] Instance std : StdTcp Script.t := {
  Sockets.SocketAddr := Z;
  stream_connect _ := Ok hi;
  TcpListener := unit;
  listener_bind _ := Ok tt;
  Sockets.listener_set_nonblocking _ := mret tt;
  Sockets.listener_accept := throw (from_kind WouldBlock);
}.
#[export] Instance resolves : ToSocketAddrs Script.t NetAddrI := λ port, Ok [port].

Definition w0 : World Os (list byte) :=
  {| process := {| max_level := None; rust_log := NotPresent; initialised := false |};
     files := ∅; output := [] |}.

Definition accept_plain (c : Script.t) (_ : bool * Authenticator) : outcome (io_result Script.t) :=
  Ret (Ok c).
Definition connect_plain (_ : RemoteAddr) (_ : bool * Authenticator) (_ : Socks5 (C := Script.t)) :
  outcome (io_result Script.t) := Ret (Ok hi).
End ToyRun.

Section witness.
Import ToyNsh ToyServer ToyRun.
#[local] Existing Instance PlainSession.session.
#[local] Existing Instance PlainSession.laws.
#[local] Existing Instance ListChannel.lib.
#[local] Existing Instance PopolModel.lib.

End witness.
