(* ===== verification/ActorReactor.v ===== *)
(** * The earlier reactor: re-actor/src/reactor

    Actors run in pools. Each pool has a thread, a scheduler that reports the
    I/O of its actors, and a control channel; a [Controller] finds the pool of
    an actor and sends to its channel. *)

From S2P Require Import Prelude StdLib Timeouts Resource Channel.

(** ** Data *)

Module IoEv.
(** [IoEv] of re-actor/src/actors/mod.rs *)
Record t := { is_readable : bool; is_writable : bool }.
End IoEv.

Record IoSrc (Id : Type) := { source : Id; io : IoEv.t }.
Arguments source {Id} _.
Arguments io {Id} _.

Inductive ControlEvent (Ctx Id Cmd : Type) :=
| Connect (ctx : Ctx)
| Disconnect (id : Id)
| SetTimer
| Send (id : Id) (cmd : Cmd).
Arguments Connect {Ctx Id Cmd} ctx.
Arguments Disconnect {Ctx Id Cmd} id.
Arguments SetTimer {Ctx Id Cmd}.
Arguments Send {Ctx Id Cmd} id cmd.

Inductive InternalError (L Id Err : Type) :=
| ShutdownChanelBroken
| ControlChannelBroken
| UnknownActor (id : Id)
| UnknownPool (pool : L)
| RepeatedActor (id : Id)
| RepeatedPoll (pool : L)
| ActorError (pool : L) (err : Err)
| ThreadError (pool : L).
Arguments ShutdownChanelBroken {L Id Err}.
Arguments ControlChannelBroken {L Id Err}.
Arguments UnknownActor {L Id Err} id.
Arguments UnknownPool {L Id Err} pool.
Arguments RepeatedActor {L Id Err} id.
Arguments RepeatedPoll {L Id Err} pool.
Arguments ActorError {L Id Err} pool err.
Arguments ThreadError {L Id Err} pool.

(** [trait Layout], with the associated types of its [RootActor]. *)
Class Layout := {
  PoolId : Type;
  ActorContext : Type;
  ActorId : Type;
  ActorCmd : Type;
  ActorErr : Type;
  PoolId_eq :: EqDecision PoolId;
  PoolId_countable :: Countable PoolId;
  ActorId_eq :: EqDecision ActorId;
  ActorId_countable :: Countable ActorId;
}.

Section reactor.
Context `{LY : Layout} `{CH : Channel}.

Abbreviation Event := (ControlEvent ActorContext ActorId ActorCmd).
Abbreviation IErr := (InternalError PoolId ActorId ActorErr).

(** ** Channels

    A sender or a receiver is a handle on a shared channel; clones are equal
    handles. *)
Record Store := { fresh : nat; cell : nat → chan Event }.

Definition set_cell (h : nat) (c : chan Event) (s : Store) : Store :=
  {| fresh := fresh s; cell := λ n, if decide (n = h) then c else cell s n |}.

Definition no_channels : Store := {| fresh := 0; cell := λ _, unbounded |}.

(** [chan::unbounded()] *)
Definition new_channel (s : Store) : nat * Store :=
  (fresh s, set_cell (fresh s) unbounded {| fresh := S (fresh s); cell := cell s |}).

(** [channel.send(event)?], with [From<chan::SendError<..>>] *)
Definition send_event (h : nat) (ev : Event) : prog Store IErr unit := λ s,
  let '(r, c) := chan_send ev (cell s h) in
  Ret (map_err (λ _, ControlChannelBroken) r, set_cell h c s).

Definition recv_event (h : nat) (s : Store) : try_recv_result Event * Store :=
  let '(r, c) := try_recv (cell s h) in (r, set_cell h c s).

(** ** The controller *)

Record Controller := { actor_map : gmap ActorId PoolId; channels : gmap PoolId nat }.

Definition controller_new : Controller := {| actor_map := ∅; channels := ∅ |}.

Definition channel_for (c : Controller) (pool : PoolId) : result IErr nat :=
  ok_or (channels c !! pool) (UnknownPool pool).

Definition pool_for (c : Controller) (id : ActorId) : result IErr PoolId :=
  ok_or (actor_map c !! id) (UnknownActor id).

Definition register_actor (id : ActorId) (pool : PoolId) : prog Controller IErr unit :=
  gets (λ c, channels c !! pool) ≫= λ ch,
  if decide (ch = None) then throw (UnknownPool pool) else
  gets (λ c, actor_map c !! id) ≫= λ known,
  if decide (known = None) then
    modify (λ c, {| actor_map := <[id := pool]> (actor_map c); channels := channels c |})
  else throw (RepeatedActor id).

Definition register_pool (pool : PoolId) (channel : nat) : prog Controller IErr unit :=
  gets (λ c, channels c !! pool) ≫= λ ch,
  if decide (ch = None) then
    modify (λ c, {| actor_map := actor_map c; channels := <[pool := channel]> (channels c) |})
  else throw (RepeatedPoll pool).

(** *** [ReactorApi for Controller] *)
Definition start_actor (c : Controller) (pool : PoolId) (ctx : ActorContext) : prog Store IErr unit :=
  of_result (channel_for c pool) ≫= λ ch, send_event ch (Connect ctx).

Definition stop_actor (c : Controller) (id : ActorId) : prog Store IErr unit :=
  of_result (pool_for c id) ≫= λ pool,
  of_result (channel_for c pool) ≫= λ ch, send_event ch (Disconnect id).

Definition set_timer (c : Controller) (pool : PoolId) : prog Store IErr unit :=
  of_result (channel_for c pool) ≫= λ ch, send_event ch SetTimer.

Definition send (c : Controller) (id : ActorId) (cmd : ActorCmd) : prog Store IErr unit :=
  of_result (pool_for c id) ≫= λ pool,
  of_result (channel_for c pool) ≫= λ ch, send_event ch (Send id cmd).

(** ** Actors, schedulers and handlers *)

(** [trait Actor]. An actor may hold a controller, so its methods also act on
    the channels. *)
Class Actor (A : Type) := {
  actor_with : ActorContext → Controller → prog Store ActorErr A;
  actor_id : A → ActorId;
  io_ready : IoEv.t → prog (A * Store) ActorErr unit;
  handle_cmd : ActorCmd → prog (A * Store) ActorErr unit;
  handle_err : ActorErr → prog (A * Store) ActorErr unit;
}.

(** [trait Scheduler]; [wait_io] returns whether it timed out. *)
Class Scheduler (Sch A : Type) := {
  has_actor : ActorId → Sch → bool;
  sched_register : A → prog Sch ActorErr unit;
  sched_unregister : ActorId → prog Sch ActorErr unit;
  wait_io : option Z → prog Sch ActorErr bool;
  sched_next : Sch → option (IoSrc ActorId) * Sch;
}.

(** [trait Handler] *)
Class ErrHandler (Hd : Type) := on_error : IErr → Hd → outcome Hd.

(** ** The runtime of a pool *)

Context {A Sch Hd : Type} `{AA : Actor A, SS : Scheduler Sch A, HH : ErrHandler Hd}.

(** [PoolRuntime]; [control] is the handle of [control_recv] and
    [control_send]. Next to it the channels it shares with the controllers, and
    the channel that [shutdown] receives from. *)
Record PoolRuntime := {
  pool_id : PoolId;
  actors : gmap ActorId A;
  scheduler : Sch;
  handler : Hd;
  control : nat;
  pool_timeouts : TimeoutManager unit;
  store : Store;
  shutdown_chan : chan unit;
}.

Definition set_actors (x : gmap ActorId A) (p : PoolRuntime) : PoolRuntime :=
  {| pool_id := pool_id p; actors := x; scheduler := scheduler p; handler := handler p;
     control := control p; pool_timeouts := pool_timeouts p; store := store p;
     shutdown_chan := shutdown_chan p |}.
Definition set_scheduler (x : Sch) (p : PoolRuntime) : PoolRuntime :=
  {| pool_id := pool_id p; actors := actors p; scheduler := x; handler := handler p;
     control := control p; pool_timeouts := pool_timeouts p; store := store p;
     shutdown_chan := shutdown_chan p |}.
Definition set_handler (x : Hd) (p : PoolRuntime) : PoolRuntime :=
  {| pool_id := pool_id p; actors := actors p; scheduler := scheduler p; handler := x;
     control := control p; pool_timeouts := pool_timeouts p; store := store p;
     shutdown_chan := shutdown_chan p |}.
Definition set_store (x : Store) (p : PoolRuntime) : PoolRuntime :=
  {| pool_id := pool_id p; actors := actors p; scheduler := scheduler p; handler := handler p;
     control := control p; pool_timeouts := pool_timeouts p; store := x;
     shutdown_chan := shutdown_chan p |}.
Definition set_shutdown (x : chan unit) (p : PoolRuntime) : PoolRuntime :=
  {| pool_id := pool_id p; actors := actors p; scheduler := scheduler p; handler := handler p;
     control := control p; pool_timeouts := pool_timeouts p; store := store p;
     shutdown_chan := x |}.

Definition pool_new (id : PoolId) (sch : Sch) (ctl : nat) (h : Hd) (s : Store) (sd : chan unit) :
    PoolRuntime :=
  {| pool_id := id; actors := ∅; scheduler := sch; handler := h; control := ctl;
     pool_timeouts := ReActor.new (from_secs 0); store := s; shutdown_chan := sd |}.

Definition Never : Type := Empty_set.

(** [self.handler.handle_err(InternalError::ActorError(self.id, err))] *)
Definition report (err : ActorErr) : prog PoolRuntime Never unit := λ p,
  h ← on_error (ActorError (pool_id p) err) (handler p); Ret (Ok tt, set_handler h p).

(** [.unwrap_or_else(|err| ..)] with the handler. *)
Definition or_report (m : prog PoolRuntime ActorErr unit) : prog PoolRuntime Never unit :=
  attempt m ≫= λ r, match r with Ok _ => mret tt | Err err => report err end.

Definition on_scheduler {B} (m : prog Sch ActorErr B) : prog PoolRuntime ActorErr B :=
  zoom scheduler set_scheduler m.

(** [m.or_else(|err| res.handle_err(err))] *)
Definition or_handle (m : prog (A * Store) ActorErr unit) : prog (A * Store) ActorErr unit :=
  attempt m ≫= λ r, match r with Ok _ => mret tt | Err err => handle_err err end.

(** A call on the actor that the map has under [id]. *)
Definition on_actor (id : ActorId) (a : A) (m : prog (A * Store) ActorErr unit) :
    prog PoolRuntime ActorErr unit :=
  zoom (λ p, (a, store p)) (λ s p, set_actors (<[id := s.1]> (actors p)) (set_store s.2 p))
    (or_handle m).

(** *** [process_control] *)

Definition connect_actor (controller : Controller) (ctx : ActorContext) : prog PoolRuntime Never unit :=
  attempt (zoom store set_store (actor_with ctx controller)) ≫= λ made,
  match made with
  | Err err => report err
  | Ok resource =>
      attempt (on_scheduler (sched_register resource)) ≫= λ registered,
      (match registered with
       | Ok _ => mret resource
       | Err err =>
           (** [resource.handle_err(err)]; the resource is not in the map yet *)
           gets (λ p, (resource, store p)) ≫= λ s,
           of_outcome (handle_err err s) ≫= λ '(r, s),
           modify (set_store s.2) ≫= λ _,
           match r with Ok _ => mret tt | Err err => report err end ≫= λ _, mret s.1
       end) ≫= λ resource,
      modify (λ p, set_actors (<[actor_id resource := resource]> (actors p)) p)
  end.

Definition control_event (controller : Controller) (ev : Event) : prog PoolRuntime Never unit :=
  match ev with
  | Connect ctx => connect_actor controller ctx
  | Disconnect id =>
      or_report (on_scheduler (sched_unregister id)) ≫= λ _,
      modify (λ p, set_actors (delete id (actors p)) p)
  | SetTimer => mret tt
  | Send id data =>
      gets (λ p, actors p !! id) ≫= λ found,
      match found with
      | Some resource => or_report (on_actor id resource (handle_cmd data))
      | None => mret tt
      end
  end.

Fixpoint process_control (fuel : nat) (controller : Controller) : prog PoolRuntime Never unit := λ p,
  match fuel with
  | O => Hang
  | S fuel =>
      let '(got, s) := recv_event (control p) (store p) in
      let p := set_store s p in
      match got with
      | Disconnected => Panic "re-actor shutdown channel was dropper"
      | Empty => Ret (Ok tt, p)
      | Received ev =>
          (control_event controller ev ≫= λ _, process_control fuel controller) p
      end
  end.

Definition process_shutdown : prog PoolRuntime Never unit := λ p,
  let '(got, c) := try_recv (shutdown_chan p) in
  let p := set_shutdown c p in
  match got with
  | Empty => Ret (Ok tt, p)
  | Received _ => Ret (Ok tt, p)
  | Disconnected => Panic "re-actor shutdown channel was dropper"
  end.

(** *** [run] *)

Definition io_event (ev : IoSrc ActorId) : prog PoolRuntime Never unit :=
  gets (λ p, actors p !! source ev) ≫= λ found,
  of_outcome (expect found "resource management inconsistency") ≫= λ res,
  or_report (on_actor (source ev) res (io_ready (io ev))).

(** [for ev in &mut self.scheduler] *)
Fixpoint io_events (fuel : nat) : prog PoolRuntime Never unit := λ p,
  match fuel with
  | O => Hang
  | S fuel =>
      let '(ev, sch) := sched_next (scheduler p) in
      let p := set_scheduler sch p in
      match ev with
      | None => Ret (Ok tt, p)
      | Some ev => (io_event ev ≫= λ _, io_events fuel) p
      end
  end.

(** One iteration of the loop; [now] is [Instant::now()]. *)
Definition pool_iteration (fuel : nat) (controller : Controller) (now : Z) :
    prog PoolRuntime Never unit :=
  gets pool_timeouts ≫= λ tm,
  of_outcome (ReActor.next tm now) ≫= λ timeout,
  or_report (on_scheduler (wait_io timeout) ≫= λ _, mret tt) ≫= λ _,
  io_events fuel ≫= λ _,
  process_control fuel controller ≫= λ _,
  process_shutdown.

(** [run], for a list of clock readings; the loop of the source has no exit. *)
Definition pool_run (fuel : nat) (controller : Controller) (clock : list Z) :
    prog PoolRuntime Never unit :=
  for_each clock (pool_iteration fuel controller).

(** ** The reactor *)

(** [Pool] of layout.rs *)
Record Pool := { info_id : PoolId; info_scheduler : Sch; info_handler : Hd }.

(** [Reactor], with the threads as the runtimes they were started with. *)
Record Reactor := {
  scheduler_threads : gmap PoolId PoolRuntime;
  reactor_controller : Controller;
  locked : bool;
}.

(** The first loop of [Reactor::new]: a channel for each pool. *)
Fixpoint register_pools (pools : list Pool) :
    prog (Store * Controller) IErr (list (Pool * nat)) :=
  match pools with
  | [] => mret []
  | info :: pools =>
      gets (λ s, new_channel s.1) ≫= λ '(control, s),
      modify (λ sc, (s, sc.2)) ≫= λ _,
      zoom snd (λ c sc, (sc.1, c)) (register_pool (info_id info) control) ≫= λ _,
      register_pools pools ≫= λ rest, mret ((info, control) :: rest)
  end.

(** [Reactor::controller] *)
Definition controller (r : Reactor) : Controller * Reactor :=
  (reactor_controller r,
   {| scheduler_threads := scheduler_threads r; reactor_controller := reactor_controller r;
      locked := true |}).

(** The second loop: a thread for each pool. [HashMap::insert] returns the
    value that was there before, so [ok_or(())] is an error for a new key. *)
Fixpoint spawn_pools (s : Store) (sd : chan unit) (pools : list (Pool * nat)) :
    prog Reactor IErr unit :=
  match pools with
  | [] => mret tt
  | (info, control) :: pools =>
      gets controller ≫= λ '(_, r),
      modify (λ _, r) ≫= λ _,
      gets (λ r, scheduler_threads r !! info_id info) ≫= λ previous,
      modify (λ r, {| scheduler_threads :=
                        <[info_id info := pool_new (info_id info) (info_scheduler info) control
                            (info_handler info) s sd]> (scheduler_threads r);
                      reactor_controller := reactor_controller r; locked := locked r |}) ≫= λ _,
      of_outcome (expect previous
        "controller logic for pool management doesn't account for errors with repeated pool creation")
        ≫= λ _,
      spawn_pools s sd pools
  end.

(** [Reactor::new]; [pools] is [L::default_pools()]. *)
Definition reactor_new (pools : list Pool) : outcome (result IErr Reactor) :=
  '(r, (s, c)) ← register_pools pools (no_channels, controller_new);
  match r with
  | Err e => Ret (Err e)
  | Ok infos =>
      '(r, reactor) ← spawn_pools s unbounded infos
        {| scheduler_threads := ∅; reactor_controller := c; locked := false |};
      Ret (match r with Ok _ => Ok reactor | Err e => Err e end)
  end.

(** *** [ReactorApi for Reactor] *)
Definition reactor_start_actor (r : Reactor) (pool : PoolId) (ctx : ActorContext) : prog Store IErr unit :=
  start_actor (reactor_controller r) pool ctx.
Definition reactor_stop_actor (r : Reactor) (id : ActorId) : prog Store IErr unit :=
  stop_actor (reactor_controller r) id.
Definition reactor_set_timer (r : Reactor) (pool : PoolId) : prog Store IErr unit :=
  set_timer (reactor_controller r) pool.
Definition reactor_send (r : Reactor) (id : ActorId) (cmd : ActorCmd) : prog Store IErr unit :=
  send (reactor_controller r) id cmd.

(** [Reactor::join]: [joined] is what joining the thread of a pool returns, in
    the order of the map. *)
Fixpoint join_threads (pools : list (PoolId * outcome (result unit unit))) : outcome (result IErr unit) :=
  match pools with
  | [] => Ret (Ok tt)
  | (pool, joined) :: pools =>
      r ← joined;
      match r with
      | Err _ => Ret (Err (ThreadError pool))
      | Ok _ => join_threads pools
      end
  end.

(** [Reactor::shutdown]; [shutdown_send] is the sending end of the channel the
    pools receive from. *)
Definition reactor_shutdown (shutdown_send : chan unit)
    (pools : list (PoolId * outcome (result unit unit))) : outcome (result IErr unit) :=
  match (chan_send tt shutdown_send).1 with
  | Err _ => Ret (Err ShutdownChanelBroken)
  | Ok _ => join_threads pools
  end.
End reactor.
