(* ===== verification/ActorSpec.v ===== *)
(** * What the earlier reactor guarantees

    Theorems on re-actor/src/reactor: what [Reactor::new] comes to, and where a
    controller sends. *)

From stdpp Require Import relations.
From S2P Require Import Prelude StdLib Timeouts Resource Channel ActorReactor.

#[local] Open Scope nat_scope.

(** ** The controller *)

Section controller.
Context `{LY : Layout} `{CL : ChannelLaws}.
Context {A Sch Hd : Type} `{AA : !Actor A, SS : !Scheduler Sch A, HH : !ErrHandler Hd}.
Abbreviation Pools := (list (Pool (Sch := Sch) (Hd := Hd))).
Implicit Types (s : Store) (c : Controller).

(** What a channel holds. *)
Definition held s (h : nat) : list (ControlEvent ActorContext ActorId ActorCmd) := queue (cell s h).

(** Every pool has a channel of its own, whose receiver lives; no actor is
    known. *)
Record ctl_inv s c : Prop := {
  ctl_no_actors : actor_map c = ∅;
  ctl_fresh p h : channels c !! p = Some h → h < fresh s;
  ctl_inj p q h : channels c !! p = Some h → channels c !! q = Some h → p = q;
  ctl_live p h : channels c !! p = Some h → has_receiver (cell s h) = true;
}.

Lemma ctl_inv_init : ctl_inv no_channels controller_new.
Proof. split; [done|..]; intros *; simpl; by rewrite lookup_empty. Qed.

Lemma ctl_inv_register s c pool :
  ctl_inv s c → channels c !! pool = None →
  ctl_inv (new_channel s).2
    {| actor_map := actor_map c; channels := <[pool := (new_channel s).1]> (channels c) |}.
Proof.
  intros [Ha Hf Hi Hl] Hp. destruct (unbounded_law (ControlEvent ActorContext ActorId ActorCmd))
    as (_ & Hr & _). split; simpl; [done|..].
  - intros p h [[<- <-]|[Hne E]]%lookup_insert_Some; [lia|]. specialize (Hf _ _ E). lia.
  - intros p q h [[<- <-]|[Hne E]]%lookup_insert_Some [[<- E2]|[Hne2 E2]]%lookup_insert_Some;
      [done|specialize (Hf _ _ E2); lia|specialize (Hf _ _ E); lia|by eapply Hi].
  - intros p h [[<- <-]|[Hne E]]%lookup_insert_Some; [by rewrite decide_True|].
    specialize (Hf _ _ E). rewrite decide_False by lia. by eapply Hl.
Qed.

Lemma register_pools_inv (pools : Pools) s c :
  ctl_inv s c →
  match register_pools pools (s, c) with
  | Ret (r, (s', c')) => ctl_inv s' c' ∧
      match r with
      | Ok infos => infos.*1 = pools ∧ NoDup (map info_id pools) ∧
          (∀ p, p ∈ map info_id pools → channels c !! p = None) ∧
          ∀ p, is_Some (channels c' !! p) ↔ is_Some (channels c !! p) ∨ p ∈ map info_id pools
      | Err e => ∃ p, e = RepeatedPoll p ∧ p ∈ map info_id pools ∧
          (is_Some (channels c !! p) ∨ ¬ NoDup (map info_id pools))
      end
  | _ => False
  end.
Proof.
  revert s c. induction pools as [|info pools IH]; intros s c Hinv; simpl.
  { split; [done|]. split_and!; [done|constructor|by intros p ?%elem_of_nil|].
    intros p. rewrite elem_of_nil. tauto. }
  unfold_prog. unfold register_pool. unfold_prog. case_decide as Hp; simpl.
  - pose proof (ctl_inv_register _ _ _ Hinv Hp) as Hinv1. simpl in Hinv1.
    match type of Hinv1 with ctl_inv ?s1 ?c1 => specialize (IH s1 c1 Hinv1) end.
    match type of IH with context [register_pools pools ?x] =>
      destruct (register_pools pools x) as [[[infos|e] [s' c']]| |] end; simpl; [|..|done|done].
    + destruct IH as (Hi & Hfst & Hnd & Hnew & Hall). split; [done|].
      split_and!; [by rewrite <-Hfst|..].
      * apply list.NoDup_cons. split; [|done]. intros Hin. specialize (Hnew _ Hin).
        simpl in Hnew. by rewrite lookup_insert_eq in Hnew.
      * intros p [->|Hin]%elem_of_cons; [done|]. specialize (Hnew _ Hin). simpl in Hnew.
        by apply lookup_insert_None in Hnew as [? _].
      * intros p. rewrite Hall, elem_of_cons. simpl. rewrite lookup_insert_is_Some'. naive_solver.
    + destruct IH as (Hi & p & -> & Hin & Hrep). split; [done|]. exists p.
      split_and!; [done|by apply elem_of_cons; right|]. simpl in Hrep.
      destruct (decide (p = info_id info)) as [->|Hne].
      * right. intros [??]%list.NoDup_cons. done.
      * destruct Hrep as [Hs|Hnd]; [rewrite lookup_insert_ne in Hs by done; by left|].
        right. intros [??]%list.NoDup_cons. done.
  - split.
    + destruct Hinv as [Ha Hf Hi Hl]. split; simpl; [done|..|done|].
      * intros p h E. specialize (Hf _ _ E). lia.
      * intros p h E. specialize (Hf _ _ E). rewrite decide_False by lia. by eapply Hl.
    + exists (info_id info). split_and!; [done|by apply elem_of_cons; left|left].
      by apply not_eq_None_Some.
Qed.

(** Sending to a channel that is alive queues the message there and nowhere
    else. *)
Lemma send_event_spec s h ev :
  has_receiver (cell s h) = true →
  ∃ s', send_event h ev s = Ret (Ok tt, s') ∧ fresh s' = fresh s ∧
    held s' h = held s h ++ [ev] ∧ (∀ n, n ≠ h → cell s' n = cell s n) ∧
    ∀ n, has_receiver (cell s' n) = has_receiver (cell s n) ∧
         has_sender (cell s' n) = has_sender (cell s n).
Proof.
  intros Hr. unfold send_event, held. pose proof (chan_send_law _ ev (cell s h)) as Hl.
  destruct (chan_send ev (cell s h)) as [r c]. rewrite Hr in Hl.
  destruct Hl as (Hrc & Hsd & -> & Hq). simpl. eexists. split; [done|]. simpl.
  rewrite decide_True by done. split_and!; [done|done|..].
  - intros n Hn. by rewrite decide_False.
  - intros n. case_decide; subst; [|done]. split; congruence.
Qed.

Lemma recv_event_spec s h :
  let '(r, s') := recv_event h s in
  fresh s' = fresh s ∧ (∀ n, n ≠ h → cell s' n = cell s n) ∧
  (∀ n, has_receiver (cell s' n) = has_receiver (cell s n) ∧
        has_sender (cell s' n) = has_sender (cell s n)) ∧
  match held s h with
  | ev :: q => r = Received ev ∧ held s' h = q
  | [] => r = (if has_sender (cell s h) then Empty else Disconnected) ∧ held s' h = []
  end.
Proof.
  unfold recv_event, held. pose proof (try_recv_law _ (cell s h)) as Hl.
  destruct (try_recv (cell s h)) as [r c]. destruct Hl as (Hr & Hs & Hq). simpl.
  rewrite decide_True by done. split_and!; [done|..|done].
  - intros n Hn. by rewrite decide_False.
  - intros n. case_decide; by subst.
Qed.

(** The steps of the threads that share the channels. *)
Inductive api_step c : Store → Store → Prop :=
| api_start pool ctx s r s' : start_actor c pool ctx s = Ret (r, s') → api_step c s s'
| api_stop id s r s' : stop_actor c id s = Ret (r, s') → api_step c s s'
| api_timer pool s r s' : set_timer c pool s = Ret (r, s') → api_step c s s'
| api_send id cmd s r s' : send c id cmd s = Ret (r, s') → api_step c s s'
| api_recv h s : api_step c s (recv_event h s).2.

Lemma ctl_inv_receivers s s' c :
  fresh s' = fresh s → (∀ n, has_receiver (cell s' n) = has_receiver (cell s n)) →
  ctl_inv s c → ctl_inv s' c.
Proof. intros Hf Hr [???Hl]. split; [done|by rewrite Hf|done|]. intros p h E. rewrite Hr. eauto. Qed.

Lemma send_event_inv s c pool h ev r s' :
  ctl_inv s c → channels c !! pool = Some h → send_event h ev s = Ret (r, s') → ctl_inv s' c.
Proof.
  intros Hi Hp Hs. destruct (send_event_spec s h ev) as (s1 & E & Hf & _ & _ & Hr); [by eapply ctl_live|].
  rewrite E in Hs. simplify_eq. eapply (ctl_inv_receivers s); [done| |done]. intros n. apply Hr.
Qed.

Lemma unknown_actor s c id :
  ctl_inv s c → pool_for c id = Err (UnknownActor id).
Proof. intros Hi. unfold pool_for. by rewrite (ctl_no_actors _ _ Hi), lookup_empty. Qed.

Lemma api_step_inv s s' c : ctl_inv s c → api_step c s s' → ctl_inv s' c.
Proof.
  intros Hi. destruct 1 as [pool ctx s r s' E|id s r s' E|pool s r s' E|id cmd s r s' E|h s].
  - unfold start_actor, channel_for in E. unfold_prog.
    destruct (channels c !! pool) eqn:Ep; simplify_eq/=; [by eapply send_event_inv|done].
  - unfold stop_actor in E. rewrite (unknown_actor _ _ _ Hi) in E. unfold_prog. by simplify_eq.
  - unfold set_timer, channel_for in E. unfold_prog.
    destruct (channels c !! pool) eqn:Ep; simplify_eq/=; [by eapply send_event_inv|done].
  - unfold send in E. rewrite (unknown_actor _ _ _ Hi) in E. unfold_prog. by simplify_eq.
  - pose proof (recv_event_spec s h) as Hs. destruct (recv_event h s) as [r s'].
    destruct Hs as (Hf & _ & Hr & _). eapply (ctl_inv_receivers s); [done| |done]. intros n. apply Hr.
Qed.

(** Where the messages of a controller go, at any time: [start_actor]
    queues its request in the channel of its pool, behind what waits there,
    and in no other channel; a pool that was not registered is refused. But
    [stop_actor] and [send] are always refused: nothing ever tells the
    controller of an actor. *)
Theorem controller_routing (pools : Pools) infos s0 s c :
  register_pools pools (no_channels, controller_new) = Ret (Ok infos, (s0, c)) →
  rtc (api_step c) s0 s →
  (∀ pool ctx, if decide (pool ∈ map info_id pools)
     then ∃ h s', channels c !! pool = Some h ∧ start_actor c pool ctx s = Ret (Ok tt, s') ∧
       held s' h = held s h ++ [Connect ctx] ∧
       ∀ q h', channels c !! q = Some h' → q ≠ pool → held s' h' = held s h'
     else start_actor c pool ctx s = Ret (Err (UnknownPool pool), s)) ∧
  ∀ id cmd, stop_actor c id s = Ret (Err (UnknownActor id), s) ∧
            send c id cmd s = Ret (Err (UnknownActor id), s).
Proof.
  intros Hreg Hsteps. pose proof (register_pools_inv pools _ _ ctl_inv_init) as Hi0.
  rewrite Hreg in Hi0. destruct Hi0 as (Hi0 & _ & _ & _ & Hall). simpl in Hall.
  assert (ctl_inv s c) as Hi.
  { clear Hreg. induction Hsteps as [|s0 s1 s2 H1 _ IH]; [done|]. apply IH. by eapply api_step_inv. }
  split.
  - intros pool ctx. unfold start_actor, channel_for. unfold_prog. case_decide as Hin.
    + destruct (proj2 (Hall pool) (or_intror Hin)) as [h Hh]. rewrite Hh. simpl.
      destruct (send_event_spec s h (Connect ctx)) as (s' & -> & _ & Hq & Hoth & _);
        [by eapply ctl_live|].
      exists h, s'. split_and!; [done..|]. intros q h' Hq' Hne. unfold held.
      rewrite Hoth; [done|]. intros ->. apply Hne. by eapply (ctl_inj _ _ Hi).
    + destruct (channels c !! pool) as [h|] eqn:E; [|done].
      exfalso. apply Hin. destruct (proj1 (Hall pool)) as [[? E2]|?]; [by eauto| |done].
      by rewrite lookup_empty in E2.
  - intros id cmd. unfold stop_actor, send. rewrite (unknown_actor _ _ _ Hi). done.
Qed.

(** C37. What [Reactor::new] comes to: a reactor only when the layout has no
    pools; with pools it panics, because it takes the absence of an earlier
    thread for an error, or it reports a pool that is repeated. *)
Theorem reactor_new_outcome (pools : Pools) :
  match pools with
  | [] => ∃ r, reactor_new (A := A) pools = Ret (Ok r) ∧ scheduler_threads r = ∅
  | _ =>
      if decide (NoDup (map info_id pools))
      then reactor_new (A := A) pools = Panic
        "controller logic for pool management doesn't account for errors with repeated pool creation"
      else ∃ p, reactor_new (A := A) pools = Ret (Err (RepeatedPoll p)) ∧ p ∈ map info_id pools
  end.
Proof.
  pose proof (register_pools_inv pools _ _ ctl_inv_init) as Hi. unfold reactor_new. unfold_prog.
  destruct (register_pools pools _) as [[[infos|e] [s c]]| |]; [..|done|done].
  - destruct Hi as (_ & Hfst & Hnd & _). destruct pools as [|info pools].
    + apply fmap_nil_inv in Hfst as ->. simpl. eauto.
    + destruct infos as [|[info' ch] infos]; simplify_eq/=. by rewrite decide_True.
  - destruct Hi as (_ & p & -> & Hin & Hrep).
    assert (¬ NoDup (map info_id pools)) as Hnd.
    { destruct Hrep as [Hs|?]; [|done]. simpl in Hs. rewrite lookup_empty in Hs. by destruct Hs. }
    destruct pools as [|info pools]; [by apply elem_of_nil in Hin|].
    rewrite decide_False by done. eauto.
Qed.
End controller.
