(* ===== verification/ActorPool.v ===== *)
(** * The loop of a pool

    An iteration of [PoolRuntime::run] returns, whatever its actors, scheduler
    and handler report, and keeps the actors and the scheduler consistent: every
    source the scheduler may report is an actor of the pool, so that the lookup
    of an event's actor never fails. *)

From S2P Require Import Prelude StdLib Timeouts Resource Channel ActorReactor ActorSpec.

#[local] Open Scope nat_scope.

(** ** What a pool relies on *)

(** A call that leaves channel [h] alone. *)
Definition calm `{Layout} `{ChannelLaws} (h : nat) (s s' : Store) : Prop :=
  held s' h = held s h ∧ has_sender (cell s' h) = has_sender (cell s h).

#[global] Instance calm_preorder `{Layout} `{ChannelLaws} h : PreOrder (calm h).
Proof. split; [done|]. intros s1 s2 s3 [] []. split; congruence. Qed.

(** The methods of an actor return, keep its id, and do not send to the pool
    the actor runs in. *)
Class ActorLaws (A : Type) (h : nat) `{LY : Layout, CL : ChannelLaws, !Actor A} : Prop := {
  actor_with_law ctx c s : wp (actor_with ctx c) (λ _ s', calm h s s') s;
  io_ready_law ev a s :
    wp (io_ready ev) (λ _ s', actor_id s'.1 = actor_id a ∧ calm h s s'.2) (a, s);
  handle_cmd_law cmd a s :
    wp (handle_cmd cmd) (λ _ s', actor_id s'.1 = actor_id a ∧ calm h s s'.2) (a, s);
  handle_err_law e a s :
    wp (handle_err e) (λ _ s', actor_id s'.1 = actor_id a ∧ calm h s s'.2) (a, s);
}.

(** A scheduler watches a set of ids and queues events from it. *)
Class SchedulerLaws (Sch A : Type) `{LY : Layout, CH : Channel, !Actor A, !Scheduler Sch A} := {
  watching : Sch → gset ActorId;
  queued : Sch → list (IoSrc ActorId);
  sched_next_law sch :
    watching (sched_next sch).2 = watching sch ∧
    match queued sch with
    | [] => (sched_next sch).1 = None ∧ queued (sched_next sch).2 = []
    | ev :: evs => (sched_next sch).1 = Some ev ∧ queued (sched_next sch).2 = evs
    end;
  sched_register_law a sch :
    wp (sched_register a) (λ _ sch', watching sch' ⊆ {[actor_id a]} ∪ watching sch ∧
      queued sch' = queued sch) sch;
  sched_unregister_law id sch :
    wp (sched_unregister id) (λ _ sch', watching sch' ⊆ watching sch ∖ {[id]} ∧
      queued sch' = queued sch) sch;
  wait_io_law t sch :
    wp (wait_io t) (λ _ sch', watching sch' = watching sch ∧
      ∃ evs, queued sch' = queued sch ++ evs ∧ Forall (λ ev, source ev ∈ watching sch) evs) sch;
}.

Class ErrHandlerLaws (Hd : Type) `{LY : Layout, !ErrHandler Hd} : Prop :=
  on_error_law e (h : Hd) : ∃ h', on_error e h = Ret h'.

(** ** The invariant *)

Section pool.
Context `{LY : Layout} `{CL : ChannelLaws}.
Context {A Sch Hd : Type} `{AA : !Actor A, SS : !Scheduler Sch A, HH : !ErrHandler Hd}.
Context (h : nat) `{AL : !ActorLaws A h, SL : !SchedulerLaws Sch A, HL : !ErrHandlerLaws Hd}.
Abbreviation Runtime := (PoolRuntime (A := A) (Sch := Sch) (Hd := Hd)).
Implicit Types (p : Runtime).

Record consistent (acts : gmap ActorId A) (sch : Sch) : Prop := {
  con_ids id a : acts !! id = Some a → actor_id a = id;
  con_watching id : id ∈ watching sch → is_Some (acts !! id);
  con_queued : Forall (λ ev, is_Some (acts !! source ev)) (queued sch);
}.

(** What stays the same while a pool handles events. *)
Record keeps p p' : Prop := {
  keeps_control : control p' = control p;
  keeps_channel : control p = h → calm h (store p) (store p');
  keeps_shutdown : has_sender (shutdown_chan p') = has_sender (shutdown_chan p);
  keeps_timeouts : pool_timeouts p' = pool_timeouts p;
}.

#[local] Instance keeps_preorder : PreOrder keeps.
Proof.
  split; [done|]. intros p1 p2 p3 [] []. split; [congruence|..|congruence|congruence].
  intros Hc. etransitivity; [auto|]. apply keeps_channel1. congruence.
Qed.

Definition stable p p' : Prop :=
  keeps p p' ∧ (consistent (actors p) (scheduler p) → consistent (actors p') (scheduler p')) ∧
  queued (scheduler p') = queued (scheduler p).

#[local] Instance stable_preorder : PreOrder stable.
Proof.
  split; [done|]. intros p1 p2 p3 (?&?&?) (?&?&?). split; [by etransitivity|].
  split; [auto|congruence].
Qed.

(** Programs of a pool that return with a stable state. *)
Definition returns {E B} (m : prog Runtime E B) : Prop := ∀ p, wp m (λ _ p', stable p p') p.

Lemma returns_bind {E B C} (m : prog Runtime E B) (k : B → prog Runtime E C) :
  returns m → (∀ b, returns (k b)) → returns (m ≫= k).
Proof.
  intros Hm Hk p. apply wp_bind. eapply wp_mono; [apply Hm|]. intros [b|e] p1 H1; [|done].
  eapply wp_mono; [apply Hk|]. intros r p2 H2. by etransitivity.
Qed.

Lemma returns_attempt {E F B} (m : prog Runtime E B) :
  returns m → returns (attempt m : prog Runtime F _).
Proof. intros Hm p. apply wp_attempt, Hm. Qed.

Lemma returns_ret {E B} (b : B) : returns (mret b : prog Runtime E B).
Proof. intros p. by apply wp_ret. Qed.

Lemma returns_gets {E B} (f : Runtime → B) : returns (gets f : prog Runtime E B).
Proof. intros p. by apply wp_gets. Qed.

(** The handler takes any error, and nothing else changes. *)
Lemma report_wp err p (Q : result Never unit → Runtime → Prop) :
  (∀ h', Q (Ok tt) (set_handler h' p)) → wp (report err) Q p.
Proof.
  intros HQ. unfold wp, report. destruct (on_error_law (ActorError (pool_id p) err) (handler p))
    as [h' ->]. apply HQ.
Qed.

Lemma returns_report err : returns (report err).
Proof. intros p. apply report_wp. intros h'. by split. Qed.

Lemma returns_or_report m : returns m → returns (or_report m).
Proof.
  intros Hm. apply returns_bind; [by apply returns_attempt|].
  intros [[]|err]; [apply returns_ret|apply returns_report].
Qed.

(** ** Actors *)

(** A call on an actor, whoever handles its error. *)
Lemma or_handle_law m a s :
  wp m (λ _ s', actor_id s'.1 = actor_id a ∧ calm h s s'.2) (a, s) →
  wp (or_handle m) (λ _ s', actor_id s'.1 = actor_id a ∧ calm h s s'.2) (a, s).
Proof.
  intros Hm. unfold or_handle. wp_steps. eapply wp_mono; [exact Hm|].
  intros [[]|err] [a' s'] [Hid Hc]; [by wp_steps|].
  eapply wp_mono; [apply handle_err_law|]. simpl in *. intros r s2 [Hid2 Hc2].
  split; [congruence|by etransitivity].
Qed.

Lemma consistent_update acts sch id a a' :
  consistent acts sch → acts !! id = Some a → actor_id a' = actor_id a →
  consistent (<[id := a']> acts) sch.
Proof.
  intros [Hi Hw Hq] Ha Hid.
  assert (∀ i, is_Some (acts !! i) → is_Some (<[id := a']> acts !! i)) as Hs.
  { intros i. rewrite lookup_insert_is_Some'. auto. }
  split; [|auto|by eapply Forall_impl; [|exact Hq]; intros ??; auto].
  intros i x [[<- <-]|[Hne E]]%lookup_insert_Some; [by rewrite Hid, (Hi _ _ Ha)|by apply Hi].
Qed.

Lemma on_actor_stable id a m p :
  actors p !! id = Some a →
  (∀ s, wp m (λ _ s', actor_id s'.1 = actor_id a ∧ calm h s s'.2) (a, s)) →
  wp (or_report (on_actor id a m)) (λ _ p', stable p p') p.
Proof.
  intros Ha Hm. unfold or_report, on_actor. wp_steps. apply wp_zoom.
  eapply wp_mono; [apply or_handle_law, Hm|]. intros r s' [Hid Hc]. simpl in Hc.
  match goal with |- wp _ _ ?p1 => assert (stable p p1) as H1 end.
  { split; [by split|split; [|done]]. simpl. intros Hcon. by eapply consistent_update. }
  destruct r as [[]|err]; [by wp_steps|].
  eapply wp_mono; [apply returns_report|]. intros r p2 H2. by etransitivity.
Qed.

(** The lookup of the actor of an event succeeds. *)
Lemma io_event_stable ev p :
  is_Some (actors p !! source ev) → wp (io_event ev) (λ _ p', stable p p') p.
Proof.
  intros [a Ha]. unfold io_event. wp_steps. rewrite Ha. simpl. wp_steps.
  apply on_actor_stable; [done|]. intros s. apply io_ready_law.
Qed.

(** All queued events are handled. *)
Lemma io_events_total fuel p :
  consistent (actors p) (scheduler p) → length (queued (scheduler p)) < fuel →
  wp (io_events fuel) (λ _ p', keeps p p' ∧ consistent (actors p') (scheduler p') ∧
    queued (scheduler p') = []) p.
Proof.
  revert p. induction fuel as [|fuel IH]; intros p Hcon Hf; [lia|]. unfold wp. simpl.
  destruct (sched_next_law (scheduler p)) as [Hw Hq].
  destruct (sched_next (scheduler p)) as [o sch']. simpl in Hw, Hq.
  destruct (queued (scheduler p)) as [|ev evs] eqn:E; destruct Hq as [-> Hq].
  - split; [by split|split; [|done]]. destruct Hcon as [Hi Hwt Hqu].
    split; simpl; [done|by rewrite Hw|by rewrite Hq].
  - pose proof (con_queued _ _ Hcon) as Hqu. rewrite E in Hqu. apply Forall_cons_iff in Hqu as [He Hes].
    set (p1 := set_scheduler sch' p).
    assert (consistent (actors p1) (scheduler p1)) as Hcon1.
    { split; simpl; [apply Hcon|rewrite Hw; apply Hcon|by rewrite Hq]. }
    assert (keeps p p1) as Hk1 by done.
    change (wp (io_event ev ≫= λ _, io_events fuel) (λ _ p', keeps p p' ∧
      consistent (actors p') (scheduler p') ∧ queued (scheduler p') = []) p1).
    apply wp_bind. eapply wp_mono; [by apply io_event_stable|].
    intros [[]|[]] p2 (Hk2 & Hc2 & Hq2). simpl in Hq2.
    eapply wp_mono; [apply IH; [auto|rewrite Hq2, Hq; simpl in Hf; lia]|].
    intros r p3 (Hk3 & ? & ?). split; [|done]. etransitivity; [exact Hk1|]. by etransitivity.
Qed.

(** ** Control events *)

Definition settled p p' : Prop :=
  keeps p p' ∧ consistent (actors p') (scheduler p') ∧ queued (scheduler p') = [].

Lemma consistent_connect acts sch sch' a :
  consistent acts sch → queued sch' = [] → watching sch' ⊆ {[actor_id a]} ∪ watching sch →
  consistent (<[actor_id a := a]> acts) sch'.
Proof.
  intros [Hi Hw _] Hq Hsub. split; [..|by rewrite Hq].
  - intros i x [[<- <-]|[_ E]]%lookup_insert_Some; [done|by apply Hi].
  - intros i Hin. apply lookup_insert_is_Some'. apply Hsub in Hin. set_solver.
Qed.

Lemma connect_actor_settled c ctx p :
  settled p p → wp (connect_actor c ctx) (λ _ p', settled p p') p.
Proof.
  intros (_ & Hcon & Hq). unfold connect_actor. wp_steps. apply wp_zoom.
  eapply wp_mono; [apply (actor_with_law (h := h))|]. intros [a|err] s' Hc.
  2:{ apply report_wp. intros h'. by split; [split|]. }
  wp_steps. unfold on_scheduler. apply wp_zoom. eapply wp_mono; [apply sched_register_law|].
  intros r sch' [Hsub Hq']. simpl in Hsub, Hq' |- *.
  assert (∀ a' s2, actor_id a' = actor_id a → calm h s' s2 → ∀ p1,
    actors p1 = <[actor_id a' := a']> (actors p) → scheduler p1 = sch' → store p1 = s2 → control p1 = control p →
    shutdown_chan p1 = shutdown_chan p → pool_timeouts p1 = pool_timeouts p →
    settled p p1) as Hend.
  { intros a' s2 Hid Hc2 p1 Ha Hs Hst ? Hsd ?. split; [|split].
    - split; [done|rewrite Hst; intros _; by etransitivity|by rewrite Hsd|done].
    - rewrite Ha, Hs. eapply consistent_connect; [done|congruence|by rewrite Hid].
    - rewrite Hs. congruence. }
  destruct r as [[]|err]; wp_steps; [by apply (Hend a s')|].
  pose proof (handle_err_law (h := h) err a s') as He. unfold wp in He.
  destruct (handle_err err (a, s')) as [[r [a2 s2]]| |]; [|done..]. destruct He as [Hid Hc2].
  wp_steps. destruct r as [[]|e2]; wp_steps; [by apply (Hend a2 s2)|].
  apply report_wp. intros h'. wp_steps. by apply (Hend a2 s2).
Qed.

(** Handling a control message settles the pool again. *)
Lemma control_event_settled c ev p :
  settled p p → wp (control_event c ev) (λ _ p', settled p p') p.
Proof.
  intros Hp. pose proof Hp as (_ & Hcon & Hq).
  destruct ev as [ctx|id| |id data]; simpl; [by apply connect_actor_settled|..].
  - unfold or_report, on_scheduler. wp_steps. apply wp_zoom.
    eapply wp_mono; [apply sched_unregister_law|]. intros r sch' [Hsub Hq'].
    assert (∀ p1, actors p1 = delete id (actors p) → scheduler p1 = sch' → store p1 = store p →
      control p1 = control p → shutdown_chan p1 = shutdown_chan p →
      pool_timeouts p1 = pool_timeouts p →
      settled p p1) as Hend.
    { intros p1 Ha Hs Hst ? Hsd ?. split; [|split].
      - split; [done|by rewrite Hst|by rewrite Hsd|done].
      - rewrite Ha, Hs. destruct Hcon as [Hi Hw _]. split; [..|by rewrite Hq', Hq].
        + intros i x [_ E]%lookup_delete_Some. by apply Hi.
        + intros i Hin. apply Hsub in Hin. apply elem_of_difference in Hin as [Hin Hne].
          rewrite lookup_delete_ne by (intros ->; by apply Hne, elem_of_singleton). by apply Hw.
      - by rewrite Hs, Hq'. }
    simpl. destruct r as [[]|err]; wp_steps; [by apply Hend|].
    apply report_wp. intros h'. wp_steps. by apply Hend.
  - by wp_steps.
  - wp_steps. destruct (actors p !! id) as [a|] eqn:Ha; [|by wp_steps].
    eapply wp_mono; [eapply on_actor_stable; [exact Ha|intros s; apply handle_cmd_law]|].
    intros r p' (Hk & Hc & Hq'). split; [done|split; [auto|congruence]].
Qed.

Lemma process_control_total fuel c p :
  settled p p → control p = h → has_sender (cell (store p) h) = true →
  length (held (store p) h) < fuel →
  wp (process_control fuel c) (λ _ p', settled p' p' ∧ control p' = h ∧
    has_sender (cell (store p') h) = true ∧ has_sender (shutdown_chan p') = has_sender (shutdown_chan p) ∧
    held (store p') h = []) p.
Proof.
  revert p. induction fuel as [|fuel IH]; intros p Hp Hctl Hs Hf; [lia|]. unfold wp. simpl.
  rewrite Hctl. pose proof (recv_event_spec (store p) h) as Hr.
  destruct (recv_event h (store p)) as [got s]. destruct Hr as (_ & _ & Hse & Hq).
  destruct (held (store p) h) as [|ev evs] eqn:E; destruct Hq as [-> Hq].
  - rewrite Hs. destruct Hp as (_ & ? & ?). split_and!; try done. simpl. by rewrite (proj2 (Hse h)).
  - set (p1 := set_store s p).
    change (wp (control_event c ev ≫= λ _, process_control fuel c) (λ _ p', settled p' p' ∧
      control p' = h ∧ has_sender (cell (store p') h) = true ∧
      has_sender (shutdown_chan p') = has_sender (shutdown_chan p) ∧ held (store p') h = []) p1).
    assert (settled p1 p1) as Hp1 by (by destruct Hp as (_ & ? & ?)).
    apply wp_bind. eapply wp_mono; [by apply control_event_settled|].
    intros [[]|[]] p2 (Hk2 & Hc2 & Hq2).
    destruct (keeps_channel _ _ Hk2 Hctl) as [Hh2 Hs2].
    eapply wp_mono; [apply IH|].
    + by split.
    + by rewrite (keeps_control _ _ Hk2).
    + rewrite Hs2. simpl. by rewrite (proj2 (Hse h)).
    + rewrite Hh2. simpl. rewrite Hq. simpl in Hf. lia.
    + intros r p3 (? & ? & ? & Hsd & ?). split_and!; try done. by rewrite Hsd, (keeps_shutdown _ _ Hk2).
Qed.

(** ** An iteration *)

(** Between iterations no event is queued, and the ends of the channels that
    the runtime or its reactor hold are alive. *)
Definition pool_inv p : Prop :=
  consistent (actors p) (scheduler p) ∧ queued (scheduler p) = [] ∧
  control p = h ∧ has_sender (cell (store p) h) = true ∧ has_sender (shutdown_chan p) = true.

Lemma next_returns (tm : TimeoutManager unit) now : ∃ t, ReActor.next tm now = Ret t.
Proof.
  unfold ReActor.next, Timeouts.next. destruct (list.last _) as [[k t]|]; [|eauto].
  destruct (_ <=? _)%Z; simpl; eauto.
Qed.

Lemma process_shutdown_ok p :
  has_sender (shutdown_chan p) = true →
  wp process_shutdown (λ _ p', ∃ sd, p' = set_shutdown sd p ∧ has_sender sd = true) p.
Proof.
  intros Hs. unfold wp, process_shutdown. pose proof (try_recv_law _ (shutdown_chan p)) as Hl.
  destruct (try_recv (shutdown_chan p)) as [r sd]. destruct Hl as (_ & Hse & Hq).
  rewrite Hs in Hse, Hq. destruct (queue (shutdown_chan p)); destruct Hq as [-> _]; eauto.
Qed.

(** The poll of an iteration: whatever it reports, the pool is consistent. *)
Lemma wait_consistent t p :
  pool_inv p →
  wp (or_report (on_scheduler (wait_io t) ≫= λ _, mret tt)) (λ _ p',
    keeps p p' ∧ consistent (actors p') (scheduler p')) p.
Proof.
  intros (Hcon & Hq & _). unfold or_report, on_scheduler. wp_steps. apply wp_zoom.
  eapply wp_mono; [apply wait_io_law|]. intros r sch' (Hw & evs & Hq' & Hevs).
  assert (consistent (actors p) sch') as Hend.
  { destruct Hcon as [Hi Hwt _]. split; [done|by rewrite Hw|].
    rewrite Hq', Hq. eapply Forall_impl; [|exact Hevs]. intros ev. apply Hwt. }
  destruct r as [b|err]; wp_steps; [by split|]. apply report_wp. intros h'. by split.
Qed.

(** The number of events is known once the poll has returned. *)
Lemma pool_iteration_total c now p :
  pool_inv p → ∃ n, ∀ fuel, n ≤ fuel →
    wp (pool_iteration fuel c now) (λ _ p', pool_inv p' ∧ held (store p') h = []) p.
Proof.
  intros Hinv. pose proof Hinv as (_ & _ & Hctl & Hs & Hsd).
  destruct (next_returns (pool_timeouts p) now) as [t Ht].
  pose proof (wait_consistent t p Hinv) as Hw. unfold wp in Hw.
  destruct (or_report _ p) as [[r p1]| |] eqn:Ew; [|done..]. destruct Hw as [Hk1 Hc1].
  exists (S (length (queued (scheduler p1)) + length (held (store p) h))). intros fuel Hf.
  unfold pool_iteration. wp_steps. rewrite Ht. wp_steps. unfold wp at 1. rewrite Ew.
  destruct r as [[]|[]]. apply wp_bind. eapply wp_mono; [apply io_events_total; [done|lia]|].
  intros [[]|[]] p2 (Hk2 & Hc2 & Hq2).
  assert (keeps p p2) as [Hk3 Hk4 Hk5 _] by (by etransitivity). destruct (Hk4 Hctl) as [Hh Hse].
  wp_steps. eapply wp_mono; [apply process_control_total|].
  - by split.
  - congruence.
  - congruence.
  - rewrite Hh. lia.
  - intros [[]|[]] p3 ((_ & Hc3 & Hq3) & Hctl3 & Hs3 & Hsd3 & Hh3).
    eapply wp_mono; [apply process_shutdown_ok; congruence|].
    intros _ p4 (sd & -> & Hsd4). split; [by split_and!|done].
Qed.

(** More fuel gives the same run. *)
Lemma io_events_mono : fuel_mono (io_events (A := A) (Sch := Sch) (Hd := Hd)).
Proof.
  intros f. induction f as [|f IH]; intros [|f'] p x Hf Hr; [done..|lia|]. simpl in Hr |- *.
  destruct (sched_next (scheduler p)) as [[ev|] sch]; [|done]. revert Hr. unfold mbind, prog_bind.
  destruct (io_event ev _) as [[[[]|[]] p1]| |]; [|done..]. apply IH. lia.
Qed.

Lemma process_control_mono c :
  fuel_mono (λ f, process_control (A := A) (Sch := Sch) (Hd := Hd) f c).
Proof.
  intros f. induction f as [|f IH]; intros [|f'] p x Hf Hr; [done..|lia|]. simpl in Hr |- *.
  destruct (recv_event (control p) (store p)) as [[ev| |] s]; [|done..]. revert Hr.
  unfold mbind, prog_bind.
  destruct (control_event c ev _) as [[[[]|[]] p1]| |]; [|done..]. apply IH. lia.
Qed.

Lemma pool_iteration_mono c now :
  fuel_mono (λ f, pool_iteration (A := A) (Sch := Sch) (Hd := Hd) f c now).
Proof.
  unfold pool_iteration. repeat (apply fuel_mono_bind; [|intros]);
    auto using fuel_mono_const, io_events_mono, process_control_mono.
Qed.

(** The whole run; the number of events of an iteration is known as it goes. *)
Lemma pool_run_total c clock p :
  pool_inv p → ∃ n, ∀ fuel, n ≤ fuel →
    wp (pool_run fuel c clock) (λ _ p', pool_inv p' ∧ (clock ≠ [] → held (store p') h = [])) p.
Proof.
  intros Hinv.
  cut (∃ n, ∀ fuel, n ≤ fuel →
    wp (pool_run fuel c clock) (λ _ p', pool_inv p' ∧
      (clock ≠ [] ∨ held (store p) h = [] → held (store p') h = [])) p).
  { intros [n Hn]. exists n. intros fuel Hf. eapply wp_mono; [by apply Hn|]. naive_solver. }
  revert p Hinv. induction clock as [|now clock IH]; intros p Hinv.
  { exists 0. intros fuel _. apply wp_ret. naive_solver. }
  destruct (pool_iteration_total c now p Hinv) as [n1 Hn1].
  pose proof (Hn1 n1 (Nat.le_refl _)) as H1. unfold wp in H1.
  destruct (pool_iteration n1 c now p) as [[[[]|[]] p1]| |] eqn:E1; [|done..].
  destruct H1 as [Hinv1 Hh1]. destruct (IH p1 Hinv1) as [n2 Hn2].
  exists (n1 + n2). intros fuel Hf. unfold pool_run. simpl. apply wp_bind. unfold wp at 1.
  rewrite (pool_iteration_mono c now n1 fuel p _ ltac:(lia) E1).
  eapply wp_mono; [apply (Hn2 fuel); lia|]. intros r p2 [Hinv2 Hh2]. split; [done|]. auto.
Qed.

(** A pool's loop never stops and never panics, as long as its actors, its
    scheduler and its handler keep their promises: every iteration returns,
    with fuel for the events it meets, leaves the control channel empty, and
    keeps the invariant that every source the scheduler watches is an actor of
    the pool. So the lookup that would panic with "resource management
    inconsistency" succeeds, also for actors whose registration failed and for
    events of the iteration in which an actor is disconnected. *)
Theorem pool_run_safe c clock p :
  pool_inv p → ∃ n, ∀ fuel, n ≤ fuel →
    wp (pool_run fuel c clock) (λ _ p', pool_inv p' ∧ (clock ≠ [] → held (store p') h = [])) p.
Proof. apply pool_run_total. Qed.
End pool.
