(* ===== verification/ActorSched.v ===== *)
(** * Schedulers of the earlier reactor: re-actor/src/schedulers

    [PopolScheduler] and [PollingScheduler] adapt the libraries popol and
    polling to the trait [Scheduler]. The libraries are classes, with the
    behaviour they document as laws. *)

From stdpp Require Import relations.
From S2P Require Import Prelude StdLib Resource Channel ActorReactor ActorSpec ActorPool.

#[local] Open Scope Z_scope.

(** [R::Error: From<io::Error>], [R::Id: AsRawFd] and [R::Id: FromRawFd] *)
Class RawIds `{Layout} := {
  err_from_io : io_error → ActorErr;
  as_raw : ActorId → Z;
  from_raw : Z → ActorId;
}.
(** Descriptors are [i32]s, and determine the id. *)
Class RawIdsLaws `{RawIds} : Prop := {
  as_raw_range id : - 2 ^ 31 ≤ as_raw id < 2 ^ 31;
  from_as_raw id : from_raw (as_raw id) = id;
}.

(** ** popol *)

Class KeyedPopol (K : Type) := {
  kp_poll : Type;
  kp_new : kp_poll;
  kp_get : K → kp_poll → bool;
  kp_register : K → Z → Z → kp_poll → kp_poll;
  kp_unregister : K → kp_poll → kp_poll;
  kp_wait_timeout : option Z → kp_poll → io_result bool * kp_poll;
  kp_events : kp_poll → list (K * Z);
  kp_is_readable : Z → bool;
  kp_is_writable : Z → bool;
  kp_ALL : Z;
}.

(** A set of sources; events are those of registered sources. *)
Class KeyedPopolLaws (K : Type) `{KeyedPopol K, Countable K} := {
  kp_keys : kp_poll → gset K;
  kp_keys_new : kp_keys kp_new = ∅;
  kp_get_law k p : kp_get k p = bool_decide (k ∈ kp_keys p);
  kp_register_law k fd ev p : kp_keys (kp_register k fd ev p) = {[k]} ∪ kp_keys p;
  kp_unregister_law k p : kp_keys (kp_unregister k p) = kp_keys p ∖ {[k]};
  kp_wait_law t p : kp_keys (kp_wait_timeout t p).2 = kp_keys p;
  kp_events_law p : Forall (λ e, e.1 ∈ kp_keys p) (kp_events p);
}.

Section popol.
Context `{LY : Layout} `{CH : Channel} {A : Type} `{AA : !Actor A} `{RI : !RawIds}.
Context `{KP : !KeyedPopol ActorId}.

Record PopolScheduler := { poll : kp_poll; events : list (IoSrc ActorId) }.

Definition popol_new : PopolScheduler := {| poll := kp_new; events := [] |}.

Definition popol_has_actor (id : ActorId) (s : PopolScheduler) : bool := kp_get id (poll s).

Definition popol_register (resource : A) : prog PopolScheduler ActorErr unit :=
  let id := actor_id resource in
  modify (λ s, {| poll := kp_register id (as_raw id) kp_ALL (poll s); events := events s |}).

Definition popol_unregister (id : ActorId) : prog PopolScheduler ActorErr unit :=
  modify (λ s, {| poll := kp_unregister id (poll s); events := events s |}).

Definition popol_wait_io (timeout : option Z) : prog PopolScheduler ActorErr bool := λ s,
  let '(r, p) := kp_wait_timeout timeout (poll s) in
  let s := {| poll := p; events := events s |} in
  match r with
  | Err e => Ret (Err (err_from_io e), s)
  | Ok true => Ret (Ok true, s)
  | Ok false =>
      Ret (Ok false, {| poll := p; events := events s ++
        map (λ '(id, ev), {| source := id; io := {| IoEv.is_readable := kp_is_readable ev;
                                                    IoEv.is_writable := kp_is_writable ev |} |})
            (kp_events p) |})
  end.

Definition popol_next (s : PopolScheduler) : option (IoSrc ActorId) * PopolScheduler :=
  match events s with
  | [] => (None, s)
  | ev :: evs => (Some ev, {| poll := poll s; events := evs |})
  end.

#[export] Instance popol_scheduler : Scheduler PopolScheduler A := {|
  has_actor := popol_has_actor;
  sched_register := popol_register;
  sched_unregister := popol_unregister;
  wait_io := popol_wait_io;
  sched_next := popol_next;
|}.

(** The popol scheduler keeps the promises a pool relies on. *)
#[export] Instance popol_scheduler_laws `{KL : !KeyedPopolLaws ActorId} :
  SchedulerLaws PopolScheduler A.
Proof.
  refine {| watching s := kp_keys (poll s); queued := events |}; simpl.
  - intros [p [|ev evs]]; done.
  - intros a s. unfold popol_register. wp_steps. by rewrite kp_register_law.
  - intros id s. unfold popol_unregister. wp_steps. by rewrite kp_unregister_law.
  - intros t s. unfold wp, popol_wait_io. pose proof (kp_wait_law t (poll s)) as Hw.
    destruct (kp_wait_timeout t (poll s)) as [[[]|e] p]; simpl in Hw |- *; (split; [done|]).
    + exists []. by rewrite app_nil_r.
    + eexists. split; [done|]. apply Forall_map. rewrite <-Hw.
      eapply Forall_impl; [|apply kp_events_law]. by intros [].
    + exists []. by rewrite app_nil_r.
Defined.
End popol.

(** ** polling *)

Record PollEvent := { key : Z; readable : bool; writable : bool }.

(** [Event::all] *)
Definition event_all (key : Z) : PollEvent := {| key := key; readable := true; writable := true |}.

Class Polling := {
  pl_poller : Type;
  pl_new : io_result pl_poller;
  pl_add : Z → PollEvent → prog pl_poller io_error unit;
  pl_delete : Z → prog pl_poller io_error unit;
  (** The events it adds to the vector it is given. *)
  pl_wait : option Z → prog pl_poller io_error (list PollEvent);
}.

(** [raw as usize] and [ev.key as RawFd] *)
Definition as_usize (raw : Z) : Z := raw mod 2 ^ 64.
Definition as_raw_fd (key : Z) : Z := (key + 2 ^ 31) mod 2 ^ 32 - 2 ^ 31.

Section polling.
Context `{LY : Layout} `{CH : Channel} {A : Type} `{AA : !Actor A} `{RI : !RawIds} `{PL : Polling}.

Record PollingScheduler := {
  pl_poll : pl_poller;
  pl_actors : gset ActorId;
  pl_events : list (IoSrc ActorId);
  read_events : list PollEvent;
}.

Definition polling_new : io_result PollingScheduler :=
  p ← pl_new;
  Ok {| pl_poll := p; pl_actors := ∅; pl_events := []; read_events := [] |}.

Definition on_poll {B} (m : prog pl_poller io_error B) : prog PollingScheduler ActorErr B :=
  with_err err_from_io (zoom pl_poll
    (λ p s, {| pl_poll := p; pl_actors := pl_actors s; pl_events := pl_events s;
               read_events := read_events s |}) m).

Definition set_pl_actors (f : gset ActorId → gset ActorId) (s : PollingScheduler) : PollingScheduler :=
  {| pl_poll := pl_poll s; pl_actors := f (pl_actors s); pl_events := pl_events s;
     read_events := read_events s |}.

Definition polling_has_actor (id : ActorId) (s : PollingScheduler) : bool :=
  bool_decide (id ∈ pl_actors s).

Definition polling_register (resource : A) : prog PollingScheduler ActorErr unit :=
  let id := actor_id resource in
  let raw := as_raw id in
  on_poll (pl_add raw (event_all (as_usize raw))) ≫= λ _,
  modify (set_pl_actors (λ x, {[actor_id resource]} ∪ x)).

Definition polling_unregister (id : ActorId) : prog PollingScheduler ActorErr unit :=
  modify (set_pl_actors (λ x, x ∖ {[id]})) ≫= λ _,
  on_poll (pl_delete (as_raw id)).

Definition io_src (ev : PollEvent) : IoSrc ActorId :=
  {| source := from_raw (as_raw_fd (key ev));
     io := {| IoEv.is_readable := readable ev; IoEv.is_writable := writable ev |} |}.

Definition polling_wait_io (timeout : option Z) : prog PollingScheduler ActorErr bool :=
  on_poll (pl_wait timeout) ≫= λ evs,
  modify (λ s, {| pl_poll := pl_poll s; pl_actors := pl_actors s; pl_events := pl_events s;
                  read_events := read_events s ++ evs |}) ≫= λ _,
  gets read_events ≫= λ evs,
  if decide (evs = []) then mret true else
  modify (λ s, {| pl_poll := pl_poll s; pl_actors := pl_actors s;
                  pl_events := pl_events s ++ map io_src evs; read_events := [] |}) ≫= λ _,
  mret false.

Definition polling_next (s : PollingScheduler) : option (IoSrc ActorId) * PollingScheduler :=
  match pl_events s with
  | [] => (None, s)
  | ev :: evs => (Some ev, {| pl_poll := pl_poll s; pl_actors := pl_actors s; pl_events := evs;
                              read_events := read_events s |})
  end.

#[export] Instance polling_scheduler : Scheduler PollingScheduler A := {|
  has_actor := polling_has_actor;
  sched_register := polling_register;
  sched_unregister := polling_unregister;
  wait_io := polling_wait_io;
  sched_next := polling_next;
|}.
End polling.
