(* ===== verification/ActorOnce.v ===== *)
(** * Oneshot interest of the polling scheduler

    polling arms a source when it is added and disarms it with the event it
    reports. [PollingScheduler] adds the source of an actor when the actor is
    registered and never arms it again, so an actor gets at most one event for
    each time it is registered. *)

From S2P Require Import Prelude StdLib Resource Channel ActorReactor ActorSched.

#[local] Open Scope Z_scope.

(** [raw as usize as RawFd] gives back a 32-bit [raw]: a negative descriptor is
    sign-extended, and truncated again. *)
Lemma raw_fd_roundtrip raw : - 2 ^ 31 ≤ raw < 2 ^ 31 → as_raw_fd (as_usize raw) = raw.
Proof.
  intros Hr. unfold as_raw_fd, as_usize.
  assert ((raw mod 2 ^ 64 + 2 ^ 31) mod 2 ^ 32 = raw + 2 ^ 31) as ->; [|lia].
  rewrite (Z.mod_eq raw (2 ^ 64)) by lia.
  replace (raw - 2 ^ 64 * (raw / 2 ^ 64) + 2 ^ 31)
    with (raw + 2 ^ 31 + (- 2 ^ 32 * (raw / 2 ^ 64)) * 2 ^ 32) by lia.
  rewrite Z.mod_add by lia. apply Z.mod_small. lia.
Qed.

(** Sources of a poller: the key of a descriptor, and whether it is armed. *)
Abbreviation sources_of := (gmap Z (Z * bool)).

(** Reporting an event disarms its source. *)
Definition disarm (fds : list Z) (m : sources_of) : sources_of :=
  foldr (alter (λ e, (e.1, false))) m fds.

(** What polling documents: [add] arms a source under the key of the event,
    [delete] removes it, [wait] reports armed sources, each once, and disarms
    them. *)
Class PollingLaws `{Polling} := {
  pl_sources : pl_poller → sources_of;
  pl_new_law p : pl_new = Ok p → pl_sources p = ∅;
  pl_add_law fd ev p :
    wp (pl_add fd ev) (λ r p', pl_sources p' =
      match r with Ok _ => <[fd := (key ev, true)]> (pl_sources p) | Err _ => pl_sources p end) p;
  pl_delete_law fd p :
    wp (pl_delete fd) (λ r p', pl_sources p' =
      match r with Ok _ => delete fd (pl_sources p) | Err _ => pl_sources p end) p;
  pl_wait_law t p :
    wp (pl_wait t) (λ r p', ∃ fds, NoDup fds ∧ pl_sources p' = disarm fds (pl_sources p) ∧
      match r with
      | Ok evs => Forall2 (λ fd ev, pl_sources p !! fd = Some (key ev, true)) fds evs
      | Err _ => True
      end) p;
}.

Lemma disarm_notin fds (m : sources_of) fd : fd ∉ fds → disarm fds m !! fd = m !! fd.
Proof.
  induction fds as [|x fds IH]; [done|]. intros [Hne Hin]%not_elem_of_cons. simpl.
  rewrite lookup_alter_ne by done. auto.
Qed.

Lemma disarm_in fds (m : sources_of) fd k b :
  NoDup fds → fd ∈ fds → m !! fd = Some (k, b) → disarm fds m !! fd = Some (k, false).
Proof.
  induction fds as [|x fds IH]; [by intros _ ?%not_elem_of_nil|].
  intros [Hx Hnd]%list.NoDup_cons Hin Hm. simpl. destruct (decide (x = fd)) as [->|Hne].
  - rewrite lookup_alter_eq, disarm_notin by done. by rewrite Hm.
  - rewrite lookup_alter_ne by done. apply IH; [done| |done].
    by apply elem_of_cons in Hin as [->|].
Qed.

Section once.
Context `{LY : Layout} `{CH : Channel} {A : Type} `{AA : !Actor A} `{RI : !RawIds}.
Context `{PL : Polling}.
Implicit Types (s : PollingScheduler).

(** ** Runs of a scheduler *)

(** The calls that a pool makes. *)
Inductive SchedOp :=
| OpRegister (a : A)
| OpUnregister (id : ActorId)
| OpWait (timeout : option Z)
| OpNext.

(** The event a call hands to the pool, if any. *)
Definition sched_op (op : SchedOp) : prog PollingScheduler ActorErr (option (IoSrc ActorId)) :=
  match op with
  | OpRegister a => polling_register a ≫= λ _, mret None
  | OpUnregister id => polling_unregister id ≫= λ _, mret None
  | OpWait t => polling_wait_io t ≫= λ _, mret None
  | OpNext => λ s, Ret (Ok (polling_next s).1, (polling_next s).2)
  end.

(** All calls are made, whatever they return. *)
Fixpoint sched_ops (ops : list SchedOp) : prog PollingScheduler ActorErr (list (IoSrc ActorId)) :=
  match ops with
  | [] => mret []
  | op :: ops =>
      attempt (sched_op op) ≫= λ r, sched_ops ops ≫= λ evs,
      mret (match r with Ok (Some ev) => ev :: evs | _ => evs end)
  end.

(** How often [id] occurs. *)
Definition count_events (id : ActorId) (evs : list (IoSrc ActorId)) : nat :=
  length (filter (λ ev, source ev = id) evs).

Definition registers (id : ActorId) (op : SchedOp) : nat :=
  match op with
  | OpRegister a => if decide (actor_id a = id) then 1 else 0
  | _ => 0
  end.
Definition count_registered (id : ActorId) (ops : list SchedOp) : nat :=
  sum_list_with (registers id) ops.

Context `{RL : !RawIdsLaws} `{PLL : !PollingLaws}.

(** ** Counting *)

(** Sources have the key and the descriptor of some actor. *)
Definition keyed (m : sources_of) : Prop :=
  ∀ fd e, m !! fd = Some e → ∃ i : ActorId, fd = as_raw i ∧ e.1 = as_usize (as_raw i).

(** The event that may still come. *)
Definition pending (id : ActorId) (m : sources_of) : nat :=
  match m !! as_raw id with Some (_, true) => 1 | _ => 0 end.

Definition credit (id : ActorId) s : nat :=
  count_events id (pl_events s) + count_events id (map io_src (read_events s)) +
  pending id (pl_sources (pl_poll s)).

Lemma count_events_app id evs1 evs2 :
  count_events id (evs1 ++ evs2) = (count_events id evs1 + count_events id evs2)%nat.
Proof. unfold count_events. by rewrite list.filter_app, length_app. Qed.

Lemma count_events_cons id ev evs :
  count_events id (ev :: evs) = (count_events id [ev] + count_events id evs)%nat.
Proof. exact (count_events_app id [ev] evs). Qed.

Lemma as_raw_inj (i j : ActorId) : as_raw i = as_raw j → i = j.
Proof. intros E. by rewrite <-(from_as_raw i), E, from_as_raw. Qed.

(** The key of a source leads back to its actor. *)
Lemma io_src_source ev (i : ActorId) : key ev = as_usize (as_raw i) → source (io_src ev) = i.
Proof.
  intros E. unfold io_src. simpl. rewrite E, raw_fd_roundtrip by apply as_raw_range.
  apply from_as_raw.
Qed.

Lemma keyed_disarm fds (m : sources_of) : keyed m → keyed (disarm fds m).
Proof.
  intros Hm. induction fds as [|x fds IH]; [done|]. simpl. intros fd e.
  rewrite lookup_alter_Some. intros [(<- & e' & E & ->)|[_ E]]; by apply IH in E.
Qed.

Lemma pending_le id (m : sources_of) : (pending id m ≤ 1)%nat.
Proof. unfold pending. destruct (m !! as_raw id) as [[? []]|]; lia. Qed.

Lemma pending_disarm id fds (m : sources_of) :
  NoDup fds → (pending id (disarm fds m) ≤ pending id m)%nat.
Proof.
  intros Hnd. unfold pending. destruct (decide (as_raw id ∈ fds)) as [Hin|Hin].
  - destruct (m !! as_raw id) as [[k b]|] eqn:E.
    + rewrite (disarm_in _ _ _ _ _ Hnd Hin E). lia.
    + assert (disarm fds m !! as_raw id = None) as ->; [|lia]. clear -E.
      induction fds as [|x fds IH]; [done|]. simpl. apply lookup_alter_None, IH.
  - by rewrite disarm_notin.
Qed.

(** Reported events use up the armed source. *)
Lemma pending_report id fds evs (m : sources_of) :
  keyed m → NoDup fds → Forall2 (λ fd ev, m !! fd = Some (key ev, true)) fds evs →
  (count_events id (map io_src evs) + pending id (disarm fds m) ≤ pending id m)%nat.
Proof.
  intros Hk Hnd Hev.
  assert (count_events id (map io_src evs) ≤ if decide (as_raw id ∈ fds) then 1 else 0)%nat as Hc.
  { clear -Hk Hnd Hev RL. induction Hev as [|fd ev fds evs E Hev IH]; [done|].
    apply list.NoDup_cons in Hnd as [Hfd Hnd]. specialize (IH Hnd).
    destruct (Hk _ _ E) as (i & Hi & Hkey). unfold count_events in IH |- *. simpl in Hkey |- *.
    rewrite filter_cons. pose proof (io_src_source _ _ Hkey) as Hsrc.
    destruct (decide (i = id)) as [->|Hne].
    - subst fd. rewrite decide_True by done. simpl.
      destruct (decide (as_raw id ∈ fds)); [done|]. destruct (decide _); [lia|set_solver].
    - rewrite decide_False by congruence. etransitivity; [exact IH|].
      repeat destruct (decide _); set_solver || lia. }
  destruct (decide (as_raw id ∈ fds)) as [Hin|Hin].
  - apply list_elem_of_lookup in Hin as [n Hn].
    destruct (Forall2_lookup_l _ _ _ _ _ Hev Hn) as (ev & _ & E).
    unfold pending. erewrite disarm_in by eauto using list_elem_of_lookup_2. rewrite E. lia.
  - pose proof (pending_disarm id fds m Hnd). lia.
Qed.

(** ** Runs *)

(** What a call delivers comes out of the credit, which only a registration
    adds to. *)
Definition spends (id : ActorId) (op : SchedOp) s (got : nat) s' : Prop :=
  keyed (pl_sources (pl_poll s')) ∧ (got + credit id s' ≤ credit id s + registers id op)%nat.

Lemma register_spends id a s :
  keyed (pl_sources (pl_poll s)) →
  wp (polling_register a) (λ _ s', spends id (OpRegister a) s 0 s') s.
Proof.
  intros Hk. unfold polling_register, on_poll. wp_steps. apply wp_zoom.
  eapply wp_mono; [apply pl_add_law|]. simpl. intros r p' Hp.
  assert (∀ acts, spends id (OpRegister a) s 0 {| pl_poll := p'; pl_actors := acts;
    pl_events := pl_events s; read_events := read_events s |}) as Hend; [|destruct r; wp_steps; apply Hend].
  intros acts. unfold spends, credit. simpl. destruct r; rewrite Hp; [|split; [done|lia]]. split.
  - intros fd e [[<- <-]|[_ E]]%lookup_insert_Some; [by eexists|by eapply Hk].
  - case_decide as Hid.
    + pose proof (pending_le id (<[as_raw (actor_id a) := (as_usize (as_raw (actor_id a)), true)]>
        (pl_sources (pl_poll s)))). lia.
    + unfold pending. rewrite lookup_insert_ne; [lia|]. by intros ?%as_raw_inj.
Qed.

Lemma unregister_spends id i s :
  keyed (pl_sources (pl_poll s)) →
  wp (polling_unregister i) (λ _ s', spends id (OpUnregister i) s 0 s') s.
Proof.
  intros Hk. unfold polling_unregister, on_poll. wp_steps. apply wp_zoom.
  eapply wp_mono; [apply pl_delete_law|]. simpl. intros r p' Hp. unfold spends, credit. simpl.
  destruct r; rewrite Hp; [|split; [done|lia]]. split.
  - intros fd e [_ E]%lookup_delete_Some. by eapply Hk.
  - unfold pending. destruct (decide (as_raw i = as_raw id)) as [->|Hne].
    + rewrite lookup_delete_eq. lia.
    + rewrite lookup_delete_ne by done. lia.
Qed.

Lemma wait_io_spends id t s :
  keyed (pl_sources (pl_poll s)) →
  wp (polling_wait_io t) (λ _ s', spends id (OpWait t) s 0 s') s.
Proof.
  intros Hk. unfold polling_wait_io, on_poll. wp_steps. apply wp_zoom.
  eapply wp_mono; [apply pl_wait_law|]. simpl. intros r p' (fds & Hnd & Hp & Hev).
  assert (keyed (pl_sources p')) as Hk' by (rewrite Hp; by apply keyed_disarm).
  destruct r as [evs|e]; simpl.
  - wp_steps. pose proof (pending_report id fds evs _ Hk Hnd Hev) as Hc. rewrite <-Hp in Hc.
    case_decide as Hnil; wp_steps; (split; [done|]); unfold credit; simpl.
    + apply app_nil in Hnil as [-> ->]. simpl. lia.
    + rewrite count_events_app, map_app, count_events_app. unfold count_events at 4. simpl. lia.
  - split; [done|]. unfold credit. simpl. rewrite Hp. pose proof (pending_disarm id fds (pl_sources (pl_poll s)) Hnd). lia.
Qed.

Lemma next_spends id s :
  keyed (pl_sources (pl_poll s)) →
  spends id OpNext s (count_events id (option_list (polling_next s).1)) (polling_next s).2.
Proof.
  intros Hk. unfold spends, credit, polling_next. destruct (pl_events s) as [|ev evs] eqn:E; simpl.
  - rewrite E. split; [done|]. unfold count_events. simpl. lia.
  - split; [done|]. rewrite (count_events_cons id ev evs). lia.
Qed.

Lemma sched_op_spends id op s :
  keyed (pl_sources (pl_poll s)) →
  wp (sched_op op) (λ r s', spends id op s
    (match r with Ok (Some ev) => count_events id [ev] | _ => 0 end) s') s.
Proof.
  intros Hk. destruct op; simpl; [apply wp_bind; eapply wp_mono..|].
  1: by apply (register_spends id). 2: by apply (unregister_spends id). 3: by apply (wait_io_spends id).
  1-3: by intros [[]|e] s' Hs.
  unfold wp. pose proof (next_spends id s Hk) as Hn. destruct (polling_next s) as [[ev|] s'];
    exact Hn.
Qed.

Lemma sched_ops_spend id ops s :
  keyed (pl_sources (pl_poll s)) →
  wp (sched_ops ops) (λ r _, ∃ evs, r = Ok evs ∧
    count_events id evs ≤ credit id s + count_registered id ops)%nat s.
Proof.
  revert s. induction ops as [|op ops IH]; intros s Hk.
  - apply wp_ret. exists []. split; [done|]. unfold count_events. simpl. lia.
  - simpl. wp_steps. eapply wp_mono; [by apply (sched_op_spends id)|]. intros r s1 [Hk1 Hs1].
    apply wp_bind. eapply wp_mono; [by apply IH|]. intros ? s2 (evs & -> & Hc). apply wp_ret.
    eexists. split; [done|]. unfold count_registered in Hc |- *. simpl.
    destruct r as [[ev|]|e]; simpl in *; [rewrite (count_events_cons id ev evs)|..]; lia.
Qed.

(** C35. An actor gets at most one event for each time it is registered, however
    often its source is ready and the pool waits: a second event of a source
    needs [Poller::modify], which the scheduler does not call. *)
Theorem polling_one_event (id : ActorId) ops s :
  polling_new = Ok s →
  ∃ evs s', sched_ops ops s = Ret (Ok evs, s') ∧
    (count_events id evs ≤ count_registered id ops)%nat.
Proof.
  unfold polling_new. intros Hs. destruct pl_new as [p|] eqn:E; [|done].
  injection Hs as <-. apply pl_new_law in E.
  match goal with |- ∃ _ _, sched_ops _ ?s = _ ∧ _ => pose proof (sched_ops_spend id ops s) as Hw end.
  unfold wp in Hw. simpl in Hw. rewrite E in Hw. specialize (Hw ltac:(done)).
  destruct (sched_ops ops _) as [[r s']| |]; [|done..]. destruct Hw as (evs & -> & Hc).
  do 2 eexists. split; [done|]. revert Hc. unfold credit, pending, count_events. simpl.
  rewrite E, lookup_empty. simpl. lia.
Qed.
End once.
