(* ===== verification/ActorToy.v ===== *)
(** * Concrete actors to run the earlier reactor with

    An actor that records what it is told, a handler that counts errors, and a
    poller that reports every armed source: the theorems on re-actor are
    evaluated on them. *)

From S2P Require Import Prelude StdLib Timeouts Resource Channel ActorReactor ActorSpec ActorPool ActorSched ActorOnce.

#[local] Open Scope Z_scope.

Module ActorToy.
#[export] Existing Instance ListChannel.lib.
#[export] Existing Instance ListChannel.laws.

(** Pools by number, two actors, commands of bytes. *)
#[export] Instance layout : Layout := {
  PoolId := nat;
  ActorContext := bool;
  ActorId := bool;
  ActorCmd := list byte;
  ActorErr := io_error;
}.

(** An actor with its id, its events and what it was sent; one event in which
    nothing is ready is an error. *)
Record Act := { aid : bool; seen : list IoEv.t; told : list byte; errors : nat }.

Definition set_act (f : Act → Act) : prog (Act * Store) io_error unit :=
  modify (λ s, (f s.1, s.2)).

Definition see (ev : IoEv.t) : prog (Act * Store) io_error unit :=
  if IoEv.is_readable ev || IoEv.is_writable ev
  then set_act (λ a, {| aid := aid a; seen := seen a ++ [ev]; told := told a; errors := errors a |})
  else throw (from_kind WouldBlock).

Definition hear (data : list byte) : prog (Act * Store) io_error unit :=
  set_act (λ a, {| aid := aid a; seen := seen a; told := told a ++ data; errors := errors a |}).

Definition fail (_ : io_error) : prog (Act * Store) io_error unit :=
  set_act (λ a, {| aid := aid a; seen := seen a; told := told a; errors := S (errors a) |}).

#[export] Instance actor : Actor Act := {
  actor_with ctx _ := mret {| aid := ctx; seen := []; told := []; errors := 0 |};
  actor_id := aid;
  io_ready := see;
  handle_cmd := hear;
  handle_err := fail;
}.

#[export] Instance actor_laws h : ActorLaws Act h.
Proof.
  split; intros; [by apply wp_ret|..]; try (by apply wp_modify). simpl. unfold see.
  case_match; [by apply wp_modify|by apply wp_throw].
Qed.

#[export] Instance handler : ErrHandler nat := λ _ n, Ret (S n).
#[export] Instance handler_laws : ErrHandlerLaws nat.
Proof. intros e n. by exists (S n). Qed.

(** The actors are descriptors 3 and 4. *)
#[export] Instance raw_ids : RawIds := {
  err_from_io e := e;
  as_raw b := if (b : bool) then 3 else 4;
  from_raw z := bool_decide (z = 3);
}.

#[export] Instance raw_ids_laws : RawIdsLaws.
Proof. split; by intros []. Qed.

(** A poller that reports all armed sources. *)
Definition armed (m : sources_of) : list (Z * (Z * bool)) :=
  filter (λ e, e.2.2 = true) (map_to_list m).

#[export] Instance polling : Polling := {
  pl_poller := sources_of;
  pl_new := Ok ∅;
  pl_add fd ev := modify (<[fd := (key ev, true)]>);
  pl_delete fd := modify (delete fd);
  pl_wait _ := λ m, Ret (Ok (map (λ e, event_all e.2.1) (armed m)), disarm (armed m).*1 m);
}.

#[export] Instance polling_laws : PollingLaws.
Proof.
  refine {| pl_sources := λ m : @pl_poller polling, m |}; simpl.
  - by intros p [= <-].
  - intros. by apply wp_modify.
  - intros. by apply wp_modify.
  - intros t p. exists (armed p).*1. split_and!; [|done|].
    + unfold armed. eapply sublist_NoDup; [apply (NoDup_fst_map_to_list p)|].
      apply fmap_sublist, sublist_filter.
    + apply Forall2_fmap, Forall_Forall2_diag, list.Forall_forall.
      intros [fd [k b]] [Hb Hin]%list_elem_of_filter. simpl in Hb |- *. subst b.
      by apply elem_of_map_to_list in Hin.
Defined.

(** A popol that reports every source as readable. *)
#[export] Instance popol : KeyedPopol bool := {
  kp_poll := gset bool;
  kp_new := ∅;
  kp_get k p := bool_decide (k ∈ p);
  kp_register k _ _ p := {[k]} ∪ p;
  kp_unregister k p := p ∖ {[k]};
  kp_wait_timeout _ p := (Ok (bool_decide (p = ∅)), p);
  kp_events p := map (λ k, (k, 1)) (elements p);
  kp_is_readable ev := Z.testbit ev 0;
  kp_is_writable ev := Z.testbit ev 2;
  kp_ALL := 5;
}.

#[export] Instance popol_laws : KeyedPopolLaws bool.
Proof.
  refine {| kp_keys := λ p : @kp_poll bool popol, p |}; simpl; try done.
  intros p. apply Forall_map, list.Forall_forall. intros k. apply elem_of_elements.
Defined.

(** ** A run

    Pools 7 and 9; the pool of channel 0 is told to connect both actors, to
    send to the first and to disconnect the second. *)
Definition sched0 : PopolScheduler := popol_new.
Definition pools : list (Pool (Sch := PopolScheduler) (Hd := nat)) :=
  [{| info_id := 7%nat; info_scheduler := sched0; info_handler := 0%nat |};
   {| info_id := 9%nat; info_scheduler := sched0; info_handler := 0%nat |}].

Definition messages : list (ControlEvent bool bool (list byte)) :=
  [Connect true; Connect false; Send true [Byte.x41]; Disconnect false].

Definition store0 : Store :=
  {| fresh := 1;
     cell := λ _, {| ListChannel.items := messages; ListChannel.receiver := true;
                     ListChannel.sender := true |} |}.

Definition pool0 : PoolRuntime (A := Act) (Sch := PopolScheduler) (Hd := nat) :=
  pool_new 7%nat sched0 0%nat 0%nat store0 unbounded.

Definition polling0 : PollingScheduler :=
  {| pl_poll := (∅ : @pl_poller polling); pl_actors := ∅; pl_events := []; read_events := [] |}.

Definition calls : list (SchedOp (A := Act)) :=
  let a := {| aid := true; seen := []; told := []; errors := 0 |} in
  [OpRegister a; OpWait None; OpNext; OpWait None; OpNext; OpWait None; OpNext;
   OpRegister a; OpWait None; OpNext; OpWait None; OpNext].
End ActorToy.

Section witness.
Import ActorToy.

Lemma controller_routing_witness :
  ∃ infos s c, register_pools pools (no_channels, controller_new) = Ret (Ok infos, (s, c)) ∧
    ∃ h s', channels c !! 9%nat = Some h ∧ start_actor c 9%nat true s = Ret (Ok tt, s') ∧
      held s' h = [Connect true].
Proof.
  do 3 eexists. split; [reflexivity|].
  destruct (controller_routing pools _ _ _ _ eq_refl (rtc_refl _ _)) as [H _].
  specialize (H 9%nat true). destruct H as (h & s' & Hc & Hs & Hh & _).
  exists h, s'. split_and!; [done..|]. rewrite Hh. simpl in Hc. by injection Hc as <-.
Defined.

Lemma pool_run_safe_witness :
  ∃ n p', pool_run (A := Act) n controller_new [0; 1; 2] pool0 = Ret (Ok tt, p') ∧
    pool_inv 0%nat p' ∧ held (store p') 0%nat = [].
Proof.
  assert (pool_inv (A := Act) 0%nat pool0) as Hi.
  { split_and!; [|done..]. split; [done| |done]. by intros id ?%not_elem_of_empty. }
  destruct (pool_run_safe 0%nat controller_new [0; 1; 2] pool0 Hi) as [n Hn].
  specialize (Hn n (Nat.le_refl _)). unfold wp in Hn.
  destruct (pool_run n _ _ _) as [[[[]|[]] p']| |] eqn:E; [|done..]. destruct Hn as [Hp Hh].
  exists n, p'. split; [exact E|]. split; [exact Hp|by apply Hh].
Defined.

(** Actor [true] is registered twice and gets two events, however often the
    poller is asked. *)
Lemma polling_one_event_witness :
  ∃ evs s', sched_ops calls polling0 = Ret (Ok evs, s') ∧
    length evs = 2%nat ∧ (count_events (LY := layout) true evs ≤ 2)%nat.
Proof.
  destruct (polling_one_event (LY := layout) true calls polling0 eq_refl) as (evs & s' & E & Hc).
  exists evs, s'. split_and!; [exact E| |exact Hc]. vm_compute in E. by injection E as <- _.
Defined.
End witness.
