(* ===== verification/ActorTcp.v ===== *)
(** * TCP actors of the earlier reactor: re-actor/src/actors/stdtcp.rs, socket2.rs

    [TcpConnection] is the actor of a standard library's stream,
    [SocketConnection] the same actor on a socket2 socket, [TcpSpawner] the
    actor of a listener. Streams and listeners are classes; a stream has the
    methods and laws of Net.v. *)

From S2P Require Import Prelude StdLib Resource Channel ActorReactor ActorSpec Net Sockets Frame.

#[local] Open Scope nat_scope.

Inductive TcpAction (C Ad : Type) :=
| Accept (stream : C) (addr : Ad)
| Connect (addr : Ad).
Arguments Accept {C Ad} stream addr.
Arguments Connect {C Ad} addr.

Section connection.
Context `{LY : Layout} `{CH : Channel} `{VD : VecDequeLayout}.

(** ** Connections *)

(** [TcpConnection] on a stream of type [C]. *)
Record TcpConnection {C : Type} := {
  stream : C;
  queue : list byte;
  read_buf : list byte;
  controller : Controller;
  is_inbound : bool;
}.
Arguments TcpConnection : clear implicits.

(** [Vec::with_capacity]: the vector has room and no elements. *)
Definition vec_with_capacity (n : nat) : list byte := [].
Definition u16_MAX : nat := Z.to_nat (2 ^ 16 - 1).

Section stdtcp.
Context {C : Type} `{NC : !NetConnection C} `{ST : !StdTcp C}.
Abbreviation Conn := (TcpConnection C).

Definition set_stream (x : C) (t : Conn) : Conn :=
  {| stream := x; queue := queue t; read_buf := read_buf t; controller := controller t;
     is_inbound := is_inbound t |}.
Definition set_queue (x : list byte) (t : Conn) : Conn :=
  {| stream := stream t; queue := x; read_buf := read_buf t; controller := controller t;
     is_inbound := is_inbound t |}.
Definition set_read_buf (x : list byte) (t : Conn) : Conn :=
  {| stream := stream t; queue := queue t; read_buf := x; controller := controller t;
     is_inbound := is_inbound t |}.

Definition tcp_connect `{!ToSocketAddrs C A} (addr : A) (c : Controller) : io_result Conn :=
  let read_buf := vec_with_capacity u16_MAX in
  stream ← connect_to addr;
  Ok {| stream := stream; queue := []; read_buf := read_buf; controller := c; is_inbound := false |}.

Definition tcp_accept (stream : C) (c : Controller) : io_result Conn :=
  let read_buf := vec_with_capacity u16_MAX in
  Ok {| stream := stream; queue := []; read_buf := read_buf; controller := c; is_inbound := true |}.

Definition tcp_with (context : TcpAction C SocketAddr) (c : Controller) : io_result Conn :=
  match context with
  | Accept stream _ => tcp_accept stream c
  | Connect addr => tcp_connect addr c
  end.

Definition tcp_id (t : Conn) : Z := conn_fd (stream t).

(** [Read] and [Write] *)
Definition tcp_read (n : nat) : prog Conn io_error (list byte) :=
  gets queue ≫= λ q,
  let k := Nat.min n (front_len q) in
  modify (set_queue (drop k q)) ≫= λ _, mret (take k q).

Definition on_stream {A} (m : prog C io_error A) : prog Conn io_error A :=
  zoom stream set_stream m.

Definition tcp_write (buf : list byte) : prog Conn io_error nat := on_stream (conn_write buf).
Definition tcp_flush : prog Conn io_error unit := on_stream conn_flush.

(** [self.stream.read(&mut self.read_buf)]: the stream reads into a slice as
    long as the vector. *)
Definition read_stream : prog Conn io_error nat :=
  gets read_buf ≫= λ buf,
  on_stream (conn_read (length buf)) ≫= λ bs,
  modify (set_read_buf (bs ++ drop (length bs) buf)) ≫= λ _,
  mret (length bs).

Definition tcp_io_ready (io : IoEv.t) : prog Conn io_error unit :=
  (if IoEv.is_readable io then tcp_flush else mret tt) ≫= λ _,
  if IoEv.is_writable io then
    read_stream ≫= λ len,
    gets read_buf ≫= λ buf,
    if decide (length buf < len) then panic "range end index out of range" else
    modify (λ t, set_queue (queue t ++ take len buf) t)
  else mret tt.

Definition tcp_handle_cmd (fuel : nat) (data : list byte) : prog Conn io_error unit :=
  write_all_with tcp_write fuel data.

Definition tcp_handle_err (err : io_error) : prog Conn io_error unit := throw err.

(** ** The listener *)

Record TcpSpawner := { socket : TcpListener; spawner_controller : Controller }.

Definition spawner_with (context : SocketAddr) (c : Controller) : outcome (io_result TcpSpawner) :=
  match listener_bind context with
  | Err e => Ret (Err e)
  | Ok socket =>
      '(r, socket) ← listener_set_nonblocking true socket;
      Ret (_ ← r; Ok {| socket := socket; spawner_controller := c |})
  end.

(** [L::convert] and [SESSION_POOL_ID.into()] *)
Context (convert : TcpAction C SocketAddr → ActorContext) (session_pool : PoolId).

Definition spawner_io_ready (_ : IoEv.t) : prog (TcpSpawner * Store) io_error unit :=
  zoom (λ s, socket s.1)
    (λ l s, ({| socket := l; spawner_controller := spawner_controller s.1 |}, s.2))
    listener_accept ≫= λ '(stream, peer_socket_addr),
  let action := Accept stream peer_socket_addr in
  let ctx := convert action in
  gets (λ s, spawner_controller s.1) ≫= λ c,
  with_err (λ _, from_kind NotConnected)
    (zoom snd (λ s t, (t.1, s)) (start_actor c session_pool ctx)) ≫= λ _,
  mret tt.

Definition spawner_handle_cmd (_ : unit) : prog TcpSpawner io_error unit := mret tt.
Definition spawner_handle_err (err : io_error) : prog TcpSpawner io_error unit := throw err.
End stdtcp.

(** ** socket2 *)

Section socket2.
Context {C Sk : Type} `{NC : !NetConnection Sk} `{ST : !StdTcp C} `{SK : !Socket2 C Sk}.

Definition SocketConnection : Type := TcpConnection Sk.

Definition READ_TIMEOUT : Z := from_secs 6.
Definition WRITE_TIMEOUT : Z := from_secs 3.

(** The three settings of a new socket. *)
Definition socket_setup : prog Sk io_error unit :=
  conn_set_read_timeout (Some READ_TIMEOUT) ≫= λ _,
  conn_set_write_timeout (Some WRITE_TIMEOUT) ≫= λ _,
  conn_set_nonblocking true.

(** The [match] on the result of [socket.connect]. *)
Definition connect_outcome (r : io_result unit) : io_result unit :=
  match r with
  | Ok _ => Ok tt
  | Err e =>
      if decide (raw_os_error e = Some EINPROGRESS) then Ok tt
      else if decide (raw_os_error e = Some EALREADY) then Err (from_kind AlreadyExists)
      else if decide (kind e = WouldBlock) then Ok tt
      else Err e
  end.

Definition sock_connect (addr : SocketAddr) (c : Controller) : outcome (io_result SocketConnection) :=
  let read_buf := vec_with_capacity u16_MAX in
  match socket_new (addr_is_ipv4 addr) with
  | Err e => Ret (Err e)
  | Ok sk =>
      '(r, sk) ← (socket_setup ≫= λ _,
                   attempt (socket_connect addr) ≫= λ r, of_result (connect_outcome r)) sk;
      Ret (_ ← r; Ok {| stream := sk; queue := []; read_buf := read_buf; controller := c;
                        is_inbound := false |})
  end.

Definition sock_accept (stream : C) (c : Controller) : outcome (io_result SocketConnection) :=
  let read_buf := vec_with_capacity u16_MAX in
  let sk := socket_from stream in
  '(r, sk) ← socket_setup sk;
  Ret (_ ← r; Ok {| stream := sk; queue := []; read_buf := read_buf; controller := c;
                    is_inbound := true |}).

Definition sock_with (context : TcpAction C SocketAddr) (c : Controller) :
    outcome (io_result SocketConnection) :=
  match context with
  | Accept stream _ => sock_accept stream c
  | Connect addr => sock_connect addr c
  end.

Definition sock_id (t : SocketConnection) : Z := conn_fd (stream t).

Definition sock_read (n : nat) : prog SocketConnection io_error (list byte) :=
  gets queue ≫= λ q,
  let k := Nat.min n (front_len q) in
  modify (set_queue (drop k q)) ≫= λ _, mret (take k q).

Definition sock_write (buf : list byte) : prog SocketConnection io_error nat :=
  on_stream (conn_write buf).
Definition sock_flush : prog SocketConnection io_error unit := on_stream conn_flush.

Definition sock_io_ready (io : IoEv.t) : prog SocketConnection io_error unit :=
  (if IoEv.is_readable io then sock_flush else mret tt) ≫= λ _,
  if IoEv.is_writable io then
    read_stream ≫= λ len,
    gets read_buf ≫= λ buf,
    if decide (length buf < len) then panic "range end index out of range" else
    modify (λ t, set_queue (queue t ++ take len buf) t)
  else mret tt.

Definition sock_handle_cmd (fuel : nat) (data : list byte) : prog SocketConnection io_error unit :=
  write_all_with sock_write fuel data.

Definition sock_handle_err (err : io_error) : prog SocketConnection io_error unit := throw err.
End socket2.
End connection.
