(* ===== verification/ActorTcpSpec.v ===== *)
(** * What the TCP actors do

    A connection sends the data of its commands, in order, and never takes a
    byte from its stream; a listener hands the connections it accepts to the
    controller. *)

From S2P Require Import Prelude StdLib Resource Channel ActorReactor ActorSpec ActorToy Net Sockets Frame ActorTcp.

#[local] Open Scope nat_scope.

Section connection.
Context `{LY : Layout} `{CH : Channel} `{VD : VecDequeLayout}.
Context {C : Type} `{NC : !NetConnection C} `{CL : !ConnectionLaws C} `{ST : !StdTcp C}.
Abbreviation Conn := (TcpConnection (C := C)).

(** ** The life of a connection *)

(** The calls of a runtime, and of the owner, who reads from the actor. *)
Inductive TcpOp :=
| OnIo (io : IoEv.t)
| OnCmd (data : list byte)
| OnErr (e : io_error)
| TakeRead (n : nat).

Definition tcp_op (fuel : nat) (op : TcpOp) : prog Conn io_error (list byte) :=
  match op with
  | OnIo io => tcp_io_ready io ≫= λ _, mret []
  | OnCmd data => tcp_handle_cmd fuel data ≫= λ _, mret []
  | OnErr e => tcp_handle_err e ≫= λ _, mret []
  | TakeRead n => tcp_read n
  end.

(** All calls are made, whatever they return. *)
Fixpoint tcp_ops (fuel : nat) (ops : list TcpOp) : prog Conn io_error (list (io_result (list byte))) :=
  match ops with
  | [] => mret []
  | op :: ops => attempt (tcp_op fuel op) ≫= λ r, tcp_ops fuel ops ≫= λ rs, mret (r :: rs)
  end.

(** Fuel for the bytes of a command. *)
Definition op_bytes (op : TcpOp) : nat := match op with OnCmd data => length data | _ => 0 end.

(** What a call with result [r] puts on the stream: the data of a command, or a
    part of it when the command fails. *)
Definition sends (op : TcpOp) (r : io_result (list byte)) (bs : list byte) : Prop :=
  match op, r with
  | OnCmd data, Ok _ => bs = data
  | OnCmd data, Err _ => bs `prefix_of` data
  | _, _ => bs = []
  end.

(** No room to read into, and nothing read. *)
Definition deaf (t : Conn) : Prop := queue t = [] ∧ read_buf t = [].

(** A step that leaves the actor deaf and its stream as it was. *)
Definition quiet (t t' : Conn) : Prop :=
  deaf t' ∧ patience (stream t') ≤ patience (stream t) ∧
  conn_in (stream t') = conn_in (stream t) ∧ conn_out (stream t') = conn_out (stream t).

(** A new connection, accepted or connected. *)
Lemma accept_deaf (stream : C) c t : tcp_accept stream c = Ok t → deaf t.
Proof. unfold tcp_accept. by intros [= <-]. Qed.

Lemma connect_deaf `{!ToSocketAddrs C A} (addr : A) c t : tcp_connect addr c = Ok t → deaf t.
Proof.
  unfold tcp_connect, mbind, result_bind. destruct (connect_to _); [|done]. by intros [= <-].
Qed.

Lemma quiet_refl t : deaf t → quiet t t.
Proof. intros Hd. by split_and!. Qed.

Lemma flush_quiet t : deaf t → wp tcp_flush (λ _, quiet t) t.
Proof.
  intros Hd. apply wp_zoom. eapply wp_mono; [apply conn_flush_law|].
  by intros r c' (Hi & Ho & _ & Hp).
Qed.

(** The buffer that the stream reads into has length zero. *)
Lemma read_stream_quiet t :
  deaf t → wp read_stream (λ r t', quiet t t' ∧ ∀ n, r = Ok n → n = 0) t.
Proof.
  intros [Hq Hb]. unfold read_stream. wp_steps. rewrite Hb. apply wp_zoom.
  eapply wp_mono; [apply conn_read_law|]. simpl. intros [bs|e] c' (Ho & _ & Hp & Hr).
  - destruct Hr as [Hl Hi]. destruct bs; [|simpl in Hl; lia]. wp_steps.
    split; [by split_and!|by intros n [= <-]].
  - destruct Hr as [Hi _]. by split_and!.
Qed.

Lemma io_ready_quiet io t : deaf t → wp (tcp_io_ready io) (λ _, quiet t) t.
Proof.
  intros Hd. unfold tcp_io_ready.
  assert (wp (if IoEv.is_readable io then tcp_flush else mret tt) (λ _, quiet t) t) as Hf.
  { destruct (IoEv.is_readable io); [by apply flush_quiet|by apply wp_ret, quiet_refl]. }
  apply wp_bind. eapply wp_mono; [exact Hf|]. intros [[]|e] t1 H1; [|done].
  destruct (IoEv.is_writable io); [|by apply wp_ret]. destruct H1 as (Hd1 & Hp1 & Hi1 & Ho1).
  apply wp_bind. eapply wp_mono; [by apply read_stream_quiet|].
  assert (∀ t2, quiet t1 t2 → quiet t t2) as Htrans.
  { intros t2 (? & ? & ? & ?). split_and!; [done|lia|congruence..]. }
  intros [len|e] t2 [H2 Hlen]; [|by apply Htrans]. pose proof (Hlen len eq_refl). wp_steps.
  rewrite decide_False by lia. subst len. wp_steps. apply Htrans.
  destruct H2 as ((Hq2 & Hb2) & ?). split; [|done]. split; [|done]. simpl. by rewrite Hq2.
Qed.

(** A command is written out. *)
Lemma handle_cmd_spec fuel data t :
  deaf t → length data + patience (stream t) ≤ fuel →
  wp (tcp_handle_cmd fuel data) (λ r t', deaf t' ∧ patience (stream t') ≤ patience (stream t) ∧
    conn_in (stream t') = conn_in (stream t) ∧
    ∃ sent, sends (OnCmd data) (_ ← r; Ok []) sent ∧
      conn_out (stream t') = conn_out (stream t) ++ sent) t.
Proof.
  intros Hd Hf. unfold wp, tcp_handle_cmd, tcp_write, on_stream.
  rewrite write_all_zoom by (by try intros []).
  eapply (wp_zoom stream set_stream), wp_mono; [by apply write_all_ok|].
  intros [[]|e] c' (Hi & _ & Hp & Ho); split_and!; try done; [by exists data|].
  destruct Ho as (n & _ & Ho). exists (take n data). split; [apply prefix_take|done].
Qed.

Lemma tcp_read_quiet n t :
  deaf t → wp (tcp_read n) (λ r t', quiet t t' ∧ r = Ok []) t.
Proof.
  intros [Hq Hb]. unfold tcp_read. wp_steps. rewrite Hq, drop_nil, take_nil. by split_and!.
Qed.

(** Every call: nothing is taken from the stream, and nothing is handed out. *)
Lemma tcp_op_spec fuel op t :
  deaf t → op_bytes op + patience (stream t) ≤ fuel →
  wp (tcp_op fuel op) (λ r t', deaf t' ∧ patience (stream t') ≤ patience (stream t) ∧
    conn_in (stream t') = conn_in (stream t) ∧ (∀ bs, r = Ok bs → bs = []) ∧
    ∃ sent, sends op r sent ∧ conn_out (stream t') = conn_out (stream t) ++ sent) t.
Proof.
  intros Hd Hf.
  assert (∀ r t', quiet t t' → (∀ bs, r = Ok bs → bs = []) → op_bytes op = 0 ∧ sends op r [] →
    deaf t' ∧ patience (stream t') ≤ patience (stream t) ∧
    conn_in (stream t') = conn_in (stream t) ∧ (∀ bs, r = Ok bs → bs = []) ∧
    ∃ sent, sends op r sent ∧ conn_out (stream t') = conn_out (stream t) ++ sent) as Hend.
  { intros r t' (? & ? & ? & Ho) Hr [_ Hs]. split_and!; [done..|]. exists []. by rewrite app_nil_r. }
  destruct op as [io|data|e|n]; unfold tcp_op.
  - apply wp_bind. eapply wp_mono; [by apply io_ready_quiet|].
    intros [[]|e] t' H1; [apply wp_ret|]; apply Hend; naive_solver.
  - apply wp_bind. eapply wp_mono; [by apply handle_cmd_spec|].
    intros [[]|e] t' (? & ? & ? & Hs); [apply wp_ret|]; split_and!; naive_solver.
  - wp_steps. apply Hend; [by apply quiet_refl|done|done].
  - eapply wp_mono; [by apply tcp_read_quiet|]. intros r t' [H1 ->]. apply Hend; naive_solver.
Qed.

Lemma tcp_ops_spec fuel ops t :
  deaf t → sum_list_with op_bytes ops + patience (stream t) ≤ fuel →
  wp (tcp_ops fuel ops) (λ r t', ∃ rs sent, r = Ok rs ∧
    conn_in (stream t') = conn_in (stream t) ∧ (∀ bs, Ok bs ∈ rs → bs = []) ∧
    Forall3 sends ops rs sent ∧ conn_out (stream t') = conn_out (stream t) ++ concat sent) t.
Proof.
  revert t. induction ops as [|op ops IH]; intros t Hd Hf; simpl in *.
  { apply wp_ret. exists [], []. rewrite app_nil_r. split_and!; [done..| |constructor|done].
    by intros bs ?%elem_of_nil. }
  wp_steps. eapply wp_mono; [apply tcp_op_spec; [done|lia]|].
  intros r t1 (Hd1 & Hp1 & Hi1 & Hr1 & bs1 & Hs1 & Ho1).
  apply wp_bind. eapply wp_mono; [apply IH; [done|lia]|].
  intros ? t2 (rs & sent & -> & Hi2 & Hr2 & Hs2 & Ho2). apply wp_ret.
  exists (r :: rs), (bs1 :: sent). split_and!; [done|congruence|..].
  - intros bs [<-|Hin]%elem_of_cons; [by apply Hr1|by apply Hr2].
  - by constructor.
  - by rewrite Ho2, Ho1, <-app_assoc.
Qed.

(** C36. The life of a TCP actor, whatever events and commands it gets: it sends
    the data of its commands in order, a failed one in part, and it never
    receives. What its owner reads from it is always empty, and nothing is ever
    taken from the stream, because the buffer to read into has a capacity and
    no length. *)
Theorem tcp_never_receives action c t ops fuel :
  tcp_with action c = Ok t →
  sum_list_with op_bytes ops + patience (stream t) ≤ fuel →
  ∃ rs sent t', tcp_ops fuel ops t = Ret (Ok rs, t') ∧
    conn_in (stream t') = conn_in (stream t) ∧ (∀ bs, Ok bs ∈ rs → bs = []) ∧
    Forall3 sends ops rs sent ∧ conn_out (stream t') = conn_out (stream t) ++ concat sent.
Proof.
  intros Hw Hf. assert (deaf t) as Hd.
  { destruct action; [by eapply accept_deaf|by eapply connect_deaf]. }
  pose proof (tcp_ops_spec fuel ops t Hd Hf) as H. unfold wp in H.
  destruct (tcp_ops fuel ops t) as [[r t']| |]; [|done..].
  destruct H as (rs & sent & -> & ?). by exists rs, sent, t'.
Qed.
End connection.

(** ** Listeners *)

Section spawner.
Context `{LY : Layout} `{CL : ChannelLaws}.
Context {C : Type} `{NC : !NetConnection C} `{ST : !StdTcp C}.
Context (convert : TcpAction C SocketAddr → ActorContext) (session_pool : PoolId).

(** A channel whose receiver is gone takes nothing. *)
Lemma send_event_dead s h ev :
  has_receiver (cell s h) = false →
  ∃ s', send_event h ev s = Ret (Err ControlChannelBroken, s') ∧ held s' h = held s h ∧
    ∀ n, n ≠ h → cell s' n = cell s n.
Proof.
  intros Hr. unfold send_event, held. pose proof (chan_send_law _ ev (cell s h)) as Hl.
  destruct (chan_send ev (cell s h)) as [r c]. rewrite Hr in Hl.
  destruct Hl as (_ & _ & -> & Hq). simpl. eexists. split; [done|]. simpl.
  rewrite decide_True by done. split; [done|]. intros n Hn. by rewrite decide_False.
Qed.

(** An event of a listener, on every branch: a connection that is accepted
    is queued for the pool of the sessions, behind what waits there and in no
    other channel; when the pool is unknown or its thread is gone, the
    connection is dropped and the error is [NotConnected], whatever the
    controller reported; an error of [accept] is passed on and nothing is
    sent. *)
Theorem spawner_hands_over sp s io :
  let c := spawner_controller sp in
  match listener_accept (socket sp) with
  | Ret (Ok (stream, peer), l) =>
      let sp' := {| socket := l; spawner_controller := c |} in
      ∃ r s', spawner_io_ready convert session_pool io (sp, s) = Ret (r, (sp', s')) ∧
      match channels c !! session_pool with
      | Some h =>
          (∀ n, n ≠ h → cell s' n = cell s n) ∧
          if has_receiver (cell s h)
          then r = Ok tt ∧
               held s' h = held s h ++ [ActorReactor.Connect (convert (Accept stream peer))]
          else r = Err (from_kind NotConnected) ∧ held s' h = held s h
      | None => r = Err (from_kind NotConnected) ∧ s' = s
      end
  | Ret (Err e, l) =>
      spawner_io_ready convert session_pool io (sp, s) =
      Ret (Err e, ({| socket := l; spawner_controller := c |}, s))
  | Panic msg => spawner_io_ready convert session_pool io (sp, s) = Panic msg
  | Hang => spawner_io_ready convert session_pool io (sp, s) = Hang
  end.
Proof.
  simpl. assert (channel_for (spawner_controller sp) session_pool =
    match channels (spawner_controller sp) !! session_pool with
    | Some h => Ok h | None => Err (UnknownPool session_pool) end) as Hch by done.
  unfold spawner_io_ready, start_actor. unfold_prog.
  destruct (listener_accept (socket sp)) as [[[[stream peer]|e] l]| |]; [|done..]. simpl.
  rewrite Hch. destruct (channels (spawner_controller sp) !! session_pool) as [h|]; simpl;
    [|by do 2 eexists].
  destruct (has_receiver (cell s h)) eqn:Hr.
  - edestruct (send_event_spec s h) as (s' & -> & _ & Hh & Ho & _); [done|].
    do 2 eexists. split; [done|]. by split.
  - edestruct (send_event_dead s h) as (s' & -> & Hh & Ho); [done|].
    do 2 eexists. split; [done|]. by split.
Qed.
End spawner.

(** ** A run *)

Section witness.
#[local] Existing Instance ActorToy.layout.
#[local] Existing Instance ListChannel.lib.
#[local] Existing Instance ToyFrame.bytewise.

(** Connecting gives a scripted socket. *)
#[local] Instance script_tcp : StdTcp Script.t := {
  SocketAddr := Z;
  stream_connect a := Ok {| Script.fd := 3; Script.peer := a;
    Script.reads := [Script.Arrive [Byte.x41; Byte.x42]];
    Script.writes := [Script.Room 1; Script.Room 9; Script.Room 1; Script.WriteFails BrokenPipe];
    Script.out := [] |};
  TcpListener := unit;
  listener_bind _ := Ok tt;
  listener_set_nonblocking _ := mret tt;
  listener_accept := throw (from_kind WouldBlock);
}.

Definition connect9 : TcpAction Script.t (@SocketAddr _ script_tcp) := Connect 9%Z.

(** Two bytes wait on the stream; the actor gets events and two commands, the
    second of which fails after one byte. *)
Lemma tcp_never_receives_witness :
  ∃ t rs t', tcp_with (C := Script.t) connect9 controller_new = Ok t ∧
    tcp_ops 100 [OnIo {| IoEv.is_readable := true; IoEv.is_writable := true |};
                 OnCmd [Byte.x01; Byte.x02]; TakeRead 10; OnCmd [Byte.x03; Byte.x04]; TakeRead 10] t =
      Ret (Ok rs, t') ∧
    conn_in (stream t') = [Byte.x41; Byte.x42] ∧
    (∀ bs, Ok bs ∈ rs → bs = []) ∧
    conn_out (stream t') = [Byte.x01; Byte.x02; Byte.x03].
Proof.
  eexists. edestruct (tcp_never_receives (C := Script.t) connect9 controller_new)
    with (ops := [OnIo {| IoEv.is_readable := true; IoEv.is_writable := true |};
                 OnCmd [Byte.x01; Byte.x02]; TakeRead 10; OnCmd [Byte.x03; Byte.x04]; TakeRead 10])
         (fuel := 100) as (rs & sent & t' & E & Hi & Hr & _ & _); [reflexivity|simpl; lia|].
  exists rs, t'. split; [reflexivity|]. split; [exact E|]. split; [exact Hi|]. split; [exact Hr|].
  vm_compute in E. by injection E as _ <-.
Defined.
End witness.
