(* ===== verification/ActorTcpPool.v ===== *)
(** * TCP connections as the actors of a pool

    [TcpConnection] as the root actor of a layout. It keeps the promises that
    [PoolRuntime] asks of its actors, as [PopolScheduler] does of its
    scheduler, so the theorems on pools hold for pools of TCP connections. *)

From S2P Require Import Prelude StdLib Resource Channel ActorReactor ActorSpec ActorPool ActorSched ActorOnce ActorToy Net Sockets Frame ActorTcp ActorTcpSpec.

#[local] Open Scope nat_scope.

Section tcp.
Context {L C : Type} `{Countable L} `{CH : Channel} `{VD : VecDequeLayout}.
Context `{NC : !NetConnection C} `{CL : !ConnectionLaws C} `{ST : !StdTcp C}.

(** A layout whose root actor is [TcpConnection]. *)
Definition tcp_layout : Layout := {|
  PoolId := L;
  ActorContext := TcpAction C SocketAddr;
  ActorId := Z;
  ActorCmd := list byte;
  ActorErr := io_error;
|}.
#[local] Existing Instance tcp_layout.
Abbreviation Conn := (TcpConnection (C := C)).

(** A method of the connection, next to the channels. *)
Definition on_conn {A} (m : prog Conn io_error A) : prog (Conn * Store) io_error A :=
  zoom fst (λ t s, (t, s.2)) m.

(** The fuel of a command covers its bytes and the interruptions to come. *)
#[export] Instance tcp_actor : Actor Conn := {|
  actor_with ctx c := of_result (tcp_with ctx c) : prog Store ActorErr Conn;
  actor_id := tcp_id : Conn → ActorId;
  io_ready ev := on_conn (tcp_io_ready ev);
  handle_cmd data := λ s, on_conn (tcp_handle_cmd (length data + patience (stream s.1)) data) s;
  handle_err e := on_conn (tcp_handle_err e);
|}.

(** ** Every method returns and keeps the descriptor *)

Definition keeps_fd (t t' : Conn) : Prop := tcp_id t' = tcp_id t.

Lemma tcp_flush_fd t : wp tcp_flush (λ _, keeps_fd t) t.
Proof.
  apply wp_zoom. eapply wp_mono; [apply conn_flush_law|]. by intros r c' (_ & _ & ? & _).
Qed.

(** A read reports no more bytes than the buffer holds. *)
Lemma read_stream_fd t :
  wp read_stream (λ r t', keeps_fd t t' ∧ ∀ n, r = Ok n → n ≤ length (read_buf t')) t.
Proof.
  unfold read_stream. wp_steps. apply wp_zoom. eapply wp_mono; [apply conn_read_law|].
  intros [bs|e] c' (_ & Hfd & _ & _); simpl; [wp_steps|by split].
  split; [done|]. intros n [= <-]. rewrite length_app. lia.
Qed.

Lemma tcp_io_ready_fd ev t : wp (tcp_io_ready ev) (λ _, keeps_fd t) t.
Proof.
  unfold tcp_io_ready.
  assert (wp (if IoEv.is_readable ev then tcp_flush else mret tt) (λ _, keeps_fd t) t) as Hf.
  { destruct (IoEv.is_readable ev); [apply tcp_flush_fd|by apply wp_ret]. }
  apply wp_bind. eapply wp_mono; [exact Hf|]. intros [[]|e] t1 H1; [|done].
  destruct (IoEv.is_writable ev); [|by apply wp_ret].
  apply wp_bind. eapply wp_mono; [apply read_stream_fd|]. unfold keeps_fd in *.
  intros [len|e] t2 [H2 Hlen]; [|congruence]. specialize (Hlen len eq_refl). wp_steps.
  rewrite decide_False by lia. wp_steps. change (tcp_id t2 = tcp_id t). congruence.
Qed.

Lemma tcp_handle_cmd_fd data t :
  wp (tcp_handle_cmd (length data + patience (stream t)) data) (λ _, keeps_fd t) t.
Proof.
  unfold wp, tcp_handle_cmd, tcp_write, on_stream. rewrite write_all_zoom by (by try intros []).
  eapply (wp_zoom stream set_stream), wp_mono; [by apply write_all_ok|].
  by intros r c' (_ & ? & _).
Qed.

Lemma on_conn_wp {A} `{CLs : !ChannelLaws} h (m : prog Conn io_error A) (t : Conn) (s : Store) :
  wp m (λ _, keeps_fd t) t →
  wp (on_conn m) (λ _ s', actor_id s'.1 = actor_id t ∧ calm h s s'.2) (t, s).
Proof. intros Hm. apply wp_zoom. eapply wp_mono; [exact Hm|]. by intros r t' Hfd. Qed.

(** [TcpConnection] keeps the promises of an actor, in every pool. *)
#[export] Instance tcp_actor_laws `{CLs : !ChannelLaws} h : ActorLaws Conn h.
Proof.
  split; intros; simpl.
  - by apply wp_of_result.
  - apply on_conn_wp, tcp_io_ready_fd.
  - apply (on_conn_wp h (tcp_handle_cmd (length cmd + patience (stream a)) cmd)), tcp_handle_cmd_fd.
  - by apply on_conn_wp, wp_throw.
Qed.
(** ** A pool of connections *)

Context {Hd : Type} `{HH : !ErrHandler Hd} `{HL : !ErrHandlerLaws Hd}.
Context `{RI : !RawIds} `{KP : !KeyedPopol (ActorId (Layout := tcp_layout))} `{KL : !KeyedPopolLaws ActorId}.

End tcp.

(** ** A run *)

Module ToyTcpPool.
#[export] Existing Instance ListChannel.lib.
#[export] Existing Instance ListChannel.laws.
#[export] Existing Instance ToyFrame.bytewise.
#[export] Existing Instance script_tcp.

#[export] Instance layout : Layout := tcp_layout (L := nat) (C := Script.t).
#[export] Instance handler : ErrHandler nat := λ _ n, Ret (S n).
#[export] Instance handler_laws : ErrHandlerLaws nat.
Proof. intros e n. by exists (S n). Qed.
#[export] Instance raw_ids : RawIds := {
  err_from_io e := e;
  as_raw z := z;
  from_raw z := z;
}.

(** Every source is reported as readable and writable. *)
#[export] Instance popol : KeyedPopol (ActorId (Layout := layout)) := {
  kp_poll := gset Z;
  kp_new := ∅;
  kp_get k p := bool_decide (k ∈ p);
  kp_register k _ _ p := {[k]} ∪ p;
  kp_unregister k p := p ∖ {[k]};
  kp_wait_timeout _ p := (Ok (bool_decide (p = ∅)), p);
  kp_events p := map (λ k, (k, 5%Z)) (elements p);
  kp_is_readable ev := Z.testbit ev 0;
  kp_is_writable ev := Z.testbit ev 2;
  kp_ALL := 5;
}.
#[export] Instance popol_laws : KeyedPopolLaws (ActorId (Layout := layout)).
Proof.
  refine {| kp_keys := λ p : @kp_poll _ popol, p |}; simpl; try done.
  intros p. apply Forall_map, list.Forall_forall. intros k. apply elem_of_elements.
Defined.

(** The pool is told to connect, to send two bytes, and to send to nobody. *)
Definition messages : list (ControlEvent (TcpAction Script.t Z) Z (list byte)) :=
  [ActorReactor.Connect connect9; Send 3%Z [Byte.x01; Byte.x02]; Send 4%Z [Byte.x03]].
Definition store0 : Store :=
  {| fresh := 1;
     cell := λ _, {| ListChannel.items := messages; ListChannel.receiver := true;
                     ListChannel.sender := true |} |}.
End ToyTcpPool.

Section witness.
Import ToyTcpPool.


(** In the run the connection sends the bytes of its command, and the events
    of the second iteration bring it nothing. *)
Example tcp_pool_run :
  match pool_run (A := TcpConnection (C := Script.t)) (Sch := PopolScheduler) (Hd := nat) 9
      controller_new [0%Z; 1%Z] (pool_new 7 popol_new 0 0 store0 unbounded) with
  | Ret (_, p') => match actors p' !! 3%Z with
                   | Some t => Some (conn_out (stream t), conn_in (stream t), queue t)
                   | None => None
                   end
  | _ => None
  end = Some ([Byte.x01; Byte.x02], [Byte.x41; Byte.x42], []).
Proof. by vm_compute. Qed.
End witness.
