(* ===== verification/ActorPeer.v ===== *)
(** * Peers of the earlier reactor: src/actors

    [noise_xk] wraps a stream next to the keys of a Noise session, [NxkSession]
    and [NxkSpawner] are actors on top of the TCP actors, and [PeerActor] is one
    or the other. The addresses and keys of cyphernet are a class. *)

From S2P Require Import Prelude StdLib Resource Channel ActorReactor Net Sockets Frame ActorTcp.

#[local] Open Scope nat_scope.

(** [LocalNode], public keys and [NxkAddr], a [UniversalAddr] of a peer's key and
    a socket address. *)
Class Peers (C : Type) `{StdTcp C} := {
  LocalNode : Type;
  PubKey : Type;
  NxkAddr : Type;
  (** [as_remote_addr().to_pubkey()] *)
  to_pubkey : NxkAddr → PubKey;
  (** [Into<SocketAddr>] and [ToSocketAddrs] *)
  into_socket_addr : NxkAddr → SocketAddr;
  nxk_resolves :: ToSocketAddrs C NxkAddr;
}.

(** ** noise_xk.rs *)

Module NoiseXk.
Section noise_xk.
Context {PK LN : Type}.

Record Stream {S : Type} := { inner : S; local_node : LN; remote_key : option PK }.
Arguments Stream : clear implicits.

Definition set_inner {S} (x : S) (s : Stream S) : Stream S :=
  {| inner := x; local_node := local_node s; remote_key := remote_key s |}.

Definition connect {S} (stream : S) (remote_key : PK) (local_node : LN) : io_result (Stream S) :=
  Ok {| inner := stream; local_node := local_node; remote_key := Some remote_key |}.

Definition upgrade {S} (stream : S) (local_node : LN) : Stream S :=
  {| inner := stream; local_node := local_node; remote_key := None |}.

Definition as_inner {S} (s : Stream S) : S := inner s.

(** [AsRawFd]; [fd] is that of the inner stream. *)
Definition as_raw_fd {S} (fd : S → Z) (s : Stream S) : Z := fd (inner s).

(** [as_inner_mut], and [Read] and [Write] through it. *)
Definition as_inner_mut {S A} (m : prog S io_error A) : prog (Stream S) io_error A :=
  zoom inner set_inner m.

Definition read {S} (rd : nat → prog S io_error (list byte)) (n : nat) :
    prog (Stream S) io_error (list byte) := as_inner_mut (rd n).
Definition write {S} (wr : list byte → prog S io_error nat) (buf : list byte) :
    prog (Stream S) io_error nat := as_inner_mut (wr buf).
Definition flush {S} (fl : prog S io_error unit) : prog (Stream S) io_error unit :=
  as_inner_mut fl.
End noise_xk.
Arguments Stream : clear implicits.
End NoiseXk.

Section peer.
Context `{LY : Layout} `{CH : Channel} `{VD : VecDequeLayout}.
Context {C : Type} `{NC : !NetConnection C} `{ST : !StdTcp C} `{PE : !Peers C}.
Abbreviation Conn := (TcpConnection (C := C)).

(** ** nxk_tcp.rs *)

Inductive NxkAction :=
| NxkAccept (stream : C) (addr : SocketAddr)
| NxkConnect (addr : NxkAddr).

(** [From<NxkAction> for TcpAction] *)
Definition tcp_action (nxk : NxkAction) : TcpAction C SocketAddr :=
  match nxk with
  | NxkAccept stream addr => Accept stream addr
  | NxkConnect nxk_addr => Connect (into_socket_addr nxk_addr)
  end.

Record NxkContext := { action : NxkAction; nxk_local_node : LocalNode }.

Abbreviation NxkStream := (NoiseXk.Stream PubKey LocalNode Conn).

Record NxkSession := { nxk_stream : NxkStream; peer_addr : option NxkAddr }.

Definition set_nxk_stream (x : NxkStream) (s : NxkSession) : NxkSession :=
  {| nxk_stream := x; peer_addr := peer_addr s |}.

Definition nxk_accept (tcp_stream : C) (local_node : LocalNode) (c : Controller) :
    io_result NxkSession :=
  connection ← tcp_accept tcp_stream c;
  let stream := NoiseXk.upgrade connection local_node in
  Ok {| nxk_stream := stream; peer_addr := None |}.

Definition nxk_connect (nsh_addr : NxkAddr) (local_node : LocalNode) (c : Controller) :
    io_result NxkSession :=
  let remote_key := to_pubkey nsh_addr in
  connection ← tcp_connect nsh_addr c;
  stream ← NoiseXk.connect connection remote_key local_node;
  Ok {| nxk_stream := stream; peer_addr := Some nsh_addr |}.

Definition nxk_with (context : NxkContext) (c : Controller) : io_result NxkSession :=
  match action context with
  | NxkAccept tcp_stream _ => nxk_accept tcp_stream (nxk_local_node context) c
  | NxkConnect addr => nxk_connect addr (nxk_local_node context) c
  end.

(** [AsRawFd for NxkSession]; that of [TcpConnection] is its id. *)
Definition nxk_as_raw_fd (s : NxkSession) : Z := NoiseXk.as_raw_fd tcp_id (nxk_stream s).

Definition nxk_id (s : NxkSession) : Z := NoiseXk.as_raw_fd tcp_id (nxk_stream s).

Definition on_nxk_stream {A} (m : prog NxkStream io_error A) : prog NxkSession io_error A :=
  zoom nxk_stream set_nxk_stream m.

Definition nxk_io_ready (io : IoEv.t) : prog NxkSession io_error unit :=
  on_nxk_stream (NoiseXk.as_inner_mut (tcp_io_ready io)).

(** [self.stream.write_all(&data)] *)
Definition nxk_handle_cmd (fuel : nat) (data : list byte) : prog NxkSession io_error unit :=
  on_nxk_stream (write_all_with (NoiseXk.write tcp_write) fuel data).

Definition nxk_handle_err (err : io_error) : prog NxkSession io_error unit := throw err.

(** [Read] and [Write for NxkSession] *)
Definition nxk_read (n : nat) : prog NxkSession io_error (list byte) :=
  on_nxk_stream (NoiseXk.read tcp_read n).
Definition nxk_write (buf : list byte) : prog NxkSession io_error nat :=
  on_nxk_stream (NoiseXk.write tcp_write buf).
Definition nxk_flush : prog NxkSession io_error unit :=
  on_nxk_stream (NoiseXk.flush tcp_flush).

(** *** The listener *)

Record NxkSpawner := { nxk_socket : TcpSpawner (C := C); spawner_local_node : LocalNode }.

Definition nxk_spawner_with (context : LocalNode * SocketAddr) (c : Controller) :
    outcome (io_result NxkSpawner) :=
  socket ← spawner_with context.2 c;
  Ret (socket ← socket; Ok {| nxk_socket := socket; spawner_local_node := context.1 |}).

(** A method of the [TcpSpawner], next to the channels. *)
Definition on_socket {A} (m : prog (TcpSpawner * Store) io_error A) :
    prog (NxkSpawner * Store) io_error A :=
  zoom (λ s, (nxk_socket s.1, s.2))
    (λ x s, ({| nxk_socket := x.1; spawner_local_node := spawner_local_node s.1 |}, x.2)) m.

(** [AsRawFd for NxkSpawner]; [listener_fd] is [TcpListener::as_raw_fd]. *)
Definition nxk_spawner_as_raw_fd (listener_fd : TcpListener → Z) (s : NxkSpawner) : Z :=
  listener_fd (socket (nxk_socket s)).

(** [L::convert] and [SESSION_POOL_ID.into()] *)
Context (convert : TcpAction C SocketAddr → ActorContext) (session_pool : PoolId).

Definition nxk_spawner_io_ready (io : IoEv.t) : prog (NxkSpawner * Store) io_error unit :=
  on_socket (spawner_io_ready convert session_pool io).

Definition nxk_spawner_handle_cmd (cmd : unit) : prog (NxkSpawner * Store) io_error unit :=
  on_socket (zoom fst (λ x s, (x, s.2)) (spawner_handle_cmd cmd)).
Definition nxk_spawner_handle_err (err : io_error) : prog (NxkSpawner * Store) io_error unit :=
  on_socket (zoom fst (λ x s, (x, s.2)) (spawner_handle_err err)).

(** ** peer.rs *)

Inductive Action :=
| PeerListen (addr : SocketAddr)
| PeerAccept (stream : C) (addr : SocketAddr)
| PeerConnect (addr : NxkAddr).

(** [From<&NxkAction> for Action] *)
Definition peer_action (method : NxkAction) : outcome Action :=
  match method with
  | NxkAccept stream addr =>
      match conn_try_clone stream with
      | Ok clone => Ret (PeerAccept clone addr)
      | Err _ => Panic "TCP stream cloning failure"
      end
  | NxkConnect addr => Ret (PeerConnect addr)
  end.

Record PeerContext := { method : Action; context_local_node : LocalNode }.

Definition peer_context (ctx : NxkContext) : outcome PeerContext :=
  m ← peer_action (action ctx);
  Ret {| method := m; context_local_node := nxk_local_node ctx |}.

Inductive PeerActor :=
| Listener (listener : NxkSpawner)
| Session (session : NxkSession).

Definition peer_with (context : PeerContext) (c : Controller) : outcome (io_result PeerActor) :=
  match method context with
  | PeerListen socket_addr =>
      listener ← nxk_spawner_with (context_local_node context, socket_addr) c;
      Ret (listener ← listener; Ok (Listener listener))
  | PeerAccept tcp_stream _ =>
      Ret (session ← nxk_accept tcp_stream (context_local_node context) c; Ok (Session session))
  | PeerConnect nsh_addr =>
      Ret (session ← nxk_connect nsh_addr (context_local_node context) c; Ok (Session session))
  end.

Definition peer_id (listener_fd : TcpListener → Z) (p : PeerActor) : Z :=
  match p with
  | Listener listener => nxk_spawner_as_raw_fd listener_fd listener
  | Session session => nxk_as_raw_fd session
  end.

(** A method of the variant [p] is. *)
Definition peer_method {A}
    (on_listener : prog (NxkSpawner * Store) io_error A)
    (on_session : prog NxkSession io_error A) : prog (PeerActor * Store) io_error A :=
  λ s, match s.1 with
       | Listener listener =>
           '(r, (l, st)) ← on_listener (listener, s.2); Ret (r, (Listener l, st))
       | Session session => '(r, x) ← on_session session; Ret (r, (Session x, s.2))
       end.

Definition peer_io_ready (io : IoEv.t) : prog (PeerActor * Store) io_error unit :=
  peer_method (nxk_spawner_io_ready io) (nxk_io_ready io).

Definition peer_handle_cmd (fuel : nat) (cmd : list byte) : prog (PeerActor * Store) io_error unit :=
  peer_method (panic "data sent to TCP listener") (nxk_handle_cmd fuel cmd).

Definition peer_handle_err (err : io_error) : prog (PeerActor * Store) io_error unit := throw err.
End peer.
