(* ===== verification/ActorPeerSpec.v ===== *)
(** * What a peer of the earlier reactor does

    A Noise XK session of src/actors is its TCP connection: whatever happens to
    it happens to the connection, no key takes part, and the bytes on the wire
    are those of the commands. *)

From S2P Require Import Prelude StdLib Resource Channel ActorReactor ActorSpec ActorToy Net Sockets Frame ActorTcp ActorTcpSpec ActorPeer.

#[local] Open Scope nat_scope.

(** ** Programs on a field *)

Section via.
Context {S T E : Type} (get : T → S) (put : S → T → T).

(** [m'] is [m] on the field. *)
Definition via {A} (m' : prog T E A) (m : prog S E A) : Prop :=
  ∀ t, m' t = zoom get put m t.

Lemma via_zoom {A} (m : prog S E A) : via (zoom get put m) m.
Proof. done. Qed.

Context (put_get : ∀ s t, get (put s t) = s) (put_put : ∀ s s' t, put s' (put s t) = put s' t)
  (get_put : ∀ t, put (get t) t = t).

Lemma via_ret {A} (a : A) : via (mret a) (mret a).
Proof. intros t. unfold_prog. by rewrite get_put. Qed.

Lemma via_throw {A} e : via (throw e : prog T E A) (throw e).
Proof. intros t. unfold_prog. by rewrite get_put. Qed.

Lemma via_bind {A B} (m' : prog T E A) m (k' : A → prog T E B) k :
  via m' m → (∀ a, via (k' a) (k a)) → via (m' ≫= k') (m ≫= k).
Proof.
  intros Hm Hk t. unfold mbind, prog_bind. rewrite Hm. unfold zoom.
  destruct (m (get t)) as [[[a|e] s]| |]; try done. rewrite Hk. unfold zoom. rewrite put_get.
  destruct (k a s) as [[r s']| |]; [|done..]. by rewrite put_put.
Qed.
End via.

Lemma via_attempt {S T E F A} (get : T → S) (put : S → T → T) (m' : prog T E A) (m : prog S E A) :
  via get put m' m → via (E := F) get put (attempt m') (attempt m).
Proof.
  intros Hm t. unfold attempt. rewrite Hm. unfold zoom. by destruct (m (get t)) as [[[a|e] s]| |].
Qed.

(** ** Sessions *)

Section session.
Context `{LY : Layout} `{CH : Channel} `{VD : VecDequeLayout}.
Context {C : Type} `{NC : !NetConnection C} `{CL : !ConnectionLaws C} `{ST : !StdTcp C} `{PE : !Peers C}.
Abbreviation Conn := (TcpConnection (C := C)).

(** The calls of a runtime and of the owner, on a session. *)
Definition nxk_op (fuel : nat) (op : TcpOp) : prog NxkSession io_error (list byte) :=
  match op with
  | OnIo io => nxk_io_ready io ≫= λ _, mret []
  | OnCmd data => nxk_handle_cmd fuel data ≫= λ _, mret []
  | OnErr e => nxk_handle_err e ≫= λ _, mret []
  | TakeRead n => nxk_read n
  end.

Fixpoint nxk_ops (fuel : nat) (ops : list TcpOp) :
    prog NxkSession io_error (list (io_result (list byte))) :=
  match ops with
  | [] => mret []
  | op :: ops => attempt (nxk_op fuel op) ≫= λ r, nxk_ops fuel ops ≫= λ rs, mret (r :: rs)
  end.

(** The connection of a session. *)
Definition conn_of (s : NxkSession) : Conn := NoiseXk.inner (nxk_stream s).
Definition set_conn (t : Conn) (s : NxkSession) : NxkSession :=
  set_nxk_stream (NoiseXk.set_inner t (nxk_stream s)) s.

Lemma conn_set_conn t s : conn_of (set_conn t s) = t.
Proof. done. Qed.
Lemma set_set_conn t t' s : set_conn t' (set_conn t s) = set_conn t' s.
Proof. done. Qed.
Lemma set_conn_of s : set_conn (conn_of s) s = s.
Proof. by destruct s as [[]]. Qed.

Abbreviation is_conn := (via conn_of set_conn).

(** Both layers forward. *)
Lemma nested_is_conn {A} (m : prog Conn io_error A) :
  is_conn (on_nxk_stream (NoiseXk.as_inner_mut m)) m.
Proof.
  intros s. unfold on_nxk_stream, NoiseXk.as_inner_mut, zoom. unfold conn_of.
  by destruct (m _) as [[r t]| |].
Qed.

(** [write_all] loops on the outside; every write goes to the connection. *)
Lemma handle_cmd_is_conn fuel data : is_conn (nxk_handle_cmd fuel data) (tcp_handle_cmd fuel data).
Proof.
  intros s. rewrite <-nested_is_conn. unfold nxk_handle_cmd, tcp_handle_cmd, on_nxk_stream.
  unfold zoom at 1. unfold NoiseXk.write, NoiseXk.as_inner_mut.
  rewrite write_all_zoom by (by try intros []). done.
Qed.

Lemma nxk_op_is_conn fuel op : is_conn (nxk_op fuel op) (tcp_op fuel op).
Proof.
  assert (∀ (m : prog NxkSession io_error unit) m', is_conn m m' →
    is_conn (m ≫= λ _, mret ([] : list byte)) (m' ≫= λ _, mret [])) as Hend.
  { intros m m' Hm. apply (via_bind conn_of set_conn conn_set_conn set_set_conn); [done|]. intros []. apply via_ret, set_conn_of. }
  destruct op as [io|data|e|n]; simpl.
  - apply Hend, nested_is_conn.
  - apply Hend, handle_cmd_is_conn.
  - apply Hend, via_throw, set_conn_of.
  - apply nested_is_conn.
Qed.

Lemma nxk_ops_is_conn fuel ops : is_conn (nxk_ops fuel ops) (tcp_ops fuel ops).
Proof.
  induction ops as [|op ops IH]; simpl; [apply via_ret, set_conn_of|].
  apply (via_bind conn_of set_conn conn_set_conn set_set_conn); [apply via_attempt, nxk_op_is_conn|]. intros r.
  apply (via_bind conn_of set_conn conn_set_conn set_set_conn); [done|]. intros rs. apply via_ret, set_conn_of.
Qed.

Lemma nxk_with_deaf context c s : nxk_with context c = Ok s → deaf (conn_of s).
Proof.
  destruct context as [[stream addr|addr] ln];
    unfold nxk_with, nxk_accept, nxk_connect, NoiseXk.connect, mbind, result_bind; simpl.
  - intros [= <-]. by eapply accept_deaf.
  - destruct (tcp_connect addr c) as [t|e] eqn:E; simpl; [|by intros].
    intros [= <-]. by eapply connect_deaf.
Qed.

(** C24. A Noise XK session of the actors is its TCP connection. In any state, any
    sequence of events, commands, errors and reads of its owner returns what it
    returns for the connection, and changes nothing but the connection; so a
    session that was just accepted or connected puts the data of its commands
    on the wire in plain text, whatever the keys, keeps the remote key it
    started with, none when it was accepted, and receives nothing. *)
Theorem nxk_session_is_tcp context c s ops fuel :
  (∀ s', nxk_ops fuel ops s' = zoom conn_of set_conn (tcp_ops fuel ops) s') ∧
  (nxk_with context c = Ok s → sum_list_with op_bytes ops + patience (stream (conn_of s)) ≤ fuel →
   NoiseXk.remote_key (nxk_stream s) =
     match action context with NxkAccept _ _ => None | NxkConnect addr => Some (to_pubkey addr) end ∧
   ∃ rs sent t', nxk_ops fuel ops s = Ret (Ok rs, set_conn t' s) ∧
     Forall3 sends ops rs sent ∧ (∀ bs, Ok bs ∈ rs → bs = []) ∧
     conn_in (stream t') = conn_in (stream (conn_of s)) ∧
     conn_out (stream t') = conn_out (stream (conn_of s)) ++ concat sent).
Proof.
  split; [apply nxk_ops_is_conn|]. intros Hw Hf. split.
  { destruct context as [[stream addr|addr] ln]; unfold nxk_with, nxk_accept, nxk_connect in Hw; simpl in *.
    - by injection Hw as <-.
    - revert Hw. unfold NoiseXk.connect, mbind, result_bind.
      destruct (tcp_connect addr c); [|done]. by intros [= <-]. }
  pose proof (tcp_ops_spec fuel ops (conn_of s) (nxk_with_deaf _ _ _ Hw) Hf) as H.
  rewrite nxk_ops_is_conn. unfold zoom. unfold wp in H.
  destruct (tcp_ops fuel ops (conn_of s)) as [[r t']| |]; [|done..].
  destruct H as (rs & sent & -> & ? & ? & ? & ?). by exists rs, sent, t'.
Qed.

(** ** Peers *)

(** A peer that is a session acts as the session, and leaves the channels
    alone; a command to a listener ends the thread of its pool. *)
Lemma peer_session_io convert session_pool io (s : NxkSession) (st : Store) :
  peer_io_ready convert session_pool io (Session s, st) =
  zoom (λ _, s) (λ s' _, (Session s', st)) (nxk_io_ready io) (Session s, st).
Proof. unfold peer_io_ready, peer_method, zoom. simpl. by destruct (nxk_io_ready io s) as [[]| |]. Qed.

Lemma listener_command_panics fuel cmd l (st : Store) :
  peer_handle_cmd fuel cmd (Listener l, st) = Panic "data sent to TCP listener".
Proof. done. Qed.
End session.

(** ** A run *)

Section witness.
#[local] Existing Instance ActorToy.layout.
#[local] Existing Instance ListChannel.lib.
#[local] Existing Instance ToyFrame.bytewise.
#[local] Existing Instance script_tcp.

(** An address is a key and a socket address. *)
#[local] Instance toy_peers : Peers Script.t := {
  LocalNode := list byte;
  PubKey := list byte;
  NxkAddr := list byte * Z;
  to_pubkey := fst;
  into_socket_addr := snd;
  nxk_resolves addr := Ok [addr.2];
}.

Definition connect_peer : NxkContext (C := Script.t) :=
  {| action := NxkConnect ([Byte.x70], 9%Z); nxk_local_node := [Byte.x6b] |}.

(** A command of two bytes, then a read by the owner: the two bytes are on the
    wire as they were. *)
Lemma nxk_session_is_tcp_witness :
  ∃ s rs t', nxk_with connect_peer controller_new = Ok s ∧
    NoiseXk.remote_key (nxk_stream s) = Some [Byte.x70] ∧
    nxk_ops 100 [OnCmd [Byte.x01; Byte.x02]; OnIo {| IoEv.is_readable := true; IoEv.is_writable := true |};
                 TakeRead 10] s = Ret (Ok rs, set_conn t' s) ∧
    conn_out (stream t') = [Byte.x01; Byte.x02].
Proof.
  eexists. edestruct (nxk_session_is_tcp connect_peer controller_new)
    with (ops := [OnCmd [Byte.x01; Byte.x02]; OnIo {| IoEv.is_readable := true; IoEv.is_writable := true |};
                 TakeRead 10])
         (fuel := 100) as [_ H].
  destruct H as (Hk & rs & sent & t' & E & _ & _ & _ & Ho); [reflexivity|simpl; lia|].
  exists rs, t'. split; [reflexivity|]. split; [exact Hk|]. split; [exact E|].
  rewrite Ho. vm_compute in E. injection E as _ Ht. vm_compute in Ho. by destruct Ht.
Defined.
End witness.
